(* ===== verification/_CoqProject ===== *)
-Q . S2P
Prelude.v
Base.v
Hex.v
Base64.v
Stream.v
Serialize.v
Jenkins.v
Hash.v
MerkleDamgard.v
Sha256Old.v
Containers.v
Hasher.v
Digits.v
Amounts.v
Memory.v
Pages.v
Mdbx.v
Env.v
Txn.v
MapInfo.v
Database.v
Chaindata.v
StopWatch.v
Misc.v
HumanBytes.v
Worker.v
Ossignals.v
Timer.v
Terminal.v
Log.v
Directories.v
Stages.v
Shutdown.v
Startup.v
Bench.v
Monitor.v
SharedPool.v
SharedPages.v
SharedLog.v
