(* ===== verification/Prelude.v ===== *)
(** * Moria, a formal development of the core of a ZEN node

    The program is a C++ library in two layers: [src/zen/core], which encodes,
    serializes and hashes, holds amounts and locks memory pages, and
    [src/zen/node], which keeps the chain in an MDBX database and runs the
    threads, timers, logs and directories around it. Every file of the
    development models the sources named in its own header; this header says
    how the parts fit together, what the theorems show and what is left out.

    ** The program's parts and the files that model them

    - [Base]: [core/common/base.hpp], [endian.hpp], the error enumerations.
    - [Hex]: [core/encoding/hex.*], tables and unrolled loop included.
    - [Base64]: [core/encoding/base64.*], over the filter of OpenSSL.
    - [Stream], [Serialize]: [core/serialization]. [Serialize] is written
      against the class [StreamOps] with the laws [StreamSpec], a queue of
      bytes; [DataStream] of [Stream] is an instance.
    - [Jenkins], [Hash]: [core/crypto/jenkins.cpp], [core/types/hash.hpp]; the
      second calls [Hex] and the first.
    - [MerkleDamgard] (a specification), [Sha256Old], [Hasher]: the hand-written
      SHA-256 of [core/crypto/sha_2_256_old.cpp], and the hashers and HMAC over
      OpenSSL, whose contexts come from a pool of [Containers].
    - [Containers]: [object_pool.hpp], [capped_set.hpp].
    - [Digits], [Amounts], [Misc], [HumanBytes], [StopWatch]: decimal
      notation, amounts and fee rates, sizes read from people's strings and
      printed for them, the stopwatch.
    - [Memory], [Pages]: [core/common/memory.*] and the secure allocator. The
      first has the counts of the locked pages over any policy class, the
      second the policy class of the program over the calls of the system, the
      manager of the process and the questions about memory it asks.
    - [Mdbx], [Env], [Txn], [MapInfo], [Database], [Chaindata]:
      [node/database]. [Mdbx] walks and erases by cursor, [Env] opens the
      environment, [Txn] has transactions and pooled cursors, [MapInfo] what a
      cursor tells of its table, [Database] the tables, the schema version and
      the progress of the stages, and [Chaindata] composes them into a session
      from deployment to commit.
    - [Stages]: [node/stages], [stoppable.*] and [node/common/settings.hpp].
    - [Worker], [Ossignals], [Timer]: [node/concurrency] and
      [node/common/asio_timer.hpp].
    - [Terminal], [Log]: [node/common/terminal.hpp], [log.*].
    - [Directories]: [node/common/directories.*].
    - [Monitor], [SharedPool], [SharedPages], [SharedLog]: the objects threads
      share behind a mutex. The first has what is common, threads whose steps
      interleave and what a mutex makes of them; the others are the calls of
      [object_pool.hpp], of the page manager and of the output of the log,
      access by access, and show them to be those of [Containers], [Memory]
      and [Log].
    - [Bench]: the benchmarks of the hashers and of [Hex].
    - [Startup] and [Shutdown] compose: the first the directories with the
      opening of the database in them, the second the signals with the workers
      and the stages they stop.

    ** How code becomes definitions

    A function of the code is a function of the model, with its guards and
    early returns in their order. State is passed explicitly: an object is a
    record, a member function takes and returns it. [tl::expected] is
    [expected]; a call that may throw, abort or have no defined behaviour
    returns an [outcome]. Code over the database runs in the monad [db] of
    [Txn], in which an exception keeps the state it was thrown in. Unsigned
    arithmetic is integers with [u32] and [u64] where the code wraps; [int64_t]
    overflow is [Undefined]. Characters and bytes are both [byte]. Threads are
    transition systems ([Worker], [Monitor]), asynchronous handlers are events
    ([Timer]).

    Code that is not under [src/] is an interface, a class with the documented
    behaviour of each call as a law, and has a reference instance at which
    the witnesses evaluate: [Intx] (Base), [Base64Bio] (Base64), [Openssl]
    (Hasher), [Boost] (Amounts), [FixedText] (HumanBytes), [SystemCalls]
    (Pages), [MdbxCursor] and [MdbxOnLast] (Mdbx), [FileSystem], [MdbxFlags] and
    [MdbxEnv] (Env), [MdbxTxn] and [MdbxEnvTxn] (Txn), [MdbxMaps] (MapInfo),
    [DeadlineTimer] (Timer). The laws allow what the documentation does: an
    option of an environment may change others it is coupled with, opening the
    environment makes files, a map may be refused, a cursor of libmdbx may not
    be had for want of memory or be bound to no transaction any more, and a set
    of the standard library may rehash (the argument [keeps] of the section on
    [CappedSet] says what that does to iterators). The clock, time zones and message format are
    variables of a section of [Log]. Two interfaces are between parts of the
    program: [Locker] (Memory), which [Pages] implements as the policy class,
    and [FileSystem], which [Startup] implements by [Directories]. The class
    [Monitor] is what an object behind a mutex is to its threads.

    ** What the theorems show

    - Encodings: hexadecimal decoding is its one-line meaning on every input,
      writing each byte inside of its buffer, and inverts encoding both ways;
      base64 round trips up to [INT_MAX - 3] bytes;
      serialized values and compact sizes round trip, and reading a compact
      size is a reference parser that accepts the canonical encodings only;
      hashes are read from hexadecimal digits as the numbers they spell
      (without digits the code reads out of range); amounts are parsed exactly
      and printed canonically.
    - Equivalence and refinement: the unrolled SHA-256 is FIPS 180-4, the
      hashers give the Merkle-Damgard digest of what they were fed however it
      was cut, HMAC is RFC 2104, the stream is a queue, the capped set a
      first-in first-out cache as long as its iterators are valid, the size of a directory the sum of its files.
    - The database: cursor walks and erasures visit and remove exactly the
      records they should; no cursor handle is used after it is closed or held
      twice, and what leaks is counted; stage progress is read back as written,
      the schema version never goes down, and a committed session is what later
      transactions read.
    - Memory: the locks counted for each page are those of the ranges in use,
      and a page with a lock is one the system keeps in memory.
    - Sizes for people: a size is printed in the largest unit it reaches, to
      the two digits shown and the rounding of doubles, and what is printed is
      read back, bytes exactly and larger sizes to that precision.
    - Concurrency: in every interleaving a worker's state tells where its
      thread is, a stop ends it, if its work heeds [wait_for_kick], and a kick,
      and nothing else but a stop, brings it back from its wait, each within a
      bounded number of its own steps; a timer that is not started between a
      stop and the handler of the wait it cancelled fires once each interval;
      signals are counted and the tenth aborts; the calls of a thread-safe pool, of the page manager and of the log are
      atomic, so that no object is handed out twice, a page stays in memory
      while any thread uses it, and lines of the log are whole; after a
      signal every stage throws, and a worker's thread ends if its work gives
      up when it is told to stop.
    - Around the node: what a log statement prints and where; what clearing,
      deploying and temporary directories do to a filesystem; laps add up; the
      database opens in the directory deployed for it and, when the library
      makes its files in that directory only, opening changes nothing else.
    - What does not hold, as theorems of the model: a worker's start may wait
      for ever, a timer restarted too early spins, a bool read back is negated,
      reading and skipping wrap around, a lap may be negative, and others; the
      comments of these theorems say how.

    ** Bounds and fuel

    Loops that are not structural have fuel. Where a definition fixes it the
    measure is the length of the input ([decode] needs none, [Write_chunks],
    [update_chunks], [uncolored]), or the logarithm of the number ([dec]).
    Where it is an argument ([Memory], [Mdbx], [Directories]) the theorems say
    how much is enough, and that the loop then ends: the number of pages, of
    records, of entries, and of the steps of a call inside a mutex
    ([SharedPool], [SharedLog]: 3 and 5); [Memory.last_page_diverges] shows the
    one range on which the loop over pages does not end.

    ** Not modelled

    The stages themselves, whose [forward], [unwind] and [prune] are pure
    virtual and implemented nowhere in the repository. Accesses are interleaved
    one after the other: the weaker orders of a memory model, and so what a
    data race is to the C++ standard, are not. Singletons are values. The
    conversions between views, strings and slices are the identity on bytes.
    Tests, the programs under [cmd] that run tests and benchmarks, build files,
    generated and third-party code are left out.

    This file holds what the components share: results of fallible code,
    machine integers, bytes and byte strings, hint databases and tactics. *)
From Stdlib Require Export ZArith Lia Bool ZifyNat.
From Stdlib Require Strings.Byte.
From stdpp Require Export base tactics option list numbers countable strings.

#[export] Set Default Goal Selector "!".

Local Open Scope Z_scope.

Abbreviation byte := Corelib.Init.Byte.byte.

(** ** Results of fallible code *)

(** [tl::expected<A, E>]: a value or an [unexpected] error. *)
Inductive expected (E A : Type) : Type :=
  | Ok (a : A)
  | Unexpected (e : E).
Arguments Ok {E A} _.
Arguments Unexpected {E A} _.

#[export] Instance expected_ret {E} : MRet (expected E) := λ A a, Ok a.
#[export] Instance expected_bind {E} : MBind (expected E) := λ A B f m,
  match m with Ok a => f a | Unexpected e => Unexpected e end.
#[export] Instance expected_eq_dec {E A} `{EqDecision E, EqDecision A} :
  EqDecision (expected E A).
Proof. solve_decision. Defined.

(** How a call that may leave the straight path ends: it returns, it throws
    an exception [X], it aborts the process ([ZEN_ASSERT], [std::abort]), or
    the C++ standard gives it no meaning (signed overflow, out of range). *)
Inductive outcome (X A : Type) : Type :=
  | Return (a : A)
  | Throw (x : X)
  | Abort
  | Undefined.
Arguments Return {X A} _.
Arguments Throw {X A} _.
Arguments Abort {X A}.
Arguments Undefined {X A}.

#[export] Instance outcome_ret {X} : MRet (outcome X) := λ A a, Return a.
#[export] Instance outcome_bind {X} : MBind (outcome X) := λ A B f m,
  match m with
  | Return a => f a
  | Throw x => Throw x
  | Abort => Abort
  | Undefined => Undefined
  end.

Lemma bind_Return {X A B} (m : outcome X A) (f : A → outcome X B) b :
  m ≫= f = Return b ↔ ∃ a, m = Return a ∧ f a = Return b.
Proof.
  destruct m; (split; [intros Hf|intros (a' & Hm & Hf)]); try done; [by eexists|].
  by injection Hm as ->.
Qed.

Lemma throw_if_Return {X A} (b : bool) x (m : outcome X A) a :
  (if b then Throw x else m) = Return a → b = false ∧ m = Return a.
Proof. by destruct b. Qed.

(** ** Machine integers *)

(** Reduction of an integer to [w] bits, the value of an unsigned C++ type. *)
Definition wrap (w z : Z) : Z := z mod 2 ^ w.

Definition u32 (z : Z) : Z := wrap 32 z.
Definition u64 (z : Z) : Z := wrap 64 z.

Definition add32 (x y : Z) : Z := u32 (x + y).
Definition sub32 (x y : Z) : Z := u32 (x - y).

(** [x << n] and [x | y] at 32 bits, and [std::rotl(uint32_t, n)] for
    [0 < n < 32]. *)
Definition shl32 (x n : Z) : Z := u32 (Z.shiftl x n).
Definition rotl32 (x n : Z) : Z := Z.lor (shl32 x n) (Z.shiftr x (32 - n)).

Declare Scope moria_scope.
Delimit Scope moria_scope with moria.
Infix "⊞" := add32 (at level 50, left associativity) : moria_scope.
Infix "⊟" := sub32 (at level 50, left associativity) : moria_scope.
Infix "⊻" := Z.lxor (at level 48, left associativity) : moria_scope.

(** The values an unsigned [w]-bit type holds, and the [int64_t] ones. *)
Definition in_range (w z : Z) : Prop := 0 <= z < 2 ^ w.
Definition int64_min : Z := - 2 ^ 63.
Definition int64_max : Z := 2 ^ 63 - 1.
Definition fits_int64 (z : Z) : bool := (int64_min <=? z) && (z <=? int64_max).

(** [int64_t] arithmetic overflow is undefined behaviour. *)
Definition int64 {X} (z : Z) : outcome X Z :=
  if fits_int64 z then Return z else Undefined.

(** ** Bytes *)

Definition Z_of_byte (b : byte) : Z := Z.of_N (Byte.to_N b).
Definition byte_of_Z (z : Z) : byte :=
  default Byte.x00 (Byte.of_N (Z.to_N (z mod 256))).

#[export] Instance byte_eq_dec : EqDecision byte := Byte.byte_eq_dec.
#[export] Instance byte_countable : Countable byte :=
  inj_countable Byte.to_N Byte.of_N Byte.of_to_N.

(** A C++ string literal, as the bytes of its characters. *)
Definition chars (s : string) : list byte := String.list_byte_of_string s.

(** Case analysis over the 256 byte values, each case by computation. *)
Ltac byte_cases b := destruct b; vm_compute; try done.

Lemma Z_of_byte_range b : 0 <= Z_of_byte b < 256.
Proof. unfold Z_of_byte. pose proof (Byte.to_N_bounded b). lia. Qed.

Lemma byte_of_Z_of_byte b : byte_of_Z (Z_of_byte b) = b.
Proof. byte_cases b. Qed.

Lemma Z_of_byte_of_Z z : Z_of_byte (byte_of_Z z) = z mod 256.
Proof.
  pose proof (Z.mod_pos_bound z 256 ltac:(done)) as Hz.
  unfold byte_of_Z, Z_of_byte.
  destruct (Byte.of_N _) as [b|] eqn:Hb; simpl.
  - apply Byte.to_of_N in Hb. lia.
  - apply Byte.of_N_None_iff in Hb. lia.
Qed.

Lemma Z_of_byte_inj b c : Z_of_byte b = Z_of_byte c → b = c.
Proof. intros H. by rewrite <-(byte_of_Z_of_byte b), H, byte_of_Z_of_byte. Qed.

Lemma byte_of_Z_mod z : byte_of_Z (z mod 256) = byte_of_Z z.
Proof. unfold byte_of_Z. by rewrite Zmod_mod. Qed.

(** ** Byte strings as integers *)

Fixpoint le_bytes (n : nat) (z : Z) : list byte :=
  match n with
  | O => []
  | S n => byte_of_Z z :: le_bytes n (z / 256)
  end.
Fixpoint le_value (bs : list byte) : Z :=
  match bs with
  | [] => 0
  | b :: bs => Z_of_byte b + 256 * le_value bs
  end.

Definition be_bytes (n : nat) (z : Z) : list byte := reverse (le_bytes n z).
Definition be_value (bs : list byte) : Z := le_value (reverse bs).

Lemma length_le_bytes n z : length (le_bytes n z) = n.
Proof. revert z. induction n as [|n IH]; intros z; simpl; [done|]. by rewrite IH. Qed.

Lemma length_be_bytes n z : length (be_bytes n z) = n.
Proof. unfold be_bytes. by rewrite length_reverse, length_le_bytes. Qed.

Lemma le_value_bound bs : 0 <= le_value bs < 256 ^ Z.of_nat (length bs).
Proof.
  induction bs as [|b bs IH]; simpl; [done|].
  pose proof (Z_of_byte_range b).
  rewrite Nat2Z.inj_succ, Z.pow_succ_r; lia.
Qed.

Lemma le_value_le_bytes n z : le_value (le_bytes n z) = z mod 256 ^ Z.of_nat n.
Proof.
  revert z. induction n as [|n IH]; intros z; simpl; [by rewrite Z.mod_1_r|].
  rewrite IH, Z_of_byte_of_Z, Nat2Z.inj_succ, Z.pow_succ_r by lia.
  rewrite Z.rem_mul_r; lia.
Qed.

Lemma le_bytes_le_value bs : le_bytes (length bs) (le_value bs) = bs.
Proof.
  induction bs as [|b bs IH]; simpl; [done|].
  pose proof (Z_of_byte_range b).
  rewrite Z.mul_comm, Z.div_add, Z.div_small, Z.add_0_l, IH by lia.
  f_equal. rewrite <-byte_of_Z_mod, Z_mod_plus_full, byte_of_Z_mod.
  apply byte_of_Z_of_byte.
Qed.

Lemma le_value_small n z : 0 <= z < 256 ^ Z.of_nat n → le_value (le_bytes n z) = z.
Proof. intros. rewrite le_value_le_bytes. by apply Z.mod_small. Qed.

Lemma be_value_be_bytes n z : be_value (be_bytes n z) = z mod 256 ^ Z.of_nat n.
Proof. unfold be_value, be_bytes. by rewrite reverse_involutive, le_value_le_bytes. Qed.

Lemma be_value_small n z : 0 <= z < 256 ^ Z.of_nat n → be_value (be_bytes n z) = z.
Proof. intros. rewrite be_value_be_bytes. by apply Z.mod_small. Qed.

Lemma be_bytes_be_value bs : be_bytes (length bs) (be_value bs) = bs.
Proof.
  unfold be_bytes, be_value. rewrite <-(length_reverse bs).
  by rewrite le_bytes_le_value, reverse_involutive.
Qed.

Lemma be_value_bound bs : 0 <= be_value bs < 256 ^ Z.of_nat (length bs).
Proof. unfold be_value. rewrite <-(length_reverse bs). apply le_value_bound. Qed.

Lemma le_value_inj bs cs :
  length bs = length cs → le_value bs = le_value cs → bs = cs.
Proof.
  intros Hlen Hv. rewrite <-(le_bytes_le_value bs), <-(le_bytes_le_value cs).
  by rewrite Hlen, Hv.
Qed.

(** [memcpy] of [src] into [buf] at [off], all of it within the buffer. *)
Definition blit {A} (off : nat) (src buf : list A) : list A :=
  take off buf ++ src ++ drop (off + length src) buf.

Lemma length_blit {A} off (src buf : list A) :
  (off + length src ≤ length buf)%nat → length (blit off src buf) = length buf.
Proof. intros. unfold blit. rewrite !length_app, length_take, length_drop. lia. Qed.

(** ** The hint databases of the development *)

Create Rewrite HintDb moria_len.
#[export] Hint Rewrite @length_app @length_reverse @length_take @length_drop
  @length_replicate @length_fmap length_le_bytes length_be_bytes : moria_len.

(** Decides a goal about list lengths after normalising them. *)
Ltac len := autorewrite with moria_len in *; cbn [length] in *; lia.

(** [lia] for goals with [/] and [mod] by constants. *)
Ltac dlia := zify; Z.to_euclidean_division_equations; lia.

(** Evaluates the closed powers of the goal and the hypotheses. *)
Ltac const_pows :=
  repeat match goal with
  | |- context [?b ^ ?e] =>
      let c := eval vm_compute in (b ^ e) in
      lazymatch c with Z0 => idtac | Zpos _ => idtac | Zneg _ => idtac end;
      change (b ^ e) with c
  | H : context [?b ^ ?e] |- _ =>
      let c := eval vm_compute in (b ^ e) in
      lazymatch c with Z0 => idtac | Zpos _ => idtac | Zneg _ => idtac end;
      change (b ^ e) with c in H
  end.

(** Splits the innermost [if] or [match] of the goal, keeping the equation. *)
Ltac case_innermost :=
  match goal with
  | |- context [match ?x with _ => _ end] =>
      lazymatch x with
      | context [match _ with _ => _ end] => fail
      | _ => destruct x eqn:?
      end
  end.

(** Induction two elements at a time, for code that consumes pairs. *)
Lemma list_pair_ind {A} (P : list A → Prop) :
  P [] → (∀ a, P [a]) → (∀ a b l, P l → P (a :: b :: l)) → ∀ l, P l.
Proof.
  intros H0 H1 H2. fix IH 1. intros [|a [|b l]]; [done|done|].
  apply H2, IH.
Qed.

(** ** Bits and ranges *)

Lemma testbit_above n z i : in_range n z → n <= i → Z.testbit z i = false.
Proof.
  unfold in_range. intros Hz Hi.
  destruct (decide (z = 0)) as [->|]; [apply Z.testbit_0_l|].
  apply Z.bits_above_log2; [lia|].
  assert (0 <= n) by (destruct (decide (n < 0)); [rewrite Z.pow_neg_r in Hz|]; lia).
  apply Z.log2_lt_pow2; [lia|]. pose proof (Z.pow_le_mono_r 2 n i). lia.
Qed.

Lemma in_range_bits n z :
  0 <= n → 0 <= z → (∀ i, n <= i → Z.testbit z i = false) → in_range n z.
Proof.
  intros Hn Hz Hi. cut (z = z mod 2 ^ n).
  { intros ->. apply Z.mod_pos_bound. lia. }
  apply Z.bits_inj'. intros i Hi0. rewrite Z.testbit_mod_pow2 by lia.
  destruct (i <? n) eqn:E; [done|]. apply Hi. lia.
Qed.

Lemma lor_range n x y : 0 <= n → in_range n x → in_range n y → in_range n (Z.lor x y).
Proof.
  intros Hn Hx Hy. apply in_range_bits; [done| |].
  - apply Z.lor_nonneg. destruct Hx, Hy. lia.
  - intros i Hi. by rewrite Z.lor_spec, (testbit_above n x), (testbit_above n y).
Qed.

Lemma lxor_range n x y : 0 <= n → in_range n x → in_range n y → in_range n (Z.lxor x y).
Proof.
  intros Hn Hx Hy. apply in_range_bits; [done| |].
  - apply Z.lxor_nonneg. destruct Hx, Hy. lia.
  - intros i Hi. by rewrite Z.lxor_spec, (testbit_above n x), (testbit_above n y).
Qed.

Lemma land_range n x y : 0 <= n → in_range n x → 0 <= y → in_range n (Z.land x y).
Proof.
  intros Hn Hx Hy. apply in_range_bits; [done| |].
  - apply Z.land_nonneg. lia.
  - intros i Hi. by rewrite Z.land_spec, (testbit_above n x).
Qed.

Lemma shiftr_range n x k : 0 <= n → 0 <= k → in_range n x → in_range n (Z.shiftr x k).
Proof.
  intros Hn Hk Hx. apply in_range_bits; [done| |].
  - apply Z.shiftr_nonneg. destruct Hx. lia.
  - intros i Hi. rewrite Z.shiftr_spec by lia. apply (testbit_above n); [done|lia].
Qed.

Lemma wrap_range w z : 0 <= w → in_range w (wrap w z).
Proof. intros Hw. apply Z.mod_pos_bound. lia. Qed.

Lemma wrap_small w z : in_range w z → wrap w z = z.
Proof. apply Z.mod_small. Qed.

(** ** More about integers read from bytes *)

Lemma le_value_app bs cs :
  le_value (bs ++ cs) = le_value bs + 256 ^ Z.of_nat (length bs) * le_value cs.
Proof.
  induction bs as [|b bs IH]; cbn [app le_value length]; [lia|].
  rewrite IH, Nat2Z.inj_succ, Z.pow_succ_r; lia.
Qed.

Lemma be_value_cons b bs :
  be_value (b :: bs) = Z_of_byte b * 256 ^ Z.of_nat (length bs) + be_value bs.
Proof.
  unfold be_value. rewrite reverse_cons, le_value_app, length_reverse.
  cbn [le_value]. lia.
Qed.

Lemma be_value_zeros n bs : be_value (replicate n Byte.x00 ++ bs) = be_value bs.
Proof.
  induction n as [|n IH]; [done|]. cbn [replicate app].
  rewrite be_value_cons, IH. change (Z_of_byte Byte.x00) with 0. lia.
Qed.

Lemma take_le_bytes k n z : (k ≤ n)%nat → take k (le_bytes n z) = le_bytes k z.
Proof.
  revert n z. induction k as [|k IH]; intros [|n] z H; simpl; [done..|lia|].
  by rewrite IH by lia.
Qed.

(** ** 32-bit words *)

Lemma add32_range x y : in_range 32 (add32 x y).
Proof. by apply wrap_range. Qed.
Lemma sub32_range x y : in_range 32 (sub32 x y).
Proof. by apply wrap_range. Qed.
Lemma lxor32_range x y : in_range 32 x → in_range 32 y → in_range 32 (Z.lxor x y).
Proof. by apply lxor_range. Qed.
Lemma rotl32_range x n : 0 <= n <= 32 → in_range 32 x → in_range 32 (rotl32 x n).
Proof. intros. apply lor_range; [done|by apply wrap_range|]. apply shiftr_range; [lia..|done]. Qed.

(** The range of a 32-bit expression, from the ranges of its variables. *)
Ltac range32 :=
  repeat first
    [ assumption | apply add32_range | apply sub32_range | apply lxor32_range
    | apply rotl32_range; [lia|] ].

Lemma sub32_add32 x y : in_range 32 x → sub32 (add32 x y) y = x.
Proof.
  intros Hx. unfold sub32, add32, u32, wrap. rewrite Zminus_mod_idemp_l.
  replace (x + y - y) with x by lia. by apply Z.mod_small.
Qed.
Lemma add32_sub32 x y : in_range 32 x → add32 (sub32 x y) y = x.
Proof.
  intros Hx. unfold sub32, add32, u32, wrap. rewrite Zplus_mod_idemp_l.
  replace (x - y + y) with x by lia. by apply Z.mod_small.
Qed.
Lemma lxor_cancel x y : Z.lxor (Z.lxor x y) y = x.
Proof. by rewrite Z.lxor_assoc, Z.lxor_nilpotent, Z.lxor_0_r. Qed.

Lemma be_bytes_wrap n z : be_bytes n (z mod 256 ^ Z.of_nat n) = be_bytes n z.
Proof.
  unfold be_bytes. f_equal. apply le_value_inj; [by rewrite !length_le_bytes|].
  rewrite !le_value_le_bytes. apply Zmod_mod.
Qed.
Lemma le_bytes_wrap n z : le_bytes n (z mod 256 ^ Z.of_nat n) = le_bytes n z.
Proof.
  apply le_value_inj; [by rewrite !length_le_bytes|].
  rewrite !le_value_le_bytes. apply Zmod_mod.
Qed.

Lemma u64_u64 z : u64 (u64 z) = u64 z.
Proof. apply Zmod_mod. Qed.
