(* ===== verification/Base.v ===== *)
(** * Base: constants, error codes and byte order

    The types and constants of zen/core/common/base.hpp, the error
    enumerations of zen/core/encoding/errors.hpp and
    zen/core/serialization/base.hpp, and zen/core/common/endian.hpp. The loads
    and stores of endian.hpp are aliases of the intx library, which is not part
    of the repository: [Intx] is its interface, with the documented meaning of
    each function as a law. *)
From S2P Require Import Prelude.

Local Open Scope Z_scope.

(** ** zen/core/common/base.hpp *)

Definition kKB : Z := 1000.
Definition kMB : Z := kKB * 1000.
Definition kGB : Z := kMB * 1000.
Definition kTB : Z := kGB * 1000.

Definition kKiB : Z := 1024.
Definition kMiB : Z := Z.shiftl kKiB 10.
Definition kGiB : Z := Z.shiftl kMiB 10.
Definition kTiB : Z := Z.shiftl kGiB 10.

(** The user-defined literals [x _KB], [x _KiB], ...: the product is computed
    in [uint64_t]. *)
Definition lit_KB (x : Z) : Z := u64 (x * kKB).
Definition lit_MB (x : Z) : Z := u64 (x * kMB).
Definition lit_GB (x : Z) : Z := u64 (x * kGB).
Definition lit_TB (x : Z) : Z := u64 (x * kTB).
Definition lit_KiB (x : Z) : Z := u64 (x * kKiB).
Definition lit_MiB (x : Z) : Z := u64 (x * kMiB).
Definition lit_GiB (x : Z) : Z := u64 (x * kGiB).
Definition lit_TiB (x : Z) : Z := u64 (x * kTiB).

Definition kCoinMaxDecimals : Z := 8.
Definition kCoin : Z := 100000000.
Definition kCoinCent : Z := kCoin / 100.
Definition kCoinMaxSupply : Z := 21000000.
Definition kCurrency : list byte := chars "ZEN".

(** ** zen/core/encoding/errors.hpp *)

Inductive DecodingError :=
  | kSuccess
  | kInvalidHexDigit
  | kInvalidInput
  | kInvalidBase64Input
  | kInvalidAmountRange.

#[export] Instance DecodingError_eq_dec : EqDecision DecodingError.
Proof. solve_decision. Defined.

Inductive EncodingError :=
  | kEncodingSuccess
  | kInputTooLong
  | kUnexpectedError.

#[export] Instance EncodingError_eq_dec : EqDecision EncodingError.
Proof. solve_decision. Defined.

(** ** zen/core/serialization/base.hpp *)

Definition kMaxSerializedCompactSize : Z := 0x02000000.

Inductive Scope := kNetwork | kStorage | kHash.

Definition Scope_value (s : Scope) : Z :=
  match s with
  | kNetwork => Z.shiftl 1 0
  | kStorage => Z.shiftl 1 1
  | kHash => Z.shiftl 1 2
  end.

Inductive DeserializationError :=
  | kDeserializationSuccess
  | kReadBeyondData
  | kNonCanonicalCompactSize
  | kCompactSizeTooBig.

#[export] Instance DeserializationError_eq_dec : EqDecision DeserializationError.
Proof. solve_decision. Defined.

(** ** zen/core/common/endian.hpp *)

(** The part of intx the code calls: fixed-size loads and stores in the two
    byte orders, [n] being [sizeof] the integer type. *)
Class Intx := {
  intx_be_load : nat → list byte → Z;
  intx_be_store : nat → Z → list byte;
  intx_le_load : nat → list byte → Z;
  intx_le_store : nat → Z → list byte;
  intx_be_load_spec n bs :
    (n ≤ length bs)%nat → intx_be_load n bs = be_value (take n bs);
  intx_be_store_spec n z : intx_be_store n z = be_bytes n z;
  intx_le_load_spec n bs :
    (n ≤ length bs)%nat → intx_le_load n bs = le_value (take n bs);
  intx_le_store_spec n z : intx_le_store n z = le_bytes n z
}.

(** The interface is inhabited: the reference functions satisfy it. *)
Definition intx_reference : Intx.
Proof.
  refine {| intx_be_load n bs := be_value (take n bs);
            intx_be_store := be_bytes;
            intx_le_load n bs := le_value (take n bs);
            intx_le_store := le_bytes |}; done.
Defined.

Section endian.
Context `{Intx}.

Definition load_big_u16 : list byte → Z := intx_be_load 2.
Definition load_big_u32 : list byte → Z := intx_be_load 4.
Definition load_big_u64 : list byte → Z := intx_be_load 8.
Definition load_little_u16 : list byte → Z := intx_le_load 2.
Definition load_little_u32 : list byte → Z := intx_le_load 4.
Definition load_little_u64 : list byte → Z := intx_le_load 8.
Definition store_big_u16 : Z → list byte := intx_be_store 2.
Definition store_big_u32 : Z → list byte := intx_be_store 4.
Definition store_big_u64 : Z → list byte := intx_be_store 8.
Definition store_little_u16 : Z → list byte := intx_le_store 2.
Definition store_little_u32 : Z → list byte := intx_le_store 4.
Definition store_little_u64 : Z → list byte := intx_le_store 8.
End endian.

(** [byte_swap] copies the object representation of an [n]-byte unsigned
    value (little-endian, as on every platform the project builds for),
    reverses it and copies it back. *)
Definition byte_swap (n : nat) (value : Z) : Z :=
  let buffer := le_bytes n value in
  let buffer := reverse buffer in
  le_value buffer.
