(* ===== verification/Hex.v ===== *)
(** * Hex: zen/core/encoding/hex.hpp and hex.cpp

    Hexadecimal encoding and decoding. [decode] is translated with its two
    lookup tables and its loop unrolled by four bytes; [unhex] is the one-line
    meaning it has, and [decode_spec] says the two agree on every input.
    Character strings and byte strings are both lists of bytes, a [char] being
    indexed as [static_cast<uint8_t>] of itself, the way the code does. *)
From S2P Require Import Prelude Base.

Local Open Scope Z_scope.

(** ** The code *)

Definition kUnhexTable : list Z := [
    0xff; 0xff; 0xff; 0xff; 0xff; 0xff; 0xff; 0xff; 0xff; 0xff; 0xff; 0xff; 0xff; 0xff; 0xff; 0xff;
    0xff; 0xff; 0xff; 0xff; 0xff; 0xff; 0xff; 0xff; 0xff; 0xff; 0xff; 0xff; 0xff; 0xff; 0xff; 0xff;
    0xff; 0xff; 0xff; 0xff; 0xff; 0xff; 0xff; 0xff; 0xff; 0xff; 0xff; 0xff; 0xff; 0xff; 0xff; 0xff;
    0x00; 0x01; 0x02; 0x03; 0x04; 0x05; 0x06; 0x07; 0x08; 0x09; 0xff; 0xff; 0xff; 0xff; 0xff; 0xff;
    0xff; 0x0a; 0x0b; 0x0c; 0x0d; 0x0e; 0x0f; 0xff; 0xff; 0xff; 0xff; 0xff; 0xff; 0xff; 0xff; 0xff;
    0xff; 0xff; 0xff; 0xff; 0xff; 0xff; 0xff; 0xff; 0xff; 0xff; 0xff; 0xff; 0xff; 0xff; 0xff; 0xff;
    0xff; 0x0a; 0x0b; 0x0c; 0x0d; 0x0e; 0x0f; 0xff; 0xff; 0xff; 0xff; 0xff; 0xff; 0xff; 0xff; 0xff;
    0xff; 0xff; 0xff; 0xff; 0xff; 0xff; 0xff; 0xff; 0xff; 0xff; 0xff; 0xff; 0xff; 0xff; 0xff; 0xff;
    0xff; 0xff; 0xff; 0xff; 0xff; 0xff; 0xff; 0xff; 0xff; 0xff; 0xff; 0xff; 0xff; 0xff; 0xff; 0xff;
    0xff; 0xff; 0xff; 0xff; 0xff; 0xff; 0xff; 0xff; 0xff; 0xff; 0xff; 0xff; 0xff; 0xff; 0xff; 0xff;
    0xff; 0xff; 0xff; 0xff; 0xff; 0xff; 0xff; 0xff; 0xff; 0xff; 0xff; 0xff; 0xff; 0xff; 0xff; 0xff;
    0xff; 0xff; 0xff; 0xff; 0xff; 0xff; 0xff; 0xff; 0xff; 0xff; 0xff; 0xff; 0xff; 0xff; 0xff; 0xff;
    0xff; 0xff; 0xff; 0xff; 0xff; 0xff; 0xff; 0xff; 0xff; 0xff; 0xff; 0xff; 0xff; 0xff; 0xff; 0xff;
    0xff; 0xff; 0xff; 0xff; 0xff; 0xff; 0xff; 0xff; 0xff; 0xff; 0xff; 0xff; 0xff; 0xff; 0xff; 0xff;
    0xff; 0xff; 0xff; 0xff; 0xff; 0xff; 0xff; 0xff; 0xff; 0xff; 0xff; 0xff; 0xff; 0xff; 0xff; 0xff;
    0xff; 0xff; 0xff; 0xff; 0xff; 0xff; 0xff; 0xff; 0xff; 0xff; 0xff; 0xff; 0xff; 0xff; 0xff; 0xff ].

Definition kUnhexTable4 : list Z := [
    0xff; 0xff; 0xff; 0xff; 0xff; 0xff; 0xff; 0xff; 0xff; 0xff; 0xff; 0xff; 0xff; 0xff; 0xff; 0xff;
    0xff; 0xff; 0xff; 0xff; 0xff; 0xff; 0xff; 0xff; 0xff; 0xff; 0xff; 0xff; 0xff; 0xff; 0xff; 0xff;
    0xff; 0xff; 0xff; 0xff; 0xff; 0xff; 0xff; 0xff; 0xff; 0xff; 0xff; 0xff; 0xff; 0xff; 0xff; 0xff;
    0x00; 0x10; 0x20; 0x30; 0x40; 0x50; 0x60; 0x70; 0x80; 0x90; 0xff; 0xff; 0xff; 0xff; 0xff; 0xff;
    0xff; 0xa0; 0xb0; 0xc0; 0xd0; 0xe0; 0xf0; 0xff; 0xff; 0xff; 0xff; 0xff; 0xff; 0xff; 0xff; 0xff;
    0xff; 0xff; 0xff; 0xff; 0xff; 0xff; 0xff; 0xff; 0xff; 0xff; 0xff; 0xff; 0xff; 0xff; 0xff; 0xff;
    0xff; 0xa0; 0xb0; 0xc0; 0xd0; 0xe0; 0xf0; 0xff; 0xff; 0xff; 0xff; 0xff; 0xff; 0xff; 0xff; 0xff;
    0xff; 0xff; 0xff; 0xff; 0xff; 0xff; 0xff; 0xff; 0xff; 0xff; 0xff; 0xff; 0xff; 0xff; 0xff; 0xff;
    0xff; 0xff; 0xff; 0xff; 0xff; 0xff; 0xff; 0xff; 0xff; 0xff; 0xff; 0xff; 0xff; 0xff; 0xff; 0xff;
    0xff; 0xff; 0xff; 0xff; 0xff; 0xff; 0xff; 0xff; 0xff; 0xff; 0xff; 0xff; 0xff; 0xff; 0xff; 0xff;
    0xff; 0xff; 0xff; 0xff; 0xff; 0xff; 0xff; 0xff; 0xff; 0xff; 0xff; 0xff; 0xff; 0xff; 0xff; 0xff;
    0xff; 0xff; 0xff; 0xff; 0xff; 0xff; 0xff; 0xff; 0xff; 0xff; 0xff; 0xff; 0xff; 0xff; 0xff; 0xff;
    0xff; 0xff; 0xff; 0xff; 0xff; 0xff; 0xff; 0xff; 0xff; 0xff; 0xff; 0xff; 0xff; 0xff; 0xff; 0xff;
    0xff; 0xff; 0xff; 0xff; 0xff; 0xff; 0xff; 0xff; 0xff; 0xff; 0xff; 0xff; 0xff; 0xff; 0xff; 0xff;
    0xff; 0xff; 0xff; 0xff; 0xff; 0xff; 0xff; 0xff; 0xff; 0xff; 0xff; 0xff; 0xff; 0xff; 0xff; 0xff;
    0xff; 0xff; 0xff; 0xff; 0xff; 0xff; 0xff; 0xff; 0xff; 0xff; 0xff; 0xff; 0xff; 0xff; 0xff; 0xff ].

(** [table[static_cast<uint8_t>(c)]] of a [std::array<uint8_t, 256>]. *)
Definition table_at (table : list Z) (c : byte) : Z :=
  nth (Z.to_nat (Z_of_byte c)) table 0.

Definition has_prefix (source : list byte) : bool :=
  match source with
  | c0 :: c1 :: _ =>
      bool_decide (c0 = byte_of_Z 48)
      && (bool_decide (c1 = byte_of_Z 120) || bool_decide (c1 = byte_of_Z 88))
  | _ => false
  end.

(** The [while (input.size() >= 2)] loop of [reverse_hex] and the odd digit
    after it. [fuel] bounds the iterations; [reverse_hex] gives it the length
    of the input. *)
Fixpoint reverse_hex_loop (fuel : nat) (input output : list byte) : list byte :=
  match fuel with
  | S fuel =>
      if (2 <=? length input)%nat then
        let n := (length input - 2)%nat in
        reverse_hex_loop fuel (take n input) (output ++ drop n input)
      else
        match last input with
        | Some c => output ++ [byte_of_Z 48; c]
        | None => output
        end
  | O => output
  end.

Definition reverse_hex (input : list byte) : list byte :=
  if decide (input = []) then []
  else
    let '(output, input) :=
      if has_prefix input then (chars "0x", drop 2 input) else ([], input) in
    reverse_hex_loop (S (length input)) input output.

(** [find_if_not(data, b == 0)] and the offset of what it finds. *)
Fixpoint find_not_zero (data : list byte) : option nat :=
  match data with
  | [] => None
  | b :: data =>
      if Z_of_byte b =? 0 then S <$> find_not_zero data else Some O
  end.

Definition zeroless_view (data : list byte) : list byte :=
  match find_not_zero data with
  | None => []
  | Some substr_offset => drop substr_offset data
  end.

Definition kHexDigits : list byte := chars "0123456789abcdef".
Definition hex_digit (n : Z) : byte := nth (Z.to_nat n) kHexDigits Byte.x00.

Fixpoint encode_digits (bytes : list byte) : list byte :=
  match bytes with
  | [] => []
  | b :: bytes =>
      hex_digit (Z.shiftr (Z_of_byte b) 4)
      :: hex_digit (Z.land (Z_of_byte b) 0x0f)
      :: encode_digits bytes
  end.

Definition encode (bytes : list byte) (with_prefix : bool) : list byte :=
  (if with_prefix then chars "0x" else []) ++ encode_digits bytes.

(** [encode(const T value, bool)], [n] being [sizeof(T)]. *)
Definition encode_integral `{Intx} (n : nat) (value : Z) (with_prefix : bool) : list byte :=
  let bytes := intx_be_store n value in
  let hexed := encode (zeroless_view bytes) with_prefix in
  if decide (length hexed = if with_prefix then 2 else 0)%nat
  then hexed ++ chars "00" else hexed.

Definition decode_result := outcome Empty_set (expected DecodingError (list byte)).

(** [*dst = b], [dst] being the place [i] of the buffer [out]. *)
Definition store_at (i : nat) (b : byte) (out : list byte) : outcome Empty_set (list byte) :=
  if decide (i < length out)%nat then Return (<[i := b]> out) else Undefined.

(** The loop unrolled by eight digits: what is left of the input, the buffer
    and the place reached in it, or the error. *)
Fixpoint decode_unrolled (src out : list byte) (dst : nat) :
    outcome Empty_set (expected DecodingError (list byte * list byte * nat)) :=
  match src with
  | c0 :: c1 :: c2 :: c3 :: c4 :: c5 :: c6 :: c7 :: src' =>
      let a := table_at kUnhexTable4 c0 in
      let b := table_at kUnhexTable c1 in
      let c := table_at kUnhexTable4 c2 in
      let d := table_at kUnhexTable c3 in
      let e := table_at kUnhexTable4 c4 in
      let f := table_at kUnhexTable c5 in
      let g := table_at kUnhexTable4 c6 in
      let h := table_at kUnhexTable c7 in
      if (Z.lor (Z.lor (Z.lor b d) f) h =? 0xff)
         || (Z.lor (Z.lor (Z.lor a c) e) g =? 0xff)
      then Return (Unexpected kInvalidHexDigit)
      else
        out ← store_at dst (byte_of_Z (Z.lor a b)) out;
        out ← store_at (S dst) (byte_of_Z (Z.lor c d)) out;
        out ← store_at (S (S dst)) (byte_of_Z (Z.lor e f)) out;
        out ← store_at (S (S (S dst))) (byte_of_Z (Z.lor g h)) out;
        decode_unrolled src' out (S (S (S (S dst))))
  | _ => Return (Ok (src, out, dst))
  end.

(** The [while (src < last)] loop, two digits at a time. With one digit left
    the second [*src++] would read past the end of the input. *)
Fixpoint decode_pairs (src out : list byte) (dst : nat) : decode_result :=
  match src with
  | [] => Return (Ok out)
  | [_] => Undefined
  | c0 :: c1 :: src' =>
      let a := table_at kUnhexTable4 c0 in
      let b := table_at kUnhexTable c1 in
      if (a =? 0xff) || (b =? 0xff) then Return (Unexpected kInvalidHexDigit)
      else
        out ← store_at dst (byte_of_Z (Z.lor a b)) out;
        decode_pairs src' out (S dst)
  end.

(** [out] is allocated with its final size and written in place, from the
    front; it is returned whole. *)
Definition decode (source : list byte) : decode_result :=
  let source := if has_prefix source then drop 2 source else source in
  if decide (source = []) then Return (Ok [])
  else
    let pos := Nat.land (length source) 1 in
    let out := replicate ((length source + pos) / 2)%nat Byte.x00 in
    let loops (src out : list byte) (dst : nat) : decode_result :=
      res ← decode_unrolled src out dst;
      match res with
      | Unexpected e => Return (Unexpected e)
      | Ok (src, out, dst) => decode_pairs src out dst
      end in
    match pos, source with
    | S _, c :: src =>
        let b := table_at kUnhexTable c in
        if b =? 0xff then Return (Unexpected kInvalidHexDigit)
        else
          out ← store_at 0 (byte_of_Z b) out;
          loops src out 1%nat
    | _, src => loops src out O
    end.

Definition decode_digit (input : byte) : expected DecodingError Z :=
  let value := table_at kUnhexTable input in
  if value =? 0xff then Unexpected kInvalidHexDigit else Ok value.

(** ** Its meaning *)

(** The value of a hexadecimal digit, by character ranges. *)
Definition hex_val (c : byte) : option Z :=
  let z := Z_of_byte c in
  if (48 <=? z) && (z <=? 57) then Some (z - 48)
  else if (97 <=? z) && (z <=? 102) then Some (z - 87)
  else if (65 <=? z) && (z <=? 70) then Some (z - 55)
  else None.

(** The bytes spelled by an even number of digits. *)
Fixpoint unhex (cs : list byte) : option (list byte) :=
  match cs with
  | [] => Some []
  | [_] => None
  | a :: b :: cs =>
      x ← hex_val a; y ← hex_val b; l ← unhex cs;
      Some (byte_of_Z (16 * x + y) :: l)
  end.

(** The digits of an input: without prefix, with a leading zero if odd. *)
Definition digits_of (source : list byte) : list byte :=
  let source := if has_prefix source then drop 2 source else source in
  if Nat.odd (length source) then byte_of_Z 48 :: source else source.

Definition of_digits (o : option (list byte)) : expected DecodingError (list byte) :=
  match o with Some l => Ok l | None => Unexpected kInvalidHexDigit end.

(** The lower case form of a digit. *)
Definition lower (c : byte) : byte :=
  let z := Z_of_byte c in
  if (65 <=? z) && (z <=? 70) then byte_of_Z (z + 32) else c.

(** ** The tables *)

Lemma hex_val_range c v : hex_val c = Some v → 0 <= v < 16.
Proof.
  unfold hex_val. intros H. repeat case_match; simplify_eq; lia.
Qed.

Lemma kUnhexTable_spec c : table_at kUnhexTable c = default 0xff (hex_val c).
Proof. byte_cases c. Qed.

Lemma kUnhexTable4_spec c :
  table_at kUnhexTable4 c = default 0xff ((λ v, 16 * v) <$> hex_val c).
Proof. byte_cases c. Qed.

(** Every entry is either the sentinel or has the bit [k] the sentinel alone
    has: bit 4 in the low table, bit 0 in the high one. *)
Definition sentinel_free (k x : Z) : Prop :=
  x = 0xff ∨ (0 <= x < 0xff ∧ Z.testbit x k = false).

Lemma low_entry c : sentinel_free 4 (table_at kUnhexTable c).
Proof. destruct c; first [by left | right; by vm_compute]. Qed.

Lemma high_entry c : sentinel_free 0 (table_at kUnhexTable4 c).
Proof. destruct c; first [by left | right; by vm_compute]. Qed.

Lemma lor_0xff x : 0 <= x < 256 → Z.lor 0xff x = 0xff.
Proof.
  intros Hx. change 0xff with (Z.ones 8). apply Z.bits_inj'. intros n Hn.
  rewrite Z.lor_spec, Z.testbit_ones_nonneg by lia.
  destruct (n <? 8) eqn:E; simpl; [done|]. apply (testbit_above 8); [done|lia].
Qed.

Lemma lor_sentinel k x y :
  (k = 0 ∨ k = 4) → sentinel_free k x → sentinel_free k y →
  sentinel_free k (Z.lor x y) ∧
  (Z.lor x y =? 0xff) = (x =? 0xff) || (y =? 0xff).
Proof.
  intros Hk [->|[Hx Bx]] [->|[Hy By]].
  - split; [by left|done].
  - rewrite lor_0xff by lia. split; [by left|done].
  - rewrite Z.lor_comm, lor_0xff by lia. split; [by left|]. by rewrite orb_true_r.
  - assert (Hb : Z.testbit (Z.lor x y) k = false) by (by rewrite Z.lor_spec, Bx, By).
    assert (Hne : Z.lor x y ≠ 0xff).
    { intros E. rewrite E in Hb. by destruct Hk as [-> | ->]; vm_compute in Hb. }
    assert (Hr : in_range 8 (Z.lor x y)) by (apply lor_range; unfold in_range; lia).
    unfold in_range in Hr. split; [right; split; [lia|done]|].
    rewrite !(proj2 (Z.eqb_neq _ _)) by lia. done.
Qed.

Lemma low_lor4 a b c d :
  let t := table_at kUnhexTable in
  (Z.lor (Z.lor (Z.lor (t a) (t b)) (t c)) (t d) =? 0xff)
  = (t a =? 0xff) || (t b =? 0xff) || (t c =? 0xff) || (t d =? 0xff).
Proof.
  intros t. pose proof (lor_sentinel 4) as L. unfold t.
  destruct (L _ _ (or_intror eq_refl) (low_entry a) (low_entry b)) as [S1 E1].
  destruct (L _ _ (or_intror eq_refl) S1 (low_entry c)) as [S2 E2].
  destruct (L _ _ (or_intror eq_refl) S2 (low_entry d)) as [_ E3].
  by rewrite E3, E2, E1.
Qed.

Lemma high_lor4 a b c d :
  let t := table_at kUnhexTable4 in
  (Z.lor (Z.lor (Z.lor (t a) (t b)) (t c)) (t d) =? 0xff)
  = (t a =? 0xff) || (t b =? 0xff) || (t c =? 0xff) || (t d =? 0xff).
Proof.
  intros t. pose proof (lor_sentinel 0) as L. unfold t.
  destruct (L _ _ (or_introl eq_refl) (high_entry a) (high_entry b)) as [S1 E1].
  destruct (L _ _ (or_introl eq_refl) S1 (high_entry c)) as [S2 E2].
  destruct (L _ _ (or_introl eq_refl) S2 (high_entry d)) as [_ E3].
  by rewrite E3, E2, E1.
Qed.

Lemma low_valid c : (table_at kUnhexTable c =? 0xff) = bool_decide (hex_val c = None).
Proof.
  rewrite kUnhexTable_spec. destruct (hex_val c) as [v|] eqn:E; simpl; [|done].
  apply hex_val_range in E. lia.
Qed.

Lemma high_valid c : (table_at kUnhexTable4 c =? 0xff) = bool_decide (hex_val c = None).
Proof.
  rewrite kUnhexTable4_spec. destruct (hex_val c) as [v|] eqn:E; simpl; [|done].
  apply hex_val_range in E. lia.
Qed.

(** ** The two loops *)

Lemma lor_nibbles v w : 0 <= v < 16 → 0 <= w < 16 → Z.lor (16 * v) w = 16 * v + w.
Proof.
  intros Hv Hw. rewrite <-Z.add_lor_land.
  cut (Z.land (16 * v) w = 0); [lia|]. apply Z.bits_inj'. intros n Hn.
  rewrite Z.land_spec, Z.bits_0. change 16 with (2 ^ 4) at 1.
  rewrite Z.mul_comm. destruct (decide (n < 4)).
  { by rewrite Z.mul_pow2_bits_low. }
  rewrite (testbit_above 4 w n); [by rewrite andb_false_r|unfold in_range; lia|lia].
Qed.

(** Writing at the place reached: [d] is written, [r] is not yet. *)
Lemma store_at_next n d x r b :
  n = length d → store_at n b (d ++ x :: r) = Return ((d ++ [b]) ++ r).
Proof.
  intros ->. unfold store_at. rewrite decide_True by len.
  by rewrite insert_app_r_alt, Nat.sub_diag, <-(assoc_L (++)) by done.
Qed.

Lemma unhex_cons a b v w cs :
  hex_val a = Some v → hex_val b = Some w →
  unhex (a :: b :: cs) = cons (byte_of_Z (Z.lor (16 * v) w)) <$> unhex cs.
Proof.
  intros Ha Hb. rewrite lor_nibbles by eauto using hex_val_range.
  cbn [unhex]. rewrite Ha, Hb. simpl. by destruct (unhex cs).
Qed.

Lemma decode_pairs_spec src d r :
  length src = (2 * length r)%nat →
  decode_pairs src (d ++ r) (length d) = Return (of_digits (app d <$> unhex src)).
Proof.
  revert d r. induction src as [|a|a b src IH] using list_pair_ind;
    intros d [|x r] Hlen; simpl in Hlen; try lia; [done|].
  cbn [decode_pairs]. rewrite low_valid, high_valid.
  rewrite kUnhexTable_spec, kUnhexTable4_spec.
  destruct (hex_val a) as [v|] eqn:Ha; [|by cbn [unhex]; rewrite Ha].
  destruct (hex_val b) as [w|] eqn:Hb; [|by cbn [unhex]; rewrite Ha, Hb].
  rewrite (unhex_cons a b v w) by done. cbn -[unhex Z.mul].
  rewrite store_at_next by done. cbn -[unhex Z.mul].
  replace (S (length d)) with (length (d ++ [byte_of_Z (Z.lor (16 * v) w)])) by len.
  rewrite IH by lia.
  destruct (unhex src); simpl; [|done]. by rewrite <-(assoc_L (++)).
Qed.

(** The next two of the eight digits: the loop stops when one is invalid. *)
Ltac next_pair a b :=
  let v := fresh "v" in let w := fresh "w" in
  destruct (hex_val a) as [v|] eqn:?;
    [|by cbn [unhex]; simplify_option_eq; rewrite ?orb_true_r];
  destruct (hex_val b) as [w|] eqn:?;
    [|by cbn [unhex]; simplify_option_eq; rewrite ?orb_true_r];
  rewrite (unhex_cons a b v w) by done.

(** The unrolled loop followed by the plain one is the plain one, on a
    buffer with exactly the room for the digits left. *)
Lemma decode_loops_spec src d r :
  length src = (2 * length r)%nat →
  (res ← decode_unrolled src (d ++ r) (length d);
   match res with
   | Unexpected e => Return (Unexpected e)
   | Ok (src, out, dst) => decode_pairs src out dst
   end : decode_result)
  = Return (of_digits (app d <$> unhex src)).
Proof.
  revert d r. induction src as [src IH] using (induction_ltof1 _ length). intros d r Hlen.
  destruct src as [|c0 [|c1 [|c2 [|c3 [|c4 [|c5 [|c6 [|c7 src]]]]]]]];
    try exact (decode_pairs_spec _ d r Hlen).
  destruct r as [|r0 [|r1 [|r2 [|r3 r]]]]; simpl in Hlen; try lia.
  cbn [decode_unrolled]. rewrite low_lor4, high_lor4, !low_valid, !high_valid.
  rewrite !kUnhexTable_spec, !kUnhexTable4_spec.
  next_pair c0 c1. next_pair c2 c3. next_pair c4 c5. next_pair c6 c7.
  cbn -[unhex Z.mul].
  do 4 (rewrite store_at_next by len; cbn -[unhex Z.mul]).
  match goal with
  | |- context [decode_unrolled _ (?d' ++ _) ?n] => replace n with (length d') by len
  end.
  etransitivity; [apply IH; [unfold ltof; simpl|]; lia|].
  destruct (unhex src); simpl; [|done]. by rewrite <-!(assoc_L (++)).
Qed.

Lemma length_unhex cs l : unhex cs = Some l → length cs = (2 * length l)%nat.
Proof.
  revert l. induction cs as [|a|a b cs IH] using list_pair_ind; intros l H; simplify_eq/=.
  - done.
  - destruct (hex_val a), (hex_val b), (unhex cs); simplify_eq/=. rewrite (IH _ eq_refl). lia.
Qed.

Lemma odd_bit n : Nat.land n 1 = Nat.b2n (Nat.odd n).
Proof.
  change 1%nat with (Nat.ones 1) at 1. rewrite Nat.land_ones.
  by rewrite <-Nat.bit0_odd, Nat.bit0_mod.
Qed.

Lemma decode_eq source :
  decode source = Return (of_digits (unhex (digits_of source))).
Proof.
  unfold decode, digits_of.
  set (s := if has_prefix source then drop 2 source else source).
  destruct (decide (s = [])) as [->|Hs]; [done|].
  rewrite odd_bit. set (n := ((length s + _) / 2)%nat).
  assert (Hn : (length s + Nat.b2n (Nat.odd (length s)) = 2 * n)%nat).
  { unfold n. clear. destruct (Nat.Even_or_Odd (length s)) as [[m ->]|[m ->]].
    - rewrite Nat.odd_even. simpl Nat.b2n. dlia.
    - rewrite Nat.odd_odd. simpl Nat.b2n. dlia. }
  clearbody n. revert Hn.
  destruct (Nat.odd (length s)) eqn:Hodd; simpl Nat.b2n; intros Hn.
  - destruct s as [|c src]; [done|]. simpl in Hodd, Hn.
    destruct n as [|n]; [lia|].
    change (unhex (byte_of_Z 48 :: c :: src)) with
      (y ← hex_val c; l ← unhex src; Some (byte_of_Z (16 * 0 + y) :: l)).
    rewrite low_valid, kUnhexTable_spec.
    destruct (hex_val c) as [v|] eqn:Hv; [|done].
    cbn -[unhex Z.mul].
    etransitivity; [apply (decode_loops_spec src [byte_of_Z v] (replicate n Byte.x00)); len|].
    by destruct (unhex src).
  - etransitivity; [|etransitivity; [apply (decode_loops_spec s [] (replicate n Byte.x00)); len|]].
    + by destruct s.
    + by destruct (unhex s).
Qed.

(** C1: [decode] is total and its fast paths are sound: on every input it
    terminates without reading past the end of the input or writing past the
    end of the buffer it allocated, leaves no byte of the buffer unwritten, and
    returns the bytes spelled by the digits (prefix dropped, odd length
    left-padded with a zero), or [kInvalidHexDigit] when a character is not
    a hexadecimal digit. *)
Theorem decode_spec source :
  decode source = Return (of_digits (unhex (digits_of source))).
Proof. apply decode_eq. Qed.

Lemma hex_val_digit n : 0 <= n < 16 → hex_val (hex_digit n) = Some n.
Proof.
  intros Hn. destruct n as [|p|p]; [done| |lia].
  do 4 (destruct p as [p|p|]; try done). all: lia.
Qed.

Lemma nibbles b :
  0 <= Z.shiftr (Z_of_byte b) 4 < 16 ∧ 0 <= Z.land (Z_of_byte b) 15 < 16 ∧
  byte_of_Z (16 * Z.shiftr (Z_of_byte b) 4 + Z.land (Z_of_byte b) 15) = b.
Proof. byte_cases b. Qed.

Lemma unhex_encode_digits bs : unhex (encode_digits bs) = Some bs.
Proof.
  induction bs as [|b bs IH]; [done|]. cbn [encode_digits unhex].
  destruct (nibbles b) as (Hh & Hl & Hb).
  rewrite !hex_val_digit by done. simpl. rewrite IH. simpl. by rewrite Hb.
Qed.

Lemma length_encode_digits bs : length (encode_digits bs) = (2 * length bs)%nat.
Proof. induction bs as [|b bs IH]; simpl; [done|]. rewrite IH. lia. Qed.

Lemma encode_digits_no_prefix bs : has_prefix (encode_digits bs) = false.
Proof.
  destruct bs as [|b bs]; [done|]. unfold has_prefix. cbn [encode_digits].
  destruct b; by vm_compute.
Qed.

Lemma digits_of_encode bs p : digits_of (encode bs p) = encode_digits bs.
Proof.
  unfold digits_of, encode. destruct p.
  - change (has_prefix (chars "0x" ++ encode_digits bs)) with true.
    change (drop 2 (chars "0x" ++ encode_digits bs)) with (encode_digits bs).
    cbn iota. by rewrite length_encode_digits, Nat.odd_even.
  - rewrite (left_id_L [] (++)), encode_digits_no_prefix.
    by rewrite length_encode_digits, Nat.odd_even.
Qed.

Lemma decode_encode_eq bs p : decode (encode bs p) = Return (Ok bs).
Proof. by rewrite decode_eq, digits_of_encode, unhex_encode_digits. Qed.

(** C2: Decoding inverts encoding, with or without the "0x" prefix, for every
    byte string. *)
Theorem decode_encode bs with_prefix :
  decode (encode bs with_prefix) = Return (Ok bs).
Proof. apply decode_encode_eq. Qed.

Lemma hex_digit_lower c v : hex_val c = Some v → hex_digit v = lower c.
Proof. destruct c; intros H; vm_compute in H; simplify_eq; by vm_compute. Qed.

Lemma encode_digits_pair x y bs :
  0 <= x < 16 → 0 <= y < 16 →
  encode_digits (byte_of_Z (16 * x + y) :: bs)
  = hex_digit x :: hex_digit y :: encode_digits bs.
Proof.
  intros Hx Hy. cbn [encode_digits]. rewrite Z_of_byte_of_Z, Z.mod_small by lia.
  change 15 with (Z.ones 4). rewrite Z.shiftr_div_pow2, Z.land_ones by lia.
  change (2 ^ 4) with 16. f_equal; [f_equal; dlia|]. f_equal. f_equal. dlia.
Qed.

(** Encoding a decoded input gives back its digits, lower-cased and without
    prefix, with the zero [decode] supplied when their number was odd. *)
Theorem encode_decode source bs :
  decode source = Return (Ok bs) → encode bs false = lower <$> digits_of source.
Proof.
  rewrite decode_eq. unfold encode. rewrite (left_id_L [] (++)).
  generalize (digits_of source). intros cs.
  destruct (unhex cs) as [l|] eqn:Hl; intros [= <-]. revert l Hl.
  induction cs as [|a|a b cs IH] using list_pair_ind; intros l Hl; cbn [unhex] in Hl;
    [by simplify_eq|done|].
  destruct (hex_val a) as [x|] eqn:Ha; [|done]. simpl in Hl.
  destruct (hex_val b) as [y|] eqn:Hb; [|done]. simpl in Hl.
  destruct (unhex cs) as [l'|]; [|done]. simpl in Hl. injection Hl as <-.
  rewrite encode_digits_pair by eauto using hex_val_range.
  by rewrite (IH l'), (hex_digit_lower a x), (hex_digit_lower b y) by done.
Qed.

Lemma encode_decode_witness :
  decode (chars "0xA1f") = Return (Ok [Byte.x0a; Byte.x1f]) ∧
  encode [Byte.x0a; Byte.x1f] false = lower <$> digits_of (chars "0xA1f").
Proof. split; [by vm_compute|]. apply encode_decode. by vm_compute. Defined.

(** ** [reverse_hex] *)

Lemma encode_digits_app bs cs :
  encode_digits (bs ++ cs) = encode_digits bs ++ encode_digits cs.
Proof. induction bs as [|b bs IH]; simpl; [done|]. by rewrite IH. Qed.

Lemma reverse_hex_loop_digits fuel bs output :
  (2 * length bs < fuel)%nat →
  reverse_hex_loop fuel (encode_digits bs) output = output ++ encode_digits (reverse bs).
Proof.
  revert fuel output. induction bs as [|b bs IH] using rev_ind;
    intros [|fuel] output Hf; [lia| |lia|].
  { simpl. by rewrite (right_id_L [] (++)). }
  rewrite encode_digits_app. cbn [reverse_hex_loop].
  rewrite length_app in *. rewrite length_encode_digits.
  cbn [encode_digits length] in *.
  destruct (Nat.leb_spec 2 (2 * length bs + 2)); [|lia].
  replace (2 * length bs + 2 - 2)%nat with (length (encode_digits bs))
    by (rewrite length_encode_digits; lia).
  rewrite take_app_length, drop_app_length, IH by lia.
  rewrite reverse_app, <-(assoc_L (++)). done.
Qed.

(** [reverse_hex] reverses the byte order of a hexadecimal string and
    keeps its prefix. *)
Theorem reverse_hex_encode bs with_prefix :
  reverse_hex (encode bs with_prefix) = encode (reverse bs) with_prefix.
Proof.
  unfold reverse_hex, encode. destruct with_prefix.
  - rewrite decide_False by done.
    change (has_prefix (chars "0x" ++ encode_digits bs)) with true. cbn iota.
    change (drop 2 (chars "0x" ++ encode_digits bs)) with (encode_digits bs).
    by rewrite reverse_hex_loop_digits by (rewrite length_encode_digits; lia).
  - rewrite !(left_id_L [] (++)), encode_digits_no_prefix.
    destruct (decide (encode_digits bs = [])) as [Hb|Hb].
    { by destruct bs. }
    by rewrite reverse_hex_loop_digits by (rewrite length_encode_digits; lia).
Qed.

(** ** Integers *)

Lemma find_not_zero_Some data n :
  find_not_zero data = Some n →
  ∃ b rest, data = replicate n Byte.x00 ++ b :: rest ∧ b ≠ Byte.x00.
Proof.
  revert n. induction data as [|b data IH]; intros n H; simplify_eq/=.
  destruct (Z_of_byte b =? 0) eqn:Hb.
  - destruct (find_not_zero data) as [m|] eqn:Hm; simplify_eq/=.
    destruct (IH m eq_refl) as (c & rest & -> & Hc). exists c, rest.
    rewrite Z.eqb_eq in Hb. rewrite <-(byte_of_Z_of_byte b), Hb. done.
  - simplify_eq. exists b, data. split; [done|]. by intros ->.
Qed.

Lemma find_not_zero_None data :
  find_not_zero data = None → data = replicate (length data) Byte.x00.
Proof.
  induction data as [|b data IH]; intros H; simplify_eq/=; [done|].
  destruct (Z_of_byte b =? 0) eqn:Hb; [|done]. apply fmap_None in H.
  rewrite Z.eqb_eq in Hb. rewrite <-IH by done.
  by rewrite <-(byte_of_Z_of_byte b), Hb.
Qed.

Lemma zeroless_view_spec data :
  be_value (zeroless_view data) = be_value data ∧
  head (zeroless_view data) ≠ Some Byte.x00.
Proof.
  unfold zeroless_view. destruct (find_not_zero data) as [n|] eqn:H.
  - apply find_not_zero_Some in H as (b & rest & -> & Hb).
    rewrite drop_app_length' by (by rewrite length_replicate).
    rewrite be_value_zeros. split; [done|]. simpl. congruence.
  - apply find_not_zero_None in H. rewrite H. split; [|done].
    by rewrite <-(be_value_zeros (length data) []), (right_id_L [] (++)).
Qed.

(** Encoding an unsigned integer gives a string that decodes to its
    big-endian bytes without leading zeroes ("00" for zero), so the value can
    be read back. *)
Theorem encode_integral_value `{Intx} n value with_prefix :
  0 <= value < 256 ^ Z.of_nat n →
  ∃ bs, decode (encode_integral n value with_prefix) = Return (Ok bs)
      ∧ be_value bs = value
      ∧ (if decide (value = 0) then bs = [Byte.x00] else head bs ≠ Some Byte.x00).
Proof.
  intros Hv. unfold encode_integral. rewrite intx_be_store_spec.
  destruct (zeroless_view_spec (be_bytes n value)) as [Hbs Hhd].
  rewrite be_value_small in Hbs by done.
  revert Hbs Hhd. generalize (zeroless_view (be_bytes n value)). intros bs Hbs Hhd.
  destruct bs as [|b bs].
  - change (be_value []) with 0 in Hbs. subst value. exists [Byte.x00].
    by destruct with_prefix.
  - rewrite decide_False.
    + exists (b :: bs). split; [apply decode_encode_eq|]. split; [done|].
      rewrite decide_False; [done|]. intros ->. apply Hhd. simpl. f_equal.
      rewrite be_value_cons in Hbs. pose proof (be_value_bound bs).
      pose proof (Z_of_byte_range b). apply (Z_of_byte_inj b Byte.x00).
      change (Z_of_byte Byte.x00) with 0. nia.
    + unfold encode. rewrite length_app, length_encode_digits.
      destruct with_prefix; simpl; lia.
Qed.

Lemma encode_integral_value_witness :
  0 <= 0xdeadbe < 256 ^ Z.of_nat 8 ∧
  ∃ bs, decode (@encode_integral intx_reference 8 0xdeadbe true) = Return (Ok bs)
      ∧ be_value bs = 0xdeadbe
      ∧ (if decide (0xdeadbe = 0) then bs = [Byte.x00] else head bs ≠ Some Byte.x00).
Proof.
  split; [by vm_compute|].
  apply (@encode_integral_value intx_reference 8 0xdeadbe true). by vm_compute.
Defined.
