(* ===== verification/Base64.v ===== *)
(** * Base64

    Models [src/zen/core/encoding/base64.hpp] and [base64.cpp]. The base64
    filter of OpenSSL over a memory buffer is an interface ([Base64Bio]): what
    a write leaves in the sink and what a read takes out of the source, on the
    texts of RFC 4648. The lengths that the code hands to it are an [int]. *)
From S2P Require Import Prelude Base.
Local Open Scope Z_scope.

(** ** RFC 4648 *)

Definition alphabet : list byte :=
  chars "ABCDEFGHIJKLMNOPQRSTUVWXYZabcdefghijklmnopqrstuvwxyz0123456789+/".
Definition equals_sign : byte := Byte.x3d.
Definition digit (n : Z) : byte := nth (Z.to_nat n) alphabet Byte.x00.

Fixpoint base64_text (bs : list byte) : list byte :=
  match bs with
  | a :: b :: c :: bs =>
      let z := Z_of_byte a * 65536 + Z_of_byte b * 256 + Z_of_byte c in
      digit (z / 262144) :: digit (z / 4096 mod 64) :: digit (z / 64 mod 64) :: digit (z mod 64)
      :: base64_text bs
  | [a; b] =>
      let z := Z_of_byte a * 256 + Z_of_byte b in
      [digit (z / 1024); digit (z / 16 mod 64); digit (z mod 16 * 4); equals_sign]
  | [a] =>
      let z := Z_of_byte a in
      [digit (z / 4); digit (z mod 4 * 16); equals_sign; equals_sign]
  | [] => []
  end.

Definition INT_MAX : Z := 2 ^ 31 - 1.

(** [bio_write k data len] is the [k]-th call of [BIO_write]: its result,
    whether [BIO_should_retry] then says so, and what the sink holds after the
    flush. [bio_read text maxlen] is [BIO_read] from a memory buffer. *)
Class Base64Bio := {
  bio_write : nat → list byte → Z → Z * bool * list byte;
  bio_read : list byte → Z → Z * list byte;
  bio_write_some data len :
    0 < len ≤ INT_MAX → len ≤ Z.of_nat (length data) →
    bio_write 0 data len = (len, false, base64_text (take (Z.to_nat len) data));
  bio_write_none data len : len ≤ 0 → (bio_write 0 data len).1.1 ≤ 0 ∧ (bio_write 0 data len).1.2 = false;
  bio_read_text bs maxlen :
    bs ≠ [] → Z.of_nat (length bs) ≤ maxlen ≤ INT_MAX →
    bio_read (base64_text bs) maxlen = (Z.of_nat (length bs), bs)
}.

(** ** The code *)

Section code.
Context `{Base64Bio}.

(** [static_cast<int>] of a [size_t]. *)
Definition int_of_size (n : Z) : Z :=
  let m := wrap 32 n in if m <? 2 ^ 31 then m else m - 2 ^ 32.

Definition size_max : Z := 2 ^ 64 - 1.

(** The writes until one succeeds; out of fuel is [None]. *)
Fixpoint write_loop (fuel k : nat) (bytes : list byte) : option (expected EncodingError (list byte)) :=
  match fuel with
  | O => None
  | S fuel =>
      let '(written, should_retry, encoded) := bio_write k bytes (int_of_size (Z.of_nat (length bytes))) in
      if written <=? 0 then
        if should_retry then write_loop fuel (S k) bytes else Some (Unexpected kUnexpectedError)
      else Some (Ok encoded)
  end.

Definition encode (fuel : nat) (bytes : list byte) : option (expected EncodingError (list byte)) :=
  if decide (bytes = []) then Some (Ok [])
  else if size_max / 4 * 3 <? Z.of_nat (length bytes) then Some (Unexpected kInputTooLong)
  else write_loop fuel 0 bytes.

(** The text of [BIO_new_mem_buf] with length -1: up to the first null
    character, which must be in the memory that follows. *)
Fixpoint c_string (memory : list byte) : option (list byte) :=
  match memory with
  | [] => None
  | b :: memory => if decide (b = Byte.x00) then Some [] else (b ::.) <$> c_string memory
  end.

(** [after] is the memory behind the view. *)
Definition decode (input after : list byte) : outcome Empty_set (expected DecodingError (list byte)) :=
  if decide (input = []) then Return (Ok [])
  else
    match c_string (input ++ after) with
    | None => Undefined
    | Some source =>
        let maxlen := u64 (Z.of_nat (length input) / 4 * 3 + 1) in
        let ret := replicate (Z.to_nat maxlen) Byte.x00 in
        let '(effective_len, read) := bio_read source (int_of_size maxlen) in
        if effective_len <=? 0 then Return (Unexpected kInvalidBase64Input)
        else Return (Ok (take (Z.to_nat effective_len) (blit 0 read ret)))
    end.
End code.

(** ** Texts *)

Lemma base64_ind (P : list byte → Prop) :
  P [] → (∀ a, P [a]) → (∀ a b, P [a; b]) → (∀ a b c bs, P bs → P (a :: b :: c :: bs)) → ∀ bs, P bs.
Proof. intros H0 H1 H2 H3. fix IH 1. intros [|a [|b [|c bs]]]; [done..|]. apply H3, IH. Qed.

Lemma length_base64_text bs :
  Z.of_nat (length (base64_text bs)) = (Z.of_nat (length bs) + 2) / 3 * 4.
Proof.
  induction bs as [|a|a b|a b c bs IH] using base64_ind; cbn [base64_text length]; [done..|].
  rewrite !Nat2Z.inj_succ, IH. set (n := Z.of_nat (length bs)).
  replace (Z.succ (Z.succ (Z.succ n)) + 2) with (n + 2 + 1 * 3) by lia. rewrite Z.div_add by lia. lia.
Qed.

Lemma digit_not_null n : 0 <= n < 64 → digit n ≠ Byte.x00.
Proof.
  intros Hn. unfold digit. assert (Hl : Forall (.≠ Byte.x00) alphabet) by (apply (bool_decide_unpack _); by vm_compute).
  rewrite Forall_nth in Hl. apply Hl. change (length alphabet) with 64%nat. lia.
Qed.

(** The bytes of the goal as numbers in their range. *)
Ltac byte_ranges :=
  cbv zeta; repeat match goal with
  | |- context [Z_of_byte ?b] =>
      let Hb := fresh in pose proof (Z_of_byte_range b) as Hb; revert Hb; generalize (Z_of_byte b)
  end; intros.

Lemma base64_text_no_null bs : Forall (.≠ Byte.x00) (base64_text bs).
Proof.
  induction bs as [|a|a b|a b c bs IH] using base64_ind; cbn [base64_text]; repeat apply Forall_cons_2;
    try done; apply digit_not_null;
    byte_ranges; dlia.
Qed.

Lemma c_string_null s after : Forall (.≠ Byte.x00) s → c_string (s ++ Byte.x00 :: after) = Some s.
Proof.
  induction 1 as [|b s Hb _ IH]; cbn [app c_string]; [by rewrite decide_True|].
  by rewrite decide_False, IH.
Qed.

(** ** A reference reading of the texts *)

Definition undigit (c : byte) : Z :=
  match list_find (c =.) alphabet with Some (i, _) => Z.of_nat i | None => 0 end.

Lemma digit_cases n : 0 <= n < 64 → undigit (digit n) = n ∧ digit n ≠ equals_sign.
Proof.
  intros Hn.
  assert (Hall : Forall (λ i, undigit (digit i) = i ∧ digit i ≠ equals_sign) (seqZ 0 64))
    by (apply (bool_decide_unpack _); by vm_compute).
  rewrite Forall_forall in Hall. apply Hall. rewrite elem_of_seqZ. lia.
Qed.

Lemma undigit_digit n : 0 <= n < 64 → undigit (digit n) = n.
Proof. apply digit_cases. Qed.

Fixpoint base64_bytes (text : list byte) : list byte :=
  match text with
  | w :: x :: y :: z :: text =>
      let v := ((undigit w * 64 + undigit x) * 64 + undigit y) * 64 + undigit z in
      if decide (z = equals_sign) then
        if decide (y = equals_sign) then [byte_of_Z (v / 65536)]
        else [byte_of_Z (v / 65536); byte_of_Z (v / 256)]
      else byte_of_Z (v / 65536) :: byte_of_Z (v / 256) :: byte_of_Z v :: base64_bytes text
  | _ => []
  end.

Lemma byte_of_Z_is b z : z mod 256 = Z_of_byte b → byte_of_Z z = b.
Proof. intros Hz. rewrite <- (byte_of_Z_of_byte b), <- byte_of_Z_mod. by rewrite Hz. Qed.

Lemma base64_bytes_text bs : base64_bytes (base64_text bs) = bs.
Proof.
  assert (Heq : undigit equals_sign = 0) by by vm_compute.
  induction bs as [|a|a b|a b c bs IH] using base64_ind; cbn [base64_text base64_bytes]; [done| | |];
    cbv zeta.
  - rewrite !decide_True by done. rewrite Heq, !undigit_digit by (byte_ranges; dlia).
    f_equal. apply byte_of_Z_is. byte_ranges. dlia.
  - rewrite decide_True by done. rewrite decide_False by (apply digit_cases; byte_ranges; dlia).
    rewrite Heq, !undigit_digit by (byte_ranges; dlia).
    f_equal; [|f_equal]; apply byte_of_Z_is; byte_ranges; dlia.
  - rewrite decide_False by (apply digit_cases; byte_ranges; dlia).
    rewrite !undigit_digit by (byte_ranges; dlia). rewrite IH.
    f_equal; [|f_equal; [|f_equal]]; apply byte_of_Z_is; byte_ranges; dlia.
Qed.

Definition base64_reference : Base64Bio.
Proof.
  refine {|
    bio_write _ data len :=
      if len <=? 0 then (-1, false, []) else (len, false, base64_text (take (Z.to_nat len) data));
    bio_read text maxlen :=
      let bs := take (Z.to_nat maxlen) (base64_bytes text) in (Z.of_nat (length bs), bs)
  |}.
  - intros data len [Hl _] _. by rewrite (proj2 (Z.leb_gt len 0)).
  - intros data len Hl. rewrite (proj2 (Z.leb_le len 0)) by done. by split; [cbn|].
  - intros bs maxlen Hn [Hl _]. rewrite base64_bytes_text, take_ge by lia. done.
Defined.

(** ** The properties *)

Section theory.
Context `{Base64Bio}.

Lemma int_of_size_small n : 0 <= n <= INT_MAX → int_of_size n = n.
Proof.
  unfold INT_MAX, int_of_size. intros Hn. rewrite wrap_small by (unfold in_range; lia).
  by rewrite (proj2 (Z.ltb_lt n (2 ^ 31))) by lia.
Qed.

Lemma int_of_size_le n : 0 <= n → int_of_size n ≤ n ∧ int_of_size n ≤ INT_MAX.
Proof.
  intros Hn. unfold INT_MAX, int_of_size. cbv zeta. pose proof (wrap_range 32 n ltac:(lia)) as Hr. unfold in_range in Hr.
  assert (wrap 32 n <= n) by (unfold wrap; apply Z.mod_le; lia). destruct (Z.ltb_spec (wrap 32 n) (2 ^ 31)); lia.
Qed.

(** C3: encoding a nonempty input that is not refused as too long ends at its
    first write and sees as many bytes as the length is as an [int]. Up to
    [INT_MAX] = 2^31 - 1 bytes that is all of them, and the result is their
    RFC 4648 text; of more bytes only so many of the first ones are encoded,
    without an error, or it fails when the number is not positive. Of up to
    [INT_MAX - 3] bytes, decoding the text, followed by a null character as
    in a string, gives the bytes back (the last three lengths are left out:
    the length the decoder computes from the text need not fit in an [int]
    there). *)
Theorem encode_decode_text (bytes : list byte) (fuel : nat) :
  (0 < fuel)%nat → bytes ≠ [] → Z.of_nat (length bytes) <= size_max / 4 * 3 →
  let n := int_of_size (Z.of_nat (length bytes)) in
  encode fuel bytes =
    Some (if n <=? 0 then Unexpected kUnexpectedError else Ok (base64_text (take (Z.to_nat n) bytes))) ∧
  (Z.of_nat (length bytes) <= INT_MAX - 3 → n = Z.of_nat (length bytes) ∧ take (Z.to_nat n) bytes = bytes ∧
    ∀ after, decode (base64_text bytes) (Byte.x00 :: after) = Return (Ok bytes)).
Proof.
  intros Hf Hb Hl. cbv zeta. destruct (int_of_size_le (Z.of_nat (length bytes)) ltac:(lia)) as [Hn Hm]. split.
  - unfold encode. rewrite decide_False by done. rewrite (proj2 (Z.ltb_ge _ _)) by done.
    destruct fuel as [|fuel]; [lia|]. cbn [write_loop]. set (n := int_of_size _) in *.
    destruct (Z.leb_spec n 0) as [H0|H0].
    + destruct (bio_write_none bytes n H0) as [Hw Hr]. destruct (bio_write 0 bytes n) as [[w r] e]. cbn in Hw, Hr.
      by rewrite (proj2 (Z.leb_le w 0)), Hr.
    + rewrite bio_write_some by lia. by rewrite (proj2 (Z.leb_gt n 0)).
  - intros Hs. assert (En : int_of_size (Z.of_nat (length bytes)) = Z.of_nat (length bytes))
      by (apply int_of_size_small; lia).
    rewrite En, Nat2Z.id, take_ge by lia. split; [done|]. split; [done|]. intros after. unfold decode.
    pose proof (length_base64_text bytes) as Hlen.
    assert (Hpos : (0 < length bytes)%nat) by (destruct bytes; [done|cbn; lia]).
    rewrite decide_False by (intros E; rewrite E in Hlen; cbn in Hlen; dlia).
    rewrite c_string_null by apply base64_text_no_null. rewrite Hlen, Z.div_mul by lia.
    set (maxlen := (Z.of_nat (length bytes) + 2) / 3 * 3 + 1).
    assert (Hmax : Z.of_nat (length bytes) <= maxlen <= INT_MAX) by (unfold maxlen; split; dlia).
    assert (Hu : u64 maxlen = maxlen) by (apply wrap_small; unfold in_range, INT_MAX in *; lia).
    cbv zeta. rewrite Hu, int_of_size_small, bio_read_text by (done || lia).
    rewrite (proj2 (Z.leb_gt _ 0)) by lia. do 2 f_equal. rewrite Nat2Z.id. unfold blit. rewrite take_0. cbn [app].
    by rewrite take_app_length.
Qed.

(** The text goes on to the next null character in memory, wherever the view
    ends. *)
Lemma decode_reads_past (input after : list byte) :
  input ≠ [] → Forall (.≠ Byte.x00) (input ++ after) → decode input after = Undefined.
Proof.
  intros Hi Hf. unfold decode. rewrite decide_False by done.
  assert (Hc : ∀ m, Forall (.≠ Byte.x00) m → c_string m = None).
  { induction 1 as [|b m Hb _ IH]; cbn [c_string]; [done|]. by rewrite decide_False, IH. }
  by rewrite Hc.
Qed.
End theory.

Lemma encode_decode_text_witness :
  encode (H := base64_reference) 1 (chars "fooba") = Some (Ok (chars "Zm9vYmE=")) ∧
  decode (H := base64_reference) (chars "Zm9vYmE=") [Byte.x00] = Return (Ok (chars "fooba")).
Proof.
  destruct (encode_decode_text (H := base64_reference) (chars "fooba") 1) as [He Hd]; [lia|done|done|].
  split; [rewrite He; vm_compute; reflexivity|]. exact (proj2 (proj2 (Hd ltac:(done))) []).
Defined.
