(* ===== verification/Stream.v ===== *)
(** * Stream: zen/core/serialization/stream.hpp and stream.cpp

    [DataStream], a byte buffer with a read position. Every operation of the
    class is translated; [size_type] arithmetic is done at 64 bits, so the
    wrap-around of [read] and [skip] is part of the model. The specification
    is a first-in first-out queue of bytes ([Op], [queue_step]), and
    [stream_refines_queue] is the refinement between the two. *)
From S2P Require Import Prelude Base Hex.

Local Open Scope Z_scope.

(** ** The class *)

Record DataStream := mkDataStream {
  buffer_ : list byte;
  read_position_ : Z;
  scope_ : Scope;
  version_ : Z
}.

(** An iterator into [buffer_] is its index. A [ByteView] returned by [read]
    is a window of [buffer_]: it is only readable when inside the buffer. *)
Record ByteView := mkByteView { view_offset : Z; view_length : Z }.

Definition view_bytes (buffer : list byte) (v : ByteView) : outcome Empty_set (list byte) :=
  if view_offset v + view_length v <=? Z.of_nat (length buffer)
  then Return (take (Z.to_nat (view_length v)) (drop (Z.to_nat (view_offset v)) buffer))
  else Undefined.

Definition with_buffer (s : DataStream) (buffer : list byte) : DataStream :=
  mkDataStream buffer (read_position_ s) (scope_ s) (version_ s).
Definition with_position (s : DataStream) (p : Z) : DataStream :=
  mkDataStream (buffer_ s) p (scope_ s) (version_ s).

Definition make_stream (scope : Scope) (version : Z) : DataStream :=
  mkDataStream [] 0 scope version.

Definition size (s : DataStream) : Z := Z.of_nat (length (buffer_ s)).
Definition avail (s : DataStream) : Z := u64 (size s - read_position_ s).
Definition eof (s : DataStream) : bool := size s <=? read_position_ s.
Definition tellp (s : DataStream) : Z := read_position_ s.

(** [reserve] only changes the capacity, which nothing observes. *)
Definition reserve (s : DataStream) (count : Z) : DataStream := s.
Definition resize_stream (s : DataStream) (new_size : Z) (item : byte) : DataStream :=
  with_buffer s (resize (Z.to_nat new_size) item (buffer_ s)).

Definition write (s : DataStream) (data : list byte) : DataStream :=
  with_buffer s (buffer_ s ++ data).
Definition push_back (s : DataStream) (item : byte) : DataStream :=
  with_buffer s (buffer_ s ++ [item]).

Definition begin_ (s : DataStream) : Z := read_position_ s.
Definition end_ (s : DataStream) : Z := size s.

Definition insert_at (s : DataStream) (where_ : Z) (item : byte) : outcome Empty_set DataStream :=
  if (0 <=? where_) && (where_ <=? size s) then
    let n := Z.to_nat where_ in
    Return (with_buffer s (take n (buffer_ s) ++ item :: drop n (buffer_ s)))
  else Undefined.

Definition erase_at (s : DataStream) (where_ : Z) : outcome Empty_set DataStream :=
  if (0 <=? where_) && (where_ <? size s) then
    Return (with_buffer s (delete (Z.to_nat where_) (buffer_ s)))
  else Undefined.

(** [next_read_position] is computed in [size_t], and [&buffer_[p]] needs
    [p <= size()]. *)
Definition read (s : DataStream) (count : Z) :
    outcome Empty_set (expected DeserializationError ByteView * DataStream) :=
  let next_read_position := u64 (read_position_ s + count) in
  if size s <? next_read_position then Return (Unexpected kReadBeyondData, s)
  else if size s <? read_position_ s then Undefined
  else Return (Ok (mkByteView (read_position_ s) count), with_position s next_read_position).

Definition skip (s : DataStream) (count : Z) : DataStream :=
  with_position s (Z.min (u64 (read_position_ s + count)) (size s)).

Definition seekp (s : DataStream) (p : Z) : DataStream :=
  with_position s (Z.min p (size s)).

(** [buffer_[i]] of a [basic_string]: the element, the terminator at
    [i = size()], nothing defined beyond. *)
Definition at_ (s : DataStream) (pos : Z) : outcome Empty_set byte :=
  let i := u64 (pos + read_position_ s) in
  if i <? size s then Return (nth (Z.to_nat i) (buffer_ s) Byte.x00)
  else if i =? size s then Return Byte.x00
  else Undefined.

Definition clear (s : DataStream) : DataStream :=
  mkDataStream [] 0 (scope_ s) (version_ s).

(** [buffer_.erase(0, n)] erases at most what there is. *)
Definition shrink (s : DataStream) : DataStream :=
  mkDataStream (drop (Z.to_nat (read_position_ s)) (buffer_ s)) 0 (scope_ s) (version_ s).

(** Returns the destination and the cleared source, two distinct objects. *)
Definition get_clear (s dst : DataStream) : outcome Empty_set (DataStream * DataStream) :=
  if size s <? read_position_ s then Undefined
  else
    data ← view_bytes (buffer_ s) (mkByteView (read_position_ s) (avail s));
    Return (write dst data, clear s).

Definition to_string (s : DataStream) : list byte := encode (buffer_ s) false.

(** ** Well-formed streams and the bytes still to be consumed *)

(** A string holds fewer than [2^63] bytes, and the read position is inside. *)
Definition wf (s : DataStream) : Prop :=
  0 <= read_position_ s <= size s ∧ size s < 2 ^ 63.

Definition unread (s : DataStream) : list byte :=
  drop (Z.to_nat (read_position_ s)) (buffer_ s).

Lemma length_unread s : wf s → Z.of_nat (length (unread s)) = size s - read_position_ s.
Proof. intros [H _]. unfold unread, size in *. rewrite length_drop. lia. Qed.

Lemma avail_unread s : wf s → avail s = Z.of_nat (length (unread s)).
Proof.
  intros H. rewrite length_unread by done. destruct H. unfold avail, u64.
  apply wrap_small. unfold in_range. lia.
Qed.

Lemma eof_unread s : wf s → eof s = bool_decide (unread s = []).
Proof.
  intros H. pose proof (length_unread s H) as L. unfold eof.
  destruct (unread s) as [|b bs] eqn:E; simpl in L.
  - rewrite bool_decide_eq_true_2 by done. lia.
  - rewrite bool_decide_eq_false_2 by done. lia.
Qed.

Lemma write_wf s data :
  wf s → size s + Z.of_nat (length data) < 2 ^ 63 → wf (write s data).
Proof. unfold wf, size, write. simpl. rewrite length_app. lia. Qed.

Lemma unread_write s data : wf s → unread (write s data) = unread s ++ data.
Proof. intros [H _]. unfold unread, write. simpl. apply drop_app_le. unfold size in H. lia. Qed.

Lemma push_back_write s b : push_back s b = write s [b].
Proof. done. Qed.

Lemma read_ok s count :
  wf s → 0 <= count <= Z.of_nat (length (unread s)) →
  read s count = Return (Ok (mkByteView (read_position_ s) count),
                         with_position s (read_position_ s + count)).
Proof.
  intros H Hc. rewrite length_unread in Hc by done. destruct H. unfold read, u64.
  rewrite wrap_small by (unfold in_range; lia).
  rewrite !(proj2 (Z.ltb_ge _ _)) by lia. done.
Qed.

Lemma read_short s count :
  wf s → Z.of_nat (length (unread s)) < count < 2 ^ 63 →
  read s count = Return (Unexpected kReadBeyondData, s).
Proof.
  intros H Hc. rewrite length_unread in Hc by done. destruct H. unfold read, u64.
  rewrite wrap_small by (unfold in_range; lia).
  by rewrite (proj2 (Z.ltb_lt _ _)) by lia.
Qed.

Lemma view_bytes_unread s count :
  wf s → 0 <= count <= Z.of_nat (length (unread s)) →
  view_bytes (buffer_ s) (mkByteView (read_position_ s) count)
  = Return (take (Z.to_nat count) (unread s)).
Proof.
  intros H Hc. rewrite length_unread in Hc by done. unfold view_bytes, unread. simpl.
  by rewrite (proj2 (Z.leb_le _ _)) by (unfold size in Hc; lia).
Qed.

Lemma with_position_wf s p : wf s → 0 <= p <= size s → wf (with_position s p).
Proof. unfold wf, size. simpl. lia. Qed.

Lemma unread_advance s count :
  wf s → 0 <= count → unread (with_position s (read_position_ s + count))
  = drop (Z.to_nat count) (unread s).
Proof.
  intros [H _] Hc. unfold unread. simpl. rewrite drop_drop. f_equal. lia.
Qed.

Lemma shrink_wf s : wf s → wf (shrink s).
Proof. unfold wf, size, shrink. simpl. rewrite length_drop. lia. Qed.

Lemma unread_shrink s : unread (shrink s) = unread s.
Proof. unfold unread, shrink. simpl. by rewrite drop_0. Qed.

Lemma skip_wf s count : wf s → 0 <= count → wf (skip s count).
Proof.
  intros H Hc. unfold skip. apply with_position_wf; [done|].
  pose proof (wrap_range 64 (read_position_ s + count)) as [? _]; [lia|].
  destruct H. unfold u64. lia.
Qed.

Lemma unread_skip s count :
  wf s → 0 <= count → read_position_ s + count < 2 ^ 64 →
  unread (skip s count) = drop (Z.to_nat count) (unread s).
Proof.
  intros H Hc Hov. unfold skip, u64. rewrite wrap_small by (destruct H; unfold in_range; lia).
  destruct (Z.min_spec (read_position_ s + count) (size s)) as [[? ->]|[? ->]].
  - by apply unread_advance.
  - unfold unread, size in *. simpl. rewrite Nat2Z.id, drop_all, drop_drop.
    rewrite drop_ge; [done|]. destruct H. lia.
Qed.

(** ** The abstract specification: a queue of bytes *)

Inductive Op :=
  | OWrite (data : list byte)
  | OPushBack (item : byte)
  | ORead (count : Z)
  | OSkip (count : Z)
  | OShrink
  | OClear
  | OEof
  | OAvail
  | OToNext.  (** the first unread byte, [operator[](0)] *)

Inductive Answer :=
  | ANone
  | ABytes (r : expected DeserializationError (list byte))
  | ABool (b : bool)
  | ASize (n : Z)
  | AByte (b : byte).

Definition stream_step (o : Op) (s : DataStream) : outcome Empty_set (Answer * DataStream) :=
  match o with
  | OWrite data => Return (ANone, write s data)
  | OPushBack item => Return (ANone, push_back s item)
  | ORead count =>
      '(r, s') ← read s count;
      match r with
      | Ok v => data ← view_bytes (buffer_ s') v; Return (ABytes (Ok data), s')
      | Unexpected e => Return (ABytes (Unexpected e), s')
      end
  | OSkip count => Return (ANone, skip s count)
  | OShrink => Return (ANone, shrink s)
  | OClear => Return (ANone, clear s)
  | OEof => Return (ABool (eof s), s)
  | OAvail => Return (ASize (avail s), s)
  | OToNext => b ← at_ s 0; Return (AByte b, s)
  end.

Definition queue_step (o : Op) (q : list byte) : Answer * list byte :=
  match o with
  | OWrite data => (ANone, q ++ data)
  | OPushBack item => (ANone, q ++ [item])
  | ORead count =>
      if count <=? Z.of_nat (length q)
      then (ABytes (Ok (take (Z.to_nat count) q)), drop (Z.to_nat count) q)
      else (ABytes (Unexpected kReadBeyondData), q)
  | OSkip count => (ANone, drop (Z.to_nat count) q)
  | OShrink => (ANone, q)
  | OClear => (ANone, [])
  | OEof => (ABool (bool_decide (q = [])), q)
  | OAvail => (ASize (Z.of_nat (length q)), q)
  | OToNext => (AByte (default Byte.x00 (head q)), q)
  end.

Fixpoint run_stream (os : list Op) (s : DataStream) :
    outcome Empty_set (list Answer * DataStream) :=
  match os with
  | [] => Return ([], s)
  | o :: os =>
      '(a, s) ← stream_step o s;
      '(al, s) ← run_stream os s;
      Return (a :: al, s)
  end.

Fixpoint run_queue (os : list Op) (q : list byte) : list Answer * list byte :=
  match os with
  | [] => ([], q)
  | o :: os =>
      let '(a, q) := queue_step o q in
      let '(al, q) := run_queue os q in
      (a :: al, q)
  end.

(** The bytes an operation adds, and the sizes a caller can pass without
    overflowing [size_t]. *)
Definition op_bytes (o : Op) : Z :=
  match o with
  | OWrite data => Z.of_nat (length data)
  | OPushBack _ => 1
  | _ => 0
  end.
Definition op_ok (o : Op) : bool :=
  match o with
  | ORead count | OSkip count => (0 <=? count) && (count <? 2 ^ 63)
  | _ => true
  end.
Definition ops_bytes (os : list Op) : Z := foldr (λ o n, op_bytes o + n) 0 os.

Lemma op_bytes_nonneg o : 0 <= op_bytes o.
Proof. destruct o; simpl; lia. Qed.

Lemma ops_bytes_nonneg os : 0 <= ops_bytes os.
Proof. induction os as [|o os IH]; simpl; [lia|]. pose proof (op_bytes_nonneg o). lia. Qed.

(** One operation: the stream stays well formed, grows by at most the bytes
    written, and answers what the queue answers. *)
Lemma stream_step_queue o s :
  wf s → op_ok o = true → size s + op_bytes o < 2 ^ 63 →
  ∃ s', stream_step o s = Return (fst (queue_step o (unread s)), s')
      ∧ unread s' = snd (queue_step o (unread s))
      ∧ wf s' ∧ size s' <= size s + op_bytes o.
Proof.
  intros H Ho Hb. destruct o as [data|item|count|count| | | | |]; simpl in *.
  - eexists; split; [done|]. rewrite unread_write by done. split; [done|].
    split; [by apply write_wf|]. unfold size, write. simpl. rewrite length_app. lia.
  - eexists; split; [done|]. rewrite push_back_write, unread_write by done.
    split; [done|]. split; [by apply write_wf|].
    unfold size, write. simpl. rewrite length_app. simpl. lia.
  - destruct (Z.leb_spec count (Z.of_nat (length (unread s)))) as [Hc|Hc].
    + assert (0 <= count) by lia. rewrite read_ok by (done || lia). simpl.
      rewrite view_bytes_unread by (done || lia). simpl.
      eexists; split; [done|]. split; [by apply unread_advance|].
      rewrite length_unread in Hc by done.
      split; [apply with_position_wf; [done|destruct H; lia]|]. unfold size. simpl. lia.
    + rewrite read_short by (done || lia). eexists. repeat split; try done; try apply H. lia.
  - eexists; split; [done|]. split; [apply unread_skip; [done|lia|destruct H; lia]|].
    split; [apply skip_wf; [done|lia]|]. unfold size. simpl. lia.
  - eexists; split; [done|]. split; [apply unread_shrink|].
    split; [by apply shrink_wf|]. unfold size, shrink. simpl. rewrite length_drop. lia.
  - eexists; split; [done|]. split; [done|]. split; [done|].
    unfold size. simpl. lia.
  - rewrite eof_unread by done. eexists. repeat split; try done; try apply H. lia.
  - rewrite avail_unread by done. eexists. repeat split; try done; try apply H. lia.
  - destruct H as [Hp Hs]. unfold at_, u64. rewrite wrap_small by (unfold in_range; lia).
    assert (Hhd : head (unread s) = buffer_ s !! Z.to_nat (read_position_ s)).
    { unfold unread. by rewrite head_lookup, lookup_drop, Nat.add_0_r. }
    rewrite Hhd, Z.add_0_l. unfold size in *.
    destruct (Z.ltb_spec (read_position_ s) (Z.of_nat (length (buffer_ s)))).
    + rewrite nth_lookup. eexists. repeat split; try done; unfold size; lia.
    + rewrite (proj2 (Z.eqb_eq _ _)) by lia. rewrite lookup_ge_None_2 by lia.
      eexists. repeat split; try done; unfold size; lia.
Qed.

(** C4: [DataStream] is a first-in first-out queue of bytes: any sequence of
    [write], [push_back], [read], [skip], [shrink], [clear], [eof], [avail] and
    [operator[]] at 0 whose counts are below 2^63 answers exactly what the
    queue of its unread bytes answers, the error of a read past the end
    included, and never has undefined behaviour, as long as the size stays
    below 2^63. (Larger counts wrap: [read_overflow], [skip_overflow]. The
    operations that move the position back or edit the buffer, [seekp],
    [resize], [insert] and [erase], are no operations of a queue.) *)
Theorem stream_refines_queue os s :
  wf s → Forall (λ o, op_ok o = true) os → size s + ops_bytes os < 2 ^ 63 →
  ∃ s', run_stream os s = Return (fst (run_queue os (unread s)), s')
      ∧ unread s' = snd (run_queue os (unread s)) ∧ wf s'.
Proof.
  revert s. induction os as [|o os IH]; intros s H Hok Hb; simpl in *.
  { by exists s. }
  apply Forall_cons in Hok as [Ho Hok]. pose proof (ops_bytes_nonneg os).
  destruct (stream_step_queue o s H Ho ltac:(lia)) as (s1 & E1 & U1 & W1 & B1).
  destruct (IH s1 W1 Hok ltac:(lia)) as (s2 & E2 & U2 & W2).
  exists s2. rewrite E1. simpl. rewrite E2. rewrite U1 in *. simpl.
  destruct (queue_step o (unread s)) as [a q]. simpl in *.
  by destruct (run_queue os q).
Qed.

Lemma stream_refines_queue_witness :
  ∃ s', run_stream [OPushBack Byte.x01; ORead 3; OWrite [Byte.x02; Byte.x03]; ORead 2; OAvail]
          (make_stream kStorage 0)
        = Return (fst (run_queue [OPushBack Byte.x01; ORead 3; OWrite [Byte.x02; Byte.x03];
                                  ORead 2; OAvail] (unread (make_stream kStorage 0))), s')
      ∧ unread s' = snd (run_queue [OPushBack Byte.x01; ORead 3; OWrite [Byte.x02; Byte.x03];
                                    ORead 2; OAvail] (unread (make_stream kStorage 0)))
      ∧ wf s'.
Proof.
  apply stream_refines_queue; [by vm_compute|by repeat constructor|by vm_compute].
Defined.

(** ** Editing through iterators *)

(** Inserting or erasing at an iterator of the unread part ([begin()] plus
    an offset up to [end()]) edits exactly that element of the unread bytes
    and leaves the rest, and the stream well formed. *)
Theorem edit_unread s i item :
  wf s → 0 <= i <= Z.of_nat (length (unread s)) → size s + 1 < 2 ^ 63 →
  (∃ s', insert_at s (begin_ s + i) item = Return s' ∧ wf s' ∧
     unread s' = take (Z.to_nat i) (unread s) ++ item :: drop (Z.to_nat i) (unread s)) ∧
  (i < Z.of_nat (length (unread s)) →
   ∃ s', erase_at s (begin_ s + i) = Return s' ∧ wf s' ∧
     unread s' = delete (Z.to_nat i) (unread s)).
Proof.
  intros H Hi Hb. rewrite length_unread in * by done. destruct H as [Hp Hs].
  set (p := Z.to_nat (read_position_ s)).
  assert (Hn : Z.to_nat (begin_ s + i) = (p + Z.to_nat i)%nat) by (unfold begin_; lia).
  assert (Hlen : (p + Z.to_nat i ≤ length (buffer_ s))%nat) by (unfold size in *; lia).
  assert (Hbuf : buffer_ s = take p (buffer_ s) ++ unread s).
  { unfold unread, p. by rewrite take_drop. }
  assert (Hpl : length (take p (buffer_ s)) = p) by (rewrite length_take; lia).
  split.
  - unfold insert_at, begin_.
    rewrite (proj2 (Z.leb_le _ _)), (proj2 (Z.leb_le _ _)) by lia. simpl.
    fold (begin_ s). rewrite Hn. eexists; split; [done|]. split.
    + unfold wf, size in *. simpl. rewrite length_app. simpl.
      rewrite length_take, length_drop. lia.
    + unfold unread at 1. simpl. fold p. rewrite Hbuf.
      rewrite take_app_add', drop_app_add' by done.
      rewrite <-(assoc_L (++)). by rewrite drop_app_length'.
  - intros Hi'. unfold erase_at, begin_.
    rewrite (proj2 (Z.leb_le _ _)), (proj2 (Z.ltb_lt _ _)) by lia. simpl.
    fold (begin_ s). rewrite Hn. eexists; split; [done|]. split.
    + unfold wf, size in *. simpl. rewrite length_delete by (apply lookup_lt_is_Some; lia). lia.
    + unfold unread at 1. simpl. fold p. rewrite Hbuf.
      rewrite delete_take_drop, take_app_add' by done.
      rewrite <-Nat.add_succ_r, drop_app_add' by done.
      rewrite <-(assoc_L (++)), drop_app_length' by done.
      by rewrite <-delete_take_drop.
Qed.

Lemma edit_unread_witness :
  let s := mkDataStream [Byte.x01; Byte.x02; Byte.x03] 1 kStorage 0 in
  (∃ s', insert_at s (begin_ s + 1) Byte.x09 = Return s' ∧ wf s' ∧
     unread s' = take (Z.to_nat 1) (unread s) ++ Byte.x09 :: drop (Z.to_nat 1) (unread s)) ∧
  (1 < Z.of_nat (length (unread s)) →
   ∃ s', erase_at s (begin_ s + 1) = Return s' ∧ wf s' ∧
     unread s' = delete (Z.to_nat 1) (unread s)).
Proof. intros s. apply (edit_unread s 1 Byte.x09); by vm_compute. Defined.

Lemma get_clear_spec s dst :
  wf s → get_clear s dst = Return (write dst (unread s), clear s).
Proof.
  intros H. unfold get_clear. rewrite avail_unread by done.
  rewrite (proj2 (Z.ltb_ge _ _)) by (destruct H; lia).
  rewrite view_bytes_unread by (done || lia). simpl.
  by rewrite Nat2Z.id, firstn_all.
Qed.

(** ** Where the wrap-around shows *)

(** When [read_position_ + count] overflows [size_t], [skip] moves the
    read position backwards instead of to the end, so [eof()] stays false. *)
Theorem skip_overflow s count :
  wf s → 0 <= count < 2 ^ 64 → 2 ^ 64 <= read_position_ s + count →
  tellp (skip s count) < tellp s ∧ eof (skip s count) = false.
Proof.
  intros [Hp Hs] Hc Hov. unfold skip, u64, wrap, tellp, eof. simpl.
  replace ((read_position_ s + count) mod 2 ^ 64) with (read_position_ s + count - 2 ^ 64).
  { rewrite Z.min_l by lia. unfold size at 1. simpl. fold (size s). lia. }
  rewrite <-(Z_mod_plus_full _ (-1)). symmetry. apply Z.mod_small. lia.
Qed.

Lemma skip_overflow_witness :
  let s := mkDataStream [Byte.x01; Byte.x02; Byte.x03] 2 kStorage 0 in
  tellp (skip s (2 ^ 64 - 1)) < tellp s ∧ eof (skip s (2 ^ 64 - 1)) = false.
Proof. intros s. apply skip_overflow; by vm_compute. Defined.

(** The same overflow defeats the bounds check of [read]: it succeeds with
    a view that is not inside the buffer, and the read position goes back. *)
Theorem read_overflow s count :
  wf s → 0 <= count < 2 ^ 64 → 2 ^ 64 <= read_position_ s + count →
  ∃ v s', read s count = Return (Ok v, s')
        ∧ view_bytes (buffer_ s') v = Undefined ∧ tellp s' < tellp s.
Proof.
  intros [Hp Hs] Hc Hov. unfold read, u64, wrap.
  replace ((read_position_ s + count) mod 2 ^ 64) with (read_position_ s + count - 2 ^ 64).
  - rewrite !(proj2 (Z.ltb_ge _ _)) by lia. eexists _, _. split; [done|].
    unfold view_bytes, tellp. simpl. unfold size in *.
    rewrite (proj2 (Z.leb_gt _ _)) by lia. split; [done|lia].
  - rewrite <-(Z_mod_plus_full _ (-1)). symmetry. apply Z.mod_small. lia.
Qed.

Lemma read_overflow_witness :
  let s := mkDataStream [Byte.x01; Byte.x02; Byte.x03] 2 kStorage 0 in
  ∃ v s', read s (2 ^ 64 - 1) = Return (Ok v, s')
        ∧ view_bytes (buffer_ s') v = Undefined ∧ tellp s' < tellp s.
Proof. intros s. apply read_overflow; by vm_compute. Defined.
