(* ===== verification/Serialize.v ===== *)
(** * Serialize: zen/core/serialization/serialize.hpp

    The functions are templates over a [Stream]: they are defined here over
    the operations they call ([StreamOps]) and their theorems are proved from
    what those operations promise ([StreamSpec]), a queue of bytes;
    [DataStream] is shown to keep that promise at the end of the file.
    Multi-byte values are stored in the machine's byte order, little-endian on
    the platforms the project builds for. A [float] or a [double] is its bit
    pattern, a [bool] is 0 or 1. *)
From S2P Require Import Prelude Base.
From S2P Require Stream.

Local Open Scope Z_scope.

(** ** The interface of a stream *)

Class StreamOps (St : Type) := {
  st_write : St → list byte → St;
  st_push_back : St → byte → St;
  st_read : St → Z → outcome Empty_set (expected DeserializationError (list byte) * St);
  st_shrink : St → St
}.

(** What the operations promise: the bytes not yet read form a queue, provided
    the total size stays below [2^63]. *)
Class StreamSpec (St : Type) `{StreamOps St} := {
  st_inv : St → Prop;
  st_unread : St → list byte;
  st_size : St → Z;
  st_unread_size s : st_inv s → 0 <= Z.of_nat (length (st_unread s)) <= st_size s;
  st_write_spec s data :
    st_inv s → st_size s + Z.of_nat (length data) < 2 ^ 63 →
    st_inv (st_write s data) ∧ st_unread (st_write s data) = st_unread s ++ data
    ∧ st_size (st_write s data) = st_size s + Z.of_nat (length data);
  st_push_back_spec s b : st_push_back s b = st_write s [b];
  st_read_ok s n :
    st_inv s → (n ≤ length (st_unread s))%nat →
    ∃ s', st_read s (Z.of_nat n) = Return (Ok (take n (st_unread s)), s')
        ∧ st_inv s' ∧ st_unread s' = drop n (st_unread s);
  st_read_short s n :
    st_inv s → (length (st_unread s) < n)%nat → Z.of_nat n < 2 ^ 63 →
    st_read s (Z.of_nat n) = Return (Unexpected kReadBeyondData, s);
  st_shrink_spec s :
    st_inv s → st_inv (st_shrink s) ∧ st_unread (st_shrink s) = st_unread s
}.

(** ** The arithmetic types *)

Inductive arith_type :=
  | TBool | TU8 | TU16 | TU32 | TU64 | TI8 | TI16 | TI32 | TI64 | TFloat | TDouble.

#[export] Instance arith_type_eq_dec : EqDecision arith_type.
Proof. solve_decision. Defined.

Definition sizeof (t : arith_type) : nat :=
  match t with
  | TBool | TU8 | TI8 => 1
  | TU16 | TI16 => 2
  | TU32 | TI32 | TFloat => 4
  | TU64 | TI64 | TDouble => 8
  end.

Definition is_signed (t : arith_type) : bool :=
  match t with TI8 | TI16 | TI32 | TI64 => true | _ => false end.

(** The values of a type. *)
Definition has_type (t : arith_type) (v : Z) : bool :=
  let w := 8 * Z.of_nat (sizeof t) in
  match t with
  | TBool => (0 <=? v) && (v <=? 1)
  | _ => if is_signed t then (- 2 ^ (w - 1) <=? v) && (v <? 2 ^ (w - 1))
         else (0 <=? v) && (v <? 2 ^ w)
  end.

(** [memcpy] from an object to its bytes and back. A [bool] object holding
    anything but 0 or 1 has no value. *)
Definition object_bytes (t : arith_type) (v : Z) : list byte := le_bytes (sizeof t) v.
Definition object_value (t : arith_type) (bs : list byte) : outcome Empty_set Z :=
  let u := le_value bs in
  let w := 8 * Z.of_nat (sizeof t) in
  match t with
  | TBool => if u <=? 1 then Return u else Undefined
  | _ => Return (if is_signed t && (2 ^ (w - 1) <=? u) then u - 2 ^ w else u)
  end.

(** ** The code *)

Definition ser_sizeof (t : arith_type) : Z :=
  match t with
  | TBool => 1
  | _ => Z.of_nat (sizeof t)
  end.

Definition ser_compact_sizeof (value : Z) : Z :=
  if value <? 253 then 1
  else if value <=? 0xffff then 3
  else if value <=? 0xffffffff then 5
  else 9.

(** Computations that read from a stream and may fail with an error. *)
Definition reader (St A : Type) : Type :=
  St → outcome Empty_set (expected DeserializationError A * St).
Definition rbind {St A B} (m : reader St A) (f : A → reader St B) : reader St B := λ s,
  '(r, s) ← m s;
  match r with
  | Ok a => f a s
  | Unexpected e => Return (Unexpected e, s)
  end.
Definition rret {St A} (a : A) : reader St A := λ s, Return (Ok a, s).
Definition rfail {St A} (e : DeserializationError) : reader St A := λ s,
  Return (Unexpected e, s).

Notation "'let*' x ':=' m 'in' k" := (rbind m (λ x, k))
  (at level 10, x name, m at level 100, k at level 200) : moria_scope.
Local Open Scope moria_scope.

Section code.
Context {St : Type} `{StreamOps St}.

Definition write_integral (t : arith_type) (s : St) (obj : Z) : St :=
  let bytes := object_bytes t obj in
  st_write s bytes.

Definition write_bool (s : St) (obj : bool) : St :=
  let out := byte_of_Z (if obj then 0x0 else 0x1) in
  st_push_back s out.

(** [bit_cast] of a [float] or [double]: the model's value is the pattern. *)
Definition write_float (s : St) (obj : Z) : St :=
  let casted := obj in
  write_integral TU32 s casted.
Definition write_double (s : St) (obj : Z) : St :=
  let casted := obj in
  write_integral TU64 s casted.

(** Overload resolution on the type of the argument. *)
Definition write_data (t : arith_type) (s : St) (obj : Z) : St :=
  match t with
  | TBool => write_bool s (negb (obj =? 0))
  | TFloat => write_float s obj
  | TDouble => write_double s obj
  | _ => write_integral t s obj
  end.

Definition write_compact (s : St) (obj : Z) : outcome Empty_set St :=
  let casted := le_bytes 8 obj in
  let num_bytes := ser_compact_sizeof obj in
  let emit prefix :=
    let s := st_push_back s (byte_of_Z prefix) in
    Return (st_write s (take (Z.to_nat (num_bytes - 1)) casted)) in
  match num_bytes with
  | 1 => Return (st_push_back s (nth 0 casted Byte.x00))
  | 3 => emit 253
  | 5 => emit 254
  | 9 => emit 255
  | _ => Abort
  end.

Definition read_data (t : arith_type) : reader St Z := λ s,
  let count := ser_sizeof t in
  '(read_result, s) ← st_read s count;
  match read_result with
  | Unexpected e => Return (Unexpected e, s)
  | Ok bs =>
      ret ← object_value t bs;
      Return (Ok ret, st_shrink s)
  end.

(** The last test, on the value read, common to every branch. *)
Definition check_max (ret : Z) : reader St Z :=
  if kMaxSerializedCompactSize <? ret then rfail kCompactSizeTooBig else rret ret.

Definition read_compact : reader St Z :=
  let* size := read_data TU8 in
  if size <? 253 then check_max size
  else if size =? 253 then
    let* value := read_data TU16 in
    if value <? 253 then rfail kNonCanonicalCompactSize else check_max value
  else if size =? 254 then
    let* value := read_data TU32 in
    if value <? 0x10000 then rfail kNonCanonicalCompactSize else check_max value
  else
    let* value := read_data TU64 in
    if value <? 0x100000000 then rfail kNonCanonicalCompactSize else check_max value.
End code.

(** ** Objects and bytes *)

Lemma length_object_bytes t v : length (object_bytes t v) = sizeof t.
Proof. apply length_le_bytes. Qed.

Lemma ser_sizeof_sizeof t : ser_sizeof t = Z.of_nat (sizeof t).
Proof. by destruct t. Qed.

Lemma object_roundtrip t v :
  has_type t v = true → object_value t (object_bytes t v) = Return v.
Proof.
  intros Hv. unfold object_value, object_bytes. rewrite le_value_le_bytes.
  destruct t; simpl in Hv |- *; const_pows.
  { rewrite Z.mod_small by lia. by rewrite (proj2 (Z.leb_le _ _)) by lia. }
  all: f_equal; try case_match; dlia.
Qed.

(** ** Reading from the queue *)

Section theory.
Context {St : Type} `{StreamSpec St}.

(** [m] run on [s] returns [r] and leaves the unread bytes [q]. *)
Definition yields {A} (m : reader St A) (s : St)
    (r : expected DeserializationError A) (q : list byte) : Prop :=
  ∃ s', m s = Return (r, s') ∧ st_inv s' ∧ st_unread s' = q.

Lemma yields_ret {A} (a : A) s : st_inv s → yields (rret a) s (Ok a) (st_unread s).
Proof. intros Hs. by exists s. Qed.

Lemma yields_fail {A} e s : st_inv s → yields (A := A) (rfail e) s (Unexpected e) (st_unread s).
Proof. intros Hs. by exists s. Qed.

Lemma yields_bind {A B} (m : reader St A) (f : A → reader St B) s a q r q' :
  yields m s (Ok a) q →
  (∀ s', st_inv s' → st_unread s' = q → yields (f a) s' r q') →
  yields (rbind m f) s r q'.
Proof.
  intros (s' & E & Hi & Hq) Hf. destruct (Hf s' Hi Hq) as (s2 & E2 & Hi2 & Hq2).
  exists s2. unfold rbind. rewrite E. simpl. by rewrite E2.
Qed.

Lemma yields_bind_err {A B} (m : reader St A) (f : A → reader St B) s e q :
  yields m s (Unexpected e) q → yields (rbind m f) s (Unexpected e) q.
Proof. intros (s' & E & Hi & Hq). exists s'. unfold rbind. by rewrite E. Qed.

Lemma read_data_ok t s v :
  st_inv s → (sizeof t ≤ length (st_unread s))%nat →
  object_value t (take (sizeof t) (st_unread s)) = Return v →
  yields (read_data t) s (Ok v) (drop (sizeof t) (st_unread s)).
Proof.
  intros Hs Hl Hv. destruct (st_read_ok s (sizeof t) Hs Hl) as (s1 & E & Hi & Hu).
  destruct (st_shrink_spec s1 Hi) as [Hi2 Hu2].
  exists (st_shrink s1). unfold read_data. rewrite ser_sizeof_sizeof, E. simpl.
  rewrite Hv. simpl. by rewrite Hu2.
Qed.

Lemma read_data_short t s :
  st_inv s → (length (st_unread s) < sizeof t)%nat →
  yields (read_data t) s (Unexpected kReadBeyondData) (st_unread s).
Proof.
  intros Hs Hl. exists s. unfold read_data. rewrite ser_sizeof_sizeof.
  rewrite st_read_short by (done || destruct t; simpl; lia). done.
Qed.

Lemma read_data_app t s v rest :
  st_inv s → has_type t v = true → st_unread s = object_bytes t v ++ rest →
  yields (read_data t) s (Ok v) rest.
Proof.
  intros Hs Hv Hu. pose proof (length_object_bytes t v) as Hl.
  pose proof (read_data_ok t s v Hs) as R. rewrite Hu in R.
  rewrite take_app_length', drop_app_length' in R by done. apply R.
  - rewrite length_app. lia.
  - by apply object_roundtrip.
Qed.

Lemma write_data_bytes t s v :
  t ≠ TBool → write_data t s v = st_write s (object_bytes t v).
Proof. by destruct t. Qed.

(** ** Sequences of values *)

Definition write_all (s : St) (vs : list (arith_type * Z)) : St :=
  foldl (λ s tv, write_data tv.1 s tv.2) s vs.

Fixpoint read_all (ts : list arith_type) : reader St (list Z) :=
  match ts with
  | [] => rret []
  | t :: ts => rbind (read_data t) (λ v, rbind (read_all ts) (λ vs, rret (v :: vs)))
  end.

Definition encoding (vs : list (arith_type * Z)) : list byte :=
  concat ((λ tv, object_bytes tv.1 tv.2) <$> vs).

Lemma encoding_cons t v vs : encoding ((t, v) :: vs) = object_bytes t v ++ encoding vs.
Proof. done. Qed.

Definition storable (tv : arith_type * Z) : bool :=
  bool_decide (tv.1 ≠ TBool) && has_type tv.1 tv.2.

Lemma write_all_spec vs s :
  Forall (λ tv, storable tv = true) vs → st_inv s →
  st_size s + Z.of_nat (length (encoding vs)) < 2 ^ 63 →
  st_inv (write_all s vs) ∧ st_unread (write_all s vs) = st_unread s ++ encoding vs.
Proof.
  revert s. induction vs as [|[t v] vs IH]; intros s Hok Hs Hb.
  { split; [done|]. change (encoding []) with (@nil byte).
    by rewrite (right_id_L [] (++)). }
  apply Forall_cons in Hok as [Ht Hok]. unfold storable in Ht. simpl in Ht.
  apply andb_true_iff in Ht as [Ht _]. apply bool_decide_eq_true in Ht.
  rewrite encoding_cons, length_app in Hb. rewrite encoding_cons. simpl. rewrite write_data_bytes by done.
  destruct (st_write_spec s (object_bytes t v) Hs ltac:(lia)) as (Hi & Hu & Hz).
  destruct (IH (st_write s (object_bytes t v)) Hok Hi ltac:(lia)) as [? E].
  split; [done|]. rewrite E, Hu, <-(assoc_L (++)). done.
Qed.

Lemma read_all_spec vs s rest :
  Forall (λ tv, storable tv = true) vs → st_inv s →
  st_unread s = encoding vs ++ rest → yields (read_all vs.*1) s (Ok vs.*2) rest.
Proof.
  revert s. induction vs as [|[t v] vs IH]; intros s Hok Hs Hu.
  { simpl in *. subst rest. by apply yields_ret. }
  apply Forall_cons in Hok as [Ht Hok]. unfold storable in Ht. simpl in Ht.
  apply andb_true_iff in Ht as [_ Hv].
  rewrite encoding_cons, <-(assoc_L (++)) in Hu.
  simpl. eapply yields_bind; [by eapply read_data_app|]. intros s1 Hi1 Hu1.
  eapply yields_bind; [by apply IH|]. intros s2 Hi2 <-. by apply yields_ret.
Qed.

(** ** Compact sizes *)

(** The canonical encoding of a size. *)
Definition compact_bytes (v : Z) : list byte :=
  if v <? 253 then [byte_of_Z v]
  else if v <=? 0xffff then byte_of_Z 253 :: le_bytes 2 v
  else if v <=? 0xffffffff then byte_of_Z 254 :: le_bytes 4 v
  else byte_of_Z 255 :: le_bytes 8 v.

(** What follows a prefix byte, and the least value it may carry. *)
Definition compact_payload (p : Z) : option (arith_type * Z) :=
  if p <? 253 then None
  else if p =? 253 then Some (TU16, 253)
  else if p =? 254 then Some (TU32, 0x10000)
  else Some (TU64, 0x100000000).

(** The parser as a function on the queue of unread bytes. *)
Definition parse_check (v : Z) : expected DeserializationError Z :=
  if kMaxSerializedCompactSize <? v then Unexpected kCompactSizeTooBig else Ok v.

Definition parse_payload (t : arith_type) (least : Z) (q : list byte) :
    expected DeserializationError Z * list byte :=
  if decide (sizeof t ≤ length q)%nat then
    let v := le_value (take (sizeof t) q) in
    (if v <? least then Unexpected kNonCanonicalCompactSize else parse_check v,
     drop (sizeof t) q)
  else (Unexpected kReadBeyondData, q).

Definition parse_compact (q : list byte) :
    expected DeserializationError Z * list byte :=
  match q with
  | [] => (Unexpected kReadBeyondData, [])
  | p :: q =>
      match compact_payload (Z_of_byte p) with
      | None => (parse_check (Z_of_byte p), q)
      | Some (t, least) => parse_payload t least q
      end
  end.

Lemma yields_check s v : st_inv s → yields (check_max v) s (parse_check v) (st_unread s).
Proof.
  intros Hs. unfold check_max, parse_check.
  case_match; [by apply yields_fail|by apply yields_ret].
Qed.

(** The three multi-byte branches of [read_compact] are one computation. *)
Definition read_payload (t : arith_type) (least : Z) : reader St Z :=
  rbind (read_data t) (λ value,
    if value <? least then rfail kNonCanonicalCompactSize else check_max value).

Lemma read_compact_eq s :
  read_compact s = rbind (read_data TU8) (λ size,
    match compact_payload size with
    | None => check_max size
    | Some (t, least) => read_payload t least
    end) s.
Proof.
  unfold read_compact, rbind at 1. unfold rbind at 4.
  destruct (read_data TU8 s) as [[[size|e] s1]| | |]; simpl; try done.
  unfold compact_payload. by repeat case_match; simplify_eq.
Qed.

Lemma object_value_payload p t least q :
  compact_payload p = Some (t, least) → object_value t q = Return (le_value q).
Proof. unfold compact_payload. intros. by repeat case_match; simplify_eq. Qed.

Lemma yields_payload p t least s :
  compact_payload p = Some (t, least) → st_inv s →
  yields (read_payload t least) s (fst (parse_payload t least (st_unread s)))
    (snd (parse_payload t least (st_unread s))).
Proof.
  intros Hp Hs. unfold parse_payload. case_decide as Hl; simpl.
  - eapply yields_bind; [apply read_data_ok; [done..|by eapply object_value_payload]|].
    intros s' Hi <-. case_match; [by apply yields_fail|by apply yields_check].
  - apply yields_bind_err, read_data_short; [done|]. lia.
Qed.

Lemma read_compact_spec s :
  st_inv s →
  yields read_compact s (fst (parse_compact (st_unread s))) (snd (parse_compact (st_unread s))).
Proof.
  intros Hs. unfold parse_compact, yields. rewrite read_compact_eq.
  destruct (st_unread s) as [|p q] eqn:Hq; simpl.
  { rewrite <-Hq. apply yields_bind_err, read_data_short; [done|]. rewrite Hq. simpl. lia. }
  assert (R : yields (read_data TU8) s (Ok (Z_of_byte p)) q).
  { pose proof (read_data_ok TU8 s (Z_of_byte p) Hs) as R. rewrite Hq in R.
    apply R; [simpl; lia|]. simpl. f_equal. lia. }
  eapply yields_bind; [exact R|]. intros s1 Hi1 <-.
  destruct (compact_payload (Z_of_byte p)) as [[t least]|] eqn:Hp.
  - by eapply yields_payload.
  - by apply yields_check.
Qed.

(** C5: [read_compact] is the parser [parse_compact] on the unread bytes: on
    every input and every branch, truncated, non-canonical and oversized
    sizes included, it returns that result and consumes those bytes. *)
Theorem read_compact_parse s :
  st_inv s →
  yields read_compact s (fst (parse_compact (st_unread s))) (snd (parse_compact (st_unread s))).
Proof. apply read_compact_spec. Qed.

Lemma length_compact_bytes v : Z.of_nat (length (compact_bytes v)) = ser_compact_sizeof v.
Proof.
  unfold compact_bytes, ser_compact_sizeof.
  repeat case_match; cbn [length]; rewrite ?length_le_bytes; lia.
Qed.

Lemma write_prefixed s b bs :
  st_inv s → st_size s + Z.of_nat (S (length bs)) < 2 ^ 63 →
  let s' := st_write (st_push_back s b) bs in
  st_inv s' ∧ st_unread s' = st_unread s ++ b :: bs
  ∧ st_size s' = st_size s + Z.of_nat (S (length bs)).
Proof.
  intros Hs Hb s'. unfold s'. rewrite st_push_back_spec.
  destruct (st_write_spec s [b] Hs ltac:(simpl; lia)) as (H1 & H2 & H3).
  destruct (st_write_spec (st_write s [b]) bs H1) as (H4 & H5 & H6).
  { rewrite H3. simpl. lia. }
  rewrite H5, H2, H6, H3, <-(assoc_L (++)). split; [done|]. split; [done|]. simpl. lia.
Qed.

Lemma write_compact_spec s v :
  0 <= v < 2 ^ 64 → st_inv s → st_size s + 9 < 2 ^ 63 →
  ∃ s', write_compact s v = Return s' ∧ st_inv s'
      ∧ st_unread s' = st_unread s ++ compact_bytes v
      ∧ st_size s' = st_size s + ser_compact_sizeof v.
Proof.
  intros Hv Hs Hb.
  unfold write_compact, compact_bytes, ser_compact_sizeof.
  destruct (v <? 253).
  { eexists; split; [done|]. rewrite st_push_back_spec.
    destruct (st_write_spec s [byte_of_Z v] Hs ltac:(simpl; lia)) as (H1 & H2 & H3). done. }
  destruct (v <=? 0xffff); [|destruct (v <=? 0xffffffff)]; eexists; split; try done.
  all: match goal with |- context [take ?k (le_bytes 8 ?x)] =>
         let n := eval vm_compute in k in
         change k with n; rewrite (take_le_bytes n 8 x) by lia end.
  all: match goal with |- context [st_write (st_push_back ?s ?b) (le_bytes ?n ?x)] =>
         destruct (write_prefixed s b (le_bytes n x)) as (H1 & H2 & H3);
           [done|rewrite length_le_bytes; lia|] end.
  all: rewrite length_le_bytes in H3; done.
Qed.

(** [write_compact] never reaches its assertion: for every 64-bit value it
    appends the canonical encoding, of the length [ser_compact_sizeof]
    announces. *)
Theorem write_compact_canonical s v :
  0 <= v < 2 ^ 64 → st_inv s → st_size s + 9 < 2 ^ 63 →
  ∃ s', write_compact s v = Return s' ∧ st_inv s'
      ∧ st_unread s' = st_unread s ++ compact_bytes v
      ∧ st_size s' = st_size s + ser_compact_sizeof v
      ∧ ser_compact_sizeof v = Z.of_nat (length (compact_bytes v)).
Proof.
  intros Hv Hs Hb. rewrite length_compact_bytes.
  destruct (write_compact_spec s v Hv Hs Hb) as (s' & ? & ? & ? & ?). by exists s'.
Qed.

Lemma yields_det {A} (m : reader St A) s r r' q q' :
  yields m s r q → yields m s r' q' → r = r' ∧ q = q'.
Proof. intros (s1 & E1 & _ & <-) (s2 & E2 & _ & <-). rewrite E1 in E2. by simplify_eq. Qed.

Lemma compact_bytes_payload p q t least v :
  compact_payload (Z_of_byte p) = Some (t, least) → (sizeof t ≤ length q)%nat →
  v = le_value (take (sizeof t) q) → least <= v <= kMaxSerializedCompactSize →
  p :: q = compact_bytes v ++ drop (sizeof t) q.
Proof.
  intros Hp Hl Hv Hr. pose proof (Z_of_byte_range p) as Hb.
  assert (Hq : le_bytes (sizeof t) v = take (sizeof t) q).
  { rewrite Hv. rewrite <-(le_bytes_le_value (take (sizeof t) q)) at 2.
    by rewrite length_take_le. }
  pose proof (le_value_bound (take (sizeof t) q)) as Hbd.
  rewrite length_take_le, <-Hv in Hbd by done.
  rewrite <-(take_drop (sizeof t) q) at 1. rewrite <-Hq.
  unfold compact_payload in Hp. unfold kMaxSerializedCompactSize in Hr.
  repeat case_match; simplify_eq; cbn [sizeof] in *; const_pows.
  - replace p with (byte_of_Z 253) by (rewrite <-(byte_of_Z_of_byte p); f_equal; lia).
    unfold compact_bytes. rewrite (proj2 (Z.ltb_ge _ _)), (proj2 (Z.leb_le _ _)) by lia. done.
  - replace p with (byte_of_Z 254) by (rewrite <-(byte_of_Z_of_byte p); f_equal; lia).
    unfold compact_bytes.
    rewrite (proj2 (Z.ltb_ge _ _)), (proj2 (Z.leb_gt _ _)), (proj2 (Z.leb_le _ _)) by lia.
    done.
  - lia.
Qed.

Lemma parse_payload_app t least v rest :
  0 <= v < 256 ^ Z.of_nat (sizeof t) → least <= v <= kMaxSerializedCompactSize →
  parse_payload t least (le_bytes (sizeof t) v ++ rest) = (Ok v, rest).
Proof.
  intros Hv Hr. unfold parse_payload, parse_check.
  rewrite decide_True by (rewrite length_app, length_le_bytes; lia).
  rewrite take_app_length', drop_app_length' by (by rewrite length_le_bytes).
  rewrite le_value_small by done.
  by rewrite !(proj2 (Z.ltb_ge _ _)) by lia.
Qed.

Lemma parse_compact_canonical q v rest :
  parse_compact q = (Ok v, rest) ↔
  q = compact_bytes v ++ rest ∧ 0 <= v <= kMaxSerializedCompactSize.
Proof.
  split.
  - intros Hq. destruct q as [|p q]; [done|]. unfold parse_compact in Hq.
    pose proof (Z_of_byte_range p) as Hb.
    destruct (compact_payload (Z_of_byte p)) as [[t least]|] eqn:Hp.
    + unfold parse_payload, parse_check in Hq.
      pose proof (le_value_bound (take (sizeof t) q)).
      repeat case_match; simplify_eq.
      split; [eapply compact_bytes_payload; [done..|lia]|lia].
    + unfold parse_check in Hq. case_match; simplify_eq. split; [|lia].
      unfold compact_payload in Hp. repeat case_match; simplify_eq.
      unfold compact_bytes. case_match; [|lia]. by rewrite byte_of_Z_of_byte.
  - unfold kMaxSerializedCompactSize. intros [-> Hv]. unfold compact_bytes.
    destruct (Z.ltb_spec v 253); [|destruct (Z.leb_spec v 0xffff);
      [|rewrite (proj2 (Z.leb_le _ _)) by lia]]; cbn [app parse_compact];
      rewrite Z_of_byte_of_Z, Z.mod_small by lia; unfold compact_payload.
    + rewrite (proj2 (Z.ltb_lt _ _)) by lia. unfold parse_check, kMaxSerializedCompactSize.
      by rewrite (proj2 (Z.ltb_ge _ _)) by lia.
    + apply (parse_payload_app TU16 253);
        unfold kMaxSerializedCompactSize; cbn [sizeof]; const_pows; lia.
    + apply (parse_payload_app TU32 0x10000);
        unfold kMaxSerializedCompactSize; cbn [sizeof]; const_pows; lia.
Qed.

Lemma read_compact_app s v rest :
  st_inv s → 0 <= v <= kMaxSerializedCompactSize →
  st_unread s = compact_bytes v ++ rest → yields read_compact s (Ok v) rest.
Proof.
  intros Hs Hv Hq. pose proof (read_compact_spec s Hs) as R.
  by rewrite (proj2 (parse_compact_canonical _ v rest)) in R.
Qed.

(** Only canonical encodings are accepted: [read_compact] succeeds with a
    size [v] and leaves [rest] unread if and only if the unread bytes are
    the canonical encoding of [v] followed by [rest] and [v] is at most
    [kMaxSerializedCompactSize]. *)
Theorem read_compact_canonical s v rest :
  st_inv s →
  yields read_compact s (Ok v) rest ↔
  st_unread s = compact_bytes v ++ rest ∧ 0 <= v <= kMaxSerializedCompactSize.
Proof.
  intros Hs. rewrite <-parse_compact_canonical.
  pose proof (read_compact_spec s Hs) as R. split.
  - intros R'. destruct (yields_det _ _ _ _ _ _ R R').
    destruct (parse_compact (st_unread s)); simpl in *. congruence.
  - intros E. by rewrite E in R.
Qed.
End theory.

(** ** [DataStream] is such a stream *)

#[export] Instance DataStream_ops : StreamOps Stream.DataStream := {
  st_write := Stream.write;
  st_push_back := Stream.push_back;
  st_read s n :=
    '(r, s') ← Stream.read s n;
    match r with
    | Ok v => data ← Stream.view_bytes (Stream.buffer_ s') v; Return (Ok data, s')
    | Unexpected e => Return (Unexpected e, s')
    end;
  st_shrink := Stream.shrink
}.

#[export] Instance DataStream_spec : StreamSpec Stream.DataStream.
Proof.
  refine {| st_inv := Stream.wf; st_unread := Stream.unread; st_size := Stream.size |}.
  - intros s Hs. rewrite Stream.length_unread by done. destruct Hs. lia.
  - intros s data Hs Hb. split; [by apply Stream.write_wf|].
    split; [by apply Stream.unread_write|]. unfold Stream.size. simpl. rewrite length_app. lia.
  - done.
  - intros s n Hs Hn. simpl. rewrite Stream.read_ok by (done || lia). simpl.
    rewrite Stream.view_bytes_unread by (done || lia). simpl. rewrite Nat2Z.id.
    eexists; split; [done|].
    pose proof (Stream.length_unread s Hs).
    split; [apply Stream.with_position_wf; [done|destruct Hs; lia]|].
    rewrite Stream.unread_advance by (done || lia). by rewrite Nat2Z.id.
  - intros s n Hs Hn Hb. simpl. by rewrite Stream.read_short by (done || lia).
  - intros s Hs. split; [by apply Stream.shrink_wf|apply Stream.unread_shrink].
Defined.

(** ** Round trips *)

(** C6: Values of any arithmetic types except [bool], written one after the
    other to a stream with nothing unread, are read back exactly and in
    order, and nothing is left. *)
Theorem serialize_roundtrip {St} `{StreamSpec St} (s : St) vs :
  st_inv s → st_unread s = [] → Forall (λ tv, storable tv = true) vs →
  st_size s + Z.of_nat (length (encoding vs)) < 2 ^ 63 →
  yields (read_all vs.*1) (write_all s vs) (Ok vs.*2) [].
Proof.
  intros Hs Hu Hok Hb. destruct (write_all_spec vs s Hok Hs Hb) as [Hi Hw].
  apply read_all_spec; [done..|]. by rewrite Hw, Hu, (right_id_L [] (++)).
Qed.

Definition sample : list (arith_type * Z) :=
  [(TU8, 0x10); (TI16, -2); (TDouble, 0x4172F5BFC0000000); (TU64, 2 ^ 64 - 1)].

Lemma serialize_roundtrip_witness :
  yields (read_all sample.*1) (write_all (Stream.make_stream kStorage 0) sample)
    (Ok sample.*2) [].
Proof.
  apply serialize_roundtrip; [by vm_compute|done|by repeat constructor|by vm_compute].
Defined.

(** A [bool] does not survive serialization: what is read back is the
    negation of what was written. *)
Theorem bool_roundtrip_negates {St} `{StreamSpec St} (s : St) (b : bool) :
  st_inv s → st_unread s = [] → st_size s + 1 < 2 ^ 63 →
  yields (read_data TBool) (write_data TBool s (Z.b2z b)) (Ok (Z.b2z (negb b))) [].
Proof.
  intros Hs Hu Hb. simpl. unfold write_bool. rewrite st_push_back_spec.
  destruct (st_write_spec s [byte_of_Z (if negb (Z.b2z b =? 0) then 0 else 1)] Hs)
    as (Hi & Hw & _); [simpl; lia|].
  apply read_data_app; [done|by destruct b|]. rewrite Hw, Hu. by destruct b.
Qed.

Lemma bool_roundtrip_negates_witness :
  yields (read_data TBool) (write_data TBool (Stream.make_stream kStorage 0) (Z.b2z true))
    (Ok (Z.b2z (negb true))) [].
Proof. apply bool_roundtrip_negates; by vm_compute. Defined.

(** A list of sizes, written then read. *)
Fixpoint write_compacts {St} `{StreamOps St} (s : St) (vs : list Z) : outcome Empty_set St :=
  match vs with
  | [] => Return s
  | v :: vs => s ← write_compact s v; write_compacts s vs
  end.

Fixpoint read_compacts {St} `{StreamOps St} (n : nat) : reader St (list Z) :=
  match n with
  | O => rret []
  | S n => rbind read_compact (λ v, rbind (read_compacts n) (λ vs, rret (v :: vs)))
  end.

Lemma ser_compact_sizeof_bound v : 1 <= ser_compact_sizeof v <= 9.
Proof. unfold ser_compact_sizeof. repeat case_match; lia. Qed.

Lemma write_compacts_spec {St} `{StreamSpec St} (s : St) vs :
  Forall (λ v, 0 <= v < 2 ^ 64) vs → st_inv s →
  st_size s + 9 * Z.of_nat (length vs) < 2 ^ 63 →
  ∃ s', write_compacts s vs = Return s' ∧ st_inv s'
      ∧ st_unread s' = st_unread s ++ concat (compact_bytes <$> vs).
Proof.
  revert s. induction vs as [|v vs IH]; intros s Hok Hs Hb.
  { exists s. split; [done|]. split; [done|]. simpl. by rewrite (right_id_L [] (++)). }
  apply Forall_cons in Hok as [Hv Hok]. cbn [length] in Hb.
  destruct (write_compact_spec s v Hv Hs) as (s1 & E1 & I1 & U1 & Z1); [lia|].
  pose proof (ser_compact_sizeof_bound v).
  destruct (IH s1 Hok I1) as (s2 & E2 & I2 & U2); [lia|].
  exists s2. simpl. rewrite E1. simpl. split; [done|]. split; [done|].
  rewrite U2, U1, <-(assoc_L (++)). done.
Qed.

(** Compact sizes up to the maximum round-trip through a stream, any number
    of them in sequence, leaving nothing unread. *)
Theorem compact_roundtrip {St} `{StreamSpec St} (s : St) vs :
  Forall (λ v, 0 <= v <= kMaxSerializedCompactSize) vs →
  st_inv s → st_unread s = [] → st_size s + 9 * Z.of_nat (length vs) < 2 ^ 63 →
  ∃ s', write_compacts s vs = Return s' ∧ yields (read_compacts (length vs)) s' (Ok vs) [].
Proof.
  intros Hok Hs Hu Hb. unfold kMaxSerializedCompactSize in *.
  destruct (write_compacts_spec s vs) as (s' & E & Hi & Hw); [|done..|].
  { eapply Forall_impl; [exact Hok|]. simpl. lia. }
  exists s'. split; [done|]. clear E Hb. rewrite Hu, (left_id_L [] (++)) in Hw.
  clear Hs Hu s. revert s' Hi Hw. induction vs as [|v vs IH]; intros s Hs Hw.
  { exists s. done. }
  apply Forall_cons in Hok as [Hv Hok]. cbn [length read_compacts].
  eapply yields_bind.
  - apply (read_compact_app s v (concat (compact_bytes <$> vs))); done.
  - intros s1 I1 U1. eapply yields_bind; [by apply IH|]. intros s2 I2 <-. by apply yields_ret.
Qed.

Lemma compact_roundtrip_witness :
  ∃ s', write_compacts (Stream.make_stream kStorage 0) [0; 252; 253; 0xffff; 0x10000; 0x2000000]
        = Return s'
      ∧ yields (read_compacts 6) s' (Ok [0; 252; 253; 0xffff; 0x10000; 0x2000000]) [].
Proof.
  apply (compact_roundtrip (Stream.make_stream kStorage 0)
           [0; 252; 253; 0xffff; 0x10000; 0x2000000]); [|by vm_compute..].
  repeat (constructor; [by vm_compute|]). constructor.
Defined.

Lemma read_compact_parse_witness :
  let s := Stream.mkDataStream (byte_of_Z <$> [0xfd; 0xfc; 0x00; 0x07]) 0 kStorage 0 in
  yields read_compact s (fst (parse_compact (st_unread s))) (snd (parse_compact (st_unread s))).
Proof. intros s. apply read_compact_parse. by vm_compute. Defined.

Lemma write_compact_canonical_witness :
  let s := Stream.make_stream kStorage 0 in
  ∃ s', write_compact s 0xffffffffa0 = Return s' ∧ st_inv s'
      ∧ st_unread s' = st_unread s ++ compact_bytes 0xffffffffa0
      ∧ st_size s' = st_size s + ser_compact_sizeof 0xffffffffa0
      ∧ ser_compact_sizeof 0xffffffffa0 = Z.of_nat (length (compact_bytes 0xffffffffa0)).
Proof. intros s. apply write_compact_canonical; by vm_compute. Defined.

Lemma read_compact_canonical_witness :
  let s := Stream.mkDataStream (byte_of_Z <$> [0xfd; 0xfd; 0x00; 0x07]) 0 kStorage 0 in
  yields read_compact s (Ok 253) [byte_of_Z 7] ↔
  st_unread s = compact_bytes 253 ++ [byte_of_Z 7] ∧ 0 <= 253 <= kMaxSerializedCompactSize.
Proof. intros s. apply read_compact_canonical. by vm_compute. Defined.
