(* ===== verification/Jenkins.v ===== *)
(** * Jenkins hash

    Models [src/zen/core/crypto/jenkins.cpp]: [HashMix], [HashFinal] and
    [Hash] over arrays of [uint32_t]. A pointer is the list of the words
    from it to the end of its array; reading past the end is [Undefined]. *)
From S2P Require Import Prelude.
Local Open Scope Z_scope.
Local Open Scope moria_scope.

(** The three words [a], [b], [c] the mixing works on. *)
Definition triple : Type := Z * Z * Z.

Definition HashMix (t : triple) : triple :=
  let '(a, b, c) := t in
  let a := a ⊟ c in
  let a := a ⊻ rotl32 c 4 in
  let c := c ⊞ b in
  let b := b ⊟ a in
  let b := b ⊻ rotl32 a 6 in
  let a := a ⊞ c in
  let c := c ⊟ b in
  let c := c ⊻ rotl32 b 8 in
  let b := b ⊞ a in
  let a := a ⊟ c in
  let a := a ⊻ rotl32 c 16 in
  let c := c ⊞ b in
  let b := b ⊟ a in
  let b := b ⊻ rotl32 a 19 in
  let a := a ⊞ c in
  let c := c ⊟ b in
  let c := c ⊻ rotl32 b 4 in
  let b := b ⊞ a in
  (a, b, c).

Definition HashFinal (t : triple) : triple :=
  let '(a, b, c) := t in
  let c := c ⊻ b in
  let c := c ⊟ rotl32 b 14 in
  let a := a ⊻ c in
  let a := a ⊟ rotl32 c 11 in
  let b := b ⊻ a in
  let b := b ⊟ rotl32 a 25 in
  let c := c ⊻ b in
  let c := c ⊟ rotl32 b 16 in
  let a := a ⊻ c in
  let a := a ⊟ rotl32 c 4 in
  let b := b ⊻ a in
  let b := b ⊟ rotl32 a 14 in
  let c := c ⊻ b in
  let c := c ⊟ rotl32 b 24 in
  (a, b, c).

(** [source[i]] *)
Definition word_at (source : list Z) (i : nat) : outcome Empty_set Z :=
  match source !! i with Some w => Return w | None => Undefined end.

(** [source[i] ^ salt[i]] *)
Definition salted (source salt : list Z) (i : nat) : outcome Empty_set Z :=
  x ← word_at source i; y ← word_at salt i; Return (x ⊻ y).

(** The [while (length > 3)] loop; returns the words and the advanced
    pointers and length. *)
Fixpoint Hash_loop (source salt : list Z) (length : nat) (t : triple) :
    outcome Empty_set (list Z * list Z * nat * triple) :=
  match length with
  | S (S (S (S _ as length'))) =>
      let '(a, b, c) := t in
      w0 ← salted source salt 0; let a := a ⊞ w0 in
      w1 ← salted source salt 1; let b := b ⊞ w1 in
      w2 ← salted source salt 2; let b := b ⊞ w2 in
      Hash_loop (drop 3 source) (drop 3 salt) length' (HashMix (a, b, c))
  | _ => Return (source, salt, length, t)
  end.

(** The [switch (length)], whose cases fall through. *)
Definition Hash_switch (source salt : list Z) (length : nat) (t : triple) :
    outcome Empty_set triple :=
  let '(a, b, c) := t in
  match length with
  | 3%nat =>
      w2 ← salted source salt 2; let c := c ⊞ w2 in
      w1 ← salted source salt 1; let b := b ⊞ w1 in
      Return (HashFinal (a, b, c))
  | 2%nat =>
      w1 ← salted source salt 1; let b := b ⊞ w1 in
      Return (HashFinal (a, b, c))
  | 1%nat => Return (HashFinal (a, b, c))
  | _ => Return (a, b, c)
  end.

Definition Hash (source : list Z) (length : nat) (salt : list Z) : outcome Empty_set Z :=
  let width := u32 (u64 (Z.of_nat length * 4)) in
  let a := 0xdeadbeef ⊞ width in
  let b := a in
  let c := b in
  '(source, salt, length, t) ← Hash_loop source salt length (a, b, c);
  '(a, b, c) ← Hash_switch source salt length t;
  Return (Z.lor (Z.shiftl b 32) c).

(** ** Theory *)

Definition words (t : triple) : Prop :=
  in_range 32 (t.1.1) ∧ in_range 32 (t.1.2) ∧ in_range 32 (t.2).

(** The inverse of [HashMix] and of [HashFinal], step by step backwards. *)
Definition unmix (t : triple) : triple :=
  let '(a, b, c) := t in
  let b := b ⊟ a in
  let c := c ⊻ rotl32 b 4 in
  let c := c ⊞ b in
  let a := a ⊟ c in
  let b := b ⊻ rotl32 a 19 in
  let b := b ⊞ a in
  let c := c ⊟ b in
  let a := a ⊻ rotl32 c 16 in
  let a := a ⊞ c in
  let b := b ⊟ a in
  let c := c ⊻ rotl32 b 8 in
  let c := c ⊞ b in
  let a := a ⊟ c in
  let b := b ⊻ rotl32 a 6 in
  let b := b ⊞ a in
  let c := c ⊟ b in
  let a := a ⊻ rotl32 c 4 in
  let a := a ⊞ c in
  (a, b, c).

Definition unfinal (t : triple) : triple :=
  let '(a, b, c) := t in
  let c := c ⊞ rotl32 b 24 in
  let c := c ⊻ b in
  let b := b ⊞ rotl32 a 14 in
  let b := b ⊻ a in
  let a := a ⊞ rotl32 c 4 in
  let a := a ⊻ c in
  let c := c ⊞ rotl32 b 16 in
  let c := c ⊻ b in
  let b := b ⊞ rotl32 a 25 in
  let b := b ⊻ a in
  let a := a ⊞ rotl32 c 11 in
  let a := a ⊻ c in
  let c := c ⊞ rotl32 b 14 in
  let c := c ⊻ b in
  (a, b, c).

(** [forward] names the value of the first [let] under [f] in the goal,
    recording its range and the equation that undoes the step; [backward]
    computes the first [let] of the goal by one of these equations. *)
Ltac undo_step y :=
  lazymatch goal with
  | H : y = ?p ⊟ ?q |- _ =>
      assert (y ⊞ q = p) by (rewrite H; by apply add32_sub32)
  | H : y = ?p ⊞ ?q |- _ =>
      assert (y ⊟ q = p) by (rewrite H; by apply sub32_add32)
  | H : y = Z.lxor ?p ?q |- _ =>
      assert (Z.lxor y q = p) by (rewrite H; apply lxor_cancel)
  end.
Ltac forward :=
  lazymatch goal with
  | |- ?f (let y := ?v in @?body y) = ?t =>
      let y := fresh "y" in let E := fresh "E" in
      enough (∀ y, y = v → f (body y) = t) as E by exact (E v eq_refl);
      intros y E; cbv beta;
      assert (in_range 32 y) by (rewrite E; range32);
      undo_step y; clear E
  end.
Ltac backward :=
  lazymatch goal with
  | |- (let y := ?v in @?body y) = ?t =>
      lazymatch goal with
      | E : v = ?w |- _ =>
          transitivity (body w); [exact (f_equal body E)|]; cbv beta
      end
  end.

Lemma unmix_HashMix t : words t → unmix (HashMix t) = t.
Proof.
  destruct t as [[a b] c]. intros (?&?&?); cbn [fst snd] in *. cbv beta iota delta [HashMix].
  do 18 forward. cbv beta iota delta [unmix]. do 18 backward. done.
Qed.
Lemma unfinal_HashFinal t : words t → unfinal (HashFinal t) = t.
Proof.
  destruct t as [[a b] c]. intros (?&?&?); cbn [fst snd] in *. cbv beta iota delta [HashFinal].
  do 14 forward. cbv beta iota delta [unfinal]. do 14 backward. done.
Qed.

(** Splits [words] of a triple into its three ranges. *)
Ltac split_words := split; [|split]; cbn [fst snd].

Lemma words_HashMix t : words t → words (HashMix t).
Proof.
  destruct t as [[a b] c]. intros (?&?&?). split_words.
  - apply add32_range.
  - apply add32_range.
  - cbn [fst snd HashMix] in *. range32.
Qed.
Lemma words_HashFinal t : words t → words (HashFinal t).
Proof. destruct t as [[a b] c]. intros (?&?&?). split_words; apply sub32_range. Qed.

(** The words of the arrays within the first [l] are machine words. *)
Definition machine_words (l : list Z) : Prop := Forall (in_range 32) l.

Lemma salted_defined source salt i :
  machine_words source → machine_words salt →
  (i < length source)%nat → (i < length salt)%nat →
  ∃ w, salted source salt i = Return w ∧ in_range 32 w.
Proof.
  intros Hs Ht Hi Hj. unfold salted, word_at.
  destruct (lookup_lt_is_Some_2 _ _ Hi) as [x Hx], (lookup_lt_is_Some_2 _ _ Hj) as [y Hy].
  rewrite Hx, Hy. exists (Z.lxor x y). split; [done|].
  apply lxor_range; [done|exact (Forall_lookup_1 _ _ _ _ Hs Hx)|exact (Forall_lookup_1 _ _ _ _ Ht Hy)].
Qed.

(** Runs the next [salted] read of the goal. *)
Ltac run_salted :=
  match goal with
  | |- context [salted ?s ?t ?i] =>
      let w := fresh "w" in let E := fresh "E" in
      destruct (salted_defined s t i) as (w & E & ?); [done|done|simpl in *; lia..|];
      rewrite E; cbn [mbind outcome_bind]
  end.

Lemma Hash_loop_eq source salt n t :
  Hash_loop source salt (S (S (S (S n)))) t =
  (let '(a, b, c) := t in
   w0 ← salted source salt 0; w1 ← salted source salt 1; w2 ← salted source salt 2;
   Hash_loop (drop 3 source) (drop 3 salt) (S n)
     (HashMix (a ⊞ w0, b ⊞ w1 ⊞ w2, c))).
Proof. done. Qed.

(** The loop and the switch, from any state of the mixing. *)
Definition Hash_from (source salt : list Z) (length : nat) (t : triple) :
    outcome Empty_set triple :=
  '(source, salt, length, t) ← Hash_loop source salt length t;
  Hash_switch source salt length t.

Lemma Hash_from_eq source salt n t :
  Hash_from source salt (S (S (S (S n)))) t =
  (let '(a, b, c) := t in
   w0 ← salted source salt 0; w1 ← salted source salt 1; w2 ← salted source salt 2;
   Hash_from (drop 3 source) (drop 3 salt) (S n)
     (HashMix (a ⊞ w0, b ⊞ w1 ⊞ w2, c))).
Proof.
  unfold Hash_from. rewrite Hash_loop_eq. destruct t as [[a b] c].
  by destruct (salted source salt 0), (salted source salt 1), (salted source salt 2).
Qed.

Lemma Hash_alt source n salt :
  Hash source n salt =
  '(a, b, c) ← Hash_from source salt n
    (let a := 0xdeadbeef ⊞ u32 (u64 (Z.of_nat n * 4)) in (a, a, a));
  Return (Z.lor (Z.shiftl b 32) c).
Proof.
  unfold Hash, Hash_from.
  by destruct (Hash_loop _ _ _ _) as [[[[??]?]?]| | |].
Qed.

Lemma four_or_more n : (n < 4)%nat ∨ ∃ m, n = S (S (S (S m))).
Proof.
  destruct n as [|[|[|[|m]]]]; [left; lia..|]. right. by exists m.
Qed.

Lemma Hash_from_defined source salt n t :
  machine_words source → machine_words salt → words t →
  (n ≤ length source)%nat → (n ≤ length salt)%nat →
  ∃ t', Hash_from source salt n t = Return t' ∧ words t'.
Proof.
  revert source salt t. induction n as [n IH] using lt_wf_ind.
  intros source salt [[a b] c] Hs Ht Hw Hi Hj.
  destruct (four_or_more n) as [Hn|[m ->]].
  - pose proof Hw as (?&?&?). cbn [fst snd] in *.
    destruct n as [|[|[|[|]]]]; [..|lia]; unfold Hash_from;
      cbn [Hash_loop mbind outcome_bind Hash_switch]; repeat run_salted;
      eexists; (split; [reflexivity|]); try apply words_HashFinal;
      split_words; range32.
  - rewrite Hash_from_eq. repeat run_salted. apply IH; [lia|..|len|len].
    + by apply Forall_drop.
    + by apply Forall_drop.
    + destruct Hw as (?&?&?). apply words_HashMix.
      split_words; range32.
Qed.

(** On arrays of machine words with at least [n] elements, [Hash] never
    reads out of bounds and returns a 64-bit integer. *)
Lemma Hash_defined source n salt :
  machine_words source → machine_words salt →
  (n ≤ length source)%nat → (n ≤ length salt)%nat →
  ∃ v, Hash source n salt = Return v ∧ in_range 64 v.
Proof.
  intros Hs Ht Hi Hj. rewrite Hash_alt.
  destruct (Hash_from_defined source salt n
    (let a := 0xdeadbeef ⊞ u32 (u64 (Z.of_nat n * 4)) in (a, a, a)))
    as ([[a b] c] & -> & _ & Hb & Hc); [done|done|split_words; apply add32_range|done..|].
  cbn. eexists. split; [done|]. apply lor_range; [done|..].
  - unfold in_range in *. cbn [fst snd] in *. rewrite Z.shiftl_mul_pow2 by done. const_pows. lia.
  - unfold in_range in *. cbn [fst snd] in *. const_pows. lia.
Qed.

(** [HashMix] and [HashFinal] lose nothing of the state they mix: they
    map 32-bit triples to 32-bit triples, and different ones to different
    ones. *)
Theorem mixing_injective t t' :
  words t → words t' →
  words (HashMix t) ∧ words (HashFinal t) ∧
  (HashMix t = HashMix t' → t = t') ∧ (HashFinal t = HashFinal t' → t = t').
Proof.
  intros Ht Ht'. split_and!.
  - by apply words_HashMix.
  - by apply words_HashFinal.
  - intros E. by rewrite <-(unmix_HashMix t), E, unmix_HashMix.
  - intros E. by rewrite <-(unfinal_HashFinal t), E, unfinal_HashFinal.
Qed.

Lemma mixing_injective_witness : (1, 2, 3) ≠ (1, 2, 4) ∧ words (HashMix (1, 2, 3)).
Proof.
  split; [done|]. apply (mixing_injective (1, 2, 3) (1, 2, 4)); split_words; vm_compute; done.
Defined.

(** The word of an [n]-word input that [Hash] leaves out. *)
Definition blind_word (n : nat) : nat := (3 * ((n - 1) / 3))%nat.

(** [source] and [source'] agree on the first [n] words but the blind one. *)
Definition agree_but (n : nat) (source source' : list Z) : Prop :=
  ∀ i, (i < n)%nat → i ≠ blind_word n → source !! i = source' !! i.

Lemma agree_but_drop n source source' :
  agree_but (S (S (S (S n)))) source source' → agree_but (S n) (drop 3 source) (drop 3 source').
Proof.
  intros H i Hi Hne. rewrite !lookup_drop. apply H; [lia|].
  unfold blind_word in *. replace (S (S (S (S n))) - 1)%nat with (n + 1 * 3)%nat by lia.
  rewrite Nat.div_add by lia. replace (S n - 1)%nat with n in Hne by lia. lia.
Qed.

Lemma salted_agree n source source' salt salt' i :
  agree_but n source source' → agree_but n salt salt' → (i < n)%nat → i ≠ blind_word n →
  salted source salt i = salted source' salt' i.
Proof. intros H H' Hi Hne. unfold salted, word_at. by rewrite H, H'. Qed.

Lemma Hash_from_blind source source' salt salt' n t :
  agree_but n source source' → agree_but n salt salt' →
  Hash_from source salt n t = Hash_from source' salt' n t.
Proof.
  revert source source' salt salt' t. induction n as [n IH] using lt_wf_ind.
  intros source source' salt salt' [[a b] c] Hs Ht.
  destruct (four_or_more n) as [Hn|[m ->]].
  - unfold Hash_from. destruct n as [|[|[|[|]]]]; [done|done|..|lia];
      cbn [Hash_loop mbind outcome_bind Hash_switch];
      repeat match goal with
      | |- context [salted source salt ?i] =>
          rewrite (salted_agree _ source source' salt salt' i Hs Ht) by (cbn; lia)
      end; done.
  - rewrite !Hash_from_eq.
    assert (blind_word (S (S (S (S m)))) ≠ 0 ∧ blind_word (S (S (S (S m)))) ≠ 1
      ∧ blind_word (S (S (S (S m)))) ≠ 2)%nat.
    { unfold blind_word. replace (S (S (S (S m))) - 1)%nat with (m + 1 * 3)%nat by lia.
      rewrite Nat.div_add by lia. lia. }
    rewrite !(salted_agree _ source source' salt salt' _ Hs Ht) by lia.
    destruct (salted source' salt' 0), (salted source' salt' 1), (salted source' salt' 2);
      cbn [mbind outcome_bind]; try reflexivity.
    apply IH; [lia|by apply agree_but_drop..].
Qed.

Lemma Hash_blind source source' salt salt' n :
  agree_but n source source' → agree_but n salt salt' →
  Hash source n salt = Hash source' n salt'.
Proof. intros. rewrite !Hash_alt. by rewrite (Hash_from_blind source source' salt salt'). Qed.
