(* ===== verification/Hash.v ===== *)
(** * Fixed-size hashes

    Models [src/zen/core/types/hash.hpp] and [block.hpp]. The template
    parameter is [kSize = BITS / 8]; a [Hash] is the array of its [kSize]
    bytes. [reinterpret_cast<const uint32_t*>] reads little-endian words, as
    on every platform the project builds for. *)
From S2P Require Import Prelude Base.
From S2P Require Hex Jenkins.
Local Open Scope Z_scope.

Record Hash (kSize : nat) := mk_Hash { bytes_ : list byte }.
Arguments mk_Hash {kSize} _.
Arguments bytes_ {kSize} _.

#[export] Instance Hash_eq_dec kSize : EqDecision (Hash kSize).
Proof. solve_decision. Defined.

Section code.
Context {kSize : nat}.
Local Abbreviation Hash := (Hash kSize).

(** The default constructor and [reset]. *)
Definition zero_hash : Hash := mk_Hash (replicate kSize Byte.x00).
Definition reset (h : Hash) : Hash := zero_hash.

(** The array has no element [kSize]: taking the address of it, as the code
    does for an empty [init], is undefined. *)
Definition Hash_of_view (init : list byte) : outcome Empty_set Hash :=
  if (kSize <? length init)%nat then Return zero_hash else
  let offset := (kSize - length init)%nat in
  if (offset <? kSize)%nat
  then Return (mk_Hash (blit offset init (bytes_ zero_hash)))
  else Undefined.

Definition Hash_of_uint64 `{Intx} (value : Z) : outcome Empty_set Hash :=
  if (8 <=? kSize)%nat then
    let offset := (kSize - 8)%nat in
    Return (mk_Hash (blit offset (store_big_u64 value) (bytes_ zero_hash)))
  else Abort.

Definition from_hex (input : list byte) :
    outcome Empty_set (expected DecodingError Hash) :=
  parsed_bytes ← Hex.decode input;
  match parsed_bytes with
  | Unexpected e => Return (Unexpected e)
  | Ok parsed_bytes => h ← Hash_of_view parsed_bytes; Return (Ok h)
  end.

Definition to_hex (h : Hash) (with_prefix : bool) : list byte :=
  Hex.encode (bytes_ h) with_prefix.

Definition hash_to_string (h : Hash) : list byte := to_hex h false.

Definition hash_size : nat := kSize.

(** The words at [data()]; [size() / sizeof(uint32_t)] of them are read. *)
Fixpoint words_of (fuel : nat) (data : list byte) : list Z :=
  match fuel with
  | O => []
  | S fuel => le_value (take 4 data) :: words_of fuel (drop 4 data)
  end.

Definition hash_with (h salt : Hash) : outcome Empty_set Z :=
  let source := words_of (hash_size / 4) (bytes_ h) in
  let slt := words_of (hash_size / 4) (bytes_ salt) in
  Jenkins.Hash source (hash_size / 4) slt.

(** [operator<=>], defaulted: lexicographic on the bytes. *)
Fixpoint bytes_compare (x y : list byte) : comparison :=
  match x, y with
  | [], [] => Eq
  | [], _ => Lt
  | _, [] => Gt
  | b :: x, c :: y =>
      match Z_of_byte b ?= Z_of_byte c with Eq => bytes_compare x y | o => o end
  end.
Definition hash_compare (h k : Hash) : comparison := bytes_compare (bytes_ h) (bytes_ k).

(** [operator bool]: [find_if_not] gives the first byte that fails the
    predicate "is not zero"; the hash is true when there is none. *)
Definition hash_bool (h : Hash) : bool :=
  match list_find (λ b, ¬ (b ≠ Byte.x00)) (bytes_ h) with
  | None => true
  | Some _ => false
  end.
End code.

Abbreviation h160 := (Hash 20).
Abbreviation h256 := (Hash 32).

Record BlockHeader := {
  version : Z;
  parent_hash : h256;
  merkle_root : h256;
  sidechains_commitment_root : h256;
  time : Z;
  bits : Z
}.

(** ** Theory *)

Section theory.
Context {kSize : nat}.
Implicit Types h k salt : Hash kSize.

(** The array has the size of its type, and the number it stands for. *)
Definition hash_wf h : Prop := length (bytes_ h) = kSize.
Definition hash_value h : Z := be_value (bytes_ h).

Lemma hash_value_inj h k : hash_wf h → hash_wf k → hash_value h = hash_value k → h = k.
Proof.
  destruct h as [x], k as [y]. unfold hash_wf, hash_value. simpl. intros Hx Hy E. f_equal.
  rewrite <-(be_bytes_be_value x), <-(be_bytes_be_value y). by rewrite Hx, Hy, E.
Qed.

Lemma zero_hash_wf : hash_wf (zero_hash (kSize := kSize)).
Proof. apply length_replicate. Qed.

Lemma zero_hash_value : hash_value (zero_hash (kSize := kSize)) = 0.
Proof.
  unfold hash_value, zero_hash. simpl. rewrite <-(right_id_L [] (++) (replicate _ _)).
  by rewrite be_value_zeros.
Qed.

(** Writing [bs] at the end of the zero hash. *)
Lemma blit_zero_hash bs :
  (length bs ≤ kSize)%nat →
  blit (kSize - length bs) bs (replicate kSize Byte.x00)
  = replicate (kSize - length bs) Byte.x00 ++ bs.
Proof.
  intros H. unfold blit. rewrite take_replicate, drop_replicate.
  rewrite Nat.min_l by lia. rewrite (proj2 (Nat.sub_0_le kSize (kSize - length bs + length bs))) by lia.
  simpl. by rewrite app_nil_r.
Qed.

(** The hash with [bs] at its end, or zero when [bs] does not fit. *)
Definition right_aligned bs : Hash kSize :=
  mk_Hash (if decide (length bs ≤ kSize)%nat
           then replicate (kSize - length bs) Byte.x00 ++ bs
           else replicate kSize Byte.x00).

Lemma Hash_of_view_eq bs :
  Hash_of_view (kSize := kSize) bs =
  if decide (bs = []) then Undefined else Return (right_aligned bs).
Proof.
  unfold Hash_of_view, right_aligned. destruct bs as [|b bs]; [simpl|].
  { by rewrite Nat.sub_0_r, Nat.ltb_irrefl. }
  rewrite decide_False by done. case_decide.
  - rewrite (proj2 (Nat.ltb_ge _ _)) by lia.
    rewrite (proj2 (Nat.ltb_lt _ _)) by (simpl in *; lia).
    do 2 f_equal. by apply blit_zero_hash.
  - by rewrite (proj2 (Nat.ltb_lt _ _)) by lia.
Qed.

Lemma right_aligned_wf bs : hash_wf (right_aligned bs).
Proof. unfold hash_wf, right_aligned. simpl. case_decide; len. Qed.

Lemma right_aligned_value bs :
  hash_value (right_aligned bs) = if decide (length bs ≤ kSize)%nat then be_value bs else 0.
Proof.
  unfold hash_value, right_aligned. simpl. case_decide.
  - apply be_value_zeros.
  - apply zero_hash_value.
Qed.
End theory.

Section theorems.
Context {kSize : nat}.
Implicit Types h k salt : Hash kSize.

Lemma from_hex_eq input :
  from_hex (kSize := kSize) input =
  match Hex.unhex (Hex.digits_of input) with
  | None => Return (Unexpected kInvalidHexDigit)
  | Some l => if decide (l = []) then Undefined else Return (Ok (right_aligned l))
  end.
Proof.
  unfold from_hex. rewrite Hex.decode_eq. simpl.
  destruct (Hex.unhex _) as [l|]; [|done]. simpl. rewrite Hash_of_view_eq.
  by case_decide.
Qed.

Lemma Hash_of_view_bytes h :
  hash_wf h → (0 < kSize)%nat → Hash_of_view (bytes_ h) = Return h.
Proof.
  intros Hh Hk. rewrite Hash_of_view_eq, decide_False.
  - f_equal. apply hash_value_inj; [apply right_aligned_wf|done|].
    rewrite right_aligned_value. unfold hash_wf in Hh. by rewrite decide_True by lia.
  - unfold hash_wf in Hh. intros E. rewrite E in Hh. simpl in Hh. lia.
Qed.

(** C7: [from_hex] fails exactly on a character that is not a hexadecimal
    digit; otherwise, if there are digits, the hash holds the number they
    spell, right aligned, or zero when they spell more bytes than fit. With no
    digits at all (the empty string, or the prefix alone) it takes the address
    of the element after the last of its array, which is undefined. *)
Theorem from_hex_value input :
  match Hex.unhex (Hex.digits_of input) with
  | None => from_hex (kSize := kSize) input = Return (Unexpected kInvalidHexDigit)
  | Some [] => from_hex (kSize := kSize) input = Undefined
  | Some l => ∃ h, from_hex (kSize := kSize) input = Return (Ok h) ∧ hash_wf h ∧
      hash_value h = if decide (length l ≤ kSize)%nat then be_value l else 0
  end.
Proof.
  rewrite from_hex_eq. destruct (Hex.unhex _) as [[|b l]|]; [done| |done].
  eexists. split; [done|]. split; [apply right_aligned_wf|apply right_aligned_value].
Qed.

(** A hash read back from its hexadecimal form, prefixed or not, is the
    hash itself, and the form has two digits per byte. *)
Theorem hash_hex_roundtrip h with_prefix :
  hash_wf h → (0 < kSize)%nat →
  from_hex (to_hex h with_prefix) = Return (Ok h) ∧
  length (to_hex h with_prefix) = (2 * kSize + if with_prefix then 2 else 0)%nat.
Proof.
  intros Hh Hk. split.
  - unfold from_hex, to_hex. rewrite Hex.decode_encode_eq. simpl.
    by rewrite Hash_of_view_bytes.
  - unfold to_hex, Hex.encode. rewrite length_app, Hex.length_encode_digits, Hh.
    destruct with_prefix; simpl; lia.
Qed.

(** Comparison is numeric, on hashes of one size. *)
Lemma bytes_compare_value x y :
  length x = length y → bytes_compare x y = (be_value x ?= be_value y).
Proof.
  revert y. induction x as [|b x IH]; intros [|c y] Hlen; simpl in *; [done..|].
  injection Hlen as Hlen. rewrite IH, !be_value_cons, Hlen by done.
  pose proof (be_value_bound x). pose proof (be_value_bound y). rewrite Hlen in *.
  destruct (Z.compare_spec (Z_of_byte b) (Z_of_byte c)) as [->|Hlt|Hgt]; symmetry.
  - destruct (Z.compare_spec (be_value x) (be_value y)) as [->|?|?].
    + apply Z.compare_refl.
    + apply Z.compare_lt_iff. lia.
    + apply Z.compare_gt_iff. lia.
  - apply Z.compare_lt_iff. nia.
  - apply Z.compare_gt_iff. nia.
Qed.

Lemma Hash_of_uint64_eq `{Intx} v :
  (8 ≤ kSize)%nat →
  Hash_of_uint64 (kSize := kSize) v = Return (right_aligned (be_bytes 8 v)).
Proof.
  intros Hk. unfold Hash_of_uint64, store_big_u64. rewrite intx_be_store_spec.
  rewrite (proj2 (Nat.leb_le _ _)) by done. unfold right_aligned. rewrite length_be_bytes.
  rewrite decide_True by done. do 2 f_equal.
  by apply (blit_zero_hash (be_bytes 8 v)).
Qed.

(** The constructor from an integer aborts when the type is narrower than
    64 bits and otherwise stores the integer as a big-endian number; with
    the comparison of hashes being the comparison of these numbers. *)
Theorem hash_of_uint64_order `{Intx} v w :
  in_range 64 v → in_range 64 w →
  if (8 <=? kSize)%nat
  then ∃ h k : Hash kSize, Hash_of_uint64 v = Return h ∧ Hash_of_uint64 w = Return k ∧
    hash_value h = v ∧ hash_wf h ∧ hash_compare h k = (v ?= w)
  else Hash_of_uint64 (kSize := kSize) v = Abort.
Proof.
  intros Hv Hw. destruct (8 <=? kSize)%nat eqn:Hk.
  - apply Nat.leb_le in Hk. rewrite !Hash_of_uint64_eq by done.
    assert (Hval : ∀ u, in_range 64 u →
      hash_value (right_aligned (kSize := kSize) (be_bytes 8 u)) = u).
    { intros u Hu. rewrite right_aligned_value, length_be_bytes, decide_True by done.
      by apply be_value_small. }
    eexists _, _. split; [done|]. split; [done|]. split; [by apply Hval|].
    split; [apply right_aligned_wf|].
    unfold hash_compare. rewrite bytes_compare_value.
    + pose proof (Hval v Hv) as Ev. pose proof (Hval w Hw) as Ew.
      unfold hash_value in Ev, Ew. by rewrite Ev, Ew.
    + by rewrite !right_aligned_wf.
  - unfold Hash_of_uint64. by rewrite Hk.
Qed.

Lemma list_find_none h :
  list_find (λ b, ¬ (b ≠ Byte.x00)) (bytes_ h) = None ↔ Byte.x00 ∉ bytes_ h.
Proof.
  rewrite list_find_None, Forall_forall. split.
  - intros H Hin. apply (H _ Hin). by intros [].
  - intros H b Hin Hb. apply Hb. intros ->. done.
Qed.

(** The conversion to [bool] is true exactly when no byte is zero, so a
    non-zero hash whose first byte is zero converts to [false]. *)
Theorem hash_bool_no_zero_byte h :
  hash_wf h → (0 < kSize)%nat →
  (hash_bool h = true ↔ Byte.x00 ∉ bytes_ h) ∧
  (hash_value h < 256 ^ (Z.of_nat kSize - 1) → hash_bool h = false).
Proof.
  intros Hh Hk. assert (Hb : hash_bool h = true ↔ Byte.x00 ∉ bytes_ h).
  { rewrite <-list_find_none. unfold hash_bool. by destruct (list_find _ _). }
  split; [done|]. intros Hlt. apply not_true_iff_false. rewrite Hb. intros Hn. apply Hn.
  unfold hash_wf, hash_value in *. destruct (bytes_ h) as [|b bs]; [simpl in Hh; lia|].
  rewrite be_value_cons in Hlt. pose proof (be_value_bound bs). pose proof (Z_of_byte_range b).
  simpl in Hh. replace (Z.of_nat kSize - 1) with (Z.of_nat (length bs)) in Hlt by lia.
  assert (Z_of_byte b = 0) by nia. rewrite <-(byte_of_Z_of_byte b), H1. by left.
Qed.
End theorems.

Lemma hash_hex_roundtrip_witness :
  let h : Hash 2 := mk_Hash [Byte.x00; Byte.xff] in
  from_hex (to_hex h true) = Return (Ok h) ∧ length (to_hex h true) = 6%nat.
Proof. apply (hash_hex_roundtrip (kSize := 2)); [reflexivity|lia]. Defined.

Lemma hash_of_uint64_order_witness :
  let _ := intx_reference in
  ∃ h k : h256, Hash_of_uint64 5 = Return h ∧ Hash_of_uint64 7 = Return k ∧
    hash_value h = 5 ∧ hash_wf h ∧ hash_compare h k = Lt.
Proof.
  apply (hash_of_uint64_order (kSize := 32) (H := intx_reference) 5 7); by vm_compute.
Defined.

Lemma hash_bool_no_zero_byte_witness :
  hash_bool (mk_Hash [Byte.x00; Byte.x01] : Hash 2) = false.
Proof.
  destruct (hash_bool_no_zero_byte (kSize := 2) (mk_Hash [Byte.x00; Byte.x01])) as [_ H];
    [done|lia|]. apply H. by vm_compute.
Defined.

(** ** The word Jenkins ignores *)

Lemma words_of_lookup n data i :
  (i < n)%nat → words_of n data !! i = Some (le_value (take 4 (drop (4 * i) data))).
Proof.
  revert data i. induction n as [|n IH]; intros data [|i] Hi; cbn [words_of lookup list_lookup];
    [lia|lia|done|].
  rewrite IH by lia. rewrite drop_drop. do 4 f_equal. lia.
Qed.

(** The words of two byte strings agree where the bytes do. *)
Lemma words_of_agree n x y :
  length x = length y →
  (∀ j, j / 4 ≠ Jenkins.blind_word n → x !! j = y !! j)%nat →
  Jenkins.agree_but n (words_of n x) (words_of n y).
Proof.
  intros Hlen H i Hi Hne. rewrite !words_of_lookup by done. do 2 f_equal.
  apply list_eq. intros j. destruct (decide (j < 4)%nat).
  - rewrite !lookup_take_lt, !lookup_drop by done. apply H.
    rewrite Nat.mul_comm, Nat.div_add_l, (Nat.div_small j), Nat.add_0_r by lia. done.
  - by rewrite !lookup_take_ge by lia.
Qed.

(** Two hashes of [n] words that differ only in word [3 * ((n - 1) / 3)],
    and two salts likewise, give the same Jenkins hash: for [h256] bytes 24
    to 27, for [h160] bytes 12 to 15, have no influence on it. *)
Theorem hash_with_blind {kSize} (h k salt slt : Hash kSize) :
  hash_wf h → hash_wf k → hash_wf salt → hash_wf slt →
  (∀ j, j / 4 ≠ Jenkins.blind_word (kSize / 4) → bytes_ h !! j = bytes_ k !! j)%nat →
  (∀ j, j / 4 ≠ Jenkins.blind_word (kSize / 4) → bytes_ salt !! j = bytes_ slt !! j)%nat →
  hash_with h salt = hash_with k slt.
Proof.
  unfold hash_wf. intros. unfold hash_with, hash_size.
  apply Jenkins.Hash_blind; apply words_of_agree; congruence || done.
Qed.

Lemma hash_with_blind_witness :
  let h : h256 := mk_Hash (replicate 24 Byte.x11 ++ replicate 4 Byte.x22 ++ replicate 4 Byte.x33) in
  let k : h256 := mk_Hash (replicate 24 Byte.x11 ++ replicate 4 Byte.x44 ++ replicate 4 Byte.x33) in
  h ≠ k ∧ hash_with h h = hash_with k h.
Proof.
  split; [by intros [=]|]. apply hash_with_blind; [reflexivity..| |reflexivity].
  intros j Hj. do 32 (destruct j as [|j]; [try reflexivity; exfalso; apply Hj; reflexivity|]).
  reflexivity.
Defined.

Lemma length_words_of n data : length (words_of n data) = n.
Proof. revert data. induction n as [|n IH]; intros data; simpl; [done|]. by rewrite IH. Qed.

Lemma words_of_range n data : Jenkins.machine_words (words_of n data).
Proof.
  revert data. induction n as [|n IH]; intros data; simpl; constructor; [|apply IH].
  pose proof (le_value_bound (take 4 data)) as H. unfold in_range. split; [lia|].
  eapply Z.lt_le_trans; [apply H|]. change (2 ^ 32) with (256 ^ 4).
  apply Z.pow_le_mono_r; [done|]. rewrite length_take. lia.
Qed.

(** On hashes of the size of their type the Jenkins hash reads nothing
    out of bounds and gives a 64-bit number. *)
Theorem hash_with_defined {kSize} (h salt : Hash kSize) :
  hash_wf h → hash_wf salt → ∃ v, hash_with h salt = Return v ∧ in_range 64 v.
Proof.
  unfold hash_wf. intros Hh Hs. unfold hash_with, hash_size.
  apply Jenkins.Hash_defined; [apply words_of_range|apply words_of_range| |];
    by rewrite length_words_of.
Qed.


Lemma hash_with_defined_witness :
  let h : h256 := mk_Hash (replicate 32 Byte.xff) in
  ∃ v, hash_with h h = Return v ∧ in_range 64 v.
Proof. apply (hash_with_defined (kSize := 32)); reflexivity. Defined.
