(* ===== verification/MerkleDamgard.v ===== *)
(** * Block-wise absorption

    The specification the hashers share: a compression function folded over
    the [n]-byte blocks of a message, what is left of it waiting in a
    buffer, and the padding that leaves nothing. Used by [Sha256Old] and
    [Hasher]; not code of the repository. *)
From S2P Require Import Prelude.
Local Open Scope Z_scope.

Section absorb.
Context {St : Type} (f : St → list byte → St) (n : nat).

(** Compresses every full block; returns the state and the leftover. *)
Fixpoint absorb_loop (fuel : nat) (s : St) (l : list byte) : St * list byte :=
  match fuel with
  | O => (s, l)
  | S fuel =>
      if (n <=? length l)%nat then absorb_loop fuel (f s (take n l)) (drop n l) else (s, l)
  end.
Definition absorb (s : St) (l : list byte) : St * list byte := absorb_loop (length l) s l.

Context (Hn : (0 < n)%nat).

Lemma absorb_loop_enough fuel fuel' s l :
  (length l ≤ fuel)%nat → (length l ≤ fuel')%nat → absorb_loop fuel s l = absorb_loop fuel' s l.
Proof using Hn.
  revert fuel' s l. induction fuel as [|fuel IH]; intros [|fuel'] s l H H'; simpl; [done|..].
  - by rewrite (proj2 (Nat.leb_gt _ _)) by lia.
  - by rewrite (proj2 (Nat.leb_gt _ _)) by lia.
  - destruct (Nat.leb_spec n (length l)); [|done]. apply IH; len.
Qed.

Lemma absorb_small s l : (length l < n)%nat → absorb s l = (s, l).
Proof using Hn.
  intros H. unfold absorb. destruct (length l) eqn:E; simpl; [done|].
  by rewrite (proj2 (Nat.leb_gt _ _)) by lia.
Qed.

Lemma absorb_step s l :
  (n ≤ length l)%nat → absorb s l = absorb (f s (take n l)) (drop n l).
Proof using Hn.
  intros H. unfold absorb at 1. destruct (length l) eqn:E; [lia|]. simpl.
  rewrite E, (proj2 (Nat.leb_le _ _)) by lia. apply absorb_loop_enough; len.
Qed.

Lemma absorb_ind (P : St → list byte → Prop) :
  (∀ s l, length l < n → P s l)%nat →
  (∀ s l, n ≤ length l → P (f s (take n l)) (drop n l) → P s l)%nat →
  ∀ s l, P s l.
Proof using Hn.
  intros Hsmall Hstep s l. revert s.
  induction l as [l IH] using (induction_ltof1 _ length). intros s. unfold ltof in IH.
  destruct (decide (length l < n)%nat); [by apply Hsmall|].
  apply Hstep; [lia|]. apply IH. len.
Qed.

Lemma absorb_app s l m :
  absorb s (l ++ m) = absorb (absorb s l).1 ((absorb s l).2 ++ m).
Proof using Hn.
  revert s l. apply absorb_ind; intros s l H.
  - by rewrite (absorb_small s l).
  - intros IH. rewrite absorb_step by len. rewrite (absorb_step s l) by done.
    rewrite take_app_le, drop_app_le by done. apply IH.
Qed.

Lemma absorb_block s l r : length l = n → absorb s (l ++ r) = absorb (f s l) r.
Proof using Hn.
  intros H. rewrite absorb_step by len.
  by rewrite take_app_length', drop_app_length'.
Qed.

Lemma absorb_rest s l : length (absorb s l).2 = (length l mod n)%nat.
Proof using Hn.
  revert s l. apply absorb_ind; intros s l H.
  - rewrite absorb_small by done. symmetry. by apply Nat.mod_small.
  - intros IH. rewrite absorb_step, IH by done. rewrite length_drop.
    replace (length l) with (length l - n + 1 * n)%nat at 2 by lia.
    by rewrite Nat.Div0.mod_add.
Qed.

Lemma absorb_rest_lt s l : (length (absorb s l).2 < n)%nat.
Proof using Hn. rewrite absorb_rest. apply Nat.mod_upper_bound. lia. Qed.

Lemma absorb_whole s l : (length l mod n = 0)%nat → absorb s l = ((absorb s l).1, []).
Proof using Hn.
  intros H. pose proof (absorb_rest s l) as Hr. rewrite H in Hr.
  destruct (absorb s l) as [s' r]. simpl in Hr. by apply nil_length_inv in Hr as ->.
Qed.
End absorb.

(** ** Padding *)

(** The bytes from the end of a message of [len] bytes: a one bit, zeros, and
    the length in bits as an [lf]-byte integer that [store] writes; the
    fewest zeros that complete a block of [n] bytes. *)
Definition md_padding (n lf : nat) (store : Z → list byte) (len : nat) : list byte :=
  Byte.x80 :: replicate (Z.to_nat ((Z.of_nat n - Z.of_nat lf - 1 - Z.of_nat len) mod Z.of_nat n)) Byte.x00
  ++ store (8 * Z.of_nat len).

(** The hash of [msg]: every block of the padded message compressed. *)
Definition merkle_damgard {St} (f : St → list byte → St) (n lf : nat)
    (store : Z → list byte) (s0 : St) (msg : list byte) : St :=
  (absorb f n s0 (msg ++ md_padding n lf store (length msg))).1.

Lemma md_padding_complete n lf store len :
  (0 < n)%nat → length (store (8 * Z.of_nat len)) = lf →
  ((len + length (md_padding n lf store len)) mod n = 0)%nat.
Proof.
  intros Hn Hlf. unfold md_padding. simpl. rewrite length_app, length_replicate, Hlf.
  apply Nat2Z.inj. rewrite Nat2Z.inj_mod, !Nat2Z.inj_add, Nat2Z.inj_succ.
  set (k := Z.of_nat n - Z.of_nat lf - 1 - Z.of_nat len).
  pose proof (Z.mod_pos_bound k (Z.of_nat n) ltac:(lia)) as Hk.
  rewrite Nat2Z.inj_add, Z2Nat.id by lia.
  replace (_ + _) with (k mod Z.of_nat n + (Z.of_nat n - k)) by lia.
  rewrite Zplus_mod_idemp_l. replace (k + (Z.of_nat n - k)) with (1 * Z.of_nat n) by lia.
  apply Z_mod_mult.
Qed.

(** ** A buffered hasher *)

(** [s], the first [off] bytes of [buf] and [total] are what is known of [msg]:
    the compressed blocks, the leftover and the length modulo 2^64. *)
Record absorbed {St} (f : St → list byte → St) (n : nat) (s0 : St) (msg : list byte)
    (s : St) (buf : list byte) (off : nat) (total : Z) : Prop := {
  absorbed_eq : absorb f n s0 msg = (s, take off buf);
  absorbed_buf : length buf = n;
  absorbed_off : off = (length msg mod n)%nat;
  absorbed_total : total = u64 (Z.of_nat (length msg))
}.

Section absorbed.
Context {St : Type} (f : St → list byte → St) (n : nat) (s0 : St) (Hn : (0 < n)%nat).

Lemma absorbed_off_lt msg s buf off total :
  absorbed f n s0 msg s buf off total → (off < n)%nat.
Proof using Hn. intros []. subst. apply Nat.mod_upper_bound. lia. Qed.

Lemma absorbed_init buf : length buf = n → absorbed f n s0 [] s0 buf 0 0.
Proof using Hn. intros Hb. split; [done|done| |done]. simpl. symmetry. apply Nat.Div0.mod_0_l. Qed.

Lemma u64_add_length (msg data : list byte) :
  u64 (u64 (Z.of_nat (length msg)) + Z.of_nat (length data))
  = u64 (Z.of_nat (length (msg ++ data))).
Proof. unfold u64, wrap. rewrite Zplus_mod_idemp_l, length_app. f_equal. lia. Qed.

(** Data that leaves room in the buffer is copied after what it holds. *)
Lemma absorbed_copy msg s buf off total data :
  absorbed f n s0 msg s buf off total → (off + length data < n)%nat →
  absorbed f n s0 (msg ++ data) s (blit off data buf) (off + length data)
    (u64 (total + Z.of_nat (length data))).
Proof using Hn.
  intros [Heq Hbuf Hoff ->] Hlt. split.
  - rewrite absorb_app, Heq by done. simpl. rewrite absorb_small; [|done|len].
    f_equal. unfold blit. rewrite (assoc_L (++)), take_app_length'; [done|len].
  - rewrite length_blit; lia.
  - rewrite length_app, <-Nat.Div0.add_mod_idemp_l, <-Hoff. symmetry. by apply Nat.mod_small.
  - apply u64_add_length.
Qed.

(** Data that completes the buffer makes it a block. *)
Lemma absorbed_fill msg s buf off total data :
  absorbed f n s0 msg s buf off total → (off + length data = n)%nat →
  absorbed f n s0 (msg ++ data) (f s (blit off data buf)) (blit off data buf) 0
    (u64 (total + Z.of_nat (length data))).
Proof using Hn.
  intros [Heq Hbuf Hoff ->] Hlt. split.
  - rewrite absorb_app, Heq by done. simpl.
    assert (Hb : blit off data buf = take off buf ++ data).
    { unfold blit. rewrite (drop_ge buf) by lia. by rewrite app_nil_r. }
    rewrite Hb, <-(app_nil_r (take off buf ++ data)) at 1.
    rewrite absorb_block; [by apply absorb_small|done|len].
  - rewrite length_blit; lia.
  - rewrite length_app, <-Nat.Div0.add_mod_idemp_l, <-Hoff, Hlt. by rewrite Nat.Div0.mod_same.
  - apply u64_add_length.
Qed.

(** With an empty buffer a whole block is compressed in place. *)
Lemma absorbed_block msg s buf total data :
  absorbed f n s0 msg s buf 0 total → length data = n →
  absorbed f n s0 (msg ++ data) (f s data) buf 0 (u64 (total + Z.of_nat n)).
Proof using Hn.
  intros [Heq Hbuf Hoff ->] Hlt. split; [|done|..].
  - rewrite absorb_app, Heq by done. simpl. rewrite <-(app_nil_r data) at 1.
    rewrite absorb_block; [by apply absorb_small|done|done].
  - rewrite length_app, <-Nat.Div0.add_mod_idemp_l, <-Hoff, Hlt. by rewrite Nat.Div0.mod_same.
  - rewrite <-Hlt. apply u64_add_length.
Qed.

(** After a padded message nothing is left and the state is the hash. *)
Lemma absorbed_padded lf store msg s buf off total :
  absorbed f n s0 (msg ++ md_padding n lf store (length msg)) s buf off total →
  s = merkle_damgard f n lf store s0 msg.
Proof. intros [Heq _ _ _]. unfold merkle_damgard. by rewrite Heq. Qed.
End absorbed.

(** The offset in the buffer is a function of the length modulo 2^64, for a
    block size that divides 2^64. *)
Lemma u64_mod_block (n len : nat) :
  (Z.of_nat n | 2 ^ 64) → (0 < n)%nat →
  u64 (Z.of_nat len) mod Z.of_nat n = Z.of_nat (len mod n).
Proof.
  intros Hd Hn. unfold u64, wrap. rewrite Nat2Z.inj_mod. by apply Z.mod_mod_divide.
Qed.

(** The padding as the code writes it: a prefix of a block that holds [0x80]
    and zeros, then the length in bits computed on 64 bits. *)
Lemma md_padding_code (n lf k len : nat) (store : Z → list byte) :
  (lf < n)%nat → (k = n - 1)%nat →
  (∀ z, store (u64 z) = store z) →
  md_padding n lf store len =
  take (Z.to_nat (1 + (2 * Z.of_nat n - Z.of_nat lf - 1 - Z.of_nat (len mod n)) mod Z.of_nat n))
    (Byte.x80 :: replicate k Byte.x00)
  ++ store (u64 (Z.shiftl (u64 (Z.of_nat len)) 3)).
Proof.
  intros Hn -> Hs. unfold md_padding.
  set (m := (2 * Z.of_nat n - _ - 1 - _) mod _).
  assert (Hm : m = (Z.of_nat n - Z.of_nat lf - 1 - Z.of_nat len) mod Z.of_nat n).
  { unfold m. rewrite Nat2Z.inj_mod, Zminus_mod_idemp_r.
    replace (2 * Z.of_nat n - Z.of_nat lf - 1 - Z.of_nat len)
      with (Z.of_nat n - Z.of_nat lf - 1 - Z.of_nat len + 1 * Z.of_nat n) by lia.
    by rewrite Z_mod_plus_full. }
  rewrite Hm. pose proof (Z.mod_pos_bound (Z.of_nat n - Z.of_nat lf - 1 - Z.of_nat len)
    (Z.of_nat n) ltac:(lia)) as Hb.
  rewrite Z2Nat.inj_add, Nat.add_1_l by lia. cbn [take app].
  rewrite take_replicate, Nat.min_l by lia. do 2 f_equal.
  rewrite Z.shiftl_mul_pow2 by done. change (2 ^ 3) with 8.
  rewrite <-(Hs (8 * Z.of_nat len)). f_equal. unfold u64, wrap.
  rewrite Zmult_mod_idemp_l. f_equal. lia.
Qed.
