(* ===== verification/Sha256Old.v ===== *)
(** * SHA-256 in plain C++

    Models [src/zen/core/crypto/sha_2_256_old.cpp] and its header: the round
    function, the unrolled compression of a chunk, and the class that buffers
    the input. The specification is FIPS 180-4, with a message schedule of 64
    words and a loop of 64 rounds. *)
From S2P Require Import Prelude Base MerkleDamgard.
Local Open Scope Z_scope.
Local Open Scope moria_scope.

Definition Ch (x y z : Z) : Z := z ⊻ Z.land x (y ⊻ z).
Definition Maj (x y z : Z) : Z := Z.lor (Z.land x y) (Z.land z (Z.lor x y)).
Definition Sigma0 (x : Z) : Z :=
  Z.lor (Z.shiftr x 2) (shl32 x 30) ⊻ Z.lor (Z.shiftr x 13) (shl32 x 19)
  ⊻ Z.lor (Z.shiftr x 22) (shl32 x 10).
Definition Sigma1 (x : Z) : Z :=
  Z.lor (Z.shiftr x 6) (shl32 x 26) ⊻ Z.lor (Z.shiftr x 11) (shl32 x 21)
  ⊻ Z.lor (Z.shiftr x 25) (shl32 x 7).
Definition sigma0 (x : Z) : Z :=
  Z.lor (Z.shiftr x 7) (shl32 x 25) ⊻ Z.lor (Z.shiftr x 18) (shl32 x 14) ⊻ Z.shiftr x 3.
Definition sigma1 (x : Z) : Z :=
  Z.lor (Z.shiftr x 17) (shl32 x 15) ⊻ Z.lor (Z.shiftr x 19) (shl32 x 13) ⊻ Z.shiftr x 10.

(** The references [d] and [h] it assigns are its results. *)
Definition Round (a b c d e f g h k w : Z) : Z * Z :=
  let t1 := h ⊞ Sigma1 e ⊞ Ch e f g ⊞ k ⊞ w in
  let t2 := Sigma0 a ⊞ Maj a b c in
  let d := d ⊞ t1 in
  let h := t1 ⊞ t2 in
  (d, h).

(** The eight registers, and the array [s]; the sixteen words in flight. *)
Definition regs : Type := Z * Z * Z * Z * Z * Z * Z * Z.
Definition window : Type := Z * Z * Z * Z * Z * Z * Z * Z * Z * Z * Z * Z * Z * Z * Z * Z.

Definition Initialize : regs :=
  (0x6a09e667, 0xbb67ae85, 0x3c6ef372, 0xa54ff53a,
   0x510e527f, 0x9b05688c, 0x1f83d9ab, 0x5be0cd19).

(** [Transform], sixteen of its rounds at a time. *)
Section transform.
Context `{Intx}.

Definition Transform_0_15 (r : regs) (chunk : list byte) : regs * window :=
  let '(a, b, c, d, e, f, g, h) := r in
  let w0 := load_big_u32 (drop 0 chunk) in
  let '(d, h) := Round a b c d e f g h 0x428a2f98 w0 in
  let w1 := load_big_u32 (drop 4 chunk) in
  let '(c, g) := Round h a b c d e f g 0x71374491 w1 in
  let w2 := load_big_u32 (drop 8 chunk) in
  let '(b, f) := Round g h a b c d e f 0xb5c0fbcf w2 in
  let w3 := load_big_u32 (drop 12 chunk) in
  let '(a, e) := Round f g h a b c d e 0xe9b5dba5 w3 in
  let w4 := load_big_u32 (drop 16 chunk) in
  let '(h, d) := Round e f g h a b c d 0x3956c25b w4 in
  let w5 := load_big_u32 (drop 20 chunk) in
  let '(g, c) := Round d e f g h a b c 0x59f111f1 w5 in
  let w6 := load_big_u32 (drop 24 chunk) in
  let '(f, b) := Round c d e f g h a b 0x923f82a4 w6 in
  let w7 := load_big_u32 (drop 28 chunk) in
  let '(e, a) := Round b c d e f g h a 0xab1c5ed5 w7 in
  let w8 := load_big_u32 (drop 32 chunk) in
  let '(d, h) := Round a b c d e f g h 0xd807aa98 w8 in
  let w9 := load_big_u32 (drop 36 chunk) in
  let '(c, g) := Round h a b c d e f g 0x12835b01 w9 in
  let w10 := load_big_u32 (drop 40 chunk) in
  let '(b, f) := Round g h a b c d e f 0x243185be w10 in
  let w11 := load_big_u32 (drop 44 chunk) in
  let '(a, e) := Round f g h a b c d e 0x550c7dc3 w11 in
  let w12 := load_big_u32 (drop 48 chunk) in
  let '(h, d) := Round e f g h a b c d 0x72be5d74 w12 in
  let w13 := load_big_u32 (drop 52 chunk) in
  let '(g, c) := Round d e f g h a b c 0x80deb1fe w13 in
  let w14 := load_big_u32 (drop 56 chunk) in
  let '(f, b) := Round c d e f g h a b 0x9bdc06a7 w14 in
  let w15 := load_big_u32 (drop 60 chunk) in
  let '(e, a) := Round b c d e f g h a 0xc19bf174 w15 in
  ((a, b, c, d, e, f, g, h), (w0, w1, w2, w3, w4, w5, w6, w7, w8, w9, w10, w11, w12, w13, w14, w15)).

Definition Transform_16_31 (r : regs) (w : window) : regs * window :=
  let '(a, b, c, d, e, f, g, h) := r in
  let '(w0, w1, w2, w3, w4, w5, w6, w7, w8, w9, w10, w11, w12, w13, w14, w15) := w in
  let w0 := w0 ⊞ (sigma1 w14 ⊞ w9 ⊞ sigma0 w1) in
  let '(d, h) := Round a b c d e f g h 0xe49b69c1 w0 in
  let w1 := w1 ⊞ (sigma1 w15 ⊞ w10 ⊞ sigma0 w2) in
  let '(c, g) := Round h a b c d e f g 0xefbe4786 w1 in
  let w2 := w2 ⊞ (sigma1 w0 ⊞ w11 ⊞ sigma0 w3) in
  let '(b, f) := Round g h a b c d e f 0x0fc19dc6 w2 in
  let w3 := w3 ⊞ (sigma1 w1 ⊞ w12 ⊞ sigma0 w4) in
  let '(a, e) := Round f g h a b c d e 0x240ca1cc w3 in
  let w4 := w4 ⊞ (sigma1 w2 ⊞ w13 ⊞ sigma0 w5) in
  let '(h, d) := Round e f g h a b c d 0x2de92c6f w4 in
  let w5 := w5 ⊞ (sigma1 w3 ⊞ w14 ⊞ sigma0 w6) in
  let '(g, c) := Round d e f g h a b c 0x4a7484aa w5 in
  let w6 := w6 ⊞ (sigma1 w4 ⊞ w15 ⊞ sigma0 w7) in
  let '(f, b) := Round c d e f g h a b 0x5cb0a9dc w6 in
  let w7 := w7 ⊞ (sigma1 w5 ⊞ w0 ⊞ sigma0 w8) in
  let '(e, a) := Round b c d e f g h a 0x76f988da w7 in
  let w8 := w8 ⊞ (sigma1 w6 ⊞ w1 ⊞ sigma0 w9) in
  let '(d, h) := Round a b c d e f g h 0x983e5152 w8 in
  let w9 := w9 ⊞ (sigma1 w7 ⊞ w2 ⊞ sigma0 w10) in
  let '(c, g) := Round h a b c d e f g 0xa831c66d w9 in
  let w10 := w10 ⊞ (sigma1 w8 ⊞ w3 ⊞ sigma0 w11) in
  let '(b, f) := Round g h a b c d e f 0xb00327c8 w10 in
  let w11 := w11 ⊞ (sigma1 w9 ⊞ w4 ⊞ sigma0 w12) in
  let '(a, e) := Round f g h a b c d e 0xbf597fc7 w11 in
  let w12 := w12 ⊞ (sigma1 w10 ⊞ w5 ⊞ sigma0 w13) in
  let '(h, d) := Round e f g h a b c d 0xc6e00bf3 w12 in
  let w13 := w13 ⊞ (sigma1 w11 ⊞ w6 ⊞ sigma0 w14) in
  let '(g, c) := Round d e f g h a b c 0xd5a79147 w13 in
  let w14 := w14 ⊞ (sigma1 w12 ⊞ w7 ⊞ sigma0 w15) in
  let '(f, b) := Round c d e f g h a b 0x06ca6351 w14 in
  let w15 := w15 ⊞ (sigma1 w13 ⊞ w8 ⊞ sigma0 w0) in
  let '(e, a) := Round b c d e f g h a 0x14292967 w15 in
  ((a, b, c, d, e, f, g, h), (w0, w1, w2, w3, w4, w5, w6, w7, w8, w9, w10, w11, w12, w13, w14, w15)).

Definition Transform_32_47 (r : regs) (w : window) : regs * window :=
  let '(a, b, c, d, e, f, g, h) := r in
  let '(w0, w1, w2, w3, w4, w5, w6, w7, w8, w9, w10, w11, w12, w13, w14, w15) := w in
  let w0 := w0 ⊞ (sigma1 w14 ⊞ w9 ⊞ sigma0 w1) in
  let '(d, h) := Round a b c d e f g h 0x27b70a85 w0 in
  let w1 := w1 ⊞ (sigma1 w15 ⊞ w10 ⊞ sigma0 w2) in
  let '(c, g) := Round h a b c d e f g 0x2e1b2138 w1 in
  let w2 := w2 ⊞ (sigma1 w0 ⊞ w11 ⊞ sigma0 w3) in
  let '(b, f) := Round g h a b c d e f 0x4d2c6dfc w2 in
  let w3 := w3 ⊞ (sigma1 w1 ⊞ w12 ⊞ sigma0 w4) in
  let '(a, e) := Round f g h a b c d e 0x53380d13 w3 in
  let w4 := w4 ⊞ (sigma1 w2 ⊞ w13 ⊞ sigma0 w5) in
  let '(h, d) := Round e f g h a b c d 0x650a7354 w4 in
  let w5 := w5 ⊞ (sigma1 w3 ⊞ w14 ⊞ sigma0 w6) in
  let '(g, c) := Round d e f g h a b c 0x766a0abb w5 in
  let w6 := w6 ⊞ (sigma1 w4 ⊞ w15 ⊞ sigma0 w7) in
  let '(f, b) := Round c d e f g h a b 0x81c2c92e w6 in
  let w7 := w7 ⊞ (sigma1 w5 ⊞ w0 ⊞ sigma0 w8) in
  let '(e, a) := Round b c d e f g h a 0x92722c85 w7 in
  let w8 := w8 ⊞ (sigma1 w6 ⊞ w1 ⊞ sigma0 w9) in
  let '(d, h) := Round a b c d e f g h 0xa2bfe8a1 w8 in
  let w9 := w9 ⊞ (sigma1 w7 ⊞ w2 ⊞ sigma0 w10) in
  let '(c, g) := Round h a b c d e f g 0xa81a664b w9 in
  let w10 := w10 ⊞ (sigma1 w8 ⊞ w3 ⊞ sigma0 w11) in
  let '(b, f) := Round g h a b c d e f 0xc24b8b70 w10 in
  let w11 := w11 ⊞ (sigma1 w9 ⊞ w4 ⊞ sigma0 w12) in
  let '(a, e) := Round f g h a b c d e 0xc76c51a3 w11 in
  let w12 := w12 ⊞ (sigma1 w10 ⊞ w5 ⊞ sigma0 w13) in
  let '(h, d) := Round e f g h a b c d 0xd192e819 w12 in
  let w13 := w13 ⊞ (sigma1 w11 ⊞ w6 ⊞ sigma0 w14) in
  let '(g, c) := Round d e f g h a b c 0xd6990624 w13 in
  let w14 := w14 ⊞ (sigma1 w12 ⊞ w7 ⊞ sigma0 w15) in
  let '(f, b) := Round c d e f g h a b 0xf40e3585 w14 in
  let w15 := w15 ⊞ (sigma1 w13 ⊞ w8 ⊞ sigma0 w0) in
  let '(e, a) := Round b c d e f g h a 0x106aa070 w15 in
  ((a, b, c, d, e, f, g, h), (w0, w1, w2, w3, w4, w5, w6, w7, w8, w9, w10, w11, w12, w13, w14, w15)).

Definition Transform_48_63 (r : regs) (w : window) : regs :=
  let '(a, b, c, d, e, f, g, h) := r in
  let '(w0, w1, w2, w3, w4, w5, w6, w7, w8, w9, w10, w11, w12, w13, w14, w15) := w in
  let w0 := w0 ⊞ (sigma1 w14 ⊞ w9 ⊞ sigma0 w1) in
  let '(d, h) := Round a b c d e f g h 0x19a4c116 w0 in
  let w1 := w1 ⊞ (sigma1 w15 ⊞ w10 ⊞ sigma0 w2) in
  let '(c, g) := Round h a b c d e f g 0x1e376c08 w1 in
  let w2 := w2 ⊞ (sigma1 w0 ⊞ w11 ⊞ sigma0 w3) in
  let '(b, f) := Round g h a b c d e f 0x2748774c w2 in
  let w3 := w3 ⊞ (sigma1 w1 ⊞ w12 ⊞ sigma0 w4) in
  let '(a, e) := Round f g h a b c d e 0x34b0bcb5 w3 in
  let w4 := w4 ⊞ (sigma1 w2 ⊞ w13 ⊞ sigma0 w5) in
  let '(h, d) := Round e f g h a b c d 0x391c0cb3 w4 in
  let w5 := w5 ⊞ (sigma1 w3 ⊞ w14 ⊞ sigma0 w6) in
  let '(g, c) := Round d e f g h a b c 0x4ed8aa4a w5 in
  let w6 := w6 ⊞ (sigma1 w4 ⊞ w15 ⊞ sigma0 w7) in
  let '(f, b) := Round c d e f g h a b 0x5b9cca4f w6 in
  let w7 := w7 ⊞ (sigma1 w5 ⊞ w0 ⊞ sigma0 w8) in
  let '(e, a) := Round b c d e f g h a 0x682e6ff3 w7 in
  let w8 := w8 ⊞ (sigma1 w6 ⊞ w1 ⊞ sigma0 w9) in
  let '(d, h) := Round a b c d e f g h 0x748f82ee w8 in
  let w9 := w9 ⊞ (sigma1 w7 ⊞ w2 ⊞ sigma0 w10) in
  let '(c, g) := Round h a b c d e f g 0x78a5636f w9 in
  let w10 := w10 ⊞ (sigma1 w8 ⊞ w3 ⊞ sigma0 w11) in
  let '(b, f) := Round g h a b c d e f 0x84c87814 w10 in
  let w11 := w11 ⊞ (sigma1 w9 ⊞ w4 ⊞ sigma0 w12) in
  let '(a, e) := Round f g h a b c d e 0x8cc70208 w11 in
  let w12 := w12 ⊞ (sigma1 w10 ⊞ w5 ⊞ sigma0 w13) in
  let '(h, d) := Round e f g h a b c d 0x90befffa w12 in
  let w13 := w13 ⊞ (sigma1 w11 ⊞ w6 ⊞ sigma0 w14) in
  let '(g, c) := Round d e f g h a b c 0xa4506ceb w13 in
  let '(f, b) := Round c d e f g h a b 0xbef9a3f7 (w14 ⊞ sigma1 w12 ⊞ w7 ⊞ sigma0 w15) in
  let '(e, a) := Round b c d e f g h a 0xc67178f2 (w15 ⊞ sigma1 w13 ⊞ w8 ⊞ sigma0 w0) in
  (a, b, c, d, e, f, g, h).
Definition Transform (s : regs) (chunk : list byte) : regs :=
  let '(r, w) := Transform_0_15 s chunk in
  let '(r, w) := Transform_16_31 r w in
  let '(r, w) := Transform_32_47 r w in
  let '(a, b, c, d, e, f, g, h) := Transform_48_63 r w in
  let '(s0, s1, s2, s3, s4, s5, s6, s7) := s in
  (s0 ⊞ a, s1 ⊞ b, s2 ⊞ c, s3 ⊞ d, s4 ⊞ e, s5 ⊞ f, s6 ⊞ g, s7 ⊞ h).

Record Sha256Old := mk_Sha256Old { s : regs; buf : list byte; bytes : Z }.

(** The constructor leaves [buf] as it finds it: 64 bytes of no meaning. *)
Definition new_Sha256Old (buf : list byte) : Sha256Old := mk_Sha256Old Initialize buf 0.

(** The [while (end >= data + 64)] loop, [data] being the bytes to [end];
    one turn consumes 64 of them, so [length data] turns are enough. *)
Fixpoint Write_chunks (fuel : nat) (this : Sha256Old) (data : list byte) :
    Sha256Old * list byte :=
  match fuel with
  | O => (this, data)
  | S fuel =>
      if (64 <=? length data)%nat then
        let this := mk_Sha256Old (Transform (s this) (take 64 data)) (buf this)
                      (u64 (bytes this + 64)) in
        Write_chunks fuel this (drop 64 data)
      else (this, data)
  end.

Definition Write (this : Sha256Old) (data : list byte) : Sha256Old :=
  let len := Z.of_nat (length data) in
  let bufsize := bytes this mod 64 in
  let '(this, data, bufsize) :=
    if negb (bufsize =? 0) && (64 <=? u64 (bufsize + len)) then
      let room := Z.to_nat (64 - bufsize) in
      let buf := blit (Z.to_nat bufsize) (take room data) (buf this) in
      (mk_Sha256Old (Transform (s this) buf) buf (u64 (bytes this + (64 - bufsize))),
       drop room data, 0)
    else (this, data, bufsize) in
  let '(this, data) := Write_chunks (length data) this data in
  if (0 <? length data)%nat then
    mk_Sha256Old (s this) (blit (Z.to_nat bufsize) data (buf this))
      (u64 (bytes this + Z.of_nat (length data)))
  else this.

(** [hash + 4 * i] receives [s[i]]. *)
Definition store_words (store : Z → list byte) (s : regs) : list byte :=
  let '(s0, s1, s2, s3, s4, s5, s6, s7) := s in
  store s0 ++ store s1 ++ store s2 ++ store s3 ++ store s4 ++ store s5 ++ store s6 ++ store s7.

Definition FinalizeNoPadding (this : Sha256Old) (enforce_compression : bool) :
    outcome Empty_set (list byte) :=
  if enforce_compression && negb (bytes this =? 64) then Abort
  else Return (store_words store_big_u32 (s this)).

Definition pad : list byte := Byte.x80 :: replicate 63 Byte.x00.

Definition Finalize (this : Sha256Old) : Sha256Old * outcome Empty_set (list byte) :=
  let sizedesc := store_big_u64 (u64 (Z.shiftl (bytes this) 3)) in
  let this := Write this (take (Z.to_nat (1 + u64 (119 - bytes this mod 64) mod 64)) pad) in
  let this := Write this sizedesc in
  (this, FinalizeNoPadding this false).

Definition Reset (this : Sha256Old) : Sha256Old := mk_Sha256Old Initialize (buf this) 0.
End transform.

(** ** FIPS 180-4 *)

Module Fips.

Definition ROTR (n x : Z) : Z := Z.lor (Z.shiftr x n) (wrap 32 (Z.shiftl x (32 - n))).
Definition SHR (n x : Z) : Z := Z.shiftr x n.
Definition ch (x y z : Z) : Z := Z.land x y ⊻ Z.land (Z.lnot x) z.
Definition maj (x y z : Z) : Z := Z.land x y ⊻ Z.land x z ⊻ Z.land y z.
Definition Sum0 (x : Z) : Z := ROTR 2 x ⊻ ROTR 13 x ⊻ ROTR 22 x.
Definition Sum1 (x : Z) : Z := ROTR 6 x ⊻ ROTR 11 x ⊻ ROTR 25 x.
Definition sum0 (x : Z) : Z := ROTR 7 x ⊻ ROTR 18 x ⊻ SHR 3 x.
Definition sum1 (x : Z) : Z := ROTR 17 x ⊻ ROTR 19 x ⊻ SHR 10 x.

(** The constants are the first 32 bits of the fractional parts of the square
    and cube roots of the first primes. [root e n] is the integer [e]-th root
    of [n < 2 ^ (e * bits)], one bit at a time. *)
Fixpoint root (e : Z) (bits : nat) (acc n : Z) : Z :=
  match bits with
  | O => acc
  | S bits =>
      let next := acc + 2 ^ Z.of_nat bits in
      root e bits (if next ^ e <=? n then next else acc) n
  end.
Definition root_fraction (e p : Z) : Z := root e 40 0 (p * 2 ^ (32 * e)) mod 2 ^ 32.

Definition is_prime (n : nat) : bool :=
  forallb (λ d, negb (n mod d =? 0)%nat) (seq 2 (n - 2)).
Definition primes : list nat := filter (λ n, is_prime n = true) (seq 2 310).

(** The initial hash value and the round constants. *)
Definition H0 : regs :=
  Eval vm_compute in
  let h i := root_fraction 2 (Z.of_nat (nth i primes O)) in
  (h 0, h 1, h 2, h 3, h 4, h 5, h 6, h 7)%nat.
Definition K : list Z :=
  Eval vm_compute in (root_fraction 3 ∘ Z.of_nat <$> primes).

(** The next word of the schedule, and the schedule extended by [n] words. *)
Definition next_word (W : list Z) : Z :=
  let t := length W in
  sum1 (nth (t - 2) W 0) ⊞ nth (t - 7) W 0 ⊞ sum0 (nth (t - 15) W 0) ⊞ nth (t - 16) W 0.
Fixpoint schedule (n : nat) (W : list Z) : list Z :=
  match n with
  | O => W
  | S n => schedule n (W ++ [next_word W])
  end.

Definition round (r : regs) (kw : Z * Z) : regs :=
  let '(a, b, c, d, e, f, g, h) := r in
  let T1 := h ⊞ Sum1 e ⊞ ch e f g ⊞ kw.1 ⊞ kw.2 in
  let T2 := Sum0 a ⊞ maj a b c in
  (T1 ⊞ T2, a, b, c, d ⊞ T1, e, f, g).

Definition rounds (ks ws : list Z) (r : regs) : regs := fold_left round (zip ks ws) r.

(** The big-endian words of a block. *)
Fixpoint block_words (n : nat) (block : list byte) : list Z :=
  match n with
  | O => []
  | S n => be_value (take 4 block) :: block_words n (drop 4 block)
  end.

Definition compress (H : regs) (block : list byte) : regs :=
  let '(a, b, c, d, e, f, g, h) := rounds K (schedule 48 (block_words 16 block)) H in
  let '(s0, s1, s2, s3, s4, s5, s6, s7) := H in
  (s0 ⊞ a, s1 ⊞ b, s2 ⊞ c, s3 ⊞ d, s4 ⊞ e, s5 ⊞ f, s6 ⊞ g, s7 ⊞ h).

(** The digest: the eight words of the last hash value, in order, each with
    its most significant byte first. *)
Definition digest (H : regs) : list byte :=
  let '(a, b, c, d, e, f, g, h) := H in concat (be_bytes 4 <$> [a; b; c; d; e; f; g; h]).

Definition sha256 (msg : list byte) : list byte :=
  digest (merkle_damgard compress 64 8 (be_bytes 8) H0 msg).
End Fips.

(** ** Theory *)

Lemma Ch_fips x y z : Ch x y z = Fips.ch x y z.
Proof.
  apply Z.bits_inj'. intros i Hi. unfold Ch, Fips.ch.
  rewrite !Z.lxor_spec, !Z.land_spec, Z.lxor_spec, Z.lnot_spec by done.
  by destruct (Z.testbit x i), (Z.testbit y i), (Z.testbit z i).
Qed.
Lemma Maj_fips x y z : Maj x y z = Fips.maj x y z.
Proof.
  apply Z.bits_inj'. intros i Hi. unfold Maj, Fips.maj.
  rewrite !Z.lxor_spec, !Z.lor_spec, !Z.land_spec, Z.lor_spec.
  by destruct (Z.testbit x i), (Z.testbit y i), (Z.testbit z i).
Qed.

Lemma rounds_cons k ks w ws a b c d e f g h :
  Fips.rounds (k :: ks) (w :: ws) (a, b, c, d, e, f, g, h) =
  let '(d', h') := Round a b c d e f g h k w in
  Fips.rounds ks ws (h', a, b, c, d', e, f, g).
Proof.
  unfold Round, Fips.rounds. cbn [zip zip_with fold_left Fips.round fst snd].
  by rewrite <-Ch_fips, <-Maj_fips.
Qed.

Lemma rounds_app ks ks' ws ws' r :
  length ks = length ws →
  Fips.rounds (ks ++ ks') (ws ++ ws') r = Fips.rounds ks' ws' (Fips.rounds ks ws r).
Proof. intros H. unfold Fips.rounds. by rewrite zip_with_app, fold_left_app. Qed.

(** The schedule looks at its last sixteen words only. *)
Lemma next_word_app P W :
  (16 ≤ length W)%nat → Fips.next_word (P ++ W) = Fips.next_word W.
Proof.
  intros H. unfold Fips.next_word. rewrite length_app.
  rewrite !app_nth2 by lia.
  assert (∀ k, (length P + length W - k - length P = length W - k)%nat) as Hk by lia.
  by rewrite !Hk.
Qed.
Lemma schedule_app n P W :
  (16 ≤ length W)%nat → Fips.schedule n (P ++ W) = P ++ Fips.schedule n W.
Proof.
  revert W. induction n as [|n IH]; intros W H; [done|]. cbn [Fips.schedule].
  by rewrite next_word_app, <-(assoc_L (++)), IH by len.
Qed.
Lemma schedule_add m n W : Fips.schedule (m + n) W = Fips.schedule n (Fips.schedule m W).
Proof. revert W. induction m as [|m IH]; intros W; [done|]. apply IH. Qed.

Definition words_in (w : window) : list Z :=
  let '(w0, w1, w2, w3, w4, w5, w6, w7, w8, w9, w10, w11, w12, w13, w14, w15) := w in
  [w0; w1; w2; w3; w4; w5; w6; w7; w8; w9; w10; w11; w12; w13; w14; w15].

(** The next sixteen words of the schedule. *)
Definition next_words (W : list Z) : list Z := drop 16 (Fips.schedule 16 W).

Lemma schedule_next n w :
  Fips.schedule (16 + n) (words_in w) =
  words_in w ++ Fips.schedule n (next_words (words_in w)).
Proof.
  assert (Hw : length (words_in w) = 16%nat) by by repeat destruct w as [w ?].
  assert (Hs : Fips.schedule 16 (words_in w) = words_in w ++ next_words (words_in w)
    ∧ length (next_words (words_in w)) = 16%nat) by by repeat destruct w as [w ?].
  destruct Hs as [Hs Hl]. rewrite schedule_add, Hs. apply schedule_app. lia.
Qed.

Lemma add32_comm x y : x ⊞ y = y ⊞ x.
Proof. unfold add32. by rewrite Z.add_comm. Qed.
Lemma add32_assoc x y z : x ⊞ (y ⊞ z) = x ⊞ y ⊞ z.
Proof.
  unfold add32, u32, wrap. rewrite Zplus_mod_idemp_l, Zplus_mod_idemp_r. f_equal. lia.
Qed.

(** The schedule in the order the code adds. *)
Definition code_word (W : list Z) : Z :=
  let t := length W in
  nth (t - 16) W 0 ⊞ (sigma1 (nth (t - 2) W 0) ⊞ nth (t - 7) W 0 ⊞ sigma0 (nth (t - 15) W 0)).
Fixpoint code_schedule (n : nat) (W : list Z) : list Z :=
  match n with
  | O => W
  | S n => code_schedule n (W ++ [code_word W])
  end.
Lemma code_schedule_fips n W : Fips.schedule n W = code_schedule n W.
Proof.
  revert W. induction n as [|n IH]; intros W; [done|]. cbn [Fips.schedule code_schedule].
  rewrite IH. do 3 f_equal. apply add32_comm.
Qed.

(** Computes the words of the schedule and the bodies in the goal. *)
Ltac expand_words :=
  unfold next_words; rewrite ?code_schedule_fips;
  cbv [words_in code_schedule code_word app length Nat.sub nth drop take Fips.K
       Transform_0_15 Transform_16_31 Transform_32_47 Transform_48_63].

(** Runs the next round on both sides of the goal. *)
Ltac run_round :=
  rewrite rounds_cons;
  match goal with
  | |- context [Round ?a ?b ?c ?d ?e ?f ?g ?h ?k ?w] =>
      destruct (Round a b c d e f g h k w) as [??]; cbv beta iota
  end.

Ltac split_state r w :=
  destruct r as [[[[[[[? ?] ?] ?] ?] ?] ?] ?];
  destruct w as [[[[[[[[[[[[[[[? ?] ?] ?] ?] ?] ?] ?] ?] ?] ?] ?] ?] ?] ?] ?].

Lemma Transform_16_31_fips r w :
  let '(r', w') := Transform_16_31 r w in
  r' = Fips.rounds (take 16 (drop 16 Fips.K)) (next_words (words_in w)) r ∧
  words_in w' = next_words (words_in w).
Proof. split_state r w. expand_words. do 16 run_round. split; reflexivity. Qed.

Lemma Transform_32_47_fips r w :
  let '(r', w') := Transform_32_47 r w in
  r' = Fips.rounds (take 16 (drop 32 Fips.K)) (next_words (words_in w)) r ∧
  words_in w' = next_words (words_in w).
Proof. split_state r w. expand_words. do 16 run_round. split; reflexivity. Qed.

(** The last two words are summed in the order of the code. *)
Lemma Transform_48_63_fips r w :
  Transform_48_63 r w = Fips.rounds (drop 48 Fips.K) (next_words (words_in w)) r.
Proof.
  split_state r w. expand_words. do 14 run_round.
  rewrite !add32_assoc. do 2 run_round. reflexivity.
Qed.

Section theory.
Context `{Intx}.

Lemma Transform_0_15_fips r chunk :
  length chunk = 64%nat →
  let '(r', w') := Transform_0_15 r chunk in
  r' = Fips.rounds (take 16 Fips.K) (Fips.block_words 16 chunk) r ∧
  words_in w' = Fips.block_words 16 chunk.
Proof.
  intros Hc. destruct r as [[[[[[[a b] c] d] e] f] g] h].
  cbn [Fips.block_words]. rewrite !drop_drop. cbn [Nat.add].
  assert (Hw : ∀ k, (k + 4 ≤ 64)%nat →
    load_big_u32 (drop k chunk) = be_value (take 4 (drop k chunk))).
  { intros k Hk. apply intx_be_load_spec. len. }
  unfold Transform_0_15. rewrite !Hw by lia. rewrite drop_0.
  cbv [take Fips.K].
  do 16 run_round. split; reflexivity.
Qed.

Lemma words_in_length w : length (words_in w) = 16%nat.
Proof. by repeat destruct w as [w ?]. Qed.
Lemma next_words_length w : length (next_words (words_in w)) = 16%nat.
Proof. by repeat destruct w as [w ?]. Qed.

(** The schedule is the four windows the code goes through. *)
Lemma schedule_windows w w1 w2 :
  words_in w1 = next_words (words_in w) → words_in w2 = next_words (words_in w1) →
  Fips.schedule 48 (words_in w) =
  words_in w ++ words_in w1 ++ words_in w2 ++ next_words (words_in w2).
Proof.
  intros H1 H2. rewrite (schedule_next 32), <-H1, (schedule_next 16), <-H2.
  by rewrite (schedule_next 0).
Qed.

Lemma Transform_fips s chunk :
  length chunk = 64%nat → Transform s chunk = Fips.compress s chunk.
Proof.
  intros Hc. unfold Transform, Fips.compress.
  pose proof (Transform_0_15_fips s chunk Hc) as H0.
  destruct (Transform_0_15 s chunk) as [r0 w0]. destruct H0 as [-> H0].
  pose proof (Transform_16_31_fips (Fips.rounds (take 16 Fips.K) (Fips.block_words 16 chunk) s) w0) as H1.
  destruct (Transform_16_31 _ w0) as [r1 w1]. destruct H1 as [-> H1].
  match goal with |- context [Transform_32_47 ?r w1] =>
    pose proof (Transform_32_47_fips r w1) as H2; destruct (Transform_32_47 r w1) as [r2 w2] end.
  destruct H2 as [-> H2].
  rewrite Transform_48_63_fips, <-H2, <-H1, <-H0, (schedule_windows w0 w1 w2) by done.
  change Fips.K with (take 16 Fips.K ++ take 16 (drop 16 Fips.K) ++ take 16 (drop 32 Fips.K)
    ++ drop 48 Fips.K) at 5.
  by rewrite !rounds_app by (rewrite words_in_length; done).
Qed.

(** ** The buffered class *)

(** The object has absorbed [msg]. *)
Definition has_absorbed (msg : list byte) (this : Sha256Old) : Prop :=
  absorbed Fips.compress 64 Initialize msg (s this) (buf this)
    (Z.to_nat (bytes this mod 64)) (bytes this).

Lemma compress_Transform s chunk :
  length chunk = 64%nat → Transform s chunk = Fips.compress s chunk.
Proof. apply Transform_fips. Qed.

Lemma new_absorbed b : length b = 64%nat → has_absorbed [] (new_Sha256Old b).
Proof. intros Hb. by apply absorbed_init; [lia|]. Qed.

Lemma offset_of_bytes (msg : list byte) :
  u64 (Z.of_nat (length msg)) mod 64 = Z.of_nat (length msg mod 64).
Proof. apply (u64_mod_block 64); [by exists (2 ^ 58)|lia]. Qed.

(** [has_absorbed] with the offset as the message gives it. *)
Lemma has_absorbed_iff msg this :
  has_absorbed msg this ↔
  absorbed Fips.compress 64 Initialize msg (s this) (buf this) (length msg mod 64) (bytes this).
Proof.
  unfold has_absorbed. split; intros Ha; pose proof (absorbed_total _ _ _ _ _ _ _ _ Ha) as Ht.
  - rewrite Ht, offset_of_bytes, Nat2Z.id in Ha. by rewrite Ht.
  - rewrite Ht, offset_of_bytes, Nat2Z.id. by rewrite Ht in Ha.
Qed.

Lemma Write_chunks_absorbed fuel msg this data :
  has_absorbed msg this → (length msg mod 64 = 0)%nat → (length data ≤ fuel)%nat →
  let '(this', rest) := Write_chunks fuel this data in
  ∃ blocks, data = blocks ++ rest ∧ has_absorbed (msg ++ blocks) this' ∧
    (length (msg ++ blocks) mod 64 = 0)%nat ∧ (length rest < 64)%nat.
Proof.
  revert msg this data. induction fuel as [|fuel IH]; intros msg this data Ha Hm Hf; cbn [Write_chunks].
  - exists []. rewrite app_nil_r. split_and!; [done|done|done|lia].
  - destruct (Nat.leb_spec 64 (length data)) as [Hle|Hlt].
    + set (this1 := mk_Sha256Old _ _ _).
      assert (Ha1 : has_absorbed (msg ++ take 64 data) this1).
      { apply has_absorbed_iff in Ha. rewrite Hm in Ha. apply has_absorbed_iff.
        unfold this1. cbn [s buf bytes]. rewrite Transform_fips by len.
        replace (length (msg ++ take 64 data) mod 64)%nat with O.
        - apply (absorbed_block _ 64); [lia|done|len].
        - rewrite length_app, length_take, Nat.min_l by lia. dlia. }
      assert (Hm1 : (length (msg ++ take 64 data) mod 64 = 0)%nat).
      { rewrite length_app, length_take, Nat.min_l by lia. dlia. }
      specialize (IH _ this1 (drop 64 data) Ha1 Hm1 ltac:(len)).
      fold this1. revert IH.
      destruct (Write_chunks fuel this1 (drop 64 data)) as [this' rest].
      intros (blocks & Hd & Ha' & Hm' & Hr). exists (take 64 data ++ blocks).
      rewrite <-(assoc_L (++)), <-Hd, take_drop, (assoc_L (++)). done.
    + exists []. rewrite app_nil_r. done.
Qed.

(** The end of [Write]: what the loop leaves is copied to the buffer. *)
Lemma Write_leftover msg this data :
  has_absorbed msg this → (length msg mod 64 + length data < 64)%nat →
  has_absorbed (msg ++ data)
    (if (0 <? length data)%nat then
       mk_Sha256Old (s this) (blit (length msg mod 64) data (buf this))
         (u64 (bytes this + Z.of_nat (length data)))
     else this).
Proof.
  intros Ha Hlt. destruct (Nat.ltb_spec 0 (length data)) as [|Hz].
  - apply has_absorbed_iff in Ha. apply has_absorbed_iff. cbn [s buf bytes].
    replace (length (msg ++ data) mod 64)%nat with (length msg mod 64 + length data)%nat
      by (rewrite length_app; dlia).
    by apply absorbed_copy; [lia|..].
  - destruct data; [by rewrite app_nil_r|simpl in Hz; lia].
Qed.

Lemma Write_absorbed msg this data :
  has_absorbed msg this → Z.of_nat (length data) < 2 ^ 63 →
  has_absorbed (msg ++ data) (Write this data).
Proof.
  intros Ha Hlen. unfold Write.
  pose proof (absorbed_total _ _ _ _ _ _ _ _ Ha) as Ht.
  assert (Ho : bytes this mod 64 = Z.of_nat (length msg mod 64))
    by (rewrite Ht; apply offset_of_bytes).
  rewrite Ho. set (off := (length msg mod 64)%nat) in *.
  assert (Hoff : (off < 64)%nat) by (unfold off; dlia).
  assert (u64 (Z.of_nat off + Z.of_nat (length data)) = Z.of_nat off + Z.of_nat (length data)) as ->
    by (apply wrap_small; unfold in_range; const_pows; lia).
  destruct (negb _ && _) eqn:Hc.
  - (* the buffer is completed first *)
    apply andb_true_iff in Hc as [Hc1 Hc2].
    assert (Hd : (64 - off ≤ length data)%nat) by lia.
    replace (Z.to_nat (64 - Z.of_nat off)) with (64 - off)%nat by lia.
    rewrite Nat2Z.id.
    set (this1 := mk_Sha256Old _ _ _).
    assert (Hm1 : (length (msg ++ take (64 - off) data) mod 64 = 0)%nat).
    { rewrite length_app, length_take, Nat.min_l by lia. unfold off in *. dlia. }
    assert (Ha1 : has_absorbed (msg ++ take (64 - off) data) this1).
    { apply has_absorbed_iff in Ha. apply has_absorbed_iff. rewrite Hm1.
      unfold this1. cbn [s buf bytes]. rewrite Transform_fips.
      - replace (64 - Z.of_nat off) with (Z.of_nat (length (take (64 - off) data))) by len.
        apply (absorbed_fill _ 64); [lia|done|len].
      - destruct Ha as [_ Hb _ _]. rewrite length_blit; len. }
    pose proof (Write_chunks_absorbed (length (drop (64 - off) data)) _ this1
      (drop (64 - off) data) Ha1 Hm1 ltac:(lia)) as Hw.
    destruct (Write_chunks _ this1 _) as [this' rest].
    destruct Hw as (blocks & Hd' & Ha' & Hm' & Hr).
    pose proof (Write_leftover _ this' rest Ha') as Hl. rewrite Hm' in Hl.
    rewrite <-(take_drop (64 - off) data) at 1. rewrite Hd', !(assoc_L (++)).
    by apply Hl.
  - (* the buffer is empty or not completed *)
    destruct (decide (off = 0)%nat) as [H0|H0].
    + pose proof (Write_chunks_absorbed (length data) _ this data Ha H0 ltac:(lia)) as Hw.
      destruct (Write_chunks _ this _) as [this' rest].
      destruct Hw as (blocks & Hd' & Ha' & Hm' & Hr).
      pose proof (Write_leftover _ this' rest Ha') as Hl. rewrite Hm' in Hl.
      rewrite Hd', (assoc_L (++)), H0. by apply Hl.
    + assert (Hd : (off + length data < 64)%nat).
      { apply andb_false_iff in Hc as [Hc|Hc]; lia. }
      pose proof (Write_leftover _ this data Ha Hd) as Hl.
      replace (Write_chunks (length data) this data) with (this, data).
      2: { destruct (length data) eqn:E; cbn [Write_chunks]; [done|].
           by rewrite E, (proj2 (Nat.leb_gt _ _)) by lia. }
      by rewrite Nat2Z.id.
Qed.
Lemma store_words_fips r : store_words store_big_u32 r = Fips.digest r.
Proof.
  destruct r as [[[[[[[? ?] ?] ?] ?] ?] ?] ?]. unfold store_words, store_big_u32.
  rewrite !intx_be_store_spec. cbn [Fips.digest fmap list_fmap concat]. by rewrite app_nil_r.
Qed.

(** The initial value of the code is the one of the standard. *)
Lemma Initialize_fips : Initialize = Fips.H0.
Proof. reflexivity. Qed.

Lemma pad_length k : (length (take k pad) ≤ 64)%nat.
Proof. rewrite length_take. change (length pad) with 64%nat. lia. Qed.

(** What [Finalize] writes is the padding of the standard. *)
Lemma Finalize_padding msg this :
  has_absorbed msg this →
  md_padding 64 8 (be_bytes 8) (length msg) =
  take (Z.to_nat (1 + u64 (119 - bytes this mod 64) mod 64)) pad
  ++ store_big_u64 (u64 (Z.shiftl (bytes this) 3)).
Proof.
  intros Ha. rewrite (absorbed_total _ _ _ _ _ _ _ _ Ha), offset_of_bytes.
  rewrite (md_padding_code 64 8 63) by (lia || apply (be_bytes_wrap 8)).
  unfold store_big_u64. rewrite intx_be_store_spec.
  assert (length msg mod 64 < 64)%nat by dlia.
  assert (u64 (119 - Z.of_nat (length msg mod 64)) = 119 - Z.of_nat (length msg mod 64)) as ->
    by (apply wrap_small; unfold in_range; const_pows; lia).
  done.
Qed.

Lemma Finalize_absorbed msg this :
  has_absorbed msg this → (Finalize this).2 = Return (Fips.sha256 msg).
Proof.
  intros Ha. unfold Finalize, FinalizeNoPadding, Fips.sha256.
  cbn [snd andb]. rewrite store_words_fips, <-Initialize_fips. do 2 f_equal.
  eapply absorbed_padded. rewrite (Finalize_padding msg this Ha), (assoc_L (++)).
  apply Write_absorbed; [apply Write_absorbed; [exact Ha|]|].
  - pose proof (pad_length (Z.to_nat (1 + u64 (119 - bytes this mod 64) mod 64))).
    const_pows. lia.
  - unfold store_big_u64. rewrite intx_be_store_spec, length_be_bytes. done.
Qed.

Lemma Writes_absorbed chunks msg this :
  has_absorbed msg this →
  Forall (λ data : list byte, Z.of_nat (length data) < 2 ^ 63) chunks →
  has_absorbed (msg ++ concat chunks) (fold_left Write chunks this).
Proof.
  intros Ha Hc. revert msg this Ha. induction Hc as [|data chunks Hd Hc IH]; intros msg this Ha.
  - simpl. by rewrite app_nil_r.
  - simpl. rewrite (assoc_L (++)). apply IH. by apply Write_absorbed.
Qed.

(** C8: The unrolled compression, with its sixteen words updated in place and
    its registers renamed instead of rotated, is the compression function of
    FIPS 180-4 on every state and every 64-byte chunk. *)
Theorem transform_is_fips (r : regs) (chunk : list byte) :
  length chunk = 64%nat → Transform r chunk = Fips.compress r chunk.
Proof. apply Transform_fips. Qed.

(** C9: Whatever the object was used for before and whatever its buffer holds,
    after [Reset] any sequence of [Write]s, cut anywhere, and [Finalize] give
    the SHA-256 digest of the concatenated data; so does a new object. *)
Theorem sha256_old_digest (this : Sha256Old) (chunks : list (list byte)) :
  length (buf this) = 64%nat →
  Forall (λ data : list byte, Z.of_nat (length data) < 2 ^ 63) chunks →
  (Finalize (fold_left Write chunks (Reset this))).2 = Return (Fips.sha256 (concat chunks)) ∧
  (Finalize (fold_left Write chunks (new_Sha256Old (buf this)))).2
  = Return (Fips.sha256 (concat chunks)).
Proof.
  intros Hb Hc. assert (Ha : has_absorbed [] (new_Sha256Old (buf this))) by by apply new_absorbed.
  split; apply Finalize_absorbed; by apply (Writes_absorbed chunks []).
Qed.
End theory.

Lemma transform_is_fips_witness :
  let _ := intx_reference in
  Transform Initialize (replicate 64 Byte.x61) = Fips.compress Initialize (replicate 64 Byte.x61).
Proof. apply (transform_is_fips (H := intx_reference)). reflexivity. Defined.

Lemma sha256_old_digest_witness :
  let H := intx_reference in
  (Finalize (fold_left Write [chars "a"; chars "bc"] (new_Sha256Old (replicate 64 Byte.xff)))).2
  = Return (Fips.sha256 (chars "abc")).
Proof.
  apply (sha256_old_digest (H := intx_reference)
    (mk_Sha256Old Initialize (replicate 64 Byte.xff) 7) [chars "a"; chars "bc"]);
    [reflexivity|repeat constructor].
Defined.

(** The test vector of FIPS 180-4 for "abc". *)
Example sha256_abc :
  Fips.sha256 (chars "abc") =
  be_bytes 32 0xba7816bf8f01cfea414140de5dae2223b00361a396177a9cb410ff61f20015ad.
Proof. vm_compute. reflexivity. Qed.
