(* ===== verification/Containers.v ===== *)
(** * Containers

    Models [src/zen/core/common/object_pool.hpp] (Module [ObjectPool]) and
    [capped_set.hpp] (Module [CappedSet]). The set under a [CappedSet] is a
    [std::unordered_set] with what the C++ standard says of its iterators:
    an insertion that needs more buckets invalidates all of them. *)
From S2P Require Import Prelude.
From stdpp Require Import gmap.
Local Open Scope nat_scope.

Module ObjectPool.
Section code.
Context {T : Type}.

(** The stack of the pooled objects, top first; the mutex that guards it in a
    thread-safe pool has no content in one thread. *)
Definition pool : Type := list T.
Definition new_pool : pool := [].
Definition add (t : T) (pool_ : pool) : pool := t :: pool_.
Definition acquire (pool_ : pool) : option T * pool :=
  match pool_ with
  | [] => (None, pool_)
  | t :: pool_ => (Some t, pool_)
  end.
Definition pool_empty (pool_ : pool) : bool := match pool_ with [] => true | _ => false end.
Definition pool_size (pool_ : pool) : nat := length pool_.
End code.
Arguments pool : clear implicits.

(** The operations of a client, and the objects it is handed. *)
Inductive op (T : Type) := Add (t : T) | Acquire.
Arguments Add {T} _.
Arguments Acquire {T}.

Definition run {T} (p : pool T) (o : op T) : pool T * list T :=
  match o with
  | Add t => (add t p, [])
  | Acquire => let '(r, p) := acquire p in (p, option_list r)
  end.
Fixpoint runs {T} (p : pool T) (os : list (op T)) : pool T * list T :=
  match os with
  | [] => (p, [])
  | o :: os => let '(p, out) := run p o in let '(p, outs) := runs p os in (p, out ++ outs)
  end.
Definition added {T} (os : list (op T)) : list T :=
  omap (λ o, match o with Add t => Some t | Acquire => None end) os.

(** The pool neither loses nor duplicates an object, nor invents one: what
    it handed out and what it holds are together what was in it and what was
    added; and an object added is the next one acquired. *)
Theorem pool_conserves {T} (p : pool T) (os : list (op T)) (t : T) :
  (let '(p', outs) := runs p os in outs ++ p' ≡ₚ added os ++ p) ∧
  acquire (add t p) = (Some t, p) ∧ pool_size (add t p) = S (pool_size p) ∧ pool_empty (add t p) = false.
Proof.
  split; [|done]. revert p. induction os as [|[u|] os IH]; intros p; cbn [runs run]; [done|..].
  - specialize (IH (add u p)). destruct (runs (add u p) os) as [p' outs]. cbn.
    rewrite IH. unfold add. by rewrite Permutation_middle.
  - unfold acquire. destruct p as [|u p].
    + specialize (IH []). by destruct (runs [] os) as [p' outs].
    + specialize (IH p). destruct (runs p os) as [p' outs]. cbn.
      by rewrite IH, Permutation_middle.
Qed.
End ObjectPool.

Module CappedSet.
Section code.
Context {T : Type} `{Countable T}.

(** [std::unordered_set]: its elements, its bucket count, and how many times
    its iterators were invalidated; the load factor is the default, one. A new
    set has few buckets (none or one in the usual libraries) and gets more as
    it grows. *)
Record unordered_set := mk_uset { elems : gset T; buckets : nat; epoch : nat }.

(** An iterator points to an element and is valid in one epoch. *)
Definition iterator : Type := T * nat.

(** The bucket count the library takes when it needs room for [n] elements,
    and whether its iterators stay valid in the new table. The standard says
    that they do not; in the usual libraries an iterator is a pointer to a node
    the new table takes over. *)
Context (grow : nat → nat) (keeps : bool).

Definition uset_insert (s : unordered_set) (x : T) : unordered_set * iterator :=
  let n := S (base.size (elems s)) in
  let s := if n <=? buckets s then s else mk_uset (elems s) (grow n) (if keeps then epoch s else S (epoch s)) in
  (mk_uset ({[x]} ∪ elems s) (buckets s) (epoch s), (x, epoch s)).

Definition uset_erase (s : unordered_set) (it : iterator) : outcome Empty_set unordered_set :=
  if it.2 =? epoch s then Return (mk_uset (elems s ∖ {[it.1]}) (buckets s) (epoch s))
  else Undefined.

Definition uset_clear (s : unordered_set) : unordered_set := mk_uset ∅ (buckets s) (S (epoch s)).

Record CappedSet := mk_CappedSet {
  capacity_ : nat;
  items_ : unordered_set;
  items_queue_ : list iterator
}.

(** [b0] is the bucket count of a new [std::unordered_set]. *)
Definition new_CappedSet (b0 capacity : nat) : outcome Empty_set CappedSet :=
  if 0 <? capacity then Return (mk_CappedSet capacity (mk_uset ∅ b0 0) []) else Abort.

Definition insert (this : CappedSet) (item : T) : outcome Empty_set (CappedSet * bool) :=
  if decide (item ∈ elems (items_ this)) then Return (this, false) else
  this ← (if base.size (elems (items_ this)) =? capacity_ this then
            match items_queue_ this with
            | [] => Undefined
            | front :: items_queue_ =>
                items ← uset_erase (items_ this) front;
                Return (mk_CappedSet (capacity_ this) items items_queue_)
            end
          else Return this);
  let '(items, ret) := uset_insert (items_ this) item in
  Return (mk_CappedSet (capacity_ this) items (items_queue_ this ++ [ret]), true).

Definition contains (this : CappedSet) (item : T) : bool :=
  bool_decide (item ∈ elems (items_ this)).
Definition capacity (this : CappedSet) : nat := capacity_ this.
Definition capped_size (this : CappedSet) : nat := base.size (elems (items_ this)).
Definition capped_empty (this : CappedSet) : bool := capped_size this =? 0.
Definition capped_clear (this : CappedSet) : CappedSet :=
  mk_CappedSet (capacity_ this) (uset_clear (items_ this)) [].
Definition equal (lhs rhs : CappedSet) : bool :=
  bool_decide (elems (items_ lhs) = elems (items_ rhs)).

(** ** The first-in first-out specification *)

Inductive op := Insert (x : T) | Contains (x : T) | Size | Clear.
Inductive answer := Inserted (b : bool) | Found (b : bool) | Count (n : nat) | Cleared.

Definition run (this : CappedSet) (o : op) : outcome Empty_set (CappedSet * answer) :=
  match o with
  | Insert x => '(this, b) ← insert this x; Return (this, Inserted b)
  | Contains x => Return (this, Found (contains this x))
  | Size => Return (this, Count (capped_size this))
  | Clear => Return (capped_clear this, Cleared)
  end.
Fixpoint runs (this : CappedSet) (os : list op) : outcome Empty_set (CappedSet * list answer) :=
  match os with
  | [] => Return (this, [])
  | o :: os =>
      '(this, a) ← run this o; '(this, l) ← runs this os; Return (this, a :: l)
  end.

(** The distinct elements in the order of insertion, at most [cap] of them. *)
Definition spec_step (cap : nat) (q : list T) (o : op) : list T * answer :=
  match o with
  | Insert x =>
      if decide (x ∈ q) then (q, Inserted false)
      else ((if length q =? cap then tail q else q) ++ [x], Inserted true)
  | Contains x => (q, Found (bool_decide (x ∈ q)))
  | Size => (q, Count (length q))
  | Clear => ([], Cleared)
  end.
Fixpoint spec_steps (cap : nat) (q : list T) (os : list op) : list T * list answer :=
  match os with
  | [] => (q, [])
  | o :: os =>
      let '(q, a) := spec_step cap q o in
      let '(q, l) := spec_steps cap q os in (q, a :: l)
  end.

(** How many elements a sequence inserts, counting repetitions. *)
Fixpoint inserts (os : list op) : nat :=
  match os with
  | [] => 0
  | Insert _ :: os => S (inserts os)
  | _ :: os => inserts os
  end.

(** The set holds the elements of the queue [q]. *)
Record keeps_elems (q : list T) (this : CappedSet) : Prop := {
  keeps_set : elems (items_ this) = list_to_set q;
  keeps_nodup : NoDup q;
  keeps_bound : length q ≤ capacity_ this
}.

(** The set holds the queue [q] of elements, each with a valid iterator, and
    either has buckets for its capacity or need not care. *)
Record holds (q : list T) (this : CappedSet) : Prop := {
  holds_elems : keeps_elems q this;
  holds_queue : items_queue_ this = (λ x, (x, epoch (items_ this))) <$> q;
  holds_capacity : 0 < capacity_ this;
  holds_buckets : keeps = true ∨ capacity_ this ≤ buckets (items_ this)
}.

Lemma keeps_size q this : keeps_elems q this → base.size (elems (items_ this)) = length q.
Proof. intros Hh. rewrite (keeps_set _ _ Hh). apply size_list_to_set, Hh. Qed.

Lemma keeps_in q this x : keeps_elems q this → x ∈ elems (items_ this) ↔ x ∈ q.
Proof. intros Hh. rewrite (keeps_set _ _ Hh). apply elem_of_list_to_set. Qed.

Lemma list_to_set_snoc (q : list T) x : list_to_set (C := gset T) (q ++ [x]) = {[x]} ∪ list_to_set q.
Proof. rewrite list_to_set_app_L. cbn. by rewrite union_empty_r_L, union_comm_L. Qed.
Lemma NoDup_snoc (q : list T) x : NoDup q → x ∉ q → NoDup (q ++ [x]).
Proof.
  intros Hq Hx. rewrite <-Permutation_cons_append. by constructor.
Qed.
Lemma list_to_set_tail (q : list T) y :
  y ∉ q → list_to_set (C := gset T) (y :: q) ∖ {[y]} = list_to_set q.
Proof.
  intros Hy. cbn. rewrite difference_union_distr_l_L, difference_diag_L, union_empty_l_L.
  apply difference_disjoint_L, disjoint_singleton_r. by rewrite elem_of_list_to_set.
Qed.

(** Insertion into the table, whether it grows or not. *)
Lemma uset_insert_elems s x : elems (uset_insert s x).1 = {[x]} ∪ elems s.
Proof. unfold uset_insert. by case_match. Qed.

(** Without eviction nothing but the elements matters. *)
Lemma insert_room q this x :
  keeps_elems q this → x ∈ q ∨ length q < capacity_ this →
  ∃ this', insert this x = Return (this', bool_decide (x ∉ q)) ∧
    capacity_ this' = capacity_ this ∧
    keeps_elems (spec_step (capacity_ this) q (Insert x)).1 this' ∧
    if decide (x ∈ q) then this' = this
    else this' = mk_CappedSet (capacity_ this) (uset_insert (items_ this) x).1
                   (items_queue_ this ++ [(uset_insert (items_ this) x).2]).
Proof.
  intros Hk Hroom. pose proof (keeps_in q this x Hk) as Hin. pose proof Hk as [He Hnd Hb].
  unfold insert. cbn [spec_step]. destruct (decide (x ∈ q)) as [Hx|Hx].
  - rewrite decide_True by by apply Hin. exists this. by rewrite bool_decide_false by auto.
  - rewrite decide_False by by rewrite Hin.
    rewrite bool_decide_true, (keeps_size q this Hk), (proj2 (Nat.eqb_neq _ _)) by (done || naive_solver lia).
    cbn [mbind outcome_bind]. pose proof (uset_insert_elems (items_ this) x) as Hu.
    destruct (uset_insert (items_ this) x) as [items ret]. cbn [fst snd] in *.
    eexists. split; [done|]. split; [done|]. split; [|done].
    split; cbn.
    + by rewrite Hu, list_to_set_snoc, He.
    + by apply NoDup_snoc.
    + rewrite length_app. cbn. naive_solver lia.
Qed.

(** Inserting one element where another was erased or there is a bucket left
    invalidates no iterator. *)
Lemma uset_insert_epoch s x :
  keeps = true ∨ S (base.size (elems s)) ≤ buckets s →
  (uset_insert s x).2 = (x, epoch s) ∧ epoch (uset_insert s x).1 = epoch s ∧
  (keeps = true ∨ buckets (uset_insert s x).1 = buckets s).
Proof.
  intros Hr. unfold uset_insert. destruct (Nat.leb_spec (S (base.size (elems s))) (buckets s)); cbn.
  - auto.
  - destruct Hr as [->|?]; [auto|lia].
Qed.

Lemma insert_holds q this x :
  holds q this →
  ∃ this', insert this x = Return (this', bool_decide (x ∉ q)) ∧
    capacity_ this' = capacity_ this ∧
    holds (spec_step (capacity_ this) q (Insert x)).1 this'.
Proof.
  intros Hh. pose proof Hh as [Hk Hq Hc Hbk]. pose proof (keeps_size q this Hk) as Hsz.
  pose proof Hk as [He Hnd Hb].
  destruct (decide (x ∈ q ∨ length q < capacity_ this)) as [Hroom|Hfull].
  - destruct (insert_room q this x Hk Hroom) as (this' & E & Hc' & Hk' & Hs).
    exists this'. split; [done|]. split; [done|]. split; [done| |congruence|].
    all: cbn [spec_step]; destruct (decide (x ∈ q)) as [Hx|Hx]; subst this'; try done;
      cbn [fst items_queue_ items_ capacity_];
      destruct (uset_insert_epoch (items_ this) x) as (E2 & E1 & E3);
      [rewrite Hsz; naive_solver lia|].
    + rewrite (proj2 (Nat.eqb_neq _ _)) by naive_solver lia. by rewrite E2, E1, fmap_app, Hq.
    + destruct E3 as [|E3]; [by left|rewrite E3; naive_solver].
  - apply Decidable.not_or in Hfull as [Hx Hfull]. assert (Hl : length q = capacity_ this) by lia.
    unfold insert. cbn [spec_step]. rewrite decide_False by by rewrite (keeps_in q this x Hk).
    rewrite decide_False, bool_decide_true, Hsz, Hl, Nat.eqb_refl, Hq by done.
    destruct q as [|y q]; [cbn in *; lia|]. cbn [fmap list_fmap tail].
    unfold uset_erase. cbn [fst snd]. rewrite Nat.eqb_refl.
    cbn [mbind outcome_bind items_ elems buckets epoch capacity_ items_queue_].
    apply NoDup_cons in Hnd as [Hy Hnd]. apply not_elem_of_cons in Hx as [Hxy Hx].
    rewrite He, list_to_set_tail by done. set (s := mk_uset (list_to_set q) _ _).
    pose proof (uset_insert_elems s x) as Hu.
    destruct (uset_insert_epoch s x) as (E2 & E1 & E3).
    { cbn. rewrite size_list_to_set by done. cbn [length] in *. naive_solver lia. }
    destruct (uset_insert s x) as [items ret]. cbn [fst snd] in *. subst ret.
    eexists. split; [done|]. split; [done|]. split; [split|..]; cbn.
    + by rewrite Hu, list_to_set_snoc.
    + by apply NoDup_snoc.
    + rewrite length_app. cbn in *. lia.
    + rewrite fmap_app, E1. done.
    + done.
    + destruct E3 as [|E3]; [by left|rewrite E3; naive_solver].
Qed.

(** An operation on a set for which [R] implies its elements, if insertion
    and clearing preserve [R], is that of the queue. *)
Lemma run_spec q this o :
  keeps_elems q this →
  (∀ x, o = Insert x → ∃ this', insert this x = Return (this', bool_decide (x ∉ q))) →
  ∃ this', run this o = Return (this', (spec_step (capacity_ this) q o).2) ∧
    match o with
    | Insert x => insert this x = Return (this', bool_decide (x ∉ q))
    | Clear => this' = capped_clear this
    | _ => this' = this
    end.
Proof.
  intros Hk Hi. destruct o as [x|x| |]; cbn [run].
  - destruct (Hi x eq_refl) as (this' & E). rewrite E. exists this'. split; [|done]. cbn.
    destruct (decide (x ∈ q)); [by rewrite bool_decide_false by auto|by rewrite bool_decide_true].
  - exists this. split; [|done]. unfold contains.
    by rewrite (bool_decide_ext _ _ (keeps_in q this x Hk)).
  - exists this. split; [|done]. unfold capped_size. by rewrite (keeps_size q this Hk).
  - by exists (capped_clear this).
Qed.

Lemma run_holds q this o :
  holds q this →
  ∃ this', run this o = Return (this', (spec_step (capacity_ this) q o).2) ∧
    capacity_ this' = capacity_ this ∧ holds (spec_step (capacity_ this) q o).1 this'.
Proof.
  intros Hh. destruct (run_spec q this o) as (this' & E & Ho); [apply Hh| |].
  { intros x _. destruct (insert_holds q this x Hh) as (this' & E & _). by exists this'. }
  exists this'. split; [done|]. destruct o as [x|x| |]; subst; try done.
  - destruct (insert_holds q this x Hh) as (this1 & E1 & Hc & Hh1).
    assert (this1 = this') as -> by congruence. done.
  - split; [done|]. destruct Hh as [[] ? ? ?]. split; cbn; try done.
    split; cbn; [done|apply NoDup_nil_2|lia].
Qed.

Lemma run_room q this o :
  keeps_elems q this → length q + inserts [o] ≤ capacity_ this →
  ∃ this', run this o = Return (this', (spec_step (capacity_ this) q o).2) ∧
    capacity_ this' = capacity_ this ∧ keeps_elems (spec_step (capacity_ this) q o).1 this' ∧
    length (spec_step (capacity_ this) q o).1 ≤ length q + inserts [o].
Proof.
  intros Hk Hr. destruct (run_spec q this o Hk) as (this' & E & Ho).
  { intros x ->. cbn in Hr. destruct (insert_room q this x Hk) as (this' & E & _); [right; lia|].
    by exists this'. }
  exists this'. split; [done|]. destruct o as [x|x| |]; subst; cbn [inserts] in *.
  - destruct (insert_room q this x Hk) as (this1 & E1 & Hc & Hk1 & _); [right; lia|].
    assert (this1 = this') as -> by congruence. split; [done|]. split; [done|].
    cbn [spec_step]. destruct (decide (x ∈ q)); cbn; [lia|].
    rewrite (proj2 (Nat.eqb_neq _ _)) by lia. rewrite length_app. cbn. lia.
  - split; [done|]. split; [done|]. cbn. lia.
  - split; [done|]. split; [done|]. cbn. lia.
  - split; [done|]. split; [|cbn; lia]. destruct Hk. split; cbn; [done|apply NoDup_nil_2|lia].
Qed.

(** ** When the table has to grow *)

(** [l] was inserted without eviction; the front of the queue was made in
    epoch [e1], when there were [b1] buckets. *)
Record filling (b1 : nat) (l : list T) (this : CappedSet) : Prop := {
  filling_elems : elems (items_ this) = list_to_set l;
  filling_nodup : NoDup l;
  filling_front : ∃ x e1 queue, items_queue_ this = (x, e1) :: queue ∧
    e1 ≤ epoch (items_ this) ∧
    (epoch (items_ this) = e1 → buckets (items_ this) = b1 ∧ length l ≤ b1)
}.

Lemma filling_insert b1 l this x :
  keeps = false → filling b1 l this → x ∉ l → length l < capacity_ this →
  ∃ this', insert this x = Return (this', true) ∧ filling b1 (l ++ [x]) this' ∧
    capacity_ this' = capacity_ this.
Proof.
  intros Hkeeps [He Hnd (y & e1 & queue & Hq & Hle & Hb)] Hx Hlt. unfold insert.
  assert (Hsz : base.size (elems (items_ this)) = length l)
    by (rewrite He; by apply size_list_to_set).
  rewrite decide_False by by rewrite He, elem_of_list_to_set.
  rewrite Hsz, (proj2 (Nat.eqb_neq _ _)) by lia. cbn [mbind outcome_bind].
  unfold uset_insert. rewrite Hsz, Hkeeps. eexists. split; [done|]. split; [|done].
  split; [|by apply NoDup_snoc|].
  { destruct (S (length l) <=? buckets (items_ this)); cbn; by rewrite list_to_set_snoc, He. }
  cbn [items_queue_ items_]. rewrite Hq. exists y, e1. eexists. split; [reflexivity|].
  rewrite length_app. cbn [length].
  destruct (Nat.leb_spec (S (length l)) (buckets (items_ this))); cbn.
  - split; [done|]. intros E. apply Hb in E as [Eb _]. split; [done|lia].
  - split; [lia|]. intros E. lia.
Qed.

Lemma filling_inserts b1 l l' this :
  keeps = false → filling b1 l this → NoDup (l ++ l') → length (l ++ l') ≤ capacity_ this →
  ∃ this' ans, runs this (Insert <$> l') = Return (this', ans) ∧ filling b1 (l ++ l') this' ∧
    capacity_ this' = capacity_ this.
Proof.
  intros Hkeeps. revert l this. induction l' as [|x l' IH]; intros l this Hf Hnd Hlen.
  - rewrite app_nil_r in *. by exists this, [].
  - rewrite cons_middle, (assoc_L (++)) in *.
    apply NoDup_app in Hnd as Hnd'. destruct Hnd' as (Hnd1 & _ & _).
    apply NoDup_app in Hnd1 as (_ & Hx & _).
    destruct (filling_insert b1 l this x Hkeeps Hf) as (this1 & E & Hf1 & Hc1).
    { intros Hin. by apply (Hx x Hin), list_elem_of_singleton. }
    { rewrite !length_app in Hlen. cbn in Hlen. lia. }
    destruct (IH (l ++ [x]) this1 Hf1 Hnd) as (this' & ans & E' & Hf' & Hc'); [congruence|].
    exists this', (Inserted true :: ans). cbn. rewrite E. cbn [mbind outcome_bind].
    rewrite E'. split; [done|]. split; [done|congruence].
Qed.

(** By the letter of the C++ standard a capped set may not grow: if its
    capacity exceeds the bucket count after the first insertion, then
    inserting as many distinct elements as its capacity rehashes the table,
    the iterator at the front of its queue is invalid, and the insertion of
    one element more, which erases it, is undefined. *)
Lemma capped_set_rehash (b0 cap : nat) (l : list T) (x : T) :
  keeps = false → (∀ n, n ≤ grow n) → (if 1 <=? b0 then b0 else grow 1) < cap → NoDup (l ++ [x]) → length l = cap →
  ∃ this full ans, new_CappedSet b0 cap = Return this ∧
    runs this (Insert <$> l) = Return (full, ans) ∧ insert full x = Undefined.
Proof.
  intros Hkeeps Hgrow Hb Hnd Hlen. unfold new_CappedSet. rewrite (proj2 (Nat.ltb_lt _ _)) by lia.
  set (b1 := if 1 <=? b0 then b0 else grow 1) in *.
  destruct l as [|y l]; [cbn in Hlen; lia|]. apply NoDup_app in Hnd as Hnd'.
  destruct Hnd' as (Hndl & Hx & _).
  set (this0 := mk_CappedSet cap (mk_uset ∅ b0 0) []).
  assert (H1 : ∃ this1, insert this0 y = Return (this1, true) ∧ capacity_ this1 = cap ∧
    filling b1 [y] this1).
  { unfold insert. rewrite decide_False by (cbn; apply not_elem_of_empty).
    unfold this0. cbn [items_ elems capacity_].
    rewrite size_empty, (proj2 (Nat.eqb_neq _ _)) by lia. cbn [mbind outcome_bind].
    unfold uset_insert. cbn [items_ elems buckets epoch]. rewrite size_empty.
    eexists. split; [done|]. split; [reflexivity|].
    split; [destruct (1 <=? b0); reflexivity|apply NoDup_singleton|].
    cbn [items_queue_ items_]. eexists _, _, []. split; [reflexivity|]. cbn [length].
    unfold b1. specialize (Hgrow 1).
    destruct (Nat.leb_spec 1 b0); cbn; (split; [done|]); intros _; (split; [done|lia]). }
  destruct H1 as (this1 & E1 & Hc1 & Hf1).
  destruct (filling_inserts b1 [y] l this1 Hkeeps Hf1) as (full & ans & E & Hf & Hc);
    [done|cbn in *; lia|].
  exists this0, full, (Inserted true :: ans). split; [done|]. split.
  - cbn. rewrite E1. cbn [mbind outcome_bind]. by rewrite E.
  - cbn [app] in Hf. destruct Hf as [He Hn (z & e1 & queue & Hq & Hle & Hep)].
    unfold insert. rewrite He, decide_False, size_list_to_set, Hlen, Hc, Hc1, Nat.eqb_refl; [|done|].
    + rewrite Hq. unfold uset_erase. cbn [snd]. rewrite (proj2 (Nat.eqb_neq _ _)); [done|].
      intros E2. symmetry in E2. apply Hep in E2 as [_ Hle']. lia.
    + rewrite elem_of_list_to_set. intros Hin. by apply (Hx x Hin), list_elem_of_singleton.
Qed.
(** What a new set answers on a sequence of operations: as the queue, when
    each state reached satisfies [P], which makes the operations those of the
    queue. *)
Lemma runs_spec (P : nat → list T → CappedSet → Prop) os q this :
  (∀ n q this o, P (inserts [o] + n) q this →
     ∃ this', run this o = Return (this', (spec_step (capacity_ this) q o).2) ∧
       capacity_ this' = capacity_ this ∧ P n (spec_step (capacity_ this) q o).1 this') →
  P (inserts os) q this →
  ∃ this', runs this os = Return (this', (spec_steps (capacity_ this) q os).2) ∧
    capacity_ this' = capacity_ this ∧ P 0 (spec_steps (capacity_ this) q os).1 this'.
Proof.
  intros Hstep. revert q this. induction os as [|o os IH]; intros q this Hp; cbn [runs spec_steps].
  { by exists this. }
  assert (Hn : inserts (o :: os) = inserts [o] + inserts os) by by destruct o.
  rewrite Hn in Hp. destruct (Hstep _ q this o Hp) as (this1 & E & Hc & Hp1). rewrite E.
  destruct (spec_step (capacity_ this) q o) as [q1 a]. cbn [fst snd] in *.
  destruct (IH q1 this1 Hp1) as (this' & E' & Hc' & Hp'). rewrite Hc in *.
  exists this'. cbn [mbind outcome_bind]. rewrite E'.
  by destruct (spec_steps (capacity_ this) q1 os) as [q2 l].
Qed.

(** C14: A capped set is a first-in first-out cache, as far as its queue of
    iterators allows. If the library's iterators survive the growth of a table,
    or the table never grows, or no element is evicted (no more insertions than
    the capacity), then every sequence of insertions, look-ups, counts and
    clears answers what the queue of the distinct elements answers, an
    insertion at capacity evicting the oldest one, and the capacity is never
    exceeded. If the iterators do not survive, as the standard has it, and the
    capacity is more than the buckets there are at the first insertion, then
    the first eviction is undefined. *)
Theorem capped_set_fifo (b0 cap : nat) (os : list op) :
  0 < cap →
  (keeps = true ∨ cap ≤ b0 ∨ inserts os ≤ cap →
   ∃ this this', new_CappedSet b0 cap = Return this ∧
     runs this os = Return (this', (spec_steps cap [] os).2) ∧
     elems (items_ this') = list_to_set (spec_steps cap [] os).1 ∧
     capped_size this' = length (spec_steps cap [] os).1 ∧ capped_size this' ≤ cap) ∧
  (keeps = false → (∀ n, n ≤ grow n) → (if 1 <=? b0 then b0 else grow 1) < cap →
   ∀ l x, NoDup (l ++ [x]) → length l = cap →
   ∃ this full ans, new_CappedSet b0 cap = Return this ∧
     runs this (Insert <$> l) = Return (full, ans) ∧ insert full x = Undefined).
Proof.
  intros Hcap. split; [|intros; by apply capped_set_rehash]. intros Hwhen.
  unfold new_CappedSet. rewrite (proj2 (Nat.ltb_lt _ _)) by done. eexists.
  set (this := mk_CappedSet cap (mk_uset ∅ b0 0) []).
  assert (Hk : keeps_elems [] this) by (split; cbn; [done|apply NoDup_nil_2|lia]).
  assert (Hrun : ∃ this', runs this os = Return (this', (spec_steps cap [] os).2) ∧
    capacity_ this' = cap ∧ keeps_elems (spec_steps cap [] os).1 this').
  { destruct Hwhen as [Hw|Hw]; [|destruct Hw as [Hw|Hw]].
    1,2: destruct (runs_spec (λ _, holds) os [] this) as (this' & E & Hc & Hh);
      [intros _; apply run_holds|split; cbn; auto|exists this'; by split_and!; [..|apply Hh]].
    destruct (runs_spec (λ n q this, keeps_elems q this ∧ length q + n ≤ capacity_ this) os [] this)
      as (this' & E & Hc & Hh); [|done|exists this'; by split_and!; [..|apply Hh]].
    intros n q this1 o [Hk1 Hr]. destruct (run_room q this1 o Hk1) as (this2 & E & Hc & Hk2 & Hl); [lia|].
    exists this2. split; [done|]. split; [done|]. split; [done|]. lia. }
  destruct Hrun as (this' & E & Hc & Hk'). exists this'. split; [done|]. split; [done|].
  split; [apply Hk'|]. unfold capped_size. rewrite (keeps_size _ _ Hk'). split; [done|].
  rewrite <-Hc at 2. apply Hk'.
Qed.
End code.
Arguments op : clear implicits.
Arguments answer : clear implicits.

Lemma capped_set_fifo_witness :
  (∃ this this', new_CappedSet (T := nat) 1 2 = Return this ∧
    runs (T := nat) (λ n, n) true this [Insert 1; Insert 2; Insert 3; Contains 1; Size]
    = Return (this', [Inserted true; Inserted true; Inserted true; Found false; Count 2])) ∧
  (∃ this full ans, new_CappedSet (T := nat) 1 2 = Return this ∧
    runs (λ n, n) false this (Insert <$> [1; 2]) = Return (full, ans) ∧
    insert (λ n, n) false full 3 = Undefined).
Proof.
  split.
  - destruct (capped_set_fifo (T := nat) (λ n, n) true 1 2
      [Insert 1; Insert 2; Insert 3; Contains 1; Size]) as [Hf _]; [lia|].
    destruct Hf as (this & this' & Hn & Hr & _); [by left|]. by exists this, this'.
  - destruct (capped_set_fifo (T := nat) (λ n, n) false 1 2 []) as [_ Hu]; [lia|].
    apply Hu; [done|done|cbn; lia| |done]. by apply (bool_decide_unpack _).
Defined.
End CappedSet.
