(* ===== verification/Hasher.v ===== *)
(** * Hashers over OpenSSL

    Models [src/zen/core/crypto/hasher.hpp], [hasher.cpp], [sha_1.cpp],
    [sha_2_256.cpp], [sha_2_512.cpp], [ripemd.cpp], [hash160.cpp],
    [hash256.cpp] and [hmac.hpp]. The contexts of OpenSSL and the functions
    on them are parameters ([Openssl]); the buffering, the padding, the
    digests and the constructions on top of them are the code's. *)
From S2P Require Import Prelude Base MerkleDamgard.
From S2P Require Sha256Old Containers.
Local Open Scope Z_scope.

(** ** OpenSSL *)

(** One family of OpenSSL functions ([SHA1_*], [SHA256_*], ...): a context,
    the state words it holds, and its initialisation, which sets all of it. *)
Class Openssl (Ctx : Type) := {
  ctx_fresh : Ctx;
  ctx_Init : Ctx → Ctx;
  ctx_Transform : Ctx → list byte → Ctx;
  ctx_h : Ctx → nat → Z;
  ctx_Init_any c c' : ctx_Init c = ctx_Init c'
}.

Definition SHA_DIGEST_LENGTH : nat := 20.
Definition SHA_CBLOCK : nat := 64.
Definition SHA256_DIGEST_LENGTH : nat := 32.
Definition SHA256_CBLOCK : nat := 64.
Definition SHA512_DIGEST_LENGTH : nat := 64.
Definition SHA512_CBLOCK : nat := 128.
Definition RIPEMD160_DIGEST_LENGTH : nat := 20.
Definition RIPEMD160_CBLOCK : nat := 64.

(** ** The base class *)

(** A constructed hasher: [ctx_] is never null after the constructor. *)
Record Hasher (Ctx : Type) := mk_Hasher {
  digest_size_ : nat;
  block_size_ : nat;
  buffer_ : list byte;
  buffer_offset_ : nat;
  total_bytes_ : Z;
  ctx_ : Ctx
}.
Arguments mk_Hasher {Ctx} _ _ _ _ _ _.
Arguments digest_size_ {Ctx} _.
Arguments block_size_ {Ctx} _.
Arguments buffer_ {Ctx} _.
Arguments buffer_offset_ {Ctx} _.
Arguments total_bytes_ {Ctx} _.
Arguments ctx_ {Ctx} _.

Section code.
Context {Ctx : Type} `{Openssl Ctx} `{Intx}.
Local Abbreviation Hasher := (Hasher Ctx).

(** [transform], overridden by each class with its OpenSSL function. *)
Definition transform (this : Hasher) (data : list byte) : Hasher :=
  mk_Hasher (digest_size_ this) (block_size_ this) (buffer_ this) (buffer_offset_ this)
    (total_bytes_ this) (ctx_Transform (ctx_ this) data).

Definition set_buffer (this : Hasher) (buffer : list byte) (offset : nat) (total : Z) : Hasher :=
  mk_Hasher (digest_size_ this) (block_size_ this) buffer offset (u64 total) (ctx_ this).

(** The [while (data.size() >= block_size_)] loop: each turn removes
    [block_size_] bytes, so [data.size()] turns are enough. *)
Fixpoint update_chunks (fuel : nat) (this : Hasher) (data : list byte) : Hasher * list byte :=
  match fuel with
  | O => (this, data)
  | S fuel =>
      if (block_size_ this <=? length data)%nat then
        let this := set_buffer this (buffer_ this) (buffer_offset_ this)
                      (total_bytes_ this + Z.of_nat (block_size_ this)) in
        let this := transform this (take (block_size_ this) data) in
        update_chunks fuel this (drop (block_size_ this) data)
      else (this, data)
  end.

Definition update_fill (this : Hasher) (data : list byte) : Hasher * list byte :=
  if (buffer_offset_ this =? 0)%nat then (this, data) else
  let room_size := Nat.min (length (buffer_ this) - buffer_offset_ this) (length data) in
  let buffer := blit (buffer_offset_ this) (take room_size data) (buffer_ this) in
  let data := drop room_size data in
  let this := set_buffer this buffer (buffer_offset_ this + room_size)
                (total_bytes_ this + Z.of_nat room_size) in
  if (buffer_offset_ this =? length (buffer_ this))%nat then
    let this := transform this (buffer_ this) in
    (set_buffer this (buffer_ this) 0 (total_bytes_ this), data)
  else (this, data).

Definition update (this : Hasher) (data : list byte) : Hasher :=
  let '(this, data) := update_fill this data in
  let '(this, data) := update_chunks (length data) this data in
  if (0 <? length data)%nat then
    set_buffer this (blit 0 data (buffer_ this)) (length data)
      (total_bytes_ this + Z.of_nat (length data))
  else this.

(** [init_context] of a hasher that has a context; [init] and [reset] are it. *)
Definition init (this : Hasher) : Hasher :=
  mk_Hasher (digest_size_ this) (block_size_ this) (buffer_ this) 0 0 (ctx_Init (ctx_ this)).

(** The constructor: the context comes from the pool of the thread when it
    has one, as it was left there, and is created otherwise. *)
Definition construct (digest_size block_size : nat) (ctx_pool : list Ctx) : Hasher * list Ctx :=
  let '(ctx, ctx_pool) :=
    match Containers.ObjectPool.acquire ctx_pool with
    | (Some ctx, ctx_pool) => (ctx, ctx_pool)
    | (None, ctx_pool) => (ctx_fresh, ctx_pool)
    end in
  (mk_Hasher digest_size block_size (replicate block_size Byte.x00) 0 0 (ctx_Init ctx), ctx_pool).

(** The destructor gives the context back. *)
Definition destruct_hasher (this : Hasher) (ctx_pool : list Ctx) : list Ctx :=
  Containers.ObjectPool.add (ctx_ this) ctx_pool.

Definition Sha1 := construct SHA_DIGEST_LENGTH SHA_CBLOCK.
Definition Sha256 := construct SHA256_DIGEST_LENGTH SHA256_CBLOCK.
Definition Sha512 := construct SHA512_DIGEST_LENGTH SHA512_CBLOCK.
Definition Ripemd160 := construct RIPEMD160_DIGEST_LENGTH RIPEMD160_CBLOCK.

(** [init_context] and [transform] as each class defines them. *)
Definition Sha1_init_context : Hasher → Hasher := init.
Definition Sha256_init_context : Hasher → Hasher := init.
Definition Sha512_init_context : Hasher → Hasher := init.
Definition Ripemd160_init_context : Hasher → Hasher := init.

(** The constructors with initial data. *)
Definition Sha1_of_data (pool : list Ctx) (data : list byte) := update (Sha1 pool).1 data.
Definition Sha256_of_data (pool : list Ctx) (data : list byte) := update (Sha256 pool).1 data.
Definition Sha512_of_data (pool : list Ctx) (data : list byte) := update (Sha512 pool).1 data.
Definition Ripemd160_of_data (pool : list Ctx) (data : list byte) := update (Ripemd160 pool).1 data.

(** [static const std::array<uint8_t, block> pad{0x80}] *)
Definition pad (block : nat) : list byte := Byte.x80 :: replicate (block - 1) Byte.x00.

(** The first [1 + ((k - total % block) % block)] bytes of [pad]. *)
Definition pad_view (this : Hasher) (k : Z) : list byte :=
  take (Z.to_nat (1 + u64 (k - total_bytes_ this mod Z.of_nat (block_size_ this))
                      mod Z.of_nat (block_size_ this)))
    (pad (block_size_ this)).

(** Field [i] of the context is stored at [width * i] in [ret]. *)
Definition store_fields (store : Z → list byte) (width n : nat) (this : Hasher) : list byte :=
  fold_left (λ ret i, blit (width * i) (store (ctx_h (ctx_ this) i)) ret) (seq 0 n)
    (replicate (digest_size_ this) Byte.x00).

Definition Sha1_finalize (this : Hasher) : Hasher * list byte :=
  let sizedesc := store_big_u64 (u64 (Z.shiftl (total_bytes_ this) 3)) in
  let this := update this (pad_view this 119) in
  let this := update this sizedesc in
  (this, store_fields store_big_u32 4 5 this).

Definition Sha256_finalize_nopadding (this : Hasher) (compression : bool) :
    outcome Empty_set (list byte) :=
  if compression && negb (total_bytes_ this =? Z.of_nat (block_size_ this)) then Abort
  else Return (store_fields store_big_u32 4 8 this).

Definition Sha256_finalize (this : Hasher) : Hasher * outcome Empty_set (list byte) :=
  let sizedesc := store_big_u64 (u64 (Z.shiftl (total_bytes_ this) 3)) in
  let this := update this (pad_view this 119) in
  let this := update this sizedesc in
  (this, Sha256_finalize_nopadding this false).

Definition Sha512_finalize_nopadding (this : Hasher) (compression : bool) :
    outcome Empty_set (list byte) :=
  if compression && negb (total_bytes_ this =? Z.of_nat SHA512_CBLOCK) then Abort
  else Return (store_fields store_big_u64 8 8 this).

Definition Sha512_finalize (this : Hasher) : Hasher * outcome Empty_set (list byte) :=
  let sizedesc := replicate 16 Byte.x00 in
  let sizedesc := blit 8 (store_big_u64 (u64 (Z.shiftl (total_bytes_ this) 3))) sizedesc in
  let this := update this (pad_view this 239) in
  let this := update this sizedesc in
  (this, Sha512_finalize_nopadding this false).

Definition Ripemd160_finalize (this : Hasher) : Hasher * list byte :=
  let sizedesc := store_little_u64 (u64 (Z.shiftl (total_bytes_ this) 3)) in
  let this := update this (pad_view this 119) in
  let this := update this sizedesc in
  (this, store_fields store_little_u32 4 5 this).
End code.

(** ** Hash160 and Hash256 *)

(** The classes hold a [Sha256]; the members of their base class that hold
    buffered data are not used. [hasher2] of [Hash160] takes its context from
    the pool of [Ripemd160] and gives it back. *)
Section hash160_256.
Context {C256 C160 : Type} `{Openssl C256} `{Openssl C160} `{Intx}.

Definition Hash160_init (hasher : Hasher C256) (initial_data : list byte) : Hasher C256 :=
  update (init hasher) initial_data.
Definition Hash256_init (hasher : Hasher C256) (initial_data : list byte) : Hasher C256 :=
  update (init hasher) initial_data.

Definition Hash160_update (hasher : Hasher C256) (data : list byte) : Hasher C256 :=
  update hasher data.
Definition Hash256_update (hasher : Hasher C256) (data : list byte) : Hasher C256 :=
  update hasher data.

Definition Hash160_finalize (hasher : Hasher C256) (pool : list C160) :
    Hasher C256 * list C160 * outcome Empty_set (list byte) :=
  let '(hasher, buffer) := Sha256_finalize hasher in
  match buffer with
  | Return buffer =>
      let '(hasher2, pool) := Ripemd160 pool in
      let hasher2 := update hasher2 buffer in
      let '(hasher2, ret) := Ripemd160_finalize hasher2 in
      (hasher, destruct_hasher hasher2 pool, Return ret)
  | o => (hasher, pool, o)
  end.

Definition Hash256_finalize (hasher : Hasher C256) :
    Hasher C256 * outcome Empty_set (list byte) :=
  let '(hasher, buffer) := Sha256_finalize hasher in
  match buffer with
  | Return buffer =>
      let hasher := init hasher in
      let hasher := update hasher buffer in
      Sha256_finalize hasher
  | o => (hasher, o)
  end.
End hash160_256.

(** ** Hmac *)

(** What [Hmac] uses of its template parameter. *)
Class DigestOps (T : Type) := {
  dg_block_size : T → nat;
  dg_init : T → T;
  dg_update : T → list byte → T;
  dg_finalize : T → T * outcome Empty_set (list byte)
}.

Section hmac.
Context {T : Type} `{DigestOps T}.

Record Hmac := mk_Hmac { inner : T; outer : T }.

(** [rkey[i] ^= x] for every [i] *)
Definition xor_key (x : Z) (rkey : list byte) : list byte :=
  (λ b, byte_of_Z (Z.lxor (Z_of_byte b) x)) <$> rkey.

(** [rkey.resize(n, 0)] *)
Definition resize_key (n : nat) (rkey : list byte) : list byte :=
  take n rkey ++ replicate (n - length rkey) Byte.x00.

Definition Hmac_init (this : Hmac) (initial_data : list byte) : outcome Empty_set Hmac :=
  let inner := dg_init (inner this) in
  let outer := dg_init (outer this) in
  '(inner, rkey) ←
    (if (dg_block_size inner <? length initial_data)%nat then
       let inner := dg_update inner initial_data in
       let '(inner, rkey) := dg_finalize inner in
       rkey ← rkey; Return (dg_init inner, rkey)
     else Return (inner, initial_data));
  let rkey := resize_key (dg_block_size inner) rkey in
  let rkey := xor_key 0x5c rkey in
  let outer := dg_update outer rkey in
  let rkey := xor_key (Z.lxor 0x5c 0x36) rkey in
  let inner := dg_update inner rkey in
  Return (mk_Hmac inner outer).

Definition Hmac_update (this : Hmac) (data : list byte) : Hmac :=
  mk_Hmac (dg_update (inner this) data) (outer this).

Definition Hmac_finalize (this : Hmac) : outcome Empty_set (Hmac * list byte) :=
  let '(inner, d) := dg_finalize (inner this) in
  d ← d;
  let outer := dg_update (outer this) d in
  let '(outer, d) := dg_finalize outer in
  d ← d; Return (mk_Hmac inner outer, d).
End hmac.
Arguments Hmac : clear implicits.
Arguments mk_Hmac {T} _ _.

(** The two instantiations, [Hmac256] and [Hmac512]. *)
Section hmac_instances.
Context {C : Type} `{Openssl C} `{Intx}.

Definition Sha256_ops : DigestOps (Hasher C) :=
  {| dg_block_size := block_size_; dg_init := init; dg_update := update;
     dg_finalize := Sha256_finalize |}.
Definition Sha512_ops : DigestOps (Hasher C) :=
  {| dg_block_size := block_size_; dg_init := init; dg_update := update;
     dg_finalize := Sha512_finalize |}.
End hmac_instances.

(** ** Theory of the base class *)

Section theory.
Context {Ctx : Type} `{Openssl Ctx} `{Intx}.
Local Abbreviation Hasher := (Hasher Ctx).

(** The hasher was initialised and has absorbed [msg]. *)
Definition holds (digest block : nat) (msg : list byte) (this : Hasher) : Prop :=
  digest_size_ this = digest ∧ block_size_ this = block ∧
  absorbed ctx_Transform block (ctx_Init ctx_fresh) msg
    (ctx_ this) (buffer_ this) (buffer_offset_ this) (total_bytes_ this).

(** The hasher is constructed: its sizes are right. *)
Definition constructed (digest block : nat) (this : Hasher) : Prop :=
  digest_size_ this = digest ∧ block_size_ this = block ∧ length (buffer_ this) = block.

Lemma holds_constructed d b msg this : holds d b msg this → constructed d b this.
Proof. intros (?&?&[]). done. Qed.

Context (digest block : nat) (Hblock : (0 < block)%nat).

Lemma construct_holds pool : holds digest block [] (construct digest block pool).1.
Proof using Hblock.
  unfold construct. destruct pool as [|c pool]; (split; [done|]); (split; [done|]); cbn.
  - apply absorbed_init; [done|apply length_replicate].
  - rewrite (ctx_Init_any c ctx_fresh). apply absorbed_init; [done|apply length_replicate].
Qed.

Lemma init_holds this : constructed digest block this → holds digest block [] (init this).
Proof using Hblock.
  intros (?&?&?). split; [done|]. split; [done|]. cbn.
  rewrite (ctx_Init_any (ctx_ this) ctx_fresh). by apply absorbed_init.
Qed.

Lemma update_chunks_holds fuel msg this data :
  holds digest block msg this → (buffer_offset_ this = 0)%nat → (length data ≤ fuel)%nat →
  let '(this', rest) := update_chunks fuel this data in
  ∃ eaten, data = eaten ++ rest ∧ holds digest block (msg ++ eaten) this' ∧
    (buffer_offset_ this' = 0)%nat ∧ (length rest < block)%nat.
Proof using Hblock.
  revert msg this data. induction fuel as [|fuel IH]; intros msg this data Ha Ho Hf;
    cbn [update_chunks].
  - exists []. rewrite app_nil_r. split_and!; [done|done|done|lia].
  - destruct Ha as (Hd & Hb & Ha). unfold transform, set_buffer.
    cbn [digest_size_ block_size_ buffer_ buffer_offset_ total_bytes_ ctx_]. rewrite Hb.
    destruct (Nat.leb_spec block (length data)).
    + set (this1 := mk_Hasher _ _ _ _ _ _).
      assert (Ha1 : holds digest block (msg ++ take block data) this1).
      { split; [done|]. split; [done|]. unfold this1. cbn. rewrite Ho in *.
        apply absorbed_block; [done|done|len]. }
      specialize (IH _ this1 (drop block data) Ha1 Ho ltac:(len)). revert IH.
      destruct (update_chunks fuel this1 _) as [this' rest].
      intros (blocks & Hdata & Ha' & Ho' & Hr). exists (take block data ++ blocks).
      rewrite <-(assoc_L (++)), <-Hdata, take_drop, (assoc_L (++)). done.
    + exists []. rewrite app_nil_r. done.
Qed.

Lemma update_fill_holds msg this data :
  holds digest block msg this →
  let '(this', rest) := update_fill this data in
  ∃ eaten, data = eaten ++ rest ∧ holds digest block (msg ++ eaten) this' ∧
    (buffer_offset_ this' = 0 ∨ rest = [])%nat.
Proof using Hblock.
  intros (Hd & Hb & Ha). unfold update_fill.
  destruct (Nat.eqb_spec (buffer_offset_ this) 0) as [Hz|Hz].
  { exists []. rewrite app_nil_r. split; [done|]. split; [by split_and!|by left]. }
  pose proof (absorbed_off_lt _ _ _ Hblock _ _ _ _ _ Ha) as Hoff.
  pose proof (absorbed_buf _ _ _ _ _ _ _ _ Ha) as Hbuf.
  rewrite Hbuf. set (room := Nat.min _ _).
  assert (Hroom : length (take room data) = room) by (rewrite length_take; lia).
  unfold transform, set_buffer.
  cbn [digest_size_ block_size_ buffer_ buffer_offset_ total_bytes_ ctx_].
  rewrite length_blit, Hbuf by lia.
  destruct (Nat.eqb_spec (buffer_offset_ this + room) block) as [Hfull|Hfull];
    exists (take room data); rewrite take_drop.
  - split; [done|]. split; [|by left]. split; [done|]. split; [done|]. cbn.
    rewrite u64_u64. revert Hroom. generalize (take room data). clearbody room. intros d <-.
    apply absorbed_fill; [done|done|]. lia.
  - split; [done|]. split.
    + split; [done|]. split; [done|]. cbn. revert Hroom Hfull.
      assert (Hle : (room ≤ block - buffer_offset_ this)%nat) by lia. revert Hle.
      generalize (take room data). clearbody room. intros d Hle <- Hfull.
      apply absorbed_copy; [done|done|]. lia.
    + right. apply drop_ge. lia.
Qed.

Lemma update_holds msg this data :
  holds digest block msg this → holds digest block (msg ++ data) (update this data).
Proof using Hblock.
  intros Ha. unfold update.
  pose proof (update_fill_holds msg this data Ha) as Hf.
  destruct (update_fill this data) as [this1 rest1]. destruct Hf as (e1 & -> & Ha1 & Ho1).
  rewrite (assoc_L (++)).
  destruct Ho1 as [Ho1| ->].
  - pose proof (update_chunks_holds (length rest1) _ this1 rest1 Ha1 Ho1 ltac:(lia)) as Hc.
    destruct (update_chunks _ this1 rest1) as [this2 rest2].
    destruct Hc as (e2 & -> & Ha2 & Ho2 & Hr). rewrite (assoc_L (++)).
    destruct (Nat.ltb_spec 0 (length rest2)) as [|Hn].
    + destruct Ha2 as (?&?&Ha2). split; [done|]. split; [done|]. cbn.
      rewrite Ho2 in Ha2. by apply (absorbed_copy _ block _ Hblock _ _ _ 0).
    + destruct rest2; [by rewrite app_nil_r|cbn [length] in Hn; lia].
  - cbn. by rewrite app_nil_r.
Qed.

Lemma updates_holds msg this datas :
  holds digest block msg this →
  holds digest block (msg ++ concat datas) (fold_left update datas this).
Proof using Hblock.
  revert msg this. induction datas as [|data datas IH]; intros msg this Ha; cbn.
  - by rewrite app_nil_r.
  - rewrite (assoc_L (++)). apply IH. by apply update_holds.
Qed.

(** What the [finalize] functions append is the padding, for a block size
    that divides 2^64 and a length field that [sizedesc] computes. *)
Lemma finalize_holds lf store msg this (k : Z) :
  (lf < block)%nat → (Z.of_nat block | 2 ^ 64) →
  k = 2 * Z.of_nat block - Z.of_nat lf - 1 →
  Z.of_nat block < 2 ^ 32 →
  (∀ z, store (u64 z) = store z) →
  holds digest block msg this →
  holds digest block (msg ++ md_padding block lf store (length msg))
    (update (update this (pad_view this k)) (store (u64 (Z.shiftl (total_bytes_ this) 3)))).
Proof using Hblock.
  intros Hlf Hdiv -> Hmax Hs Ha. rewrite (md_padding_code block lf (block - 1)) by done.
  pose proof Ha as (Hd & Hb & Ha'). rewrite (absorbed_total _ _ _ _ _ _ _ _ Ha').
  rewrite (assoc_L (++)). apply update_holds.
  unfold pad_view, pad. rewrite Hb, (absorbed_total _ _ _ _ _ _ _ _ Ha').
  rewrite (u64_mod_block block) by done.
  rewrite (wrap_small 64 : ∀ z, _ → u64 z = z).
  - by apply update_holds.
  - pose proof (Nat.mod_upper_bound (length msg) block ltac:(lia)).
    unfold in_range. const_pows. lia.
Qed.
End theory.

(** ** Digests *)

(** What the hashers compute, in terms of OpenSSL's functions: the padded
    message compressed, and the first [n] fields of the context. *)
Section digests.
Context {Ctx : Type} `{Openssl Ctx}.

Definition md_digest (block lf n : nat) (store_length store_field : Z → list byte)
    (msg : list byte) : list byte :=
  let c := merkle_damgard ctx_Transform block lf store_length (ctx_Init ctx_fresh) msg in
  concat ((λ i, store_field (ctx_h c i)) <$> seq 0 n).

Definition sha1_of : list byte → list byte := md_digest 64 8 5 (be_bytes 8) (be_bytes 4).
Definition sha256_of : list byte → list byte := md_digest 64 8 8 (be_bytes 8) (be_bytes 4).
Definition ripemd160_of : list byte → list byte := md_digest 64 8 5 (le_bytes 8) (le_bytes 4).

(** The 128-bit length of SHA-512, and the code's, whose high half is zero. *)
Definition sha512_of : list byte → list byte := md_digest 128 16 8 (be_bytes 16) (be_bytes 8).
Definition low_length (z : Z) : list byte := replicate 8 Byte.x00 ++ be_bytes 8 z.
Definition sha512_low_of : list byte → list byte := md_digest 128 16 8 low_length (be_bytes 8).

Lemma low_length_small z : 0 <= z < 2 ^ 64 → be_bytes 16 z = low_length z.
Proof.
  intros Hz. unfold low_length.
  assert (Hv : be_value (be_bytes 16 z) = be_value (replicate 8 Byte.x00 ++ be_bytes 8 z)).
  { rewrite be_value_zeros, !be_value_small by (const_pows; lia). done. }
  rewrite <-(be_bytes_be_value (replicate 8 Byte.x00 ++ _)), <-Hv, be_value_small
    by (const_pows; lia).
  done.
Qed.

Lemma sha512_low_of_eq msg :
  8 * Z.of_nat (length msg) < 2 ^ 64 → sha512_low_of msg = sha512_of msg.
Proof.
  intros Hlen. unfold sha512_low_of, sha512_of, md_digest, merkle_damgard, md_padding.
  by rewrite low_length_small by lia.
Qed.

(** The [n] fields of [width] bytes, when they fill the digest. *)
Lemma store_fields_concat store width n (this : Hasher Ctx) :
  (∀ z, length (store z) = width) → digest_size_ this = (width * n)%nat →
  store_fields store width n this = concat ((λ i, store (ctx_h (ctx_ this) i)) <$> seq 0 n).
Proof.
  intros Hs Hd. unfold store_fields. rewrite Hd.
  set (g := λ i : nat, store (ctx_h (ctx_ this) i)).
  assert (Hg : ∀ m, length (concat (g <$> seq 0 m)) = (width * m)%nat).
  { induction m as [|m IH]; [cbn; lia|]. rewrite seq_S, fmap_app, concat_app, length_app, IH.
    cbn. rewrite app_nil_r. unfold g. rewrite Hs. lia. }
  cut (∀ m, (m ≤ n)%nat →
    fold_left (λ ret i, blit (width * i) (g i) ret) (seq 0 m) (replicate (width * n) Byte.x00)
    = concat (g <$> seq 0 m) ++ replicate (width * (n - m)) Byte.x00).
  { intros Hcut. etransitivity; [by apply (Hcut n)|]. rewrite Nat.sub_diag, Nat.mul_0_r. cbn.
    by rewrite app_nil_r. }
  induction m as [|m IH]; intros Hm; [cbn; by rewrite Nat.sub_0_r|].
  rewrite seq_S, fold_left_app, IH, fmap_app, concat_app by lia.
  rewrite list_fmap_singleton. cbn [fold_left concat Nat.add]. rewrite app_nil_r. unfold blit.
  assert (Hgl : length (g m) = width) by apply Hs.
  rewrite take_app_length' by done. rewrite <-(assoc_L (++)). do 2 f_equal.
  rewrite Hgl, drop_app_ge by (rewrite Hg; lia).
  rewrite drop_replicate, Hg. replace (n - m)%nat with (S (n - S m)) by lia. f_equal.
  rewrite Nat.mul_succ_r. generalize (width * (n - S m))%nat (width * m)%nat. lia.
Qed.
(** A hasher as its clients hold it: constructed, then used in any way (the
    [finalize] functions are updates followed by a read). *)
Inductive reachable (digest block : nat) : Hasher Ctx → Prop :=
  | reach_construct pool : reachable digest block (construct digest block pool).1
  | reach_init this : reachable digest block this → reachable digest block (init this)
  | reach_update this data : reachable digest block this → reachable digest block (update this data).

(** Ready for a new message: just constructed, or initialised after any use. *)
Inductive started (digest block : nat) : Hasher Ctx → Prop :=
  | start_construct pool : started digest block (construct digest block pool).1
  | start_init this : reachable digest block this → started digest block (init this).

Lemma reachable_holds digest block this :
  (0 < block)%nat → reachable digest block this → ∃ msg, holds digest block msg this.
Proof.
  intros Hb. induction 1 as [pool|this _ [msg IH]|this data _ [msg IH]].
  - exists []. by apply construct_holds.
  - exists []. apply init_holds; [done|]. by eapply holds_constructed.
  - exists (msg ++ data). by apply update_holds.
Qed.

Lemma started_holds digest block this :
  (0 < block)%nat → started digest block this → holds digest block [] this.
Proof.
  intros Hb [pool|h Hr].
  - by apply construct_holds.
  - apply reachable_holds in Hr as [msg Hr]; [|done].
    apply init_holds; [done|]. by eapply holds_constructed.
Qed.

Context `{Intx}.

Lemma finalize_digest digest block lf n width (k : Z) store_length store_field msg this :
  (lf < block)%nat → (Z.of_nat block | 2 ^ 64) →
  k = 2 * Z.of_nat block - Z.of_nat lf - 1 → Z.of_nat block < 2 ^ 32 →
  (∀ z, store_length (u64 z) = store_length z) →
  (∀ z, length (store_field z) = width) → digest = (width * n)%nat →
  holds digest block msg this →
  let this' := update (update this (pad_view this k))
                 (store_length (u64 (Z.shiftl (total_bytes_ this) 3))) in
  store_fields store_field width n this' = md_digest block lf n store_length store_field msg ∧
  holds digest block (msg ++ md_padding block lf store_length (length msg)) this'.
Proof.
  intros Hlf Hdiv Hk Hmax Hsl Hsf Hd Ha this'.
  assert (Ha' : holds digest block (msg ++ md_padding block lf store_length (length msg)) this')
    by (apply finalize_holds; done || lia).
  split; [|done]. pose proof Ha' as (Hd' & _ & Habs).
  rewrite store_fields_concat by (done || congruence). unfold md_digest.
  by rewrite <-(absorbed_padded _ _ _ lf store_length _ _ _ _ _ Habs).
Qed.

(** The stores are the reference ones. *)
Lemma stores_ext store store' width n (this : Hasher Ctx) :
  (∀ z, store z = store' z) → store_fields store width n this = store_fields store' width n this.
Proof.
  intros E. unfold store_fields. generalize (replicate (digest_size_ this) Byte.x00).
  induction (seq 0 n) as [|i l IH]; intros ret; cbn; [done|]. by rewrite E, IH.
Qed.

Lemma Sha1_finalize_holds msg this :
  holds SHA_DIGEST_LENGTH SHA_CBLOCK msg this → (Sha1_finalize this).2 = sha1_of msg.
Proof.
  intros Ha. unfold Sha1_finalize, store_big_u64, store_big_u32. cbn [snd].
  rewrite intx_be_store_spec, (stores_ext _ _ _ _ _ (intx_be_store_spec 4)).
  apply (finalize_digest 20 64); try done || lia; [by exists (2 ^ 58)|].
  apply (be_bytes_wrap 8).
Qed.

Lemma Sha256_finalize_holds msg this :
  holds SHA256_DIGEST_LENGTH SHA256_CBLOCK msg this →
  (Sha256_finalize this).2 = Return (sha256_of msg) ∧
  constructed SHA256_DIGEST_LENGTH SHA256_CBLOCK (Sha256_finalize this).1.
Proof.
  intros Ha. unfold Sha256_finalize, Sha256_finalize_nopadding, store_big_u64, store_big_u32.
  cbn [snd fst andb].
  rewrite intx_be_store_spec, (stores_ext _ _ _ _ _ (intx_be_store_spec 4)).
  destruct (finalize_digest 32 64 8 8 4 119 (be_bytes 8) (be_bytes 4) msg this) as [Hv Hh];
    try done || lia; [by exists (2 ^ 58)|apply (be_bytes_wrap 8)|].
  split; [by f_equal|]. by eapply holds_constructed.
Qed.

Lemma blit_low_length z : blit 8 (be_bytes 8 z) (replicate 16 Byte.x00) = low_length z.
Proof. unfold blit, low_length. rewrite length_be_bytes. done. Qed.

Lemma Sha512_finalize_holds msg this :
  holds SHA512_DIGEST_LENGTH SHA512_CBLOCK msg this →
  (Sha512_finalize this).2 = Return (sha512_low_of msg) ∧
  constructed SHA512_DIGEST_LENGTH SHA512_CBLOCK (Sha512_finalize this).1.
Proof.
  intros Ha. unfold Sha512_finalize, Sha512_finalize_nopadding, store_big_u64.
  cbn [snd fst andb].
  rewrite intx_be_store_spec, (stores_ext _ _ _ _ _ (intx_be_store_spec 8)).
  rewrite blit_low_length.
  destruct (finalize_digest 64 128 16 8 8 239 low_length (be_bytes 8) msg this) as [Hv Hh];
    try done || lia; [by exists (2 ^ 57)| |].
  - intros z. unfold low_length. f_equal. apply (be_bytes_wrap 8).
  - split; [by f_equal|]. by eapply holds_constructed.
Qed.

Lemma Ripemd160_finalize_holds msg this :
  holds RIPEMD160_DIGEST_LENGTH RIPEMD160_CBLOCK msg this →
  (Ripemd160_finalize this).2 = ripemd160_of msg.
Proof.
  intros Ha. unfold Ripemd160_finalize, store_little_u64, store_little_u32. cbn [snd].
  rewrite intx_le_store_spec, (stores_ext _ _ _ _ _ (intx_le_store_spec 4)).
  apply (finalize_digest 20 64); try done || lia; [by exists (2 ^ 58)|].
  apply (le_bytes_wrap 8).
Qed.

(** C10: A hasher of any of the four classes, new or initialised after any use
    and whatever context its pool gave it, computes from any sequence of
    updates, cut anywhere, the Merkle-Damgard digest of the concatenated
    data with the compression function of OpenSSL. For SHA-512 the digest
    is the standard one while the length in bits fits 64 bits. *)
Theorem hasher_digest (datas : list (list byte)) :
  let msg := concat datas in
  (∀ this, started SHA_DIGEST_LENGTH SHA_CBLOCK this →
     (Sha1_finalize (fold_left update datas this)).2 = sha1_of msg) ∧
  (∀ this, started SHA256_DIGEST_LENGTH SHA256_CBLOCK this →
     (Sha256_finalize (fold_left update datas this)).2 = Return (sha256_of msg)) ∧
  (∀ this, started SHA512_DIGEST_LENGTH SHA512_CBLOCK this →
     8 * Z.of_nat (length msg) < 2 ^ 64 →
     (Sha512_finalize (fold_left update datas this)).2 = Return (sha512_of msg)) ∧
  (∀ this, started RIPEMD160_DIGEST_LENGTH RIPEMD160_CBLOCK this →
     (Ripemd160_finalize (fold_left update datas this)).2 = ripemd160_of msg).
Proof.
  cbv zeta. split_and!; intros this Hs; apply started_holds in Hs as Ha; try (by apply Nat.ltb_lt).
  - by apply Sha1_finalize_holds, (updates_holds 20 64 ltac:(lia) []).
  - by apply Sha256_finalize_holds, (updates_holds 32 64 ltac:(lia) []).
  - intros Hlen. rewrite <-sha512_low_of_eq by done.
    by apply Sha512_finalize_holds, (updates_holds 64 128 ltac:(lia) []).
  - by apply Ripemd160_finalize_holds, (updates_holds 20 64 ltac:(lia) []).
Qed.
End digests.

(** ** Hash160 and Hash256 *)

Section double.
Context {C256 C160 : Type} `{Openssl C256} `{Openssl C160} `{Intx}.
Local Abbreviation sha256 := (sha256_of (Ctx := C256)).
Local Abbreviation ripemd160 := (ripemd160_of (Ctx := C160)).

(** [Hash256] of any sequence of updates, after the constructor's or
    [init]'s initial data, is the SHA-256 digest of the SHA-256 digest of all
    the data; [Hash160] is the RIPEMD-160 digest of the SHA-256 digest,
    whatever the pool of RIPEMD-160 contexts holds, and gives the context of
    its second hasher back to the pool. *)
Theorem hash160_hash256_digest (hasher : Hasher C256) (pool : list C160)
    (initial_data : list byte) (datas : list (list byte)) :
  reachable SHA256_DIGEST_LENGTH SHA256_CBLOCK hasher →
  let msg := initial_data ++ concat datas in
  let h256 := fold_left Hash256_update datas (Hash256_init hasher initial_data) in
  let h160 := fold_left Hash160_update datas (Hash160_init hasher initial_data) in
  (Hash256_finalize h256).2 = Return (sha256 (sha256 msg)) ∧
  (Hash160_finalize h160 pool).2 = Return (ripemd160 (sha256 msg)) ∧
  length (Hash160_finalize h160 pool).1.2 = Nat.max 1 (length pool).
Proof.
  intros Hr msg ready h160. change h160 with ready. clear h160.
  assert (Ha : holds SHA256_DIGEST_LENGTH SHA256_CBLOCK msg ready).
  { unfold msg, ready, Hash256_init. apply (updates_holds (Ctx := C256) 32 64 ltac:(lia) initial_data).
    apply (update_holds (Ctx := C256) 32 64 ltac:(lia) []).
    apply init_holds; [by apply Nat.ltb_lt|].
    apply reachable_holds in Hr as [m Hr]; [|by apply Nat.ltb_lt]. by eapply holds_constructed. }
  clearbody ready msg. apply Sha256_finalize_holds in Ha as [Hv Hc].
  unfold Hash256_finalize, Hash160_finalize.
  destruct (Sha256_finalize ready) as [hasher' buffer]. cbn [fst snd] in *. subst buffer.
  split.
  - apply (Sha256_finalize_holds (Ctx := C256)), (update_holds (Ctx := C256) 32 64 ltac:(lia) []), init_holds;
      [by apply Nat.ltb_lt|done].
  - pose proof (construct_holds (Ctx := C160) RIPEMD160_DIGEST_LENGTH RIPEMD160_CBLOCK ltac:(by apply Nat.ltb_lt) pool) as Hp.
    assert (Hl : length (Ripemd160 pool).2 = (length pool - 1)%nat) by by destruct pool; cbn; lia.
    fold Ripemd160 in Hp. destruct (Ripemd160 pool) as [hasher2 pool']. cbn [fst snd] in *.
    apply (update_holds (Ctx := C160) 20 64 ltac:(lia) [] _ (sha256 msg)), Ripemd160_finalize_holds in Hp.
    destruct (Ripemd160_finalize _) as [hasher2' ret]. cbn [fst snd] in *. subst ret.
    split; [done|]. unfold destruct_hasher, Containers.ObjectPool.add. cbn [length]. lia.
Qed.
End double.

(** ** Hmac *)

(** What a digest class promises to [Hmac]: a hash function of the data
    absorbed since [dg_init], on objects that are [dg_live]. *)
Class DigestSpec (T : Type) `{DigestOps T} := {
  dg_hash : list byte → list byte;
  dg_block : nat;
  dg_live : T → Prop;
  dg_state : list byte → T → Prop;
  dg_block_live t : dg_live t → dg_block_size t = dg_block;
  dg_state_live msg t : dg_state msg t → dg_live t;
  dg_init_state t : dg_live t → dg_state [] (dg_init t);
  dg_update_state msg t data : dg_state msg t → dg_state (msg ++ data) (dg_update t data);
  dg_finalize_hash msg t : dg_state msg t → (dg_finalize t).2 = Return (dg_hash msg);
  dg_finalize_live msg t : dg_state msg t → dg_live (dg_finalize t).1;
  dg_hash_fits msg : (length (dg_hash msg) ≤ dg_block)%nat
}.

(** RFC 2104, for a hash function on blocks of [block] bytes. *)
Definition hmac (hash : list byte → list byte) (block : nat) (key msg : list byte) : list byte :=
  let key := if (block <? length key)%nat then hash key else key in
  let key := key ++ replicate (block - length key) Byte.x00 in
  hash (xor_key 0x5c key ++ hash (xor_key 0x36 key ++ msg)).

Section hmac_theory.
Context {T : Type} `{DigestSpec T}.

Lemma xor_key_twice rkey : xor_key (Z.lxor 0x5c 0x36) (xor_key 0x5c rkey) = xor_key 0x36 rkey.
Proof.
  unfold xor_key. rewrite <-list_fmap_compose. apply list_fmap_ext. intros _ b _. byte_cases b.
Qed.

Lemma resize_key_short n rkey :
  (length rkey ≤ n)%nat → resize_key n rkey = rkey ++ replicate (n - length rkey) Byte.x00.
Proof. intros Hn. unfold resize_key. by rewrite take_ge. Qed.

(** After [Hmac_init] the two hashers have absorbed the two padded keys. *)
Definition keyed (key : list byte) (h : Hmac T) : Prop :=
  let key := if (dg_block <? length key)%nat then dg_hash key else key in
  let key := key ++ replicate (dg_block - length key) Byte.x00 in
  dg_state (xor_key 0x36 key) (inner h) ∧ dg_state (xor_key 0x5c key) (outer h).

Lemma Hmac_init_keyed (this : Hmac T) key :
  dg_live (inner this) → dg_live (outer this) →
  ∃ h, Hmac_init this key = Return h ∧ keyed key h.
Proof.
  intros Hi Ho. unfold Hmac_init, keyed.
  pose proof (dg_init_state _ Hi) as Hi0. pose proof (dg_init_state _ Ho) as Ho0.
  rewrite (dg_block_live _ (dg_state_live _ _ Hi0)).
  destruct (Nat.ltb_spec dg_block (length key)) as [Hlt|Hge].
  - pose proof (dg_update_state _ _ key Hi0) as Hi1. cbn [app] in Hi1.
    pose proof (dg_finalize_hash _ _ Hi1) as Hv. pose proof (dg_finalize_live _ _ Hi1) as Hl.
    destruct (dg_finalize _) as [i rkey]. cbn [fst snd] in *. subst rkey. cbn.
    pose proof (dg_init_state _ Hl) as Hi2. eexists. split; [done|].
    rewrite (dg_block_live _ (dg_state_live _ _ Hi2)), resize_key_short by apply dg_hash_fits.
    rewrite xor_key_twice. split; by apply (dg_update_state []).
  - cbn. eexists. split; [done|].
    rewrite (dg_block_live _ (dg_state_live _ _ Hi0)), resize_key_short by done.
    rewrite xor_key_twice. split; by apply (dg_update_state []).
Qed.

Lemma Hmac_updates datas msg (h : Hmac T) o :
  dg_state msg (inner h) → outer h = o →
  dg_state (msg ++ concat datas) (inner (fold_left Hmac_update datas h)) ∧
  outer (fold_left Hmac_update datas h) = o.
Proof.
  revert msg h. induction datas as [|data datas IH]; intros msg h Hi Ho; cbn.
  - by rewrite app_nil_r.
  - rewrite (assoc_L (++)). apply IH; [|done]. by apply dg_update_state.
Qed.

Lemma Hmac_finalize_keyed key datas h :
  keyed key h →
  ∃ h', Hmac_finalize (fold_left Hmac_update datas h)
        = Return (h', hmac dg_hash dg_block key (concat datas)) ∧
    dg_live (inner h') ∧ dg_live (outer h').
Proof.
  intros [Hi Ho]. unfold Hmac_finalize.
  edestruct (Hmac_updates datas _ h _ Hi eq_refl) as [Hi' Ho'].
  destruct (fold_left _ _ _) as [i o]. cbn [inner outer] in *. subst o.
  pose proof (dg_finalize_hash _ _ Hi') as Hv. pose proof (dg_finalize_live _ _ Hi') as Hl.
  destruct (dg_finalize i) as [i' d]. cbn [fst snd] in *. subst d. cbn [mbind outcome_bind].
  match goal with |- context [dg_update (outer h) ?d] => apply (dg_update_state _ _ d) in Ho end.
  pose proof (dg_finalize_hash _ _ Ho) as Hv'. pose proof (dg_finalize_live _ _ Ho) as Hl'.
  destruct (dg_finalize (dg_update _ _)) as [o' d']. cbn [fst snd] in *. subst d'.
  cbn [mbind outcome_bind]. exists (mk_Hmac i' o'). split.
  - done.
  - exact (conj Hl Hl').
Qed.

(** C11: Over any digest class that keeps its promise, [Hmac] initialised with
    a key, then updated in any pieces and finalised, gives the HMAC of
    RFC 2104 for this key and the concatenated data, on keys shorter and
    longer than a block; the object can be initialised and used again. *)
Theorem hmac_digest (this : Hmac T) (key : list byte) (datas : list (list byte)) :
  dg_live (inner this) → dg_live (outer this) →
  ∃ h h', Hmac_init this key = Return h ∧
    Hmac_finalize (fold_left Hmac_update datas h)
    = Return (h', hmac dg_hash dg_block key (concat datas)) ∧
    dg_live (inner h') ∧ dg_live (outer h').
Proof.
  intros Hi Ho. destruct (Hmac_init_keyed this key Hi Ho) as (h & Hinit & Hk).
  destruct (Hmac_finalize_keyed key datas h Hk) as (h' & Hf). eauto.
Qed.
End hmac_theory.

(** The classes [Hmac] is instantiated with keep the promise. *)
#[export] Instance Sha256_spec {C} `{Openssl C} `{Intx} : @DigestSpec (Hasher C) Sha256_ops.
Proof.
  refine (@Build_DigestSpec (Hasher C) Sha256_ops sha256_of SHA256_CBLOCK
    (constructed SHA256_DIGEST_LENGTH SHA256_CBLOCK)
    (holds SHA256_DIGEST_LENGTH SHA256_CBLOCK) _ _ _ _ _ _ _); cbn.
  - by intros t (?&?&?).
  - intros msg t. apply holds_constructed.
  - intros t. apply init_holds. by apply Nat.ltb_lt.
  - intros msg t data. apply update_holds. by apply Nat.ltb_lt.
  - intros msg t Ht. by apply Sha256_finalize_holds.
  - intros msg t Ht. by apply (Sha256_finalize_holds msg).
  - intros msg. by apply Nat.leb_le.
Defined.

#[export] Instance Sha512_spec {C} `{Openssl C} `{Intx} : @DigestSpec (Hasher C) Sha512_ops.
Proof.
  refine (@Build_DigestSpec (Hasher C) Sha512_ops sha512_low_of SHA512_CBLOCK
    (constructed SHA512_DIGEST_LENGTH SHA512_CBLOCK)
    (holds SHA512_DIGEST_LENGTH SHA512_CBLOCK) _ _ _ _ _ _ _); cbn.
  - by intros t (?&?&?).
  - intros msg t. apply holds_constructed.
  - intros t. apply init_holds. by apply Nat.ltb_lt.
  - intros msg t data. apply update_holds. by apply Nat.ltb_lt.
  - intros msg t Ht. by apply Sha512_finalize_holds.
  - intros msg t Ht. by apply (Sha512_finalize_holds msg).
  - intros msg. by apply Nat.leb_le.
Defined.

(** ** SHA-256 by OpenSSL and by hand *)

(** OpenSSL's documented SHA-256: the functions of FIPS 180-4. *)
Definition openssl_fips : Openssl Sha256Old.regs :=
  {| ctx_fresh := Sha256Old.Fips.H0;
     ctx_Init _ := Sha256Old.Fips.H0;
     ctx_Transform := Sha256Old.Fips.compress;
     ctx_h r i :=
       let '(a, b, c, d, e, f, g, h) := r in nth i [a; b; c; d; e; f; g; h] 0;
     ctx_Init_any _ _ := eq_refl |}.

Lemma sha256_of_fips msg : sha256_of (H := openssl_fips) msg = Sha256Old.Fips.sha256 msg.
Proof.
  unfold sha256_of, md_digest, Sha256Old.Fips.sha256. cbn [ctx_Transform ctx_Init ctx_h openssl_fips].
  by destruct (merkle_damgard _ _ _ _ _ _) as [[[[[[[a b] c] d] e] f] g] h].
Qed.

(** Where OpenSSL computes SHA-256, the class [Sha256] over it and the
    class [Sha256Old] give the same digest for the same data, however each
    is fed. *)
Theorem sha256_classes_agree `{Intx} (datas chunks : list (list byte)) this old :
  concat datas = concat chunks →
  started (H := openssl_fips) SHA256_DIGEST_LENGTH SHA256_CBLOCK this →
  length (Sha256Old.buf old) = 64%nat →
  Forall (λ data : list byte, Z.of_nat (length data) < 2 ^ 63) chunks →
  (Sha256_finalize (H := openssl_fips) (fold_left (update (H := openssl_fips)) datas this)).2
  = (Sha256Old.Finalize (fold_left Sha256Old.Write chunks (Sha256Old.Reset old))).2.
Proof.
  intros E Hs Hb Hc. apply started_holds in Hs; [|by apply Nat.ltb_lt].
  rewrite (Sha256Old.Finalize_absorbed (concat chunks)).
  - rewrite <-E, <-sha256_of_fips.
    by apply Sha256_finalize_holds, (updates_holds (H := openssl_fips) 32 64 ltac:(lia) []).
  - apply (Sha256Old.Writes_absorbed chunks []); [|done]. by apply Sha256Old.new_absorbed.
Qed.

Lemma hasher_digest_witness :
  let O := openssl_fips in let I := intx_reference in
  let this := (construct SHA512_DIGEST_LENGTH SHA512_CBLOCK []).1 in
  (Sha512_finalize (fold_left update [chars "a"; chars "bc"] this)).2
  = Return (sha512_of (chars "abc")).
Proof.
  destruct (hasher_digest (H := openssl_fips) (H0 := intx_reference) [chars "a"; chars "bc"])
    as (_ & _ & H512 & _).
  apply H512; [constructor|by vm_compute].
Defined.

Lemma hash160_hash256_digest_witness :
  let O := openssl_fips in let I := intx_reference in
  let hasher := (construct SHA256_DIGEST_LENGTH SHA256_CBLOCK []).1 in
  (Hash256_finalize (fold_left Hash256_update [chars "bc"] (Hash256_init hasher (chars "a")))).2
  = Return (sha256_of (sha256_of (chars "abc"))).
Proof.
  intros O I hasher.
  destruct (@hash160_hash256_digest _ _ O O I hasher [] (chars "a") [chars "bc"]) as [Hd _];
    [apply reach_construct|exact Hd].
Defined.

Lemma hmac_digest_witness :
  let O := openssl_fips in let I := intx_reference in
  let D := Sha256_ops in
  let h0 := (construct SHA256_DIGEST_LENGTH SHA256_CBLOCK []).1 in
  ∃ h h', Hmac_init (mk_Hmac h0 h0) (chars "Jefe") = Return h ∧
    Hmac_finalize (fold_left Hmac_update [chars "what do ya want "; chars "for nothing?"] h)
    = Return (h', be_bytes 32 0x5bdcc146bf60754e6a042426089575c75a003f089d2739839dec58b964ec3843)
    ∧ constructed SHA256_DIGEST_LENGTH SHA256_CBLOCK (inner h').
Proof.
  intros O I D h0.
  destruct (@hmac_digest (Hasher Sha256Old.regs) D (@Sha256_spec _ O I) (mk_Hmac h0 h0) (chars "Jefe")
    [chars "what do ya want "; chars "for nothing?"]) as (h & h' & Hi & Hf & Hl & _);
    [done|done|].
  exists h, h'. split; [exact Hi|]. split; [|exact Hl].
  etransitivity; [exact Hf|]. apply (f_equal Return), (f_equal (pair h')).
  vm_compute. reflexivity.
Defined.

Lemma sha256_classes_agree_witness :
  let I := intx_reference in
  let old := Sha256Old.new_Sha256Old (replicate 64 Byte.x00) in
  (Sha256_finalize (H := openssl_fips)
     (fold_left (update (H := openssl_fips)) [chars "ab"; chars "c"]
        (construct (H := openssl_fips) SHA256_DIGEST_LENGTH SHA256_CBLOCK []).1)).2
  = (Sha256Old.Finalize (fold_left Sha256Old.Write [chars "abc"] (Sha256Old.Reset old))).2.
Proof.
  apply (sha256_classes_agree (H := intx_reference)); [reflexivity|constructor|reflexivity|].
  repeat constructor.
Defined.
