(* ===== verification/Digits.v ===== *)
(** * Decimal digits

    Decimal notation of numbers, shared by the components that print or parse
    them: [dec] is the notation without leading zeros, [fixed_digits] the one
    with a given number of digits, [dec_value] the number a string of digits
    stands for. *)
From S2P Require Import Prelude.
Local Open Scope Z_scope.

Definition dec_digit (n : Z) : byte := byte_of_Z (48 + n).
Definition is_digit (b : byte) : bool := (48 <=? Z_of_byte b) && (Z_of_byte b <=? 57).
Definition digit_value (b : byte) : Z := Z_of_byte b - 48.

Definition dec_value (bs : list byte) : Z := fold_left (λ v b, 10 * v + digit_value b) bs 0.

Fixpoint fixed_digits (w : nat) (z : Z) : list byte :=
  match w with
  | O => []
  | S w => fixed_digits w (z / 10) ++ [dec_digit (z mod 10)]
  end.

(** The number of digits; one more than the binary logarithm is enough fuel. *)
Fixpoint count_digits (fuel : nat) (z : Z) : nat :=
  match fuel with
  | O => 1
  | S fuel => if z <? 10 then 1 else S (count_digits fuel (z / 10))
  end.
Definition dec (z : Z) : list byte := fixed_digits (count_digits (Z.to_nat (Z.log2 z)) z) z.

(** Splits off at most [n] leading digits. *)
Fixpoint take_digits (n : nat) (s : list byte) : list byte * list byte :=
  match n, s with
  | S n, b :: s' => if is_digit b then let '(d, r) := take_digits n s' in (b :: d, r) else ([], s)
  | _, _ => ([], s)
  end.

Definition digits (bs : list byte) : Prop := Forall (λ b, is_digit b = true) bs.

Lemma digits_snoc bs b : digits (bs ++ [b]) ↔ digits bs ∧ is_digit b = true.
Proof. unfold digits. by rewrite Forall_app, Forall_singleton. Qed.
Lemma digits_app bs cs : digits (bs ++ cs) ↔ digits bs ∧ digits cs.
Proof. apply Forall_app. Qed.

Lemma is_digit_spec b : is_digit b = true ↔ 48 <= Z_of_byte b <= 57.
Proof. unfold is_digit. lia. Qed.

Lemma dec_digit_value n : 0 <= n < 10 → digit_value (dec_digit n) = n ∧ is_digit (dec_digit n) = true.
Proof.
  intros Hn. unfold digit_value, is_digit, dec_digit. rewrite Z_of_byte_of_Z.
  rewrite Z.mod_small by lia. lia.
Qed.

Lemma digit_value_range b : is_digit b = true → 0 <= digit_value b < 10.
Proof. rewrite is_digit_spec. unfold digit_value. lia. Qed.

Lemma dec_value_snoc bs b : dec_value (bs ++ [b]) = 10 * dec_value bs + digit_value b.
Proof. unfold dec_value. by rewrite fold_left_app. Qed.

Lemma dec_value_app bs cs :
  dec_value (bs ++ cs) = dec_value bs * 10 ^ Z.of_nat (length cs) + dec_value cs.
Proof.
  induction cs as [|c cs IH] using rev_ind.
  - rewrite app_nil_r. cbn. lia.
  - rewrite (assoc_L (++)), !dec_value_snoc, IH, length_app, Nat2Z.inj_add.
    rewrite Z.pow_add_r by lia. cbn. lia.
Qed.

Lemma dec_value_bound bs : digits bs → 0 <= dec_value bs < 10 ^ Z.of_nat (length bs).
Proof.
  induction bs as [|b bs IH] using rev_ind; [done|].
  intros [Hd Hb]%digits_snoc.
  rewrite dec_value_snoc, length_app, Nat2Z.inj_add, Z.pow_add_r by lia.
  specialize (IH Hd). apply digit_value_range in Hb. cbn. lia.
Qed.

Lemma dec_value_zeros n : dec_value (replicate n (dec_digit 0)) = 0.
Proof.
  induction n as [|n IH]; [done|].
  rewrite replicate_S_end, dec_value_snoc, IH. done.
Qed.

Lemma digits_zeros n : digits (replicate n (dec_digit 0)).
Proof. by apply Forall_replicate. Qed.

Lemma length_fixed_digits w z : length (fixed_digits w z) = w.
Proof. revert z. induction w as [|w IH]; intros z; [done|]. cbn. rewrite length_app, IH. cbn. lia. Qed.

Lemma digits_fixed w z : digits (fixed_digits w z).
Proof.
  revert z. induction w as [|w IH]; intros z; cbn; [constructor|].
  apply digits_snoc. split; [apply IH|]. apply dec_digit_value. by apply Z.mod_pos_bound.
Qed.

Lemma fixed_digits_value w z : 0 <= z → dec_value (fixed_digits w z) = z mod 10 ^ Z.of_nat w.
Proof.
  revert z. induction w as [|w IH]; intros z Hz; cbn [fixed_digits]; [by rewrite Z.mod_1_r|].
  rewrite dec_value_snoc, IH by dlia.
  rewrite (proj1 (dec_digit_value (z mod 10) ltac:(dlia))).
  rewrite Nat2Z.inj_succ, Z.pow_succ_r, Z.rem_mul_r by lia. lia.
Qed.

Lemma count_digits_enough fuel z :
  0 <= z < 10 * 2 ^ Z.of_nat fuel → z < 10 ^ Z.of_nat (count_digits fuel z).
Proof.
  revert z. induction fuel as [|fuel IH]; intros z Hz.
  - cbn in *. lia.
  - cbn [count_digits]. destruct (Z.ltb_spec z 10); [cbn; lia|].
    rewrite Nat2Z.inj_succ, Z.pow_succ_r in * by lia.
    specialize (IH (z / 10)). pose proof (Z.div_mod z 10).
    assert (z / 10 < 10 ^ Z.of_nat (count_digits fuel (z / 10))) by (apply IH; dlia). dlia.
Qed.

Lemma dec_spec z : 0 <= z → dec_value (dec z) = z ∧ digits (dec z).
Proof.
  intros Hz. split; [|apply digits_fixed]. unfold dec. rewrite fixed_digits_value by done.
  apply Z.mod_small. split; [done|]. apply count_digits_enough. split; [done|].
  destruct (decide (z = 0)) as [->|]; [done|].
  rewrite Z2Nat.id by apply Z.log2_nonneg.
  pose proof (Z.log2_spec z ltac:(lia)) as [_ Hl]. rewrite Z.pow_succ_r in Hl; [lia|].
  apply Z.log2_nonneg.
Qed.

Lemma dec_nonempty z : dec z ≠ [].
Proof.
  unfold dec. intros H. apply (f_equal length) in H. rewrite length_fixed_digits in H.
  destruct (Z.to_nat (Z.log2 z)); cbn in H; [done|]. by destruct (z <? 10).
Qed.

Lemma count_digits_small fuel w z :
  0 <= z < 10 ^ Z.of_nat w → (0 < w)%nat → (count_digits fuel z ≤ w)%nat.
Proof.
  revert w z. induction fuel as [|fuel IH]; intros w z Hz Hw; cbn; [lia|].
  destruct (Z.ltb_spec z 10); [lia|]. destruct w as [|w]; [lia|].
  rewrite Nat2Z.inj_succ, Z.pow_succ_r in Hz by lia.
  destruct w as [|w]; [cbn in Hz; lia|]. apply le_n_S, IH; [dlia|lia].
Qed.

Lemma length_dec w z : 0 <= z < 10 ^ Z.of_nat w → (0 < w)%nat → (length (dec z) ≤ w)%nat.
Proof. intros. unfold dec. rewrite length_fixed_digits. by apply count_digits_small. Qed.

(** Strings of digits of one length are their value. *)
Lemma dec_value_inj bs cs :
  digits bs → digits cs → length bs = length cs → dec_value bs = dec_value cs → bs = cs.
Proof.
  revert cs. induction bs as [|b bs IH] using rev_ind; intros cs Hb Hc Hlen Hv.
  - symmetry in Hlen. by apply nil_length_inv in Hlen as ->.
  - destruct cs as [|c cs _] using rev_ind; [rewrite length_app in Hlen; cbn in Hlen; lia|].
    apply digits_snoc in Hb as [Hb Hb1]. apply digits_snoc in Hc as [Hc Hc1]. rewrite !length_app in Hlen. cbn in Hlen.
    rewrite !dec_value_snoc in Hv.
    pose proof (digit_value_range _ Hb1). pose proof (digit_value_range _ Hc1).
    rewrite (IH cs); [|done|done|lia|lia]. do 2 f_equal. apply Z_of_byte_inj.
    unfold digit_value in *. lia.
Qed.

(** Padding a notation with zeros on the left gives the fixed one. *)
Lemma dec_padded w z :
  0 <= z < 10 ^ Z.of_nat w → (0 < w)%nat →
  replicate (w - length (dec z)) (dec_digit 0) ++ dec z = fixed_digits w z.
Proof.
  intros Hz Hw. pose proof (dec_spec z ltac:(lia)) as [Hv Hd].
  pose proof (length_dec w z Hz Hw).
  apply dec_value_inj.
  - apply digits_app. split; [apply digits_zeros|done].
  - apply digits_fixed.
  - rewrite length_app, length_replicate, length_fixed_digits. lia.
  - rewrite dec_value_app, dec_value_zeros, fixed_digits_value, Hv by lia.
    rewrite Z.mod_small by lia. lia.
Qed.

Lemma count_digits_fuel f g z :
  0 <= z < 10 * 2 ^ Z.of_nat f → z < 10 * 2 ^ Z.of_nat g → count_digits f z = count_digits g z.
Proof.
  revert g z. induction f as [|f IH]; intros g z Hf Hg.
  - destruct g; cbn; [done|]. by rewrite (proj2 (Z.ltb_lt z 10)) by (cbn in Hf; lia).
  - destruct g as [|g]; cbn [count_digits].
    + by rewrite (proj2 (Z.ltb_lt z 10)) by (cbn in Hg; lia).
    + rewrite !Nat2Z.inj_succ, !Z.pow_succ_r in * by lia.
      destruct (Z.ltb_spec z 10); [done|]. f_equal. apply IH; dlia.
Qed.

Lemma log2_bound z : 0 <= z → z < 10 * 2 ^ Z.of_nat (Z.to_nat (Z.log2 z)).
Proof.
  intros Hz. destruct (decide (z = 0)) as [->|]; [done|]. rewrite Z2Nat.id by apply Z.log2_nonneg.
  pose proof (Z.log2_spec z ltac:(lia)) as [_ Hl]. rewrite Z.pow_succ_r in Hl by apply Z.log2_nonneg. lia.
Qed.

Lemma length_dec_div z : 10 <= z → length (dec z) = S (length (dec (z / 10))).
Proof.
  intros Hz. unfold dec. rewrite !length_fixed_digits.
  pose proof (log2_bound z ltac:(lia)) as Hl.
  destruct (Z.to_nat (Z.log2 z)) as [|f] eqn:Hf; [cbn in Hl; lia|].
  cbn [count_digits]. rewrite (proj2 (Z.ltb_ge z 10)) by done. f_equal.
  rewrite Nat2Z.inj_succ, Z.pow_succ_r in Hl by lia.
  apply count_digits_fuel; [dlia|apply log2_bound; dlia].
Qed.

(** The last three digits of a notation. *)
Lemma dec_thousands z :
  1000 <= z → dec z = dec (z / 1000) ++ fixed_digits 3 (z mod 1000).
Proof.
  intros Hz. pose proof (dec_spec z ltac:(lia)) as [Hv Hd].
  pose proof (dec_spec (z / 1000) ltac:(dlia)) as [Hv' Hd'].
  apply dec_value_inj; [done| | |].
  - apply digits_app. split; [done|apply digits_fixed].
  - rewrite length_app, length_fixed_digits. replace (z / 1000) with (z / 10 / 10 / 10) by dlia.
    rewrite (length_dec_div z), (length_dec_div (z / 10)), (length_dec_div (z / 10 / 10)) by dlia. lia.
  - rewrite dec_value_app, length_fixed_digits, fixed_digits_value, Hv, Hv' by dlia.
    change (10 ^ Z.of_nat 3) with 1000. rewrite Z.mod_mod by lia. dlia.
Qed.

(** The notation has no leading zero, but for zero itself. *)
Lemma dec_head z : 0 < z → head (dec z) ≠ Some (dec_digit 0).
Proof.
  intros Hz. pose proof (dec_spec z ltac:(lia)) as [Hv Hd].
  destruct (dec z) as [|c rest] eqn:E; [by destruct (dec_nonempty z)|]. intros [= ->].
  apply Forall_cons in Hd as [_ Hd]. change (_ :: rest) with ([dec_digit 0] ++ rest) in Hv.
  rewrite dec_value_app in Hv. change (dec_value [dec_digit 0]) with 0 in Hv.
  pose proof (dec_value_bound rest Hd) as Hb.
  destruct rest as [|c rest]; [cbn in Hv; lia|].
  change (length (c :: rest)) with (S (length rest)) in Hb.
  pose proof (length_dec (S (length rest)) z ltac:(lia) ltac:(lia)) as Hl.
  rewrite E in Hl. cbn in Hl. lia.
Qed.

Lemma take_digits_spec n s d r :
  take_digits n s = (d, r) → s = d ++ r ∧ digits d ∧ (length d ≤ n)%nat.
Proof.
  assert (Hnil : ∀ m (s' : list byte), s' = [] ++ s' ∧ digits [] ∧ (length (@nil byte) ≤ m)%nat).
  { intros m s'. split_and!; [done|constructor|cbn; lia]. }
  revert s d. induction n as [|n IH]; intros [|b s] d H; cbn in H; [by injection H as <- <-..|].
  destruct (is_digit b) eqn:Hb; [|by injection H as <- <-].
  destruct (take_digits n s) as [d' r'] eqn:E. injection H as <- <-.
  apply IH in E as (->&?&?). split_and!; [done|by constructor|cbn; lia].
Qed.

Lemma take_digits_app n d r :
  digits d → (length d ≤ n)%nat → (∀ b r', r = b :: r' → is_digit b = false) →
  take_digits n (d ++ r) = (d, r).
Proof.
  intros Hd Hlen Hr. revert n Hlen. induction Hd as [|b d Hb Hd IH]; intros n Hlen; cbn [app].
  - destruct n, r as [|c r']; try done. cbn. by rewrite (Hr c r').
  - cbn in Hlen. destruct n as [|n]; [lia|]. cbn. by rewrite Hb, IH by lia.
Qed.
