(* ===== verification/Amounts.v ===== *)
(** * Amounts and fee rates

    Models [src/zen/core/types/amounts.hpp] and [amounts.cpp]. An amount is
    its [int64_t]; arithmetic that overflows it is [Undefined]. The functions
    of Boost the code prints and parses with are parameters ([Boost]); the
    regular expression is a matcher proved equivalent to its reading. *)
From S2P Require Import Prelude Base Digits.
Local Open Scope Z_scope.

(** ** Boost *)

(** [lexical_cast] throws on a string that is not the notation of a value of
    the type; [format_i] is ["%i"] and [format_08i] is ["%08i"]. *)
Inductive bad_lexical_cast := Bad_lexical_cast.

Class Boost := {
  lexical_cast_int64 : list byte → outcome bad_lexical_cast Z;
  format_i : Z → list byte;
  format_08i : Z → list byte;
  lexical_cast_digits s :
    s ≠ [] → digits s → dec_value s <= int64_max → lexical_cast_int64 s = Return (dec_value s);
  format_i_spec z : format_i z = if z <? 0 then chars "-" ++ dec (- z) else dec z;
  format_08i_spec z :
    0 <= z → format_08i z = replicate (8 - length (dec z)) (dec_digit 0) ++ dec z
}.

Definition boost_reference : Boost.
Proof.
  refine {| lexical_cast_int64 s :=
              if bool_decide (s ≠ []) && forallb is_digit s && (dec_value s <=? int64_max)
              then Return (dec_value s) else Throw Bad_lexical_cast;
            format_i z := if z <? 0 then chars "-" ++ dec (- z) else dec z;
            format_08i z := replicate (8 - length (dec z)) (dec_digit 0) ++ dec z |}; try done.
  intros s Hs Hd Hv. rewrite bool_decide_true by done.
  assert (forallb is_digit s = true) as -> by (apply forallb_forall; intros b Hb;
    apply (proj1 (List.Forall_forall _ _) Hd b Hb)).
  by rewrite (proj2 (Z.leb_le _ _)).
Defined.

(** ** Amount *)

Definition Amount : Type := Z.
Definition kMax : Z := kCoinMaxSupply * kCoin.

Definition valid_money (a : Amount) : bool := (0 <=? a) && (a <=? kMax).
Definition amount_bool (a : Amount) : bool := negb (a =? 0).
Definition amount_eq (a : Amount) (value : Z) : bool := a =? value.
Definition amount_gt (a : Amount) (value : Z) : bool := value <? a.
Definition amount_lt (a : Amount) (value : Z) : bool := a <? value.
Definition deref (a : Amount) : Z := a.
Definition assign (a : Amount) (value : Z) : Amount := value.

Section arithmetic.
Context {X : Type}.
Local Abbreviation result := (outcome X Amount).

Definition add_assign (a : Amount) (value : Z) : result := int64 (a + value).
Definition mul_assign (a : Amount) (value : Z) : result := int64 (a * value).
Definition sub_assign (a : Amount) (value : Z) : result := int64 (a - value).
Definition increment (a : Amount) : result := int64 (a + 1).
Definition decrement (a : Amount) : result := int64 (a - 1).

Definition amount_add (lhs rhs : Amount) : result := int64 (lhs + rhs).
Definition amount_sub (lhs rhs : Amount) : result := int64 (lhs - rhs).
Definition amount_mul (lhs rhs : Amount) : result := int64 (lhs * rhs).
Definition amount_div (lhs rhs : Amount) : result :=
  if rhs =? 0 then Undefined else int64 (Z.quot lhs rhs).
Definition amount_rem (lhs rhs : Amount) : result :=
  if rhs =? 0 then Undefined
  else _ ← int64 (Z.quot lhs rhs); Return (Z.rem lhs rhs).
End arithmetic.

Section code.
Context `{Boost}.

(** The loop that strips the end of [formatted], on its reverse. *)
Fixpoint strip (formatted : list byte) : list byte :=
  match formatted with
  | c :: rest =>
      if decide (c = dec_digit 0) then strip rest
      else if decide (c = Byte.x2e) then rest
      else formatted
  | [] => []
  end.

Definition to_string (a : Amount) : list byte :=
  if a =? 0 then chars "0 " ++ kCurrency else
  let quot := Z.quot a kCoin in
  let rem := Z.rem a kCoin in
  let '(sign, rem) := if a <? 0 then (chars "-", rem * -1) else ([], rem) in
  let formatted := sign ++ format_i quot ++ chars "." ++ format_08i rem in
  let formatted := reverse (strip (reverse formatted)) in
  formatted ++ chars " " ++ kCurrency.

(** [^(\d{0,W})(\.\d{0,D})?$] with [W] the number of digits of the maximal
    supply and [D] the number of decimals: the two captures. *)
Definition kMaxWhole : list byte := dec kCoinMaxSupply.
Definition match_pattern (input : list byte) : option (list byte * list byte) :=
  let '(whole, rest) := take_digits (length kMaxWhole) input in
  match rest with
  | [] => Some (whole, [])
  | c :: rest =>
      if decide (c = Byte.x2e) then
        let '(fract, rest) := take_digits (Z.to_nat kCoinMaxDecimals) rest in
        match rest with
        | [] => Some (whole, Byte.x2e :: fract)
        | _ => None
        end
      else None
  end.

(** [fract_part.resize(kCoinMaxDecimals, '0')] *)
Definition resize_fract (fract : list byte) : list byte :=
  let n := Z.to_nat kCoinMaxDecimals in
  take n fract ++ replicate (n - length fract) (dec_digit 0).

Definition parse (input : list byte) : outcome bad_lexical_cast (expected DecodingError Amount) :=
  match match_pattern input with
  | None => Return (Unexpected kInvalidInput)
  | Some (whole_part, fract_part) =>
      let fract_part :=
        match fract_part with
        | [] => []
        | _ :: fract_part => resize_fract fract_part
        end in
      whole ← (if decide (whole_part = []) then Return 0 else lexical_cast_int64 whole_part);
      fract ← (if decide (fract_part = []) then Return 0 else lexical_cast_int64 fract_part);
      product ← int64 (whole * kCoin);
      value ← int64 (product + fract);
      if negb (valid_money value) then Return (Unexpected kInvalidAmountRange)
      else Return (Ok value)
  end.

(** ** FeeRate *)

Definition FeeRate : Type := Amount.

(** [static_cast<int64_t>(size_t)] *)
Definition int64_of_size (size : Z) : Z :=
  if size <? 2 ^ 63 then size else size - 2 ^ 64.

Definition FeeRate_of_paid {X} (paid : Amount) (size : Z) : outcome X FeeRate :=
  if size =? 0 then Return 0
  else product ← int64 (paid * 1000); int64 (Z.quot product (int64_of_size size)).

Definition fee_to_string (rate : FeeRate) : list byte := to_string rate ++ chars "/K".

Definition fee {X} (rate : FeeRate) (bytes_size : Z) : outcome X Amount :=
  product ← int64 (rate * int64_of_size bytes_size);
  let ret := Z.quot product 1000 in
  Return (if negb (amount_bool ret) && amount_bool rate then rate else ret).
End code.

(** ** Theory *)

Lemma int64_ok {X} z : int64_min <= z <= int64_max → int64 (X := X) z = Return z.
Proof. intros Hz. unfold int64, fits_int64. by rewrite (proj2 (Z.leb_le _ _)), (proj2 (Z.leb_le _ _)) by lia. Qed.

(** The reading of the pattern: at most eight digits, then nothing or a dot
    and at most eight digits. *)
Definition amount_syntax (input whole : list byte) (fract : option (list byte)) : Prop :=
  digits whole ∧ (length whole ≤ 8)%nat ∧
  match fract with
  | None => input = whole
  | Some f => input = whole ++ Byte.x2e :: f ∧ digits f ∧ (length f ≤ 8)%nat
  end.

Definition capture (fract : option (list byte)) : list byte :=
  match fract with None => [] | Some f => Byte.x2e :: f end.

Lemma match_pattern_complete input whole fract :
  amount_syntax input whole fract → match_pattern input = Some (whole, capture fract).
Proof.
  intros (Hw & Hlw & Hf). unfold match_pattern. change (length kMaxWhole) with 8%nat.
  destruct fract as [f|].
  - destruct Hf as (-> & Hdf & Hlf).
    rewrite take_digits_app; [|done|done|by intros ?? [= <- <-]].
    rewrite decide_True by done. change (Z.to_nat kCoinMaxDecimals) with 8%nat.
    rewrite <-(app_nil_r f) at 1. by rewrite take_digits_app by done.
  - subst input. rewrite <-(app_nil_r whole) at 1. by rewrite take_digits_app by done.
Qed.

Lemma match_pattern_sound input whole cap :
  match_pattern input = Some (whole, cap) →
  ∃ fract, cap = capture fract ∧ amount_syntax input whole fract.
Proof.
  unfold match_pattern. change (length kMaxWhole) with 8%nat.
  change (Z.to_nat kCoinMaxDecimals) with 8%nat.
  destruct (take_digits 8 input) as [w rest] eqn:E1. apply take_digits_spec in E1 as (-> & Hw & Hlw).
  destruct rest as [|c rest].
  - intros [= <- <-]. exists None. split; [done|]. by rewrite app_nil_r.
  - destruct (decide (c = Byte.x2e)) as [->|]; [|done].
    destruct (take_digits 8 rest) as [f rest'] eqn:E2.
    apply take_digits_spec in E2 as (-> & Hf & Hlf).
    destruct rest'; [|done]. intros [= <- <-]. exists (Some f). by rewrite app_nil_r.
Qed.

(** The number of satoshis an amount in the syntax stands for. *)
Definition syntax_value (whole : list byte) (fract : option (list byte)) : Z :=
  let f := default [] fract in
  dec_value whole * kCoin + dec_value f * 10 ^ (8 - Z.of_nat (length f)).

Lemma resize_fract_value f :
  digits f → (length f ≤ 8)%nat →
  digits (resize_fract f) ∧ length (resize_fract f) = 8%nat ∧
  dec_value (resize_fract f) = dec_value f * 10 ^ (8 - Z.of_nat (length f)).
Proof.
  intros Hd Hl. unfold resize_fract. change (Z.to_nat kCoinMaxDecimals) with 8%nat.
  rewrite take_ge by done. split_and!.
  - apply digits_app. split; [done|apply digits_zeros].
  - len.
  - rewrite dec_value_app, dec_value_zeros, length_replicate, Nat2Z.inj_sub by done. lia.
Qed.

Lemma pow10_8 n : (n ≤ 8)%nat → 10 ^ Z.of_nat n <= 10 ^ 8.
Proof. intros. apply Z.pow_le_mono_r; lia. Qed.

Section theory.
Context `{Boost}.

Lemma lexical_cast_short d :
  digits d → (length d ≤ 8)%nat →
  (if decide (d = []) then Return 0 else lexical_cast_int64 d) = Return (dec_value d) ∧
  0 <= dec_value d < 10 ^ 8.
Proof.
  intros Hd Hl. pose proof (dec_value_bound d Hd). pose proof (pow10_8 _ Hl).
  split; [|lia]. destruct (decide (d = [])) as [->|]; [done|].
  apply lexical_cast_digits; [done|done|]. unfold int64_max. const_pows. lia.
Qed.

Lemma parse_accepted input whole fract :
  amount_syntax input whole fract →
  parse input = Return (if syntax_value whole fract <=? kMax
                        then Ok (syntax_value whole fract)
                        else Unexpected kInvalidAmountRange).
Proof.
  intros Hs. pose proof Hs as (Hdw & Hlw & Hf). unfold parse, syntax_value.
  rewrite (match_pattern_complete _ _ _ Hs).
  destruct (lexical_cast_short whole Hdw Hlw) as [-> Hwb]. cbn [mbind outcome_bind].
  set (fp := match capture fract with [] => [] | _ :: f => resize_fract f end).
  set (fv := dec_value (default [] fract) * _).
  assert (Hfp : (if decide (fp = []) then Return 0 else lexical_cast_int64 fp) = Return fv
    ∧ 0 <= fv < 10 ^ 8).
  { destruct fract as [f|]; [|done].
    destruct Hf as (_ & Hdf & Hlf).
    destruct (resize_fract_value f Hdf Hlf) as (Hd & Hl & Hv).
    change fp with (resize_fract f).
    assert (fv = dec_value (resize_fract f)) as -> by (rewrite Hv; done).
    apply lexical_cast_short; [done|lia]. }
  destruct Hfp as [-> Hfb]. cbn [mbind outcome_bind]. unfold kCoin, kMax, kCoinMaxSupply in *.
  rewrite !int64_ok by (unfold int64_min, int64_max; const_pows; lia). cbn [mbind outcome_bind].
  rewrite int64_ok by (unfold int64_min, int64_max; const_pows; lia). cbn [mbind outcome_bind].
  unfold valid_money, kMax, kCoin, kCoinMaxSupply. rewrite (proj2 (Z.leb_le 0 _)) by lia. cbn [andb].
  by destruct (_ <=? _).
Qed.

(** C12: [parse] never overflows and never throws: an input of at most eight
    digits, optionally followed by a dot and at most eight digits, gives its
    exact number of satoshis when that is at most the maximal supply and
    [kInvalidAmountRange] otherwise; any other input gives
    [kInvalidInput]. *)
Theorem parse_spec input :
  (∀ whole fract, amount_syntax input whole fract →
    parse input = Return (if syntax_value whole fract <=? kMax
                          then Ok (syntax_value whole fract)
                          else Unexpected kInvalidAmountRange)) ∧
  (parse input = Return (Unexpected kInvalidInput) ↔
    ∀ whole fract, ¬ amount_syntax input whole fract).
Proof.
  split; [intros whole fract; apply parse_accepted|]. split.
  - intros Hp whole fract Hs. rewrite (parse_accepted _ _ _ Hs) in Hp.
    by destruct (_ <=? _).
  - intros Hn. unfold parse. destruct (match_pattern input) as [[whole cap]|] eqn:E; [|done].
    apply match_pattern_sound in E as (fract & _ & Hs). by apply Hn in Hs.
Qed.

(** ** Printing *)

Lemma strip_zeros k r : strip (replicate k (dec_digit 0) ++ r) = strip r.
Proof. induction k as [|k IH]; [done|]. cbn. by rewrite decide_True. Qed.

(** Digits after the last non-zero one are stripped, and the dot with them. *)
Lemma strip_digits f :
  digits f →
  ∃ f' k, f = f' ++ replicate k (dec_digit 0) ∧ last f' ≠ Some (dec_digit 0) ∧
    ∀ d, reverse (strip (reverse (d ++ chars "." ++ f)))
    = d ++ (if decide (f' = []) then [] else chars "." ++ f').
Proof.
  induction f as [|c f IH] using rev_ind; intros Hf.
  - exists [], 0%nat. split; [done|]. split; [done|]. intros d.
    change (chars "." ++ []) with [Byte.x2e]. rewrite reverse_snoc. cbn [strip].
    rewrite decide_False, decide_True by done. by rewrite reverse_involutive, decide_True, app_nil_r.
  - apply digits_snoc in Hf as [Hf Hc]. destruct (decide (c = dec_digit 0)) as [->|Hne].
    + destruct (IH Hf) as (f' & k & -> & Hlast & E). exists f', (S k). split_and!; [|done|].
      * by rewrite replicate_S_end, (assoc_L (++)).
      * intros d. rewrite <-E, !(assoc_L (++)), reverse_snoc. cbn [strip]. by rewrite decide_True.
    + exists (f ++ [c]), 0%nat. rewrite app_nil_r. split; [done|].
      split; [rewrite last_snoc; congruence|].
      intros d. rewrite decide_False by (by destruct f).
      rewrite !(assoc_L (++)), reverse_snoc. cbn [strip]. rewrite decide_False by done.
      rewrite decide_False; [by rewrite <-reverse_snoc, reverse_involutive|].
      intros ->. done.
Qed.

(** The notation without the currency. *)
Lemma to_string_nonneg a :
  0 < a <= int64_max →
  ∃ f k, fixed_digits 8 (a mod kCoin) = f ++ replicate k (dec_digit 0) ∧
    last f ≠ Some (dec_digit 0) ∧
    to_string a = (dec (a / kCoin) ++ (if decide (f = []) then [] else chars "." ++ f))
                  ++ chars " " ++ kCurrency.
Proof.
  intros Ha. unfold to_string. rewrite (proj2 (Z.eqb_neq a 0)), (proj2 (Z.ltb_ge a 0)) by lia.
  assert (0 < kCoin) by done.
  rewrite Z.quot_div_nonneg, Z.rem_mod_nonneg by lia.
  pose proof (Z.mod_pos_bound a kCoin ltac:(done)). pose proof (Z.div_pos a kCoin).
  rewrite format_i_spec, format_08i_spec, (proj2 (Z.ltb_ge _ 0)) by lia.
  rewrite (dec_padded 8) by (done || lia).
  destruct (strip_digits (fixed_digits 8 (a mod kCoin)) (digits_fixed _ _))
    as (f & k & Hf & Hl & Hs).
  exists f, k. split; [done|]. split; [done|]. cbn [app]. by rewrite Hs.
Qed.

(** C13: Every valid amount is printed in its canonical notation, followed by
    the currency: the digits of the whole coins, without a leading zero unless
    they are the single digit zero; then, if the amount is not a whole number
    of coins, a dot and the decimals, up to eight digits the last of which is
    not zero. What precedes the currency parses back to the amount. *)
Theorem amount_roundtrip a :
  valid_money a = true →
  ∃ whole f, let s := whole ++ (if decide (f = []) then [] else chars "." ++ f) in
    to_string a = s ++ chars " ZEN" ∧ parse s = Return (Ok a) ∧
    digits whole ∧ dec_value whole = a / 100000000 ∧
    (whole = chars "0" ∨ whole ≠ [] ∧ head whole ≠ Some (dec_digit 0)) ∧
    digits f ∧ (length f ≤ 8)%nat ∧
    dec_value f * 10 ^ (8 - Z.of_nat (length f)) = a mod 100000000 ∧
    last f ≠ Some (dec_digit 0).
Proof.
  unfold valid_money. intros Ha. unfold kMax in Ha. change (kCoinMaxSupply * kCoin) with 2100000000000000 in Ha.
  destruct (decide (a = 0)) as [->|Hne].
  { exists (chars "0"), []. split_and!; try (done || by left).
    - rewrite (parse_accepted _ (chars "0") None); [done|].
      repeat split; [repeat constructor|cbn; lia].
    - by repeat constructor.
    - cbn; lia. }
  destruct (to_string_nonneg a) as (f & k & Hf & Hl & Hs).
  { unfold int64_max. const_pows. lia. }
  exists (dec (a / kCoin)), f. split; [done|].
  assert (Hq : 0 <= a / kCoin < 10 ^ Z.of_nat 8) by (unfold kCoin; const_pows; dlia).
  destruct (dec_spec (a / kCoin)) as [Hqv Hqd]; [lia|].
  pose proof (length_dec 8 _ Hq ltac:(lia)) as Hql.
  assert (Hfd : digits f ∧ digits (replicate k (dec_digit 0))).
  { apply digits_app. rewrite <-Hf. apply digits_fixed. }
  assert (Hfl : (length f + k = 8)%nat).
  { apply (f_equal length) in Hf. rewrite length_fixed_digits in Hf. len. }
  assert (Hfv : dec_value f * 10 ^ Z.of_nat k = a mod kCoin).
  { apply (f_equal dec_value) in Hf. rewrite fixed_digits_value, dec_value_app, dec_value_zeros,
      length_replicate, Z.mod_small in Hf by (unfold kCoin; const_pows; dlia). lia. }
  split; [|split_and!; [done|done| |apply Hfd|lia| |done]].
  2: { destruct (decide (a / kCoin = 0)) as [->|Hn]; [by left|right].
       split; [apply dec_nonempty|]. apply dec_head. lia. }
  2: { replace (8 - Z.of_nat (length f)) with (Z.of_nat k) by lia. exact Hfv. }
  set (fract := if decide (f = []) then None else Some f).
  rewrite (parse_accepted _ (dec (a / kCoin)) fract).
  - assert (syntax_value (dec (a / kCoin)) fract = a) as ->.
    { unfold syntax_value. rewrite Hqv.
      replace (default [] fract) with f by (unfold fract; by destruct (decide (f = []))).
      replace (8 - Z.of_nat (length f)) with (Z.of_nat k) by lia. rewrite Hfv.
      unfold kCoin. dlia. }
    by rewrite (proj2 (Z.leb_le _ _)) by (unfold kMax, kCoin, kCoinMaxSupply; lia).
  - split; [done|]. split; [done|]. unfold fract. destruct (decide (f = [])) as [->|].
    + apply app_nil_r.
    + split; [done|]. split; [apply Hfd|lia].
Qed.

(** A negative amount of at least one coin is printed with two minus signs;
    a smaller one is printed as its opposite with one. *)
Theorem to_string_negative a :
  int64_min <= a < 0 →
  if a <=? - kCoin
  then ∃ s, to_string a = chars "--" ++ s
  else to_string a = chars "-" ++ to_string (- a).
Proof.
  intros Ha. assert (Hk : 0 < kCoin) by done.
  assert (Hs : to_string a =
    reverse (strip (reverse ((chars "-" ++ format_i (- (- a / kCoin)))
      ++ chars "." ++ fixed_digits 8 (- a mod kCoin)))) ++ chars " " ++ kCurrency).
  { unfold to_string. rewrite (proj2 (Z.eqb_neq a 0)), (proj2 (Z.ltb_lt a 0)) by lia.
    pose proof (Z.mod_pos_bound (- a) kCoin Hk).
    replace (Z.quot a kCoin) with (- (- a / kCoin))
      by (rewrite <-Z.quot_div_nonneg, Z.quot_opp_l; lia).
    replace (Z.rem a kCoin * -1) with (- a mod kCoin)
      by (rewrite <-Z.rem_mod_nonneg, Z.rem_opp_l; lia).
    rewrite format_08i_spec, (dec_padded 8) by (done || lia). by rewrite <-!(assoc_L (++)). }
  rewrite Hs. clear Hs.
  destruct (strip_digits (fixed_digits 8 (- a mod kCoin)) (digits_fixed _ _)) as (f & k & _ & _ & E).
  rewrite E. destruct (Z.leb_spec a (- kCoin)) as [Hle|Hgt].
  - assert (0 < - a / kCoin) by (apply Z.div_str_pos; lia).
    rewrite format_i_spec, (proj2 (Z.ltb_lt _ 0)) by lia.
    eexists. by rewrite <-!(assoc_L (++)).
  - rewrite Z.div_small by lia. rewrite format_i_spec. cbn [Z.opp Z.ltb Z.compare].
    unfold to_string. rewrite (proj2 (Z.eqb_neq (- a) 0)), (proj2 (Z.ltb_ge (- a) 0)) by lia.
    rewrite Z.quot_div_nonneg, Z.rem_mod_nonneg, Z.div_small by lia.
    pose proof (Z.mod_pos_bound (- a) kCoin Hk).
    rewrite format_i_spec, format_08i_spec, (dec_padded 8) by (done || lia).
    cbn [Z.ltb Z.compare]. rewrite (left_id_L [] (++)), E. by rewrite <-!(assoc_L (++)).
Qed.

(** ** Arithmetic *)

(** Sums and differences of valid amounts never overflow; nor does the
    construction of a fee rate from a valid amount and a size below 2^63,
    which rounds down the fee for a thousand bytes. *)
Theorem valid_arithmetic {X} a b size :
  valid_money a = true → valid_money b = true → 0 <= size < 2 ^ 63 →
  amount_add (X := X) a b = Return (a + b) ∧ amount_sub (X := X) a b = Return (a - b) ∧
  FeeRate_of_paid (X := X) a size = Return (if size =? 0 then 0 else a * 1000 / size).
Proof.
  unfold valid_money, kMax. change (kCoinMaxSupply * kCoin) with 2100000000000000.
  intros Ha Hb Hs. unfold amount_add, amount_sub, FeeRate_of_paid, int64_of_size.
  rewrite !int64_ok by (unfold int64_min, int64_max; const_pows; lia).
  split; [done|]. split; [done|]. destruct (Z.eqb_spec size 0); [done|].
  cbn [mbind outcome_bind]. rewrite (proj2 (Z.ltb_lt _ _)), Z.quot_div_nonneg by lia.
  apply int64_ok. unfold int64_min, int64_max. const_pows.
  pose proof (Z.div_pos (a * 1000) size). pose proof (Z.div_le_upper_bound (a * 1000) size (a * 1000)).
  nia.
Qed.

(** The fee of a size is undefined exactly when rate times size overflows;
    otherwise, for a non-negative rate, it is the rate per thousand bytes
    rounded down, never zero for a positive rate: a fee that would be zero is
    the whole rate. *)
Theorem fee_spec {X} rate size :
  0 <= rate <= int64_max → 0 <= size < 2 ^ 63 →
  fee (X := X) rate size =
    (if rate * size <=? int64_max then
       Return (if rate * size <? 1000 then rate else rate * size / 1000)
     else Undefined) ∧
  (∀ f, fee (X := X) rate size = Return f → 0 < rate → 0 < f).
Proof.
  intros Hr Hs. assert (E : fee (X := X) rate size =
    (if rate * size <=? int64_max then
       Return (if rate * size <? 1000 then rate else rate * size / 1000)
     else Undefined)).
  { unfold fee, int64_of_size. rewrite (proj2 (Z.ltb_lt _ _)) by lia.
    unfold int64, fits_int64. rewrite (proj2 (Z.leb_le int64_min _))
      by (unfold int64_min; const_pows; nia). cbn [andb].
    destruct (_ <=? int64_max); [|done]. cbn [mbind outcome_bind]. f_equal.
    rewrite Z.quot_div_nonneg by nia. unfold amount_bool.
    destruct (Z.ltb_spec (rate * size) 1000).
    - rewrite Z.div_small by nia. cbn. by destruct (Z.eqb_spec rate 0) as [->|].
    - assert (0 < rate * size / 1000) by (apply Z.div_str_pos; lia).
      by rewrite (proj2 (Z.eqb_neq _ 0)) by lia. }
  split; [done|]. intros f Hf Hpos. rewrite E in Hf.
  destruct (_ <=? int64_max); [|done]. injection Hf as <-.
  destruct (Z.ltb_spec (rate * size) 1000); [done|]. apply Z.div_str_pos. lia.
Qed.
End theory.

Lemma amount_roundtrip_witness :
  let _ := boost_reference in
  parse (chars "1.5") = Return (Ok 150000000).
Proof.
  destruct (amount_roundtrip (H := boost_reference) 150000000 eq_refl) as (w & f & Hs & Hp & _).
  intros I. replace (chars "1.5") with (w ++ (if decide (f = []) then [] else chars "." ++ f));
    [exact Hp|].
  symmetry. apply (app_inv_tail (chars " ZEN")). etransitivity; [|exact Hs].
  vm_compute. reflexivity.
Defined.

Lemma to_string_negative_witness :
  let _ := boost_reference in
  ∃ s, to_string (- 150000000) = chars "--" ++ s.
Proof.
  apply (to_string_negative (H := boost_reference) (- 150000000)). by vm_compute.
Defined.

Lemma valid_arithmetic_witness :
  FeeRate_of_paid (X := Empty_set) 2100000000000000 250 = Return 8400000000000000.
Proof. apply (valid_arithmetic 2100000000000000 0 250); by vm_compute. Defined.

Lemma fee_spec_witness : fee (X := Empty_set) 10 50 = Return 10.
Proof. apply (fee_spec 10 50); by vm_compute. Defined.
