(* ===== verification/Memory.v ===== *)
(** * Locked memory pages

    Models [src/zen/core/common/memory.hpp] (the page manager) and
    [secure_bytes.hpp] (the allocator over it); [Pages] has the policy class
    and the manager of the process. Addresses and sizes are [size_t], reduced modulo 2^64. What the operating
    system answers to a lock request is a parameter ([Locker]). The loops run
    over pages with fuel; [None] is a loop that has not ended with it. *)
From S2P Require Import Prelude Base.
From stdpp Require Import gmap sorting.
Local Open Scope Z_scope.

(** The policy class: [lock] and [unlock] of a page, with its own state. *)
Class Locker (Lk : Type) := {
  lk_lock : Lk → Z → Z → Lk * bool;
  lk_unlock : Lk → Z → Z → Lk * bool
}.

Section code.
Context {Lk : Type} `{Locker Lk}.

Record Manager := mk_Manager {
  locker_ : Lk;
  page_size_ : Z;
  page_mask_ : Z;
  locked_pages_ : gmap Z Z
}.

Definition new_Manager (locker : Lk) (page_size : Z) : outcome Empty_set Manager :=
  if (512 <=? page_size) && (page_size <=? lit_GiB 1) then
    if Z.land page_size (page_size - 1) =? 0 then
      Return (mk_Manager locker page_size (u64 (Z.lnot (page_size - 1))) ∅)
    else Abort
  else Abort.

Definition with_locker (this : Manager) (lk : Lk) : Manager :=
  mk_Manager lk (page_size_ this) (page_mask_ this) (locked_pages_ this).
Definition with_pages (this : Manager) (pages : gmap Z Z) : Manager :=
  mk_Manager (locker_ this) (page_size_ this) (page_mask_ this) pages.

Definition get_range_boundaries (this : Manager) (address size : Z) : Z * Z :=
  let start_page := Z.land address (page_mask_ this) in
  let end_page := Z.land (u64 (address + size - 1)) (page_mask_ this) in
  (start_page, end_page).

(** The body of the loop of [lock_range] on one page: the manager, and whether
    the loop goes on. *)
Definition lock_page (this : Manager) (page : Z) : Manager * bool :=
  match locked_pages_ this !! page with
  | Some n => (with_pages this (<[page := n + 1]> (locked_pages_ this)), true)
  | None =>
      let '(lk, ok) := lk_lock (locker_ this) page (page_size_ this) in
      let this := with_locker this lk in
      if ok then (with_pages this (<[page := 1]> (locked_pages_ this)), true)
      else (this, false)
  end.

Fixpoint lock_loop (fuel : nat) (page end_ : Z) (this : Manager) : option (Manager * bool) :=
  match fuel with
  | O => None
  | S fuel =>
      if page <=? end_ then
        let '(this, go) := lock_page this page in
        if go then lock_loop fuel (u64 (page + page_size_ this)) end_ this
        else Some (this, false)
      else Some (this, true)
  end.

Definition lock_range (fuel : nat) (this : Manager) (address size : Z) : option (Manager * bool) :=
  if (address =? 0) || (size =? 0) then Some (this, false) else
  let '(start, end_) := get_range_boundaries this address size in
  lock_loop fuel start end_ this.

(** The body of the loop of [unlock_range]. *)
Definition unlock_page (this : Manager) (page : Z) : outcome Empty_set (Manager * bool) :=
  match locked_pages_ this !! page with
  | None => Return (this, true)
  | Some n =>
      if 0 <? n then
        if n - 1 =? 0 then
          let '(lk, ok) := lk_unlock (locker_ this) page (page_size_ this) in
          let this := with_locker this lk in
          if ok then Return (with_pages this (delete page (locked_pages_ this)), true)
          else Return (this, false)
        else Return (with_pages this (<[page := n - 1]> (locked_pages_ this)), true)
      else Abort
  end.

Fixpoint unlock_loop (fuel : nat) (page end_ : Z) (this : Manager) :
    option (outcome Empty_set (Manager * bool)) :=
  match fuel with
  | O => None
  | S fuel =>
      if page <=? end_ then
        match unlock_page this page with
        | Return (this, true) => unlock_loop fuel (u64 (page + page_size_ this)) end_ this
        | o => Some o
        end
      else Some (Return (this, true))
  end.

Definition unlock_range (fuel : nat) (this : Manager) (address size : Z) :
    option (outcome Empty_set (Manager * bool)) :=
  if (address =? 0) || (size =? 0) then Some (Return (this, false)) else
  let '(start, end_) := get_range_boundaries this address size in
  unlock_loop fuel start end_ this.

Definition locked_size (this : Manager) : nat := base.size (locked_pages_ this).
Definition locked_empty (this : Manager) : bool := bool_decide (locked_pages_ this = ∅).
Definition locked_contains (this : Manager) (address : Z) : bool :=
  bool_decide (is_Some (locked_pages_ this !! Z.land address (page_mask_ this))).

(** The pages in the order of the [std::map]. *)
Definition pages_in_order (this : Manager) : list Z :=
  merge_sort Z.le (elements (dom (locked_pages_ this))).
Definition clear_page (this : Manager) (page : Z) : Manager :=
  let '(lk, ok) := lk_unlock (locker_ this) page (page_size_ this) in
  let this := with_locker this lk in
  if ok then with_pages this (delete page (locked_pages_ this)) else this.
Definition clear_pages (this : Manager) : Manager :=
  fold_left clear_page (pages_in_order this) this.

(** ** secure_bytes.hpp *)

(** [memory_cleanse] on a memory that maps addresses to bytes. *)
Definition memory_cleanse (memory : gmap Z byte) (ptr size : Z) : gmap Z byte :=
  fold_left (λ m k, <[ptr + k := Byte.x00]> m) (seqZ 0 size) memory.

(** [allocate]: [ptr] is what the base allocator returned, null for none; the
    answer of [lock_range] is ignored. *)
Definition allocate (fuel : nat) (this : Manager) (ptr sizeof n : Z) : option (Manager * Z) :=
  if ptr =? 0 then Some (this, 0)
  else '(this, _) ← lock_range fuel this ptr (u64 (sizeof * n)); Some (this, ptr).

Definition deallocate (fuel : nat) (this : Manager) (memory : gmap Z byte) (ptr sizeof n : Z) :
    option (outcome Empty_set (Manager * gmap Z byte)) :=
  if ptr =? 0 then Some (Return (this, memory)) else
  let memory := memory_cleanse memory ptr (u64 (sizeof * n)) in
  r ← unlock_range fuel this ptr (u64 (sizeof * n));
  Some ('(this, _) ← r; Return (this, memory)).

(** [lock_object_memory] and [unlock_object_memory] of an object of [sizeof]
    bytes at [address], on the manager of the process. *)
Definition lock_object_memory (fuel : nat) (this : Manager) (address sizeof : Z) :
    option (Manager * bool) :=
  lock_range fuel this address sizeof.
Definition unlock_object_memory (fuel : nat) (this : Manager) (memory : gmap Z byte)
    (address sizeof : Z) : gmap Z byte * option (outcome Empty_set (Manager * bool)) :=
  (memory_cleanse memory address sizeof, unlock_range fuel this address sizeof).
End code.
Arguments Manager : clear implicits.

(** ** Theory *)

(** A constructed manager whose counts are positive and whose pages are
    aligned: the invariant of the class. *)
Record manager_wf {Lk} (this : Manager Lk) : Prop := {
  wf_size : ∃ k, 9 <= k <= 30 ∧ page_size_ this = 2 ^ k;
  wf_mask : page_mask_ this = u64 (Z.lnot (page_size_ this - 1));
  wf_counts p n : locked_pages_ this !! p = Some n → 0 < n ∧ p mod page_size_ this = 0
}.

(** The lock count of a page. *)
Definition count {Lk} (this : Manager Lk) (p : Z) : Z := default 0 (locked_pages_ this !! p).

Lemma power_of_two p : 0 < p → Z.land p (p - 1) = 0 → p = 2 ^ Z.log2 p.
Proof.
  intros Hp Hl. pose proof (Z.log2_spec p Hp) as [Hlo Hhi].
  destruct (decide (p = 2 ^ Z.log2 p)) as [|Hne]; [done|exfalso].
  pose proof (Z.log2_nonneg p).
  assert (Hlog : Z.log2 (p - 1) = Z.log2 p) by (apply Z.log2_unique; lia).
  apply (f_equal (λ z, Z.testbit z (Z.log2 p))) in Hl.
  rewrite Z.land_spec, Z.bits_0, Z.bit_log2 in Hl by done.
  rewrite <-Hlog, Z.bit_log2 in Hl; [done|]. pose proof (Z.pow_pos_nonneg 2 (Z.log2 p)). lia.
Qed.

(** Masking an address rounds it down to its page. *)
Lemma land_mask a k :
  in_range 64 a → 0 <= k <= 64 → Z.land a (u64 (Z.lnot (2 ^ k - 1))) = a - a mod 2 ^ k.
Proof.
  intros Ha Hk. replace (2 ^ k - 1) with (Z.ones k) by (rewrite Z.ones_equiv; lia).
  unfold u64, wrap. rewrite <-Z.land_ones, (Z.land_comm (Z.lnot _)), Z.land_assoc by done.
  rewrite (Z.land_ones a), (Z.mod_small a) by done.
  rewrite <-Z.ldiff_land, Z.ldiff_ones_r by lia.
  rewrite Z.shiftl_mul_pow2, Z.shiftr_div_pow2 by lia. pose proof (Z.div_mod a (2 ^ k)). lia.
Qed.

Section theory.
Context {Lk : Type} `{Locker Lk}.
Implicit Types this : Manager Lk.

(** The pages of a range, and the loops as iterations over them. *)
Definition pages_from (ps start : Z) (n : nat) : list Z := (λ k, start + k * ps) <$> seqZ 0 (Z.of_nat n).

Fixpoint lock_pages (l : list Z) this : Manager Lk * bool :=
  match l with
  | [] => (this, true)
  | p :: l =>
      let '(this, go) := lock_page this p in
      if go then lock_pages l this else (this, false)
  end.
Fixpoint unlock_pages (l : list Z) this : outcome Empty_set (Manager Lk * bool) :=
  match l with
  | [] => Return (this, true)
  | p :: l =>
      match unlock_page this p with
      | Return (this, true) => unlock_pages l this
      | o => o
      end
  end.

Lemma lock_page_size this p : page_size_ (lock_page this p).1 = page_size_ this ∧
  page_mask_ (lock_page this p).1 = page_mask_ this.
Proof. unfold lock_page. repeat case_innermost; done. Qed.
Lemma unlock_page_size this p this' b :
  unlock_page this p = Return (this', b) →
  page_size_ this' = page_size_ this ∧ page_mask_ this' = page_mask_ this.
Proof. unfold unlock_page. repeat case_innermost; intros [= <- <-]; done. Qed.

Lemma pages_from_cons ps start n :
  pages_from ps start (S n) = start :: pages_from ps (start + ps) n.
Proof.
  unfold pages_from. rewrite Nat2Z.inj_succ, seqZ_cons, Z.pred_succ, fmap_cons by lia.
  f_equal; [lia|]. change (Z.succ 0) with (1 + 0).
  rewrite <-(fmap_add_seqZ 1 0), <-list_fmap_compose.
  apply list_fmap_ext. intros _ k _. cbn. lia.
Qed.

(** Without wrap-around the loops visit the pages of the range in order, and
    one unit of fuel more than there are pages is enough. *)
Lemma lock_loop_pages n fuel start end_ this :
  0 <= start → 0 < page_size_ this → start + Z.of_nat n * page_size_ this < 2 ^ 64 →
  end_ = start + (Z.of_nat n - 1) * page_size_ this → (n < fuel)%nat →
  lock_loop fuel start end_ this = Some (lock_pages (pages_from (page_size_ this) start n) this).
Proof.
  revert fuel start this. induction n as [|n IH]; intros [|fuel] start this Hs Hp Hw He Hf;
    cbn [lock_loop]; try lia.
  - by rewrite (proj2 (Z.leb_gt _ _)) by nia.
  - rewrite (proj2 (Z.leb_le _ _)), pages_from_cons by nia. cbn [lock_pages].
    destruct (lock_page_size this start) as [Hsz _].
    destruct (lock_page this start) as [this1 []]; [|done]. cbn [fst] in Hsz. rewrite Hsz.
    unfold u64. rewrite wrap_small by (unfold in_range; nia).
    rewrite <-Hsz in *. apply IH; rewrite ?Hsz; nia.
Qed.

Lemma unlock_loop_pages n fuel start end_ this :
  0 <= start → 0 < page_size_ this → start + Z.of_nat n * page_size_ this < 2 ^ 64 →
  end_ = start + (Z.of_nat n - 1) * page_size_ this → (n < fuel)%nat →
  unlock_loop fuel start end_ this = Some (unlock_pages (pages_from (page_size_ this) start n) this).
Proof.
  revert fuel start this. induction n as [|n IH]; intros [|fuel] start this Hs Hp Hw He Hf;
    cbn [unlock_loop]; try lia.
  - by rewrite (proj2 (Z.leb_gt _ _)) by nia.
  - rewrite (proj2 (Z.leb_le _ _)), pages_from_cons by nia. cbn [unlock_pages].
    destruct (unlock_page this start) as [[this1 []]| | |] eqn:E; try done.
    apply unlock_page_size in E as [Hsz _]. rewrite Hsz.
    unfold u64. rewrite wrap_small by (unfold in_range; nia).
    rewrite <-Hsz in *. apply IH; rewrite ?Hsz; nia.
Qed.

(** ** The lock counts *)

Lemma count_insert this p q n :
  count (with_pages this (<[p := n]> (locked_pages_ this))) q = if decide (q = p) then n else count this q.
Proof.
  unfold count. cbn. destruct (decide (q = p)) as [->|].
  - by rewrite lookup_insert_eq.
  - by rewrite lookup_insert_ne.
Qed.
Lemma count_delete this p q :
  count (with_pages this (delete p (locked_pages_ this))) q = if decide (q = p) then 0 else count this q.
Proof.
  unfold count. cbn. destruct (decide (q = p)) as [->|].
  - by rewrite lookup_delete_eq.
  - by rewrite lookup_delete_ne.
Qed.
Lemma count_locker this lk q : count (with_locker this lk) q = count this q.
Proof. done. Qed.

Lemma count_lookup this p :
  manager_wf this → locked_pages_ this !! p = (if 0 <? count this p then Some (count this p) else None).
Proof.
  intros Hw. unfold count. destruct (locked_pages_ this !! p) as [n|] eqn:E; cbn; [|done].
  apply (wf_counts _ Hw) in E as [Hn _]. by rewrite (proj2 (Z.ltb_lt _ _)).
Qed.

Lemma count_nonneg this p : manager_wf this → 0 <= count this p.
Proof.
  intros Hw. unfold count. destruct (locked_pages_ this !! p) as [n|] eqn:E; cbn; [|done].
  apply (wf_counts _ Hw) in E. lia.
Qed.

(** Well-formed managers with the same counts have the same pages. *)
Lemma count_ext this this' :
  manager_wf this → manager_wf this' → (∀ p, count this p = count this' p) →
  locked_pages_ this = locked_pages_ this'.
Proof.
  intros Hw Hw' Hc. apply map_eq. intros p. by rewrite !count_lookup, Hc.
Qed.

Lemma lock_page_true this p :
  manager_wf this → p mod page_size_ this = 0 →
  let '(this', go) := lock_page this p in
  manager_wf this' ∧ page_size_ this' = page_size_ this ∧
  ∀ q, count this' q = count this q + (if go then if decide (q = p) then 1 else 0 else 0).
Proof.
  intros Hw Hp. unfold lock_page.
  destruct (locked_pages_ this !! p) as [n|] eqn:E.
  - split_and!; [|done|].
    + destruct Hw as [Hs Hm Hc]. split; [done|done|]. intros q m Hq. cbn in *.
      apply lookup_insert_Some in Hq as [[<- <-]|[_ Hq]]; [|by apply Hc].
      apply Hc in E. split; [lia|done].
    + intros q. rewrite count_insert. destruct (decide (q = p)) as [->|]; [|lia].
      unfold count. by rewrite E.
  - destruct (lk_lock _ _ _) as [lk []].
    + split_and!; [|done|].
      * destruct Hw as [Hs Hm Hc]. split; [done|done|]. intros q m Hq. cbn in *.
        apply lookup_insert_Some in Hq as [[<- <-]|[_ Hq]]; [done|by apply Hc].
      * intros q. rewrite (count_insert (with_locker this lk)), count_locker.
        destruct (decide (q = p)) as [->|]; [|lia]. unfold count. by rewrite E.
    + split_and!; [by destruct Hw|done|]. intros q. rewrite count_locker. lia.
Qed.

Lemma unlock_page_true this p :
  manager_wf this → p mod page_size_ this = 0 →
  ∃ this' go, unlock_page this p = Return (this', go) ∧
  manager_wf this' ∧ page_size_ this' = page_size_ this ∧
  ∀ q, count this' q = (if go then if decide (q = p) then Z.max 0 (count this q - 1)
                                   else count this q else count this q).
Proof.
  intros Hw Hp. unfold unlock_page.
  destruct (locked_pages_ this !! p) as [n|] eqn:E.
  2:{ exists this, true. split_and!; [done..|]. intros q. destruct (decide (q = p)) as [->|]; [|done].
      unfold count. by rewrite E. }
  pose proof (wf_counts _ Hw _ _ E) as [Hn _]. rewrite (proj2 (Z.ltb_lt _ _)) by done.
  assert (Hcp : count this p = n) by (unfold count; by rewrite E).
  destruct (Z.eqb_spec (n - 1) 0) as [H1|H1].
  - destruct (lk_unlock _ _ _) as [lk []]; eexists _, _; (split; [done|]).
    + split_and!; [|done|].
      * destruct Hw as [Hs Hm Hc]. split; [done|done|]. intros q m Hq. cbn in *.
        apply lookup_delete_Some in Hq as [_ Hq]. by apply Hc.
      * intros q. rewrite (count_delete (with_locker this lk)), count_locker.
        destruct (decide (q = p)) as [->|]; lia.
    + split_and!; [by destruct Hw|done|]. done.
  - eexists _, _. split; [done|]. split_and!; [|done|].
    + destruct Hw as [Hs Hm Hc]. split; [done|done|]. intros q m Hq. cbn in *.
      apply lookup_insert_Some in Hq as [[<- <-]|[_ Hq]]; [|by apply Hc].
      split; [lia|done].
    + intros q. rewrite count_insert. destruct (decide (q = p)) as [->|]; lia.
Qed.

Lemma lock_pages_count l this :
  manager_wf this → NoDup l → Forall (λ p, p mod page_size_ this = 0) l →
  let '(this', ok) := lock_pages l this in
  manager_wf this' ∧ page_size_ this' = page_size_ this ∧
  (ok = true → ∀ q, count this' q = count this q + if decide (q ∈ l) then 1 else 0).
Proof.
  revert this. induction l as [|p l IH]; intros this Hw Hnd Hl; cbn [lock_pages].
  - split_and!; [done|done|]. intros _ q. rewrite decide_False by apply not_elem_of_nil. lia.
  - apply NoDup_cons in Hnd as [Hp Hnd]. apply Forall_cons in Hl as [Hpa Hl].
    pose proof (lock_page_true this p Hw Hpa) as H1. destruct (lock_page this p) as [this1 []].
    2: { destruct H1 as (Hw1 & Hs1 & _). by split_and!. }
    destruct H1 as (Hw1 & Hs1 & Hc1). rewrite <-Hs1 in Hl. specialize (IH this1 Hw1 Hnd Hl).
    destruct (lock_pages l this1) as [this2 ok]. destruct IH as (Hw2 & Hs2 & Hc2).
    split_and!; [done|congruence|]. intros Hok q. rewrite (Hc2 Hok), Hc1.
    destruct (decide (q = p)) as [->|Hne].
    + rewrite (decide_True (P := p ∈ p :: l)) by left.
      rewrite decide_False by done. lia.
    + rewrite (decide_ext (q ∈ p :: l) (q ∈ l)); [lia|].
      rewrite elem_of_cons. tauto.
Qed.

Lemma unlock_pages_count l this :
  manager_wf this → NoDup l → Forall (λ p, p mod page_size_ this = 0) l →
  ∃ this' ok, unlock_pages l this = Return (this', ok) ∧
  manager_wf this' ∧ page_size_ this' = page_size_ this ∧
  (ok = true → ∀ q, count this' q = if decide (q ∈ l) then Z.max 0 (count this q - 1) else count this q).
Proof.
  revert this. induction l as [|p l IH]; intros this Hw Hnd Hl; cbn [unlock_pages].
  - exists this, true. split_and!; [done..|]. intros _ q. by rewrite decide_False by apply not_elem_of_nil.
  - apply NoDup_cons in Hnd as [Hp Hnd]. apply Forall_cons in Hl as [Hpa Hl].
    destruct (unlock_page_true this p Hw Hpa) as (this1 & go & -> & Hw1 & Hs1 & Hc1).
    destruct go; [|by exists this1, false; split_and!].
    rewrite <-Hs1 in Hl. destruct (IH this1 Hw1 Hnd Hl) as (this2 & ok & E & Hw2 & Hs2 & Hc2).
    exists this2, ok. split_and!; [done|done|congruence|]. intros Hok q. rewrite (Hc2 Hok), Hc1.
    destruct (decide (q = p)) as [->|Hne].
    + rewrite (decide_True (P := p ∈ p :: l)) by left. by rewrite decide_False.
    + rewrite (decide_ext (q ∈ p :: l) (q ∈ l)); [done|].
      rewrite elem_of_cons. tauto.
Qed.

(** ** What the system is asked *)

(** The requests [f] for the pages of a list that need one, in order, up to
    the first the system refuses: its state after them, and that page. *)
Fixpoint ask (f : Lk → Z → Z → Lk * bool) (ps : Z) (needs : Z → bool) (lk : Lk) (l : list Z) :
    Lk * option Z :=
  match l with
  | [] => (lk, None)
  | p :: l =>
      if needs p then
        let '(lk, ok) := f lk p ps in
        if ok then ask f ps needs lk l else (lk, Some p)
      else ask f ps needs lk l
  end.

(** A page was passed before the refusal, if there was one. *)
Definition before (p : Z) (refused : option Z) : Prop :=
  match refused with Some r => p < r | None => True end.
#[local] Instance before_dec p refused : Decision (before p refused).
Proof. destruct refused; cbn; apply _. Defined.

Lemma ask_ext f ps needs needs' lk l :
  (∀ p, p ∈ l → needs p = needs' p) → ask f ps needs lk l = ask f ps needs' lk l.
Proof.
  revert lk. induction l as [|p l IH]; intros lk Hn; cbn [ask]; [done|].
  rewrite <-(Hn p) by left. destruct (needs p); [destruct (f lk p ps) as [lk1 []]; [|done]|];
    apply IH; intros q Hq; apply Hn; by right.
Qed.

Lemma ask_refused f ps needs lk l r : (ask f ps needs lk l).2 = Some r → r ∈ l.
Proof.
  revert lk. induction l as [|p l IH]; intros lk; cbn [ask]; [done|].
  destruct (needs p); [|intros Hr; right; by eapply IH].
  destruct (f lk p ps) as [lk1 []]; [intros Hr; right; by eapply IH|].
  intros [= <-]. left.
Qed.

(** The pages of [p :: l] passed, [p] being passed. *)
Lemma passed_cons f ps needs lk p l q :
  Forall (Z.lt p) l →
  (q ∈ p :: l ∧ before q (ask f ps needs lk l).2) ↔
  q = p ∨ (q ∈ l ∧ before q (ask f ps needs lk l).2).
Proof.
  intros Hl. rewrite elem_of_cons. split; [tauto|]. intros [->|]; [|tauto]. split; [by left|].
  destruct (ask f ps needs lk l).2 as [r|] eqn:E; [|done].
  apply ask_refused in E. cbn. by eapply Forall_forall in Hl.
Qed.

Lemma not_passed p l q : Forall (Z.lt p) l → ¬ (q ∈ p :: l ∧ before q (Some p)).
Proof.
  intros Hl [Hq Hb]. cbn in Hb. apply elem_of_cons in Hq as [->|Hq]; [lia|].
  eapply Forall_forall in Hl; [|done]. lia.
Qed.

Lemma lock_page_asks this p :
  manager_wf this →
  (locker_ (lock_page this p).1, (lock_page this p).2) =
  if count this p =? 0 then lk_lock (locker_ this) p (page_size_ this) else (locker_ this, true).
Proof.
  intros Hw. unfold lock_page, count. destruct (locked_pages_ this !! p) as [n|] eqn:E; cbn.
  - apply (wf_counts _ Hw) in E. by rewrite (proj2 (Z.eqb_neq n 0)) by lia.
  - by destruct (lk_lock _ _ _) as [lk []].
Qed.

Lemma unlock_page_asks this p this' go :
  unlock_page this p = Return (this', go) →
  (locker_ this', go) =
  if count this p =? 1 then lk_unlock (locker_ this) p (page_size_ this) else (locker_ this, true).
Proof.
  unfold unlock_page, count. destruct (locked_pages_ this !! p) as [n|] eqn:E; cbn.
  2: { by intros [= <- <-]. }
  destruct (0 <? n); [|done].
  replace (n =? 1) with (n - 1 =? 0) by (destruct (Z.eqb_spec n 1), (Z.eqb_spec (n - 1) 0); lia).
  destruct (n - 1 =? 0); [|by intros [= <- <-]].
  destruct (lk_unlock _ _ _) as [lk []]; by intros [= <- <-].
Qed.

(** What the loops do, exactly: they pass the pages up to the first the system
    refuses, of those it has to be asked for. *)
Lemma lock_pages_exact l this :
  manager_wf this → StronglySorted Z.lt l → Forall (λ p, p mod page_size_ this = 0) l →
  let '(lk, refused) :=
    ask lk_lock (page_size_ this) (λ p, count this p =? 0) (locker_ this) l in
  ∃ this', lock_pages l this = (this', bool_decide (refused = None)) ∧
    manager_wf this' ∧ page_size_ this' = page_size_ this ∧ locker_ this' = lk ∧
    ∀ q, count this' q = count this q + if decide (q ∈ l ∧ before q refused) then 1 else 0.
Proof.
  revert this. induction l as [|p l IH]; intros this Hw Hs Hl; cbn [lock_pages ask].
  { exists this. split_and!; [done..|]. intros q. rewrite decide_False; [lia|].
    by intros [?%not_elem_of_nil _]. }
  apply StronglySorted_inv in Hs as [Hs Hp]. apply Forall_cons in Hl as [Hpa Hl].
  pose proof (lock_page_true this p Hw Hpa) as H1. pose proof (lock_page_asks this p Hw) as H2.
  destruct (lock_page this p) as [this1 go]. destruct H1 as (Hw1 & Hs1 & Hc1). cbn [fst snd] in H2.
  destruct go.
  - rewrite <-Hs1 in Hl. specialize (IH this1 Hw1 Hs Hl).
    rewrite (ask_ext _ _ _ (λ q, count this q =? 0)) in IH.
    2: { intros q Hq. rewrite Hc1, decide_False; [by rewrite Z.add_0_r|].
         intros ->. eapply Forall_forall in Hp; [|done]. lia. }
    assert (E : (if count this p =? 0 then
        let '(lk, ok) := lk_lock (locker_ this) p (page_size_ this) in
        if ok then ask lk_lock (page_size_ this) (λ q, count this q =? 0) lk l else (lk, Some p)
      else ask lk_lock (page_size_ this) (λ q, count this q =? 0) (locker_ this) l) =
      ask lk_lock (page_size_ this1) (λ q, count this q =? 0) (locker_ this1) l).
    { rewrite Hs1. destruct (count this p =? 0); [by rewrite <-H2|by injection H2 as ->]. }
    rewrite E. pose proof (λ q, passed_cons lk_lock (page_size_ this1) (λ q, count this q =? 0)
      (locker_ this1) p l q Hp) as Hpass.
    destruct (ask _ _ _ _ _) as [lk refused]. cbn [snd] in Hpass.
    destruct IH as (this2 & E2 & Hw2 & Hs2 & Hlk & Hc2). exists this2.
    split_and!; [done|done|congruence|done|]. intros q. rewrite Hc2, Hc1.
    rewrite (decide_ext _ _ _ _ (Hpass q)). destruct (decide (q = p)) as [->|Hne].
    + rewrite decide_False, decide_True; [lia|by left|].
      intros [Hq _]. eapply Forall_forall in Hp; [|done]. lia.
    + rewrite (decide_ext (q = p ∨ q ∈ l ∧ before q refused) (q ∈ l ∧ before q refused)); [lia|tauto].
  - destruct (count this p =? 0); [|done]. rewrite <-H2. exists this1. split_and!; [done..|].
    intros q. rewrite Hc1, decide_False by by apply not_passed. done.
Qed.

Lemma unlock_pages_exact l this :
  manager_wf this → StronglySorted Z.lt l → Forall (λ p, p mod page_size_ this = 0) l →
  let '(lk, refused) :=
    ask lk_unlock (page_size_ this) (λ p, count this p =? 1) (locker_ this) l in
  ∃ this', unlock_pages l this = Return (this', bool_decide (refused = None)) ∧
    manager_wf this' ∧ page_size_ this' = page_size_ this ∧ locker_ this' = lk ∧
    ∀ q, count this' q =
      if decide (q ∈ l ∧ before q refused) then Z.max 0 (count this q - 1) else count this q.
Proof.
  revert this. induction l as [|p l IH]; intros this Hw Hs Hl; cbn [unlock_pages ask].
  { exists this. split_and!; [done..|]. intros q. rewrite decide_False; [done|].
    by intros [?%not_elem_of_nil _]. }
  apply StronglySorted_inv in Hs as [Hs Hp]. apply Forall_cons in Hl as [Hpa Hl].
  destruct (unlock_page_true this p Hw Hpa) as (this1 & go & E1 & Hw1 & Hs1 & Hc1).
  pose proof (unlock_page_asks this p this1 go E1) as H2. rewrite E1. destruct go.
  - rewrite <-Hs1 in Hl. specialize (IH this1 Hw1 Hs Hl).
    rewrite (ask_ext _ _ _ (λ q, count this q =? 1)) in IH.
    2: { intros q Hq. rewrite Hc1, decide_False; [done|].
         intros ->. eapply Forall_forall in Hp; [|done]. lia. }
    assert (E : (if count this p =? 1 then
        let '(lk, ok) := lk_unlock (locker_ this) p (page_size_ this) in
        if ok then ask lk_unlock (page_size_ this) (λ q, count this q =? 1) lk l else (lk, Some p)
      else ask lk_unlock (page_size_ this) (λ q, count this q =? 1) (locker_ this) l) =
      ask lk_unlock (page_size_ this1) (λ q, count this q =? 1) (locker_ this1) l).
    { rewrite Hs1. destruct (count this p =? 1); [by rewrite <-H2|by injection H2 as ->]. }
    rewrite E. pose proof (λ q, passed_cons lk_unlock (page_size_ this1) (λ q, count this q =? 1)
      (locker_ this1) p l q Hp) as Hpass.
    destruct (ask _ _ _ _ _) as [lk refused]. cbn [snd] in Hpass.
    destruct IH as (this2 & E2 & Hw2 & Hs2 & Hlk & Hc2). exists this2.
    split_and!; [done|done|congruence|done|]. intros q. rewrite Hc2, Hc1.
    rewrite (decide_ext _ _ _ _ (Hpass q)). destruct (decide (q = p)) as [->|Hne].
    + rewrite decide_False, decide_True; [done|by left|].
      intros [Hq _]. eapply Forall_forall in Hp; [|done]. lia.
    + by rewrite (decide_ext (q = p ∨ q ∈ l ∧ before q refused) (q ∈ l ∧ before q refused)) by tauto.
  - destruct (count this p =? 1); [|done]. rewrite <-H2. exists this1. split_and!; [done..|].
    intros q. rewrite Hc1, decide_False by by apply not_passed. done.
Qed.

(** ** Ranges *)

(** The range is not empty, is no null pointer and ends before the last page
    of the address space. *)
Definition range_ok this (address size : Z) : Prop :=
  0 < address ∧ 0 < size ∧ address + size <= 2 ^ 64 - page_size_ this.

(** A page has a byte of the range. *)
Definition overlaps (ps address size p : Z) : Prop :=
  p mod ps = 0 ∧ p < address + size ∧ address < p + ps.
#[local] Instance overlaps_dec ps address size p : Decision (overlaps ps address size p).
Proof. unfold overlaps. apply _. Defined.

Definition range_start this (address : Z) : Z := address - address mod page_size_ this.
Definition range_length this (address size : Z) : nat :=
  S (Z.to_nat ((address + size - 1) / page_size_ this - address / page_size_ this)).
Definition range_pages this (address size : Z) : list Z :=
  pages_from (page_size_ this) (range_start this address) (range_length this address size).

Lemma wf_page_size this : manager_wf this → 0 < page_size_ this < 2 ^ 31.
Proof.
  intros Hw. destruct (wf_size _ Hw) as (k & Hk & ->). split; [by apply Z.pow_pos_nonneg; lia|].
  apply Z.pow_lt_mono_r; lia.
Qed.

Lemma range_boundaries this address size :
  manager_wf this → range_ok this address size →
  get_range_boundaries this address size =
  (range_start this address,
   range_start this address + (Z.of_nat (range_length this address size) - 1) * page_size_ this).
Proof.
  intros Hw (Ha & Hs & Hr). pose proof (wf_page_size _ Hw) as Hp.
  unfold get_range_boundaries. rewrite (wf_mask _ Hw).
  destruct (wf_size _ Hw) as (k & Hk & E). rewrite E in *.
  rewrite !land_mask by (try apply wrap_range; unfold in_range; lia).
  unfold u64. rewrite wrap_small by (unfold in_range; lia).
  unfold range_start, range_length. rewrite E. f_equal.
  pose proof (Z.div_mod address (2 ^ k)). pose proof (Z.div_mod (address + size - 1) (2 ^ k)).
  pose proof (Z.div_le_mono address (address + size - 1) (2 ^ k)).
  rewrite Nat2Z.inj_succ, Z2Nat.id by lia. lia.
Qed.

Lemma range_pages_spec this address size p :
  manager_wf this → range_ok this address size →
  p ∈ range_pages this address size ↔ overlaps (page_size_ this) address size p.
Proof.
  intros Hw (Ha & Hs & Hr). pose proof (wf_page_size _ Hw) as [Hp _].
  unfold range_pages, pages_from, range_length, range_start, overlaps. set (ps := page_size_ this) in *.
  pose proof (Z.div_mod address ps). pose proof (Z.mod_pos_bound address ps Hp).
  pose proof (Z.div_mod (address + size - 1) ps).
  pose proof (Z.mod_pos_bound (address + size - 1) ps Hp).
  pose proof (Z.div_le_mono address (address + size - 1) ps).
  rewrite list_elem_of_fmap. split.
  - intros (k & -> & Hk). apply elem_of_seqZ in Hk.
    rewrite Nat2Z.inj_succ, Z2Nat.id in Hk by lia.
    replace (address - address mod ps + k * ps) with ((address / ps + k) * ps) by lia.
    split; [apply Z_mod_mult|]. split; nia.
  - intros (Hm & Hlt & Hgt). exists (p / ps - address / ps).
    pose proof (Z.div_mod p ps). split; [lia|]. apply elem_of_seqZ.
    rewrite Nat2Z.inj_succ, Z2Nat.id by lia. split; nia.
Qed.

Lemma range_pages_NoDup this address size : manager_wf this → NoDup (range_pages this address size).
Proof.
  intros Hw. pose proof (wf_page_size _ Hw). apply NoDup_fmap_2; [|apply NoDup_seqZ].
  intros x y E. nia.
Qed.

Lemma pages_from_sorted ps start n : 0 < ps → StronglySorted Z.lt (pages_from ps start n).
Proof.
  intros Hp. revert start. induction n as [|n IH]; intros start; [constructor|].
  rewrite pages_from_cons. constructor; [apply IH|]. apply Forall_forall. intros q Hq.
  unfold pages_from in Hq. apply list_elem_of_fmap in Hq as (k & -> & Hk%elem_of_seqZ). nia.
Qed.

Lemma range_pages_aligned this address size :
  manager_wf this → range_ok this address size →
  Forall (λ p, p mod page_size_ this = 0) (range_pages this address size).
Proof. intros Hw Hr. apply Forall_forall. intros p Hp. by apply range_pages_spec in Hp as [? _]. Qed.

(** Enough fuel for a range of this size. *)
Definition range_fuel this (size : Z) : nat := Z.to_nat (size / page_size_ this) + 3.

Lemma range_side this address size fuel :
  manager_wf this → range_ok this address size → (range_fuel this size ≤ fuel)%nat →
  (range_length this address size < fuel)%nat ∧ 0 <= range_start this address ∧
  range_start this address + Z.of_nat (range_length this address size) * page_size_ this < 2 ^ 64.
Proof.
  intros Hw (Ha & Hs & Hr) Hf. pose proof (wf_page_size _ Hw) as [Hp _].
  unfold range_fuel, range_start, range_length in *. set (ps := page_size_ this) in *.
  pose proof (Z.div_mod address ps). pose proof (Z.mod_pos_bound address ps Hp).
  pose proof (Z.div_mod (address + size - 1) ps). pose proof (Z.div_mod size ps).
  pose proof (Z.mod_pos_bound (address + size - 1) ps Hp). pose proof (Z.mod_pos_bound size ps Hp).
  pose proof (Z.div_le_mono address (address + size - 1) ps). pose proof (Z.div_pos address ps).
  rewrite Nat2Z.inj_succ, Z2Nat.id by lia. split_and!; [|nia|nia].
  assert ((address + size - 1) / ps - address / ps <= size / ps + 1) by nia.
  pose proof (Z.div_pos size ps). lia.
Qed.

Lemma lock_range_pages this address size fuel :
  manager_wf this → range_ok this address size → (range_fuel this size ≤ fuel)%nat →
  lock_range fuel this address size = Some (lock_pages (range_pages this address size) this).
Proof.
  intros Hw Hr Hf. pose proof (range_side _ _ _ _ Hw Hr Hf) as (Hl & Hs & Hn).
  pose proof (wf_page_size _ Hw). pose proof Hr as (? & ? & _).
  unfold lock_range. rewrite (proj2 (Z.eqb_neq address 0)), (proj2 (Z.eqb_neq size 0)) by lia.
  cbn [orb]. rewrite range_boundaries by done. apply lock_loop_pages; done || lia.
Qed.

Lemma unlock_range_pages this address size fuel :
  manager_wf this → range_ok this address size → (range_fuel this size ≤ fuel)%nat →
  unlock_range fuel this address size = Some (unlock_pages (range_pages this address size) this).
Proof.
  intros Hw Hr Hf. pose proof (range_side _ _ _ _ Hw Hr Hf) as (Hl & Hs & Hn).
  pose proof (wf_page_size _ Hw). pose proof Hr as (? & ? & _).
  unfold unlock_range. rewrite (proj2 (Z.eqb_neq address 0)), (proj2 (Z.eqb_neq size 0)) by lia.
  cbn [orb]. rewrite range_boundaries by done. apply unlock_loop_pages; done || lia.
Qed.

Lemma clear_page_wf this p :
  manager_wf this → manager_wf (clear_page this p) ∧ page_size_ (clear_page this p) = page_size_ this ∧
  locked_pages_ (clear_page this p) ⊆ locked_pages_ this ∧
  ((lk_unlock (locker_ this) p (page_size_ this)).2 = true →
   locked_pages_ (clear_page this p) = delete p (locked_pages_ this)).
Proof.
  intros [Hs Hm Hc]. unfold clear_page. destruct (lk_unlock _ _ _) as [lk []]; cbn.
  - split_and!; [split; cbn|done|apply delete_subseteq|done]; [done..|].
    intros q n [_ Hq]%lookup_delete_Some. by apply Hc.
  - by split_and!.
Qed.

Lemma clear_fold_wf l this :
  manager_wf this → manager_wf (fold_left clear_page l this) ∧
  locked_pages_ (fold_left clear_page l this) ⊆ locked_pages_ this ∧
  ((∀ lk p s, (lk_unlock lk p s).2 = true) → ∀ p, p ∈ l →
   locked_pages_ (fold_left clear_page l this) !! p = None).
Proof.
  revert this. induction l as [|q l IH]; intros this Hw; cbn [fold_left].
  - split_and!; [done|done|]. by intros _ p ?%not_elem_of_nil.
  - destruct (clear_page_wf this q Hw) as (Hw1 & _ & Hsub1 & Hdel).
    destruct (IH _ Hw1) as (Hw2 & Hsub2 & Hempty). split_and!; [done|by etransitivity|].
    intros Hlk p [->|Hp]%elem_of_cons; [|by apply Hempty].
    apply (lookup_weaken_None _ (locked_pages_ (clear_page this q))); [|done].
    rewrite Hdel by apply Hlk. apply lookup_delete_eq.
Qed.

(** The constructor aborts exactly on a page size that is not a power of
    two between 512 bytes and a gibibyte and otherwise gives an empty manager
    that satisfies the invariant; [clear] keeps the invariant, adds no page,
    and leaves none when the system refuses nothing. *)
Theorem manager_invariant (lk : Lk) ps :
  (new_Manager lk ps = Abort ∨
   ∃ this, new_Manager lk ps = Return this ∧ manager_wf this ∧ locked_empty this = true ∧
     page_size_ this = ps) ∧
  (new_Manager lk ps = Abort ↔ ¬ ∃ k, 9 <= k <= 30 ∧ ps = 2 ^ k) ∧
  (∀ this, manager_wf this → manager_wf (clear_pages this) ∧
     locked_pages_ (clear_pages this) ⊆ locked_pages_ this ∧
     ((∀ l p s, (lk_unlock l p s).2 = true) → locked_empty (clear_pages this) = true)).
Proof.
  assert (Hpow : (512 <=? ps) && (ps <=? lit_GiB 1) && (Z.land ps (ps - 1) =? 0) = true ↔
    ∃ k, 9 <= k <= 30 ∧ ps = 2 ^ k).
  { rewrite !andb_true_iff. change (lit_GiB 1) with 1073741824. split.
    - intros [[H1 H2] H3]. exists (Z.log2 ps). split; [|apply power_of_two; lia].
      split; [apply Z.log2_le_pow2; lia|].
      enough (Z.log2 ps < 31) by lia. apply Z.log2_lt_pow2; [lia|]. const_pows. lia.
    - intros (k & Hk & ->). replace k with (Z.of_nat (Z.to_nat k)) by lia.
      assert (Hn : (9 ≤ Z.to_nat k ≤ 30)%nat) by lia. revert Hn. generalize (Z.to_nat k).
      intros n Hn. do 31 (destruct n as [|n]; [cbn in *; lia || (vm_compute; done)|]). lia. }
  unfold new_Manager. split_and!.
  - destruct ((512 <=? ps) && (ps <=? lit_GiB 1)) eqn:E1; [|by left].
    destruct (Z.land ps (ps - 1) =? 0) eqn:E2; [|by left].
    right. eexists. split; [done|]. split_and!; [|done|done].
    split; cbn; [by apply Hpow|done|]. intros p n Hp. by rewrite lookup_empty in Hp.
  - rewrite <-Hpow. destruct ((512 <=? ps) && (ps <=? lit_GiB 1)), (Z.land ps (ps - 1) =? 0);
      cbn; split; intros Hab; done || (by contradict Hab).
  - intros this Hw. unfold clear_pages.
    destruct (clear_fold_wf (pages_in_order this) this Hw) as (Hw' & Hsub & Hempty).
    split_and!; [done|done|]. intros Hlk. apply bool_decide_eq_true_2, map_empty. intros p.
    destruct (locked_pages_ this !! p) as [n|] eqn:E.
    + apply Hempty; [done|]. unfold pages_in_order.
      rewrite merge_sort_Permutation, elem_of_elements. by apply elem_of_dom_2 in E.
    + by eapply lookup_weaken_None.
Qed.

Lemma lock_range_counts this address size fuel :
  manager_wf this → range_ok this address size → (range_fuel this size ≤ fuel)%nat →
  ∃ this' ok, lock_range fuel this address size = Some (this', ok) ∧ manager_wf this' ∧
    (ok = true → ∀ p, count this' p = count this p +
       if decide (overlaps (page_size_ this) address size p) then 1 else 0).
Proof.
  intros Hw Hr Hf. rewrite lock_range_pages by done.
  pose proof (lock_pages_count _ this Hw (range_pages_NoDup this address size Hw)
    (range_pages_aligned this address size Hw Hr)) as Hl.
  destruct (lock_pages _ this) as [this' ok]. destruct Hl as (Hw' & _ & Hc).
  exists this', ok. split_and!; [done|done|]. intros Hok p. rewrite (Hc Hok).
  by rewrite (decide_ext _ _ _ _ (range_pages_spec this address size p Hw Hr)).
Qed.

Lemma unlock_range_counts this address size fuel :
  manager_wf this → range_ok this address size → (range_fuel this size ≤ fuel)%nat →
  ∃ this' ok, unlock_range fuel this address size = Some (Return (this', ok)) ∧ manager_wf this' ∧
    (ok = true → ∀ p, count this' p =
       if decide (overlaps (page_size_ this) address size p)
       then Z.max 0 (count this p - 1) else count this p).
Proof.
  intros Hw Hr Hf. rewrite unlock_range_pages by done.
  destruct (unlock_pages_count _ this Hw (range_pages_NoDup this address size Hw)
    (range_pages_aligned this address size Hw Hr)) as (this' & ok & -> & Hw' & _ & Hc).
  exists this', ok. split_and!; [done|done|]. intros Hok p. rewrite (Hc Hok).
  by rewrite (decide_ext _ _ _ _ (range_pages_spec this address size p Hw Hr)).
Qed.

(** C16: Of a range that is not empty, not at the null pointer and below the
    last page of the address space, [lock_range] and [unlock_range] end, keep
    the invariant of the manager and abort on no assertion. What they do is
    determined: in the order of the addresses, the system is asked once for
    each page with a byte of the range that has no lock yet (one lock, for
    [unlock_range]), up to the first request it refuses. They return [true] if
    it refuses none; the pages of the range before the refused one, or all of
    them, have their count raised, or lowered where they were locked, by one,
    and no other count changes. *)
Theorem lock_unlock_counts this address size fuel :
  manager_wf this → range_ok this address size → (range_fuel this size ≤ fuel)%nat →
  ∃ pages, StronglySorted Z.lt pages ∧ (∀ p, p ∈ pages ↔ overlaps (page_size_ this) address size p) ∧
  (let '(lk, refused) :=
     ask lk_lock (page_size_ this) (λ p, count this p =? 0) (locker_ this) pages in
   ∃ this', lock_range fuel this address size = Some (this', bool_decide (refused = None)) ∧
     manager_wf this' ∧ locker_ this' = lk ∧
     ∀ p, count this' p = count this p + if decide (p ∈ pages ∧ before p refused) then 1 else 0) ∧
  (let '(lk, refused) :=
     ask lk_unlock (page_size_ this) (λ p, count this p =? 1) (locker_ this) pages in
   ∃ this', unlock_range fuel this address size
       = Some (Return (this', bool_decide (refused = None))) ∧
     manager_wf this' ∧ locker_ this' = lk ∧
     ∀ p, count this' p =
       if decide (p ∈ pages ∧ before p refused) then Z.max 0 (count this p - 1) else count this p).
Proof.
  intros Hw Hr Hf. exists (range_pages this address size).
  assert (Hs : StronglySorted Z.lt (range_pages this address size))
    by (apply pages_from_sorted; by apply wf_page_size).
  pose proof (range_pages_aligned this address size Hw Hr) as Ha.
  split; [done|]. split; [intros p; by apply range_pages_spec|].
  rewrite lock_range_pages, unlock_range_pages by done. split.
  - pose proof (lock_pages_exact _ this Hw Hs Ha) as He. destruct (ask _ _ _ _ _) as [lk refused].
    destruct He as (this' & -> & ? & _ & ? & ?). by exists this'.
  - pose proof (unlock_pages_exact _ this Hw Hs Ha) as He. destruct (ask _ _ _ _ _) as [lk refused].
    destruct He as (this' & -> & ? & _ & ? & ?). by exists this'.
Qed.

(** Unlocking a range right after it was locked gives back the very pages
    and counts there were before, provided the system refused neither
    request. *)
Theorem lock_unlock_restores this address size fuel this1 this2 :
  manager_wf this → range_ok this address size → (range_fuel this size ≤ fuel)%nat →
  lock_range fuel this address size = Some (this1, true) →
  unlock_range fuel this1 address size = Some (Return (this2, true)) →
  locked_pages_ this2 = locked_pages_ this.
Proof.
  intros Hw Hr Hf. rewrite lock_range_pages by done. intros [= El] Eu.
  pose proof (range_pages_NoDup this address size Hw) as Hnd.
  pose proof (range_pages_aligned this address size Hw Hr) as Hal.
  pose proof (lock_pages_count _ this Hw Hnd Hal) as Hl. rewrite El in Hl.
  destruct Hl as (Hw1 & Hs1 & Hc1).
  assert (Hp : range_pages this1 address size = range_pages this address size)
    by (unfold range_pages, range_start, range_length; by rewrite Hs1).
  rewrite unlock_range_pages, Hp in Eu; [|done| |].
  2: { destruct Hr as (?&?&?). split_and!; [done|done|by rewrite Hs1]. }
  2: { unfold range_fuel in *. by rewrite Hs1. }
  rewrite <-Hs1 in Hal.
  destruct (unlock_pages_count _ this1 Hw1 Hnd Hal) as (this2' & ok & Eu' & Hw2 & _ & Hc2).
  rewrite Eu' in Eu. injection Eu as -> ->. apply count_ext; [done|done|].
  intros p. rewrite Hc2, Hc1 by done.
  pose proof (count_nonneg this p Hw).
  destruct (decide _); lia.
Qed.

(** A refused lock is not undone, and the allocator unlocks what it did not
    lock: after a request on two pages whose first page the system refuses,
    [allocate] reports nothing, and the [deallocate] of the same memory
    unlocks the second page although another owner still holds it. *)
Theorem failed_lock_releases_others this q fuel memory lk1 lk2 :
  manager_wf this → let ps := page_size_ this in
  0 < q → q mod ps = 0 → q + 2 * ps <= 2 ^ 64 - ps → (5 ≤ fuel)%nat →
  locked_pages_ this !! q = None → locked_pages_ this !! (q + ps) = Some 1 →
  lk_lock (locker_ this) q ps = (lk1, false) → lk_unlock lk1 (q + ps) ps = (lk2, true) →
  ∃ this1 this2 memory', allocate fuel this q 1 (2 * ps) = Some (this1, q) ∧
    locked_pages_ this1 = locked_pages_ this ∧
    deallocate fuel this1 memory q 1 (2 * ps) = Some (Return (this2, memory')) ∧
    locked_pages_ this2 !! (q + ps) = None.
Proof.
  intros Hw ps Hq Hqa Hqr Hf Hnone Hsome Hlock Hunlock.
  pose proof (wf_page_size _ Hw) as [Hps Hps'].
  assert (Hr : range_ok this q (2 * ps)) by (unfold range_ok; fold ps; lia).
  assert (Hpages : range_pages this q (2 * ps) = [q; q + ps]).
  { unfold range_pages, range_start, range_length. fold ps. rewrite Hqa.
    replace ((q + 2 * ps - 1) / ps - q / ps) with 1.
    - change (Z.to_nat 1) with 1%nat. rewrite !pages_from_cons, Z.sub_0_r. reflexivity.
    - replace (q + 2 * ps - 1) with (ps - 1 + (q / ps + 1) * ps)
        by (pose proof (Z.div_mod q ps); lia).
      rewrite Z.div_add, Z.div_small by lia. lia. }
  assert (Hfuel : (range_fuel this (2 * ps) ≤ fuel)%nat).
  { unfold range_fuel. fold ps. rewrite Z.div_mul by lia. cbn. lia. }
  assert (Hsz : u64 (1 * (2 * ps)) = 2 * ps).
  { unfold u64. rewrite wrap_small; [lia|]. unfold in_range. fold ps in Hps'. const_pows. lia. }
  set (this1 := with_locker this lk1).
  set (this2 := with_pages (with_locker this1 lk2) (delete (q + ps) (locked_pages_ this1))).
  exists this1, this2, (memory_cleanse memory q (2 * ps)).
  unfold allocate, deallocate. rewrite (proj2 (Z.eqb_neq q 0)), Hsz by lia.
  assert (Hw1 : manager_wf this1) by by destruct Hw.
  rewrite lock_range_pages, (unlock_range_pages this1) by done.
  change (range_pages this1 q (2 * ps)) with (range_pages this q (2 * ps)). rewrite Hpages.
  cbn [lock_pages unlock_pages]. unfold lock_page, unlock_page.
  rewrite Hnone. fold ps. rewrite Hlock. cbn [mbind option_bind fst].
  split; [done|]. split; [done|]. change (locked_pages_ this1) with (locked_pages_ this).
  rewrite Hnone. change (locked_pages_ this1) with (locked_pages_ this).
  rewrite Hsome. cbn [Z.ltb Z.compare Z.sub Z.opp Z.add Z.pos_sub Z.eqb].
  change (locker_ this1) with lk1. change (page_size_ this1) with ps. rewrite Hunlock.
  split; [done|]. apply lookup_delete_eq.
Qed.

(** On the last page of the address space the loop counter wraps and, when
    the system refuses nothing, [lock_range] never ends. *)
Theorem last_page_diverges this address size fuel :
  manager_wf this → (∀ lk p s, (lk_lock lk p s).2 = true) →
  0 < address → 0 < size → 2 ^ 64 - page_size_ this < address + size <= 2 ^ 64 →
  lock_range fuel this address size = None.
Proof.
  intros Hw Hlk Ha Hs Hr. pose proof (wf_page_size _ Hw) as [Hps _].
  unfold lock_range. rewrite (proj2 (Z.eqb_neq address 0)), (proj2 (Z.eqb_neq size 0)) by lia.
  cbn [orb]. unfold get_range_boundaries. rewrite (wf_mask _ Hw).
  destruct (wf_size _ Hw) as (k & Hk & E). rewrite E in *.
  rewrite !land_mask by (try apply wrap_range; unfold in_range; lia).
  assert (u64 (address + size - 1) = address + size - 1) as ->
    by (apply wrap_small; unfold in_range; lia).
  assert (H64 : 2 ^ 64 = 2 ^ (64 - k) * 2 ^ k) by (rewrite <-Z.pow_add_r by lia; f_equal; lia).
  assert (Hend : address + size - 1 - (address + size - 1) mod 2 ^ k = 2 ^ 64 - 2 ^ k).
  { rewrite <-(Z.mod_unique_pos (address + size - 1) (2 ^ k) (2 ^ (64 - k) - 1)
      (address + size - 1 - (2 ^ 64 - 2 ^ k))); lia. }
  rewrite Hend.
  cut (∀ page this', page_size_ this' = 2 ^ k → in_range 64 page → page mod 2 ^ k = 0 →
    lock_loop fuel page (2 ^ 64 - 2 ^ k) this' = None).
  { intros Hcut. apply Hcut; [done| |].
    - pose proof (Z.mod_le address (2 ^ k)). pose proof (Z.mod_pos_bound address (2 ^ k)).
      unfold in_range. lia.
    - rewrite Zminus_mod_idemp_r, Z.sub_diag. by apply Z.mod_0_l; lia. }
  induction fuel as [|fuel IH]; intros page this' E' Hp Hpa; [done|]. cbn [lock_loop].
  assert (Hle : page <= 2 ^ 64 - 2 ^ k).
  { unfold in_range in Hp. pose proof (Z.div_mod page (2 ^ k)). nia. }
  rewrite (proj2 (Z.leb_le _ _) Hle).
  pose proof (lock_page_size this' page) as [Hsz _].
  assert (Hgo : (lock_page this' page).2 = true).
  { unfold lock_page. destruct (_ !! page); [done|].
    specialize (Hlk (locker_ this') page (page_size_ this')).
    destruct (lk_lock _ _ _) as [lk ok]. cbn in Hlk. by subst ok. }
  destruct (lock_page this' page) as [this1 go]. cbn in Hsz, Hgo. subst go.
  apply IH; [congruence|by apply wrap_range|].
  rewrite Hsz, E'. unfold u64, wrap. rewrite Z.mod_mod_divide by (exists (2 ^ (64 - k)); lia).
  rewrite <-Z.add_mod_idemp_l, Hpa by lia. apply Z_mod_same_full.
Qed.
End theory.

(** ** Witnesses: a system that never refuses, and one that refuses a page *)

Definition always : Locker unit :=
  {| lk_lock _ _ _ := (tt, true); lk_unlock _ _ _ := (tt, true) |}.
Definition refuses (q : Z) : Locker unit :=
  {| lk_lock _ p _ := (tt, negb (p =? q)); lk_unlock _ _ _ := (tt, true) |}.

Definition some_manager (pages : gmap Z Z) : Manager unit :=
  mk_Manager tt 4096 (u64 (Z.lnot 4095)) pages.

Lemma some_manager_wf : manager_wf (some_manager {[ 8192 := 1 ]}).
Proof.
  split; [by exists 12|done|]. cbn. intros p n [<- <-]%lookup_singleton_Some. done.
Qed.

Lemma ask_always f ps needs l : (∀ p s, f tt p s = (tt, true)) → ask f ps needs tt l = (tt, None).
Proof.
  intros Hf. induction l as [|p l IH]; cbn [ask]; [done|]. rewrite Hf. by destruct (needs p).
Qed.

Lemma lock_unlock_counts_witness :
  ∃ this', lock_range (H := always) 5 (some_manager {[ 8192 := 1 ]}) 8191 2 = Some (this', true) ∧
    manager_wf this' ∧ count this' 4096 = 1 ∧ count this' 8192 = 2.
Proof.
  destruct (lock_unlock_counts (H := always) (some_manager {[ 8192 := 1 ]}) 8191 2 5)
    as (pages & _ & Hp & Hl & _);
    [exact some_manager_wf|by vm_compute|by apply (bool_decide_unpack _)|].
  cbn [locker_ some_manager] in Hl. rewrite ask_always in Hl by reflexivity.
  destruct Hl as (this' & E & Hw & _ & Hc). exists this'. split; [exact E|]. split; [exact Hw|].
  split; (rewrite Hc, decide_True; [reflexivity|]); (split; [|exact I]); apply Hp;
    apply (bool_decide_unpack _); vm_compute; exact I.
Defined.

Lemma lock_unlock_restores_witness :
  let locked := some_manager {[ 4096 := 1; 8192 := 2 ]} in
  lock_range (H := always) 5 (some_manager {[ 8192 := 1 ]}) 8191 2 = Some (locked, true) ∧
  ∀ this2, unlock_range (H := always) 5 locked 8191 2 = Some (Return (this2, true)) →
    locked_pages_ this2 = {[ 8192 := 1 ]}.
Proof.
  split; [vm_compute; reflexivity|]. intros this2.
  refine (lock_unlock_restores (H := always) (some_manager {[ 8192 := 1 ]}) 8191 2 5
    (some_manager {[ 4096 := 1; 8192 := 2 ]}) this2 some_manager_wf _ _ _);
    [by vm_compute|by apply (bool_decide_unpack _)|vm_compute; reflexivity].
Defined.

Lemma failed_lock_releases_others_witness :
  let this := some_manager {[ 8192 := 1 ]} in
  let ps := page_size_ this in
  ∃ this1 this2 memory',
    allocate (H := refuses 4096) 5 this 4096 1 (2 * ps) = Some (this1, 4096) ∧
    locked_pages_ this1 = locked_pages_ this ∧
    deallocate (H := refuses 4096) 5 this1 ∅ 4096 1 (2 * ps) = Some (Return (this2, memory')) ∧
    locked_pages_ this2 !! (4096 + ps) = None.
Proof.
  refine (failed_lock_releases_others (H := refuses 4096) (some_manager {[ 8192 := 1 ]}) 4096 5 ∅
    tt tt some_manager_wf _ _ _ _ _ _ _ _); by vm_compute || lia.
Defined.

Lemma last_page_diverges_witness :
  lock_range (H := always) 1000 (some_manager {[ 8192 := 1 ]}) (2 ^ 64 - 4096) 100 = None.
Proof.
  apply (last_page_diverges (H := always)); [exact some_manager_wf|done|by vm_compute..].
Defined.
