(* ===== verification/Pages.v ===== *)
(** * The locked pages and the operating system

    Models what [src/zen/core/common/memory.cpp] asks of the system, as
    compiled on Linux: [get_mem_usage], [get_system_page_size] and the policy
    class [MemoryPageLocker], and the instance of the page manager from
    [memory.hpp]. The system calls are an interface ([SystemCalls]). *)
From S2P Require Import Prelude Base Memory.
From stdpp Require Import gmap sorting.
Local Open Scope Z_scope.

(** Whether the system keeps the page of an aligned address in memory, and
    what mlock(2) and munlock(2) do to that: on success, to every page with a
    byte of the range, and else nothing. Locks do not nest. *)
Class SystemCalls (Sy : Type) := {
  sysconf_pagesize : Sy → Z;
  mlock : Sy → Z → Z → Sy * Z;
  munlock : Sy → Z → Z → Sy * Z;
  os_locked : Sy → Z → bool;
  sysconf_range s : in_range 64 (sysconf_pagesize s);
  mlock_spec s addr len : 0 < len → let '(s', r) := mlock s addr len in
    sysconf_pagesize s' = sysconf_pagesize s ∧
    ∀ p, p mod sysconf_pagesize s = 0 →
      os_locked s' p = os_locked s p ||
        ((r =? 0) && bool_decide (overlaps (sysconf_pagesize s) addr len p));
  munlock_spec s addr len : 0 < len → let '(s', r) := munlock s addr len in
    sysconf_pagesize s' = sysconf_pagesize s ∧
    ∀ p, p mod sysconf_pagesize s = 0 →
      os_locked s' p = os_locked s p &&
        negb ((r =? 0) && bool_decide (overlaps (sysconf_pagesize s) addr len p))
}.

Section code.
Context `{SystemCalls Sy}.
Implicit Types this : Manager Sy.

(** [numbers] is what reading the file of the process gives: none when it
    cannot be opened. *)
Definition get_mem_usage (numbers : option (list Z)) (page_size : Z) (resident : bool) : Z :=
  let '(vm_size, rm_size) :=
    match numbers with
    | Some (vm :: rm :: _) => (u64 (vm * page_size), u64 (rm * page_size))
    | _ => (0, 0)
    end in
  if resident then rm_size else vm_size.

Definition get_system_page_size (s : Sy) : Z := u64 (sysconf_pagesize s).

Definition MemoryPageLocker_lock (s : Sy) (addr len : Z) : Sy * bool :=
  let '(s, r) := mlock s addr len in (s, r =? 0).
Definition MemoryPageLocker_unlock (s : Sy) (addr len : Z) : Sy * bool :=
  let '(s, r) := munlock s addr len in (s, r =? 0).

#[export] Instance MemoryPageLocker : Locker Sy :=
  {| lk_lock := MemoryPageLocker_lock; lk_unlock := MemoryPageLocker_unlock |}.

(** [create_instance] runs in the first call only, on the system as it is
    then. *)
Definition create_instance (s : Sy) : outcome Empty_set (Manager Sy) := new_Manager s (get_system_page_size s).
Definition instance (instance_ : option (Manager Sy)) (s : Sy) : outcome Empty_set (Manager Sy) :=
  match instance_ with Some m => Return m | None => create_instance s end.

(** The destructor; the manager ends with it. *)
Definition destroy_Manager (this : Manager Sy) : Sy := locker_ (clear_pages this).

(** ** What the manager counts is what the system keeps *)

(** One use of the manager of the process, by addresses of the machine. *)
Inductive use (this : Manager Sy) : Manager Sy → Prop :=
  | use_lock fuel address size this' ok :
      in_range 64 address → lock_range fuel this address size = Some (this', ok) → use this this'
  | use_unlock fuel address size this' ok :
      in_range 64 address → unlock_range fuel this address size = Some (Return (this', ok)) → use this this'
  | use_allocate fuel ptr sizeof n this' r :
      in_range 64 ptr → allocate fuel this ptr sizeof n = Some (this', r) → use this this'
  | use_deallocate fuel memory ptr sizeof n this' memory' :
      in_range 64 ptr → deallocate fuel this memory ptr sizeof n = Some (Return (this', memory')) →
      use this this'
  | use_clear : use this (clear_pages this).

Inductive uses (this : Manager Sy) : Manager Sy → Prop :=
  | uses_refl : uses this this
  | uses_step this' this'' : uses this this' → use this' this'' → uses this this''.

(** The manager's pages are those of the system, and the system keeps exactly
    the ones counted. *)
Record agrees (this : Manager Sy) : Prop := {
  agrees_wf : manager_wf this;
  agrees_size : sysconf_pagesize (locker_ this) = page_size_ this;
  agrees_pages p : p mod page_size_ this = 0 →
    os_locked (locker_ this) p = bool_decide (is_Some (locked_pages_ this !! p))
}.

Lemma overlaps_page ps p q : 0 < ps → p mod ps = 0 → q mod ps = 0 → overlaps ps p ps q ↔ q = p.
Proof.
  intros Hps Hp Hq. unfold overlaps. pose proof (Z.div_mod p ps ltac:(lia)). pose proof (Z.div_mod q ps ltac:(lia)).
  split; [|by intros ->; lia]. intros (_ & Hlt & Hgt). rewrite Hp, Hq in *.
  assert (q / ps = p / ps) by nia. lia.
Qed.

(** Locking and unlocking one page, counted or not. *)
Lemma locker_lock_page s p ps s' ok :
  sysconf_pagesize s = ps → 0 < ps → p mod ps = 0 → MemoryPageLocker_lock s p ps = (s', ok) →
  sysconf_pagesize s' = ps ∧
  ∀ q, q mod ps = 0 → os_locked s' q = os_locked s q || (ok && bool_decide (q = p)).
Proof.
  intros Hs Hps Hp. unfold MemoryPageLocker_lock. pose proof (mlock_spec s p ps Hps) as Hm.
  destruct (mlock s p ps) as [s1 r]. intros [= <- <-]. destruct Hm as [Hsz Hq]. rewrite Hs in *.
  split; [done|]. intros q Hqa. rewrite Hq by done. do 2 f_equal. by apply bool_decide_ext, overlaps_page.
Qed.

Lemma locker_unlock_page s p ps s' ok :
  sysconf_pagesize s = ps → 0 < ps → p mod ps = 0 → MemoryPageLocker_unlock s p ps = (s', ok) →
  sysconf_pagesize s' = ps ∧
  ∀ q, q mod ps = 0 → os_locked s' q = os_locked s q && negb (ok && bool_decide (q = p)).
Proof.
  intros Hs Hps Hp. unfold MemoryPageLocker_unlock. pose proof (munlock_spec s p ps Hps) as Hm.
  destruct (munlock s p ps) as [s1 r]. intros [= <- <-]. destruct Hm as [Hsz Hq]. rewrite Hs in *.
  split; [done|]. intros q Hqa. rewrite Hq by done. do 3 f_equal. by apply bool_decide_ext, overlaps_page.
Qed.

Lemma lock_page_agrees this p :
  agrees this → p mod page_size_ this = 0 →
  agrees (lock_page this p).1 ∧ page_size_ (lock_page this p).1 = page_size_ this.
Proof.
  intros [Hw Hs Ha] Hp. pose proof (lock_page_true this p Hw Hp) as Ht. pose proof (wf_page_size _ Hw) as [Hps _].
  destruct (lock_page this p) as [this' go] eqn:E. destruct Ht as (Hw' & Hsz & _). cbn [fst].
  split; [|done]. revert E. unfold lock_page. destruct (locked_pages_ this !! p) as [n|] eqn:Hn.
  - intros [= <- _]. split; [done|done|]. intros q Hq. cbn [locked_pages_ with_pages locker_ page_size_] in *.
    rewrite Ha by done. apply bool_decide_ext. destruct (decide (q = p)) as [->|].
    + by rewrite lookup_insert_eq, Hn.
    + by rewrite lookup_insert_ne.
  - destruct (lk_lock (locker_ this) p (page_size_ this)) as [lk ok] eqn:El.
    apply (locker_lock_page _ _ _ _ _ Hs Hps Hp) in El as [Hs' Hq'].
    destruct ok; intros [= <- _]; (split; [done|done|]); intros q Hq;
      cbn [locked_pages_ with_pages with_locker locker_ page_size_] in *; rewrite Hq', Ha by done.
    + destruct (decide (q = p)) as [->|].
      * rewrite lookup_insert_eq, (bool_decide_eq_true_2 (p = p)), orb_true_r by done.
        symmetry. apply bool_decide_eq_true_2. by eexists.
      * rewrite lookup_insert_ne, (bool_decide_false (q = p)) by done. apply orb_false_r.
    + apply orb_false_r.
Qed.

Lemma unlock_page_agrees this p this' go :
  agrees this → p mod page_size_ this = 0 → unlock_page this p = Return (this', go) →
  agrees this' ∧ page_size_ this' = page_size_ this.
Proof.
  intros [Hw Hs Ha] Hp E. pose proof (wf_page_size _ Hw) as [Hps _].
  destruct (unlock_page_true this p Hw Hp) as (t & g & E' & Hw' & Hsz & _). rewrite E in E'. injection E' as <- <-.
  split; [|done]. revert E. unfold unlock_page. destruct (locked_pages_ this !! p) as [n|] eqn:Hn;
    [|by intros [= <- _]]. destruct (0 <? n); [|done]. destruct (n - 1 =? 0).
  - destruct (lk_unlock (locker_ this) p (page_size_ this)) as [lk ok] eqn:El.
    apply (locker_unlock_page _ _ _ _ _ Hs Hps Hp) in El as [Hs' Hq'].
    destruct ok; intros [= <- _]; (split; [done|done|]); intros q Hq;
      cbn [locked_pages_ with_pages with_locker locker_ page_size_] in *; rewrite Hq', Ha by done.
    + destruct (decide (q = p)) as [->|].
      * rewrite lookup_delete_eq, (bool_decide_true (p = p)), andb_false_r by done.
        by rewrite bool_decide_false by apply is_Some_None.
      * rewrite lookup_delete_ne, (bool_decide_false (q = p)) by done. apply andb_true_r.
    + apply andb_true_r.
  - intros [= <- _]. split; [done|done|]. intros q Hq. cbn [locked_pages_ with_pages locker_ page_size_] in *.
    rewrite Ha by done. apply bool_decide_ext. destruct (decide (q = p)) as [->|].
    + by rewrite lookup_insert_eq, Hn.
    + by rewrite lookup_insert_ne.
Qed.

Lemma next_page_aligned ps p :
  (∃ k, 9 <= k <= 30 ∧ ps = 2 ^ k) → p mod ps = 0 → u64 (p + ps) mod ps = 0.
Proof.
  intros (k & Hk & ->) Hp. unfold u64, wrap.
  assert (H64 : 2 ^ 64 = 2 ^ (64 - k) * 2 ^ k) by (rewrite <-Z.pow_add_r by lia; f_equal; lia).
  rewrite Z.mod_mod_divide by (exists (2 ^ (64 - k)); lia).
  rewrite <-Z.add_mod_idemp_l, Hp by lia. apply Z_mod_same_full.
Qed.

(** A range begins with an aligned page, wherever it ends. *)
Lemma first_page_aligned this address size :
  manager_wf this → in_range 64 address → (get_range_boundaries this address size).1 mod page_size_ this = 0.
Proof.
  intros Hw Ha. unfold get_range_boundaries. cbn [fst]. rewrite (wf_mask _ Hw).
  destruct (wf_size _ Hw) as (k & Hk & ->). rewrite land_mask by (done || lia).
  rewrite Zminus_mod_idemp_r, Z.sub_diag. apply Zmod_0_l.
Qed.

Lemma lock_loop_agrees fuel page end_ this this' ok :
  agrees this → page mod page_size_ this = 0 → lock_loop fuel page end_ this = Some (this', ok) → agrees this'.
Proof.
  revert page this. induction fuel as [|fuel IH]; intros page this Ha Hp; cbn [lock_loop]; [done|].
  destruct (page <=? end_); [|by intros [= <- _]].
  destruct (lock_page_agrees this page Ha Hp) as [Ha1 Hs]. destruct (lock_page this page) as [this1 []].
  - cbn [fst] in *. apply IH; [done|]. rewrite Hs. apply next_page_aligned; [|done]. apply Ha.
  - by intros [= <- _].
Qed.

Lemma unlock_loop_agrees fuel page end_ this this' ok :
  agrees this → page mod page_size_ this = 0 → unlock_loop fuel page end_ this = Some (Return (this', ok)) →
  agrees this'.
Proof.
  revert page this. induction fuel as [|fuel IH]; intros page this Ha Hp; cbn [unlock_loop]; [done|].
  destruct (page <=? end_); [|by intros [= <- _]].
  destruct (unlock_page this page) as [[this1 go]| | |] eqn:E; try done.
  destruct (unlock_page_agrees _ _ _ _ Ha Hp E) as [Ha1 Hs]. destruct go; [|by intros [= <- _]].
  apply IH; [done|]. rewrite Hs. apply next_page_aligned; [|done]. apply Ha.
Qed.

Lemma lock_range_agrees fuel this address size this' ok :
  agrees this → in_range 64 address → lock_range fuel this address size = Some (this', ok) → agrees this'.
Proof.
  intros Ha Hr. unfold lock_range. destruct (_ || _); [by intros [= <- _]|].
  pose proof (first_page_aligned this address size (agrees_wf _ Ha) Hr) as Hp.
  destruct (get_range_boundaries this address size) as [start end_]. by apply lock_loop_agrees.
Qed.

Lemma unlock_range_agrees fuel this address size this' ok :
  agrees this → in_range 64 address → unlock_range fuel this address size = Some (Return (this', ok)) →
  agrees this'.
Proof.
  intros Ha Hr. unfold unlock_range. destruct (_ || _); [by intros [= <- _]|].
  pose proof (first_page_aligned this address size (agrees_wf _ Ha) Hr) as Hp.
  destruct (get_range_boundaries this address size) as [start end_]. by apply unlock_loop_agrees.
Qed.

Lemma clear_page_agrees this p n :
  agrees this → locked_pages_ this !! p = Some n → agrees (clear_page this p).
Proof.
  intros [Hw Hs Ha] Hn. pose proof (wf_page_size _ Hw) as [Hps _].
  destruct (clear_page_wf this p Hw) as (Hw' & Hsz & _). pose proof (wf_counts _ Hw _ _ Hn) as [_ Hp].
  revert Hw' Hsz. unfold clear_page.
  destruct (lk_unlock (locker_ this) p (page_size_ this)) as [lk ok] eqn:El.
  apply (locker_unlock_page _ _ _ _ _ Hs Hps Hp) in El as [Hs' Hq'].
  destruct ok; intros Hw' _; (split; [done|done|]); intros q Hq;
    cbn [locked_pages_ with_pages with_locker locker_ page_size_] in *; rewrite Hq', Ha by done;
    [|apply andb_true_r].
  destruct (decide (q = p)) as [->|].
  - rewrite lookup_delete_eq, (bool_decide_true (p = p)), andb_false_r by done.
    by rewrite bool_decide_false by apply is_Some_None.
  - rewrite lookup_delete_ne, (bool_decide_false (q = p)) by done. apply andb_true_r.
Qed.

(** Each page is cleared once, so it is still counted when its turn comes. *)
Lemma clear_fold_agrees l this :
  agrees this → NoDup l → (∀ p, p ∈ l → is_Some (locked_pages_ this !! p)) →
  agrees (fold_left clear_page l this).
Proof.
  revert this. induction l as [|p l IH]; intros this Ha Hnd Hl; [done|]. cbn [fold_left].
  apply NoDup_cons in Hnd as [Hp Hnd]. destruct (Hl p ltac:(by left)) as [n Hn].
  apply IH; [by eapply clear_page_agrees|done|]. intros q Hq. destruct (Hl q ltac:(by right)) as [m Hm].
  exists m. unfold clear_page. destruct (lk_unlock _ _ _) as [lk []]; [|done].
  cbn [locked_pages_ with_pages with_locker]. rewrite lookup_delete_ne; [done|]. by intros ->.
Qed.

Lemma clear_pages_agrees this : agrees this → agrees (clear_pages this).
Proof.
  intros Ha. unfold clear_pages, pages_in_order. apply clear_fold_agrees; [done| |].
  - rewrite merge_sort_Permutation. apply NoDup_elements.
  - intros p. rewrite merge_sort_Permutation, elem_of_elements. apply elem_of_dom.
Qed.

Lemma use_agrees this this' : use this this' → agrees this → agrees this'.
Proof.
  intros Hu Ha. destruct Hu as [fuel a n t ok Hr Hl|fuel a n t ok Hr Hl|fuel a k n t r Hr Hl|fuel m a k n t m' Hr Hl|].
  - by eapply lock_range_agrees.
  - by eapply unlock_range_agrees.
  - revert Hl. unfold allocate. destruct (a =? 0); [by intros [= <- _]|].
    destruct (lock_range _ _ _ _) as [[t1 ok]|] eqn:E; cbn; [|done]. intros [= <- _].
    by eapply lock_range_agrees.
  - revert Hl. unfold deallocate. destruct (a =? 0); [by intros [= <- _]|].
    destruct (unlock_range _ _ _ _) as [[[t1 ok]| | |]|] eqn:E; cbn; try done. intros [= <- _].
    by eapply unlock_range_agrees.
  - by apply clear_pages_agrees.
Qed.

Lemma lock_range_size fuel this address size this' ok :
  lock_range fuel this address size = Some (this', ok) → page_size_ this' = page_size_ this.
Proof.
  unfold lock_range. destruct (_ || _); [by intros [= <- _]|].
  destruct (get_range_boundaries this address size) as [page end_]. revert page this.
  induction fuel as [|fuel IH]; intros page this; cbn [lock_loop]; [done|].
  destruct (page <=? end_); [|by intros [= <- _]]. destruct (lock_page_size this page) as [Hs _].
  destruct (lock_page this page) as [this1 []]; cbn [fst] in Hs; [|by intros [= <- _]].
  rewrite <-Hs. apply IH.
Qed.

Lemma agrees_count this : agrees this →
  ∀ p, p mod page_size_ this = 0 → os_locked (locker_ this) p = (0 <? count this p).
Proof.
  intros [Hw _ Ha] p Hp. rewrite Ha, (count_lookup this p Hw) by done.
  destruct (0 <? count this p); [by apply bool_decide_eq_true_2|by apply bool_decide_eq_false_2, is_Some_None].
Qed.

Lemma instance_agrees s this : instance None s = Return this → (∀ p, os_locked s p = false) → agrees this.
Proof.
  intros Hi Hnone. unfold instance, create_instance in Hi.
  destruct (manager_invariant s (get_system_page_size s)) as (Hc & _ & _).
  destruct Hc as [Hc|(t & Hc & Hw & _ & _)]; rewrite Hi in Hc; [done|]. injection Hc as <-.
  revert Hi. unfold new_Manager. destruct (_ && _); [|done]. destruct (_ =? 0); [|done]. intros [= <-].
  split; [done| |].
  - cbn. unfold get_system_page_size. symmetry. apply wrap_small, sysconf_range.
  - intros p _. cbn. by rewrite Hnone, lookup_empty.
Qed.

Lemma uses_agrees this this' : uses this this' → agrees this → agrees this'.
Proof. induction 1 as [|t t' _ IH Ht]; [done|]. intros Ha. eapply use_agrees; eauto. Qed.

(** C17: Whatever the process does with its page manager from the moment it is
    created on a system that keeps no page, the pages the system keeps in
    memory are exactly those with a count, whichever requests it refused. So
    no range locked with success is paged out until it is unlocked, and what is
    still kept when the manager is destroyed is what the system refused to
    release. *)
Theorem counted_pages_are_kept (s : Sy) (this this' : Manager Sy) :
  instance None s = Return this → (∀ p, os_locked s p = false) → uses this this' →
  (∀ p, p mod page_size_ this' = 0 → os_locked (locker_ this') p = (0 <? count this' p)) ∧
  (∀ fuel address size, range_ok this' address size → (range_fuel this' size ≤ fuel)%nat →
     ∃ this'' ok, lock_range fuel this' address size = Some (this'', ok) ∧
     (ok = true → ∀ p, overlaps (page_size_ this') address size p → os_locked (locker_ this'') p = true)) ∧
  (∀ p, p mod page_size_ this' = 0 →
     os_locked (destroy_Manager this') p = (0 <? count (clear_pages this') p)) ∧
  ((∀ lk p n, (munlock lk p n).2 = 0) → ∀ p, p mod page_size_ this' = 0 → os_locked (destroy_Manager this') p = false).
Proof.
  intros Hi Hnone Hu. pose proof (uses_agrees _ _ Hu (instance_agrees _ _ Hi Hnone)) as Ha. clear Hi Hnone Hu.
  pose proof (clear_pages_agrees _ Ha) as Hac.
  destruct (clear_fold_wf (pages_in_order this') this' (agrees_wf _ Ha)) as (_ & Hsub & _).
  assert (Hsz : page_size_ (clear_pages this') = page_size_ this').
  { unfold clear_pages. generalize (pages_in_order this'). intros l. clear. revert this'.
    induction l as [|p l IH]; intros t; [done|]. cbn [fold_left]. rewrite IH. unfold clear_page.
    by destruct (lk_unlock _ _ _) as [? []]. }
  split; [by apply agrees_count|]. split; [|split].
  - intros fuel address size Hr Hf.
    destruct (lock_range_counts this' address size fuel (agrees_wf _ Ha) Hr Hf) as (t & ok & Hl & Hw & Hc).
    exists t, ok. split; [done|]. intros -> p Hp.
    assert (Hr64 : in_range 64 address).
    { destruct Hr as (? & ? & ?). pose proof (wf_page_size _ (agrees_wf _ Ha)). unfold in_range. lia. }
    pose proof (lock_range_agrees _ _ _ _ _ _ Ha Hr64 Hl) as Hat.
    rewrite (agrees_count t Hat p) by (rewrite (lock_range_size _ _ _ _ _ _ Hl); apply Hp).
    rewrite (Hc eq_refl p), decide_True by done.
    pose proof (count_nonneg this' p (agrees_wf _ Ha)). lia.
  - intros p Hp. unfold destroy_Manager. apply agrees_count; [done|]. by rewrite Hsz.
  - intros Hok p Hp. unfold destroy_Manager. rewrite agrees_count by (done || by rewrite Hsz).
    destruct (manager_invariant s (get_system_page_size s)) as (_ & _ & Hclear).
    destruct (Hclear this' (agrees_wf _ Ha)) as (_ & _ & Hempty).
    assert (He : locked_empty (clear_pages this') = true).
    { apply Hempty. intros lk q n. cbn. unfold MemoryPageLocker_unlock. specialize (Hok lk q n).
      destruct (munlock lk q n) as [lk' r]. cbn in *. by subst r. }
    apply bool_decide_eq_true in He. unfold count. by rewrite He, lookup_empty.
Qed.
End code.

(** ** An instance *)

(** A system with pages of 4 KiB that refuses nothing, as the requests it was
    sent: the last one about a page counts. *)
Fixpoint ref_locked (requests : list (bool * Z * Z)) (p : Z) : bool :=
  match requests with
  | [] => false
  | (lock, addr, len) :: requests =>
      if bool_decide (overlaps 4096 addr len p) then lock else ref_locked requests p
  end.
Definition ref_system : SystemCalls (list (bool * Z * Z)).
Proof.
  refine {| sysconf_pagesize _ := 4096; mlock s addr len := ((true, addr, len) :: s, 0);
    munlock s addr len := ((false, addr, len) :: s, 0); os_locked := ref_locked |}.
  - done.
  - intros s addr len _. split; [done|]. intros p _. cbn.
    case_bool_decide; cbn; by rewrite ?orb_true_r, ?orb_false_r.
  - intros s addr len _. split; [done|]. intros p _. cbn.
    case_bool_decide; cbn; by rewrite ?andb_true_r, ?andb_false_r.
Defined.

Definition a_fresh_manager : Manager (list (bool * Z * Z)) := mk_Manager [] 4096 (u64 (Z.lnot 4095)) ∅.
Definition an_object_locked : Manager (list (bool * Z * Z)) :=
  mk_Manager [(true, 4096, 4096)] 4096 (u64 (Z.lnot 4095)) {[4096 := 1]}.

Lemma counted_pages_are_kept_witness :
  instance (H := ref_system) None [] = Return a_fresh_manager ∧
  uses (H := ref_system) a_fresh_manager an_object_locked ∧
  os_locked (SystemCalls := ref_system) (locker_ an_object_locked) 4096 = true ∧
  os_locked (SystemCalls := ref_system) (destroy_Manager (H := ref_system) an_object_locked) 4096 = false.
Proof.
  assert (Hi : instance (H := ref_system) None [] = Return a_fresh_manager) by (vm_compute; reflexivity).
  assert (Hu : uses (H := ref_system) a_fresh_manager an_object_locked).
  { apply (uses_step (H := ref_system) _ a_fresh_manager); [apply uses_refl|].
    apply (use_lock (H := ref_system) _ 5 5000 100 _ true); [by split|vm_compute; reflexivity]. }
  destruct (counted_pages_are_kept (H := ref_system) [] a_fresh_manager an_object_locked Hi (λ _, eq_refl) Hu)
    as (Hkept & _ & _ & Hreleased).
  split; [exact Hi|]. split; [exact Hu|]. split.
  - exact (Hkept 4096 eq_refl).
  - exact (Hreleased (λ _ _ _, eq_refl) 4096 eq_refl).
Defined.
