(* ===== verification/Mdbx.v ===== *)
(** * Walking and erasing by cursor

    Models the functions over cursors of [src/zen/node/database/mdbx.cpp]. The
    cursors of libmdbx are an interface ([MdbxCursor]): their operations, and
    the documented behaviour of these in terms of the table, a list of records
    in key order, and of the position of the cursor in it. *)
From stdpp Require Import sorting.
From S2P Require Import Prelude Base.
Local Open Scope nat_scope.

Definition key : Type := list byte.
Definition record : Type := key * list byte.

(** The collation order of [key_mode::usual]: lexicographic on the bytes. *)
Fixpoint key_leb (k l : key) : bool :=
  match k, l with
  | [], _ => true
  | _, [] => false
  | b :: k, c :: l =>
      (Z_of_byte b <? Z_of_byte c)%Z || ((Z_of_byte b =? Z_of_byte c)%Z && key_leb k l)
  end.
Definition key_ltb (k l : key) : bool := negb (key_leb l k).

Fixpoint starts_with (k prefix : key) : bool :=
  match prefix, k with
  | [], _ => true
  | _, [] => false
  | c :: prefix, b :: k => bool_decide (b = c) && starts_with k prefix
  end.

(** A table: its records in key order. The records of one key of a multi-value
    table follow each other. *)
Definition sorted_table : list record → Prop := StronglySorted (λ r s, key_leb r.1 s.1 = true).

(** Where a cursor is: nowhere yet, past the last record, on the record of an
    index, or where the record of an index was before it was erased. *)
Inductive position := Unset | End | On (i : nat) | Erased (i : nat).

Inductive CursorMoveDirection := Forward | Reverse.
Inductive move_op := next | previous.

(** Index of the first record whose key is not less than [k]. *)
Fixpoint lower_index (t : list record) (k : key) : nat :=
  match t with
  | [] => 0
  | r :: t => if key_leb k r.1 then 0 else S (lower_index t k)
  end.

(** A result of a move: the record it reached, if any; then the position is
    the record's. *)
Definition reaches (t : list record) (i : nat) (t' : list record) (p : position)
    (data : option record) : Prop :=
  t' = t ∧ data = t !! i ∧ (is_Some data → p = On i).

Class MdbxCursor (C : Type) := {
  table : C → list record;
  pos : C → position;
  eof : C → bool;
  to_first : C → C * option record;
  to_last : C → C * option record;
  current : C → C * option record;
  lower_bound : key → C → C * option record;
  move : C → move_op → C * option record;
  erase : C → C;
  eof_unset c : pos c = Unset ∨ pos c = End → eof c = true;
  eof_on c i : pos c = On i → eof c = false;
  to_first_spec c : let '(c', d) := to_first c in reaches (table c) 0 (table c') (pos c') d;
  to_last_spec c : let '(c', d) := to_last c in
    if decide (table c = []) then table c' = table c ∧ d = None
    else reaches (table c) (length (table c) - 1) (table c') (pos c') d;
  current_spec c i : pos c = On i →
    let '(c', d) := current c in reaches (table c) i (table c') (pos c') d;
  lower_bound_spec k c : let '(c', d) := lower_bound k c in
    reaches (table c) (lower_index (table c) k) (table c') (pos c') d;
  next_spec c i : pos c = On i →
    let '(c', d) := move c next in
    reaches (table c) (S i) (table c') (pos c') d ∧ (d = None → pos c' = End);
  previous_spec c i : pos c = On i ∨ pos c = Erased i →
    let '(c', d) := move c previous in
    if decide (i = 0) then table c' = table c ∧ d = None
    else reaches (table c) (i - 1) (table c') (pos c') d;
  next_erased_spec c i : pos c = Erased i →
    let '(c', d) := move c next in
    reaches (table c) i (table c') (pos c') d ∧ (d = None → pos c' = End);
  erase_spec c i : pos c = On i → i < length (table c) →
    table (erase c) = delete i (table c) ∧ pos (erase c) = Erased i
}.

Section code.
Context {C : Type} `{MdbxCursor C}.

Definition adjust_cursor_position_if_unpositioned (c : C) (d : CursorMoveDirection) :
    C * option record :=
  if eof c then match d with Forward => to_first c | Reverse => to_last c end
  else current c.

Definition strict_lower_bound (cursor : C) (k : key) : C * option record :=
  let '(cursor, found) := lower_bound k cursor in
  match found with
  | None => to_last cursor
  | Some _ => move cursor previous
  end.

Definition move_operation (direction : CursorMoveDirection) : move_op :=
  match direction with Forward => next | Reverse => previous end.

(** The loops, on the state [s] of the walking function; the fuel bounds the
    number of records they process. *)
Section walk.
Context {S : Type} (walker : S → key → list byte → S).

Fixpoint for_each_loop (fuel : nat) (direction : CursorMoveDirection) (cursor : C) (s : S)
    (ret : nat) (data : option record) : option (C * S * nat) :=
  match data with
  | None => Some (cursor, s, ret)
  | Some (k, v) =>
      match fuel with
      | O => None
      | Datatypes.S fuel =>
          let s := walker s k v in
          let '(cursor, data) := move cursor (move_operation direction) in
          for_each_loop fuel direction cursor s (1 + ret) data
      end
  end.

Definition cursor_for_each (fuel : nat) (cursor : C) (s : S) (direction : CursorMoveDirection) :
    option (C * S * nat) :=
  let '(cursor, data) := adjust_cursor_position_if_unpositioned cursor direction in
  for_each_loop fuel direction cursor s 0 data.

Fixpoint for_prefix_loop (fuel : nat) (prefix : key) (direction : CursorMoveDirection)
    (cursor : C) (s : S) (ret : nat) (data : option record) : option (C * S * nat) :=
  match data with
  | None => Some (cursor, s, ret)
  | Some (k, v) =>
      if negb (starts_with k prefix) then Some (cursor, s, ret) else
      match fuel with
      | O => None
      | Datatypes.S fuel =>
          let s := walker s k v in
          let '(cursor, data) := move cursor (move_operation direction) in
          for_prefix_loop fuel prefix direction cursor s (1 + ret) data
      end
  end.

Definition cursor_for_prefix (fuel : nat) (cursor : C) (prefix : key) (s : S)
    (direction : CursorMoveDirection) : option (C * S * nat) :=
  let '(cursor, data) := lower_bound prefix cursor in
  for_prefix_loop fuel prefix direction cursor s 0 data.

(** [count] decreases, so this loop needs no fuel. *)
Fixpoint for_count_loop (count : nat) (direction : CursorMoveDirection) (cursor : C) (s : S)
    (ret : nat) (data : option record) : C * S * nat :=
  match count, data with
  | Datatypes.S count, Some (k, v) =>
      let s := walker s k v in
      let '(cursor, data) := move cursor (move_operation direction) in
      for_count_loop count direction cursor s (1 + ret) data
  | _, _ => (cursor, s, ret)
  end.

Definition cursor_for_count (cursor : C) (s : S) (count : nat)
    (direction : CursorMoveDirection) : C * S * nat :=
  let '(cursor, data) := adjust_cursor_position_if_unpositioned cursor direction in
  for_count_loop count direction cursor s 0 data.
End walk.

Fixpoint erase_prefix_loop (fuel : nat) (prefix : key) (cursor : C) (ret : nat)
    (data : option record) : option (C * nat) :=
  match data with
  | None => Some (cursor, ret)
  | Some (k, _) =>
      if negb (starts_with k prefix) then Some (cursor, ret) else
      match fuel with
      | O => None
      | S fuel =>
          let cursor := erase cursor in
          let '(cursor, data) := move cursor next in
          erase_prefix_loop fuel prefix cursor (1 + ret) data
      end
  end.

Definition cursor_erase_prefix (fuel : nat) (cursor : C) (prefix : key) : option (C * nat) :=
  let '(cursor, data) := lower_bound prefix cursor in
  erase_prefix_loop fuel prefix cursor 0 data.

Fixpoint erase_loop (fuel : nat) (direction : CursorMoveDirection) (cursor : C) (ret : nat)
    (data : option record) : option (C * nat) :=
  match data with
  | None => Some (cursor, ret)
  | Some _ =>
      match fuel with
      | O => None
      | S fuel =>
          let cursor := erase cursor in
          let '(cursor, data) := move cursor (move_operation direction) in
          erase_loop fuel direction cursor (1 + ret) data
      end
  end.

Definition cursor_erase (fuel : nat) (cursor : C) (set_key : key)
    (direction : CursorMoveDirection) : option (C * nat) :=
  let '(cursor, data) :=
    match direction with
    | Forward => lower_bound set_key cursor
    | Reverse => strict_lower_bound cursor set_key
    end in
  erase_loop fuel direction cursor 0 data.
End code.

(** ** A reference cursor *)

(** The interface is inhabited: a table and a position in it. *)
Record ref_cursor := mk_ref { ref_table : list record; ref_pos : position }.

Definition ref_at (c : ref_cursor) (i : nat) : ref_cursor * option record :=
  match ref_table c !! i with
  | Some r => (mk_ref (ref_table c) (On i), Some r)
  | None => (mk_ref (ref_table c) End, None)
  end.
Definition ref_move (c : ref_cursor) (m : move_op) : ref_cursor * option record :=
  match ref_pos c, m with
  | On i, next => ref_at c (S i)
  | Erased i, next => ref_at c i
  | On i, previous | Erased i, previous =>
      if decide (i = 0) then (c, None) else ref_at c (i - 1)
  | Unset, _ | End, _ => (c, None)
  end.
Definition ref_erase (c : ref_cursor) : ref_cursor :=
  match ref_pos c with
  | On i => mk_ref (delete i (ref_table c)) (Erased i)
  | _ => c
  end.

Lemma ref_at_reaches c i :
  let '(c', d) := ref_at c i in
  reaches (ref_table c) i (ref_table c') (ref_pos c') d ∧ (d = None → ref_pos c' = End).
Proof. unfold ref_at. destruct (_ !! i) eqn:E; unfold reaches; by rewrite E. Qed.

Definition mdbx_reference : MdbxCursor ref_cursor.
Proof.
  refine {| table := ref_table; pos := ref_pos;
            eof c := match ref_pos c with On _ => false | _ => true end;
            to_first c := ref_at c 0;
            to_last c := if decide (ref_table c = []) then (c, None)
                         else ref_at c (length (ref_table c) - 1);
            current c := match ref_pos c with On i => ref_at c i | _ => (c, None) end;
            lower_bound k c := ref_at c (lower_index (ref_table c) k);
            move := ref_move; erase := ref_erase |}.
  - by intros c [-> | ->].
  - by intros c i ->.
  - intros c. pose proof (ref_at_reaches c 0) as Hr. destruct (ref_at c 0). apply Hr.
  - intros c. destruct (decide _); [done|].
    pose proof (ref_at_reaches c (length (ref_table c) - 1)) as Hr. destruct (ref_at _ _). apply Hr.
  - intros c i ->. pose proof (ref_at_reaches c i) as Hr. destruct (ref_at c i). apply Hr.
  - intros k c. pose proof (ref_at_reaches c (lower_index (ref_table c) k)) as Hr.
    destruct (ref_at _ _). apply Hr.
  - intros c i Hp. unfold ref_move. rewrite Hp. apply (ref_at_reaches c (S i)).
  - intros c i Hp. unfold ref_move. pose proof (ref_at_reaches c (i - 1)) as Hr.
    destruct Hp as [-> | ->]; (destruct (decide (i = 0)); [done|]); destruct (ref_at _ _); apply Hr.
  - intros c i Hp. unfold ref_move. rewrite Hp. apply (ref_at_reaches c i).
  - intros c i Hp Hi. unfold ref_erase. by rewrite Hp.
Defined.

(** ** The order of the keys *)

Lemma key_leb_cases b c k l :
  key_leb (b :: k) (c :: l) = true ↔
  (Z_of_byte b < Z_of_byte c)%Z ∨ (b = c ∧ key_leb k l = true).
Proof.
  cbn [key_leb]. rewrite orb_true_iff, andb_true_iff, Z.ltb_lt, Z.eqb_eq.
  split; (intros [?|[E ?]]; [by left|right]); (split; [|done]); [|by rewrite E].
  by rewrite <- (byte_of_Z_of_byte b), E, byte_of_Z_of_byte.
Qed.

Lemma key_leb_refl k : key_leb k k = true.
Proof. induction k as [|b k IH]; [done|]. apply key_leb_cases. by right. Qed.

Lemma key_leb_trans k l m : key_leb k l = true → key_leb l m = true → key_leb k m = true.
Proof.
  revert l m. induction k as [|b k IH]; [done|]. intros [|c l] [|d m]; try done.
  rewrite !key_leb_cases. intros [?|[-> ?]] [?|[-> ?]]; [left; lia|by left|by left|right; eauto].
Qed.

Lemma starts_with_cons b c k p :
  starts_with (b :: k) (c :: p) = true ↔ b = c ∧ starts_with k p = true.
Proof. cbn [starts_with]. by rewrite andb_true_iff, bool_decide_eq_true. Qed.

Lemma starts_with_ge k p : starts_with k p = true → key_leb p k = true.
Proof.
  revert k. induction p as [|c p IH]; [done|]. intros [|b k]; [done|].
  rewrite starts_with_cons, key_leb_cases. intros [-> Hs]. right. eauto.
Qed.

(** Between a prefix and a key that has it, every key has it. *)
Lemma starts_with_between k l p :
  key_leb p k = true → key_leb k l = true → starts_with l p = true → starts_with k p = true.
Proof.
  revert k l. induction p as [|c p IH]; [by intros []|]. intros [|b k] [|d l]; try done.
  rewrite !key_leb_cases, !starts_with_cons. intros [?|[? ?]] [?|[? ?]] [? ?]; subst; try lia. eauto.
Qed.

Lemma filter_none {A} (f : A → bool) l : (∀ x, x ∈ l → f x = false) → List.filter f l = [].
Proof.
  induction l as [|x l IH]; intros Hl; [done|]. cbn. rewrite Hl by by left.
  apply IH. intros y Hy. apply Hl. by right.
Qed.

Lemma filter_all {A} (f : A → bool) l : (∀ x, x ∈ l → f x = true) → List.filter f l = l.
Proof.
  induction l as [|x l IH]; intros Hl; [done|]. cbn. rewrite Hl by by left. f_equal.
  apply IH. intros y Hy. apply Hl. by right.
Qed.

(** [lower_index] splits a table into the records below a key and the rest. *)
Lemma lower_index_split t k :
  sorted_table t →
  take (lower_index t k) t = List.filter (λ r, key_ltb r.1 k) t ∧
  drop (lower_index t k) t = List.filter (λ r, key_leb k r.1) t.
Proof.
  unfold key_ltb. induction 1 as [|r t Ht [IH1 IH2] Hr]; [done|]. cbn [lower_index List.filter].
  destruct (key_leb k r.1) eqn:E; cbn [negb take drop]; [|by rewrite IH1, IH2].
  rewrite Forall_forall in Hr. split; [symmetry|f_equal; symmetry].
  - apply filter_none. intros s Hs. cbn beta. by rewrite (key_leb_trans k r.1 s.1 E (Hr s Hs)).
  - apply filter_all. intros s Hs. apply (key_leb_trans k r.1 s.1 E (Hr s Hs)).
Qed.

(** ** Theory *)

Section theory.
Context {C : Type} `{MdbxCursor C}.

(** A cursor its user may start from: not on an erased record. *)
Definition cursor_ok (c : C) : Prop :=
  match pos c with On i => i < length (table c) | Erased _ => False | _ => True end.

(** The records ahead of a cursor in a direction, nearest first. *)
Definition ahead (t : list record) (p : position) (d : CursorMoveDirection) : list record :=
  match p, d with
  | On i, Forward => drop i t
  | On i, Reverse => reverse (take (S i) t)
  | _, Forward => t
  | _, Reverse => reverse t
  end.

(** A cursor and the data it just returned: either at the record [i], or at
    the end of a walk. *)
Definition state_at (t : list record) (d : CursorMoveDirection) (l : list record) (c : C)
    (data : option record) : Prop :=
  table c = t ∧
  match data with
  | None => l = []
  | Some r => ∃ i, pos c = On i ∧ t !! i = Some r ∧ l = ahead t (On i) d
  end.

Lemma reaches_forward t i t' p d :
  reaches t i t' p d → t' = t ∧
  match d with None => drop i t = [] | Some r => p = On i ∧ t !! i = Some r end.
Proof.
  intros (-> & -> & Hp). split; [done|]. destruct (t !! i) eqn:E; [by split; [apply Hp|]|].
  by apply drop_ge, lookup_ge_None.
Qed.

Lemma ahead_cons t i r d :
  t !! i = Some r →
  ahead t (On i) d = r :: match d with Forward => drop (S i) t | Reverse => reverse (take i t) end.
Proof.
  intros Hi. destruct d; cbn [ahead].
  - by apply drop_S.
  - by rewrite (take_S_r _ _ _ Hi), reverse_snoc.
Qed.

(** Moving on from a record. *)
Lemma move_state t d l c r :
  state_at t d (r :: l) c (Some r) →
  let '(c', data) := move c (move_operation d) in state_at t d l c' data.
Proof.
  intros (Ht & i & Hp & Hi & Hl). rewrite (ahead_cons _ _ _ _ Hi) in Hl. injection Hl as ->.
  destruct d; cbn [move_operation].
  - pose proof (next_spec c i Hp) as Hm. destruct (move c next) as [c' data].
    destruct Hm as [Hm _]. rewrite Ht in Hm. apply reaches_forward in Hm as [Ht' Hd].
    split; [done|]. destruct data as [r'|]; [|done]. destruct Hd. by exists (S i).
  - pose proof (previous_spec c i (or_introl Hp)) as Hm. destruct (move c previous) as [c' data].
    rewrite Ht in Hm. destruct (decide (i = 0)) as [->|Hne]; [destruct Hm as [? ->]; by split|].
    apply lookup_lt_Some in Hi. destruct Hm as (Ht' & -> & Hp'). split; [done|].
    destruct (lookup_lt_is_Some_2 t (i - 1)) as [r' Hr']; [lia|]. rewrite Hr' in *.
    exists (i - 1). split; [by apply Hp'|]. split; [done|]. cbn. by replace (S (i - 1)) with i by lia.
Qed.

Lemma state_at_inv t d l c data :
  state_at t d l c data →
  match data with None => l = [] | Some r => ∃ l', l = r :: l' end.
Proof.
  intros [Ht Hd]. destruct data as [r|]; [|done].
  destruct Hd as (i & Hp & Hi & ->). rewrite (ahead_cons _ _ _ _ Hi). eauto.
Qed.

(** The start of a walk. *)
Lemma adjust_state c d :
  cursor_ok c →
  let '(c', data) := adjust_cursor_position_if_unpositioned c d in
  state_at (table c) d (ahead (table c) (pos c) d) c' data.
Proof.
  intros Hok. unfold adjust_cursor_position_if_unpositioned, cursor_ok in *.
  assert (Hend : pos c = Unset ∨ pos c = End →
    let '(c', data) := match d with Forward => to_first c | Reverse => to_last c end in
    state_at (table c) d (match d with Forward => table c | Reverse => reverse (table c) end) c' data).
  { intros _. destruct d.
    - pose proof (to_first_spec c) as Hr. destruct (to_first c) as [c' data].
      apply reaches_forward in Hr as [Ht Hd]. split; [done|]. destruct data; [|done].
      destruct Hd. by exists 0.
    - pose proof (to_last_spec c) as Hr. destruct (to_last c) as [c' data].
      destruct (decide (table c = [])) as [Hnil|Hne].
      { destruct Hr as [Ht ->]. split; [done|]. by rewrite Hnil. }
      apply reaches_forward in Hr as [Ht Hd]. split; [done|].
      assert (0 < length (table c)) by (destruct (table c); [done|cbn; lia]).
      destruct data as [r|].
      + destruct Hd. exists (length (table c) - 1). split; [done|]. split; [done|].
        cbn. by rewrite take_ge by lia.
      + apply (f_equal length) in Hd. rewrite length_drop in Hd. cbn in Hd. lia. }
  destruct (pos c) as [| |i|i] eqn:Hp; [| | |done].
  - rewrite (eof_unset c) by by left. by apply Hend; left.
  - rewrite (eof_unset c) by by right. by apply Hend; right.
  - rewrite (eof_on c i Hp). pose proof (current_spec c i Hp) as Hr.
    destruct (current c) as [c' data]. apply reaches_forward in Hr as [Ht Hd]. split; [done|].
    destruct data as [r|]; [destruct Hd; by exists i|].
    apply (f_equal length) in Hd. rewrite length_drop in Hd. cbn in Hd. lia.
Qed.

Section walks.
Context {S : Type} (walker : S → key → list byte → S).
Local Abbreviation walk := (fold_left (λ s (r : record), walker s r.1 r.2)).

Lemma for_each_loop_spec l fuel t d c s ret data :
  state_at t d l c data → length l ≤ fuel →
  ∃ c', for_each_loop walker fuel d c s ret data = Some (c', walk l s, ret + length l) ∧
    table c' = t.
Proof.
  revert fuel c s ret data. induction l as [|r l IH]; intros fuel c s ret data Hs Hf;
    pose proof (state_at_inv _ _ _ _ _ Hs) as Hi.
  - destruct data; [by destruct Hi|]. exists c. cbn.
    destruct fuel; cbn; rewrite Nat.add_0_r; (split; [done|apply Hs]).
  - destruct data as [r'|]; [|done]. destruct Hi as [l' [= <- <-]].
    destruct fuel as [|fuel]; [cbn in Hf; lia|]. destruct r as [k v]. cbn [for_each_loop].
    apply move_state in Hs. destruct (move c _) as [c1 data].
    destruct (IH fuel c1 (walker s k v) (1 + ret) data Hs) as (c' & E & Ht); [cbn in Hf; lia|].
    exists c'. split; [|done]. rewrite E. do 2 f_equal. cbn. lia.
Qed.

Lemma for_count_loop_spec l count t d c s ret data :
  state_at t d l c data →
  ∃ c', for_count_loop walker count d c s ret data =
    (c', walk (take count l) s, ret + Nat.min count (length l)) ∧ table c' = t.
Proof.
  revert count c s ret data. induction l as [|r l IH]; intros count c s ret data Hs;
    pose proof (state_at_inv _ _ _ _ _ Hs) as Hi.
  - destruct data; [by destruct Hi|]. exists c. rewrite take_nil, Nat.min_0_r.
    destruct count; cbn; rewrite Nat.add_0_r; (split; [done|apply Hs]).
  - destruct data as [r'|]; [|done]. destruct Hi as [l' [= <- <-]].
    destruct count as [|count]; [exists c; cbn; rewrite Nat.add_0_r; split; [done|apply Hs]|].
    destruct r as [k v]. cbn [for_count_loop].
    apply move_state in Hs. destruct (move c _) as [c1 data].
    destruct (IH count c1 (walker s k v) (1 + ret) data Hs) as (c' & E & Ht).
    exists c'. split; [|done]. rewrite E. f_equal. cbn. lia.
Qed.

(** C19: [cursor_for_each] hands the walking function every record from the
    position of the cursor on, in key order or against it, the whole table
    when the cursor is not positioned; [cursor_for_count] the first of these
    up to the count. Both return how many there were and leave the table as
    it is, and [cursor_for_each] ends. *)
Theorem cursor_walks (c : C) (s : S) (d : CursorMoveDirection) (count : nat) :
  cursor_ok c →
  let l := ahead (table c) (pos c) d in
  (∃ c', cursor_for_each walker (length (table c)) c s d = Some (c', walk l s, length l) ∧
    table c' = table c) ∧
  (∃ c', cursor_for_count walker c s count d = (c', walk (take count l) s, Nat.min count (length l)) ∧
    table c' = table c).
Proof.
  intros Hok l. pose proof (adjust_state c d Hok) as Ha. fold l in Ha.
  unfold cursor_for_each, cursor_for_count.
  destruct (adjust_cursor_position_if_unpositioned c d) as [c1 data]. split.
  - apply for_each_loop_spec; [done|]. unfold l, ahead.
    destruct (pos c), d; rewrite ?length_reverse, ?length_drop, ?length_take; lia.
  - by apply for_count_loop_spec.
Qed.

Fixpoint prefixed_head (prefix : key) (l : list record) : list record :=
  match l with
  | [] => []
  | r :: l => if starts_with r.1 prefix then r :: prefixed_head prefix l else []
  end.

Lemma for_prefix_loop_spec prefix l fuel t d c s ret data :
  state_at t d l c data → length l ≤ fuel →
  ∃ c', for_prefix_loop walker fuel prefix d c s ret data =
    Some (c', walk (prefixed_head prefix l) s, ret + length (prefixed_head prefix l)) ∧ table c' = t.
Proof.
  revert fuel c s ret data. induction l as [|r l IH]; intros fuel c s ret data Hs Hf;
    pose proof (state_at_inv _ _ _ _ _ Hs) as Hi.
  - destruct data; [by destruct Hi|]. exists c. cbn.
    destruct fuel; cbn; rewrite Nat.add_0_r; (split; [done|apply Hs]).
  - destruct data as [r'|]; [|done]. destruct Hi as [l' [= <- <-]].
    destruct fuel as [|fuel]; [cbn in Hf; lia|]. destruct r as [k v].
    cbn [for_prefix_loop prefixed_head fst]. destruct (starts_with k prefix); cbn [negb];
      [|exists c; cbn; rewrite Nat.add_0_r; split; [done|apply Hs]].
    apply move_state in Hs. destruct (move c _) as [c1 data].
    destruct (IH fuel c1 (walker s k v) (1 + ret) data Hs) as (c' & E & Ht); [cbn in Hf; lia|].
    exists c'. split; [|done]. rewrite E. do 2 f_equal. cbn. lia.
Qed.

Lemma lower_bound_forward c k :
  sorted_table (table c) →
  let '(c', data) := lower_bound k c in
  state_at (table c) Forward (List.filter (λ r, key_leb k r.1) (table c)) c' data.
Proof.
  intros Ht. pose proof (lower_bound_spec k c) as Hr. destruct (lower_bound k c) as [c' data].
  apply reaches_forward in Hr as [Htc Hd]. destruct (lower_index_split _ k Ht) as [_ <-].
  split; [done|]. destruct data; [|done]. destruct Hd. eauto.
Qed.

Lemma lower_bound_reverse c k :
  let '(c', data) := lower_bound k c in
  state_at (table c) Reverse
    match table c !! lower_index (table c) k with
    | Some r => r :: reverse (take (lower_index (table c) k) (table c))
    | None => []
    end c' data.
Proof.
  pose proof (lower_bound_spec k c) as Hr. destruct (lower_bound k c) as [c' data].
  destruct Hr as (Htc & -> & Hp). split; [done|]. destruct (_ !! _) as [r|] eqn:Hi; [|done].
  exists (lower_index (table c) k). split; [by apply Hp|]. split; [done|].
  by rewrite (ahead_cons _ _ _ _ Hi).
Qed.

Lemma prefixed_head_sorted prefix t :
  sorted_table t →
  prefixed_head prefix (List.filter (λ r, key_leb prefix r.1) t) =
  List.filter (λ r, starts_with r.1 prefix) t.
Proof.
  induction 1 as [|r t Ht IH Hr]; [done|]. cbn [List.filter].
  destruct (key_leb prefix r.1) eqn:E; cbn [prefixed_head].
  - destruct (starts_with r.1 prefix) eqn:Es; [by rewrite IH|]. symmetry. apply filter_none.
    intros s Hs. rewrite Forall_forall in Hr. apply not_true_is_false. intros Hss.
    by rewrite (starts_with_between _ _ _ E (Hr s Hs) Hss) in Es.
  - destruct (starts_with r.1 prefix) eqn:Es; [|done]. by rewrite (starts_with_ge _ _ Es) in E.
Qed.

Lemma prefixed_head_below prefix t :
  prefixed_head prefix (reverse (List.filter (λ r, key_ltb r.1 prefix) t)) = [].
Proof.
  destruct (reverse _) as [|r l] eqn:E; [done|]. cbn [prefixed_head].
  assert (Hr : r ∈ List.filter (λ r, key_ltb r.1 prefix) t)
    by (rewrite <- elem_of_reverse, E; by left).
  apply list_elem_of_In, filter_In in Hr as [_ Hr]. unfold key_ltb in Hr.
  destruct (starts_with r.1 prefix) eqn:Es; [|done]. by rewrite (starts_with_ge _ _ Es) in Hr.
Qed.

(** [cursor_for_prefix] forward hands the walking function exactly the
    records whose key has the prefix, in key order, and returns their number.
    In the other direction it starts from the same place, the first of these
    records, and sees no other. *)
Theorem cursor_for_prefix_visits (c : C) (s : S) (prefix : key) (d : CursorMoveDirection) :
  sorted_table (table c) →
  let l := List.filter (λ r, starts_with r.1 prefix) (table c) in
  let seen := match d with Forward => l | Reverse => take 1 l end in
  ∃ c', cursor_for_prefix walker (length (table c)) c prefix s d =
      Some (c', walk seen s, length seen) ∧ table c' = table c.
Proof.
  intros Ht l seen. unfold cursor_for_prefix. pose proof (prefixed_head_sorted prefix _ Ht) as Hh.
  destruct d.
  - pose proof (lower_bound_forward c prefix Ht) as Hs. destruct (lower_bound prefix c) as [c1 data].
    unfold seen, l. rewrite <-Hh. refine (for_prefix_loop_spec prefix _ (length (table c)) _ _ _ s 0 _ Hs _).
    apply filter_length_le.
  - pose proof (lower_bound_reverse c prefix) as Hs. destruct (lower_bound prefix c) as [c1 data].
    destruct (lower_index_split _ prefix Ht) as [Hlt Hge]. rewrite <-Hge in Hh.
    set (i := lower_index _ _) in *. destruct (table c !! i) as [r|] eqn:Hi.
    + rewrite (drop_S _ _ _ Hi) in Hh.
      assert (E : prefixed_head prefix (r :: reverse (take i (table c))) = seen).
      { unfold seen, l. rewrite <-Hh, Hlt. cbn [prefixed_head].
        rewrite prefixed_head_below. by destruct (starts_with r.1 prefix). }
      rewrite <-E. refine (for_prefix_loop_spec prefix _ (length (table c)) _ _ _ s 0 _ Hs _).
      apply lookup_lt_Some in Hi. cbn. rewrite length_reverse, length_take. lia.
    + apply lookup_ge_None in Hi. rewrite drop_ge in Hh by done. unfold seen, l. rewrite <-Hh.
      refine (for_prefix_loop_spec prefix [] (length (table c)) _ _ _ s 0 _ Hs _). cbn. lia.
Qed.
End walks.

(** ** Erasing *)

(** A cursor about to erase the records [l] of a table, upwards or downwards. *)
Definition erase_up (pre l : list record) (c : C) (data : option record) : Prop :=
  table c = pre ++ l ∧
  match data with None => l = [] | Some r => head l = Some r ∧ pos c = On (length pre) end.
Definition erase_down (l post : list record) (c : C) (data : option record) : Prop :=
  table c = l ++ post ∧
  match data with None => l = [] | Some r => ∃ l', l = l' ++ [r] ∧ pos c = On (length l') end.

Lemma erase_up_step pre r l c :
  erase_up pre (r :: l) c (Some r) →
  let '(c', data) := move (erase c) next in erase_up pre l c' data.
Proof.
  intros (Ht & _ & Hp).
  destruct (erase_spec c _ Hp) as [Ht' Hp']; [rewrite Ht, length_app; cbn; lia|].
  pose proof (next_erased_spec _ _ Hp') as Hm. destruct (move (erase c) next) as [c' data].
  rewrite Ht', Ht, delete_middle in Hm. destruct Hm as [(Htc & -> & Hpc) _]. split; [done|].
  rewrite lookup_app_r, Nat.sub_diag by lia. rewrite lookup_app_r, Nat.sub_diag in Hpc by lia.
  destruct l as [|r' l]; cbn in *; [done|]. split; [done|]. by apply Hpc.
Qed.

Lemma erase_down_step l r post c :
  erase_down (l ++ [r]) post c (Some r) →
  let '(c', data) := move (erase c) previous in erase_down l post c' data.
Proof.
  intros (Ht & l' & Hl & Hp). apply app_inj_2 in Hl as [<- _]; [|done].
  rewrite <-app_assoc in Ht. cbn [app] in Ht.
  destruct (erase_spec c _ Hp) as [Ht' Hp']; [rewrite Ht, length_app; cbn; lia|].
  pose proof (previous_spec _ _ (or_intror Hp')) as Hm. destruct (move (erase c) previous) as [c' data].
  rewrite Ht', Ht, delete_middle in Hm. destruct l as [|r' l _] using rev_ind.
  { destruct Hm as [Htc ->]. by split. }
  rewrite length_app in *. cbn [length] in *.
  destruct (decide _) as [?|_]; [lia|]. destruct Hm as (Htc & -> & Hpc). split; [done|].
  replace (length l + 1 - 1) with (length l) in * by lia.
  rewrite <-app_assoc in *. cbn [app] in *. rewrite list_lookup_middle in * by done. eauto.
Qed.

Lemma erase_loop_up l pre fuel c ret data :
  erase_up pre l c data → length l ≤ fuel →
  ∃ c', erase_loop fuel Forward c ret data = Some (c', ret + length l) ∧ table c' = pre.
Proof.
  revert fuel c ret data. induction l as [|r l IH]; intros fuel c ret data Hs Hf.
  - destruct data; [by destruct Hs as (_ & ? & _)|]. exists c. destruct fuel; cbn;
      rewrite Nat.add_0_r; (split; [done|]); destruct Hs as [-> _]; by rewrite app_nil_r.
  - destruct data as [r'|]; [|by destruct Hs]. pose proof Hs as (_ & [= ->] & _).
    destruct fuel as [|fuel]; [cbn in Hf; lia|]. cbn [erase_loop move_operation].
    apply erase_up_step in Hs. destruct (move _ _) as [c1 data].
    destruct (IH fuel c1 (1 + ret) data Hs) as (c' & E & Ht); [cbn in Hf; lia|].
    exists c'. split; [|done]. rewrite E. do 2 f_equal. cbn. lia.
Qed.

Lemma erase_loop_down l post fuel c ret data :
  erase_down l post c data → length l ≤ fuel →
  ∃ c', erase_loop fuel Reverse c ret data = Some (c', ret + length l) ∧ table c' = post.
Proof.
  revert fuel c ret data. induction l as [|r l IH] using rev_ind; intros fuel c ret data Hs Hf.
  - destruct data; [by destruct Hs as (_ & [|??] & ? & _)|]. exists c. destruct fuel; cbn;
      rewrite Nat.add_0_r; (split; [done|apply Hs]).
  - destruct data as [r'|]; [|by destruct Hs as [_ [_ ?]%app_nil]].
    pose proof Hs as (_ & l' & [-> [= ->]]%app_inj_2 & _); [|done].
    rewrite length_app in *. cbn [length] in *.
    destruct fuel as [|fuel]; [lia|]. cbn [erase_loop move_operation].
    apply erase_down_step in Hs. destruct (move _ _) as [c1 data].
    destruct (IH fuel c1 (1 + ret) data Hs) as (c' & E & Ht); [lia|].
    exists c'. split; [|done]. rewrite E. do 2 f_equal. lia.
Qed.

Lemma erase_prefix_loop_up prefix l pre fuel c ret data :
  erase_up pre l c data → length l ≤ fuel →
  let n := length (prefixed_head prefix l) in
  ∃ c', erase_prefix_loop fuel prefix c ret data = Some (c', ret + n) ∧ table c' = pre ++ drop n l.
Proof.
  revert fuel c ret data. induction l as [|r l IH]; intros fuel c ret data Hs Hf.
  - destruct data; [by destruct Hs as (_ & ? & _)|]. exists c. destruct fuel; cbn;
      rewrite Nat.add_0_r; (split; [done|apply Hs]).
  - destruct data as [r'|]; [|by destruct Hs]. pose proof Hs as (Ht & [= ->] & _).
    destruct fuel as [|fuel]; [cbn in Hf; lia|]. destruct r' as [k v].
    cbn [erase_prefix_loop prefixed_head fst]. destruct (starts_with k prefix); cbn [negb].
    + apply erase_up_step in Hs. destruct (move _ _) as [c1 data].
      destruct (IH fuel c1 (1 + ret) data Hs) as (c' & E & Ht'); [cbn in Hf; lia|].
      exists c'. split; [|done]. rewrite E. do 2 f_equal. cbn. lia.
    + exists c. cbn. rewrite Nat.add_0_r. by split.
Qed.

Lemma lower_bound_erases c k :
  sorted_table (table c) →
  let '(c', data) := lower_bound k c in
  erase_up (List.filter (λ r, key_ltb r.1 k) (table c)) (List.filter (λ r, key_leb k r.1) (table c))
    c' data.
Proof.
  intros Ht. destruct (lower_index_split _ k Ht) as [<- <-]. pose proof (lower_bound_spec k c) as Hr.
  destruct (lower_bound k c) as [c' data]. destruct Hr as (Htc & -> & Hp).
  split; [by rewrite take_drop|]. destruct (_ !! _) as [r|] eqn:Hi.
  - rewrite (drop_S _ _ _ Hi). split; [done|]. apply lookup_lt_Some in Hi.
    rewrite Hp by done. f_equal. rewrite length_take. lia.
  - by apply drop_ge, lookup_ge_None.
Qed.

Lemma to_last_erases c :
  let '(c', data) := to_last c in erase_down (table c) [] c' data.
Proof.
  pose proof (to_last_spec c) as Hr. destruct (to_last c) as [c' data].
  destruct (decide _) as [E|Hne]; [destruct Hr as [Htc ->]; split; [by rewrite Htc, app_nil_r|done]|].
  destruct Hr as (Htc & -> & Hp). split; [by rewrite Htc, app_nil_r|].
  destruct (table c) as [|r l _] using rev_ind; [done|]. rewrite length_app in *. cbn [length] in *.
  replace (length l + 1 - 1) with (length l) in * by lia.
  rewrite list_lookup_middle in * by done. exists l. split; [done|]. by apply Hp.
Qed.

Lemma strict_lower_bound_erases c k :
  sorted_table (table c) →
  let '(c', data) := strict_lower_bound c k in
  erase_down (List.filter (λ r, key_ltb r.1 k) (table c)) (List.filter (λ r, key_leb k r.1) (table c))
    c' data.
Proof.
  intros Ht. unfold strict_lower_bound. pose proof (lower_bound_erases c k Ht) as Hlb.
  destruct (lower_bound k c) as [c1 [r|]]; destruct Hlb as [Ht1 Hd].
  - destruct Hd as [Hh Hp]. pose proof (previous_spec _ _ (or_introl Hp)) as Hm.
    destruct (move c1 previous) as [c' data]. set (pre := List.filter _ _) in *.
    set (post := List.filter _ _) in *. clearbody pre post.
    destruct pre as [|r' pre _] using rev_ind; [destruct Hm as [Htc ->]; by split; [rewrite Htc|]|].
    rewrite length_app in Hm. cbn [length] in Hm. destruct (decide _) as [?|_]; [lia|].
    destruct Hm as (Htc & -> & Hpc). split; [by rewrite Htc|].
    replace (length pre + 1 - 1) with (length pre) in * by lia. rewrite Ht1, <-app_assoc in *.
    cbn [app] in *. rewrite list_lookup_middle in * by done. eauto.
  - rewrite Hd. pose proof (to_last_erases c1) as Hl. destruct (to_last c1) as [c' data].
    by rewrite Ht1, Hd, app_nil_r in Hl.
Qed.

(** C20: [cursor_erase] forward removes exactly the records whose key is not
    less than the given one, and backward exactly those whose key is less; it
    ends, keeps the others as they are, and returns how many it removed. *)
Theorem cursor_erase_removes (c : C) (k : key) (d : CursorMoveDirection) :
  sorted_table (table c) →
  let goes r := match d with Forward => key_leb k r.1 | Reverse => key_ltb r.1 k end in
  ∃ c', cursor_erase (length (table c)) c k d = Some (c', length (List.filter goes (table c))) ∧
    table c' = List.filter (λ r, negb (goes r)) (table c).
Proof.
  intros Ht goes. unfold cursor_erase, goes, key_ltb. destruct d.
  - pose proof (lower_bound_erases c k Ht) as Hs. destruct (lower_bound k c) as [c1 data].
    exact (erase_loop_up _ _ _ _ 0 _ Hs (filter_length_le _ _)).
  - pose proof (strict_lower_bound_erases c k Ht) as Hs.
    destruct (strict_lower_bound c k) as [c1 data].
    destruct (erase_loop_down _ _ (length (table c)) _ 0 _ Hs (filter_length_le _ _)) as (c' & E & Hc).
    exists c'. split; [exact E|]. rewrite Hc. apply filter_ext. intros r. cbn. by rewrite negb_involutive.
Qed.

Lemma prefixed_rest prefix t :
  sorted_table t →
  let l := List.filter (λ r, key_leb prefix r.1) t in
  List.filter (λ r, key_ltb r.1 prefix) t ++ drop (length (prefixed_head prefix l)) l =
  List.filter (λ r, negb (starts_with r.1 prefix)) t.
Proof.
  unfold key_ltb. induction 1 as [|r t Ht IH Hr]; [done|]. cbn [List.filter].
  rewrite Forall_forall in Hr. destruct (key_leb prefix r.1) eqn:E; cbn [negb prefixed_head].
  - destruct (starts_with r.1 prefix) eqn:Es; cbn [negb length drop]; [apply IH|].
    rewrite filter_none by (intros s Hs; by rewrite (key_leb_trans _ _ _ E (Hr s Hs))).
    cbn [app]. f_equal. rewrite !filter_all; [done| |].
    + intros s Hs. apply negb_true_iff, not_true_is_false. intros Hss.
      by rewrite (starts_with_between _ _ _ E (Hr s Hs) Hss) in Es.
    + intros s Hs. apply (key_leb_trans _ _ _ E (Hr s Hs)).
  - destruct (starts_with r.1 prefix) eqn:Es; [by rewrite (starts_with_ge _ _ Es) in E|].
    cbn [negb app]. f_equal. apply IH.
Qed.

(** [cursor_erase_prefix] removes exactly the records whose key has the
    prefix, keeps the others as they are, ends, and returns how many it
    removed. *)
Theorem cursor_erase_prefix_removes (c : C) (prefix : key) :
  sorted_table (table c) →
  let goes (r : record) := starts_with r.1 prefix in
  ∃ c', cursor_erase_prefix (length (table c)) c prefix =
      Some (c', length (List.filter goes (table c))) ∧
    table c' = List.filter (λ r, negb (goes r)) (table c).
Proof.
  intros Ht goes. unfold cursor_erase_prefix, goes. rewrite <-(prefixed_head_sorted _ _ Ht).
  rewrite <-(prefixed_rest _ _ Ht). pose proof (lower_bound_erases c prefix Ht) as Hs.
  destruct (lower_bound prefix c) as [c1 data].
  exact (erase_prefix_loop_up prefix _ _ _ _ 0 _ Hs (filter_length_le _ _)).
Qed.
End theory.

(** ** Whether a cursor is on a record *)

(** [on_last] is documented for a cursor on a record only. *)
Class MdbxOnLast (C : Type) `{MdbxCursor C} := {
  on_last : C → bool;
  on_last_on c i : pos c = On i → on_last c = bool_decide (S i = length (table c))
}.

Definition is_dangling `{MdbxOnLast C} (this : C) : bool := eof this && negb (on_last this).

(** A cursor on a record is not dangling, nor one that is past the end and
    still tells it is on the last record. *)
Lemma on_record_not_dangling `{MdbxOnLast C} (c : C) i :
  pos c = On i ∨ on_last c = true → is_dangling c = false.
Proof. intros [Hp|Hl]; unfold is_dangling; [by rewrite (eof_on _ _ Hp)|by rewrite Hl, andb_false_r]. Qed.

(** ** Instances *)

Definition a_table : list record :=
  [([Byte.x01], [Byte.xaa]); ([Byte.x02; Byte.x00], [Byte.xbb]); ([Byte.x02; Byte.x07], [Byte.xcc]); ([Byte.x03], [Byte.xdd])].
Definition a_cursor : ref_cursor := mk_ref a_table Unset.

Lemma a_table_sorted : sorted_table a_table.
Proof. unfold a_table, sorted_table. repeat constructor. Defined.

Lemma cursor_walks_witness :
  cursor_ok (H := mdbx_reference) (mk_ref a_table (On 2)) ∧
  (∃ c', cursor_for_each (H := mdbx_reference) (λ s k v, s ++ v) 4 (mk_ref a_table (On 2)) [] Reverse =
    Some (c', [Byte.xcc; Byte.xbb; Byte.xaa], 3) ∧ ref_table c' = a_table) ∧
  (∃ c', cursor_for_count (H := mdbx_reference) (λ s k v, s ++ v) (mk_ref a_table (On 2)) [] 2 Reverse =
    (c', [Byte.xcc; Byte.xbb], 2) ∧ ref_table c' = a_table).
Proof.
  assert (Hok : cursor_ok (H := mdbx_reference) (mk_ref a_table (On 2))) by (cbn; lia).
  split; [exact Hok|].
  exact (cursor_walks (H := mdbx_reference) (λ s k v, s ++ v) (mk_ref a_table (On 2)) [] Reverse 2 Hok).
Defined.

Lemma cursor_for_prefix_visits_witness :
  sorted_table a_table ∧
  (∃ c', cursor_for_prefix (H := mdbx_reference) (λ s k v, s ++ v) 4 a_cursor [Byte.x02] [] Forward =
    Some (c', [Byte.xbb; Byte.xcc], 2) ∧ ref_table c' = a_table).
Proof.
  split; [exact a_table_sorted|].
  exact (cursor_for_prefix_visits (H := mdbx_reference) (λ s k v, s ++ v) a_cursor [] [Byte.x02] Forward
    a_table_sorted).
Defined.

Lemma cursor_erase_removes_witness :
  sorted_table a_table ∧
  (∃ c', cursor_erase (H := mdbx_reference) 4 a_cursor [Byte.x02; Byte.x01] Reverse = Some (c', 2) ∧
    ref_table c' = [([Byte.x02; Byte.x07], [Byte.xcc]); ([Byte.x03], [Byte.xdd])]).
Proof.
  split; [exact a_table_sorted|].
  exact (cursor_erase_removes (H := mdbx_reference) a_cursor [Byte.x02; Byte.x01] Reverse a_table_sorted).
Defined.

Lemma cursor_erase_prefix_removes_witness :
  sorted_table a_table ∧
  (∃ c', cursor_erase_prefix (H := mdbx_reference) 4 a_cursor [Byte.x02] = Some (c', 2) ∧
    ref_table c' = [([Byte.x01], [Byte.xaa]); ([Byte.x03], [Byte.xdd])]).
Proof.
  split; [exact a_table_sorted|].
  exact (cursor_erase_prefix_removes (H := mdbx_reference) a_cursor [Byte.x02] a_table_sorted).
Defined.
