(* ===== verification/Env.v ===== *)
(** * Opening the database

    Models [open_env] and the leaf page arithmetic of
    [src/zen/node/database/mdbx.cpp] with the configuration of [mdbx.hpp]. The
    file system and libmdbx's environments are interfaces ([FileSystem],
    [MdbxFlags], [MdbxEnv]). *)
From S2P Require Import Prelude Base.
Local Open Scope Z_scope.

(** ** The configuration, mdbx.hpp *)

Definition kDbDataFileName : list byte := chars "mdbx.dat".

Record EnvConfig := mk_EnvConfig {
  path : list byte;
  create : bool;
  readonly : bool;
  exclusive : bool;
  inmemory : bool;
  shared : bool;
  read_ahead : bool;
  write_map : bool;
  page_size : Z;
  max_size : Z;
  growth_size : Z;
  max_tables : Z;
  max_readers : Z
}.

Definition default_EnvConfig (p : list byte) : EnvConfig :=
  mk_EnvConfig p false false false false false false false
    (lit_KiB 4) (lit_TiB 3) (lit_GiB 2) 128 100.

(** ** Paths, as POSIX has them *)

Definition separator : byte := byte_of_Z 47.
Definition has_filename (p : list byte) : bool :=
  match last p with Some c => negb (bool_decide (c = separator)) | None => false end.

Definition get_datafile_path (base_path : list byte) : list byte :=
  (if has_filename base_path then base_path ++ [separator] else base_path) ++ kDbDataFileName.

(** ** Interfaces *)

(** What [open_env] throws, with where it comes from. *)
Inductive env_error :=
  | invalid_argument
  | runtime_error
  | ios_failure
  | length_error
  | filesystem_error
  | mdbx_error.

Class FileSystem (F : Type) := {
  fs_exists : F → list byte → bool;
  is_directory : F → list byte → bool;
  file_size : F → list byte → Z;
  create_directories : F → list byte → outcome env_error F
}.

Inductive env_flag :=
  MDBX_NOTLS | MDBX_NORDAHEAD | MDBX_COALESCE | MDBX_RDONLY | MDBX_NOMETASYNC | MDBX_EXCLUSIVE |
  MDBX_ACCEDE | MDBX_WRITEMAP.

(** The flags are distinct bits of a 32-bit word; the default durability is
    none of them. *)
Class MdbxFlags := {
  flag_bit : env_flag → Z;
  flag_mask : env_flag → Z;
  MDBX_SYNC_DURABLE : Z;
  flag_mask_spec f : flag_mask f = 2 ^ flag_bit f;
  flag_bit_range f : 0 <= flag_bit f < 32;
  flag_bit_inj f g : flag_bit f = flag_bit g → f = g;
  sync_durable_spec : MDBX_SYNC_DURABLE = 0
}.

(** [None] leaves the library's default. *)
Record create_parameters := mk_cp {
  max_map_size : option Z;
  growth_step : option Z;
  cp_pagesize : option Z
}.

Inductive env_option :=
  MDBX_opt_rp_augment_limit | MDBX_opt_txn_dp_initial | MDBX_opt_dp_reserve_limit |
  MDBX_opt_txn_dp_limit | MDBX_opt_merge_threshold_16dot16_percent.

#[export] Instance env_flag_eq_dec : EqDecision env_flag.
Proof. solve_decision. Defined.

#[export] Instance env_option_eq_dec : EqDecision env_option.
Proof. solve_decision. Defined.

(** The operating parameters the library derives from flags, the limits, and
    the operations on an environment. Opening one makes its files in the file
    system, if they are not there. An option that is set is what was set; that
    leaves the page size as it is, but may change the options [coupled] with
    it: the library keeps the first size of the list of dirty pages within
    their limit. *)
Class MdbxEnv (F E : Type) := {
  op_mode : Type;
  op_options : Type;
  op_durability : Type;
  mode_from_flags : Z → op_mode;
  options_from_flags : Z → op_options;
  durability_from_flags : Z → op_durability;
  env_managed : F → list byte → create_parameters →
    op_mode * op_options * op_durability * Z * Z → bool → outcome env_error (E * F);
  get_pagesize : E → Z;
  get_option : E → env_option → Z;
  set_option : E → env_option → Z → outcome env_error E;
  check_readers : E → outcome env_error E;
  coupled : env_option → env_option → bool;
  get_option_range e o : in_range 64 (get_option e o);
  set_option_get e o v e' : set_option e o v = Return e' → in_range 64 v →
    get_pagesize e' = get_pagesize e ∧ get_option e' o = v ∧
    ∀ o', o' ≠ o → coupled o o' = false → get_option e' o' = get_option e o';
  check_readers_get e e' : check_readers e = Return e' →
    get_pagesize e' = get_pagesize e ∧ ∀ o, get_option e' o = get_option e o
}.

Section open_env.
Context `{FileSystem F, MdbxFlags, MdbxEnv F E}.

(** [static_cast<intptr_t>] of a [size_t]. *)
Definition to_intptr (z : Z) : Z := if fits_int64 z then z else z - 2 ^ 64.

Definition env_flags (config : EnvConfig) : Z :=
  let flags := Z.lor (Z.lor (Z.lor (flag_mask MDBX_NOTLS) (flag_mask MDBX_NORDAHEAD))
                            (flag_mask MDBX_COALESCE)) MDBX_SYNC_DURABLE in
  let flags := if read_ahead config then Z.land flags (u32 (Z.lnot (flag_mask MDBX_NORDAHEAD)))
               else flags in
  let flags := if readonly config then Z.lor flags (flag_mask MDBX_RDONLY) else flags in
  let flags := if inmemory config then Z.lor flags (flag_mask MDBX_NOMETASYNC) else flags in
  let flags := if exclusive config then Z.lor flags (flag_mask MDBX_EXCLUSIVE) else flags in
  let flags := if shared config then Z.lor flags (flag_mask MDBX_ACCEDE) else flags in
  let flags := if write_map config then Z.lor flags (flag_mask MDBX_WRITEMAP) else flags in
  flags.

Definition env_parameters (config : EnvConfig) (db_ondisk_file_size : Z) : create_parameters :=
  if negb (shared config) then
    let max_map_size := to_intptr (if inmemory config then lit_MiB 128 else max_size config) in
    let growth_size := to_intptr (if inmemory config then lit_MiB 8 else growth_size config) in
    mk_cp (Some max_map_size) (Some growth_size)
      (if db_ondisk_file_size =? 0 then Some (to_intptr (page_size config)) else None)
  else mk_cp None None None.

Definition env_options (config : EnvConfig) (ret : E) : outcome env_error E :=
  if negb (shared config) then
    ret ← set_option ret MDBX_opt_rp_augment_limit (lit_MiB 32);
    if negb (readonly config) then
      ret ← set_option ret MDBX_opt_txn_dp_initial (lit_KiB 16);
      ret ← set_option ret MDBX_opt_dp_reserve_limit (lit_KiB 16);
      let dirty_pages_limit := get_option ret MDBX_opt_txn_dp_limit in
      ret ← set_option ret MDBX_opt_txn_dp_limit (u64 (dirty_pages_limit * 2));
      set_option ret MDBX_opt_merge_threshold_16dot16_percent (lit_KiB 32)
    else Return ret
  else Return ret.

(** The path of the directory, and the file system once it exists. *)
Definition env_directory (config : EnvConfig) (fs : F) : outcome env_error (list byte * F) :=
  if bool_decide (path config = []) then Throw invalid_argument else
  let db_path := path config in
  let db_path := if has_filename db_path then db_path ++ [separator] else db_path in
  if negb (fs_exists fs db_path) then
    fs ← create_directories fs db_path;
    Return (db_path, fs)
  else if negb (is_directory fs db_path) then Throw runtime_error
  else Return (db_path, fs).

Definition datafile_size (fs : F) (db_path : list byte) : Z :=
  let db_file := get_datafile_path db_path in
  if fs_exists fs db_file then file_size fs db_file else 0.

Definition open_env (config : EnvConfig) (fs : F) : outcome env_error (E * F) :=
  '(db_path, fs) ← env_directory config fs;
  let db_ondisk_file_size := datafile_size fs db_path in
  if negb (create config) && (db_ondisk_file_size =? 0) then Throw runtime_error else
  if create config && negb (db_ondisk_file_size =? 0) then Throw runtime_error else
  if max_size config <? db_ondisk_file_size then Throw ios_failure else
  if exclusive config && shared config then Throw invalid_argument else
  if create config && shared config then Throw invalid_argument else
  if create config && readonly config then Throw invalid_argument else
  let flags := env_flags config in
  let cp := env_parameters config db_ondisk_file_size in
  let op := (mode_from_flags flags, options_from_flags flags, durability_from_flags flags,
             max_tables config, max_readers config) in
  '(ret, fs) ← env_managed fs db_path cp op (shared config);
  let db_page_size := get_pagesize ret in
  if negb (db_page_size =? page_size config) then Throw length_error else
  ret ← env_options config ret;
  ret ← (if negb (inmemory config) then check_readers ret else Return ret);
  Return (ret, fs).
End open_env.

(** ** The leaf page *)

Definition max_value_size_for_leaf_page (page_size key_size : Z) : Z :=
  let kPageOverheadSize := 32 in
  let page_room := u64 (page_size - kPageOverheadSize) in
  let leaf_node_max_room := u64 (Z.land (page_room / 2) (u64 (Z.lnot 1)) - 2 * 2) in
  let max_size := u64 (leaf_node_max_room - key_size) in
  max_size.

(** ** What the flags are *)

Definition wanted_flag (config : EnvConfig) (f : env_flag) : bool :=
  match f with
  | MDBX_NOTLS | MDBX_COALESCE => true
  | MDBX_NORDAHEAD => negb (read_ahead config)
  | MDBX_RDONLY => readonly config
  | MDBX_NOMETASYNC => inmemory config
  | MDBX_EXCLUSIVE => exclusive config
  | MDBX_ACCEDE => shared config
  | MDBX_WRITEMAP => write_map config
  end.

Section flags.
Context `{MdbxFlags}.

Lemma flag_mask_testbit f i : Z.testbit (flag_mask f) i = (i =? flag_bit f).
Proof.
  rewrite flag_mask_spec. pose proof (flag_bit_range f).
  rewrite Z.pow2_bits_eqb by lia. apply Z.eqb_sym.
Qed.

Lemma clear_mask_testbit f i :
  0 <= i < 32 → Z.testbit (u32 (Z.lnot (flag_mask f))) i = negb (i =? flag_bit f).
Proof.
  intros Hi. unfold u32, wrap. rewrite Z.mod_pow2_bits_low, Z.lnot_spec by lia.
  by rewrite flag_mask_testbit.
Qed.

Lemma testbit_lor_if (b : bool) x f i :
  Z.testbit (if b then Z.lor x (flag_mask f) else x) i = Z.testbit x i || (b && (i =? flag_bit f)).
Proof. destruct b; [by rewrite Z.lor_spec, flag_mask_testbit|by rewrite orb_false_r]. Qed.

Lemma testbit_clear_if (b : bool) x f i :
  0 <= i < 32 →
  Z.testbit (if b then Z.land x (u32 (Z.lnot (flag_mask f))) else x) i
  = Z.testbit x i && negb (b && (i =? flag_bit f)).
Proof.
  intros Hi. destruct b; [by rewrite Z.land_spec, clear_mask_testbit|by rewrite andb_true_r].
Qed.

Lemma flag_bit_eqb f g : (flag_bit f =? flag_bit g) = bool_decide (f = g).
Proof.
  apply eq_true_iff_eq. rewrite Z.eqb_eq, bool_decide_eq_true. split; [apply flag_bit_inj|by intros ->].
Qed.

Lemma flag_of_bit i : (∃ f, i = flag_bit f) ∨ ∀ f, (i =? flag_bit f) = false.
Proof.
  set (fs := [MDBX_NOTLS; MDBX_NORDAHEAD; MDBX_COALESCE; MDBX_RDONLY; MDBX_NOMETASYNC;
              MDBX_EXCLUSIVE; MDBX_ACCEDE; MDBX_WRITEMAP]).
  destruct (decide (Exists (λ f, i = flag_bit f) fs)) as [He|Hn].
  - left. apply Exists_exists in He as (f & _ & Hf). by exists f.
  - right. intros f. apply Z.eqb_neq. intros Hf. apply Hn, Exists_exists. exists f. split; [|done].
    destruct f; unfold fs; repeat constructor.
Qed.

(** The word of flags a configuration asks for has exactly the bits of the
    flags it means: the two defaults, no read-ahead unless it is wanted, and
    one for each of the other switches that is on. *)
Theorem env_flags_bits (config : EnvConfig) (i : Z) :
  Z.testbit (env_flags config) i = true ↔ ∃ f, i = flag_bit f ∧ wanted_flag config f = true.
Proof.
  unfold env_flags. rewrite !testbit_lor_if. destruct (flag_of_bit i) as [[f ->]|Hno].
  - rewrite testbit_clear_if by apply flag_bit_range.
    rewrite !Z.lor_spec, sync_durable_spec, Z.bits_0, !flag_mask_testbit, !flag_bit_eqb.
    transitivity (wanted_flag config f = true);
      [|split; [by exists f|intros (g & ->%flag_bit_inj & Hg); done]].
    destruct config as [? ? r e im sh ra w ? ? ? ? ?]; cbn.
    by destruct f, r, e, im, sh, ra, w; vm_compute.
  - set (base := Z.lor _ MDBX_SYNC_DURABLE). assert (Hb : Z.testbit base i = false).
    { unfold base. by rewrite !Z.lor_spec, sync_durable_spec, Z.bits_0, !flag_mask_testbit, !Hno. }
    assert (Hc : Z.testbit (if read_ahead config then Z.land base (u32 (Z.lnot (flag_mask MDBX_NORDAHEAD)))
                            else base) i = false)
      by (destruct (read_ahead config); [by rewrite Z.land_spec, Hb|done]).
    rewrite Hc, !Hno, !andb_false_r. cbn. split; [done|]. intros (f & -> & _).
    specialize (Hno f). by rewrite Z.eqb_refl in Hno.
Qed.
End flags.

(** ** What an opened environment guarantees *)

Section opened.
Context `{FileSystem F, MdbxFlags, MdbxEnv F E}.

(** The configuration agrees with itself and with the size of the data file. *)
Record config_ok (config : EnvConfig) (size : Z) : Prop := {
  ok_path : path config ≠ [];
  ok_create : create config = (size =? 0);
  ok_size : size <= max_size config;
  ok_shared : shared config = true → exclusive config = false ∧ create config = false;
  ok_readonly : readonly config = true → create config = false
}.

(** Options set one after the other. *)
Fixpoint set_options (e : E) (l : list (env_option * Z)) : outcome env_error E :=
  match l with
  | [] => Return e
  | (o, v) :: l => e ← set_option e o v; set_options e l
  end.

(** What an environment is asked for: nothing more if it is shared, one option
    if it is read-only, otherwise three options and then, [limit] being the
    limit of dirty pages it has by then, twice that limit and one more. *)
Definition first_settings (config : EnvConfig) : list (env_option * Z) :=
  if shared config then []
  else (MDBX_opt_rp_augment_limit, 32 * 2 ^ 20) ::
    if readonly config then []
    else [(MDBX_opt_txn_dp_initial, 16384); (MDBX_opt_dp_reserve_limit, 16384)].
Definition last_settings (config : EnvConfig) (limit : Z) : list (env_option * Z) :=
  if shared config || readonly config then []
  else [(MDBX_opt_txn_dp_limit, 2 * limit mod 2 ^ 64);
        (MDBX_opt_merge_threshold_16dot16_percent, 32768)].

(** An option is not touched by settings of other options, uncoupled with it. *)
Definition untouched (o : env_option) (l : list (env_option * Z)) : Prop :=
  Forall (λ s, s.1 ≠ o ∧ coupled s.1 o = false) l.

Lemma set_options_app e l l' e' :
  set_options e (l ++ l') = Return e' ↔
  ∃ e1, set_options e l = Return e1 ∧ set_options e1 l' = Return e'.
Proof.
  revert e. induction l as [|[o v] l IH]; intros e; cbn [app set_options].
  - split; [by exists e|]. by intros (e1 & [= ->] & ?).
  - destruct (set_option e o v) as [e2| | |]; cbn [mbind outcome_bind]; [apply IH|..];
      (split; [done|by intros (? & ? & _)]).
Qed.

Lemma set_options_get e l e' :
  Forall (λ s, in_range 64 s.2) l → set_options e l = Return e' →
  get_pagesize e' = get_pagesize e ∧ ∀ o, untouched o l → get_option e' o = get_option e o.
Proof.
  intros Hl. revert e. induction Hl as [|[o v] l Hv _ IH]; intros e; cbn [set_options].
  - by intros [= ->].
  - intros (e1 & Hs & Hr)%bind_Return. apply set_option_get in Hs as (Hp & _ & Hs); [|done].
    destruct (IH _ Hr) as [Hp' Ho]. split; [congruence|]. intros o' [[Hne Hc] Ht]%Forall_cons.
    rewrite Ho by done. by apply Hs.
Qed.

Lemma env_options_settings config e0 e :
  env_options config e0 = Return e →
  ∃ e1, set_options e0 (first_settings config) = Return e1 ∧
    set_options e1 (last_settings config (get_option e1 MDBX_opt_txn_dp_limit)) = Return e.
Proof.
  unfold env_options, first_settings, last_settings.
  destruct (shared config); cbn [negb orb]; [intros [= ->]; by exists e|].
  destruct (readonly config); cbn [negb].
  - intros (e1 & Hs & [= ->])%bind_Return. exists e. cbn [set_options].
    split; [|done]. change (32 * 2 ^ 20) with (lit_MiB 32). by rewrite Hs.
  - intros (e1 & Hs1 & Hr)%bind_Return. apply bind_Return in Hr as (e2 & Hs2 & Hr).
    apply bind_Return in Hr as (e3 & Hs3 & Hr). apply bind_Return in Hr as (e4 & Hs4 & Hs5).
    exists e3. cbn [set_options]. change (32 * 2 ^ 20) with (lit_MiB 32). rewrite Hs1.
    change 16384 with (lit_KiB 16). cbn [mbind outcome_bind]. rewrite Hs2. cbn [mbind outcome_bind].
    rewrite Hs3. split; [done|]. rewrite (Z.mul_comm 2). change (_ mod 2 ^ 64) with (u64 (get_option e3 MDBX_opt_txn_dp_limit * 2)).
    rewrite Hs4. cbn [mbind outcome_bind]. change 32768 with (lit_KiB 32). by rewrite Hs5.
Qed.

Lemma settings_range config limit :
  Forall (λ s, in_range 64 s.2) (first_settings config ++ last_settings config limit).
Proof.
  unfold first_settings, last_settings.
  assert (in_range 64 (2 * limit mod 2 ^ 64)) by by apply Z.mod_pos_bound.
  destruct (shared config), (readonly config); cbn [app orb];
    repeat (apply Forall_nil_2 || apply Forall_cons_2); done.
Qed.

(** C21: When [open_env] returns, the configuration agreed with itself and with
    the data file it found: the file was to be created exactly when there was
    none, it fits the map, and no two exclusive switches were both on. The
    environment then is the one the library opened with the parameters of the
    configuration and its flags, in the file system the library left; it has
    the page size asked for. A shared environment is left at the options it
    has, a read-only one is asked for one option, and of a writable one the
    limit of dirty pages is doubled, from what the library has it at when the
    three options before it are set, and one more is set. An option set last,
    or before others that are not coupled with it, has the value it was set
    to; one that is never touched is as it was. *)
Theorem open_env_returned (config : EnvConfig) (fs fs' : F) (e : E) :
  open_env config fs = Return (e, fs') →
  ∃ dir fs1 e0 e1, env_directory config fs = Return (dir, fs1) ∧
    config_ok config (datafile_size fs1 dir) ∧
    env_managed fs1 dir (env_parameters config (datafile_size fs1 dir))
      (mode_from_flags (env_flags config), options_from_flags (env_flags config),
       durability_from_flags (env_flags config), max_tables config, max_readers config)
      (shared config) = Return (e0, fs') ∧
    get_pagesize e = page_size config ∧
    set_options e0 (first_settings config) = Return e1 ∧
    let settings :=
      first_settings config ++ last_settings config (get_option e1 MDBX_opt_txn_dp_limit) in
    (∀ l o v l', settings = l ++ (o, v) :: l' → untouched o l' → get_option e o = v) ∧
    (∀ o, untouched o settings → get_option e o = get_option e0 o).
Proof.
  unfold open_env. intros ([dir fs1] & Hd & Hr)%bind_Return.
  assert (Hpath : path config ≠ []).
  { intros Hp. unfold env_directory in Hd. by rewrite bool_decide_true in Hd. }
  apply throw_if_Return in Hr as [Hlocate Hr]. apply throw_if_Return in Hr as [Hexists Hr].
  apply throw_if_Return in Hr as [Hsize Hr]. apply throw_if_Return in Hr as [Hexcl Hr].
  apply throw_if_Return in Hr as [Hcs Hr]. apply throw_if_Return in Hr as [Hcr Hr].
  apply bind_Return in Hr as ([e0 fs2] & Hopen & Hr). apply throw_if_Return in Hr as [Hpage Hr].
  apply bind_Return in Hr as (e2 & Htune & Hr). apply bind_Return in Hr as (e3 & Hcheck & [= -> ->]).
  apply env_options_settings in Htune as (e1 & Hfirst & Hlast).
  pose proof (settings_range config (get_option e1 MDBX_opt_txn_dp_limit)) as Hrange.
  assert (Hall : set_options e0 (first_settings config ++
    last_settings config (get_option e1 MDBX_opt_txn_dp_limit)) = Return e2)
    by (apply set_options_app; by exists e1).
  destruct (set_options_get _ _ _ Hrange Hall) as [Hp2 Ho2].
  assert (get_pagesize e = get_pagesize e2 ∧ ∀ o, get_option e o = get_option e2 o) as [Hp3 Ho3].
  { destruct (inmemory config); cbn [negb] in Hcheck; [by injection Hcheck as ->|].
    by apply check_readers_get. }
  exists dir, fs1, e0, e1. split; [done|]. split; [split|split_and!].
  - done.
  - by destruct (create config), (_ =? 0).
  - lia.
  - intros Hs. by rewrite Hs, andb_true_r in *.
  - intros Hs. by rewrite Hs, andb_true_r in *.
  - done.
  - rewrite Hp3, Hp2. by apply Z.eqb_eq, negb_false_iff.
  - done.
  - intros l o v l' Hl Hu. rewrite Hl in Hall, Hrange.
    apply Forall_app in Hrange as [_ Hrange]. apply Forall_cons in Hrange as [Hv Hrange].
    apply set_options_app in Hall as (e4 & _ & Hall). cbn [set_options] in Hall.
    apply bind_Return in Hall as (e5 & Hs & Hall). apply set_option_get in Hs as (_ & Hs & _); [|done].
    destruct (set_options_get _ _ _ Hrange Hall) as [_ Ho]. by rewrite Ho3, Ho.
  - intros o Hu. by rewrite Ho3, Ho2.
Qed.
End opened.

(** ** The largest value of a leaf page *)

Lemma land_even x : in_range 64 x → Z.land x (u64 (Z.lnot 1)) = 2 * (x / 2).
Proof.
  intros Hx. unfold in_range in Hx.
  replace (2 * (x / 2)) with (Z.shiftl (Z.shiftr x 1) 1)
    by (rewrite Z.shiftl_mul_pow2, Z.shiftr_div_pow2 by lia; lia).
  apply Z.bits_inj'. intros i Hi. rewrite Z.land_spec, Z.shiftl_spec by done. unfold u64, wrap.
  destruct (decide (i = 0)) as [->|Hne]; [by rewrite andb_false_r|].
  rewrite Z.shiftr_spec by lia. replace (i - 1 + 1) with i by lia.
  destruct (decide (i < 64)) as [Hlt|Hge].
  - rewrite Z.mod_pow2_bits_low, Z.lnot_spec by lia.
    change 1 with (2 ^ 0). rewrite Z.pow2_bits_eqb by lia.
    destruct (Z.eqb_spec 0 i); [lia|]. by rewrite andb_true_r.
  - rewrite <-(Z.mod_small x (2 ^ 64)) by done. by rewrite Z.mod_pow2_bits_high by lia.
Qed.

(** Two nodes of a key and a value, with the sizes of both and each of an
    even number of bytes, share a page. *)
Definition two_fit (page_size key_size value_size : Z) : Prop :=
  let node := key_size + value_size + 2 * 2 in
  2 * (node + node mod 2) + 32 <= page_size.

#[export] Instance two_fit_dec p k v : Decision (two_fit p k v).
Proof. unfold two_fit. apply _. Defined.

(** [max_value_size_for_leaf_page] is the size of the largest value such
    that two nodes fit a page. When not even the empty value fits it wraps
    around and returns more than [2 ^ 62]. *)
Theorem leaf_page_value_size (page_size key_size : Z) :
  0 <= page_size < 2 ^ 62 → 0 <= key_size < 2 ^ 61 →
  let best := max_value_size_for_leaf_page page_size key_size in
  if decide (two_fit page_size key_size 0)
  then ∀ value_size, 0 <= value_size → two_fit page_size key_size value_size ↔ value_size <= best
  else 2 ^ 62 < best.
Proof.
  intros Hp Hk best. unfold best, max_value_size_for_leaf_page. clear best.
  destruct (decide (32 <= page_size)) as [Hge|Hlt].
  - assert (E : u64 (page_size - 32) = page_size - 32) by (unfold u64, wrap; apply Z.mod_small; lia).
    rewrite E, land_even by (unfold in_range; split; [apply Z.div_pos; lia|apply Z.div_lt_upper_bound; lia]).
    clear E. unfold u64, wrap. rewrite Zminus_mod_idemp_l.
    destruct (decide _) as [Hfit|Hno]; unfold two_fit in *.
    + rewrite Z.mod_small by lia. intros v Hv. split; intros; lia.
    + set (x := _ - key_size). assert (Hx : - 2 ^ 63 < x < 0) by (unfold x; lia).
      assert (E : x + 2 ^ 64 = x mod 2 ^ 64) by (apply (Zmod_unique _ _ (-1)); lia).
      rewrite <-E. lia.
  - assert (E : u64 (page_size - 32) = page_size - 32 + 2 ^ 64)
      by (unfold u64, wrap; symmetry; apply (Zmod_unique _ _ (-1)); lia).
    rewrite E, land_even by (unfold in_range; split; [apply Z.div_pos; lia|apply Z.div_lt_upper_bound; lia]).
    clear E. rewrite decide_False by (unfold two_fit; lia).
    unfold u64, wrap. rewrite Zminus_mod_idemp_l, Z.mod_small; lia.
Qed.

Lemma leaf_page_value_size_witness :
  max_value_size_for_leaf_page 4096 28 = 2000 ∧ two_fit 4096 28 2000 ∧ ¬ two_fit 4096 28 2001.
Proof.
  assert (Hp : 0 <= 4096 < 2 ^ 62) by lia. assert (Hk : 0 <= 28 < 2 ^ 61) by lia.
  pose proof (leaf_page_value_size 4096 28 Hp Hk) as Hbest.
  replace (max_value_size_for_leaf_page 4096 28) with 2000 in * by (vm_compute; reflexivity).
  rewrite decide_True in Hbest by (unfold two_fit; lia).
  split; [reflexivity|]. split; [apply Hbest; lia|].
  rewrite Hbest by lia. lia.
Defined.

(** ** Instances *)

(** A file system of entries by path: a directory, or a file with its size. *)
Definition ref_fs : Type := list (list byte * option Z).
Definition ref_entry (fs : ref_fs) (p : list byte) : option (option Z) :=
  snd <$> List.find (λ e, bool_decide (e.1 = p)) fs.
Definition ref_file_system : FileSystem ref_fs := {|
  fs_exists fs p := bool_decide (is_Some (ref_entry fs p));
  is_directory fs p := bool_decide (ref_entry fs p = Some None);
  file_size fs p := default 0 (default None (ref_entry fs p));
  create_directories fs p := Return ((p, None) :: fs)
|}.

(** Flags numbered from zero. *)
Definition ref_flags : MdbxFlags.
Proof.
  set (bit f := match f with
    | MDBX_NOTLS => 0 | MDBX_NORDAHEAD => 1 | MDBX_COALESCE => 2 | MDBX_RDONLY => 3
    | MDBX_NOMETASYNC => 4 | MDBX_EXCLUSIVE => 5 | MDBX_ACCEDE => 6 | MDBX_WRITEMAP => 7 end).
  refine {| flag_bit := bit; flag_mask f := 2 ^ bit f; MDBX_SYNC_DURABLE := 0 |}.
  - done.
  - by destruct f.
  - by intros [] [].
  - done.
Defined.

(** An environment of a page size, a map size and options; the first size of
    the list of dirty pages and their limit keep up with each other. [touch]
    makes the files. *)
Record ref_env := mk_ref_env { ref_page : Z; ref_map : Z; ref_options : env_option → Z }.
Definition ref_coupled (o o' : env_option) : bool :=
  match o, o' with
  | MDBX_opt_txn_dp_initial, MDBX_opt_txn_dp_limit | MDBX_opt_txn_dp_limit, MDBX_opt_txn_dp_initial => true
  | _, _ => false
  end.
Definition ref_set (options : env_option → Z) (o : env_option) (v : Z) (o' : env_option) : Z :=
  if decide (o' = o) then v else
  match o, o' with
  | MDBX_opt_txn_dp_initial, MDBX_opt_txn_dp_limit => Z.max v (options o')
  | MDBX_opt_txn_dp_limit, MDBX_opt_txn_dp_initial => Z.min v (options o')
  | _, _ => options o'
  end.
Definition ref_mdbx_env {F} (touch : F → list byte → F) : MdbxEnv F ref_env.
Proof.
  refine {| op_mode := unit; op_options := unit; op_durability := unit;
    mode_from_flags _ := tt; options_from_flags _ := tt; durability_from_flags _ := tt;
    env_managed fs dir cp _ _ := Return (mk_ref_env (default 4096 (cp_pagesize cp))
      (default 0 (max_map_size cp)) (λ _, 1024), touch fs dir);
    get_pagesize := ref_page;
    get_option e o := wrap 64 (ref_options e o);
    set_option e o v := Return (mk_ref_env (ref_page e) (ref_map e) (ref_set (ref_options e) o v));
    check_readers e := Return e; coupled := ref_coupled |}.
  - intros e o. by apply Z.mod_pos_bound.
  - intros e o v e' [= <-] Hv. split; [done|]. cbn. split.
    + unfold ref_set. rewrite decide_True by done. by apply Z.mod_small.
    + intros o' Hne Hc. unfold ref_set. rewrite decide_False by done. by destruct o, o'.
  - by intros e e' [= ->].
Defined.

(** A data file of 200 MiB in a directory; opening it makes a lock file. *)
Definition a_fs : ref_fs :=
  [(chars "db/", None); (chars "db/mdbx.dat", Some (lit_MiB 200))].
Definition make_lock (fs : ref_fs) (dir : list byte) : ref_fs := (dir ++ chars "mdbx.lck", Some 8192) :: fs.
Definition a_config (inmemory : bool) : EnvConfig :=
  mk_EnvConfig (chars "db") false false false inmemory false false false
    4096 (lit_TiB 3) (lit_GiB 2) 128 100.
Definition run_open_env :=
  open_env (H := ref_file_system) (H0 := ref_flags) (H1 := ref_mdbx_env make_lock).

Lemma open_env_returned_witness :
  ∃ e, run_open_env (a_config false) a_fs = Return (e, make_lock a_fs (chars "db/")) ∧
    get_pagesize (MdbxEnv := ref_mdbx_env make_lock) e = 4096 ∧
    get_option (MdbxEnv := ref_mdbx_env make_lock) e MDBX_opt_txn_dp_limit = 32768.
Proof.
  eexists (mk_ref_env _ _ _). split; [reflexivity|].
  destruct (open_env_returned (H := ref_file_system) (H0 := ref_flags) (H1 := ref_mdbx_env make_lock)
    (a_config false) a_fs (make_lock a_fs (chars "db/")) (mk_ref_env _ _ _) eq_refl)
    as (dir & fs1 & e0 & e1 & Hd & _ & Ho & Hp & Hs & Hset & _).
  split; [exact Hp|].
  injection Hd as <- <-. injection Ho as <-. injection Hs as <-.
  refine (Hset [_; _; _] _ _ [_] eq_refl _). repeat constructor. discriminate.
Defined.

(** The check of the map size looks at the configured maximum, but a
    configuration for a database in memory caps the map at 128 MiB after it: a
    larger data file is then opened with a map that does not hold it. *)
Lemma inmemory_map_too_small :
  ∃ e, run_open_env (a_config true) a_fs = Return (e, make_lock a_fs (chars "db/")) ∧
    ref_map e < datafile_size (H := ref_file_system) a_fs (chars "db/").
Proof. eexists (mk_ref_env _ _ _). split; [reflexivity|]. vm_compute. reflexivity. Qed.
