(* ===== verification/Txn.v ===== *)
(** * Transactions, maps and pooled cursors

    Models the transactions of [src/zen/node/database/mdbx.hpp], and
    [open_map], [has_map] and the class [Cursor] of [mdbx.cpp] with the pool
    its handles come from. Code that uses the database runs in a monad of the
    transaction and the handles of the thread, in which an exception keeps the
    state it was thrown in. libmdbx's transactions are an interface
    ([MdbxTxn]). *)
From S2P Require Import Prelude Base.
From S2P Require Containers.
From stdpp Require Import gmap.
Local Open Scope nat_scope.

Inductive db_error :=
  | invalid_argument
  | runtime_error
  | length_error
  | mdbx_exception.

Inductive key_mode := key_usual | key_reverse | key_ordinal | key_msgpack.
Inductive value_mode :=
  value_single | value_multi | value_multi_reverse | value_multi_samelength | value_multi_ordinal |
  value_multi_reverse_samelength | value_msgpack.

Record MapConfig := mk_MapConfig { name : list byte; kmode : key_mode; vmode : value_mode }.

Abbreviation table := (gmap (list byte) (list byte)).

(** A handle is the address of a cursor of libmdbx. *)
Definition handle : Type := nat.

(** libmdbx. A transaction: the tables it sees, whether it may write, its
    number, and which maps it has open, under which modes; opening, finding and
    creating a map, and looking up and storing by a cursor on a map. Opening
    may fail for other reasons than a missing map: too many maps, or other
    modes than those of the map; but a map the transaction has open opens
    again. Then the cursors: creating one gives no handle when there is no
    memory for it; [mdbx_cursor_txn] is the number of the transaction a cursor
    is bound to, none when it is not bound or the transaction is over; binding
    may fail, but not where the cursor is bound to the transaction already. *)
Class MdbxTxn (T : Type) := {
  maps : T → gmap (list byte) table;
  is_readonly : T → bool;
  txn_id : T → Z;
  has_open : T → list byte → key_mode → value_mode → Prop;
  txn_open_map : T → list byte → key_mode → value_mode → outcome db_error T;
  txn_create_map : T → list byte → key_mode → value_mode → outcome db_error T;
  main_seek : T → list byte → outcome db_error bool;
  find : T → list byte → list byte → option (list byte);
  upsert : T → list byte → list byte → list byte → outcome db_error T;
  cursors : Type;
  live : cursors → gset handle;
  mdbx_cursor_create : cursors → option handle * cursors;
  mdbx_cursor_close : handle → cursors → cursors;
  mdbx_cursor_txn : handle → cursors → option Z;
  mdbx_cursor_bind : T → option handle → list byte → cursors → outcome db_error unit * cursors;
  open_map_spec t m km vm :
    match txn_open_map t m km vm with
    | Return t' => is_Some (maps t !! m) ∧ maps t' = maps t ∧
        is_readonly t' = is_readonly t ∧ txn_id t' = txn_id t ∧ has_open t' m km vm
    | Throw x => x = mdbx_exception
    | _ => False
    end;
  create_map_spec t m km vm :
    match txn_create_map t m km vm with
    | Return t' =>
        maps t' = (if decide (is_Some (maps t !! m)) then maps t else <[m := ∅]> (maps t)) ∧
        is_readonly t' = is_readonly t ∧ txn_id t' = txn_id t ∧ has_open t' m km vm
    | Throw x => x = mdbx_exception
    | _ => False
    end;
  open_map_again t m km vm : has_open t m km vm → ∃ t', txn_open_map t m km vm = Return t';
  create_map_again t m km vm : has_open t m km vm → ∃ t', txn_create_map t m km vm = Return t';
  main_seek_spec t m b : main_seek t m = Return b → b = bool_decide (is_Some (maps t !! m));
  main_seek_outcome t m : (∃ b, main_seek t m = Return b) ∨ main_seek t m = Throw mdbx_exception;
  find_spec t m k tbl : maps t !! m = Some tbl → find t m k = tbl !! k;
  upsert_spec t m k v tbl :
    maps t !! m = Some tbl →
    match upsert t m k v with
    | Return t' => maps t' = <[m := <[k := v]> tbl]> (maps t) ∧
        is_readonly t' = is_readonly t ∧ txn_id t' = txn_id t ∧
        ∀ m' km vm, has_open t m' km vm → has_open t' m' km vm
    | Throw x => x = mdbx_exception
    | _ => False
    end;
  cursor_create_spec l :
    match mdbx_cursor_create l with
    | (Some c, l') => (c ∉ live l) ∧ live l' = {[c]} ∪ live l
    | (None, l') => live l' = live l
    end;
  cursor_close_spec c l : live (mdbx_cursor_close c l) = live l ∖ {[c]};
  cursor_bind_spec t o m l :
    match mdbx_cursor_bind t o m l with
    | (Return _, l') => ∃ c, o = Some c ∧ mdbx_cursor_txn c l' = Some (txn_id t) ∧
        (c ∈ live l → live l' = live l)
    | (Throw x, l') => x = mdbx_exception ∧ live l' = live l
    | _ => False
    end;
  cursor_bind_again t c m km vm l :
    mdbx_cursor_txn c l = Some (txn_id t) → has_open t m km vm →
    (mdbx_cursor_bind t (Some c) m l).1 = Return tt
}.

(** ** The monad *)

Section monad.
Context `{MdbxTxn T}.

(** The handles of a thread: the pool, and the cursors of the library. *)
Record handles := mk_handles {
  handles_pool_ : Containers.ObjectPool.pool handle;
  cursors_ : cursors
}.

Definition db (A : Type) : Type := T * handles → outcome db_error A * (T * handles).

#[export] Instance db_ret : MRet db := λ A a st, (Return a, st).
#[export] Instance db_bind : MBind db := λ A B f m st,
  match m st with
  | (Return a, st) => f a st
  | (Throw x, st) => (Throw x, st)
  | (Abort, st) => (Abort, st)
  | (Undefined, st) => (Undefined, st)
  end.
Definition throw {A} (x : db_error) : db A := λ st, (Throw x, st).
Definition db_abort {A} : db A := λ st, (Abort, st).
Definition get_txn : db T := λ st, (Return st.1, st).

(** A call of the transaction; it changes it when it returns. *)
Definition call (f : T → outcome db_error T) : db unit := λ '(t, h),
  match f t with
  | Return t => (Return tt, (t, h))
  | Throw x => (Throw x, (t, h))
  | Abort => (Abort, (t, h))
  | Undefined => (Undefined, (t, h))
  end.
End monad.
Arguments db T {H} A : assert.

(** Runs a computation of the monad as far as the calls allow. *)
Ltac run_db :=
  cbv beta iota zeta delta [mbind db_bind mret db_ret get_txn call throw db_abort fst snd].

Section code.
Context `{MdbxTxn T}.

Definition open_map (config : MapConfig) : db T (list byte) :=
  tx ← get_txn;
  if is_readonly tx then
    _ ← call (λ tx, txn_open_map tx (name config) (kmode config) (vmode config)); mret (name config)
  else
    _ ← call (λ tx, txn_create_map tx (name config) (kmode config) (vmode config)); mret (name config).

Definition has_map (tx : T) (map_name : list byte) : outcome db_error bool :=
  match main_seek tx map_name with
  | Throw mdbx_exception => Return false
  | found => found
  end.

(** ** The class Cursor *)

(** The handle, and the map it was last bound to. *)
Record Cursor := mk_Cursor { handle_ : option handle; map_ : list byte }.
Definition null_cursor : Cursor := mk_Cursor None [].

(** [close] and [bind] change the cursor, [bind] whether it throws or not. *)
Definition close (this : Cursor) (h : handles) : Cursor * handles :=
  (mk_Cursor None (map_ this),
   match handle_ this with
   | Some c => mk_handles (handles_pool_ h) (mdbx_cursor_close c (cursors_ h))
   | None => h
   end).

(** A new handle, if the library has one. *)
Definition create_handle (h : handles) : option handle * handles :=
  let '(o, l) := mdbx_cursor_create (cursors_ h) in (o, mk_handles (handles_pool_ h) l).

(** The handle [bind] goes on with: a new one when the cursor's is bound to
    another live transaction. *)
Definition rebind (this : Cursor) (c : handle) (txn : T) (h : handles) : option handle * handles :=
  match mdbx_cursor_txn c (cursors_ h) with
  | Some cm_tx =>
      if negb (txn_id txn =? cm_tx)%Z then
        let '(_, h) := close this h in create_handle h
      else (Some c, h)
  | None => (Some c, h)
  end.

Definition bind (this : Cursor) (config : MapConfig) (st : T * handles) :
    outcome db_error unit * Cursor * (T * handles) :=
  let '(txn, h) := st in
  match handle_ this with
  | None => (Throw runtime_error, this, (txn, h))
  | Some c =>
      let '(o, h) := rebind this c txn h in
      match open_map config (txn, h) with
      | (Return map, (txn, h)) =>
          let '(r, l) := mdbx_cursor_bind txn o map (cursors_ h) in
          (r, mk_Cursor o (match r with Return _ => map | _ => map_ this end),
           (txn, mk_handles (handles_pool_ h) l))
      | (Throw x, st) => (Throw x, mk_Cursor o (map_ this), st)
      | (Abort, st) => (Abort, mk_Cursor o (map_ this), st)
      | (Undefined, st) => (Undefined, mk_Cursor o (map_ this), st)
      end
  end.

(** What the constructor does, with the members of the object as it leaves
    them, and the constructor. When [bind] throws there is no object, and no
    destructor runs. *)
Definition construct (config : MapConfig) (st : T * handles) :
    outcome db_error unit * Cursor * (T * handles) :=
  let '(txn, h) := st in
  let '(handle_, pool) := Containers.ObjectPool.acquire (handles_pool_ h) in
  let h := mk_handles pool (cursors_ h) in
  let '(handle_, h) :=
    match handle_ with
    | Some c => (Some c, h)
    | None => create_handle h
    end in
  bind (mk_Cursor handle_ []) config (txn, h).
Definition new_Cursor (config : MapConfig) : db T Cursor := λ st,
  match construct config st with
  | (Return _, this, st) => (Return this, st)
  | (Throw x, _, st) => (Throw x, st)
  | (Abort, _, st) => (Abort, st)
  | (Undefined, _, st) => (Undefined, st)
  end.

(** The moves swap the handles; the moved-to object of a construction starts
    with none. *)
Definition swap_handles (this other : Cursor) : Cursor * Cursor :=
  (mk_Cursor (handle_ other) (map_ other), mk_Cursor (handle_ this) (map_ this)).
Definition move_Cursor (other : Cursor) : Cursor * Cursor := swap_handles null_cursor other.
Definition move_assign (this other : Cursor) : Cursor * Cursor := swap_handles this other.

Definition destroy_Cursor (this : Cursor) (h : handles) : handles :=
  match handle_ this with
  | Some c => mk_handles (Containers.ObjectPool.add c (handles_pool_ h)) (cursors_ h)
  | None => h
  end.

(** The body of a block that opens with [Cursor c(txn, config);]. *)
Definition with_cursor {A} (config : MapConfig) (body : Cursor → db T A) : db T A := λ st,
  match new_Cursor config st with
  | (Return c, st) =>
      let '(r, (txn, h)) := body c st in (r, (txn, destroy_Cursor c h))
  | (Throw x, st) => (Throw x, st)
  | (Abort, st) => (Abort, st)
  | (Undefined, st) => (Undefined, st)
  end.

Definition cursor_find (c : Cursor) (k : list byte) : db T (option (list byte)) :=
  tx ← get_txn; mret (find tx (map_ c) k).
Definition cursor_upsert (c : Cursor) (k v : list byte) : db T unit :=
  call (λ tx, upsert tx (map_ c) k v).
End code.

(** ** Ownership of the handles *)

Section ownership.
Context `{MdbxTxn T}.

(** A thread: its transaction and handles, and its cursor objects. *)
Record thread := mk_thread { txn : T; hs : handles; objs : list Cursor }.

(** What a thread may do with its cursors, telling the constructions that
    threw with a handle in the object. Between two uses of the cursors the
    transaction may be over and another one begun, and a cursor then bound to
    none. *)
Inductive step (w : thread) : bool → thread → Prop :=
  | step_new config c t h :
      new_Cursor config (txn w, hs w) = (Return c, (t, h)) →
      step w false (mk_thread t h (c :: objs w))
  | step_new_throw config x c t h :
      construct config (txn w, hs w) = (Throw x, c, (t, h)) →
      step w (bool_decide (is_Some (handle_ c))) (mk_thread t h (objs w))
  | step_bind c rest config r c' t h :
      objs w ≡ₚ c :: rest → bind c config (txn w, hs w) = (r, c', (t, h)) →
      step w false (mk_thread t h (c' :: rest))
  | step_close c rest c' h :
      objs w ≡ₚ c :: rest → close c (hs w) = (c', h) →
      step w false (mk_thread (txn w) h (c' :: rest))
  | step_move c rest new old :
      objs w ≡ₚ c :: rest → move_Cursor c = (new, old) →
      step w false (mk_thread (txn w) (hs w) (new :: old :: rest))
  | step_assign c1 c2 rest c1' c2' :
      objs w ≡ₚ c1 :: c2 :: rest → move_assign c1 c2 = (c1', c2') →
      step w false (mk_thread (txn w) (hs w) (c1' :: c2' :: rest))
  | step_destroy c rest :
      objs w ≡ₚ c :: rest →
      step w false (mk_thread (txn w) (destroy_Cursor c (hs w)) rest)
  | step_transaction t l :
      live l = live (cursors_ (hs w)) →
      step w false (mk_thread t (mk_handles (handles_pool_ (hs w)) l) (objs w)).

(** Sequences of steps, with the number of constructions that threw with a
    handle. *)
Inductive steps (w : thread) : nat → thread → Prop :=
  | steps_refl : steps w 0 w
  | steps_snoc n w1 b w2 : steps w n w1 → step w1 b w2 → steps w (if b then S n else n) w2.

(** The handles in the pool and in the objects. *)
Definition owned (w : thread) : list handle := handles_pool_ (hs w) ++ omap handle_ (objs w).

(** The handles [l] are live and distinct, and all live handles but [leaked]
    are among them. *)
Record keeps (leaked : nat) (l : list handle) (h : handles) : Prop := {
  keeps_nodup : NoDup l;
  keeps_live c : c ∈ l → c ∈ live (cursors_ h);
  keeps_count : base.size (live (cursors_ h)) = length l + leaked
}.

Lemma keeps_perm n l l' h : l ≡ₚ l' → keeps n l h → keeps n l' h.
Proof. intros Hl [H1 H2 H3]. split; [by rewrite <-Hl|intros c; rewrite <-Hl; auto|by rewrite <-Hl]. Qed.

(** The pool is in the list, so only the live handles matter. *)
Lemma keeps_same n l h h' : live (cursors_ h') = live (cursors_ h) → keeps n l h → keeps n l h'.
Proof. intros Hd [H1 H2 H3]. split; by rewrite ?Hd. Qed.

Lemma keeps_create n l h o h' :
  create_handle h = (o, h') → keeps n l h →
  keeps n (option_list o ++ l) h' ∧ handles_pool_ h' = handles_pool_ h.
Proof.
  unfold create_handle. pose proof (cursor_create_spec (cursors_ h)) as Hc.
  destruct (mdbx_cursor_create _) as [[c|] l']; intros [= <- <-] Hk; (split; [|done]); cbn.
  - destruct Hc as [Hn Hl], Hk as [H1 H2 H3]. split; cbn; rewrite ?Hl.
    + constructor; [|done]. intros Hin. by apply Hn, H2.
    + intros c'. rewrite elem_of_cons. set_solver.
    + rewrite size_union, size_singleton by set_solver. lia.
  - by eapply keeps_same.
Qed.

Lemma keeps_close n l h c :
  keeps n (c :: l) h → keeps n l (mk_handles (handles_pool_ h) (mdbx_cursor_close c (cursors_ h))).
Proof.
  intros [H1 H2 H3]. apply NoDup_cons in H1 as [Hc H1].
  assert (Hd : c ∈ live (cursors_ h)) by (apply H2; by left).
  split; cbn; rewrite ?cursor_close_spec.
  - done.
  - intros c' Hin. apply elem_of_difference. rewrite elem_of_singleton.
    split; [apply H2; by right|]. by intros ->.
  - rewrite size_difference, size_singleton by set_solver. cbn in H3. lia.
Qed.

Lemma keeps_leak n l h o : keeps n (option_list o ++ l) h → keeps (if o is Some _ then S n else n) l h.
Proof.
  destruct o as [c|]; [|done]. intros [H1 H2 H3]. apply NoDup_cons in H1 as [_ H1].
  split; [done|intros c' ?; apply H2; by right|]. cbn in H3. lia.
Qed.

Lemma open_map_handles config t h r t' h' : open_map config (t, h) = (r, (t', h')) → h' = h.
Proof.
  unfold open_map. run_db. destruct (is_readonly t).
  - destruct (txn_open_map _ _ _ _); by intros [= _ _ ->].
  - destruct (txn_create_map _ _ _ _); by intros [= _ _ ->].
Qed.

Lemma rebind_keeps this k t h o h' n l :
  handle_ this = Some k → rebind this k t h = (o, h') → keeps n (k :: l) h →
  keeps n (option_list o ++ l) h' ∧ handles_pool_ h' = handles_pool_ h.
Proof.
  intros Hk. unfold rebind. destruct (mdbx_cursor_txn k _); [|by intros [= <- ->]].
  destruct (negb _); [|by intros [= <- ->]]. unfold close. rewrite Hk.
  intros Hc Hi. apply keeps_close in Hi. by apply (keeps_create _ _ _ _ _ Hc) in Hi as [? ->].
Qed.

(** [bind] exchanges at most the handle of the cursor. *)
Lemma bind_keeps c config t h r c' t' h' n l :
  bind c config (t, h) = (r, c', (t', h')) → keeps n (option_list (handle_ c) ++ l) h →
  keeps n (option_list (handle_ c') ++ l) h' ∧ handles_pool_ h' = handles_pool_ h ∧
  (r = Return tt → is_Some (handle_ c')).
Proof.
  unfold bind. destruct (handle_ c) as [k|] eqn:Hk; [|intros [= <- <- _ <-]; by rewrite Hk].
  destruct (rebind c k t h) as [o h1] eqn:Hr. cbn [option_list app]. intros Hb Hi.
  destruct (rebind_keeps _ _ _ _ _ _ _ _ Hk Hr Hi) as [Hi1 Hp].
  destruct (open_map config (t, h1)) as [[m|x| |] [t2 h2]] eqn:Ho;
    apply open_map_handles in Ho as ->; [|by injection Hb as <- <- _ <-..].
  pose proof (cursor_bind_spec t2 o m (cursors_ h1)) as Hs.
  destruct (mdbx_cursor_bind _ _ _ _) as [[u|x| |] l']; try done; injection Hb as <- <- _ <-; cbn.
  - destruct Hs as (k' & -> & _ & Hl). split; [|split; [done|by eexists]].
    eapply keeps_same; [|exact Hi1]. apply Hl, (keeps_live _ _ _ Hi1). by left.
  - destruct Hs as [_ Hl]. split; [by eapply keeps_same|]. by split.
Qed.

Lemma construct_keeps config t h r c t' h' n l :
  construct config (t, h) = (r, c, (t', h')) → keeps n (handles_pool_ h ++ l) h →
  keeps n (option_list (handle_ c) ++ handles_pool_ h' ++ l) h' ∧ (r = Return tt → is_Some (handle_ c)).
Proof.
  unfold construct. destruct (Containers.ObjectPool.acquire _) as [o pool] eqn:Ha.
  set (h1 := mk_handles pool _). intros Hn Hi.
  assert (∃ o2 h2, match o with Some c => (Some c, h1) | None => create_handle h1 end = (o2, h2) ∧
    keeps n (option_list o2 ++ handles_pool_ h2 ++ l) h2) as (o2 & h2 & E & Hi2).
  { destruct (handles_pool_ h) as [|k p] eqn:Hp; injection Ha as <- <-.
    - destruct (create_handle h1) as [o2 h2] eqn:E. exists o2, h2. split; [done|].
      destruct (keeps_create n l h1 o2 h2 E) as [Hk ->]; [by eapply keeps_same; [..|exact Hi]|done].
    - eexists _, _. split; [done|]. by eapply keeps_same; [..|exact Hi]. }
  rewrite E in Hn.
  destruct (bind_keeps _ _ _ _ _ _ _ _ n (handles_pool_ h2 ++ l) Hn Hi2) as (Hi3 & -> & Hs). done.
Qed.

Lemma owned_objs pool os c rest :
  os ≡ₚ c :: rest → pool ++ omap handle_ os ≡ₚ option_list (handle_ c) ++ pool ++ omap handle_ rest.
Proof.
  intros ->. cbn. destruct (handle_ c) as [k|]; [|done]. cbn. by rewrite Permutation_middle.
Qed.
Lemma omap_swap (c1 c2 : Cursor) rest :
  omap handle_ ((swap_handles c1 c2).1 :: (swap_handles c1 c2).2 :: rest) ≡ₚ
  omap handle_ (c1 :: c2 :: rest).
Proof. cbn. destruct (handle_ c1), (handle_ c2); try done. constructor. Qed.

Lemma step_keeps b n w w' :
  step w b w' → keeps n (owned w) (hs w) → keeps (if b then S n else n) (owned w') (hs w').
Proof.
  unfold owned. intros Hs Hi.
  destruct Hs as [config c t h Hn|config x c t h Hn|c rest config r c' t h Ho Hb|c rest c' h Ho Hc|
    c rest new old Ho Hm|c1 c2 rest c1' c2' Ho Hm|c rest Ho|t l Hl]; cbn [hs objs] in *.
  - unfold new_Cursor in Hn. destruct (construct _ _) as [[[u|x| |] c'] [t' h']] eqn:Hc; try done.
    injection Hn as -> -> ->. apply (construct_keeps _ _ _ _ _ _ _ _ _ Hc) in Hi as [Hi _].
    eapply keeps_perm; [symmetry; by apply (owned_objs _ (c :: objs w))|done].
  - apply (construct_keeps _ _ _ _ _ _ _ _ _ Hn) in Hi as [Hi%keeps_leak _].
    destruct (handle_ c); [by rewrite bool_decide_true by by eexists|].
    by rewrite bool_decide_false by by intros [].
  - apply (keeps_perm _ _ _ _ (owned_objs _ _ _ _ Ho)) in Hi.
    destruct (bind_keeps _ _ _ _ _ _ _ _ _ _ Hb Hi) as (Hi' & Hp & _).
    rewrite <-Hp in Hi'. eapply keeps_perm; [symmetry; by apply owned_objs|exact Hi'].
  - apply (keeps_perm _ _ _ _ (owned_objs _ _ _ _ Ho)) in Hi. injection Hc as <- <-. cbn.
    destruct (handle_ c) as [k|]; [by apply keeps_close in Hi|done].
  - injection Hm as <- <-. eapply keeps_perm; [|done].
    rewrite Ho, (omap_swap null_cursor c rest). done.
  - injection Hm as <- <-. eapply keeps_perm; [|done]. by rewrite Ho, (omap_swap c1 c2 rest).
  - apply (keeps_perm _ _ _ _ (owned_objs _ _ _ _ Ho)) in Hi. unfold destroy_Cursor.
    destruct (handle_ c) as [k|]; [|done]. by eapply keeps_same; [..|exact Hi].
  - by eapply keeps_same; [..|exact Hi].
Qed.

(** C22: Whatever a thread does with its cursors, no handle is in two places:
    those in the pool and those of the cursor objects are distinct and live,
    so none is used after it was closed and none is closed twice. The live
    handles are exactly these and one more for each construction of a cursor
    that threw when the object had a handle: that handle is in no place any
    more. (A construction that throws because the library had no handle to
    give loses none.) *)
Theorem cursor_handles_owned (n : nat) (w : thread) (t : T) (l : cursors) :
  live l = ∅ → steps (mk_thread t (mk_handles [] l) []) n w →
  NoDup (owned w) ∧ list_to_set (owned w) ⊆ live (cursors_ (hs w)) ∧
  base.size (live (cursors_ (hs w)) ∖ list_to_set (owned w)) = n.
Proof.
  intros Hl Hs. assert (Hk : keeps n (owned w) (hs w)).
  { induction Hs as [|n w1 b w2 _ IH Hst]; [|by eapply step_keeps].
    split; cbn; [constructor|intros c Hc; by apply not_elem_of_nil in Hc|].
    by rewrite Hl, size_empty. }
  assert (Hsub : list_to_set (owned w) ⊆ live (cursors_ (hs w))).
  { intros c Hc%elem_of_list_to_set. by apply (keeps_live _ _ _ Hk). }
  split; [apply Hk|]. split; [done|]. rewrite size_difference by done.
  rewrite size_list_to_set by apply Hk. rewrite (keeps_count _ _ _ Hk). lia.
Qed.
End ownership.

(** ** What a block with a cursor does *)

(** The tables once a map is opened for writing, and a value in them. *)
Definition with_table (m : gmap (list byte) table) (n : list byte) : gmap (list byte) table :=
  if decide (is_Some (m !! n)) then m else <[n := ∅]> m.
Definition entry (m : gmap (list byte) table) (n k : list byte) : option (list byte) :=
  m !! n ≫= (.!! k).

Lemma with_table_entry m n n' k : entry (with_table m n) n' k = entry m n' k.
Proof.
  unfold with_table, entry. destruct (decide _) as [|Hn]; [done|].
  destruct (decide (n' = n)) as [->|]; [|by rewrite lookup_insert_ne].
  rewrite lookup_insert_eq. apply eq_None_not_Some in Hn. by rewrite Hn.
Qed.

Lemma insert_entry m n tbl k v n' k' :
  m !! n = Some tbl →
  entry (<[n := <[k := v]> tbl]> m) n' k' = if decide (n' = n ∧ k' = k) then Some v else entry m n' k'.
Proof.
  intros Hn. unfold entry. destruct (decide (n' = n)) as [->|Hne].
  - rewrite lookup_insert_eq, Hn. cbn [mbind option_bind]. destruct (decide (k' = k)) as [->|].
    + by rewrite lookup_insert_eq, decide_True.
    + rewrite lookup_insert_ne, decide_False by (done || by intros []). done.
  - rewrite lookup_insert_ne, decide_False by (done || by intros []). done.
Qed.

Section blocks.
Context `{MdbxTxn T}.

(** The transaction [t'] sees what [t] does, and maybe one more empty table. *)
Definition grown (t t' : T) : Prop :=
  (∀ n k, entry (maps t') n k = entry (maps t) n k) ∧
  (∀ n, is_Some (maps t !! n) → is_Some (maps t' !! n)) ∧
  is_readonly t' = is_readonly t.

(** The map of a cursor that was opened on it, and the transaction since. *)
Definition opened (config : MapConfig) (t t' : T) : Prop :=
  is_Some (maps t' !! name config) ∧ grown t t'.

Definition open_in (config : MapConfig) (t : T) : Prop := has_open t (name config) (kmode config) (vmode config).

(** Why a cursor is not there: the library does not open the map, or does not
    bind a cursor to it, or has no cursor to give. *)
Definition opening (config : MapConfig) (t : T) : outcome db_error T :=
  if is_readonly t then txn_open_map t (name config) (kmode config) (vmode config)
  else txn_create_map t (name config) (kmode config) (vmode config).
Definition refuses (config : MapConfig) (t : T) : Prop :=
  opening config t = Throw mdbx_exception ∨
  ∃ t' c l, opening config t = Return t' ∧ (mdbx_cursor_bind t' (Some c) (name config) l).1 ≠ Return tt.
Definition out_of_memory : Prop := ∃ l, (mdbx_cursor_create l).1 = None.

Lemma open_map_opening config t h :
  open_map config (t, h) =
  match opening config t with
  | Return t' => (Return (name config), (t', h))
  | Throw x => (Throw x, (t, h))
  | Abort => (Abort, (t, h))
  | Undefined => (Undefined, (t, h))
  end.
Proof.
  unfold open_map, opening. run_db. destruct (is_readonly t).
  - by destruct (txn_open_map _ _ _ _).
  - by destruct (txn_create_map _ _ _ _).
Qed.

Lemma opening_outcome config t :
  match opening config t with
  | Return t' => opened config t t' ∧ open_in config t' ∧ txn_id t' = txn_id t
  | Throw x => x = mdbx_exception
  | _ => False
  end.
Proof.
  unfold opening, opened, grown. destruct (is_readonly t) eqn:Hro.
  - pose proof (open_map_spec t (name config) (kmode config) (vmode config)) as Ho.
    destruct (txn_open_map _ _ _ _) as [t1| | |]; try done.
    destruct Ho as (Hs & Hm & Hr & Hi & Ho). by rewrite Hm, Hr.
  - pose proof (create_map_spec t (name config) (kmode config) (vmode config)) as Hc.
    destruct (txn_create_map _ _ _ _) as [t1| | |]; try done.
    destruct Hc as (Hm & Hr & Hi & Ho). fold (with_table (maps t) (name config)) in Hm.
    rewrite Hm, Hr. split; [|done]. split; [|split; [|split; [|done]]].
    + unfold with_table. destruct (decide _); [done|by rewrite lookup_insert_eq].
    + intros n k. apply with_table_entry.
    + intros n Hn. unfold with_table. destruct (decide _); [done|].
      destruct (decide (n = name config)) as [->|]; [done|by rewrite lookup_insert_ne].
Qed.

Lemma opening_again config t : open_in config t → ∃ t', opening config t = Return t'.
Proof. intros Ho. unfold opening. destruct (is_readonly t); [by apply open_map_again|by apply create_map_again]. Qed.

Lemma open_map_outcome config t h r t' h' :
  open_map config (t, h) = (r, (t', h')) →
  match r with
  | Return m => m = name config ∧ opened config t t'
  | Throw x => x = mdbx_exception ∧ t' = t
  | _ => False
  end.
Proof.
  rewrite open_map_opening. pose proof (opening_outcome config t) as Ho.
  destruct (opening config t) as [t1|x| |]; [|subst x|done..]; intros [= <- <- <-]; [|done].
  split; [done|]. apply Ho.
Qed.

(** A cursor that is bound to the transaction, with its map open; and a state
    in which the next cursor on the map is such a one, because the pool gives
    it a handle that is bound already. *)
Definition bound (config : MapConfig) (c : Cursor) (st : T * handles) : Prop :=
  open_in config st.1 ∧
  ∃ k, handle_ c = Some k ∧ mdbx_cursor_txn k (cursors_ st.2) = Some (txn_id st.1).
Definition ready (config : MapConfig) (st : T * handles) : Prop :=
  open_in config st.1 ∧
  ∃ k pool, handles_pool_ st.2 = k :: pool ∧ mdbx_cursor_txn k (cursors_ st.2) = Some (txn_id st.1).

Lemma destroy_ready config c t h : bound config c (t, h) → ready config (t, destroy_Cursor c h).
Proof.
  intros [Ho (k & Hk & Ht)]. split; [done|]. unfold destroy_Cursor. cbn. rewrite Hk. by eexists k, _.
Qed.

Lemma new_Cursor_ready config st : ready config st → ∃ c st', new_Cursor config st = (Return c, st').
Proof.
  destruct st as [t h]. intros [Ho (k & pool & Hp & Ht)]. cbn [fst snd] in *.
  unfold new_Cursor, construct. rewrite Hp. cbn [Containers.ObjectPool.acquire].
  unfold bind. cbn [handle_]. unfold rebind. cbn [cursors_]. rewrite Ht, Z.eqb_refl. cbn [negb].
  rewrite open_map_opening. destruct (opening_again config t Ho) as [t' E].
  pose proof (opening_outcome config t) as Hop. rewrite E in *. destruct Hop as (_ & Ho' & Hid).
  rewrite <-Hid in Ht. pose proof (cursor_bind_again t' k _ _ _ (cursors_ h) Ht Ho') as Hb. cbn [cursors_].
  destruct (mdbx_cursor_bind _ _ _ _) as [r l]. cbn in Hb. subst r. by eexists _, _.
Qed.

Lemma new_Cursor_outcome config t h r t' h' :
  new_Cursor config (t, h) = (r, (t', h')) →
  match r with
  | Return c => map_ c = name config ∧ opened config t t' ∧ bound config c (t', h')
  | Throw x => grown t t' ∧ (x = mdbx_exception ∧ (refuses config t ∨ out_of_memory) ∨
                             x = runtime_error ∧ out_of_memory)
  | _ => False
  end.
Proof.
  unfold new_Cursor, construct, bind. destruct (Containers.ObjectPool.acquire _) as [o pool].
  set (h0 := mk_handles pool _).
  assert (Hcreate : ∀ h1 o1 h2, create_handle h1 = (o1, h2) → o1 = None → out_of_memory).
  { unfold create_handle. intros h1 o1 h2 E ->. exists (cursors_ h1).
    by destruct (mdbx_cursor_create _); injection E as -> _. }
  assert (∃ o1 h1, match o with Some c => (Some c, h0) | None => create_handle h0 end = (o1, h1) ∧
    (o1 = None → out_of_memory)) as (o1 & h1 & E & Hmem1).
  { destruct o; [by eexists _, _|]. destruct (create_handle h0) as [o1 h1] eqn:E. eauto. }
  rewrite E. cbn [handle_]. destruct o1 as [k|].
  2: { intros [= <- <- <-]. split; [by split_and!|]. right. auto. }
  assert (∃ o2 h2, rebind (mk_Cursor (Some k) []) k t h1 = (o2, h2) ∧ (o2 = None → out_of_memory))
    as (o2 & h2 & E2 & Hmem2).
  { clear E. unfold rebind, close. cbn [handle_]. destruct (mdbx_cursor_txn _ _); [|by eexists _, _].
    destruct (negb _); [|by eexists _, _].
    destruct (create_handle (mk_handles _ (mdbx_cursor_close _ _))) as [o2 h2] eqn:E2. eauto. }
  rewrite E2, open_map_opening. pose proof (opening_outcome config t) as Hop.
  destruct (opening config t) as [t1|x| |] eqn:Eo; [|subst x|done..].
  2: { intros [= <- <- <-]. split; [by split_and!|]. left. split; [done|]. by do 2 left. }
  destruct Hop as (Hop & Ho & Hid). pose proof (cursor_bind_spec t1 o2 (name config) (cursors_ h2)) as Hb.
  destruct (mdbx_cursor_bind _ _ _ _) as [[u|x| |] l'] eqn:Eb; [|destruct Hb as [-> _]|done..];
    intros [= <- <- <-].
  - destruct Hb as (k' & -> & Hk' & _). split; [done|]. split; [done|]. split; [done|]. by exists k'.
  - split; [apply Hop|]. left. split; [done|]. destruct o2 as [k'|]; [left; right|auto].
    exists t1, k', (cursors_ h2). by rewrite Eb.
Qed.

(** Either the body runs on a bound cursor on the map and an opened
    transaction, or there is none, for one of the reasons above. *)
Lemma with_cursor_run {A} config (body : Cursor → db T A) t h :
  (∃ c t' h1 r t2 h2, map_ c = name config ∧ opened config t t' ∧ bound config c (t', h1) ∧
    body c (t', h1) = (r, (t2, h2)) ∧ with_cursor config body (t, h) = (r, (t2, destroy_Cursor c h2))) ∨
  (¬ ready config (t, h) ∧ (refuses config t ∨ out_of_memory) ∧ ∃ x t' h', grown t t' ∧
    (x = mdbx_exception ∨ x = runtime_error ∧ out_of_memory) ∧
    with_cursor config body (t, h) = (Throw x, (t', h'))).
Proof.
  unfold with_cursor. destruct (new_Cursor config (t, h)) as [[c|x| |] [t' h1]] eqn:Hn;
    pose proof (new_Cursor_outcome _ _ _ _ _ _ Hn) as Ho; [|..|done|done].
  - destruct Ho as (Hm & Ho & Hb). left. destruct (body c (t', h1)) as [r [t2 h2]] eqn:Hr.
    by exists c, t', h1, r, t2, h2.
  - right. destruct Ho as [Hg Hx]. split; [|split].
    + intros Hr. apply new_Cursor_ready in Hr as (c & st' & E). by rewrite E in Hn.
    + tauto.
    + exists x, t', h1. split; [done|]. split; [tauto|done].
Qed.

Lemma cursor_find_run config c k t t' h :
  map_ c = name config → opened config t t' →
  cursor_find c k (t', h) = (Return (entry (maps t) (name config) k), (t', h)).
Proof.
  intros Hm ([tbl Ht] & He & _). unfold cursor_find. run_db.
  rewrite Hm, (find_spec _ _ _ _ Ht), <-He. unfold entry. by rewrite Ht.
Qed.

Lemma cursor_upsert_run config c k v t t' h :
  map_ c = name config → opened config t t' → bound config c (t', h) →
  ∃ r t2, cursor_upsert c k v (t', h) = (r, (t2, h)) ∧
  match r with
  | Return _ => is_Some (maps t2 !! name config) ∧
      (∀ n k', entry (maps t2) n k' =
        if decide (n = name config ∧ k' = k) then Some v else entry (maps t) n k') ∧
      is_readonly t2 = is_readonly t ∧ bound config c (t2, h)
  | Throw x => x = mdbx_exception ∧ t2 = t'
  | _ => False
  end.
Proof.
  intros Hm ([tbl Ht] & He & _ & Hr) [Ho Hb]. unfold cursor_upsert. run_db. rewrite Hm.
  pose proof (upsert_spec t' (name config) k v tbl Ht) as Hu.
  destruct (upsert _ _ _ _) as [t2|x| |]; try done.
  - destruct Hu as (Hm2 & Hr2 & Hi2 & Ho2). eexists _, t2. split; [done|]. rewrite Hm2, Hr2.
    split; [by rewrite lookup_insert_eq|]. split; [|split; [done|]].
    + intros n k'. by rewrite (insert_entry _ _ _ _ _ _ _ Ht), He.
    + split; [by apply Ho2|]. cbn [fst snd] in *. by rewrite Hi2.
  - by eexists _, t'.
Qed.
End blocks.

(** ** Transactions that commit, or leave it to their owner *)

(** An environment: what it holds committed, the transactions it starts, and
    the commit of one. *)
Class MdbxEnvTxn (E T : Type) `{MdbxTxn T} := {
  committed : E → gmap (list byte) table;
  start_read : E → outcome db_error T;
  start_write : E → outcome db_error T;
  txn_commit : E → T → outcome db_error E;
  start_read_spec e t : start_read e = Return t → maps t = committed e ∧ is_readonly t = true;
  start_write_spec e t : start_write e = Return t → maps t = committed e ∧ is_readonly t = false;
  txn_commit_spec e t e' : txn_commit e t = Return e' → is_readonly t = false → committed e' = maps t
}.

Section transactions.
Context `{MdbxEnvTxn E T}.

(** A pointer to a transaction of someone else, in the store [ext] of these,
    or a transaction of its own. *)
Record RWTxn := mk_RWTxn { external_txn_ : option nat; managed_txn_ : option T }.

Definition new_ROTxn (env : E) : outcome db_error RWTxn :=
  t ← start_read env; Return (mk_RWTxn None (Some t)).
Definition new_RWTxn (env : E) : outcome db_error RWTxn :=
  t ← start_write env; Return (mk_RWTxn None (Some t)).
Definition wrap_txn (external_txn : nat) : RWTxn := mk_RWTxn (Some external_txn) None.
(** The moved-from object keeps the pointer. *)
Definition move_RWTxn (source : RWTxn) : RWTxn * RWTxn :=
  (mk_RWTxn (external_txn_ source) (managed_txn_ source), mk_RWTxn (external_txn_ source) None).
Definition deref (this : RWTxn) (ext : gmap nat T) : option T :=
  match external_txn_ this with Some p => ext !! p | None => managed_txn_ this end.
Definition abort_txn (this : RWTxn) : RWTxn :=
  match external_txn_ this with Some _ => this | None => mk_RWTxn None None end.

Definition commit (this : RWTxn) (renew : bool) (env : E) : outcome db_error (RWTxn * E) :=
  match external_txn_ this with
  | None =>
      match managed_txn_ this with
      | None => Undefined
      | Some t =>
          env ← txn_commit env t;
          if renew then t ← start_write env; Return (mk_RWTxn None (Some t), env)
          else Return (mk_RWTxn None None, env)
      end
  | Some _ => Return (this, env)
  end.

(** Committing a transaction of one's own makes exactly what it held the
    committed data, and a renewed one goes on from there; without renewal it
    is over. Committing one of someone else does nothing, so that its owner
    still decides, and aborting it neither. *)
Theorem commit_persists (this this' : RWTxn) (renew : bool) (env env' : E) (ext : gmap nat T) (t : T) :
  deref this ext = Some t → is_readonly t = false → commit this renew env = Return (this', env') →
  match external_txn_ this with
  | Some _ => this' = this ∧ env' = env ∧ abort_txn this = this
  | None => committed env' = maps t ∧
      match deref this' ext with
      | Some t' => renew = true ∧ maps t' = maps t ∧ is_readonly t' = false
      | None => renew = false
      end
  end.
Proof.
  unfold deref, commit, abort_txn. destruct (external_txn_ this) as [p|] eqn:He.
  { by intros _ _ [= <- <-]. }
  intros -> Hw (env1 & Hc%txn_commit_spec & Hr)%bind_Return; [|done].
  destruct renew; [|by injection Hr as <- <-].
  apply bind_Return in Hr as (t1 & [Hm1 Hr1]%start_write_spec & [= <- <-]). cbn.
  split; [done|]. split; [done|]. split; [congruence|done].
Qed.
End transactions.

(** ** Instances *)

(** A transaction that writes to memory and always succeeds. *)
Record ref_txn := mk_ref_txn { ref_maps : gmap (list byte) table; ref_ro : bool; ref_id : Z }.
Definition ref_with (t : ref_txn) (m : gmap (list byte) table) : ref_txn :=
  mk_ref_txn m (ref_ro t) (ref_id t).
(** Its cursors, each with the number of the transaction it is bound to, if
    any; there is memory for all of them. *)
Abbreviation ref_cursors := (gmap handle (option Z)).
Definition ref_fresh (l : ref_cursors) : handle := S (max_list (map_to_list l).*1).

Lemma ref_fresh_new l : ref_fresh l ∉ dom l.
Proof.
  intros [v Hv]%elem_of_dom. apply elem_of_map_to_list, (list_elem_of_fmap_2 fst) in Hv. cbn in Hv.
  pose proof (max_list_elem_of_le _ _ Hv) as Hle. unfold ref_fresh in Hle at 1. change handle with nat in Hle. by apply Nat.nle_succ_diag_l in Hle.
Qed.

Definition ref_mdbx_txn : MdbxTxn ref_txn.
Proof.
  refine {| maps := ref_maps; is_readonly := ref_ro; txn_id := ref_id;
    has_open t m _ _ := is_Some (ref_maps t !! m);
    txn_open_map t m _ _ := if decide (is_Some (ref_maps t !! m)) then Return t else Throw mdbx_exception;
    txn_create_map t m _ _ := Return (if decide (is_Some (ref_maps t !! m)) then t
                                      else ref_with t (<[m := ∅]> (ref_maps t)));
    main_seek t m := Return (bool_decide (is_Some (ref_maps t !! m)));
    find t m k := ref_maps t !! m ≫= (.!! k);
    upsert t m k v := Return (ref_with t (alter (<[k := v]>) m (ref_maps t)));
    cursors := ref_cursors; live := dom;
    mdbx_cursor_create l := (Some (ref_fresh l), <[ref_fresh l := None]> l);
    mdbx_cursor_close c l := delete c l;
    mdbx_cursor_txn c l := l !! c ≫= id;
    mdbx_cursor_bind t o _ l :=
      match o with
      | Some c => (Return tt, <[c := Some (ref_id t)]> l)
      | None => (Throw mdbx_exception, l)
      end |}.
  - intros t m _ _. by destruct (decide _).
  - intros t m _ _. cbn. destruct (decide _); [done|]. cbn. by rewrite lookup_insert_eq.
  - intros t m _ _ Ho. rewrite decide_True by done. by eexists.
  - intros t m _ _ _. by eexists.
  - by intros t m b [= <-].
  - intros t m. left. by eexists.
  - by intros t m k tbl ->.
  - intros t m k v tbl Ht. cbn. split; [|split; [done|split; [done|]]].
    + apply map_eq. intros m'. destruct (decide (m' = m)) as [->|Hne];
        [by rewrite lookup_alter_eq, lookup_insert_eq, Ht|by rewrite lookup_alter_ne, lookup_insert_ne].
    + intros m' _ _. by rewrite lookup_alter_is_Some.
  - intros l. split; [apply ref_fresh_new|apply dom_insert_L].
  - intros c l. apply dom_delete_L.
  - intros t [c|] m l; [|done]. exists c. split; [done|]. rewrite lookup_insert_eq. split; [done|].
    intros Hc. rewrite dom_insert_L. set_solver.
  - done.
Defined.
Definition ref_mdbx_env_txn : MdbxEnvTxn (gmap (list byte) table) ref_txn (H := ref_mdbx_txn).
Proof.
  refine {| committed e := e; start_read e := Return (mk_ref_txn e true 1);
    start_write e := Return (mk_ref_txn e false 1); txn_commit _ t := Return (ref_maps t) |}.
  - by intros e t [= <-].
  - by intros e t [= <-].
  - by intros e t e' [= <-].
Defined.

Lemma commit_persists_witness :
  let t := mk_ref_txn {[chars "Config" := ∅]} false 1 in
  commit (H0 := ref_mdbx_env_txn) (mk_RWTxn None (Some t)) true ∅ =
    Return (mk_RWTxn None (Some t), {[chars "Config" := ∅]}) ∧
  committed (MdbxEnvTxn := ref_mdbx_env_txn) {[chars "Config" := ∅]} = ref_maps t.
Proof.
  intros t. split; [reflexivity|].
  exact (proj1 (commit_persists (H0 := ref_mdbx_env_txn) (mk_RWTxn None (Some t)) (mk_RWTxn None (Some t))
    true ∅ {[chars "Config" := ∅]} ∅ t eq_refl eq_refl eq_refl)).
Defined.

(** A cursor on a missing map of a read-only transaction throws and leaves a
    live handle in no place. *)
Definition a_read_only : ref_txn := mk_ref_txn ∅ true 1.
Definition after_throw : thread (H := ref_mdbx_txn) :=
  mk_thread (H := ref_mdbx_txn) a_read_only (mk_handles (H := ref_mdbx_txn) [] {[1 := None]}) [].

Lemma cursor_handles_owned_witness :
  let start := mk_thread (H := ref_mdbx_txn) a_read_only (mk_handles (H := ref_mdbx_txn) [] ∅) [] in
  steps (H := ref_mdbx_txn) start 1 after_throw ∧
  base.size (live (MdbxTxn := ref_mdbx_txn) (cursors_ (hs after_throw)) ∖ list_to_set (owned after_throw)) = 1.
Proof.
  intros start. assert (Hs : steps (H := ref_mdbx_txn) start 1 after_throw).
  { apply (steps_snoc (H := ref_mdbx_txn) _ 0 start true).
    - apply steps_refl.
    - exact (step_new_throw (H := ref_mdbx_txn) start
        (mk_MapConfig (chars "Config") key_usual value_single) mdbx_exception (mk_Cursor (Some 1) [])
        a_read_only (hs after_throw) eq_refl). }
  split; [exact Hs|].
  exact (proj2 (proj2 (cursor_handles_owned (H := ref_mdbx_txn) 1 after_throw a_read_only ∅ eq_refl Hs))).
Defined.
