(* ===== verification/MapInfo.v ===== *)
(** * Looking at maps by cursor

    Models the queries of the class [Cursor] and [open_cursor] of
    [src/zen/node/database/mdbx.cpp], and [ROAccess] and [RWAccess] of
    [mdbx.hpp]. What libmdbx tells about a map is an interface ([MdbxMaps]). *)
From S2P Require Import Prelude Base Txn.
From S2P Require Env.
From stdpp Require Import gmap.
Local Open Scope Z_scope.

(** The number of records of a map, its flags and the page size of its
    environment; the cursors libmdbx manages, of type [C]; and the exception
    that stands for [EINVAL]. *)
Class MdbxMaps (T C : Type) `{MdbxTxn T} := {
  ms_entries : T → list byte → outcome db_error Z;
  handle_flags : T → list byte → outcome db_error Z;
  get_pagesize : T → Z;
  txn_open_cursor : T → list byte → outcome db_error C;
  managed_map : C → list byte;
  MDBX_DUPSORT : Z;
  einval : db_error;
  ms_entries_spec t m tbl :
    maps t !! m = Some tbl → ms_entries t m = Return (Z.of_nat (base.size tbl));
  open_cursor_map t m c : txn_open_cursor t m = Return c → managed_map c = m;
  open_cursor_outcome t m :
    (∃ c, txn_open_cursor t m = Return c) ∨ txn_open_cursor t m = Throw mdbx_exception
}.

(** A query of the transaction, which it does not change. *)
Definition ask `{MdbxTxn T} {A} (f : T → outcome db_error A) : db T A := λ st, (f st.1, st).

Section code.
Context `{maps_info : MdbxMaps T C}.

Definition open_cursor (config : MapConfig) : db T C :=
  map ← open_map config; ask (λ tx, txn_open_cursor tx map).

Definition max_value_size_for_leaf_page (txn : T) (key_size : Z) : Z :=
  let page_size := get_pagesize txn in Env.max_value_size_for_leaf_page page_size key_size.

(** [get_map_stat] is used for its count of records only. *)
Definition get_map_stat (this : Cursor) : db T Z :=
  match handle_ this with
  | None => throw einval
  | Some _ => ask (λ tx, ms_entries tx (map_ this))
  end.
Definition get_map_flags (this : Cursor) : db T Z :=
  match handle_ this with
  | None => throw einval
  | Some _ => ask (λ tx, handle_flags tx (map_ this))
  end.
Definition is_multi_value (this : Cursor) : db T bool :=
  flags ← get_map_flags this; mret (negb (Z.land flags MDBX_DUPSORT =? 0)).
Definition size (this : Cursor) : db T Z := get_map_stat this.
Definition empty_ (this : Cursor) : db T bool := n ← size this; mret (n =? 0).
End code.

(** ** Access to an environment *)

Section access.
Context `{MdbxEnvTxn E T}.

(** A reference to the environment. *)
Record ROAccess := mk_ROAccess { env_ : E }.
Record RWAccess := mk_RWAccess { rw_base : ROAccess }.
Definition start_ro_tx (this : ROAccess) : outcome db_error RWTxn := new_ROTxn (env_ this).
Definition start_rw_tx (this : RWAccess) : outcome db_error RWTxn := new_RWTxn (env_ (rw_base this)).

(** Read access never gives a transaction that may write. *)
Lemma access_mode (this : ROAccess) (rw : RWAccess) (x : RWTxn) (t : T) (ext : gmap nat T) :
  deref x ext = Some t →
  (start_ro_tx this = Return x → is_readonly t = true ∧ maps t = committed (env_ this)) ∧
  (start_rw_tx rw = Return x → is_readonly t = false ∧ maps t = committed (env_ (rw_base rw))).
Proof.
  intros Hx. split; intros (t' & Ht & [= <-])%bind_Return; injection Hx as ->.
  - apply start_read_spec in Ht as [? ?]. done.
  - apply start_write_spec in Ht as [? ?]. done.
Qed.
End access.

(** ** What the queries answer *)

Section queries.
Context `{maps_info : MdbxMaps T C}.

(** The records of the map of a cursor, none where it does not exist. *)
Definition records (t : T) (config : MapConfig) : gmap (list byte) (list byte) :=
  default ∅ (maps t !! name config).

Lemma records_lookup t config k : records t config !! k = entry (maps t) (name config) k.
Proof. unfold records, entry. by destruct (maps t !! name config). Qed.

(** A cursor in use: it has a handle, and the map it is on exists. *)
Definition usable (config : MapConfig) (c : Cursor) (t : T) : Prop :=
  is_Some (handle_ c) ∧ map_ c = name config ∧ is_Some (maps t !! name config).

Lemma size_run config c t h :
  usable config c t → size c (t, h) = (Return (Z.of_nat (base.size (records t config))), (t, h)).
Proof.
  intros ([k Hk] & Hm & [tbl Ht]). unfold size, get_map_stat, ask, records. cbn [fst].
  by rewrite Hk, Hm, (ms_entries_spec _ _ _ Ht), Ht.
Qed.

Lemma empty_run config c t h :
  usable config c t → empty_ c (t, h) = (Return (bool_decide (records t config = ∅)), (t, h)).
Proof.
  intros Hu. unfold empty_. run_db. rewrite (size_run config) by done. do 2 f_equal.
  case_bool_decide as E; [by rewrite E, map_size_empty|].
  apply map_size_non_empty_iff in E. lia.
Qed.

(** [upsert] by the cursor keeps it usable and changes the one record. *)
Lemma upsert_records config c k v t h t' :
  usable config c t → cursor_upsert c k v (t, h) = (Return tt, (t', h)) →
  usable config c t' ∧ records t' config = <[k := v]> (records t config).
Proof.
  intros ([x Hx] & Hm & [tbl Ht]). unfold cursor_upsert. run_db. rewrite Hm.
  pose proof (upsert_spec t (name config) k v tbl Ht) as Hu.
  destruct (upsert _ _ _ _) as [t2|?| |]; try done. intros [= <-]. destruct Hu as [Hm2 _].
  assert (E : maps t2 !! name config = Some (<[k := v]> tbl)) by by rewrite Hm2, lookup_insert_eq.
  split; [|by unfold records; rewrite E, Ht].
  split; [by eexists|]. split; [done|by eexists].
Qed.

(** What a new cursor is on. *)
Lemma new_Cursor_usable config t h c t' h' :
  new_Cursor config (t, h) = (Return c, (t', h')) →
  usable config c t' ∧ records t' config = records t config.
Proof.
  intros Hn. pose proof (new_Cursor_outcome _ _ _ _ _ _ Hn) as (Hm & (Hs & He & _) & _ & k & Hk & _).
  split; [|apply map_eq; intros k'; by rewrite !records_lookup, He]. split; [by eexists|done].
Qed.

(** A cursor opened on a map counts its records and is empty when there
    are none, before and after it stores a record: one more if the key is new.
    Without a handle, as after [close], every query throws. *)
Theorem cursor_size_counts (config : MapConfig) (c : Cursor) (t t' : T) (h h' : handles)
    (k v : list byte) :
  new_Cursor config (t, h) = (Return c, (t', h')) →
  let n := Z.of_nat (base.size (records t config)) in
  size c (t', h') = (Return n, (t', h')) ∧
  empty_ c (t', h') = (Return (bool_decide (records t config = ∅)), (t', h')) ∧
  (∀ t2, cursor_upsert c k v (t', h') = (Return tt, (t2, h')) →
     size c (t2, h') = (Return (if decide (is_Some (records t config !! k)) then n else n + 1), (t2, h')) ∧
     empty_ c (t2, h') = (Return false, (t2, h'))) ∧
  (∀ st, size (close c h').1 st = (Throw einval, st) ∧ empty_ (close c h').1 st = (Throw einval, st) ∧
     is_multi_value (close c h').1 st = (Throw einval, st)).
Proof.
  intros [Hu Hr]%new_Cursor_usable n. unfold n. rewrite <-!Hr.
  split; [by apply size_run|]. split; [by apply empty_run|]. split; [|done].
  intros t2 Hup. destruct (upsert_records _ _ _ _ _ _ _ Hu Hup) as [Hu2 Hr2].
  rewrite (size_run config), (empty_run config), Hr2 by done. split.
  - do 2 f_equal. destruct (decide _) as [Hs|Hs].
    + by rewrite map_size_insert_Some.
    + rewrite map_size_insert_None by by apply eq_None_not_Some. lia.
  - rewrite bool_decide_eq_false_2; [done|]. apply insert_non_empty.
Qed.

(** The managed cursor is on the map it was opened for. *)
Lemma open_cursor_opens config t h r t' h' :
  open_cursor config (t, h) = (r, (t', h')) →
  match r with
  | Return c => managed_map c = name config ∧ is_Some (maps t' !! name config)
  | Throw x => x = mdbx_exception
  | _ => False
  end ∧ h' = h.
Proof.
  unfold open_cursor. run_db. destruct (open_map config (t, h)) as [[m|x| |] [t1 h1]] eqn:Ho;
    pose proof (open_map_handles _ _ _ _ _ _ Ho) as ->; apply open_map_outcome in Ho; try done.
  - destruct Ho as [-> [Hs _]]. unfold ask. cbn [fst].
    destruct (open_cursor_outcome t1 (name config)) as [[c Hc]|Hc]; rewrite Hc; intros [= <- <- <-]; [|done].
    split; [|done]. split; [by eapply open_cursor_map|done].
  - intros [= <- <- <-]. by destruct Ho as [-> _].
Qed.
End queries.

(** ** An instance *)

Definition ref_mdbx_maps : MdbxMaps ref_txn (list byte) (H := ref_mdbx_txn).
Proof.
  refine {| ms_entries t m := match ref_maps t !! m with
              | Some tbl => Return (Z.of_nat (base.size tbl)) | None => Throw mdbx_exception end;
    handle_flags t m := match ref_maps t !! m with Some _ => Return 0 | None => Throw mdbx_exception end;
    get_pagesize _ := 4096; txn_open_cursor _ m := Return m; managed_map m := m;
    MDBX_DUPSORT := 4; einval := invalid_argument |}.
  - cbn. by intros t m tbl ->.
  - by intros t m c [= ->].
  - intros t m. left. by eexists.
Defined.

Lemma cursor_size_counts_witness :
  let config := mk_MapConfig (chars "Config") key_usual value_single in
  let t := mk_ref_txn {[chars "Config" := ∅]} false 1 in
  let h := mk_handles (H := ref_mdbx_txn) [] ∅ in
  let h' := mk_handles (H := ref_mdbx_txn) [] {[1%nat := Some 1]} in
  let c := mk_Cursor (Some 1%nat) (chars "Config") in
  let t2 := mk_ref_txn {[chars "Config" := {[chars "a" := chars "b"]}]} false 1 in
  size (maps_info := ref_mdbx_maps) c (t, h') = (Return 0, (t, h')) ∧
  size (maps_info := ref_mdbx_maps) c (t2, h') = (Return 1, (t2, h')).
Proof.
  intros config t h h' c t2.
  destruct (cursor_size_counts (H := ref_mdbx_txn) (maps_info := ref_mdbx_maps) config c t t h h'
    (chars "a") (chars "b") eq_refl) as (H1 & _ & H2 & _).
  split; [exact H1|]. exact (proj1 (H2 t2 eq_refl)).
Defined.
