(* ===== verification/Database.v ===== *)
(** * The schema version, the tables and the progress of the stages

    Models [src/zen/node/common/version.hpp], [database/access_layer.cpp],
    [database/mdbx_tables.hpp], [database/stages.hpp] and [stages.cpp]. The
    functions run in the monad of [Txn], over the interface of a transaction. *)
From S2P Require Import Prelude Base Digits Txn.
From stdpp Require Import gmap.
Local Open Scope Z_scope.

(** ** version.hpp *)

Record Version := mk_Version { Major : Z; Minor : Z; Patch : Z }.

#[export] Instance Version_eq_dec : EqDecision Version.
Proof. solve_decision. Defined.

Definition Version_to_string (v : Version) : list byte :=
  dec (Major v) ++ chars "." ++ dec (Minor v) ++ chars "." ++ dec (Patch v).

(** The defaulted [operator<=>]: member by member. *)
Definition Version_compare (v w : Version) : comparison :=
  match Major v ?= Major w with
  | Eq => match Minor v ?= Minor w with Eq => Patch v ?= Patch w | c => c end
  | c => c
  end.

(** Comparison with an optional version, an empty one being less than all. *)
Definition equals_optional (v : Version) (o : option Version) : bool :=
  match o with Some w => match Version_compare v w with Eq => true | _ => false end | None => false end.
Definition less_than_optional (v : Version) (o : option Version) : bool :=
  match o with Some w => match Version_compare v w with Lt => true | _ => false end | None => false end.

(** ** mdbx_tables.hpp *)

Definition kRequiredSchemaVersion : Version := mk_Version 1 0 0.
Definition kConfig : MapConfig := mk_MapConfig (chars "Config") key_usual value_single.
Definition kHeaders : MapConfig := mk_MapConfig (chars "Headers") key_usual value_single.
Definition kDbSchemaVersionKey : list byte := chars "DbSchemaVersion".
Definition kSyncStageProgress : MapConfig := mk_MapConfig (chars "Stages") key_usual value_single.
Definition kChainDataTables : list MapConfig := [kConfig; kHeaders; kSyncStageProgress].

Section tables.
Context `{MdbxTxn T}.

Fixpoint deploy_loop (tables : list MapConfig) : db T unit :=
  match tables with
  | [] => mret tt
  | table :: tables =>
      txn ← get_txn;
      _ ← match has_map txn (name table) with
          | Return true => mret tt
          | Return false =>
              call (λ tx, txn_create_map tx (name table) (kmode table) (vmode table))
          | Throw x => throw x
          | Abort | Undefined => db_abort
          end;
      deploy_loop tables
  end.

Definition deploy_tables (tables : list MapConfig) : db T unit :=
  txn ← get_txn;
  if is_readonly txn then throw invalid_argument else deploy_loop tables.
End tables.

(** ** access_layer.cpp *)

Section access_layer.
Context `{MdbxTxn T, Intx}.

Definition read_schema_version : db T (option Version) :=
  with_cursor kConfig (λ config,
    data ← cursor_find config kDbSchemaVersionKey;
    match data with
    | None => mret None
    | Some value =>
        if (length value =? 12)%nat then
          mret (Some (mk_Version (load_big_u32 value) (load_big_u32 (drop 4 value))
                                 (load_big_u32 (drop 8 value))))
        else db_abort
    end).

Definition write_schema_version (version : Version) : db T unit :=
  txn ← get_txn;
  if is_readonly txn then mret tt else
  prev_version ← read_schema_version;
  if equals_optional version prev_version then mret tt else
  if less_than_optional version prev_version then throw invalid_argument else
  let value := store_big_u32 (Major version) ++ store_big_u32 (Minor version) ++
               store_big_u32 (Patch version) in
  with_cursor kConfig (λ config, cursor_upsert config kDbSchemaVersionKey value).
End access_layer.

(** ** stages.hpp, stages.cpp *)

Definition kHeadersKey : list byte := chars "Headers".
Definition kBlockBodiesKey : list byte := chars "Bodies".
Definition kExecutionKey : list byte := chars "Execution".
Definition kFinishKey : list byte := chars "Finish".
Definition kUnwindKey : list byte := chars "Unwind".
Definition kAllStages : list (list byte) :=
  [kHeadersKey; kBlockBodiesKey; kExecutionKey; kFinishKey; kUnwindKey].

(** A C string without its terminator. *)
Definition is_known_stage (name : list byte) : bool :=
  if (0 <? length name)%nat then existsb (λ stage, bool_decide (stage = name)) kAllStages
  else false.

Section stages.
Context `{MdbxTxn T, Intx}.

(** [catch (const mdbx::exception&)]. *)
Definition catch_mdbx {A} (m : db T A) : db T A := λ st,
  match m st with
  | (Throw mdbx_exception, st) => (Throw runtime_error, st)
  | r => r
  end.

Definition item_key (stage_name : list byte) (key_prefix : option (list byte)) : list byte :=
  match key_prefix with Some p => p ++ stage_name | None => stage_name end.

Definition get_stage_data (stage_name : list byte) (domain : MapConfig)
    (key_prefix : option (list byte)) : db T Z :=
  if negb (is_known_stage stage_name) then throw invalid_argument else
  catch_mdbx (with_cursor domain (λ src,
    data ← cursor_find src (item_key stage_name key_prefix);
    match data with
    | None => mret 0
    | Some value =>
        if negb (length value =? 4)%nat then throw length_error
        else mret (load_big_u32 value)
    end)).

Definition set_stage_data (stage_name : list byte) (block_num : Z) (domain : MapConfig)
    (key_prefix : option (list byte)) : db T unit :=
  if negb (is_known_stage stage_name) then throw invalid_argument else
  catch_mdbx (
    let stage_progress := store_big_u32 block_num in
    with_cursor domain (λ target,
      cursor_upsert target (item_key stage_name key_prefix) stage_progress)).

Definition prune_prefix : list byte := chars "prune_".

Definition read_stage_progress (stage_name : list byte) : db T Z :=
  get_stage_data stage_name kSyncStageProgress None.
Definition read_stage_prune_progress (stage_name : list byte) : db T Z :=
  get_stage_data stage_name kSyncStageProgress (Some prune_prefix).
Definition write_stage_progress (stage_name : list byte) (block_num : Z) : db T unit :=
  set_stage_data stage_name block_num kSyncStageProgress None.
Definition write_stage_prune_progress (stage_name : list byte) (block_num : Z) : db T unit :=
  set_stage_data stage_name block_num kSyncStageProgress (Some prune_prefix).
End stages.

(** Runs the block of a cursor: on a bound cursor on an opened map, or to the
    exception of a cursor there is none of. *)
Ltac open_cursor :=
  match goal with
  | |- context [with_cursor ?cfg ?body (?t0, ?h0)] =>
      destruct (with_cursor_run cfg body t0 h0) as
        [(c & t' & h1 & r & t2 & h2 & Hm & Ho & Hbd & Hb & Hw)|
         (Hready & Hwhy & x & t' & h' & Hg & Hx & Hw)]; rewrite Hw
  end.

(** Why there may be no cursor on a map: the library refuses to open it or to
    bind a cursor to it, or has no memory for a cursor. *)
Definition no_cursor `{MdbxTxn T} (config : MapConfig) (t : T) : Prop :=
  refuses config t ∨ out_of_memory.

(** ** What the progress of the stages is *)

Section progress.
Context `{MdbxTxn T, Intx}.

(** The specification: a stage has the number recorded under its key, zero
    when there is none. *)
Definition stage_key (prune : bool) (stage : list byte) : list byte :=
  item_key stage (if prune then Some prune_prefix else None).
Definition progress (m : gmap (list byte) table) (prune : bool) (stage : list byte) :
    outcome db_error Z :=
  match entry m (chars "Stages") (stage_key prune stage) with
  | None => Return 0
  | Some v => if (length v =? 4)%nat then Return (be_value v) else Throw length_error
  end.

Definition read_progress (prune : bool) : list byte → db T Z :=
  if prune then read_stage_prune_progress else read_stage_progress.
Definition write_progress (prune : bool) : list byte → Z → db T unit :=
  if prune then write_stage_prune_progress else write_stage_progress.

Lemma known_stage stage : is_known_stage stage = true → stage ∈ kAllStages.
Proof.
  unfold is_known_stage. destruct (0 <? length stage)%nat; [|done].
  intros (s & Hs%list_elem_of_In & <-%bool_decide_eq_true)%existsb_exists. done.
Qed.

Lemma stage_key_inj prune prune' s s' :
  is_known_stage s = true → is_known_stage s' = true →
  stage_key prune s = stage_key prune' s' → prune = prune' ∧ s = s'.
Proof.
  intros Hs%known_stage Hs'%known_stage. unfold kAllStages in *.
  rewrite !elem_of_cons in *.
  destruct Hs as [->|[->|[->|[->|[->|[]%not_elem_of_nil]]]]],
    Hs' as [->|[->|[->|[->|[->|[]%not_elem_of_nil]]]]], prune, prune';
    (done || (intros Hk; vm_compute in Hk; discriminate)).
Qed.

Lemma read_progress_run prune stage t h :
  is_known_stage stage = true →
  ∃ r t' h', read_progress prune stage (t, h) = (r, (t', h')) ∧
  (∀ n k, entry (maps t') n k = entry (maps t) n k) ∧
  (r = progress (maps t) prune stage ∨
   r = Throw runtime_error ∧ no_cursor kSyncStageProgress t ∧ ¬ ready kSyncStageProgress (t, h)).
Proof.
  intros Hk. set (p := if prune then Some prune_prefix else None).
  assert (E : read_progress prune stage = get_stage_data stage kSyncStageProgress p)
    by by destruct prune. rewrite E. unfold get_stage_data. rewrite Hk. cbn [negb]. unfold catch_mdbx.
  open_cursor.
  2: { exists (Throw runtime_error), t', h'. split; [by destruct Hx as [->|[-> _]]|].
       split; [apply Hg|by right]. }
  clear Hw. revert Hb. cbv beta. unfold progress.
  cbv beta iota delta [mbind db_bind]. rewrite (cursor_find_run _ _ _ _ _ _ Hm Ho). fold p.
  change (stage_key prune stage) with (item_key stage p). destruct Ho as (_ & He & _).
  destruct (entry (maps t) _ _) as [v|]; [|intros [= <- <- <-]; eauto 10].
  destruct (length v =? 4)%nat eqn:Hl; cbn [negb]; [|intros [= <- <- <-]; eauto 10].
  apply Nat.eqb_eq in Hl. unfold load_big_u32. rewrite intx_be_load_spec, take_ge by lia.
  intros [= <- <- <-]. eauto 10.
Qed.

Lemma write_progress_run prune stage b t h :
  is_known_stage stage = true →
  ∃ r t' h', write_progress prune stage b (t, h) = (r, (t', h')) ∧
  match r with
  | Return _ => ready kSyncStageProgress (t', h') ∧
      (∀ n k, entry (maps t') n k =
        if decide (n = chars "Stages" ∧ k = stage_key prune stage) then Some (be_bytes 4 b)
        else entry (maps t) n k)
  | Throw x => x = runtime_error ∧ ∀ n k, entry (maps t') n k = entry (maps t) n k
  | _ => False
  end.
Proof.
  intros Hk. set (p := if prune then Some prune_prefix else None).
  assert (E : write_progress prune stage b = set_stage_data stage b kSyncStageProgress p)
    by by destruct prune. rewrite E. unfold set_stage_data. rewrite Hk. cbn [negb]. unfold catch_mdbx.
  open_cursor.
  2: { exists (Throw runtime_error), t', h'. split; [by destruct Hx as [->|[-> _]]|].
       split; [done|apply Hg]. }
  destruct (cursor_upsert_run kSyncStageProgress c (item_key stage p) (store_big_u32 b) t t' h1 Hm Ho Hbd)
    as (r' & t2' & E' & Hr). rewrite Hb in E'. injection E' as -> -> ->.
  destruct r' as [[]|x| |]; try done.
  - eexists _, _, _. split; [done|]. unfold store_big_u32 in Hr. rewrite intx_be_store_spec in Hr.
    destruct Hr as (_ & ? & _ & ?). split; [by apply destroy_ready|done].
  - destruct Hr as [-> ->]. eexists _, _, _. split; [done|]. split; [done|apply Ho].
Qed.

(** C23: A progress written for a stage is the one read for it from then on,
    by both of the reading functions: forward and prune progress of a stage are
    apart, every other progress is the one that was stored before, zero when
    there was none, and each such reading returns. *)
Theorem stage_progress_recorded (prune : bool) (stage : list byte) (b : Z) (st st' : T * handles) :
  write_progress prune stage b st = (Return tt, st') → in_range 32 b →
  ∀ prune' stage', is_known_stage stage' = true →
  ∃ st'', read_progress prune' stage' st' =
    (if decide (prune' = prune ∧ stage' = stage) then Return b
     else progress (maps st.1) prune' stage', st'').
Proof.
  intros Hw Hb prune' stage' Hk'. destruct st as [t h].
  assert (Hk : is_known_stage stage = true).
  { destruct (is_known_stage stage) eqn:Hk; [done|].
    by destruct prune; cbn in Hw; unfold write_stage_prune_progress, write_stage_progress, set_stage_data in Hw;
      rewrite Hk in Hw. }
  destruct (write_progress_run prune stage b t h Hk) as (r & t' & h' & E & Hr).
  rewrite Hw in E. injection E as <- ->. destruct Hr as [Ht He].
  destruct (read_progress_run prune' stage' t' h' Hk') as (r & t2 & h2 & -> & _ & [->|(_ & _ & Hno)]); [|done].
  eexists. f_equal. unfold progress. rewrite He. cbn [fst].
  destruct (decide (prune' = prune ∧ stage' = stage)) as [[-> ->]|Hne].
  - rewrite decide_True, length_be_bytes by done. cbn [Nat.eqb]. by rewrite be_value_small.
  - rewrite decide_False; [done|]. intros [_ Hkey]. by apply Hne, stage_key_inj.
Qed.

(** An unknown stage makes both reading and writing throw before anything
    is touched. A write for a known stage that does not return throws a
    runtime error and leaves every progress as it was; a reading does nothing
    but return the progress, or throw the same when there is no cursor on the
    table. *)
Theorem stage_errors (prune : bool) (stage : list byte) (b : Z) (t : T) (h : handles) :
  if is_known_stage stage then
    (let '(r, (t', _)) := write_progress prune stage b (t, h) in
     r = Return tt ∨ r = Throw runtime_error ∧
       ∀ prune' stage', progress (maps t') prune' stage' = progress (maps t) prune' stage') ∧
    (let '(r, (t', _)) := read_progress prune stage (t, h) in
     (r = progress (maps t) prune stage ∨
      r = Throw runtime_error ∧ no_cursor kSyncStageProgress t) ∧
       ∀ prune' stage', progress (maps t') prune' stage' = progress (maps t) prune' stage')
  else write_progress prune stage b (t, h) = (Throw invalid_argument, (t, h)) ∧
    read_progress prune stage (t, h) = (Throw invalid_argument, (t, h)).
Proof.
  destruct (is_known_stage stage) eqn:Hk.
  - split.
    + destruct (write_progress_run prune stage b t h Hk) as (r & t' & h' & -> & Hr).
      destruct r as [[]|x| |]; [by left| |done..]. destruct Hr as [-> He]. right.
      split; [done|]. intros p s. unfold progress. by rewrite He.
    + destruct (read_progress_run prune stage t h Hk) as (r & t' & h' & -> & He & Hr).
      split; [tauto|]. intros p s. unfold progress. by rewrite He.
  - destruct prune; cbn; unfold write_stage_prune_progress, write_stage_progress, set_stage_data,
      read_stage_prune_progress, read_stage_progress, get_stage_data; by rewrite Hk.
Qed.
End progress.

(** ** What the schema version is *)

Section schema.
Context `{MdbxTxn T, Intx}.

Definition version_lt (v w : Version) : Prop :=
  Major v < Major w ∨ Major v = Major w ∧
  (Minor v < Minor w ∨ Minor v = Minor w ∧ Patch v < Patch w).
Definition version_ok (v : Version) : Prop :=
  in_range 32 (Major v) ∧ in_range 32 (Minor v) ∧ in_range 32 (Patch v).

Lemma Version_compare_spec v w :
  match Version_compare v w with Lt => version_lt v w | Eq => v = w | Gt => version_lt w v end.
Proof.
  unfold Version_compare, version_lt. destruct v as [a b c], w as [a' b' c']; cbn.
  destruct (Z.compare_spec a a') as [->| |]; [|lia..].
  destruct (Z.compare_spec b b') as [->| |]; [|lia..].
  destruct (Z.compare_spec c c') as [->| |]; [done|lia..].
Qed.

Lemma version_lt_compare v w : version_lt v w → Version_compare v w = Lt.
Proof.
  pose proof (Version_compare_spec v w) as Hc. unfold version_lt in *.
  destruct (Version_compare v w); [subst; lia|done|lia].
Qed.

(** The version the tables hold: none, one, or a value of the wrong size. *)
Definition schema_version (m : gmap (list byte) table) : outcome db_error (option Version) :=
  match entry m (chars "Config") kDbSchemaVersionKey with
  | None => Return None
  | Some v =>
      if (length v =? 12)%nat
      then Return (Some (mk_Version (be_value (take 4 v)) (be_value (take 4 (drop 4 v)))
                                    (be_value (drop 8 v))))
      else Abort
  end.

Lemma read_schema_version_run t h :
  (∃ t' h', read_schema_version (t, h) = (schema_version (maps t), (t', h')) ∧ opened kConfig t t' ∧
     ready kConfig (t', h')) ∨
  (¬ ready kConfig (t, h) ∧ no_cursor kConfig t ∧ ∃ x t' h', grown t t' ∧
    (x = mdbx_exception ∨ x = runtime_error ∧ out_of_memory) ∧
    read_schema_version (t, h) = (Throw x, (t', h'))).
Proof.
  unfold read_schema_version. open_cursor; [|right; split; [done|]; split; [done|by eexists _, _, _]].
  left. exists t2, (destroy_Cursor c h2). clear Hw. revert Hb. cbv beta. unfold schema_version.
  cbv beta iota delta [mbind db_bind]. rewrite (cursor_find_run _ _ _ _ _ _ Hm Ho).
  apply destroy_ready in Hbd as Hrd.
  destruct (entry (maps t) _ _) as [v|]; [|by intros [= <- <- <-]].
  destruct (length v =? 12)%nat eqn:Hl; [|by intros [= <- <- <-]].
  apply Nat.eqb_eq in Hl. unfold load_big_u32.
  rewrite !intx_be_load_spec by (rewrite ?length_drop; lia).
  rewrite (take_ge (drop 8 v)) by (rewrite length_drop; lia). by intros [= <- <- <-].
Qed.

Lemma schema_version_same t t' :
  (∀ n k, entry (maps t') n k = entry (maps t) n k) → schema_version (maps t') = schema_version (maps t).
Proof. intros He. unfold schema_version. by rewrite He. Qed.

Lemma read_schema_version_back v t h :
  ready kConfig (t, h) → schema_version (maps t) = Return v →
  ∃ st, read_schema_version (t, h) = (Return v, st).
Proof.
  intros Ht Hv. destruct (read_schema_version_run t h) as [(t' & h' & -> & _)|[Hno _]]; [|done].
  rewrite Hv. by eexists.
Qed.

Lemma optional_order v prev :
  (if equals_optional v prev then prev = Some v else True) ∧
  (if less_than_optional v prev then ∃ w, prev = Some w ∧ version_lt v w
   else ∀ w, prev = Some w → ¬ version_lt v w).
Proof.
  destruct prev as [w|]; cbn; [|done]. pose proof (Version_compare_spec v w) as Hc.
  destruct (Version_compare v w) eqn:E; (split; [congruence || done|]).
  - intros w' [= <-] Hlt%version_lt_compare. congruence.
  - by exists w.
  - intros w' [= <-] Hlt%version_lt_compare. congruence.
Qed.

Lemma write_version_value v t tw h :
  version_ok v → opened kConfig t tw → ready kConfig (tw, h) →
  let '(r, (t2, h2)) := with_cursor kConfig (λ config, cursor_upsert config kDbSchemaVersionKey
    (store_big_u32 (Major v) ++ store_big_u32 (Minor v) ++ store_big_u32 (Patch v))) (tw, h) in
  match r with
  | Return _ => ready kConfig (t2, h2) ∧ schema_version (maps t2) = Return (Some v)
  | Throw mdbx_exception => schema_version (maps t2) = schema_version (maps t)
  | _ => False
  end.
Proof.
  intros (H1 & H2 & H3) Hop Hrd. open_cursor; [|done].
  destruct (cursor_upsert_run kConfig c kDbSchemaVersionKey (store_big_u32 (Major v) ++
    store_big_u32 (Minor v) ++ store_big_u32 (Patch v)) tw t' h1 Hm Ho Hbd) as (r' & t2' & E & Hr).
  rewrite Hb in E. injection E as -> -> ->. destruct Hop as (_ & He & _). destruct r' as [u|x| |]; try done.
  - destruct Hr as (_ & Hu & _ & Hbd2). split; [by apply destroy_ready|]. unfold schema_version. rewrite Hu, decide_True by done.
    unfold store_big_u32. rewrite !intx_be_store_spec, !length_app, !length_be_bytes. cbn [Nat.eqb Nat.add].
    rewrite take_app_length', drop_app_length' by by rewrite length_be_bytes.
    rewrite take_app_length' by by rewrite length_be_bytes.
    rewrite app_assoc, drop_app_length' by by rewrite length_app, !length_be_bytes.
    rewrite !be_value_small by done. by destruct v.
  - destruct Hr as [-> ->]. apply schema_version_same. intros n k. destruct Ho as (_ & He' & _). by rewrite He'.
Qed.

(** C24: The schema version never goes down. A write of a version in a
    read-write transaction returns only when it is not lower than the one
    stored, and then reading gives it back; one that is lower throws an
    invalid argument, unless there is no cursor to read the stored one with;
    and whenever the write throws, the stored version is still the one before.
    It throws a runtime error only when the library has no memory for a cursor.
    In a read-only transaction the write does nothing. *)
Theorem schema_version_monotone (v : Version) (prev : option Version) (t : T) (h : handles) :
  version_ok v → schema_version (maps t) = Return prev →
  let '(r, (t', h')) := write_schema_version v (t, h) in
  if is_readonly t then r = Return tt ∧ t' = t ∧ h' = h else
  match r with
  | Return _ => (∃ st, read_schema_version (t', h') = (Return (Some v), st)) ∧
      ∀ w, prev = Some w → ¬ version_lt v w
  | Throw invalid_argument => schema_version (maps t') = Return prev ∧
      ∃ w, prev = Some w ∧ version_lt v w
  | Throw mdbx_exception => schema_version (maps t') = Return prev ∧
      ((∀ w, prev = Some w → ¬ version_lt v w) ∨ no_cursor kConfig t)
  | Throw runtime_error => schema_version (maps t') = Return prev ∧ out_of_memory
  | _ => False
  end.
Proof.
  intros Hv Hprev. unfold write_schema_version. cbv beta iota delta [mbind db_bind get_txn fst].
  destruct (is_readonly t) eqn:Hro; [by run_db|]. destruct (optional_order v prev) as [Heq Hlt].
  destruct (read_schema_version_run t h) as
    [(t1 & h1 & -> & Ho & Hrd)|(_ & Hwhy & x & t1 & h1 & [He _] & Hx & ->)].
  - rewrite Hprev. cbv beta iota. pose proof (schema_version_same t t1 (proj1 (proj2 Ho))) as Hs.
    rewrite Hprev in Hs. destruct (equals_optional v prev) eqn:Ee.
    { run_db. subst prev. split; [by apply read_schema_version_back|].
      intros w [= <-]. unfold version_lt. lia. }
    destruct (less_than_optional v prev); [by run_db|].
    pose proof (write_version_value v t t1 h1 Hv Ho Hrd) as Hw. cbv zeta.
    destruct (with_cursor _ _ _) as [[u|[]| |] [t2 h2]]; try done.
    + destruct Hw. split; [by apply read_schema_version_back|done].
    + split; [by rewrite Hw|by left].
  - pose proof (schema_version_same t t1 He) as Hs. rewrite Hprev in Hs.
    destruct Hx as [->|[-> Hmem]]; (split; [done|]); [by right|done].
Qed.
End schema.

(** ** The tables *)

Section deployed.
Context `{MdbxTxn T}.

(** The transaction [t'] sees the tables and values of [t], and maybe more
    empty tables. *)
Definition extends (t t' : T) : Prop :=
  (∀ n k, entry (maps t') n k = entry (maps t) n k) ∧
  (∀ n, is_Some (maps t !! n) → is_Some (maps t' !! n)) ∧ is_readonly t' = is_readonly t.

Lemma extends_trans t1 t2 t3 : extends t1 t2 → extends t2 t3 → extends t1 t3.
Proof.
  intros (He & Hs & Hr) (He' & Hs' & Hr'). split; [intros; by rewrite He', He|].
  split; [auto|congruence].
Qed.

Lemma create_map_extends t c :
  match txn_create_map t (name c) (kmode c) (vmode c) with
  | Return t' => extends t t' ∧ is_Some (maps t' !! name c)
  | Throw x => x = mdbx_exception
  | _ => False
  end.
Proof.
  pose proof (create_map_spec t (name c) (kmode c) (vmode c)) as Hc.
  destruct (txn_create_map _ _ _ _) as [t'|x| |]; try done. destruct Hc as (Hm & Hr & _).
  fold (with_table (maps t) (name c)) in Hm. unfold extends. rewrite Hm. split; [split|].
  - intros n k. apply with_table_entry.
  - split; [|done]. intros n Hn. unfold with_table. destruct (decide _); [done|].
    destruct (decide (n = name c)) as [->|]; [done|by rewrite lookup_insert_ne].
  - unfold with_table. destruct (decide _); [done|by rewrite lookup_insert_eq].
Qed.

Lemma has_map_cases t n :
  has_map t n = Return true ∧ is_Some (maps t !! n) ∨ has_map t n = Return false.
Proof.
  unfold has_map. destruct (main_seek_outcome t n) as [[b Hb]| ->]; [rewrite Hb|by right].
  apply main_seek_spec in Hb as ->. destruct (decide (is_Some (maps t !! n))).
  - left. by rewrite bool_decide_true.
  - right. by rewrite bool_decide_false.
Qed.

Lemma deploy_loop_extends tables t h :
  let '(r, (t', h')) := deploy_loop tables (t, h) in
  extends t t' ∧ h' = h ∧
  match r with
  | Return _ => ∀ c, c ∈ tables → is_Some (maps t' !! name c)
  | Throw x => x = mdbx_exception
  | _ => False
  end.
Proof.
  revert t h. induction tables as [|c tables IH]; intros t h; cbn [deploy_loop].
  { run_db. split; [done|]. split; [done|]. intros c Hc. by apply not_elem_of_nil in Hc. }
  assert (Hgo : ∀ t1, extends t t1 → is_Some (maps t1 !! name c) →
    let '(r, (t', h')) := deploy_loop tables (t1, h) in
    extends t t' ∧ h' = h ∧
    match r with
    | Return _ => ∀ c', c' ∈ c :: tables → is_Some (maps t' !! name c')
    | Throw x => x = mdbx_exception
    | _ => False
    end).
  { intros t1 Ht1 Hc. specialize (IH t1 h). destruct (deploy_loop tables (t1, h)) as [r [t' h']].
    destruct IH as (He & Hh & Hr). split; [by eapply extends_trans|]. split; [done|].
    destruct r as [u|x| |]; try done. intros c' [->|Hin]%elem_of_cons; [|by apply Hr].
    by apply He. }
  run_db.
  destruct (has_map_cases t (name c)) as [[-> Hs]| ->]; [by apply Hgo|].
  pose proof (create_map_extends t c) as Hc.
  destruct (txn_create_map _ _ _ _) as [t1|x| |]; [by destruct Hc; apply Hgo|by subst|done..].
Qed.

(** [deploy_tables] refuses a read-only transaction without touching it.
    Otherwise, when it returns every table of the list exists; whether it
    returns or throws, no table disappeared and no value changed. *)
Theorem deploy_tables_complete (tables : list MapConfig) (t : T) (h : handles) :
  let '(r, (t', h')) := deploy_tables tables (t, h) in
  if is_readonly t then r = Throw invalid_argument ∧ t' = t ∧ h' = h else
  extends t t' ∧
  match r with
  | Return _ => ∀ c, c ∈ tables → is_Some (maps t' !! name c)
  | Throw x => x = mdbx_exception
  | _ => False
  end.
Proof.
  unfold deploy_tables. cbv beta iota delta [mbind db_bind get_txn fst].
  destruct (is_readonly t); [done|]. pose proof (deploy_loop_extends tables t h) as Hd.
  destruct (deploy_loop tables (t, h)) as [r [t' h']]. destruct Hd as (He & _ & Hr). by split.
Qed.
End deployed.

(** ** Instances *)

Definition a_txn : ref_txn := mk_ref_txn ∅ false 1.
Definition no_handles : handles (H := ref_mdbx_txn) := mk_handles (H := ref_mdbx_txn) [] ∅.

Lemma stage_progress_recorded_witness :
  (∃ st', write_progress (H := ref_mdbx_txn) (H0 := intx_reference) true kHeadersKey 7 (a_txn, no_handles)
      = (Return tt, st') ∧
    ∃ st'', read_progress (H := ref_mdbx_txn) (H0 := intx_reference) true kHeadersKey st' = (Return 7, st'')) ∧
  in_range 32 7.
Proof.
  split; [|done].
  destruct (write_progress (H := ref_mdbx_txn) (H0 := intx_reference) true kHeadersKey 7
    (a_txn, no_handles)) as [r st'] eqn:E.
  assert (Hr : r = Return tt) by (apply (f_equal fst) in E; cbn [fst] in E; rewrite <-E; vm_compute; reflexivity).
  subst r. exists st'. split; [reflexivity|].
  exact (stage_progress_recorded (H := ref_mdbx_txn) (H0 := intx_reference) true kHeadersKey 7 _ st' E
    ltac:(done) true kHeadersKey eq_refl).
Defined.

Lemma schema_version_monotone_witness :
  version_ok kRequiredSchemaVersion ∧
  schema_version (maps (MdbxTxn := ref_mdbx_txn) a_txn) = Return None ∧
  ∃ st', write_schema_version (H := ref_mdbx_txn) (H0 := intx_reference) kRequiredSchemaVersion
      (a_txn, no_handles) = (Return tt, st') ∧
    ∃ st, read_schema_version (H := ref_mdbx_txn) (H0 := intx_reference) st'
      = (Return (Some kRequiredSchemaVersion), st).
Proof.
  assert (Hv : version_ok kRequiredSchemaVersion) by (unfold version_ok, in_range; cbn; lia).
  split; [exact Hv|]. split; [reflexivity|].
  pose proof (schema_version_monotone (H := ref_mdbx_txn) (H0 := intx_reference)
    kRequiredSchemaVersion None a_txn no_handles Hv eq_refl) as Hw.
  destruct (write_schema_version _ _) as [r [t' h']] eqn:E.
  assert (Hr : r = Return tt) by (apply (f_equal fst) in E; cbn [fst] in E; rewrite <-E; vm_compute; reflexivity).
  subst r. cbn [ref_ro a_txn is_readonly ref_mdbx_txn] in Hw. exists (t', h'). split; [reflexivity|].
  exact (proj1 Hw).
Defined.
