(* ===== verification/Chaindata.v ===== *)
(** * A session with the chain database

    Composes [Txn] and [Database]: what one read-write transaction that deploys
    the tables, writes the schema version and records the progress of stages
    leaves to the transactions that come after it, once it is committed. *)
From S2P Require Import Prelude Base Txn Database.
From stdpp Require Import gmap.
Local Open Scope Z_scope.

Section writes.
Context `{MdbxTxn T, Intx}.

(** A storing by a cursor, when it returns. *)
Lemma with_upsert_run config k v t h u t2 h2 :
  with_cursor config (λ c, cursor_upsert c k v) (t, h) = (Return u, (t2, h2)) →
  (∀ n, is_Some (maps t !! n) → is_Some (maps t2 !! n)) ∧ is_Some (maps t2 !! name config) ∧
  (∀ n k', entry (maps t2) n k' = if decide (n = name config ∧ k' = k) then Some v else entry (maps t) n k') ∧
  is_readonly t2 = is_readonly t.
Proof.
  destruct (with_cursor_run config (λ c, cursor_upsert c k v) t h) as
    [(c & t' & h1 & r & t3 & h3 & Hm & Ho & Hbd & Hb & ->)|(_ & _ & x & t' & h' & _ & _ & ->)]; [|done].
  intros [= -> <- <-]. destruct (cursor_upsert_run config c k v t t' h1 Hm Ho Hbd) as (r & t4 & E & Hr).
  rewrite Hb in E. injection E as <- <- <-. destruct Hr as (Hs & He & Hro & _).
  split; [|done]. intros n Hn. destruct (decide (n = name config)) as [->|Hne]; [done|].
  destruct Ho as ([tbl Ht] & _ & Hk & _). apply Hk in Hn. revert Hb. unfold cursor_upsert. run_db. rewrite Hm.
  pose proof (upsert_spec t' (name config) k v tbl Ht) as Hu.
  destruct (upsert _ _ _ _) as [t5|x| |]; intros E; simplify_eq. destruct Hu as (-> & _).
  by rewrite lookup_insert_ne.
Qed.

(** What the tables hold besides the entries that were written. *)
Definition keeps_tables (t t' : T) : Prop :=
  (∀ n, is_Some (maps t !! n) → is_Some (maps t' !! n)) ∧ is_readonly t' = is_readonly t.

Lemma keeps_tables_trans t1 t2 t3 : keeps_tables t1 t2 → keeps_tables t2 t3 → keeps_tables t1 t3.
Proof. intros [Hs Hr] [Hs' Hr']. split; [auto|congruence]. Qed.

Lemma write_progress_returns prune stage b t h t' h' :
  write_progress prune stage b (t, h) = (Return tt, (t', h')) →
  is_known_stage stage = true ∧ keeps_tables t t' ∧ is_Some (maps t' !! chars "Stages") ∧
  ∀ n k, entry (maps t') n k =
    if decide (n = chars "Stages" ∧ k = stage_key prune stage) then Some (be_bytes 4 b) else entry (maps t) n k.
Proof.
  set (p := if prune then Some prune_prefix else None).
  assert (E : write_progress prune stage b = set_stage_data stage b kSyncStageProgress p) by by destruct prune.
  rewrite E. unfold set_stage_data. destruct (is_known_stage stage) eqn:Hk; [|done]. cbn [negb]. unfold catch_mdbx.
  destruct (with_cursor _ _ _) as [[[]|[]| |] [t2 h2]] eqn:Hw; try done. intros [= <- <-].
  apply with_upsert_run in Hw as (Hs & Hc & He & Hr). unfold store_big_u32 in He. rewrite intx_be_store_spec in He. done.
Qed.

Lemma write_schema_version_returns v prev t h t' h' :
  version_ok v → is_readonly t = false → schema_version (maps t) = Return prev →
  write_schema_version v (t, h) = (Return tt, (t', h')) →
  keeps_tables t t' ∧ schema_version (maps t') = Return (Some v) ∧
  ∀ n k, n ≠ chars "Config" → entry (maps t') n k = entry (maps t) n k.
Proof.
  intros Hv Hro Hprev. unfold write_schema_version. cbv beta iota delta [mbind db_bind get_txn fst]. rewrite Hro.
  destruct (read_schema_version_run t h) as [(t1 & h1 & -> & Ho & Hrd)|(_ & _ & x & t1 & h1 & _ & _ & ->)]; [|done].
  rewrite Hprev. cbv beta iota. pose proof (schema_version_same t t1 (proj1 (proj2 Ho))) as Hs.
  destruct (optional_order v prev) as [Heq _]. pose proof Ho as (_ & He & Hk & Hr).
  destruct (equals_optional v prev).
  { run_db. intros [= <- <-]. subst prev. split; [done|]. split; [congruence|]. intros n k _. apply He. }
  destruct (less_than_optional v prev); [run_db; done|]. cbv zeta. intros Hw.
  pose proof (write_version_value v t t1 h1 Hv Ho Hrd) as Hval. rewrite Hw in Hval. destruct Hval as [_ Hval].
  apply with_upsert_run in Hw as (Hs' & _ & He' & Hr'). split; [split; [auto|congruence]|]. split; [done|].
  intros n k Hn. rewrite He', decide_False; [done|]. by intros [? _].
Qed.

(** ** The session *)

Definition record : Type := bool * list byte * Z.

Fixpoint write_records (ws : list record) : db T unit :=
  match ws with
  | [] => mret tt
  | (prune, stage, b) :: ws => _ ← write_progress prune stage b; write_records ws
  end.

Definition session (v : Version) (ws : list record) : db T unit :=
  _ ← deploy_tables kChainDataTables;
  _ ← write_schema_version v;
  write_records ws.

(** The progress of a stage after the records: the last of its own. *)
Definition last_progress (prune : bool) (stage : list byte) (before : outcome db_error Z) (ws : list record) :
    outcome db_error Z :=
  fold_left (λ r '(p, s, b), if decide (prune = p ∧ stage = s) then Return b else r) ws before.

Lemma write_records_returns ws t h t' h' :
  Forall (λ w, in_range 32 w.2) ws → write_records ws (t, h) = (Return tt, (t', h')) →
  keeps_tables t t' ∧ (∀ n k, n ≠ chars "Stages" → entry (maps t') n k = entry (maps t) n k) ∧
  ∀ prune stage, is_known_stage stage = true →
    progress (maps t') prune stage = last_progress prune stage (progress (maps t) prune stage) ws.
Proof.
  intros Hws. revert t h. induction Hws as [|[[p s] b] ws Hb _ IH]; intros t h; cbn [write_records].
  { run_db. by intros [= <- <-]. }
  cbv beta iota delta [mbind db_bind].
  destruct (write_progress p s b (t, h)) as [[[]|x| |] [t1 h1]] eqn:Hw; try done.
  apply write_progress_returns in Hw as (Hk & Hkt & _ & He). intros Hrest.
  destruct (IH t1 h1 Hrest) as (Hkt' & He' & Hp). split; [by eapply keeps_tables_trans|]. split.
  - intros n k Hn. rewrite He' by done. rewrite He, decide_False; [done|]. by intros [? _].
  - intros prune stage Hst. rewrite Hp by done. cbn [last_progress fold_left]. f_equal.
    unfold progress. rewrite He. destruct (decide (prune = p ∧ stage = s)) as [[-> ->]|Hne].
    + rewrite decide_True, length_be_bytes by done. cbn [Nat.eqb]. by rewrite be_value_small.
    + rewrite decide_False; [done|]. intros [_ Hkey]. apply Hne. by apply stage_key_inj.
Qed.

(** What the transaction of a session holds when it returns. *)
Lemma session_returns v ws prev t h t' h' :
  version_ok v → Forall (λ w, in_range 32 w.2) ws → is_readonly t = false → schema_version (maps t) = Return prev →
  session v ws (t, h) = (Return tt, (t', h')) →
  is_readonly t' = false ∧ is_Some (maps t' !! chars "Config") ∧ is_Some (maps t' !! chars "Headers") ∧
  is_Some (maps t' !! chars "Stages") ∧ (∀ n, is_Some (maps t !! n) → is_Some (maps t' !! n)) ∧
  (∀ n k, n ≠ chars "Config" → n ≠ chars "Stages" → entry (maps t') n k = entry (maps t) n k) ∧
  schema_version (maps t') = Return (Some v) ∧
  ∀ prune stage, is_known_stage stage = true →
    progress (maps t') prune stage = last_progress prune stage (progress (maps t) prune stage) ws.
Proof.
  intros Hv Hws Hro Hprev. unfold session. cbv beta iota delta [mbind db_bind].
  pose proof (deploy_tables_complete kChainDataTables t h) as Hdep.
  destruct (deploy_tables kChainDataTables (t, h)) as [[[]|x| |] [t1 h1]]; try done.
  rewrite Hro in Hdep. destruct Hdep as [(He & Hk1 & Hr) Hall].
  pose proof (schema_version_same t t1 He) as Hv1. rewrite Hprev in Hv1.
  destruct (write_schema_version v (t1, h1)) as [[[]|x| |] [t2 h2]] eqn:Hw; try done.
  apply (write_schema_version_returns v prev) in Hw as ([Hk2 Hr2] & Hv2 & He2); [|done|congruence|done].
  intros (Hk3 & He3 & Hp)%write_records_returns; [|done]. destruct Hk3 as [Hk3 Hr3].
  split; [congruence|]. split; [by apply Hk3, Hk2, (Hall kConfig); left|].
  split; [by apply Hk3, Hk2, (Hall kHeaders); right; left|].
  split; [by apply Hk3, Hk2, (Hall kSyncStageProgress); right; right; left|].
  split; [auto|]. split; [intros n k Hn Hn'; by rewrite He3, He2, He|]. split.
  - rewrite <- Hv2. unfold schema_version. by rewrite He3.
  - intros prune stage Hst. rewrite Hp by done. f_equal. unfold progress. by rewrite He2, He.
Qed.

(** What reading gives: what the tables hold, unless there is no cursor. *)
Lemma read_progress_gives prune stage t h :
  is_known_stage stage = true →
  (∃ st, read_progress prune stage (t, h) = (progress (maps t) prune stage, st)) ∨
  no_cursor kSyncStageProgress t ∧ ∃ st, read_progress prune stage (t, h) = (Throw runtime_error, st).
Proof.
  intros Hk. destruct (read_progress_run prune stage t h Hk) as (r & t' & h' & -> & _ & [->|(-> & Hno & _)]);
    [left; by eexists|right; split; [done|by eexists]].
Qed.
Lemma read_schema_version_gives t h :
  (∃ st, read_schema_version (t, h) = (schema_version (maps t), st)) ∨
  no_cursor kConfig t ∧ ∃ x st, read_schema_version (t, h) = (Throw x, st).
Proof.
  destruct (read_schema_version_run t h) as [(t' & h' & -> & _)|(_ & Hno & x & t' & h' & _ & _ & ->)];
    [left; by eexists|right; split; [done|by eexists _, _]].
Qed.
End writes.

Section sessions.
Context `{MdbxEnvTxn E T, Intx}.

(** C26: what a session in a read-write transaction has done, once committed,
    is there for a read-only transaction begun after it: the three tables [Config], [Headers]
    and [Stages], whether they were there before or not, and every other table
    there was, with what it held; the schema version written, which is what
    reading it gives; and for each stage, forward and prune apart, the last
    progress recorded or, without a record, the progress there was before,
    which is what reading it gives. (Reading throws when the library gives the
    later transaction no cursor.) *)
Theorem session_persists v ws prev (txn txn' ro : RWTxn) env env' ext t h t' h' renew :
  version_ok v → Forall (λ w, in_range 32 w.2) ws → schema_version (committed env) = Return prev →
  new_RWTxn env = Return txn → deref txn ext = Some t →
  session v ws (t, h) = (Return tt, (t', h')) →
  commit (mk_RWTxn None (Some t')) renew env = Return (txn', env') →
  new_ROTxn env' = Return ro →
  ∃ t2, deref ro ext = Some t2 ∧ is_readonly t2 = true ∧
    (∀ n, n ∈ chars <$> ["Config"; "Headers"; "Stages"]%string ∨ is_Some (committed env !! n) →
       is_Some (maps t2 !! n)) ∧
    (∀ n k, n ≠ chars "Config" → n ≠ chars "Stages" → entry (maps t2) n k = entry (committed env) n k) ∧
    ∀ h2,
      ((∃ st, read_schema_version (t2, h2) = (Return (Some v), st)) ∨
       no_cursor kConfig t2 ∧ ∃ x st, read_schema_version (t2, h2) = (Throw x, st)) ∧
      ∀ prune stage, is_known_stage stage = true →
        (∃ st, read_progress prune stage (t2, h2) =
           (last_progress prune stage (progress (committed env) prune stage) ws, st)) ∨
        no_cursor kSyncStageProgress t2 ∧
        ∃ st, read_progress prune stage (t2, h2) = (Throw runtime_error, st).
Proof.
  intros Hv Hws Hprev Hnew Hd Hs Hc.
  apply bind_Return in Hnew as (t0 & [Hm0 Hr0]%start_write_spec & [= <-]). cbn in Hd. injection Hd as ->.
  rewrite <- Hm0 in Hprev |- *.
  destruct (session_returns v ws prev t h t' h' Hv Hws Hr0 Hprev Hs)
    as (Hr' & Hcfg & Hhdr & Hstg & Hall & Hsame & Hsv & Hp).
  destruct (commit_persists (mk_RWTxn None (Some t')) txn' renew env env' ext t' eq_refl Hr' Hc) as [Hcom _].
  intros (t2 & [Hm2 Hr2]%start_read_spec & [= <-])%bind_Return. exists t2. rewrite Hcom in Hm2. rewrite Hm2.
  split; [done|]. split; [done|]. split; [|split; [exact Hsame|]].
  - intros n [Hn|Hn]; [|by apply Hall]. cbn in Hn. rewrite !elem_of_cons in Hn.
    destruct Hn as [->|[->|[->|[]%not_elem_of_nil]]]; done.
  - intros h2. split.
    + rewrite <- Hsv, <- Hm2. apply read_schema_version_gives.
    + intros prune stage Hst. rewrite <- Hp, <- Hm2 by done. by apply read_progress_gives.
Qed.
End sessions.

(** ** Witness *)

(** Two records of one stage and one of its prune progress, in an empty
    environment. *)
Definition some_records : list record := [(false, kHeadersKey, 7); (true, kHeadersKey, 3); (false, kHeadersKey, 9)].

Lemma session_persists_witness :
  let no_handles := mk_handles (H := ref_mdbx_txn) [] ∅ in
  ∃ st' t2, session (H := ref_mdbx_txn) (H0 := intx_reference) kRequiredSchemaVersion some_records
      (mk_ref_txn ∅ false 1, no_handles) = (Return tt, st') ∧
    is_Some (maps (MdbxTxn := ref_mdbx_txn) t2 !! chars "Headers") ∧
    ∃ st, read_progress (H := ref_mdbx_txn) (H0 := intx_reference) false kHeadersKey (t2, no_handles) = (Return 9, st).
Proof.
  intros no_handles.
  destruct (session (H := ref_mdbx_txn) (H0 := intx_reference) kRequiredSchemaVersion some_records
      (mk_ref_txn ∅ false 1, no_handles)) as [r [t' h']] eqn:E.
  assert (Hr : r = Return tt) by (apply (f_equal fst) in E; cbn [fst] in E; rewrite <- E; vm_compute; reflexivity).
  subst r. exists (t', h').
  edestruct (session_persists (H := ref_mdbx_txn) (H0 := ref_mdbx_env_txn) (H1 := intx_reference) kRequiredSchemaVersion
    some_records None (mk_RWTxn None (Some (mk_ref_txn ∅ false 1))) (mk_RWTxn None None)
    (mk_RWTxn None (Some (mk_ref_txn (ref_maps t') true 1))) ∅ (ref_maps t') ∅ (mk_ref_txn ∅ false 1)
    no_handles t' h' false) as (t2 & Hd & _ & Htbl & _ & Hp).
  - unfold version_ok, in_range; cbn; lia.
  - repeat apply Forall_cons_2; [unfold in_range; cbn; lia..|by apply Forall_nil].
  - reflexivity.
  - reflexivity.
  - reflexivity.
  - exact E.
  - reflexivity.
  - reflexivity.
  - exists t2. split; [reflexivity|]. split; [apply Htbl; left; right; left|].
    destruct (Hp no_handles) as [_ Hp'].
    destruct (Hp' false kHeadersKey eq_refl) as [Hr|[Hno _]]; [exact Hr|].
    (* the library of the instance gives every transaction its cursors *)
    exfalso. injection Hd as <-. destruct Hno as [[Ho|(t3 & c & l & Ho & Hb)]|[l Hl]].
    + unfold opening in Ho. cbn in Ho. rewrite decide_True in Ho; [discriminate|].
      apply (Htbl (chars "Stages")). left. right. right. left.
    + by apply Hb.
    + done.
Defined.
