(* ===== verification/StopWatch.v ===== *)
(** * The stopwatch

    Models [src/zen/node/common/stopwatch.hpp] and [stopwatch.cpp]. A time
    point is its distance in nanoseconds from the clock's epoch, and an
    operation that reads the clock takes the reading as an argument. *)
From S2P Require Import Prelude Base Digits.
Local Open Scope Z_scope.

(** ** The watch *)

Record StopWatch := mk_StopWatch {
  started_ : bool;
  start_time_ : Z;
  laps_ : list (Z * Z)
}.
Definition new_StopWatch : StopWatch := mk_StopWatch false 0 [].

Definition lap (this : StopWatch) (now : Z) : StopWatch * (Z * Z) :=
  if negb (started_ this) then (this, (0, 0)) else
  match last (laps_ this) with
  | None => (this, (0, 0))
  | Some (t, _) =>
      let lap := (now, now - t) in
      (mk_StopWatch (started_ this) (start_time_ this) (laps_ this ++ [lap]), lap)
  end.

Definition stop (this : StopWatch) (now : Z) : StopWatch * (Z * Z) :=
  if negb (started_ this) then (this, (0, 0)) else
  let '(this, ret) := lap this now in
  (mk_StopWatch false (start_time_ this) (laps_ this), ret).

Definition reset (this : StopWatch) (now : Z) : StopWatch :=
  let '(this, _) := stop this now in
  mk_StopWatch (started_ this) 0 [].

Definition start (this : StopWatch) (with_reset : bool) (now : Z) : StopWatch * Z :=
  let this := if with_reset then reset this now else this in
  if started_ this then (this, start_time_ this) else
  let start_time := if start_time_ this =? 0 then now else start_time_ this in
  let lap := match last (laps_ this) with
             | Some (t, _) => (start_time, start_time - t)
             | None => (start_time, 0)
             end in
  (mk_StopWatch true start_time (laps_ this ++ [lap]), start_time).

Definition since_start (this : StopWatch) (origin : Z) : Z :=
  if start_time_ this =? 0 then 0 else origin - start_time_ this.

(** ** format *)

Definition kSecond : Z := 1000000000.

Definition format (duration : Z) : list byte :=
  if 60 * kSecond <=? duration then
    let d := duration / (86400 * kSecond) in
    let '(os, duration, need_space) :=
      if negb (d =? 0) then (dec d ++ chars "d", duration - d * (86400 * kSecond), true)
      else ([], duration, false) in
    let h := duration / (3600 * kSecond) in
    let '(os, duration, need_space) :=
      if negb (h =? 0) then
        (os ++ (if need_space then chars " " else []) ++ dec h ++ chars "h",
         duration - h * (3600 * kSecond), true)
      else (os, duration, need_space) in
    let m := duration / (60 * kSecond) in
    let '(os, duration, need_space) :=
      if negb (m =? 0) then
        (os ++ (if need_space then chars " " else []) ++ dec m ++ chars "m",
         duration - m * (60 * kSecond), true)
      else (os, duration, need_space) in
    let s := duration / kSecond in
    if negb (s =? 0) then os ++ (if need_space then chars " " else []) ++ dec s ++ chars "s" else os
  else if kSecond <=? duration then
    let s := duration / kSecond in
    let duration := duration - s * kSecond in
    let ms := duration / 1000000 in
    dec s ++ (if negb (ms =? 0) then chars "." ++ fixed_digits 3 ms else []) ++ chars "s"
  else if 1000000 <=? duration then
    let ms := duration / 1000000 in
    let duration := duration - ms * 1000000 in
    let us := duration / 1000 in
    dec ms ++ (if negb (us =? 0) then chars "." ++ fixed_digits 3 us else []) ++ chars "ms"
  else if 1000 <=? duration then
    let us := duration / 1000 in dec us ++ chars "us"
  else [].

Example format_units :
  format (255 * 3600 * kSecond + 12 * 60 * kSecond + 14 * kSecond) = chars "10d 15h 12m 14s" ∧
  format (240 * 3600 * kSecond + 14 * kSecond) = chars "10d 14s" ∧
  format (1200 * 1000000) = chars "1.200s" ∧ format (1010 * 1000) = chars "1.010ms" ∧
  format (20 * 1000) = chars "20us" ∧ format 999 = [].
Proof. vm_compute. done. Qed.

(** ** What the laps are *)

(** The operations that change a watch, each with a reading of the clock. *)
Inductive op := Start (with_reset : bool) | Lap | Stop | Reset.
Definition run (this : StopWatch) (o : op * Z) : StopWatch :=
  let '(o, now) := o in
  match o with
  | Start with_reset => (start this with_reset now).1
  | Lap => (lap this now).1
  | Stop => (stop this now).1
  | Reset => reset this now
  end.
Definition runs (this : StopWatch) (os : list (op * Z)) : StopWatch := fold_left run os this.

(** Each lap lasts from the one before it; the first is the start. *)
Definition chained (start_time : Z) (l : list (Z * Z)) : Prop :=
  (∀ d, head l = Some d → d = (start_time, 0)) ∧
  ∀ i t d t' d', l !! i = Some (t, d) → l !! S i = Some (t', d') → d' = t' - t.

Lemma chained_snoc s l t' :
  l ≠ [] → chained s l →
  ∀ t d, last l = Some (t, d) → chained s (l ++ [(t', t' - t)]).
Proof.
  intros Hne [Hh Hc] t d Hl. split.
  - intros x Hx. apply Hh. by destruct l.
  - intros i t1 d1 t2 d2 H1 H2. destruct (decide (S i < length l)%nat) as [Hlt|Hge].
    + rewrite lookup_app_l in H1, H2 by lia. by eapply Hc.
    + assert (S i = length l).
      { apply lookup_lt_Some in H2. rewrite length_app in H2. cbn in H2. lia. }
      rewrite lookup_app_r in H2 by lia. replace (S i - length l)%nat with 0%nat in H2 by lia.
      injection H2 as <- <-. rewrite lookup_app_l in H1 by lia.
      rewrite last_lookup in Hl. replace (pred (length l)) with i in Hl by lia. congruence.
Qed.

Record watch_ok (this : StopWatch) : Prop := {
  ok_chained : chained (start_time_ this) (laps_ this);
  ok_started : started_ this = true → laps_ this ≠ [];
  ok_unset : start_time_ this = 0 ↔ laps_ this = []
}.

Lemma lap_ok this now : 0 < now → watch_ok this → watch_ok (lap this now).1.
Proof.
  intros Hn Hok. pose proof Hok as [Hc Hs Hu]. unfold lap.
  destruct (started_ this) eqn:Est; cbn [negb fst]; [|exact Hok].
  destruct (last (laps_ this)) as [[t d]|] eqn:El; cbn [fst]; [|exact Hok].
  split; cbn.
  - eapply chained_snoc; [by apply Hs|done|done].
  - intros _ [_ ?]%app_nil. done.
  - rewrite Hu. split; [intros Hl; by rewrite Hl in El|intros [? ?]%app_nil; done].
Qed.

Lemma stop_ok this now : 0 < now → watch_ok this → watch_ok (stop this now).1.
Proof.
  intros Hn Hok. unfold stop. destruct (started_ this); [|done]. cbn [negb].
  pose proof (lap_ok this now Hn Hok) as [Hc Hs Hu]. destruct (lap this now) as [w r]. by split.
Qed.

Lemma stop_stops this now : started_ (stop this now).1 = false.
Proof.
  unfold stop. destruct (started_ this) eqn:E; cbn [negb]; [by destruct (lap this now)|done].
Qed.

Lemma reset_new this now : reset this now = new_StopWatch.
Proof.
  unfold reset. pose proof (stop_stops this now) as Hs. destruct (stop this now) as [w r].
  cbn in Hs. by rewrite Hs.
Qed.

Lemma new_ok : watch_ok new_StopWatch.
Proof. by split. Qed.

Lemma start_ok this with_reset now : 0 < now → watch_ok this → watch_ok (start this with_reset now).1.
Proof.
  intros Hn Hok. unfold start. rewrite reset_new. set (w := if with_reset then _ else _).
  assert (Hw : watch_ok w) by (unfold w; destruct with_reset; [apply new_ok|done]).
  clearbody w. clear this Hok. pose proof Hw as [Hc Hs Hu].
  destruct (started_ w) eqn:Est; cbn [fst]; [exact Hw|].
  destruct (last (laps_ w)) as [[t d]|] eqn:El.
  - assert (Hne : laps_ w ≠ []) by (intros Hl; by rewrite Hl in El).
    destruct (Z.eqb_spec (start_time_ w) 0) as [E|E]; [by apply Hu in E|].
    split; cbn; [by eapply chained_snoc| |].
    + intros _ [_ ?]%app_nil. done.
    + split; [done|intros [_ ?]%app_nil; done].
  - assert (Hl : laps_ w = []) by by apply last_None. rewrite Hl.
    destruct (Z.eqb_spec (start_time_ w) 0) as [E|E]; [|by apply Hu in Hl].
    split; cbn; [|done|by split; [lia|]]. split; [by intros d [= <-]|].
    intros i ? ? ? ? _ Hi. by destruct i.
Qed.

Lemma run_ok this o now : 0 < now → watch_ok this → watch_ok (run this (o, now)).
Proof.
  intros Hn Hok. destruct o; cbn [run].
  - by apply start_ok.
  - by apply lap_ok.
  - by apply stop_ok.
  - rewrite reset_new. apply new_ok.
Qed.

(** The durations of chained laps add up. *)
Lemma chained_sum s l t d :
  chained s l → last l = Some (t, d) → foldr Z.add 0 (snd <$> l) = t - s.
Proof.
  revert t d. induction l as [|[t1 d1] l IH] using rev_ind; intros t d Hc Hl; [done|].
  rewrite last_snoc in Hl. injection Hl as -> ->.
  rewrite fmap_app, foldr_app. cbn. rewrite Z.add_0_r. destruct Hc as [Hh Hc].
  destruct (last l) as [[t2 d2]|] eqn:El.
  - assert (Hd : d = t - t2).
    { rewrite last_lookup in El. apply (Hc (pred (length l)) t2 d2 t d).
      - rewrite lookup_app_l; [done|]. by apply lookup_lt_Some in El.
      - rewrite lookup_app_r by lia. apply lookup_lt_Some in El.
        by replace (S (pred (length l)) - length l)%nat with 0%nat by lia. }
    assert (Hs : ∀ x (k : list Z), foldr Z.add x k = x + foldr Z.add 0 k)
      by (intros x k; induction k as [|y k IHk]; cbn; lia).
    rewrite Hs, (IH t2 d2); [lia| |done]. split.
    + intros x Hx. apply Hh. by destruct l.
    + intros i t0 d0 t' d' H1 H2. apply (Hc i t0 d0); by apply lookup_app_l_Some.
  - apply last_None in El as ->. cbn. specialize (Hh (t, d) eq_refl). injection Hh as -> ->. lia.
Qed.

(** Whatever is done with a watch while its clock runs, each recorded lap
    lasts from the one before it, the first being the start, so the durations
    of the laps add up to the time since the start at the last of them; a
    watch that runs has a lap, and resetting it leaves a new one. *)
Theorem laps_add_up (os : list (op * Z)) :
  Forall (λ o, 0 < o.2) os →
  let this := runs new_StopWatch os in
  chained (start_time_ this) (laps_ this) ∧ (started_ this = true → laps_ this ≠ []) ∧
  (∀ t d, last (laps_ this) = Some (t, d) → foldr Z.add 0 (snd <$> laps_ this) = since_start this t) ∧
  ∀ now, reset this now = new_StopWatch.
Proof.
  intros Hos this. assert (Hok : watch_ok this).
  { unfold this, runs. generalize new_ok. generalize new_StopWatch.
    induction Hos as [|[o now] os Hn _ IH]; intros w Hw; [done|]. by apply IH, run_ok. }
  split; [apply Hok|]. split; [apply Hok|]. split; [|intros now; apply reset_new].
  intros t d Hl. rewrite (chained_sum _ _ _ _ (ok_chained _ Hok) Hl). unfold since_start.
  destruct (Z.eqb_spec (start_time_ this) 0) as [E|E]; [|done].
  apply Hok in E. by rewrite E in Hl.
Qed.

(** Starting a stopped watch again records the old start as a lap, of a
    negative duration. *)
Lemma restart_lap_negative :
  laps_ (runs new_StopWatch [(Start false, 10); (Stop, 30); (Start false, 50); (Lap, 60)])
  = [(10, 0); (30, 20); (10, -20); (60, 50)].
Proof. reflexivity. Qed.

Lemma laps_add_up_witness :
  Forall (λ o, 0 < o.2) [(Start false, 10); (Lap, 30); (Stop, 45)] ∧
  foldr Z.add 0 (snd <$> laps_ (runs new_StopWatch [(Start false, 10); (Lap, 30); (Stop, 45)])) = 35.
Proof.
  assert (Hf : Forall (λ o, 0 < o.2) [(Start false, 10); (Lap, 30); (Stop, 45)])
    by (repeat constructor; cbn; lia).
  split; [exact Hf|].
  destruct (laps_add_up [(Start false, 10); (Lap, 30); (Stop, 45)] Hf) as (_ & _ & Hsum & _).
  exact (Hsum 45 15 eq_refl).
Defined.

(** ** What a formatted duration says *)

Fixpoint join (sep : list byte) (l : list (list byte)) : list byte :=
  match l with [] => [] | [x] => x | x :: l => x ++ sep ++ join sep l end.

(** A count of a unit, nothing when it is zero. *)
Definition count_of (n : Z) (u : string) : list (list byte) :=
  if n =? 0 then [] else [dec n ++ chars u].

(** A count of a unit with its thousandths, these in three digits and left out
    when zero. *)
Definition thousandths_of (n k : Z) (u : string) : list byte :=
  dec n ++ (if k =? 0 then [] else chars "." ++ fixed_digits 3 k) ++ chars u.

Lemma time_fields d :
  let seconds := d / kSecond in
  d - d / (86400 * kSecond) * (86400 * kSecond) = d mod (86400 * kSecond) ∧
  (d mod (86400 * kSecond)) / (3600 * kSecond) = seconds / 3600 mod 24 ∧
  d mod (86400 * kSecond) - (d mod (86400 * kSecond)) / (3600 * kSecond) * (3600 * kSecond)
    = d mod (3600 * kSecond) ∧
  (d mod (3600 * kSecond)) / (60 * kSecond) = seconds / 60 mod 60 ∧
  d mod (3600 * kSecond) - (d mod (3600 * kSecond)) / (60 * kSecond) * (60 * kSecond)
    = d mod (60 * kSecond) ∧
  (d mod (60 * kSecond)) / kSecond = seconds mod 60.
Proof. unfold kSecond. cbv zeta. repeat split; lia. Qed.

(** A field of the text, and what is left of the duration after it. *)
Lemma field_step {A} (os1 os2 : A) n u duration rest b :
  duration - n * u = rest →
  (if negb (n =? 0) then (os1, duration - n * u, true) else (os2, duration, b)) =
  (if n =? 0 then os2 else os1, rest, negb (n =? 0) || b).
Proof. intros <-. destruct (Z.eqb_spec n 0) as [->|]; [|done]. cbn. f_equal. f_equal. lia. Qed.

(** A duration of a minute or more is written as its days, hours, minutes
    and seconds, zero ones left out, the fraction of a second cut; a shorter
    one as seconds, milliseconds or microseconds with at most three decimals;
    one below a microsecond as nothing. *)
Theorem format_fields (d : Z) :
  format d =
    if 60 * kSecond <=? d then
      let seconds := d / kSecond in
      join (chars " ")
        (count_of (seconds / 86400) "d" ++ count_of (seconds / 3600 mod 24) "h" ++
         count_of (seconds / 60 mod 60) "m" ++ count_of (seconds mod 60) "s")
    else if kSecond <=? d then thousandths_of (d / kSecond) (d / 1000000 mod 1000) "s"
    else if 1000000 <=? d then thousandths_of (d / 1000000) (d / 1000 mod 1000) "ms"
    else if 1000 <=? d then dec (d / 1000) ++ chars "us"
    else [].
Proof.
  unfold format. destruct (60 * kSecond <=? d); [|destruct (kSecond <=? d); [|destruct (1000000 <=? d)]].
  - cbv zeta. destruct (time_fields d) as (E1 & E2 & E3 & E4 & E5 & E6). cbv zeta in *.
    replace (d / kSecond / 86400) with (d / (86400 * kSecond))
      by (rewrite (Z.mul_comm 86400), Z.div_div by done; done).
    rewrite (field_step _ _ _ _ _ _ _ E1). cbv beta iota. rewrite E2 in E3 |- *.
    rewrite (field_step _ _ _ _ _ _ _ E3). cbv beta iota. rewrite E4 in E5 |- *.
    rewrite (field_step _ _ _ _ _ _ _ E5). cbv beta iota. rewrite E6. unfold count_of.
    destruct (_ =? 0), (_ =? 0), (_ =? 0), (_ =? 0); cbn [negb orb app join];
      rewrite <-?app_assoc; reflexivity.
  - unfold thousandths_of. cbv zeta. replace ((d - d / kSecond * kSecond) / 1000000) with (d / 1000000 mod 1000)
      by (unfold kSecond; lia).
    by destruct (_ =? 0).
  - unfold thousandths_of. cbv zeta. replace ((d - d / 1000000 * 1000000) / 1000) with (d / 1000 mod 1000) by lia.
    by destruct (_ =? 0).
  - done.
Qed.
