(* ===== verification/Misc.v ===== *)
(** * Sizes and strings for people

    Models [abridge], [parse_human_bytes] and [get_random_alpha_string] of
    [src/zen/core/common/misc.cpp]. The regular expression is a matcher: its
    parts cannot start alike, so the greedy reading is the only one. *)
From S2P Require Import Prelude Base Digits.
Local Open Scope Z_scope.

Definition abridge (input : list byte) (length_ : nat) : list byte :=
  if (length_ =? 0)%nat || bool_decide (input = []) then input
  else if (length input <=? length_)%nat then input
  else take length_ input ++ chars "...".

(** [std::tolower] in the classic locale. *)
Definition to_lower (b : byte) : byte :=
  if (65 <=? Z_of_byte b) && (Z_of_byte b <=? 90) then byte_of_Z (Z_of_byte b + 32) else b.
Definition iequals (a b : list byte) : bool := bool_decide (to_lower <$> a = to_lower <$> b).

Definition dot : byte := byte_of_Z 46.
Definition space : byte := byte_of_Z 32.

Fixpoint drop_spaces (s : list byte) : list byte :=
  match s with
  | c :: s' => if bool_decide (c = space) then drop_spaces s' else s
  | [] => []
  end.

(** [^(\d{0,10})(\.\d{1,3})?\ *?(B|KB|MB|GB|TB|KiB|MiB|GiB|TiB)?$], case
    insensitive: the three captures. *)
Definition bytes_suffixes : list (list byte) :=
  chars <$> ["B"; "KB"; "MB"; "GB"; "TB"; "KiB"; "MiB"; "GiB"; "TiB"]%string.
Definition match_bytes (input : list byte) : option (list byte * list byte * list byte) :=
  let '(whole, rest) := take_digits 10 input in
  let '(fract, rest) :=
    match rest with
    | c :: rest' =>
        if bool_decide (c = dot) then
          match take_digits 3 rest' with
          | ([], _) => ([], rest)
          | (f, rest') => (c :: f, rest')
          end
        else ([], rest)
    | [] => ([], rest)
    end in
  let suffix := drop_spaces rest in
  if bool_decide (suffix = []) || existsb (iequals suffix) bytes_suffixes
  then Some (whole, fract, suffix) else None.

Definition suffix_multiplier (suffix : list byte) : Z :=
  if iequals suffix (chars "KB") then kKB
  else if iequals suffix (chars "MB") then kMB
  else if iequals suffix (chars "GB") then kGB
  else if iequals suffix (chars "TB") then kTB
  else if iequals suffix (chars "KiB") then kKiB
  else if iequals suffix (chars "MiB") then kMiB
  else if iequals suffix (chars "GiB") then kGiB
  else if iequals suffix (chars "TiB") then kTiB
  else 1.

(** The loop that computes the power of ten of the decimal places. *)
Definition fract_base (size : nat) : Z :=
  Nat.iter (size - 1) (λ base, u32 (base * 10)) 10.

Definition parse_human_bytes (input : list byte) : expected DecodingError Z :=
  if bool_decide (input = []) then Ok 0 else
  match match_bytes input with
  | None => Unexpected kInvalidInput
  | Some (whole_part, fract_part, suffix) =>
      let fract_part := match fract_part with [] => [] | _ :: f => f end in
      let multiplier := suffix_multiplier suffix in
      let value := dec_value whole_part in
      let value := u64 (value * multiplier) in
      if (1 <? multiplier) && negb (bool_decide (fract_part = [])) then
        let base := fract_base (length fract_part) in
        let fract := dec_value fract_part in
        Ok (u64 (value + u64 (multiplier * fract) / base))
      else Ok value
  end.

(** The characters, given the numbers the random engine draws. *)
Definition kAlphaNum : list byte := chars "0123456789abcdefghijklmnopqrstuvwxyz".
Definition get_random_alpha_string (draw : nat → nat) (length_ : nat) : list byte :=
  (λ i, default Byte.x00 (kAlphaNum !! draw i)) <$> seq 0 length_.

Example parse_human_bytes_examples :
  parse_human_bytes (chars "1.5 kib") = Ok 1536 ∧ parse_human_bytes (chars ".5MB") = Ok 500000 ∧
  parse_human_bytes (chars "12.345") = Ok 12 ∧ parse_human_bytes (chars "1. KB") = Unexpected kInvalidInput.
Proof. vm_compute. done. Qed.

(** ** The syntax and what it stands for *)

Definition suffix_value (suffix : list byte) : option Z :=
  if decide (suffix = []) then Some 1 else
  snd <$> List.find (λ e, iequals suffix e.1)
    (zip bytes_suffixes [1; 10 ^ 3; 10 ^ 6; 10 ^ 9; 10 ^ 12; 2 ^ 10; 2 ^ 20; 2 ^ 30; 2 ^ 40]).

(** Up to ten digits, up to three decimals after a dot, spaces, a unit. *)
Definition bytes_syntax (input whole fract suffix : list byte) : Prop :=
  ∃ n, digits whole ∧ (length whole ≤ 10)%nat ∧ digits fract ∧ (length fract ≤ 3)%nat ∧
  is_Some (suffix_value suffix) ∧
  input = whole ++ (if decide (fract = []) then [] else dot :: fract) ++ replicate n space ++ suffix.

(** The number of bytes: the decimals are cut to whole bytes, and without a
    unit or in bytes they count nothing. *)
Definition bytes_value (whole fract suffix : list byte) : Z :=
  let m := default 1 (suffix_value suffix) in
  dec_value whole * m +
  if decide (1 < m) then m * dec_value fract / 10 ^ Z.of_nat (length fract) else 0.

Lemma lower_letter c :
  97 <= Z_of_byte (to_lower c) → is_digit c = false ∧ c ≠ dot ∧ c ≠ space.
Proof.
  intros Hl. assert (Hc : 58 <= Z_of_byte c).
  { unfold to_lower in Hl. destruct (_ && _) eqn:E; lia. }
  unfold is_digit. split; [lia|].
  split; intros ->; vm_compute in Hc; done.
Qed.

Lemma suffix_value_cases suffix m :
  suffix_value suffix = Some m →
  suffix_multiplier suffix = m ∧ 1 <= m <= 2 ^ 40 ∧
  ∀ c r, suffix = c :: r → is_digit c = false ∧ c ≠ dot ∧ c ≠ space.
Proof.
  unfold suffix_value. destruct (decide (suffix = [])) as [->|Hne].
  { intros [= <-]. split; [by vm_compute|]. split; [lia|done]. }
  unfold suffix_multiplier, iequals. intros Hm.
  assert (Hhead : ∀ c r, suffix = c :: r → head (to_lower <$> suffix) = Some (to_lower c))
    by by intros c r ->.
  assert (Hlet : suffix_multiplier suffix = m ∧ 1 <= m <= 2 ^ 40 ∧
    ∃ x, head (to_lower <$> suffix) = Some x ∧ 97 <= Z_of_byte x).
  { unfold suffix_multiplier, iequals. clear Hhead. revert Hm. generalize (to_lower <$> suffix).
    intros l. unfold bytes_suffixes. cbn [fmap list_fmap zip zip_with List.find fst snd]. intros Hm.
    repeat match type of Hm with
    | context [@bool_decide (l = ?x) ?d] =>
        destruct (@bool_decide (l = x) d) eqn:E in Hm |- *;
        [apply bool_decide_eq_true in E as ->; vm_compute in Hm; injection Hm as <-;
         split; [by vm_compute|]; split; [lia|]; eexists; split; [reflexivity|]; by vm_compute
        |clear E]
    end. by vm_compute in Hm. }
  destruct Hlet as (? & ? & x & Hx & Hge). split; [done|]. split; [done|].
  intros c r E. rewrite (Hhead c r E) in Hx. injection Hx as <-. by apply lower_letter.
Qed.

Lemma drop_spaces_app n s :
  (∀ c r, s = c :: r → c ≠ space) → drop_spaces (replicate n space ++ s) = s.
Proof.
  intros Hs. induction n as [|n IH]; cbn [replicate app drop_spaces]; [|by rewrite bool_decide_true].
  destruct s as [|c r]; [done|]. cbn. by rewrite bool_decide_false by by eapply Hs.
Qed.

Lemma drop_spaces_spec s : ∃ n, s = replicate n space ++ drop_spaces s.
Proof.
  induction s as [|c s [n IH]]; [by exists 0%nat|]. cbn [drop_spaces].
  destruct (bool_decide_reflect (c = space)) as [->|]; [|by exists 0%nat].
  exists (S n). cbn. by rewrite <-IH.
Qed.

Lemma suffix_accepted suffix :
  bool_decide (suffix = []) || existsb (iequals suffix) bytes_suffixes = true ↔
  is_Some (suffix_value suffix).
Proof.
  unfold suffix_value. destruct (decide (suffix = [])) as [->|Hne].
  { rewrite bool_decide_true by done. split; [intros _; by eexists|done]. }
  rewrite bool_decide_false by done. unfold bytes_suffixes.
  cbn [orb fmap list_fmap zip zip_with existsb List.find fst snd].
  repeat match goal with
  | |- context [iequals suffix ?x] => destruct (iequals suffix x) eqn:?; cbn [orb]; [split; [intros _; by eexists|done]|]
  end. split; [done|]. cbn. by intros [? ?].
Qed.

Definition fract_capture (fract : list byte) : list byte :=
  if decide (fract = []) then [] else dot :: fract.

Lemma match_bytes_complete input whole fract suffix :
  bytes_syntax input whole fract suffix → match_bytes input = Some (whole, fract_capture fract, suffix).
Proof.
  intros (n & Hw & Hlw & Hf & Hlf & Hs & ->). unfold match_bytes, fract_capture.
  pose proof Hs as [m Hm]. apply suffix_value_cases in Hm as (_ & _ & Hc).
  set (tail := replicate n space ++ suffix).
  assert (Htail : ∀ c r, tail = c :: r → is_digit c = false ∧ c ≠ dot).
  { unfold tail. intros c r. destruct n; cbn; [intros E; by apply Hc in E as (? & ? & _)|].
    by intros [= <- _]. }
  assert (Hdrop : drop_spaces tail = suffix)
    by (apply drop_spaces_app; intros c r E; by apply Hc in E as (_ & _ & ?)).
  apply suffix_accepted in Hs. destruct (decide (fract = [])) as [->|Hne].
  - cbn [app]. rewrite take_digits_app; [|done|done|intros c r E; by apply Htail in E as [? _]].
    destruct tail as [|c r] eqn:Et; [by rewrite Hdrop, Hs|].
    rewrite bool_decide_false by by eapply Htail. by rewrite Hdrop, Hs.
  - rewrite take_digits_app; [|done|done|by intros c r [= <- _]]. cbn [app].
    rewrite bool_decide_true by done.
    rewrite take_digits_app; [|done|done|intros c r E; by apply Htail in E as [? _]].
    destruct fract as [|b f]; [done|]. by rewrite Hdrop, Hs.
Qed.

Lemma match_bytes_sound input whole cap suffix :
  match_bytes input = Some (whole, cap, suffix) →
  ∃ fract, cap = fract_capture fract ∧ bytes_syntax input whole fract suffix.
Proof.
  unfold match_bytes. destruct (take_digits 10 input) as [w rest] eqn:E1.
  apply take_digits_spec in E1 as (-> & Hw & Hlw).
  set (p := match rest with [] => _ | _ :: _ => _ end).
  assert (Hp : ∃ fract, p.1 = fract_capture fract ∧ digits fract ∧ (length fract ≤ 3)%nat ∧
    rest = fract_capture fract ++ p.2).
  { assert (Hnil : digits [] ∧ (length (@nil byte) ≤ 3)%nat) by (split; [constructor|cbn; lia]).
    destruct Hnil. unfold p. destruct rest as [|c rest']; [by exists []|].
    destruct (bool_decide_reflect (c = dot)) as [->|]; [|by exists []].
    destruct (take_digits 3 rest') as [[|b f] r] eqn:E2; [by exists []|].
    apply take_digits_spec in E2 as (-> & Hf & Hlf). by exists (b :: f). }
  clearbody p. destruct p as [cap0 rest0]. destruct Hp as (fract & Hc & Hf & Hlf & Hr). cbn in Hc, Hr.
  destruct (bool_decide _ || _) eqn:Hs; [|done]. intros [= <- <- <-].
  exists fract. split; [done|]. destruct (drop_spaces_spec rest0) as [n Hn]. exists n.
  apply suffix_accepted in Hs. unfold fract_capture in Hr. split_and!; try done.
  by rewrite <-Hn, Hr.
Qed.

Lemma fract_base_value n : (1 <= n <= 3)%nat → fract_base n = 10 ^ Z.of_nat n.
Proof. intros Hn. assert (n = 1 ∨ n = 2 ∨ n = 3)%nat as [->|[->| ->]] by lia; done. Qed.

Lemma parse_human_bytes_value (input whole fract suffix : list byte) :
  bytes_syntax input whole fract suffix →
  parse_human_bytes input = Ok (u64 (bytes_value whole fract suffix)).
Proof.
  intros Hs. unfold parse_human_bytes.
  destruct (bool_decide_reflect (input = [])) as [->|_].
  { destruct Hs as (n & _ & _ & _ & _ & _ & E). symmetry in E.
    apply app_nil in E as [-> [E [_ ->]%app_nil]%app_nil]. by destruct (decide (fract = [])) as [->|]. }
  rewrite (match_bytes_complete _ _ _ _ Hs). destruct Hs as (n & Hw & Hlw & Hf & Hlf & [m Hm] & _).
  apply suffix_value_cases in Hm as Hc. destruct Hc as (-> & Hm1 & _).
  unfold bytes_value. rewrite Hm. change (default 1 (Some m)) with m.
  assert (Hcap : match fract_capture fract with [] => [] | _ :: f => f end = fract)
    by (unfold fract_capture; by destruct (decide (fract = [])) as [->|]).
  rewrite Hcap. pose proof (dec_value_bound _ Hf) as Hfb. destruct (decide (1 < m)) as [Hlt|Hge].
  + rewrite (proj2 (Z.ltb_lt _ _)) by done. cbn [andb].
    destruct (bool_decide_reflect (fract = [])) as [->|Hne]; cbn [negb].
    { change (dec_value []) with 0. rewrite Z.mul_0_r, Z.div_0_l, Z.add_0_r by done. done. }
    assert (1 <= length fract)%nat by (destruct fract; [done|cbn; lia]).
    rewrite fract_base_value by lia.
    assert (Hpow : 10 ^ Z.of_nat (length fract) <= 10 ^ 3) by (apply Z.pow_le_mono_r; lia).
    assert (E : u64 (m * dec_value fract) = m * dec_value fract) by (apply Z.mod_small; nia).
    rewrite E. unfold u64, wrap. by rewrite Zplus_mod_idemp_l.
  + rewrite (proj2 (Z.ltb_ge _ _)) by lia. cbn [andb]. by rewrite Z.add_0_r.
Qed.

(** C27: [parse_human_bytes] fails exactly on what is not up to ten digits, an
    optional dot with up to three decimals, spaces and an optional unit in any
    case; else it returns the number of bytes this stands for, modulo 2^64. *)
Theorem parse_human_bytes_spec (input : list byte) :
  (∀ whole fract suffix, bytes_syntax input whole fract suffix →
     parse_human_bytes input = Ok (u64 (bytes_value whole fract suffix))) ∧
  ((¬ ∃ whole fract suffix, bytes_syntax input whole fract suffix) →
     parse_human_bytes input = Unexpected kInvalidInput).
Proof.
  split.
  - apply parse_human_bytes_value.
  - intros Hno. unfold parse_human_bytes. destruct (bool_decide_reflect (input = [])) as [->|_].
    { exfalso. apply Hno. exists [], [], [], 0%nat. split_and!; try constructor; try done; cbn; lia. }
    destruct (match_bytes input) as [[[w c] s]|] eqn:E; [|done].
    apply match_bytes_sound in E as (f & _ & Hs). exfalso. apply Hno. by exists w, f, s.
Qed.

(** Ten digits of terabytes are more than 64 bits hold: the result is not the
    size but what is left of it. *)
Lemma parse_human_bytes_overflow :
  parse_human_bytes (chars "18446745TB") = Ok 926290448384 ∧ 18446745 * 10 ^ 12 = 2 ^ 64 + 926290448384.
Proof. split; vm_compute; reflexivity. Qed.
