(* ===== verification/HumanBytes.v ===== *)
(** * Sizes printed for people

    Models [to_human_bytes] of [src/zen/core/common/misc.cpp]. The code computes
    with doubles, and so does the model: a finite double that is not negative
    is a multiple of 2^-1074, the smallest one, and is represented by that
    multiple. A conversion or a division gives the nearest double, on a tie the
    one whose last bit is 0. The text of a number with so many decimals is
    Boost's: [FixedText] is its interface. *)
From Stdlib Require Import SpecFloat.
From S2P Require Import Prelude Base Digits Misc.
Local Open Scope Z_scope.

(** ** Doubles *)

(** The number 1, in units of 2^-1074. *)
Definition one : Z := 2 ^ 1074.

(** The integer nearest to [n / d]. *)
Definition half_even (n d : Z) : Z :=
  let q := n / d in
  match 2 * (n mod d) ?= d with
  | Lt => q
  | Gt => q + 1
  | Eq => if Z.even q then q else q + 1
  end.

(** The spacing of the doubles around [q] units is 2 to this power: 53 bits
    are kept, down to the smallest unit. *)
Definition spacing (q : Z) : Z := Z.max 0 (Z.log2 q - 52).

(** The double nearest to [n / d] units. *)
Definition rnd (n d : Z) : Z :=
  let e := spacing (n / d) in half_even n (d * 2 ^ e) * 2 ^ e.

(** [static_cast<double>], and the quotient by an integer below 2^53, which is
    a double itself. *)
Definition double_of (n : Z) : Z := rnd (n * one) 1.
Definition div_double (value divisor : Z) : Z := rnd value divisor.

(** Decimal notation of [h] units of 10^-p. *)
Definition decimal_text (p : nat) (h : Z) : list byte :=
  match p with
  | O => dec h
  | _ => dec (h / 10 ^ Z.of_nat p) ++ dot :: fixed_digits p (h mod 10 ^ Z.of_nat p)
  end.

(** "%.<p>f" of [boost::format]: the decimal number with [p] decimals that is
    nearest to the double; of two, either. *)
Class FixedText := {
  fixed_text : nat → Z → list byte;
  fixed_text_nearest : ∀ p v, 0 <= v →
    ∃ h, fixed_text p v = decimal_text p h ∧ 2 * Z.abs (h * one - v * 10 ^ Z.of_nat p) <= one;
}.

(** ** The function *)

Definition suffixes : list (list byte) := chars <$> ["B"; "KB"; "MB"; "GB"; "TB"]%string.
Definition binary_suffixes : list (list byte) := chars <$> ["B"; "KiB"; "MiB"; "GiB"; "TiB"]%string.
Definition units (binary : bool) : list (list byte) := if binary then binary_suffixes else suffixes.
Definition divisor_of (binary : bool) : Z := if binary then kKiB else kKB.

(** [while (value >= divisor && index < suffixes.size())]; [more] is how many
    times [index] is still below the number of suffixes. *)
Fixpoint unit_loop (divisor : Z) (more : nat) (value : Z) (index : nat) : Z * nat :=
  match more with
  | O => (value, index)
  | S more =>
      if divisor * one <=? value then unit_loop divisor more (div_double value divisor) (S index)
      else (value, index)
  end.

(** Reading the array of suffixes behind its end has no defined behaviour. *)
Definition to_human_bytes `{FixedText} (input : Z) (binary : bool) : outcome Empty_set (list byte) :=
  let '(value, index) := unit_loop (divisor_of binary) (length suffixes) (double_of input) 0 in
  let precision := if (index =? 0)%nat then 0%nat else 2%nat in
  match units binary !! index with
  | Some suffix => Return (fixed_text precision value ++ chars " " ++ suffix)
  | None => Undefined
  end.

(** ** Rounding *)

Lemma half_even_near n d : 0 < d → 2 * Z.abs (half_even n d * d - n) <= d.
Proof.
  intros Hd. pose proof (Z.div_mod n d ltac:(lia)). pose proof (Z.mod_pos_bound n d Hd).
  unfold half_even. destruct (Z.compare_spec (2 * (n mod d)) d); [destruct (Z.even _)|..]; lia.
Qed.

Lemma half_even_exact q d : 0 < d → half_even (q * d) d = q.
Proof.
  intros Hd. unfold half_even. rewrite Z.mod_mul, Z.div_mul by lia.
  by rewrite (proj2 (Z.compare_lt_iff (2 * 0) d)) by lia.
Qed.

Lemma half_even_bounds n d : 0 < d → n / d <= half_even n d <= n / d + 1.
Proof. intros Hd. unfold half_even. destruct (_ ?= _); [destruct (Z.even _)|..]; lia. Qed.

Lemma half_even_mono n m d : 0 < d → n <= m → half_even n d <= half_even m d.
Proof.
  intros Hd Hnm. pose proof (half_even_bounds n d Hd). pose proof (half_even_bounds m d Hd).
  pose proof (Z.div_le_mono n m d Hd Hnm).
  destruct (decide (n / d < m / d)); [lia|]. assert (E : n / d = m / d) by lia.
  pose proof (Z.div_mod n d ltac:(lia)). pose proof (Z.div_mod m d ltac:(lia)). rewrite E in *.
  unfold half_even. rewrite E.
  destruct (Z.compare_spec (2 * (n mod d)) d), (Z.compare_spec (2 * (m mod d)) d);
    try destruct (Z.even _); lia.
Qed.

Lemma half_even_le n d b : 0 < d → n <= b * d → half_even n d <= b.
Proof. intros Hd Hn. rewrite <-(half_even_exact b d Hd). by apply half_even_mono. Qed.
Lemma half_even_ge n d b : 0 < d → b * d <= n → b <= half_even n d.
Proof. intros Hd Hn. rewrite <-(half_even_exact b d Hd) at 1. by apply half_even_mono. Qed.

Lemma pow_spacing q : 1 <= 2 ^ spacing q.
Proof. assert (0 < 2 ^ spacing q) by (apply Z.pow_pos_nonneg; unfold spacing; lia). lia. Qed.

(** What rounding needs to know of the spacing: [q] has at most 53 bits in
    units of it, and exactly 53 when the unit is not the smallest. *)
Lemma spacing_spec q : 0 <= q →
  q < 2 ^ 53 * 2 ^ spacing q ∧ (spacing q = 0 ∨ 2 ^ 52 * 2 ^ spacing q <= q).
Proof.
  intros Hq. destruct (decide (q = 0)) as [->|Hne].
  { change (spacing 0) with 0. lia. }
  pose proof (Z.log2_spec q ltac:(lia)) as [Hl Hu]. pose proof (Z.log2_nonneg q).
  unfold spacing. rewrite <-!Z.pow_add_r by lia. split.
  - eapply Z.lt_le_trans; [exact Hu|]. apply Z.pow_le_mono_r; lia.
  - destruct (decide (Z.log2 q <= 52)); [left; lia|right].
    by replace (52 + Z.max 0 (Z.log2 q - 52)) with (Z.log2 q) by lia.
Qed.

(** Half of the last of 53 bits is what a division can be off. *)
Lemma rnd_error n d : 0 < d → 2 ^ 52 * d <= n → 2 ^ 53 * Z.abs (rnd n d * d - n) <= n.
Proof.
  intros Hd Hn. unfold rnd. set (q := n / d). set (s := 2 ^ spacing q).
  assert (Hq : 2 ^ 52 <= q) by (apply Z.div_le_lower_bound; lia).
  assert (Hqd : q * d <= n) by (unfold q; pose proof (Z.mul_div_le n d Hd); lia).
  assert (Hs : 1 <= s ∧ 2 ^ 52 * s <= q).
  { pose proof (pow_spacing q). split; [done|]. destruct (spacing_spec q ltac:(lia)) as [_ [E|]]; [|done].
    unfold s. rewrite E. lia. }
  pose proof (half_even_near n (d * s) ltac:(nia)) as Hnear.
  replace (half_even n (d * s) * s * d) with (half_even n (d * s) * (d * s)) by ring.
  assert (2 ^ 52 * (d * s) <= n) by (transitivity (q * d); [nia|done]). lia.
Qed.

Lemma rnd_mono n m d : 0 < d → 0 <= n <= m → rnd n d <= rnd m d.
Proof.
  intros Hd Hnm. unfold rnd.
  assert (Hqq : 0 <= n / d <= m / d).
  { split; [apply Z.div_pos; lia|]. apply Z.div_le_mono; lia. }
  assert (He : spacing (n / d) <= spacing (m / d)).
  { unfold spacing. pose proof (Z.log2_le_mono (n / d) (m / d) ltac:(lia)). lia. }
  pose proof (pow_spacing (n / d)) as Hs. pose proof (pow_spacing (m / d)) as Ht.
  destruct (decide (spacing (n / d) = spacing (m / d))) as [E|Hne].
  { rewrite <-E. apply Z.mul_le_mono_nonneg_r; [lia|]. apply half_even_mono; [nia|lia]. }
  destruct (spacing_spec (n / d) ltac:(lia)) as [Hn _].
  destruct (spacing_spec (m / d) ltac:(lia)) as [_ [E|Hm]]; [unfold spacing in *; lia|].
  assert (Hst : 2 * 2 ^ spacing (n / d) <= 2 ^ spacing (m / d)).
  { rewrite <-Z.pow_succ_r by (unfold spacing; lia). apply Z.pow_le_mono_r; lia. }
  set (s := 2 ^ spacing (n / d)) in *. set (t := 2 ^ spacing (m / d)) in *.
  pose proof (Z.div_mod n d ltac:(lia)). pose proof (Z.mod_pos_bound n d Hd).
  pose proof (Z.div_mod m d ltac:(lia)). pose proof (Z.mod_pos_bound m d Hd).
  assert (half_even n (d * s) <= 2 ^ 53) by (apply half_even_le; [nia|]; nia).
  assert (2 ^ 52 <= half_even m (d * t)) by (apply half_even_ge; [nia|]; nia). nia.
Qed.

Lemma rnd_nonneg n d : 0 < d → 0 <= n → 0 <= rnd n d.
Proof.
  intros Hd Hn. unfold rnd. pose proof (pow_spacing (n / d)).
  pose proof (half_even_ge n (d * 2 ^ spacing (n / d)) 0 ltac:(nia) ltac:(lia)). nia.
Qed.

(** ** The unit and the value the loop ends with *)

Lemma one_large : 2 ^ 52 * 1024 <= one.
Proof. by apply (bool_decide_unpack _); vm_compute. Qed.

Lemma divisor_cases binary : divisor_of binary = 1000 ∨ divisor_of binary = 1024.
Proof. destruct binary; [by right|by left]. Qed.

(** The value after [j] divisions. *)
Definition value_at (D : Z) (j : nat) (n : Z) : Z := Nat.iter j (λ v, div_double v D) (double_of n).

Lemma value_at_nonneg D j n : 0 < D → 0 <= n → 0 <= value_at D j n.
Proof.
  intros HD Hn. pose proof one_large. unfold value_at.
  induction j as [|j IH]; cbn [Nat.iter]; apply rnd_nonneg; [lia|nia|done|done].
Qed.

Lemma value_at_mono D j n m : 0 < D → 0 <= n <= m → value_at D j n <= value_at D j m.
Proof.
  intros HD Hnm. pose proof one_large. induction j as [|j IH].
  - apply rnd_mono; [lia|nia].
  - pose proof (value_at_nonneg D j n HD ltac:(lia)). by apply rnd_mono.
Qed.

(** A quotient that is a double is not rounded, nor is an integer of at most
    53 bits. *)
Lemma rnd_exact x d : 0 < d → (∃ m, x = m * 2 ^ spacing x) → rnd (x * d) d = x.
Proof.
  intros Hd [m Hm]. unfold rnd. rewrite Z.div_mul by lia. pose proof (pow_spacing x).
  rewrite Hm at 1. replace (m * 2 ^ spacing x * d) with (m * (d * 2 ^ spacing x)) by ring.
  rewrite half_even_exact by nia. done.
Qed.

Lemma integer_double n : 0 <= n < 2 ^ 53 → ∃ m, n * one = m * 2 ^ spacing (n * one).
Proof.
  intros Hn. destruct (decide (n = 0)) as [->|Hne]; [by exists 0|].
  assert (Hl : 0 <= Z.log2 n <= 52).
  { split; [apply Z.log2_nonneg|]. apply Z.lt_succ_r, Z.log2_lt_pow2; lia. }
  exists (n * 2 ^ (1074 - spacing (n * one))).
  rewrite <-Z.mul_assoc, <-Z.pow_add_r; [by replace (_ + _) with 1074 by lia| |unfold spacing; lia].
  unfold spacing, one. rewrite Z.log2_mul_pow2 by lia. lia.
Qed.

Lemma double_of_exact n : 0 <= n < 2 ^ 53 → double_of n = n * one.
Proof.
  intros Hn. unfold double_of. rewrite <-(Z.mul_1_r (n * one)) at 1. apply rnd_exact; [done|].
  by apply integer_double.
Qed.

(** Each division is off by a part in 2^53 at most. *)
Lemma value_at_error D j n :
  1000 <= D <= 1024 → (j ≤ 4)%nat → 0 <= n < 2 ^ 53 →
  (∀ i, (i < j)%nat → D * one <= value_at D i n) →
  2 ^ 53 * Z.abs (value_at D j n * D ^ Z.of_nat j - n * one) <= 2 * Z.of_nat j * (n * one).
Proof.
  intros HD Hj Hn. pose proof one_large as H1. induction j as [|j IH]; intros Hpre.
  { cbn. rewrite double_of_exact by done. lia. }
  specialize (IH ltac:(lia) ltac:(intros; apply Hpre; lia)). specialize (Hpre j ltac:(lia)).
  change (value_at D (S j) n) with (rnd (value_at D j n) D).
  pose proof (rnd_error (value_at D j n) D ltac:(lia) ltac:(nia)) as Hr.
  rewrite Nat2Z.inj_succ, Z.pow_succ_r by lia.
  set (v := value_at D j n) in *. set (w := rnd v D) in *. set (P := D ^ Z.of_nat j) in *.
  assert (HP : 0 < P) by (apply Z.pow_pos_nonneg; lia).
  set (N := n * one) in *. assert (HN : 0 <= N) by (unfold N; nia).
  clearbody P N.
  assert (Hstep : 2 ^ 53 * Z.abs ((w * D - v) * P) <= v * P).
  { rewrite Z.abs_mul, (Z.abs_eq P), Z.mul_assoc by lia. by apply Z.mul_le_mono_nonneg_r; lia. }
  assert (HJ : Z.of_nat j <= 3) by lia. generalize dependent (Z.of_nat j). intros z IH HJ.
  assert (Hz : z * N <= 3 * N) by (by apply Z.mul_le_mono_nonneg_r).
  replace (w * (D * P) - N) with ((w * D - v) * P + (v * P - N)) by ring.
  replace (2 * Z.succ z * N) with (2 * (z * N) + 2 * N) by ring.
  replace (2 * z * N) with (2 * (z * N)) in IH by ring. lia.
Qed.

(** The powers of the divisor are exact, *)
Lemma value_at_power D j k :
  1000 <= D <= 1024 → (j ≤ k)%nat → (k ≤ 5)%nat → value_at D j (D ^ Z.of_nat k) = D ^ (Z.of_nat k - Z.of_nat j) * one.
Proof.
  intros HD Hj Hk.
  assert (Hdouble : ∀ i, 0 <= i <= 5 → 0 <= D ^ i < 2 ^ 53).
  { intros i Hi. split; [apply Z.pow_nonneg; lia|]. apply Z.le_lt_trans with (1024 ^ 5); [|done].
    transitivity (1024 ^ i); [apply Z.pow_le_mono_l; lia|apply Z.pow_le_mono_r; lia]. }
  induction j as [|j IH].
  - rewrite Z.sub_0_r. apply double_of_exact, Hdouble. lia.
  - change (value_at D (S j) ?n) with (rnd (value_at D j n) D). rewrite IH by lia.
    replace (D ^ (Z.of_nat k - Z.of_nat j) * one) with (D ^ (Z.of_nat k - Z.of_nat (S j)) * one * D).
    + apply rnd_exact; [lia|]. apply integer_double, Hdouble. lia.
    + replace (Z.of_nat k - Z.of_nat j) with (Z.of_nat k - Z.of_nat (S j) + 1) by lia.
      rewrite Z.pow_add_r, Z.pow_1_r by lia. ring.
Qed.

(** and rounding does not reach them from below: so the loop goes on exactly
    as long as the divisor has a power below the input. *)
Lemma loop_test binary j n :
  (j ≤ 4)%nat → 0 <= n → let D := divisor_of binary in
  D * one <= value_at D j n ↔ D ^ (Z.of_nat j + 1) <= n.
Proof.
  intros Hj Hn D. assert (HD : 1000 <= D <= 1024) by (unfold D; destruct (divisor_cases binary); lia).
  revert n Hn. induction j as [j IH] using lt_wf_ind. intros n Hn. split; intros Hle.
  - apply Z.nlt_ge. intros Hlt. pose proof (value_at_mono D j n (D ^ (Z.of_nat j + 1) - 1) ltac:(lia) ltac:(lia)) as Hm.
    assert (Htop : 1 <= D ^ (Z.of_nat j + 1) <= 2 ^ 50).
    { split; [pose proof (Z.pow_pos_nonneg D (Z.of_nat j + 1)); lia|]. transitivity (1024 ^ 5); [|done].
      transitivity (1024 ^ (Z.of_nat j + 1)); [apply Z.pow_le_mono_l; lia|apply Z.pow_le_mono_r; lia]. }
    assert (Hpre : ∀ i, (i < j)%nat → D * one <= value_at D i (D ^ (Z.of_nat j + 1) - 1)).
    { intros i Hi. apply IH; [done|lia|lia|].
      enough (D ^ (Z.of_nat i + 1) < D ^ (Z.of_nat j + 1)) by lia. apply Z.pow_lt_mono_r; lia. }
    pose proof (value_at_error D j (D ^ (Z.of_nat j + 1) - 1) HD Hj ltac:(lia) Hpre) as He.
    pose proof one_large. rewrite Z.pow_add_r, Z.pow_1_r in * by lia.
    set (v := value_at D j (D ^ Z.of_nat j * D - 1)) in *. set (P := D ^ Z.of_nat j) in *. clearbody v P.
    assert (HP : 0 < P) by nia.
    assert (Hv : D * one * P <= v * P) by (apply Z.mul_le_mono_nonneg_r; lia).
    assert (Hj2 : 2 * Z.of_nat j * ((P * D - 1) * one) <= 8 * ((P * D - 1) * one))
      by (apply Z.mul_le_mono_nonneg_r; nia).
    replace ((P * D - 1) * one) with (D * one * P - one) in * by ring.
    assert (D * one * P <= 2 ^ 50 * one) by (replace (D * one * P) with (P * D * one) by ring; apply Z.mul_le_mono_nonneg_r; lia).
    lia.
  - rewrite <-(Z.pow_1_r D) at 1. replace 1 with (Z.of_nat (S j) - Z.of_nat j) at 1 by lia.
    rewrite <-(value_at_power D j (S j)) by lia. apply value_at_mono; [lia|].
    rewrite Nat2Z.inj_succ, <-Z.add_1_r. split; [apply Z.pow_nonneg; lia|done].
Qed.

(** The loop divides as often as the input has the divisor as a power, up to
    the number of suffixes. *)
Lemma unit_loop_spec binary n k more j :
  0 <= n → let D := divisor_of binary in
  (j + more = 5)%nat → (j ≤ k ≤ 5)%nat → (k = j ∨ D ^ Z.of_nat k <= n) →
  (k = 5%nat ∨ n < D ^ (Z.of_nat k + 1)) →
  unit_loop D more (value_at D j n) j = (value_at D k n, k).
Proof.
  intros Hn D. assert (HD : 0 < D) by (destruct (divisor_cases binary); lia).
  revert j. induction more as [|more IH]; intros j Hm Hjk Hlo Hhi; cbn [unit_loop].
  { by replace k with j by lia. }
  pose proof (loop_test binary j n ltac:(lia) Hn) as Ht. fold D in Ht.
  destruct (Z.leb_spec (D * one) (value_at D j n)) as [Hle|Hlt].
  - apply Ht in Hle. assert (k ≠ j) by (intros ->; lia).
    change (div_double (value_at D j n) D) with (value_at D (S j) n). apply IH; [lia|lia| |done].
    right. destruct Hlo; [done|]. lia.
  - replace k with j; [done|]. destruct Hlo as [->|Hlo]; [done|].
    destruct (decide (k = j)) as [->|]; [done|]. exfalso. apply Z.lt_nge in Hlt. apply Hlt, Ht.
    etransitivity; [|exact Hlo]. apply Z.pow_le_mono_r; lia.
Qed.

(** The loop and its result, for sizes that have a unit. *)
Lemma human_value binary n k :
  let D := divisor_of binary in (k ≤ 4)%nat → 0 <= n < D ^ (Z.of_nat k + 1) → (k = 0%nat ∨ D ^ Z.of_nat k <= n) →
  unit_loop D (length suffixes) (double_of n) 0 = (value_at D k n, k) ∧ 0 <= value_at D k n ∧
  2 ^ 50 * Z.abs (value_at D k n * D ^ Z.of_nat k - n * one) <= n * one ∧
  (k = 0%nat → value_at D k n = n * one).
Proof.
  intros D Hk Hn Hlo. assert (HD : 1000 <= D <= 1024) by (unfold D; destruct (divisor_cases binary); lia).
  assert (H53 : n < 2 ^ 53).
  { eapply Z.lt_le_trans; [apply Hn|]. transitivity (1024 ^ 5); [|done].
    transitivity (1024 ^ (Z.of_nat k + 1)); [apply Z.pow_le_mono_l; lia|apply Z.pow_le_mono_r; lia]. }
  split; [apply (unit_loop_spec binary n k 5 0); [lia|done|lia|done|right; apply Hn]|].
  split; [apply value_at_nonneg; lia|]. split.
  - pose proof (value_at_error D k n HD Hk ltac:(lia)) as He.
    assert (Hpre : ∀ i, (i < k)%nat → D * one <= value_at D i n).
    { intros i Hi. apply loop_test; [lia|lia|]. destruct Hlo as [->|Hlo]; [lia|].
      etransitivity; [|exact Hlo]. apply Z.pow_le_mono_r; lia. }
    specialize (He Hpre). pose proof one_large.
    assert (2 * Z.of_nat k * (n * one) <= 8 * (n * one)) by nia. lia.
  - intros ->. apply double_of_exact. lia.
Qed.

Section formatted.
Context `{fmt : FixedText}.

(** The text of the nearest number of hundredths. *)
Definition unit_text (k : nat) (h : Z) (suffix : list byte) : list byte :=
  decimal_text (if (k =? 0)%nat then 0 else 2) h ++ chars " " ++ suffix.

(** [h] is [n] in hundredths of the unit, to half of one and a bit; bytes
    are exact. *)
Definition near (n P h : Z) (k : nat) : Prop :=
  0 <= h ∧ (k = 0%nat → h = n) ∧ (k ≠ 0%nat → 100 * Z.abs (100 * n - h * P) <= 51 * P).

Lemma to_human_bytes_text binary n k suffix :
  let D := divisor_of binary in
  units binary !! k = Some suffix → 0 <= n < D ^ (Z.of_nat k + 1) → (k = 0%nat ∨ D ^ Z.of_nat k <= n) →
  ∃ h, to_human_bytes n binary = Return (unit_text k h suffix) ∧ near n (D ^ Z.of_nat k) h k.
Proof.
  intros D Hs Hn Hlo.
  assert (Hk : (k ≤ 4)%nat).
  { apply lookup_lt_Some in Hs. enough (length (units binary) = 5)%nat by lia. by destruct binary. }
  destruct (human_value binary n k Hk Hn Hlo) as (Hloop & Hv & Herr & H0).
  unfold to_human_bytes. rewrite Hloop, Hs. fold D in Hloop, Hv, Herr, H0 |- *.
  unfold unit_text. generalize dependent (value_at D k n). intros v _ Hv Herr H0.
  assert (HP : 0 < D ^ Z.of_nat k).
  { apply Z.pow_pos_nonneg; [destruct (divisor_cases binary); unfold D; lia|lia]. }
  assert (Hup : n < 1024 * D ^ Z.of_nat k).
  { rewrite Z.pow_add_r, Z.pow_1_r in Hn by lia.
    assert (D <= 1024) by (destruct (divisor_cases binary); unfold D; lia). nia. }
  pose proof one_large as H1.
  destruct (Nat.eqb_spec k 0) as [->|Hne].
  - destruct (fixed_text_nearest 0 v Hv) as (h & -> & Hh). exists h. split; [done|].
    rewrite H0 in Hh by done. change (10 ^ Z.of_nat 0) with 1 in Hh.
    assert (h = n) as -> by nia. split_and!; [lia|done|done].
  - destruct (fixed_text_nearest 2 v Hv) as (h & -> & Hh). exists h. split; [done|].
    change (10 ^ Z.of_nat 2) with 100 in Hh. generalize dependent (D ^ Z.of_nat k). intros P Hlo Herr HP Hup.
    split; [nia|]. split; [done|]. intros _.
    assert (HA : 2 ^ 50 * Z.abs (v * P - n * one) <= 1024 * P * one) by nia.
    assert (HB : 2 * Z.abs (h * one * P - v * 100 * P) <= one * P).
    { replace (h * one * P - v * 100 * P) with ((h * one - v * 100) * P) by ring.
      rewrite Z.abs_mul, (Z.abs_eq P), Z.mul_assoc by lia. apply Z.mul_le_mono_nonneg_r; lia. }
    apply (Z.mul_le_mono_pos_r _ _ one); [lia|].
    replace (100 * Z.abs (100 * n - h * P) * one) with (100 * Z.abs (100 * (n * one) - h * one * P)).
    + replace (51 * P * one) with (51 * (P * one)) by ring.
      replace (1024 * P * one) with (1024 * (P * one)) in HA by ring.
      replace (v * 100 * P) with (100 * (v * P)) in HB by ring.
      replace (one * P) with (P * one) in HB by ring. lia.
    + transitivity (100 * (Z.abs (100 * n - h * P) * Z.abs one)).
      * rewrite <-Z.abs_mul. do 2 f_equal. ring.
      * rewrite (Z.abs_eq one) by lia. ring.
Qed.

(** C28: A size below the fifth power of the divisor (10^15 bytes, or 2^50 in
    binary units) is printed in the unit whose power it reaches, to half a
    hundredth of the unit and a hundredth of that, bytes exactly; from there
    on the array of suffixes is read behind its end. *)
Theorem to_human_bytes_bounds (input : Z) (binary : bool) :
  in_range 64 input → let D := divisor_of binary in
  (∀ k suffix, units binary !! k = Some suffix →
     (k = 0%nat ∨ D ^ Z.of_nat k <= input) → input < D ^ (Z.of_nat k + 1) →
     ∃ h, to_human_bytes input binary = Return (unit_text k h suffix) ∧ near input (D ^ Z.of_nat k) h k) ∧
  (D ^ 5 <= input → to_human_bytes input binary = Undefined).
Proof.
  intros [Hn _] D. split.
  - intros k suffix Hs Hlo Hhi. by apply to_human_bytes_text.
  - intros Hlo. unfold to_human_bytes.
    assert (E : unit_loop D (length suffixes) (double_of input) 0 = (value_at D 5 input, 5%nat)).
    { apply (unit_loop_spec binary input 5 5 0 Hn); [done|lia|by right|by left]. }
    fold D. rewrite E. by destruct binary.
Qed.

(** The text is in the syntax that [parse_human_bytes] reads. *)
Lemma unit_text_syntax binary k h suffix :
  units binary !! k = Some suffix → 0 <= h < (if (k =? 0)%nat then 10 ^ 10 else 100 * 10 ^ 10) →
  ∃ whole fract, bytes_syntax (unit_text k h suffix) whole fract suffix ∧
    bytes_value whole fract suffix =
      if (k =? 0)%nat then h else h * divisor_of binary ^ Z.of_nat k / 100.
Proof.
  intros Hs Hh.
  assert (Hval : suffix_value suffix = Some (divisor_of binary ^ Z.of_nat k) ∧ (k ≠ 0%nat → 1 < divisor_of binary ^ Z.of_nat k)).
  { destruct binary; do 5 (destruct k as [|k]; [injection Hs as <-; vm_compute; by split|]); done. }
  destruct Hval as [Hval Hgt]. set (P := divisor_of binary ^ Z.of_nat k) in *. clearbody P.
  assert (Hsyn : ∀ whole fract, digits whole → (length whole ≤ 10)%nat → digits fract → (length fract ≤ 3)%nat →
    bytes_syntax (whole ++ fract_capture fract ++ chars " " ++ suffix) whole fract suffix).
  { intros. exists 1%nat. split_and!; [done..| |done]. by eexists. }
  unfold unit_text, bytes_value. rewrite Hval. change (default 1 (Some P)) with P.
  destruct (Nat.eqb_spec k 0) as [->|Hne].
  - destruct (dec_spec h ltac:(lia)) as [Hv Hd]. exists (dec h), []. split.
    + apply (Hsyn (dec h) []); [done|by apply (length_dec 10); [|lia]|constructor|cbn; lia].
    + rewrite Hv. assert (P = 1) as ->.
      { destruct binary; injection Hs as <-; vm_compute in Hval; by injection Hval. }
      rewrite decide_False by lia. lia.
  - unfold decimal_text. change (10 ^ Z.of_nat 2) with 100.
    destruct (dec_spec (h / 100) ltac:(dlia)) as [Hv Hd].
    exists (dec (h / 100)), (fixed_digits 2 (h mod 100)). split.
    + rewrite <-app_assoc. apply (Hsyn (dec (h / 100)) (fixed_digits 2 (h mod 100))).
      * done.
      * apply (length_dec 10); [dlia|lia].
      * apply digits_fixed.
      * rewrite length_fixed_digits. lia.
    + rewrite decide_True by auto. rewrite Hv, length_fixed_digits, fixed_digits_value by dlia.
      change (10 ^ Z.of_nat 2) with 100. rewrite Z.mod_mod by lia.
      rewrite (Z.div_mod h 100) at 3 by lia.
      replace ((100 * (h / 100) + h mod 100) * P) with (h / 100 * P * 100 + P * (h mod 100)) by ring.
      rewrite Z.div_add_l by lia. done.
Qed.

(** The unit of a size, and bounds of its power. *)
Lemma unit_exists binary n :
  let D := divisor_of binary in 0 <= n < D ^ 5 →
  ∃ k suffix, units binary !! k = Some suffix ∧ (k = 0%nat ∨ D ^ Z.of_nat k <= n) ∧
    n < D ^ (Z.of_nat k + 1) ∧ n < 1024 * D ^ Z.of_nat k ∧ 0 < D ^ Z.of_nat k <= 1024 ^ 4.
Proof.
  intros D Hn. assert (HD : 1000 <= D <= 1024) by (unfold D; destruct (divisor_cases binary); lia).
  assert (Hpick : ∀ k, (k < 5)%nat → (k = 0%nat ∨ D ^ Z.of_nat k <= n) → n < D ^ (Z.of_nat k + 1) →
    ∃ k suffix, units binary !! k = Some suffix ∧ (k = 0%nat ∨ D ^ Z.of_nat k <= n) ∧
      n < D ^ (Z.of_nat k + 1) ∧ n < 1024 * D ^ Z.of_nat k ∧ 0 < D ^ Z.of_nat k <= 1024 ^ 4).
  { intros k Hk Hlo Hhi. assert (Hu : is_Some (units binary !! k)) by (apply lookup_lt_is_Some; by destruct binary).
    destruct Hu as [s Hs]. exists k, s. split; [done|]. split; [done|]. split; [done|].
    assert (0 < D ^ Z.of_nat k) by (apply Z.pow_pos_nonneg; lia).
    rewrite Z.pow_add_r, Z.pow_1_r in Hhi by lia. split; [nia|]. split; [done|].
    transitivity (1024 ^ Z.of_nat k); [apply Z.pow_le_mono_l; lia|apply Z.pow_le_mono_r; lia]. }
  destruct (Z.lt_ge_cases n (D ^ 1)); [apply (Hpick 0%nat); [lia|by left|done]|].
  destruct (Z.lt_ge_cases n (D ^ 2)); [apply (Hpick 1%nat); [lia|by right|done]|].
  destruct (Z.lt_ge_cases n (D ^ 3)); [apply (Hpick 2%nat); [lia|by right|done]|].
  destruct (Z.lt_ge_cases n (D ^ 4)); [apply (Hpick 3%nat); [lia|by right|done]|].
  apply (Hpick 4%nat); [lia|by right|apply Hn].
Qed.

(** How large a number of hundredths is, and how far its whole bytes are
    from the size. *)
Lemma near_range n P h k :
  near n P h k → 0 <= n < 1024 * P → 0 < P → k ≠ 0%nat → 0 <= h < 200000.
Proof.
  intros (Hh & _ & Hu) Hn HP Hk. specialize (Hu Hk). split; [done|].
  apply Z.nle_gt. intros Hbig. assert (200000 * P <= h * P) by (by apply Z.mul_le_mono_nonneg_r; lia). lia.
Qed.

Lemma near_bytes n P h k :
  near n P h k → k ≠ 0%nat → 10000 * Z.abs (h * P / 100 - n) <= 51 * P + 10000.
Proof. intros (_ & _ & Hu) Hk. specialize (Hu Hk). dlia. Qed.

(** The unit of a size is unique. *)
Lemma unit_unique D n k k' :
  1 < D → k = 0%nat ∨ D ^ Z.of_nat k <= n → n < D ^ (Z.of_nat k + 1) →
  D ^ Z.of_nat k' <= n → n < D ^ (Z.of_nat k' + 1) → k = k'.
Proof.
  intros HD Hlo Hhi Hlo' Hhi'. destruct (Nat.lt_total k k') as [Hlt|[?|Hlt]]; [exfalso|done|exfalso].
  - pose proof (Z.pow_le_mono_r D (Z.of_nat k + 1) (Z.of_nat k')). lia.
  - destruct Hlo as [->|Hlo]; [lia|]. pose proof (Z.pow_le_mono_r D (Z.of_nat k' + 1) (Z.of_nat k)). lia.
Qed.

(** C29: What [to_human_bytes] prints of a size below a thousand (1024) of its
    largest unit, [parse_human_bytes] reads back: bytes exactly, and a size
    of one unit or more, below the next one, to 0.51 hundredths of that unit,
    and a byte for the rounding. *)
Theorem human_bytes_roundtrip (input : Z) (binary : bool) :
  let D := divisor_of binary in 0 <= input < D ^ 5 →
  ∃ text size, to_human_bytes input binary = Return text ∧ parse_human_bytes text = Ok size ∧
    (input < D → size = input) ∧
    ∀ k : nat, D ^ Z.of_nat k <= input → input < D ^ (Z.of_nat k + 1) →
      10000 * Z.abs (size - input) <= 51 * D ^ Z.of_nat k + 10000.
Proof.
  intros D Hn. assert (HD : 1 < D) by (unfold D; destruct (divisor_cases binary); lia). destruct (unit_exists binary input Hn) as (k & suffix & Hs & Hlo & Hhi & Hup & HP).
  fold D in Hlo, Hhi, Hup, HP.
  destruct (to_human_bytes_text binary input k suffix Hs ltac:(fold D; lia) Hlo) as (h & Ht & Hh).
  fold D in Hh. exists (unit_text k h suffix).
  assert (Hrange : 0 <= h < (if (k =? 0)%nat then 10 ^ 10 else 100 * 10 ^ 10)).
  { destruct (Nat.eqb_spec k 0) as [->|Hne].
    - destruct Hh as (_ & -> & _); [|done]. change (D ^ Z.of_nat 0) with 1 in Hup. lia.
    - pose proof (near_range _ _ _ _ Hh ltac:(lia) ltac:(lia) Hne). lia. }
  destruct (unit_text_syntax binary k h suffix Hs Hrange) as (whole & fract & Hsyn & Hval). fold D in Hval.
  pose proof (parse_human_bytes_value _ _ _ _ Hsyn) as Hparse. rewrite Hval in Hparse. clear Hsyn Hval Hs.
  eexists. split; [exact Ht|]. split; [exact Hparse|]. clear Hparse Ht Hrange.
  destruct (Nat.eqb_spec k 0) as [->|Hne].
  - destruct Hh as (_ & -> & _); [|done]. change (D ^ Z.of_nat 0) with 1 in Hup.
    unfold u64. rewrite wrap_small by (unfold in_range; lia). split; [done|].
    intros k' Hlo' Hhi'. rewrite <-(unit_unique D input 0 k') by (done || by left). cbn. lia.
  - destruct Hlo as [->|Hlo]; [done|]. pose proof (near_range _ _ _ _ Hh ltac:(lia) ltac:(lia) Hne).
    pose proof (near_bytes _ _ _ _ Hh Hne).
    assert (Huniq : ∀ k', D ^ Z.of_nat k' <= input → input < D ^ (Z.of_nat k' + 1) → k = k')
      by (intros k' ? ?; apply (unit_unique D input k k'); auto).
    assert (D <= D ^ Z.of_nat k).
    { rewrite <-(Z.pow_1_r D) at 1. apply Z.pow_le_mono_r; [unfold D; destruct (divisor_cases binary)|]; lia. }
    set (P := D ^ Z.of_nat k) in *.
    assert (0 <= h * P / 100 < 2 ^ 64).
    { assert (0 <= h * P <= 200000 * P) by (split; [apply Z.mul_nonneg_nonneg|apply Z.mul_le_mono_nonneg_r]; lia). dlia. }
    unfold u64. rewrite wrap_small by done. split; [lia|].
    intros k' Hlo' Hhi'. by rewrite <-(Huniq k' Hlo' Hhi').
Qed.
End formatted.

(** ** Concrete sizes *)

(** Exact decimal notation, ties to even. *)
#[refine] Definition exact_text : FixedText := {|
  fixed_text := λ p v, decimal_text p (half_even (v * 10 ^ Z.of_nat p) one);
|}.
Proof. intros p v _. eexists. split; [done|]. apply half_even_near. by vm_compute. Defined.

(** The division is the one of IEEE 754 as the Standard Library defines it. *)
Definition units_of (f : spec_float) : Z :=
  match f with S754_finite false m e => Zpos m * 2 ^ (e + 1074) | _ => 0 end.
Example div_double_ieee :
  forallb (λ n, let f := SpecFloat.binary_normalize 53 1024 n 0 false in
    let d := SpecFloat.binary_normalize 53 1024 1000 0 false in
    (double_of n =? units_of f) && (div_double (double_of n) 1000 =? units_of (SFdiv 53 1024 f d)))
    [1001; 2 ^ 53 + 3; 2 ^ 64 - 1] = true.
Proof. vm_compute. reflexivity. Qed.

Example to_human_bytes_examples :
  let text := to_human_bytes (H := exact_text) in
  text 128 false = Return (chars "128 B") ∧ text (10 ^ 12 + 512 * 10 ^ 9) false = Return (chars "1.51 TB") ∧
  text (46 * 10 ^ 6 + 256 * 10 ^ 3) false = Return (chars "46.26 MB") ∧
  text (2 ^ 40 + 2 ^ 38) true = Return (chars "1.25 TiB") ∧
  text 999999 false = Return (chars "1000.00 KB").
Proof. cbv zeta. split_and!; vm_compute; reflexivity. Qed.

Lemma to_human_bytes_bounds_witness :
  (∃ h, to_human_bytes (H := exact_text) (10 ^ 15 - 1) false = Return (unit_text 4 h (chars "TB")) ∧
    near (10 ^ 15 - 1) (10 ^ 12) h 4) ∧
  to_human_bytes (H := exact_text) (10 ^ 15) false = Undefined.
Proof.
  split.
  - destruct (to_human_bytes_bounds (fmt := exact_text) (10 ^ 15 - 1) false) as [H _];
      [unfold in_range; lia|].
    apply (H 4%nat (chars "TB")); [reflexivity|right; vm_compute; discriminate|reflexivity].
  - destruct (to_human_bytes_bounds (fmt := exact_text) (10 ^ 15) false) as [_ H];
      [unfold in_range; lia|].
    apply H. vm_compute. discriminate.
Defined.

Lemma human_bytes_roundtrip_witness :
  ∃ text size, to_human_bytes (H := exact_text) 1126 true = Return text ∧ parse_human_bytes text = Ok size ∧
    10000 * Z.abs (size - 1126) <= 51 * 1024 + 10000.
Proof.
  destruct (human_bytes_roundtrip (fmt := exact_text) 1126 true
    (conj (Zle_bool_imp_le 0 1126 eq_refl) eq_refl)) as (text & size & Ht & Hp & _ & Hb).
  exists text, size. split; [exact Ht|]. split; [exact Hp|]. apply (Hb 1%nat); vm_compute; [discriminate|reflexivity].
Defined.
