(* ===== verification/Worker.v ===== *)
(** * Workers: a thread that waits to be kicked

    Models the class [Worker] of [src/zen/node/concurrency/worker.hpp] and
    [worker.cpp] as a transition system. The threads are the worker's own, the
    owner's, which calls [start] and [stop], and any number of others, which
    kick, request a stop or raise a signal. A step is one atomic access of the
    shared state, so that the steps of the threads interleave as the atomics
    allow; a label says whose step it is, and the step of a label is a
    function. The handlers of [signal_worker_state_changed] are code of others
    and no step. [work] is virtual: a program of the derived class, given by
    what it does next. *)
From S2P Require Import Prelude.
Local Open Scope nat_scope.

Inductive State := kStopped | kStarting | kStarted | kKickWaiting | kStopping.

#[export] Instance State_eq_dec : EqDecision State.
Proof. solve_decision. Defined.

(** What a thread may throw: a [std::exception] with its message, or a value
    of another type. *)
Inductive thrown := Std (message : list byte) | Str (s : list byte) | CStr (s : list byte) | Other.

(** What [work] does next: it returns, throws, calls [wait_for_kick] and goes
    on with its result, or computes. *)
Inductive command (P : Type) :=
  | Finish
  | Raise (e : thrown)
  | Wait_for_kick (k : bool → P)
  | Compute (p : P).
Arguments Finish {P}.
Arguments Raise {P} _.
Arguments Wait_for_kick {P} _.
Arguments Compute {P} _.

(** Where the worker's thread is: in the function it was created with (lines
    29 to 46), in [work], or in [wait_for_kick] (lines 73 to 100), which goes
    on with [k] of its result; in its loop with the value of the local
    [expected_kicked_value]. *)
Inductive thread_pc (P : Type) :=
  | w_get_id
  | w_enter
  | w_notify
  | w_work (p : P)
  | w_kick_exchange (expected_kicked_value : bool) (k : bool → P)
  | w_kick_check (expected_kicked_value : bool) (k : bool → P)
  | w_kick_state (expected_kicked_value : bool) (k : bool → P)
  | w_kick_wait (expected_kicked_value : bool) (k : bool → P)
  | w_kick_leave (k : bool → P)
  | w_kick_store (k : bool → P) (result : bool)
  | w_store_stopped
  | w_clear_id
  | w_done.
Arguments w_get_id {P}.
Arguments w_enter {P}.
Arguments w_notify {P}.
Arguments w_work {P} _.
Arguments w_kick_exchange {P} _ _.
Arguments w_kick_check {P} _ _.
Arguments w_kick_state {P} _ _.
Arguments w_kick_wait {P} _ _.
Arguments w_kick_leave {P} _.
Arguments w_kick_store {P} _ _.
Arguments w_store_stopped {P}.
Arguments w_clear_id {P}.
Arguments w_done {P}.

(** Where the owner is: in none of the calls, in [start] before the creation
    of the thread (lines 22 to 26), in its loop about to wait or waiting, with
    whether a notification came since it waits (lines 49 to 54), or in [stop]
    about to kick or joining (lines 58 to 63). *)
Inductive owner_pc :=
  | o_idle
  | o_prepare (kicked wait : bool)
  | o_spawn (wait : bool)
  | o_start_loop
  | o_start_wait (notified : bool)
  | o_stop_kick (wait : bool)
  | o_stop_join (already_requested wait : bool).

#[export] Instance owner_pc_eq_dec : EqDecision owner_pc.
Proof. solve_decision. Defined.

Record Worker (P : Type) := mk_Worker {
  stop_requested_ : bool;
  kicked_ : bool;
  id_ : Z;
  state_ : State;
  thread_ : bool;
  exception_ptr_ : option thrown;
  signalled_ : bool;
  wpc : thread_pc P;
  opc : owner_pc;
  stop_result : option bool;
  terminated : bool
}.
Arguments mk_Worker {P} _ _ _ _ _ _ _ _ _ _ _.
Arguments stop_requested_ {P} _.
Arguments kicked_ {P} _.
Arguments id_ {P} _.
Arguments state_ {P} _.
Arguments thread_ {P} _.
Arguments exception_ptr_ {P} _.
Arguments signalled_ {P} _.
Arguments wpc {P} _.
Arguments opc {P} _.
Arguments stop_result {P} _.
Arguments terminated {P} _.

(** A new worker; without a thread, the place of the thread is its end. *)
Definition new_Worker {P} : Worker P :=
  mk_Worker false false 0 kStopped false None false w_done o_idle None false.

Section updates.
Context {P : Type}.
Implicit Types this : Worker P.
Definition set_stop (b : bool) this := mk_Worker b (kicked_ this) (id_ this) (state_ this) (thread_ this) (exception_ptr_ this) (signalled_ this) (wpc this) (opc this) (stop_result this) (terminated this).
Definition set_kicked (b : bool) this := mk_Worker (stop_requested_ this) b (id_ this) (state_ this) (thread_ this) (exception_ptr_ this) (signalled_ this) (wpc this) (opc this) (stop_result this) (terminated this).
Definition set_id (i : Z) this := mk_Worker (stop_requested_ this) (kicked_ this) i (state_ this) (thread_ this) (exception_ptr_ this) (signalled_ this) (wpc this) (opc this) (stop_result this) (terminated this).
Definition set_state (s : State) this := mk_Worker (stop_requested_ this) (kicked_ this) (id_ this) s (thread_ this) (exception_ptr_ this) (signalled_ this) (wpc this) (opc this) (stop_result this) (terminated this).
Definition set_thread (b : bool) this := mk_Worker (stop_requested_ this) (kicked_ this) (id_ this) (state_ this) b (exception_ptr_ this) (signalled_ this) (wpc this) (opc this) (stop_result this) (terminated this).
Definition set_exception (e : option thrown) this := mk_Worker (stop_requested_ this) (kicked_ this) (id_ this) (state_ this) (thread_ this) e (signalled_ this) (wpc this) (opc this) (stop_result this) (terminated this).
Definition set_signalled (b : bool) this := mk_Worker (stop_requested_ this) (kicked_ this) (id_ this) (state_ this) (thread_ this) (exception_ptr_ this) b (wpc this) (opc this) (stop_result this) (terminated this).
Definition goto (w : thread_pc P) this := mk_Worker (stop_requested_ this) (kicked_ this) (id_ this) (state_ this) (thread_ this) (exception_ptr_ this) (signalled_ this) w (opc this) (stop_result this) (terminated this).
Definition owner_goto (o : owner_pc) this := mk_Worker (stop_requested_ this) (kicked_ this) (id_ this) (state_ this) (thread_ this) (exception_ptr_ this) (signalled_ this) (wpc this) o (stop_result this) (terminated this).
Definition set_result (b : bool) this := mk_Worker (stop_requested_ this) (kicked_ this) (id_ this) (state_ this) (thread_ this) (exception_ptr_ this) (signalled_ this) (wpc this) (opc this) (Some b) (terminated this).
Definition terminate this := mk_Worker (stop_requested_ this) (kicked_ this) (id_ this) (state_ this) (thread_ this) (exception_ptr_ this) (signalled_ this) (wpc this) (opc this) (stop_result this) true.
End updates.

Section code.
Context {P : Type} (next : P → command P) (work : P) (thread_id : Z).
Implicit Types this : Worker P.

Definition is_stopping this : bool := stop_requested_ this || signalled_ this.

(** [notify_one] of [thread_started_cv_]: it reaches the owner if it waits. *)
Definition notify_started this : Worker P :=
  match opc this with
  | o_start_wait _ => owner_goto (o_start_wait true) this
  | _ => this
  end.

(** One step of [wait_for_kick]. The exchange of line 75 succeeds when the flag
    is what is expected, and gives the flag as the expected value when it
    fails. The wait of line 85 ends at the latest with its timeout, and line 87
    yields: both just go on, to the reset of line 90. *)
Definition wait_for_kick_step this : option (Worker P) :=
  match wpc this with
  | w_kick_exchange e k =>
      if eqb (kicked_ this) e then Some (goto (w_kick_leave k) (set_kicked false this))
      else Some (goto (w_kick_check (kicked_ this) k) this)
  | w_kick_check e k =>
      if is_stopping this then Some (goto (w_kick_leave k) this)
      else Some (goto (w_kick_state e k) this)
  | w_kick_state e k =>
      let this := if decide (state_ this = kStarted) then set_state kKickWaiting this else this in
      Some (goto (w_kick_wait e k) this)
  | w_kick_wait _ k => Some (goto (w_kick_exchange true k) this)
  | w_kick_leave k =>
      if is_stopping this then Some (goto (w_kick_store k false) this)
      else Some (goto (w_kick_store k true) this)
  | w_kick_store k false => Some (goto (w_work (k false)) (set_state kStopping this))
  | w_kick_store k true => Some (goto (w_work (k true)) (set_state kStarted this))
  | _ => None
  end.

(** One step of the worker's thread. An exception that is no [std::exception]
    leaves the function of the thread, which terminates the process. *)
Definition worker_step this : option (Worker P) :=
  match wpc this with
  | w_get_id => Some (goto w_enter (set_id thread_id this))
  | w_enter =>
      if decide (state_ this = kStarting) then Some (goto w_notify (set_state kStarted this))
      else Some (goto w_store_stopped this)
  | w_notify => Some (goto (w_work work) (notify_started this))
  | w_work p =>
      match next p with
      | Finish => Some (goto w_store_stopped this)
      | Raise (Std m) => Some (goto w_store_stopped (set_exception (Some (Std m)) this))
      | Raise _ => Some (terminate this)
      | Wait_for_kick k => Some (goto (w_kick_exchange true k) this)
      | Compute p => Some (goto (w_work p) this)
      end
  | w_store_stopped => Some (goto w_clear_id (set_state kStopped this))
  | w_clear_id => Some (goto w_done (set_id 0 this))
  | w_done => None
  | _ => wait_for_kick_step this
  end.

(** The calls of the owner begin with their compare-and-exchange. *)
Definition start (kicked wait : bool) this : option (Worker P) :=
  match opc this with
  | o_idle =>
      if decide (state_ this = kStopped)
      then Some (owner_goto (o_prepare kicked wait) (set_state kStarting this))
      else Some this
  | _ => None
  end.

Definition stop (wait : bool) this : option (Worker P) :=
  match opc this with
  | o_idle =>
      if stop_requested_ this then Some (owner_goto (o_stop_join true wait) this)
      else Some (owner_goto (o_stop_kick wait) (set_stop true this))
  | _ => None
  end.

(** The destructor, of the base class: it runs when the derived part, whose
    [work] the thread is in, is destroyed already. *)
Definition destroy_Worker this : option (Worker P) := stop true this.

Definition kick this : Worker P := set_kicked true this.

(** One step of the owner within a call. Assigning the pointer of line 26
    destroys the thread it held: one not joined terminates the process. *)
Definition owner_step this : option (Worker P) :=
  match opc this with
  | o_idle => None
  | o_prepare kicked wait =>
      Some (owner_goto (o_spawn wait) (set_id 0 (set_kicked kicked (set_exception None this))))
  | o_spawn wait =>
      if thread_ this then Some (terminate this)
      else
        let this := goto w_get_id (set_thread true this) in
        Some (owner_goto (if wait then o_start_loop else o_idle) this)
  | o_start_loop => Some (owner_goto (o_start_wait false) this)
  | o_start_wait notified => if notified then Some (owner_goto o_idle this) else None
  | o_stop_kick wait => Some (owner_goto (o_stop_join false wait) (kick this))
  | o_stop_join already_requested wait =>
      if wait && thread_ this then
        match wpc this with
        | w_done =>
            Some (owner_goto o_idle (set_result (negb already_requested && wait) (set_thread false this)))
        | _ => None
        end
      else Some (owner_goto o_idle (set_result (negb already_requested && wait) this))
  end.

(** Whose step: the thread's, the owner's (a call, or on with the one it is
    in), the 100 milliseconds of line 51 running out, a spurious wakeup of that
    wait, or another thread's: a kick, a request to stop, a signal. *)
Inductive label :=
  | Thread | Start (kicked wait : bool) | Stop (wait : bool) | Owner | Timeout | Spurious
  | Kick | Request_stop | Signal.

#[export] Instance label_eq_dec : EqDecision label.
Proof. solve_decision. Defined.

Definition step (l : label) this : option (Worker P) :=
  if terminated this then None else
  match l with
  | Thread => worker_step this
  | Start kicked wait => start kicked wait this
  | Stop wait => stop wait this
  | Owner => owner_step this
  | Timeout =>
      match opc this with
      | o_start_wait false => Some (owner_goto o_start_loop this)
      | _ => None
      end
  | Spurious =>
      match opc this with o_start_wait _ => Some (owner_goto o_idle this) | _ => None end
  | Kick => Some (kick this)
  | Request_stop => Some (set_stop true this)
  | Signal => Some (set_signalled true this)
  end.

Definition run (ls : list label) this : option (Worker P) :=
  foldl (λ o l, o ≫= step l) (Some this) ls.

Definition has_exception this : bool := bool_decide (exception_ptr_ this ≠ None).
Definition rethrow this : option thrown := exception_ptr_ this.
Definition what this : list byte :=
  match rethrow this with
  | None => []
  | Some (Std m) => m
  | Some (Str s) => s
  | Some (CStr s) => s
  | Some Other => chars "Undefined error"
  end.
End code.

(** ** Executions *)

Section theory.
Context {P : Type} (next : P → command P) (work : P) (thread_id : Z).
Implicit Types this : Worker P.
Local Abbreviation step := (step next work thread_id).
Local Abbreviation run := (run next work thread_id).

Definition reachable this : Prop := ∃ ls, run ls new_Worker = Some this.

Lemma run_app ls ls' this : run (ls ++ ls') this = run ls this ≫= run ls'.
Proof.
  unfold run. rewrite foldl_app. destruct (foldl _ (Some this) ls) as [w|]; [done|]. cbn.
  by induction ls'.
Qed.

Lemma run_cons l ls this : run (l :: ls) this = step l this ≫= run ls.
Proof. apply (run_app [l] ls). Qed.

(** An invariant of the steps holds in every execution. *)
Lemma run_invariant (I : Worker P → Prop) :
  (∀ l this this', step l this = Some this' → I this → I this') →
  ∀ ls this this', run ls this = Some this' → I this → I this'.
Proof.
  intros Hs ls. induction ls as [|l ls IH]; intros this this'; [by intros [= <-]|].
  rewrite run_cons. destruct (step l this) as [w|] eqn:E; [|done]. cbn. eauto.
Qed.

Lemma step_alive l this this' : step l this = Some this' → terminated this = false.
Proof. unfold step, Worker.step. by destruct (terminated this). Qed.

(** Takes a step apart: by its label, the places of the threads and what they
    read. *)
Ltac step_cases l this :=
  let Hs := fresh "Hs" in
  intros Hs; pose proof (step_alive _ _ _ Hs);
  destruct this as [sr ki i st th ex sg pc oc re te]; cbn in *; subst te;
  unfold Worker.step, worker_step, wait_for_kick_step, start, stop, owner_step, notify_started,
    is_stopping in Hs; cbn in Hs;
  destruct l; cbn in Hs;
  repeat (case_match || case_decide); simplify_eq/=.

(** ** What the state says *)

(** The state each place of the thread goes with. *)
Definition state_at (pc : thread_pc P) (oc : owner_pc) (s : State) : Prop :=
  match pc with
  | w_get_id | w_enter => s = kStarting
  | w_notify => s = kStarted
  | w_work _ | w_store_stopped => s = kStarted ∨ s = kStopping
  | w_kick_exchange _ _ | w_kick_check _ _ | w_kick_state _ _ | w_kick_wait _ _ | w_kick_leave _
  | w_kick_store _ _ => s = kStarted ∨ s = kKickWaiting ∨ s = kStopping
  | w_clear_id | w_done =>
      match oc with o_prepare _ _ | o_spawn _ => s = kStarting | _ => s = kStopped end
  end.

Record worker_ok this : Prop := {
  ok_state : state_at (wpc this) (opc this) (state_ this);
  ok_owner : match opc this with
             | o_prepare _ _ | o_spawn _ => wpc this = w_clear_id ∨ wpc this = w_done
             | _ => True
             end;
  ok_thread : thread_ this = false → wpc this = w_done;
  ok_exception : ∀ e, exception_ptr_ this = Some e → ∃ m, e = Std m
}.

Lemma worker_ok_step l this this' : step l this = Some this' → worker_ok this → worker_ok this'.
Proof.
  step_cases l this; intros [Hst How Hth Hex]; cbn in *; split; cbn; try done;
    try (intros E; by specialize (Hth E)); try (destruct oc; cbn in *; by destruct_or?);
    try (intros e' [= <-]; by eexists); try (destruct_or?; subst; by auto);
    try (destruct oc; by auto); destruct pc; cbn in *; destruct_or?; by auto.
Qed.

Lemma new_Worker_ok : worker_ok new_Worker.
Proof. split; cbn; [done|done|done|by intros e]. Qed.

Lemma reachable_ok this : reachable this → worker_ok this.
Proof.
  intros [ls Hr]. eapply run_invariant; [|exact Hr|exact new_Worker_ok]. intros l w w'. apply worker_ok_step.
Qed.

(** C30: In every execution the state tells what the thread does: it is stopped
    exactly when no thread is between its first instruction and its last store
    of the state and none is being created, started or stopping while [work]
    runs, and waiting only in [wait_for_kick]. So the exchange at the beginning
    of the thread always succeeds, and an exception kept by the worker is a
    [std::exception], whose message [what] returns. *)
Theorem state_tells_thread this :
  reachable this →
  state_at (wpc this) (opc this) (state_ this) ∧
  (state_ this = kStopped ↔
    (wpc this = w_clear_id ∨ wpc this = w_done) ∧
    match opc this with o_prepare _ _ | o_spawn _ => False | _ => True end) ∧
  (wpc this = w_enter → terminated this = false →
    step Thread this = Some (goto w_notify (set_state kStarted this))) ∧
  (∀ e, rethrow this = Some e → e = Std (what this)).
Proof.
  intros Hr%reachable_ok. destruct Hr as [Hst How Hth Hex]. split; [done|]. split; [|split].
  - destruct (wpc this), (opc this); cbn in *;
      (split; [intros E; rewrite E in *; destruct_or?; by auto|intros [? ?]; destruct_or?; by auto]).
  - intros Hp Ht. rewrite Hp in Hst. cbn in Hst. unfold step, Worker.step, worker_step.
    by rewrite Ht, Hp, decide_True by done.
  - intros e He. unfold what, rethrow in *. rewrite He. by destruct (Hex e He) as [m ->].
Qed.

(** Only a signal changes what the worker sees of the flag. *)
Lemma step_keeps_signalled l this this' :
  step l this = Some this' → l ≠ Signal → signalled_ this' = signalled_ this.
Proof. by step_cases l this. Qed.

(** ** Stopping ends the thread *)

(** [work] gives up when [wait_for_kick] tells it to: from there on, and
    between two waits, it computes for a bounded number of steps. *)
Definition gives_up (bound : P → nat) : Prop :=
  (∀ p p', next p = Compute p' → bound p' < bound p) ∧
  (∀ p k, next p = Wait_for_kick k → bound (k false) < bound p).

Section stopping.
Context (bound : P → nat) (Hbound : gives_up bound).

(** How many steps the thread has left once it is to stop. *)
Definition steps_left (pc : thread_pc P) : nat :=
  match pc with
  | w_get_id => 8 * bound work + 6
  | w_enter => 8 * bound work + 5
  | w_notify => 8 * bound work + 4
  | w_work p => 8 * bound p + 3
  | w_kick_state _ k => 8 * bound (k false) + 9
  | w_kick_wait _ k => 8 * bound (k false) + 8
  | w_kick_exchange _ k => 8 * bound (k false) + 7
  | w_kick_check _ k => 8 * bound (k false) + 6
  | w_kick_leave k => 8 * bound (k false) + 5
  | w_kick_store k b => 8 * bound (k b) + 4
  | w_store_stopped => 2
  | w_clear_id => 1
  | w_done => 0
  end.

Lemma thread_step_left this this' :
  step Thread this = Some this' → is_stopping this = true →
  (steps_left (wpc this') < steps_left (wpc this) ∨ terminated this' = true) ∧
  is_stopping this' = true.
Proof.
  destruct Hbound as [Hc Hk]. step_cases Thread this; intros Hsr; unfold is_stopping in Hsr |- *; cbn in *; (split; [|done]);
    try (by right); left; try lia; try congruence;
    match goal with
    | H : next _ = Wait_for_kick _ |- _ => apply Hk in H; lia
    | H : next _ = Compute _ |- _ => apply Hc in H; lia
    end.
Qed.

(** The other threads leave the thread where it is, but for the owner when it
    creates one. *)
Lemma other_step_left l this this' :
  step l this = Some this' → l ≠ Thread → worker_ok this → wpc this ≠ w_done →
  (wpc this' = wpc this ∨ terminated this' = true) ∧
  (is_stopping this = true → is_stopping this' = true).
Proof.
  step_cases l this; intros Hl [Hst How Hth Hex] Hd; cbn in *; try done; split; auto;
    unfold is_stopping; cbn; by rewrite ?orb_true_r.
Qed.

Definition thread_steps (ls : list label) : nat :=
  length (List.filter (λ l, match l with Thread => true | _ => false end) ls).

(** The thread has ended, or the process. *)
Definition over this : bool :=
  match wpc this with w_done => true | _ => false end || terminated this.

Lemma over_false this : over this = false → wpc this ≠ w_done ∧ terminated this = false.
Proof. unfold over. by destruct (wpc this), (terminated this). Qed.

Lemma stopping_steps ls this :
  worker_ok this → is_stopping this = true → is_Some (run ls this) →
  (∃ n w, run (take n ls) this = Some w ∧ over w = true) ∨ thread_steps ls ≤ steps_left (wpc this).
Proof.
  revert this. induction ls as [|l ls IH]; intros this Hok Hsr Hrun; [right; cbn; lia|].
  rewrite run_cons in Hrun. destruct (step l this) as [w|] eqn:E; [|by destruct Hrun].
  destruct (over this) eqn:Hd; [left; by exists 0, this|]. apply over_false in Hd as [Hd _].
  cbn in Hrun. pose proof (worker_ok_step _ _ _ E Hok) as Hok'.
  assert (Hgo : is_stopping w = true ∧ (over w = true ∨
    thread_steps [l] + steps_left (wpc w) ≤ steps_left (wpc this))).
  { destruct (decide (l = Thread)) as [->|Hl].
    - destruct (thread_step_left _ _ E Hsr) as [[Hlt|Ht] ?]; (split; [done|]); [right; cbn; lia|left].
      unfold over. by rewrite Ht, orb_true_r.
    - destruct (other_step_left _ _ _ E Hl Hok Hd) as [[Hw|Ht] ?]; (split; [auto|]).
      + right. rewrite Hw. destruct l; cbn; try done; lia.
      + left. unfold over. by rewrite Ht, orb_true_r. }
  destruct Hgo as [Hsr' [Ho|Hle]].
  { left. exists 1, w. split; [|done]. cbn [take]. rewrite run_cons, E. cbn. done. }
  destruct (IH w Hok' Hsr' Hrun) as [(n & w' & Hr & Ho)|Hr].
  - left. exists (S n), w'. split; [|done]. cbn [take]. by rewrite run_cons, E.
  - right. unfold thread_steps in *. destruct l; cbn in *; lia.
Qed.

(** A thread that is not over can take its next step. *)
Lemma thread_goes_on this : over this = false → is_Some (step Thread this).
Proof.
  intros [Hd Ht]%over_false. unfold step, Worker.step, worker_step, wait_for_kick_step. rewrite Ht.
  destruct (wpc this); try done; repeat case_match; try done; by eexists.
Qed.

(** C31: Once a stop is requested or a signal is caught the thread ends, when
    [work] gives up after [wait_for_kick] returned false: whatever the other
    threads do, it takes at most so many steps as its place says before it is
    over, until then it can always take one, and after that the owner that
    waits in [stop] goes on, with the thread joined. *)
Theorem stop_ends_thread this :
  reachable this → is_stopping this = true →
  (∀ ls, is_Some (run ls this) → steps_left (wpc this) < thread_steps ls →
    ∃ n w, run (take n ls) this = Some w ∧ over w = true) ∧
  (over this = false → is_Some (step Thread this)) ∧
  (∀ a, opc this = o_stop_join a true → thread_ this = true → wpc this = w_done →
    terminated this = false →
    ∃ w, step Owner this = Some w ∧ opc w = o_idle ∧ thread_ w = false ∧ stop_result w = Some (negb a)).
Proof.
  intros Hr Hsr. split; [|split].
  - intros ls Hls Hlt. destruct (stopping_steps ls this (reachable_ok _ Hr) Hsr Hls); [done|lia].
  - apply thread_goes_on.
  - intros a Ho Eth Hw Ht. eexists. split; [unfold step, Worker.step, owner_step; by rewrite Ht, Ho, Eth, Hw|].
    cbn. by rewrite andb_true_r.
Qed.
End stopping.

(** ** Kicks *)

(** Where in [wait_for_kick] the thread is, before it reads the kick, and how
    many steps it then takes to come back with it. *)
Definition kick_steps (pc : thread_pc P) : option ((bool → P) * nat) :=
  match pc with
  | w_kick_exchange _ k => Some (k, 3)
  | w_kick_wait _ k => Some (k, 4)
  | w_kick_state _ k => Some (k, 5)
  | w_kick_check _ k => Some (k, 6)
  | _ => None
  end.

(** At the exchange a kick is expected. *)
Definition expects_kick (pc : thread_pc P) : Prop :=
  match pc with w_kick_exchange e _ => e = true | _ => True end.

Lemma reachable_expects this : reachable this → expects_kick (wpc this).
Proof.
  intros [ls Hr]. eapply (run_invariant (λ w, expects_kick (wpc w))); [|exact Hr|done].
  clear. intros l this this'. by step_cases l this.
Qed.

(** The owner kicks, in [stop], a worker that is to stop. *)
Lemma reachable_stop_kick this wait :
  reachable this → opc this = o_stop_kick wait → stop_requested_ this = true.
Proof.
  intros [ls Hr]. revert wait.
  eapply (run_invariant (λ w, ∀ wait, opc w = o_stop_kick wait → stop_requested_ w = true)); [|exact Hr|done].
  clear. intros l this this'. step_cases l this; intros HI wait' Ho; cbn in *; simplify_eq/=; by eauto.
Qed.

(** The steps that end a wait: a kick, and what tells the worker to stop. *)
Definition ends_wait (l : label) : bool :=
  match l with Kick | Stop _ | Request_stop | Signal => true | _ => false end.

(** In a wait for a kick that has not come. *)
Definition still_waits (k : bool → P) this : Prop :=
  (∃ n, kick_steps (wpc this) = Some (k, n)) ∧ expects_kick (wpc this) ∧ kicked_ this = false ∧
  is_stopping this = false ∧ state_ this ≠ kStopped ∧
  match opc this with o_prepare _ _ | o_spawn _ | o_stop_kick _ => False | _ => True end.

Lemma reachable_still_waits this k n :
  reachable this → kick_steps (wpc this) = Some (k, n) → kicked_ this = false →
  is_stopping this = false → still_waits k this.
Proof.
  intros Hr Hn Hk Hs. pose proof (reachable_ok _ Hr) as [Hst How _ _].
  split; [by eexists|]. split; [by apply reachable_expects|]. split; [done|]. split; [done|]. split.
  - intros E. rewrite E in Hst. destruct (wpc this); cbn in *; try done; by destruct_or?.
  - destruct (opc this) eqn:Eo; try done; [destruct How as [E|E]; by rewrite E in Hn..|].
    apply (reachable_stop_kick _ _ Hr) in Eo. unfold is_stopping in Hs. by rewrite Eo in Hs.
Qed.

Lemma still_waits_step k l this this' :
  step l this = Some this' → ends_wait l = false → still_waits k this → still_waits k this'.
Proof.
  step_cases l this; unfold still_waits, is_stopping; cbn; intros Hl ((m & Hm) & He & Hk & Hs & Hst & Ho);
    cbn in *; simplify_eq/=; eauto 12; congruence.
Qed.

Lemma still_waits_run k ls this this' :
  run ls this = Some this' → Forall (λ l, ends_wait l = false) ls → still_waits k this → still_waits k this'.
Proof.
  intros Hr Hls. revert this Hr. induction Hls as [|l ls Hl Hls IH]; intros this Hr Hw; [by injection Hr as <-|].
  rewrite run_cons in Hr. destruct (step l this) as [w|] eqn:E; [|done].
  apply (IH w Hr). by eapply still_waits_step.
Qed.

(** Only the thread of a worker to be stopped leaves [wait_for_kick] with
    [false]. *)
Lemma leaves_with_false this k :
  reachable this → wpc this = w_kick_store k false → is_stopping this = true.
Proof.
  intros [ls Hr]. revert k. cut (∀ k, wpc this = w_kick_store k false → is_stopping this = true); [done|].
  eapply (run_invariant (λ w, ∀ k, wpc w = w_kick_store k false → is_stopping w = true));
    [|exact Hr|done].
  clear. intros l this this'. unfold is_stopping.
  step_cases l this; intros HI k0 Hp; cbn in *; simplify_eq/=; try done; try (by eauto);
    try (by erewrite HI); try (by rewrite ?orb_true_r).
Qed.

(** On the way from the kick to [work], with the steps still to take; [once] if
    no other kick comes. *)
Definition coming (once : bool) (k : bool → P) this (n : nat) : Prop :=
  match n with
  | 0 => wpc this = w_work (k true) ∧ state_ this = kStarted ∧ (once = true → kicked_ this = false)
  | 1 => wpc this = w_kick_store k true ∧ (once = true → kicked_ this = false)
  | 2 => wpc this = w_kick_leave k ∧ (once = true → kicked_ this = false)
  | _ => kick_steps (wpc this) = Some (k, n) ∧ expects_kick (wpc this) ∧ kicked_ this = true
  end ∧ is_stopping this = false ∧ terminated this = false.

Lemma coming_thread once k this n :
  coming once k this (S n) → ∃ w, step Thread this = Some w ∧ coming once k w n.
Proof.
  intros (Hc & Hs & Ht). unfold step, Worker.step, worker_step, wait_for_kick_step. rewrite Ht.
  destruct n as [|[|n]].
  - destruct Hc as [-> Hk]. eexists. split; [done|]. by split.
  - destruct Hc as [-> Hk]. rewrite Hs. eexists. split; [done|]. by split.
  - destruct Hc as (Hc & He & Hk).
    destruct (wpc this) as [| | | |e k'|e k'|e k'|e k'| | | | |] eqn:Ew; cbn in Hc, He; try done;
      injection Hc as -> <-; subst; rewrite ?Hk, ?Hs; eexists; (split; [done|]);
      unfold coming, is_stopping in *; cbn; by destruct (decide (state_ this = kStarted)).
Qed.

Lemma coming_kick k this n :
  coming false k this n → step Kick this = Some (kick this) ∧ coming false k (kick this) n.
Proof.
  intros (Hc & Hs & Ht). unfold step, Worker.step. rewrite Ht. split; [done|].
  unfold coming, is_stopping in *. cbn. destruct n as [|[|[|n]]]; naive_solver.
Qed.

Lemma coming_run once k ls this :
  Forall (λ l, l = Thread ∨ (l = Kick ∧ once = false)) ls → coming once k this (thread_steps ls) →
  ∃ w, run ls this = Some w ∧ coming once k w 0.
Proof.
  intros Hls. revert this. induction Hls as [|l ls [->|[-> ->]] Hls IH]; intros this Hc.
  - by exists this.
  - destruct (coming_thread _ _ _ _ Hc) as (w & E & Hw). rewrite run_cons, E. by apply IH.
  - destruct (coming_kick _ _ _ Hc) as [E Hw]. rewrite run_cons, E. by apply IH.
Qed.

Lemma no_other_kick ls :
  Forall (λ l, l = Thread ∨ l = Kick) ls →
  Forall (λ l, l = Thread ∨ (l = Kick ∧ bool_decide (Kick ∉ ls) = false)) ls.
Proof.
  intros Hls. rewrite Forall_forall in Hls |- *. intros l Hl. destruct (Hls l Hl) as [?| ->]; [by left|].
  right. split; [done|]. apply bool_decide_eq_false. intros Hn. by apply Hn.
Qed.

(** C32: In every execution, a thread in the loop of [wait_for_kick] that is
    not to stop comes back when it is kicked and not before. Kicked, it is in
    [work] again, with [true] and with the state started, after at most six of
    its own steps, however many more kicks come meanwhile, and without another
    one the flag is down again. Not kicked, it is still in the loop whatever it
    and the others do, but for a kick, a request to stop or a signal: its
    rounds end with [expected_kicked_value] true again, so that the exchange
    never takes a flag that is down. And [wait_for_kick] gives [false] only to
    a worker that is to stop. *)
Theorem kick_wakes this k n :
  reachable this → terminated this = false → is_stopping this = false →
  kick_steps (wpc this) = Some (k, n) →
  n ≤ 6 ∧
  (∀ ls, Forall (λ l, l = Thread ∨ l = Kick) ls → thread_steps ls = n →
    ∃ w, run (Kick :: ls) this = Some w ∧ wpc w = w_work (k true) ∧ state_ w = kStarted ∧
      (Kick ∉ ls → kicked_ w = false)) ∧
  (kicked_ this = false → ∀ ls w, run ls this = Some w → Forall (λ l, ends_wait l = false) ls →
    kicked_ w = false ∧ ∃ m, kick_steps (wpc w) = Some (k, m)) ∧
  ∀ w k', reachable w → wpc w = w_kick_store k' false → is_stopping w = true.
Proof.
  intros Hr Ht Hs Hn.
  assert (Hb : 3 ≤ n ≤ 6) by (destruct (wpc this); cbn in Hn; simplify_eq/=; lia).
  split; [lia|]. split; [|split; [|intros w k'; apply leaves_with_false]].
  - intros ls Hls Hcount. rewrite run_cons. unfold step at 1, Worker.step. rewrite Ht. cbn [mbind option_bind].
    destruct (coming_run (bool_decide (Kick ∉ ls)) k ls (kick this)) as (w & Hw & (Hp & Hst & Hk) & _).
    + by apply no_other_kick.
    + rewrite Hcount. destruct n as [|[|[|m]]]; [lia..|].
      repeat split; try done. by apply (reachable_expects _ Hr).
    + exists w. repeat split; try done. intros Hno. apply Hk. by apply bool_decide_eq_true.
  - intros Hk ls w Hrun Hls. destruct (still_waits_run k _ _ _ Hrun Hls) as (Hw & _ & Hkw & _); [|done].
    by eapply reachable_still_waits.
Qed.

(** ** Starting *)

(** The thread is past the one notification of its start. *)
Definition notified_already (pc : thread_pc P) : bool :=
  match pc with w_get_id | w_enter | w_notify => false | _ => true end.

(** The owner waits in [start], without a notification. *)
Definition waits_unnotified (oc : owner_pc) : Prop := oc = o_start_loop ∨ oc = o_start_wait false.

Lemma lost_notification l this this' :
  step l this = Some this' → l ≠ Spurious →
  waits_unnotified (opc this) ∧ notified_already (wpc this) = true →
  waits_unnotified (opc this') ∧ notified_already (wpc this') = true.
Proof.
  unfold waits_unnotified. step_cases l this; intros Hl [Ho Hw]; cbn in *; try done; destruct_or?;
    simplify_eq/=; auto.
Qed.

Lemma notification_wakes this :
  wpc this = w_notify → opc this = o_start_wait false → terminated this = false →
  ∃ w, run [Thread; Owner] this = Some w ∧ opc w = o_idle.
Proof.
  intros Hw Ho Ht. destruct this as [sr ki i st th ex sg pc oc re te]. cbn in *. subst.
  eexists. split; reflexivity.
Qed.

Lemma unnotified_forever ls this this' :
  run ls this = Some this' → Spurious ∉ ls →
  waits_unnotified (opc this) ∧ notified_already (wpc this) = true → waits_unnotified (opc this').
Proof.
  revert this. induction ls as [|l ls IH]; intros this Hr Hs Hw.
  { injection Hr as <-. apply Hw. }
  rewrite not_elem_of_cons in Hs. destruct Hs as [Hl Hs]. rewrite run_cons in Hr.
  destruct (step l this) as [w|] eqn:E; [|done]. apply (IH w Hr Hs).
  apply (lost_notification _ _ _ E); [congruence|done].
Qed.

Lemma notifies_first :
  ∃ ls this, run ls new_Worker = Some this ∧ opc this = o_start_loop ∧
    notified_already (wpc this) = true.
Proof.
  exists [Start false true; Owner; Owner; Thread; Thread; Thread],
    (mk_Worker false false thread_id kStarted true None false (w_work work) o_start_loop None false).
  split; [reflexivity|by split].
Qed.

(** C33: Whether [start] with [wait] comes back is a race. If the owner already
    waits when the thread reaches its notification, the notification lets it
    go on. But the thread may notify first, and the loop asks for nothing but
    a notification: then, whatever all threads do from there on, the owner
    stays in [start] unless the condition variable wakes it spuriously. *)
Theorem start_waits_for_notification :
  (∀ this, wpc this = w_notify → opc this = o_start_wait false → terminated this = false →
    ∃ w, run [Thread; Owner] this = Some w ∧ opc w = o_idle) ∧
  (∃ ls this, run ls new_Worker = Some this ∧ opc this = o_start_loop ∧
    ∀ ls' this', run ls' this = Some this' → Spurious ∉ ls' → waits_unnotified (opc this')).
Proof.
  split; [apply notification_wakes|]. destruct notifies_first as (ls & this & Hr & Ho & Hn).
  exists ls, this. split; [done|]. split; [done|]. intros ls' this' Hr' Hs.
  apply (unnotified_forever _ _ _ Hr' Hs). by split; [left|].
Qed.

(** A worker starts once. When its thread has ended by itself, starting it
    again before a [stop] that joins terminates the process; and after a
    request to stop, which nothing takes back, every wait of a later thread
    comes back with [false]. *)
Theorem worker_starts_once this :
  terminated this = false →
  (opc this = o_idle → state_ this = kStopped → thread_ this = true → ∀ kicked wait,
    ∃ w, run [Start kicked wait; Owner; Owner] this = Some w ∧ terminated w = true) ∧
  (stop_requested_ this = true → ∀ ls w, run ls this = Some w →
    stop_requested_ w = true ∧
    ∀ k, wpc w = w_kick_leave k → terminated w = false →
      ∃ w', run [Thread; Thread] w = Some w' ∧ wpc w' = w_work (k false)).
Proof.
  intros Ht. split.
  - intros Ho Hs Hth kicked wait. destruct this as [sr ki i st th ex sg pc oc re te]. cbn in *. subst.
    eexists. split; reflexivity.
  - intros Hsr ls w Hr.
    assert (Hw : stop_requested_ w = true).
    { eapply (run_invariant (λ w, stop_requested_ w = true)); [|exact Hr|exact Hsr].
      clear. intros l this this'. by step_cases l this. }
    split; [done|]. intros k Hk Hte. destruct w as [sr ki i st th ex sg pc oc re te]. cbn in *. subst.
    eexists. split; reflexivity.
Qed.
End theory.

(** ** Instances *)

(** A worker that counts its kicks, one step each, until it is to stop. *)
Inductive counter := c_wait | c_count | c_end.
Definition counter_next (p : counter) : command counter :=
  match p with
  | c_wait => Wait_for_kick (λ go, if go then c_count else c_end)
  | c_count => Compute c_wait
  | c_end => Finish
  end.
Definition counter_bound (p : counter) : nat :=
  match p with c_wait => 1 | c_count => 2 | c_end => 0 end.

Lemma counter_gives_up : gives_up counter_next counter_bound.
Proof. split; [intros [] [] [=]; cbn; lia|intros [] k [= <-]; cbn; lia]. Defined.

(** Waiting for a kick, in its first round. *)
Definition waiting : Worker counter :=
  mk_Worker false false 7 kKickWaiting true None false (w_kick_wait false (λ go, if go then c_count else c_end))
    o_idle None false.
Definition until_waiting : list label :=
  [Start false false; Owner; Owner; Thread; Thread; Thread; Thread; Thread; Thread; Thread].
Lemma waiting_reachable : reachable counter_next c_wait 7 waiting.
Proof. exists until_waiting. reflexivity. Defined.

Lemma state_tells_thread_witness :
  reachable counter_next c_wait 7 waiting ∧
  state_at (wpc waiting) (opc waiting) (state_ waiting).
Proof.
  split; [exact waiting_reachable|].
  exact (proj1 (state_tells_thread counter_next c_wait 7 waiting waiting_reachable)).
Defined.

(** The same, and asked to stop by the owner, which joins. *)
Definition to_stop : Worker counter :=
  mk_Worker true true 7 kKickWaiting true None false (w_kick_wait false (λ go, if go then c_count else c_end))
    (o_stop_join false true) None false.
Lemma to_stop_reachable : reachable counter_next c_wait 7 to_stop.
Proof. exists (until_waiting ++ [Stop true; Owner]). reflexivity. Defined.

Lemma stop_ends_thread_witness :
  gives_up counter_next counter_bound ∧ reachable counter_next c_wait 7 to_stop ∧
  stop_requested_ to_stop = true ∧ steps_left c_wait counter_bound (wpc to_stop) = 8 ∧
  is_Some (step counter_next c_wait 7 Thread to_stop).
Proof.
  split; [exact counter_gives_up|]. split; [exact to_stop_reachable|]. split; [reflexivity|].
  split; [reflexivity|].
  destruct (stop_ends_thread counter_next c_wait 7 counter_bound counter_gives_up to_stop
    to_stop_reachable eq_refl) as (_ & Hstep & _).
  exact (Hstep eq_refl).
Defined.

Lemma kick_wakes_witness :
  reachable counter_next c_wait 7 waiting ∧ kicked_ waiting = false ∧
  (∃ w, run counter_next c_wait 7 [Kick; Thread; Thread; Thread; Thread] waiting = Some w ∧
    wpc w = w_work c_count ∧ state_ w = kStarted ∧ (Kick ∉ [Thread; Thread; Thread; Thread] → kicked_ w = false)) ∧
  (∀ w, run counter_next c_wait 7 (replicate 9 Thread) waiting = Some w →
    kicked_ w = false ∧
    ∃ m, kick_steps (wpc w) = Some (λ go : bool, if go then c_count else c_end, m)).
Proof.
  destruct (kick_wakes counter_next c_wait 7 waiting (λ go, if go then c_count else c_end) 4
    waiting_reachable eq_refl eq_refl eq_refl) as (_ & Hw & Hno & _).
  split; [exact waiting_reachable|]. split; [reflexivity|]. split.
  - apply Hw; [|reflexivity]. repeat constructor; by left.
  - intros w Hr. apply (Hno eq_refl _ w Hr). repeat constructor.
Defined.

(** A worker whose thread has come to its end. *)
Definition ended : Worker counter :=
  mk_Worker false false 0 kStopped true None false w_done o_idle None false.

Lemma worker_starts_once_witness :
  terminated ended = false ∧
  ∃ w, run counter_next c_wait 7 [Start true true; Owner; Owner] ended = Some w ∧ terminated w = true.
Proof.
  split; [reflexivity|].
  destruct (worker_starts_once counter_next c_wait 7 ended eq_refl) as [Hre _].
  exact (Hre eq_refl eq_refl eq_refl true true).
Defined.
