(* ===== verification/Ossignals.v ===== *)
(** * Signals of the operating system

    Models [src/zen/node/concurrency/ossignals.hpp] and [ossignals.cpp] as
    compiled on Linux: the names of the signals, the handler and what it keeps.
    The signals are handled one after the other; the custom handler is a
    function on a state of its own. *)
From S2P Require Import Prelude Digits.
From stdpp Require Import gmap.
Local Open Scope Z_scope.

(** ** The signals, by their numbers on Linux *)

Definition SIGHUP : Z := 1.
Definition SIGINT : Z := 2.
Definition SIGQUIT : Z := 3.
Definition SIGILL : Z := 4.
Definition SIGTRAP : Z := 5.
Definition SIGABRT : Z := 6.
Definition SIGBUS : Z := 7.
Definition SIGFPE : Z := 8.
Definition SIGKILL : Z := 9.
Definition SIGUSR1 : Z := 10.
Definition SIGSEGV : Z := 11.
Definition SIGUSR2 : Z := 12.
Definition SIGALRM : Z := 14.
Definition SIGTERM : Z := 15.
Definition SIGSTOP : Z := 19.
Definition SIGTSTP : Z := 20.
Definition SIGXCPU : Z := 24.
Definition SIGXFSZ : Z := 25.
Definition SIGVTALRM : Z := 26.
Definition SIGSYS : Z := 31.

(** The cases of the switch that are compiled: there is no [SIGBREAK], no
    [SIGSTP] and no [SIGABRT_COMPAT]. *)
Definition sig_name (sig_code : Z) : list byte :=
  let is_ := Z.eqb sig_code in
  chars (if is_ SIGSEGV then "SIGSEGV"
  else if is_ SIGBUS then "SIGBUS"
  else if is_ SIGSYS then "SIGSYS"
  else if is_ SIGFPE then "SIGFPE"
  else if is_ SIGILL then "SIGILL"
  else if is_ SIGTRAP then "SIGTRAP"
  else if is_ SIGQUIT then "SIGQUIT"
  else if is_ SIGSTOP then "SIGSTOP"
  else if is_ SIGKILL then "SIGKILL"
  else if is_ SIGABRT then "SIGABRT"
  else if is_ SIGINT then "SIGINT"
  else if is_ SIGTERM then "SIGTERM"
  else if is_ SIGVTALRM then "SIGVTALRM"
  else if is_ SIGXFSZ then "SIGXFZS"
  else if is_ SIGXCPU then "SIGXCPU"
  else if is_ SIGHUP then "SIGHUP"
  else if is_ SIGALRM then "SIGALRM"
  else if is_ SIGUSR1 then "SIGUSR1"
  else if is_ SIGUSR2 then "SIGUSR2"
  else "Unknown")%string.

Definition kHandleableCodes : list Z := [SIGQUIT; SIGTSTP; SIGINT; SIGTERM].

(** ** The handler *)

(** The static members; the signals whose action is [Ossignals::handle]; the
    lines written to the standard error; and the state of the custom handler. *)
Record Ossignals (H : Type) := mk_Ossignals {
  sig_count_ : Z;
  sig_code_ : Z;
  signalled_ : bool;
  custom_handler_ : option (Z → H → H);
  hooked : gset Z;
  cerr : list (list byte);
  handler_state : H
}.
Arguments mk_Ossignals {H} _ _ _ _ _ _ _.
Arguments sig_count_ {H} _.
Arguments sig_code_ {H} _.
Arguments signalled_ {H} _.
Arguments custom_handler_ {H} _.
Arguments hooked {H} _.
Arguments cerr {H} _.
Arguments handler_state {H} _.

Record os_signal_exception := mk_os_signal_exception { exc_sig_code : Z; exc_message : list byte }.
Definition new_os_signal_exception (code : Z) : os_signal_exception :=
  mk_os_signal_exception code (chars "Caught OS signal " ++ sig_name code).
Definition exc_what (this : os_signal_exception) : list byte := exc_message this.

Section code.
Context {H : Type}.
Implicit Types this : Ossignals H.

Definition init (custom_handler : option (Z → H → H)) this : Ossignals H :=
  mk_Ossignals (sig_count_ this) (sig_code_ this) (signalled_ this) custom_handler
    (fold_left (λ hs c, {[c]} ∪ hs) kHandleableCodes (hooked this)) (cerr this) (handler_state this).

Definition caught_line (sig_code : Z) : list byte :=
  chars "Caught OS signal " ++ sig_name sig_code ++ chars ", shutting down ...".
Definition already_line (sig_count : Z) : list byte :=
  chars "Already shutting down. Interrupt other " ++ dec (10 - sig_count) ++
  chars " times to panic.".

Definition handle (sig_code : Z) this : outcome Empty_set (Ossignals H) :=
  let this :=
    if signalled_ this then this
    else mk_Ossignals (sig_count_ this) sig_code true (custom_handler_ this) (hooked this)
           (cerr this ++ [caught_line sig_code]) (handler_state this) in
  let sig_count := u32 (sig_count_ this + 1) in
  if 10 <=? sig_count then Abort else
  let lines := if 1 <? sig_count then [already_line sig_count] else [] in
  let state := match custom_handler_ this with
               | Some custom_handler => custom_handler sig_code (handler_state this)
               | None => handler_state this
               end in
  Return (mk_Ossignals sig_count (sig_code_ this) (signalled_ this) (custom_handler_ this)
    ({[sig_code]} ∪ hooked this) (cerr this ++ lines) state).

Definition signalled this : bool := signalled_ this.

Definition reset this : Ossignals H :=
  mk_Ossignals 0 (sig_code_ this) false (custom_handler_ this) (hooked this) (cerr this)
    (handler_state this).

Definition throw_if_signalled this : outcome os_signal_exception unit :=
  if signalled this then Throw (new_os_signal_exception (sig_code_ this)) else Return tt.

(** The signals of a list, handled one after the other. *)
Fixpoint handle_all (codes : list Z) this : outcome Empty_set (Ossignals H) :=
  match codes with
  | [] => Return this
  | c :: codes => this ← handle c this; handle_all codes this
  end.

(** ** What a series of signals does *)

(** The lines of a series that begins when [count] were handled. *)
Fixpoint lines_from (count : Z) (codes : list Z) : list (list byte) :=
  match codes with
  | [] => []
  | c :: codes =>
      (if count =? 0 then caught_line c else already_line (count + 1)) :: lines_from (count + 1) codes
  end.

Definition custom_all (this : Ossignals H) (codes : list Z) (s : H) : H :=
  match custom_handler_ this with
  | Some f => fold_left (λ s c, f c s) codes s
  | None => s
  end.

Lemma handle_all_from this codes :
  0 <= sig_count_ this < 10 → signalled_ this = negb (sig_count_ this =? 0) →
  sig_count_ this + Z.of_nat (length codes) < 10 →
  ∃ this', handle_all codes this = Return this' ∧
    sig_count_ this' = sig_count_ this + Z.of_nat (length codes) ∧
    signalled_ this' = negb (sig_count_ this' =? 0) ∧
    sig_code_ this' = (if sig_count_ this =? 0 then default (sig_code_ this) (head codes)
                       else sig_code_ this) ∧
    hooked this' = list_to_set codes ∪ hooked this ∧
    custom_handler_ this' = custom_handler_ this ∧
    cerr this' = cerr this ++ lines_from (sig_count_ this) codes ∧
    handler_state this' = custom_all this codes (handler_state this).
Proof.
  revert this. induction codes as [|c codes IH]; intros this Hc Hs Hn; cbn [length] in *.
  - exists this. cbn. rewrite Z.add_0_r, app_nil_r. split_and!; try done.
    + by destruct (_ =? 0).
    + set_solver.
    + unfold custom_all. by destruct (custom_handler_ this).
  - set (s1 := mk_Ossignals (sig_count_ this + 1) (if sig_count_ this =? 0 then c else sig_code_ this)
      true (custom_handler_ this) ({[c]} ∪ hooked this)
      (cerr this ++ [if sig_count_ this =? 0 then caught_line c else already_line (sig_count_ this + 1)])
      (custom_all this [c] (handler_state this))).
    assert (Hh : handle c this = Return s1).
    { unfold handle, u32, wrap, s1, custom_all. rewrite Hs.
      destruct (Z.eqb_spec (sig_count_ this) 0) as [E|E]; cbn;
        rewrite (Z.mod_small (sig_count_ this + 1)) by lia;
        rewrite (proj2 (Z.leb_gt _ _)) by lia.
      - rewrite E. cbn. by rewrite app_nil_r.
      - rewrite (proj2 (Z.ltb_lt _ _)) by lia. cbn in Hs. rewrite Hs. by destruct (custom_handler_ this). }
    cbn [handle_all]. rewrite Hh. cbn [mbind outcome_bind].
    assert (Hne : (sig_count_ this + 1 =? 0) = false) by lia.
    destruct (IH s1) as (this' & -> & E1 & E2 & E3 & E4 & E5 & E6 & E7); unfold s1 in *; cbn in *;
      [lia|by rewrite Hne|lia|]. rewrite Hne in E3.
    exists this'. split; [done|]. cbn in *. rewrite E3, E4, E5, E6, E7.
    split; [lia|]. split; [done|]. split; [|split; [set_solver|split; [done|split]]].
    + by destruct (_ =? 0).
    + by rewrite <-app_assoc.
    + unfold custom_all. cbn. by destruct (custom_handler_ this).
Qed.

(** A tenth signal aborts, whatever comes after it. *)
Lemma handle_all_abort this codes :
  sig_count_ this = 0 → signalled_ this = false → (10 ≤ length codes)%nat →
  handle_all codes this = Abort.
Proof.
  intros Hc Hs Hn. rewrite <-(take_drop 9 codes). assert (Happ : ∀ l l' (s : Ossignals H),
    handle_all (l ++ l') s = handle_all l s ≫= handle_all l').
  { intros l l'. induction l as [|c l IH]; intros s; [done|]. cbn.
    destruct (handle c s); cbn; [apply IH|done..]. }
  rewrite Happ. destruct (handle_all_from this (take 9 codes)) as (this' & E & E1 & _);
    rewrite ?length_take, ?Hc; [lia|by rewrite Hs|lia|].
  rewrite E. cbn [mbind outcome_bind]. rewrite Hc, length_take in E1.
  destruct (drop 9 codes) as [|c l] eqn:Ed.
  { apply (f_equal length) in Ed. rewrite length_drop in Ed. cbn in Ed. lia. }
  cbn [handle_all]. unfold handle.
  set (t := if signalled_ this' then _ else _).
  assert (Ht : sig_count_ t = 9) by (unfold t; destruct (signalled_ this'); cbn; lia).
  by rewrite Ht.
Qed.

(** What is thrown after a series names its first signal. *)
Lemma handle_all_throws this codes this' :
  sig_count_ this = 0 → signalled_ this = false → handle_all codes this = Return this' →
  throw_if_signalled this' =
    match head codes with
    | None => Return tt
    | Some c => Throw (mk_os_signal_exception c (chars "Caught OS signal " ++ sig_name c))
    end.
Proof.
  intros Hc Hs Hh. destruct (decide (length codes < 10)%nat) as [Hn|Hn].
  - destruct (handle_all_from this codes) as (t & E & E1 & E2 & E3 & _);
      rewrite ?Hc; [lia|by rewrite Hs|lia|].
    rewrite Hh in E. injection E as <-. rewrite Hc in *.
    unfold throw_if_signalled, signalled. rewrite E2, E1, E3. cbn.
    destruct codes as [|c codes]; [done|]. cbn [length head default].
    destruct (Z.eqb_spec (0 + Z.of_nat (S (length codes))) 0); [lia|done].
  - by rewrite handle_all_abort in Hh by (done || lia).
Qed.

(** C34: From the beginning, or after a reset, up to nine signals are all
    handled: the custom handler saw each of them in order, the first is the one
    [throw_if_signalled] throws, with its name, and one line was written for
    each, the first one's name and then how many are left before the process
    panics. The tenth aborts the process. *)
Theorem signals_handled this codes :
  sig_count_ this = 0 → signalled_ this = false →
  if decide (length codes < 10)%nat then
    ∃ this', handle_all codes this = Return this' ∧
      throw_if_signalled this' =
        match head codes with
        | None => Return tt
        | Some c => Throw (mk_os_signal_exception c (chars "Caught OS signal " ++ sig_name c))
        end ∧
      handler_state this' = custom_all this codes (handler_state this) ∧
      cerr this' = cerr this ++ lines_from 0 codes ∧
      throw_if_signalled (reset this') = Return tt ∧ sig_count_ (reset this') = 0
  else handle_all codes this = Abort.
Proof.
  intros Hc Hs. destruct (decide (length codes < 10)%nat) as [Hn|Hn].
  - destruct (handle_all_from this codes) as (this' & E & E1 & E2 & E3 & _ & _ & E6 & E7);
      rewrite ?Hc; [lia|by rewrite Hs|lia|].
    exists this'. split; [done|]. rewrite Hc in *.
    split; [by apply (handle_all_throws this)|by split_and!].
  - apply handle_all_abort; [done|done|lia].
Qed.
End code.

(** One of the signals handled has no name, and another the wrong one. *)
Lemma sig_names_wrong : SIGTSTP ∈ kHandleableCodes ∧ sig_name SIGTSTP = chars "Unknown" ∧
  sig_name SIGXFSZ = chars "SIGXFZS".
Proof. split; [right; left|done]. Qed.

(** A handler that keeps the codes. *)
Definition an_Ossignals : Ossignals (list Z) :=
  init (Some (λ c s, s ++ [c])) (mk_Ossignals 0 0 false None ∅ [] []).

Lemma signals_handled_witness :
  sig_count_ an_Ossignals = 0 ∧ signalled_ an_Ossignals = false ∧
  (∃ this', handle_all [SIGINT; SIGTERM] an_Ossignals = Return this' ∧
    handler_state this' = [SIGINT; SIGTERM]).
Proof.
  split; [reflexivity|]. split; [reflexivity|].
  pose proof (signals_handled an_Ossignals [SIGINT; SIGTERM] eq_refl eq_refl) as Hs.
  rewrite decide_True in Hs by (cbn; lia).
  destruct Hs as (this' & E & _ & Hh & _). exists this'. split; [exact E|exact Hh].
Defined.
