(* ===== verification/Timer.v ===== *)
(** * The asynchronous timer

    Models the class [Timer] of [src/zen/node/common/asio_timer.hpp]. The
    deadline timer and the context of boost::asio are an interface
    ([DeadlineTimer]), with the documented behaviour of their calls in terms of
    the waits that are pending and of the handlers that are ready to be run,
    each with whether its wait was cancelled. The methods and the handler are
    the steps; the callback is a function on a state of its own. *)
From S2P Require Import Prelude.
Local Open Scope nat_scope.

Class DeadlineTimer (D : Type) := {
  pending : D → nat;
  ready : D → list bool;
  cancel : D → D;
  expires_from_now : Z → D → D;
  async_wait : D → D;
  elapse : D → D;
  next_handler : D → option (bool * D);
  cancel_spec d : pending (cancel d) = 0 ∧ ready (cancel d) = ready d ++ replicate (pending d) true;
  expires_spec ms d :
    pending (expires_from_now ms d) = 0 ∧
    ready (expires_from_now ms d) = ready d ++ replicate (pending d) true;
  async_wait_spec d : pending (async_wait d) = S (pending d) ∧ ready (async_wait d) = ready d;
  elapse_spec d : pending (elapse d) = 0 ∧ ready (elapse d) = ready d ++ replicate (pending d) false;
  next_handler_spec d :
    match next_handler d with
    | None => ready d = []
    | Some (ec, d') => ready d = ec :: ready d' ∧ pending d' = pending d
    end
}.

(** The interface is inhabited: the two views themselves. *)
Record ref_deadline := mk_ref_deadline { ref_pending : nat; ref_ready : list bool }.
Definition ref_deadline_timer : DeadlineTimer ref_deadline.
Proof.
  refine {| pending := ref_pending; ready := ref_ready;
    cancel d := mk_ref_deadline 0 (ref_ready d ++ replicate (ref_pending d) true);
    expires_from_now _ d := mk_ref_deadline 0 (ref_ready d ++ replicate (ref_pending d) true);
    async_wait d := mk_ref_deadline (S (ref_pending d)) (ref_ready d);
    elapse d := mk_ref_deadline 0 (ref_ready d ++ replicate (ref_pending d) false);
    next_handler d := match ref_ready d with
                      | [] => None
                      | ec :: r => Some (ec, mk_ref_deadline (ref_pending d) r)
                      end |}; try done.
  intros d. by destruct (ref_ready d).
Defined.

Section code.
Context {D H : Type} `{deadline : DeadlineTimer D}.

Record Timer := mk_Timer {
  is_running : bool;
  interval_ : Z;
  timer_ : D;
  call_back_ : option (H → H);
  client : H
}.
Implicit Types this : Timer.

Definition with_timer (d : D) this : Timer :=
  mk_Timer (is_running this) (interval_ this) d (call_back_ this) (client this).

Definition launch this : Timer :=
  with_timer (async_wait (expires_from_now (interval_ this) (timer_ this))) this.

Definition start this : Timer :=
  if is_running this then this
  else launch (mk_Timer true (interval_ this) (timer_ this) (call_back_ this) (client this)).

Definition stop this : Timer :=
  if is_running this
  then mk_Timer false (interval_ this) (cancel (timer_ this)) (call_back_ this) (client this)
  else this.

Definition reset this : Timer := with_timer (cancel (timer_ this)) this.

(** The handler of a wait, with its error code. *)
Definition handler (ec : bool) this : Timer :=
  let this :=
    if negb ec then
      match call_back_ this with
      | Some f => mk_Timer (is_running this) (interval_ this) (timer_ this) (call_back_ this) (f (client this))
      | None => this
      end
    else this in
  if is_running this then launch this else this.

Definition new_Timer (d : D) (interval : Z) (call_back : option (H → H)) (auto_start : bool) (s : H) :
    outcome Empty_set Timer :=
  if (0 <? interval)%Z then
    let this := mk_Timer false interval d call_back s in
    Return (if auto_start then start this else this)
  else Abort.

Definition destroy_Timer this : Timer := stop this.

(** What may happen: the calls, the passing of the interval, and the context
    running the next ready handler. *)
Inductive event := Start | Stop | Reset | Elapse | Handler.

Definition step (e : event) this : Timer :=
  match e with
  | Start => start this
  | Stop => stop this
  | Reset => reset this
  | Elapse => with_timer (elapse (timer_ this)) this
  | Handler =>
      match next_handler (timer_ this) with
      | Some (ec, d) => handler ec (with_timer d this)
      | None => this
      end
  end.
Definition run (es : list event) this : Timer := fold_left (λ s e, step e s) es this.

(** ** The waits *)

Definition outstanding this : nat := pending (timer_ this) + length (ready (timer_ this)).

Lemma launch_waits this :
  pending (timer_ (launch this)) = 1 ∧
  ready (timer_ (launch this)) = ready (timer_ this) ++ replicate (pending (timer_ this)) true.
Proof.
  cbn. destruct (async_wait_spec (expires_from_now (interval_ this) (timer_ this))) as [-> ->].
  by destruct (expires_spec (interval_ this) (timer_ this)) as [-> ->].
Qed.

Lemma outstanding_launch this : outstanding (launch this) = S (outstanding this).
Proof.
  unfold outstanding. destruct (launch_waits this) as [-> ->]. rewrite length_app, length_replicate. lia.
Qed.

Lemma outstanding_cancel d this :
  d = cancel (timer_ this) ∨ d = elapse (timer_ this) →
  pending d + length (ready d) = outstanding this.
Proof.
  unfold outstanding. intros [-> | ->].
  - destruct (cancel_spec (timer_ this)) as [-> ->]. rewrite length_app, length_replicate. lia.
  - destruct (elapse_spec (timer_ this)) as [-> ->]. rewrite length_app, length_replicate. lia.
Qed.

Lemma outstanding_handler ec this :
  outstanding (handler ec this) = if is_running this then S (outstanding this) else outstanding this.
Proof.
  unfold handler. destruct ec, (call_back_ this); cbn [negb is_running];
    destruct (is_running this); rewrite ?outstanding_launch; done.
Qed.

(** Each step adds or takes waits as its event says. *)
Lemma step_outstanding e this :
  outstanding (step e this) =
    match e with
    | Start => if is_running this then outstanding this else S (outstanding this)
    | Handler => if is_running this then outstanding this else Nat.pred (outstanding this)
    | _ => outstanding this
    end ∨ e = Handler ∧ next_handler (timer_ this) = None ∧ step e this = this.
Proof.
  destruct e; cbn [step].
  - left. unfold start. destruct (is_running this) eqn:E; [done|]. by rewrite outstanding_launch.
  - left. unfold stop. destruct (is_running this); [|done]. apply outstanding_cancel. by left.
  - left. apply outstanding_cancel. by left.
  - left. apply outstanding_cancel. by right.
  - pose proof (next_handler_spec (timer_ this)) as Hn.
    destruct (next_handler (timer_ this)) as [[ec d]|]; [left|by right].
    rewrite outstanding_handler. destruct Hn as [Hr Hp]. cbn [is_running with_timer].
    assert (E : outstanding this = S (outstanding (with_timer d this)))
      by (unfold outstanding; cbn; rewrite Hr, Hp; cbn; lia).
    destruct (is_running this); rewrite E; done.
Qed.

(** The uses in which no [start] comes between a [stop] and the handler of the
    wait it cancelled. *)
Fixpoint disciplined (es : list event) this : Prop :=
  match es with
  | [] => True
  | e :: es => (e = Start → is_running this = true ∨ outstanding this = 0) ∧ disciplined es (step e this)
  end.

Definition one_wait this : Prop :=
  if is_running this then outstanding this = 1 else outstanding this ≤ 1.

Lemma step_running e this :
  is_running (step e this) = match e with Start => true | Stop => false | _ => is_running this end.
Proof.
  destruct e; cbn [step]; try done.
  - unfold start. by destruct (is_running this) eqn:E.
  - unfold stop. by destruct (is_running this) eqn:E.
  - destruct (next_handler (timer_ this)) as [[ec d]|]; [|done].
    unfold handler, launch, with_timer. destruct ec, (call_back_ this); cbn; by case_match.
Qed.

Lemma step_one_wait e this :
  (e = Start → is_running this = true ∨ outstanding this = 0) → one_wait this → one_wait (step e this).
Proof.
  intros Hd. unfold one_wait. rewrite step_running.
  destruct (step_outstanding e this) as [E|(-> & _ & E)]; [|by rewrite E].
  rewrite E. destruct e; destruct (is_running this); lia.
Qed.

Lemma handler_waits ec this :
  is_running this = true →
  pending (timer_ (handler ec this)) = 1 ∧
  ready (timer_ (handler ec this)) = ready (timer_ this) ++ replicate (pending (timer_ this)) true.
Proof.
  intros Hr. rewrite <- (proj1 (launch_waits this)), <- (proj2 (launch_waits this)).
  unfold handler, launch, with_timer. destruct ec, (call_back_ this); cbn; by rewrite Hr.
Qed.

Lemma client_cancelled this : client (handler true this) = client this.
Proof. unfold handler. cbn. by case_match. Qed.

(** A handler whose wait was not cancelled. *)
Lemma handler_calls this d r f :
  next_handler (timer_ this) = Some (false, d) → call_back_ this = Some f → r = step Handler this →
  client r = f (client this).
Proof.
  intros Hn Hf ->. cbn [step]. rewrite Hn. unfold handler, with_timer, launch. cbn. rewrite Hf. by case_match.
Qed.

Lemma step_call_back e this : call_back_ (step e this) = call_back_ this.
Proof.
  destruct e; cbn [step]; unfold start, stop, handler, launch, with_timer; repeat case_match; done.
Qed.

Lemma run_call_back es this : call_back_ (run es this) = call_back_ this.
Proof. revert this. induction es as [|e es IH]; intros this; cbn; [done|]. by rewrite IH, step_call_back. Qed.

Lemma run_one_wait es this : disciplined es this → one_wait this → one_wait (run es this).
Proof.
  revert this. induction es as [|e es IH]; intros this; cbn; [done|].
  intros [He Hd] H1. apply IH; [done|]. by apply step_one_wait.
Qed.

Lemma new_Timer_one_wait d interval cb auto s this :
  pending d = 0 → ready d = [] → new_Timer d interval cb auto s = Return this → one_wait this.
Proof.
  intros Hp Hr. unfold new_Timer. case_match; [|done]. intros [= <-]. unfold one_wait.
  assert (E : outstanding (mk_Timer false interval d cb s) = 0) by (unfold outstanding; cbn; by rewrite Hp, Hr).
  destruct auto; cbn; [|by rewrite E; lia]. change (start _) with (launch (mk_Timer true interval d cb s)).
  rewrite outstanding_launch. by f_equal.
Qed.

(** A stopped timer whose ready handlers are all cancelled ones. *)
Definition silent this : Prop :=
  is_running this = false ∧ pending (timer_ this) = 0 ∧ Forall (eq true) (ready (timer_ this)).

Lemma step_silent e this :
  e ≠ Start → silent this → silent (step e this) ∧ client (step e this) = client this.
Proof.
  intros He (Hr & Hp & Ha). destruct e; cbn [step]; [done| | | |].
  - unfold stop. by rewrite Hr.
  - unfold silent, reset. cbn. destruct (cancel_spec (timer_ this)) as [-> ->]. by rewrite Hp, app_nil_r.
  - unfold silent. cbn. destruct (elapse_spec (timer_ this)) as [-> ->]. by rewrite Hp, app_nil_r.
  - pose proof (next_handler_spec (timer_ this)) as Hn.
    destruct (next_handler (timer_ this)) as [[ec d]|]; [|done]. destruct Hn as [En Ep].
    rewrite En in Ha. inversion_clear Ha as [|? ? Hec Ha']. subst ec. unfold handler, silent, with_timer. cbn.
    rewrite Hr. cbn. by rewrite Ep.
Qed.

Lemma run_silent es this :
  Start ∉ es → silent this → silent (run es this) ∧ client (run es this) = client this.
Proof.
  revert this. induction es as [|e es IH]; intros this Hn Hs; cbn; [done|].
  apply not_elem_of_cons in Hn as [He Hn].
  destruct (step_silent e this (not_eq_sym He) Hs) as [Hs' <-]. by apply IH.
Qed.

Lemma stop_silent this :
  is_running this = true → Forall (eq true) (ready (timer_ this)) → silent (stop this).
Proof.
  intros Hr Ha. unfold stop, silent. rewrite Hr. cbn.
  destruct (cancel_spec (timer_ this)) as [-> ->]. split_and!; [done..|].
  apply Forall_app_2; [done|]. by apply Forall_replicate.
Qed.

Lemma elapse_handler this f :
  is_running this = true → one_wait this → ready (timer_ this) = [] → call_back_ this = Some f →
  let t := run [Elapse; Handler] this in
  client t = f (client this) ∧ pending (timer_ t) = 1 ∧ ready (timer_ t) = [].
Proof.
  intros Hr H1 Hd Hf. unfold one_wait, outstanding in H1. rewrite Hr, Hd, Nat.add_0_r in H1. cbn [run fold_left].
  destruct (elapse_spec (timer_ this)) as [Ep' Er']. rewrite H1, Hd in Er'.
  remember (step Elapse this) as t eqn:Et.
  assert (Ep : pending (timer_ t) = 0) by (by rewrite Et).
  assert (Er : ready (timer_ t) = [false]) by (by rewrite Et).
  assert (Ef : call_back_ t = Some f) by (by rewrite Et).
  assert (Ei : is_running t = true) by (by rewrite Et).
  assert (Ec : client t = client this) by (by rewrite Et).
  rewrite <- Ec. clear Et.
  pose proof (next_handler_spec (timer_ t)) as Hn. destruct (next_handler (timer_ t)) as [[ec d]|] eqn:En; [|by rewrite Er in Hn].
  destruct Hn as [E Ed]. rewrite Er in E. injection E as <- E. cbn zeta.
  split; [by eapply (handler_calls t); [exact En| |]|].
  cbn [step]. rewrite En. destruct (handler_waits false (with_timer d t) Ei) as [-> ->]. cbn.
  by rewrite Ed, Ep, <- E.
Qed.

Lemma cancelled_handler this :
  is_running this = true → one_wait this → ready (timer_ this) = [true] →
  client (step Handler this) = client this ∧
  pending (timer_ (step Handler this)) = 1 ∧ ready (timer_ (step Handler this)) = [].
Proof.
  intros Hr H1 Hd. unfold one_wait, outstanding in H1. rewrite Hr, Hd in H1. cbn in H1. cbn [step].
  pose proof (next_handler_spec (timer_ this)) as Hn.
  destruct (next_handler (timer_ this)) as [[ec d]|]; [|by rewrite Hd in Hn].
  destruct Hn as [E Ed]. rewrite Hd in E. injection E as <- E. rewrite client_cancelled.
  destruct (handler_waits true (with_timer d this) Hr) as [-> ->]. cbn. rewrite Ed, <- E.
  by replace (pending (timer_ this)) with 0 by lia.
Qed.

(** A timer restarted while the handler of its previous wait is still to run:
    two waits, each of which cancels the other's. *)
Definition spinning this : Prop :=
  is_running this = true ∧ pending (timer_ this) = 1 ∧ ready (timer_ this) = [true].

Lemma spinning_handler this :
  spinning this → spinning (step Handler this) ∧ client (step Handler this) = client this.
Proof.
  intros (Hr & Hp & Hd). cbn [step]. pose proof (next_handler_spec (timer_ this)) as Hn.
  destruct (next_handler (timer_ this)) as [[ec d]|]; [|by rewrite Hd in Hn].
  destruct Hn as [E Ed]. rewrite Hd in E. injection E as <- E. rewrite client_cancelled.
  destruct (handler_waits true (with_timer d this) Hr) as [Hp' Hd']. split; [|done].
  unfold spinning. rewrite Hp', Hd'. cbn. rewrite Ed, Hp, <- E. split_and!; [|done..].
  unfold handler. cbn. by rewrite Hr.
Qed.

Lemma client_start this : client (start this) = client this.
Proof. unfold start. by case_match. Qed.

Lemma restart_spinning this :
  is_running this = true → pending (timer_ this) = 1 → ready (timer_ this) = [] →
  spinning (start (stop this)) ∧ client (start (stop this)) = client this.
Proof.
  intros Hr Hp Hd. rewrite client_start. unfold stop. rewrite Hr. split; [|done].
  unfold spinning, start. cbn [is_running].
  match goal with |- context [launch ?x] => destruct (launch_waits x) as [-> ->] end.
  cbn [timer_]. destruct (cancel_spec (timer_ this)) as [-> ->]. by rewrite Hp, Hd.
Qed.

Lemma start_new_Timer d interval cb auto s this :
  pending d = 0 → ready d = [] → new_Timer d interval cb auto s = Return this →
  is_running (start this) = true ∧ pending (timer_ (start this)) = 1 ∧ ready (timer_ (start this)) = [].
Proof.
  intros Hp Hr. unfold new_Timer. case_match; [|done]. intros [= <-].
  pose proof (launch_waits (mk_Timer true interval d cb s)) as [Lp Lr]. cbn [timer_] in Lr.
  rewrite Hp, Hr in Lr. destruct auto; cbn in *; by rewrite Lp, Lr.
Qed.

(** ** The properties *)

(** C36: in every use of a timer, from its construction, in which no [start]
    comes between a [stop] and the handler of the wait it cancelled
    ([disciplined]; [timer_restart_spins] is what happens otherwise): a running
    timer has exactly one wait outstanding or handler ready, and so never stops
    by itself. When it runs and no handler is ready, then: when the interval
    passes the callback is called once and the timer waits again; after a
    [reset] the handler calls nothing and the timer waits again; and after a
    [stop] nothing is called until it is started. *)
Theorem timer_runs d interval cb auto s this es :
  pending d = 0 → ready d = [] → new_Timer d interval (Some cb) auto s = Return this → disciplined es this →
  let t := run es this in
  one_wait t ∧
  (is_running t = true → ready (timer_ t) = [] →
    (let t1 := run [Elapse; Handler] t in
     client t1 = cb (client t) ∧ pending (timer_ t1) = 1 ∧ ready (timer_ t1) = []) ∧
    (let t2 := run [Reset; Handler] t in
     client t2 = client t ∧ pending (timer_ t2) = 1 ∧ ready (timer_ t2) = []) ∧
    (∀ es', Start ∉ es' → client (run (Stop :: es') t) = client t)).
Proof.
  intros Hp Hr Hnew Hd. cbn zeta.
  assert (H1 : one_wait (run es this)) by (by eapply run_one_wait, new_Timer_one_wait).
  assert (Hcb : call_back_ (run es this) = Some cb).
  { rewrite run_call_back. unfold new_Timer in Hnew. case_match; [|done]. injection Hnew as <-. by destruct auto. }
  split; [done|]. intros Hrun Hready. split; [by apply elapse_handler|split].
  - destruct (cancel_spec (timer_ (run es this))) as [Cp Cr]. cbn [run fold_left].
    unfold one_wait, outstanding in H1. rewrite Hrun, Hready, Nat.add_0_r in H1.
    change (fold_left _ es this) with (run es this).
    apply (cancelled_handler (step Reset (run es this))); cbn; [done| |by rewrite Cr, Hready, H1].
    unfold one_wait, outstanding. cbn. by rewrite Hrun, Cp, Cr, Hready, H1.
  - intros es' Hs. transitivity (client (stop (run es this))).
    + apply (run_silent es' (stop (run es this))); [done|]. apply stop_silent; [done|by rewrite Hready].
    + unfold stop. by rewrite Hrun.
Qed.

(** A [stop] followed by a [start] before the handler of the cancelled
    wait has run leaves two waits outstanding, and each handler cancels the
    other's wait when it resubmits: the context then runs cancelled handlers one
    after the other for ever, and the callback is never called, however long
    only they run. *)
Theorem timer_restart_spins d interval cb auto s this n :
  pending d = 0 → ready d = [] → new_Timer d interval (Some cb) auto s = Return this →
  let t := run (Start :: Stop :: Start :: replicate n Handler) this in
  client t = client this ∧ is_running t = true ∧ pending (timer_ t) = 1 ∧ ready (timer_ t) = [true].
Proof.
  intros Hp Hr Hnew. cbn zeta. destruct (start_new_Timer _ _ _ _ _ _ Hp Hr Hnew) as (Sr & Sp & Sd).
  destruct (restart_spinning _ Sr Sp Sd) as [H3 Hc]. rewrite <- (client_start this), <- Hc.
  change (run _ this) with (run (replicate n Handler) (start (stop (start this)))).
  clear Hc. revert H3. generalize (start (stop (start this))) as t. clear.
  induction n as [|n IH]; intros t Ht; cbn; [by destruct Ht as (? & ? & ?)|].
  destruct (spinning_handler t Ht) as [Ht' <-]. by apply IH.
Qed.
End code.
Arguments Timer : clear implicits.

(** ** Witnesses *)

Lemma timer_runs_witness :
  let this := mk_Timer false 100 (mk_ref_deadline 0 []) (Some S) 0 in
  let t := run (deadline := ref_deadline_timer) [Start; Elapse; Handler; Reset; Handler] this in
  client t = 1 ∧ one_wait (deadline := ref_deadline_timer) t.
Proof.
  split; [reflexivity|].
  destruct (timer_runs (deadline := ref_deadline_timer) (mk_ref_deadline 0 []) 100 S false 0
    (mk_Timer false 100 (mk_ref_deadline 0 []) (Some S) 0) [Start; Elapse; Handler; Reset; Handler]) as [H1 _];
    [reflexivity..|split_and!; try done; by right|exact H1].
Defined.

Lemma timer_restart_spins_witness :
  let this := mk_Timer false 100 (mk_ref_deadline 0 []) (Some S) 0 in
  client (run (deadline := ref_deadline_timer) (Start :: Stop :: Start :: replicate 50 Handler) this) = 0.
Proof.
  destruct (timer_restart_spins (deadline := ref_deadline_timer) (mk_ref_deadline 0 []) 100 S false 0
    (mk_Timer false 100 (mk_ref_deadline 0 []) (Some S) 0) 50) as [H1 _]; [reflexivity..|exact H1].
Defined.
