(* ===== verification/Terminal.v ===== *)
(** * The colours of the terminal

    Models the constants of [src/zen/node/common/terminal.hpp]; on Linux
    [init_terminal] does nothing. A colour is a control sequence: an escape
    character, a bracket, parameters and the letter m. *)
From S2P Require Import Prelude Digits.
Local Open Scope nat_scope.

Abbreviation esc := Byte.x1b.
Definition csi (parameters : string) : list byte := esc :: chars "[" ++ chars parameters ++ chars "m".

Definition kColorReset : list byte := csi "0".
Definition kColorBlack : list byte := csi "30".
Definition kColorCoal : list byte := csi "90".
Definition kColorGray : list byte := csi "37".
Definition kColorWhite : list byte := csi "97".
Definition kColorMaroon : list byte := csi "31".
Definition kColorRed : list byte := csi "91".
Definition kColorGreen : list byte := csi "32".
Definition kColorLime : list byte := csi "92".
Definition kColorOrange : list byte := csi "33".
Definition kColorYellow : list byte := csi "93".
Definition kColorNavy : list byte := csi "34".
Definition kColorBlue : list byte := csi "94".
Definition kColorViolet : list byte := csi "35".
Definition kColorPurple : list byte := csi "95".
Definition kColorTeal : list byte := csi "36".
Definition kColorCyan : list byte := csi "96".
Definition kColorBlackHigh : list byte := csi "1;30".
Definition kColorCoalHigh : list byte := csi "1;90".
Definition kColorGrayHigh : list byte := csi "1;37".
Definition kColorWhiteHigh : list byte := csi "1;97".
Definition kColorMaroonHigh : list byte := csi "1;31".
Definition kColorRedHigh : list byte := csi "1;91".
Definition kColorGreenHigh : list byte := csi "1;32".
Definition kColorLimeHigh : list byte := csi "1;92".
Definition kColorOrangeHigh : list byte := csi "1;33".
Definition kColorYellowHigh : list byte := csi "1;93".
Definition kColorNavyHigh : list byte := csi "1;34".
Definition kColorBlueHigh : list byte := csi "1;94".
Definition kColorVioletHigh : list byte := csi "1;35".
Definition kColorPurpleHigh : list byte := csi "1;95".
Definition kColorTealHigh : list byte := csi "1;36".
Definition kColorCyanHigh : list byte := csi "1;96".
Definition kBackgroundBlack : list byte := csi "40".
Definition kBackgroundCoal : list byte := csi "100".
Definition kBackgroundGray : list byte := csi "47".
Definition kBackgroundWhite : list byte := csi "107".
Definition kBackgroundMaroon : list byte := csi "41".
Definition kBackgroundRed : list byte := csi "101".
Definition kBackgroundGreen : list byte := csi "42".
Definition kBackgroundLime : list byte := csi "102".
Definition kBackgroundOrange : list byte := csi "43".
Definition kBackgroundYellow : list byte := csi "103".
Definition kBackgroundNavy : list byte := csi "44".
Definition kBackgroundBlue : list byte := csi "104".
Definition kBackgroundViolet : list byte := csi "45".
Definition kBackgroundPurple : list byte := csi "105".
Definition kBackgroundTeal : list byte := csi "46".
Definition kBackgroundCyan : list byte := csi "106".
Definition kColorBlackUnderline : list byte := csi "4;30".
Definition kColorGrayUnderline : list byte := csi "4;37".
Definition kColorMaroonUnderline : list byte := csi "4;31".
Definition kColorGreenUnderline : list byte := csi "4;32".
Definition kColorOrangeUnderline : list byte := csi "4;33".
Definition kColorNavyUnderline : list byte := csi "4;34".
Definition kColorVioletUnderline : list byte := csi "4;35".
Definition kColorTealUnderline : list byte := csi "4;36".

(** ** What the constants are *)

Definition is_parameter (b : byte) : bool := is_digit b || bool_decide (b = Byte.x3b).

(** A control sequence that sets colours. *)
Definition colour (s : list byte) : Prop :=
  ∃ ps, ps ≠ [] ∧ Forall (λ b, is_parameter b = true) ps ∧ s = esc :: Byte.x5b :: ps ++ [Byte.x6d].

Definition palette : list (list byte) :=
  [kColorReset; kColorBlack; kColorCoal; kColorGray; kColorWhite; kColorMaroon; kColorRed;
   kColorGreen; kColorLime; kColorOrange; kColorYellow; kColorNavy; kColorBlue; kColorViolet;
   kColorPurple; kColorTeal; kColorCyan; kColorBlackHigh; kColorCoalHigh; kColorGrayHigh;
   kColorWhiteHigh; kColorMaroonHigh; kColorRedHigh; kColorGreenHigh; kColorLimeHigh;
   kColorOrangeHigh; kColorYellowHigh; kColorNavyHigh; kColorBlueHigh; kColorVioletHigh;
   kColorPurpleHigh; kColorTealHigh; kColorCyanHigh; kBackgroundBlack; kBackgroundCoal;
   kBackgroundGray; kBackgroundWhite; kBackgroundMaroon; kBackgroundRed; kBackgroundGreen;
   kBackgroundLime; kBackgroundOrange; kBackgroundYellow; kBackgroundNavy; kBackgroundBlue;
   kBackgroundViolet; kBackgroundPurple; kBackgroundTeal; kBackgroundCyan;
   kColorBlackUnderline; kColorGrayUnderline; kColorMaroonUnderline; kColorGreenUnderline;
   kColorOrangeUnderline; kColorNavyUnderline; kColorVioletUnderline; kColorTealUnderline].

Lemma csi_colour p : chars p ≠ [] → forallb is_parameter (chars p) = true → colour (csi p).
Proof.
  intros Hn Hp. exists (chars p). split_and!; [done| |done].
  apply Forall_forall. intros b Hb. rewrite forallb_forall in Hp. apply Hp. by apply list_elem_of_In.
Qed.

Lemma palette_colours : Forall colour palette ∧ NoDup palette.
Proof.
  split; [|by apply (bool_decide_unpack _); vm_compute].
  repeat (apply Forall_cons; split); [by apply csi_colour; [done|vm_compute]..|by apply Forall_nil].
Qed.
