(* ===== verification/Log.v ===== *)
(** * Logging

    Models [src/zen/node/common/log.hpp] and [log.cpp]: the settings, the
    buffer a line is put together in, and the output of the line to a standard
    stream and to the log file. The file of static objects is the record
    [logger], which the functions take and return. The clock and the time zones
    of absl and the format of boost are parameters. *)
From S2P Require Import Prelude Digits Terminal.
From stdpp Require Import gmap.
Local Open Scope nat_scope.

Inductive Level := kNone | kCritical | kError | kWarning | kInfo | kDebug | kTrace.

Definition level_value (l : Level) : nat :=
  match l with
  | kNone => 0 | kCritical => 1 | kError => 2 | kWarning => 3 | kInfo => 4 | kDebug => 5 | kTrace => 6
  end.
Definition level_le (a b : Level) : bool := level_value a <=? level_value b.

(** A separator of zero stands for the null character. *)
Record Settings := mk_Settings {
  log_std_out : bool;
  log_utc : bool;
  log_nocolor : bool;
  log_threads : bool;
  log_verbosity : Level;
  log_file : list byte;
  log_thousands_sep : byte
}.
Definition default_Settings : Settings :=
  mk_Settings false false false false kInfo [] Byte.x27.

Inductive TimeZone := LocalTimeZone | UTCTimeZone.

(** The static objects, [tz] being the one of the constructor, which is
    initialised when it is first reached; [thread_name_] of each thread; and
    what the streams and the files hold. *)
Record logger := mk_logger {
  settings_ : Settings;
  file_ : option (list byte * bool);
  tz : option TimeZone;
  thread_name_ : gmap Z (list byte);
  cout : list byte;
  cerr : list byte;
  files : gmap (list byte) (list byte)
}.
Implicit Types st : logger.

Definition with_settings (s : Settings) st : logger :=
  mk_logger s (file_ st) (tz st) (thread_name_ st) (cout st) (cerr st) (files st).
Definition with_name (id : Z) (n : list byte) st : logger :=
  mk_logger (settings_ st) (file_ st) (tz st) (<[id := n]> (thread_name_ st)) (cout st) (cerr st) (files st).
Definition with_tz (z : TimeZone) st : logger :=
  mk_logger (settings_ st) (file_ st) (Some z) (thread_name_ st) (cout st) (cerr st) (files st).

Definition endl : list byte := [Byte.x0a].

(** [opened] tells whether the file could be opened for appending. *)
Definition tee_file (path : list byte) (opened : bool) st : logger :=
  if opened then
    mk_logger (settings_ st) (Some (path, true)) (tz st) (thread_name_ st) (cout st) (cerr st)
      (<[path := default [] (files st !! path)]> (files st))
  else
    mk_logger (settings_ st) None (tz st) (thread_name_ st) (cout st)
      (cerr st ++ chars "Could not open log file " ++ path ++ endl) (files st).

Definition init (settings : Settings) (opened : bool) st : logger :=
  let st := with_settings settings st in
  if bool_decide (log_file settings = []) then st else tee_file (log_file settings) opened st.

Definition get_verbosity st : Level := log_verbosity (settings_ st).
Definition set_verbosity (level : Level) st : logger :=
  let s := settings_ st in
  with_settings (mk_Settings (log_std_out s) (log_utc s) (log_nocolor s) (log_threads s) level
    (log_file s) (log_thousands_sep s)) st.
Definition test_verbosity (level : Level) st : bool := level_le level (log_verbosity (settings_ st)).
Definition set_thread_name (id : Z) (name : list byte) st : logger := with_name id name st.

Definition get_level_settings (level : Level) : list byte * list byte :=
  match level with
  | kTrace => (chars "TRACE", kColorCoal)
  | kDebug => (chars "DEBUG", kBackgroundPurple)
  | kInfo => (chars " INFO", kColorGreen)
  | kWarning => (chars " WARN", kColorOrangeHigh)
  | kError => (chars "ERROR", kColorRed)
  | kCritical => (chars " CRIT", kBackgroundRed)
  | kNone => (chars "     ", kColorReset)
  end.

(** ** Numbers with separated thousands *)

(** Groups of three digits, from the least significant one. *)
Fixpoint group_thousands (separator : byte) (ds : list byte) : list byte :=
  match ds with
  | a :: b :: c :: ((_ :: _) as r) => a :: b :: c :: separator :: group_thousands separator r
  | _ => ds
  end.

Definition separate_thousands (separator : byte) (ds : list byte) : list byte :=
  reverse (group_thousands separator (reverse ds)).

(** The decimal notation of an integer in a locale, the classic one if there is
    no separator. *)
Definition put_integer (separator : option byte) (z : Z) : list byte :=
  let ds := dec (Z.abs z) in
  (if (z <? 0)%Z then chars "-" else []) ++
  match separator with
  | Some c => separate_thousands c ds
  | None => ds
  end.

(** ** Colours taken out *)

Fixpoint span_parameters (s : list byte) : list byte * list byte :=
  match s with
  | b :: s' =>
      if is_parameter b then let '(ps, r) := span_parameters s' in (b :: ps, r) else ([], s)
  | [] => ([], [])
  end.

(** What follows a match of the pattern at the beginning. No parameter is the
    letter m, so that the longest run of parameters is the only one to match. *)
Definition match_color (s : list byte) : option (list byte) :=
  match s with
  | Byte.x1b :: Byte.x5b :: s =>
      match span_parameters s with
      | (_ :: _, Byte.x6d :: r) => Some r
      | _ => None
      end
  | _ => None
  end.

(** [std::regex_replace] of the matches, from left to right, by nothing; the
    length of the line is enough fuel. *)
Fixpoint replace_colors (fuel : nat) (s : list byte) : list byte :=
  match fuel, s with
  | S fuel, b :: s' =>
      match match_color s with
      | Some r => replace_colors fuel r
      | None => b :: replace_colors fuel s'
      end
  | _, _ => []
  end.
Definition uncolored (s : list byte) : list byte := replace_colors (length s) s.

(** ** The lines *)

Record BufferBase := mk_BufferBase {
  should_print_ : bool;
  separator_ : option byte;
  ss_ : list byte
}.
Implicit Types buf : BufferBase.

(** What is put into a line. *)
Inductive item := Text (s : list byte) | Integer (z : Z).

Definition put (i : item) buf : BufferBase :=
  mk_BufferBase (should_print_ buf) (separator_ buf)
    (ss_ buf ++ match i with Text s => s | Integer z => put_integer (separator_ buf) z end).
Definition append (i : item) buf : BufferBase := if should_print_ buf then put i buf else buf.

Definition print (line : list byte) st : logger :=
  let text := line ++ endl in
  if log_std_out (settings_ st)
  then mk_logger (settings_ st) (file_ st) (tz st) (thread_name_ st) (cout st ++ text) (cerr st) (files st)
  else mk_logger (settings_ st) (file_ st) (tz st) (thread_name_ st) (cout st) (cerr st ++ text) (files st).

Definition print_file (line : list byte) st : logger :=
  match file_ st with
  | Some (path, is_open) =>
      if is_open then
        mk_logger (settings_ st) (file_ st) (tz st) (thread_name_ st) (cout st) (cerr st)
          (<[path := default [] (files st !! path) ++ line ++ endl]> (files st))
      else mk_logger (settings_ st) None (tz st) (thread_name_ st) (cout st) (cerr st) (files st)
  | None => st
  end.

Definition flush buf st : logger :=
  if should_print_ buf then
    let colorized := negb (log_nocolor (settings_ st)) in
    let line := if colorized then ss_ buf else uncolored (ss_ buf) in
    print_file (if colorized then uncolored line else line) (print line st)
  else st.

Section code.
(** The text of a time of day in a zone, the zone's name, the text of a
    thread's identifier, and the format of a message, left-justified to 35. *)
Variable FormatTime : Z → TimeZone → list byte.
Variable zone_name : TimeZone → list byte.
Variable print_id : Z → list byte.
Variable format_35s : list byte → list byte.

Definition get_thread_name (id : Z) st : list byte * logger :=
  let name := default [] (thread_name_ st !! id) in
  if bool_decide (name = []) then (print_id id, with_name id (print_id id) st) else (name, st).

(** The initialiser of the static time zone. *)
Definition static_tz st : TimeZone * logger :=
  match tz st with
  | Some z => (z, st)
  | None =>
      let z := if log_utc (settings_ st) then LocalTimeZone else UTCTimeZone in
      (z, with_tz z st)
  end.

Definition new_BufferBase (level : Level) (now id : Z) st : BufferBase * logger :=
  if level_le level (log_verbosity (settings_ st)) then
    let sep := log_thousands_sep (settings_ st) in
    let separator := if bool_decide (sep = Byte.x00) then None else Some sep in
    let '(prefix, color) := get_level_settings level in
    let head := kColorReset ++ chars " " ++ color ++ prefix ++ kColorReset ++ chars " " in
    let '(z, st) := static_tz st in
    let stamp := kColorCyan ++ chars "[" ++ FormatTime now z ++ chars " " ++ zone_name z ++
                 chars "] " ++ kColorReset in
    let '(thread, st) :=
      if log_threads (settings_ st) then
        let '(name, st) := get_thread_name id st in (chars "[" ++ name ++ chars "] ", st)
      else ([], st) in
    (mk_BufferBase true separator (head ++ stamp ++ thread), st)
  else (mk_BufferBase false None [], st).

Fixpoint put_args (left : bool) (args : list (list byte)) : list byte :=
  match args with
  | [] => []
  | arg :: args =>
      (if left then kColorGreen else kColorWhiteHigh) ++ arg ++ kColorReset ++
      chars (if left then "=" else " ") ++ kColorReset ++ put_args (negb left) args
  end.

Definition new_BufferBase_msg (level : Level) (msg : list byte) (args : list (list byte))
    (now id : Z) st : BufferBase * logger :=
  let '(buf, st) := new_BufferBase level now id st in
  if should_print_ buf
  then (put (Text (format_35s msg ++ put_args true args)) buf, st)
  else (buf, st).

(** The object of the statement [ZEN_LOGBUFFER(level) << items], and that of
    [LogBuffer<level>(msg, args) << items], until it is destroyed. *)
Definition new_LogBuffer (level : Level) (init : option (list byte * list (list byte)))
    (now id : Z) st : BufferBase * logger :=
  match init with
  | None => new_BufferBase level now id st
  | Some (msg, args) => new_BufferBase_msg level msg args now id st
  end.
Definition statement (level : Level) (init : option (list byte * list (list byte)))
    (items : list item) (now id : Z) st : logger :=
  let '(buf, st) := new_LogBuffer level init now id st in
  flush (fold_left (λ buf i, append i buf) items buf) st.
Definition ZEN_LOGBUFFER (level : Level) (items : list item) (now id : Z) st : logger :=
  if test_verbosity level st then statement level None items now id st else st.
End code.

(** ** Thousands *)

Lemma group_cons3 c x y w ds :
  ds ≠ [] → group_thousands c (x :: y :: w :: ds) = x :: y :: w :: c :: group_thousands c ds.
Proof. by destruct ds. Qed.

(** The groups are the notation in base 1000. *)
Lemma separate_thousands_dec c z :
  (0 <= z)%Z →
  separate_thousands c (dec z) =
    if (z <? 1000)%Z then dec z
    else separate_thousands c (dec (z / 1000)) ++ c :: fixed_digits 3 (z mod 1000).
Proof.
  intros Hz. unfold separate_thousands. destruct (Z.ltb_spec z 1000).
  - pose proof (length_dec 3 z ltac:(cbn; lia) ltac:(lia)) as Hl. rewrite <- (length_reverse (dec z)) in Hl.
    rewrite <- (reverse_involutive (dec z)) at 2. f_equal.
    destruct (reverse (dec z)) as [|a [|b [|d [|e l]]]]; cbn in *; try done; lia.
  - rewrite (dec_thousands z) by done. rewrite reverse_app.
    pose proof (length_fixed_digits 3 (z mod 1000)) as Hl.
    destruct (fixed_digits 3 (z mod 1000)) as [|a [|b [|d [|e l]]]]; try done. cbn [reverse rev_append].
    change (reverse [a; b; d]) with [d; b; a]. cbn [app]. rewrite group_cons3.
    + rewrite !reverse_cons. by rewrite <- !app_assoc.
    + intros E. apply (f_equal reverse) in E. rewrite reverse_involutive in E. by apply dec_nonempty in E.
Qed.

(** ** Colours taken out of a line *)

Lemma is_parameter_m : is_parameter Byte.x6d = false.
Proof. by vm_compute. Qed.

Lemma span_parameters_app ps b s :
  Forall (λ b, is_parameter b = true) ps → is_parameter b = false →
  span_parameters (ps ++ b :: s) = (ps, b :: s).
Proof.
  intros Hp Hb. induction Hp as [|p ps Hp _ IH]; cbn; [by rewrite Hb|]. by rewrite Hp, IH.
Qed.

Lemma match_color_colour c s : colour c → match_color (c ++ s) = Some s.
Proof.
  intros (ps & Hn & Hp & ->). cbn. rewrite <- app_assoc. cbn [app].
  rewrite (span_parameters_app ps Byte.x6d s Hp is_parameter_m). by destruct ps.
Qed.

Lemma match_color_esc b s r : match_color (b :: s) = Some r → b = esc.
Proof. destruct b; done. Qed.

Lemma span_parameters_length s : length (span_parameters s).2 ≤ length s.
Proof.
  induction s as [|b s IH]; cbn; [lia|]. destruct (is_parameter b); [|done].
  destruct (span_parameters s). cbn in *. lia.
Qed.

Lemma match_color_length s r : match_color s = Some r → length r < length s.
Proof.
  unfold match_color. repeat (case_match; try done). intros [= <-].
  match goal with E : span_parameters ?s = _ |- _ => pose proof (span_parameters_length s) as Hl; rewrite E in Hl end.
  cbn in *. lia.
Qed.

Lemma replace_colors_fuel f g s : length s ≤ f → length s ≤ g → replace_colors f s = replace_colors g s.
Proof.
  revert g s. induction f as [|f IH]; intros g s Hf Hg; (destruct s as [|b s]; [by destruct g|]); [cbn in *; lia|].
  destruct g as [|g]; [cbn in *; lia|]. cbn [replace_colors].
  destruct (match_color (b :: s)) as [r|] eqn:E.
  - apply match_color_length in E. cbn in *. apply IH; lia.
  - f_equal. cbn in *. apply IH; lia.
Qed.

Lemma uncolored_cons b s :
  uncolored (b :: s) = match match_color (b :: s) with Some r => uncolored r | None => b :: uncolored s end.
Proof.
  unfold uncolored at 1. cbn [length replace_colors]. destruct (match_color (b :: s)) as [r|] eqn:E; [|done].
  apply match_color_length in E. apply replace_colors_fuel; cbn in *; lia.
Qed.

Lemma uncolored_colour c s : colour c → uncolored (c ++ s) = uncolored s.
Proof.
  intros Hc. pose proof (match_color_colour c s Hc) as E. destruct Hc as (ps & _ & _ & ->).
  cbn [app] in *. by rewrite uncolored_cons, E.
Qed.

Lemma uncolored_plain t s : esc ∉ t → uncolored (t ++ s) = t ++ uncolored s.
Proof.
  induction t as [|b t IH]; intros Ht; [done|]. apply not_elem_of_cons in Ht as [Hb Ht]. cbn [app].
  rewrite uncolored_cons. destruct (match_color (b :: t ++ s)) eqn:E.
  - by apply match_color_esc in E.
  - by rewrite IH.
Qed.

(** The pattern and the replacement as the standard describes them: the
    leftmost matches, one after the other. *)
Inductive replaced : list byte → list byte → Prop :=
  | replaced_end : replaced [] []
  | replaced_match c s t : colour c → replaced s t → replaced (c ++ s) t
  | replaced_char b s t :
      (∀ c r, colour c → b :: s ≠ c ++ r) → replaced s t → replaced (b :: s) (b :: t).

Lemma span_parameters_spec s ps r :
  span_parameters s = (ps, r) → s = ps ++ r ∧ Forall (λ b, is_parameter b = true) ps.
Proof.
  revert ps r. induction s as [|b s IH]; cbn; intros ps r; [by intros [= <- <-]|].
  destruct (is_parameter b) eqn:Hb; [|by intros [= <- <-]].
  destruct (span_parameters s) as [ps' r'] eqn:E. intros [= <- <-].
  destruct (IH _ _ eq_refl) as [-> Hp]. by split; [|apply Forall_cons].
Qed.

Lemma match_color_spec s r : match_color s = Some r → ∃ c, colour c ∧ s = c ++ r.
Proof.
  unfold match_color. repeat (case_match; try done). intros [= <-].
  match goal with E : span_parameters _ = _ |- _ => apply span_parameters_spec in E as [-> Hp] end.
  eexists. split; [by eexists; split_and!; [|exact Hp|reflexivity]|]. cbn. by rewrite <- app_assoc.
Qed.

Lemma replaced_uncolored s t : replaced s t → t = uncolored s.
Proof.
  induction 1 as [|c s t Hc _ ->|b s t Hn _ ->]; [done|by rewrite uncolored_colour|].
  rewrite uncolored_cons. destruct (match_color (b :: s)) as [r|] eqn:E; [|done].
  apply match_color_spec in E as (c & Hc & E). by apply Hn in E.
Qed.

Lemma uncolored_replaced s : replaced s (uncolored s).
Proof.
  induction s as [s IH] using (induction_ltof1 _ length).
  destruct s as [|b s]; [constructor|]. rewrite uncolored_cons.
  destruct (match_color (b :: s)) as [r|] eqn:E.
  - pose proof (match_color_length _ _ E). apply match_color_spec in E as (c & Hc & ->).
    apply replaced_match; [done|]. by apply IH.
  - apply replaced_char; [|apply IH; unfold ltof; cbn; lia].
    intros c r Hc Hs. rewrite Hs, match_color_colour in E by done. done.
Qed.

(** ** What a statement prints *)

Definition plain_args : bool → list (list byte) → list byte :=
  fix go left args :=
    match args with
    | [] => []
    | arg :: args => arg ++ chars (if left then "=" else " ") ++ go (negb left) args
    end.
Definition item_text (separator : option byte) (i : item) : list byte :=
  match i with Text s => s | Integer z => put_integer separator z end.

Definition separator_of (s : Settings) : option byte :=
  if bool_decide (log_thousands_sep s = Byte.x00) then None else Some (log_thousands_sep s).

Lemma flush_spec buf st :
  should_print_ buf = true →
  ∃ line, uncolored (ss_ buf) = (if log_nocolor (settings_ st) then line else uncolored line) ∧
    flush buf st = print_file (uncolored (ss_ buf)) (print line st).
Proof.
  intros Hp. unfold flush. rewrite Hp. cbn zeta.
  exists (if log_nocolor (settings_ st) then uncolored (ss_ buf) else ss_ buf).
  by destruct (log_nocolor (settings_ st)).
Qed.

Lemma append_fold items buf :
  should_print_ buf = true →
  fold_left (λ buf i, append i buf) items buf =
    mk_BufferBase true (separator_ buf) (ss_ buf ++ concat (item_text (separator_ buf) <$> items)).
Proof.
  revert buf. induction items as [|i items IH]; intros [p c s] Hp; cbn in *; subst p; [by rewrite app_nil_r|].
  rewrite IH by done. unfold append. cbn. by rewrite <- app_assoc.
Qed.

Lemma append_fold_silent items buf :
  should_print_ buf = false → fold_left (λ buf i, append i buf) items buf = buf.
Proof.
  intros Hp. induction items as [|i items IH]; cbn; [done|]. unfold append. by rewrite Hp.
Qed.

(** Closed texts without an escape character. *)
Ltac plain_text := apply (bool_decide_unpack _); vm_compute; exact I.

Lemma uncolored_args left args s :
  Forall (λ a, esc ∉ a) args → uncolored (put_args left args ++ s) = plain_args left args ++ uncolored s.
Proof.
  intros Ha. revert left. induction Ha as [|arg args Harg _ IH]; intros left; [done|].
  cbn [put_args plain_args]. rewrite <- !app_assoc.
  rewrite uncolored_colour by (destruct left; by apply csi_colour).
  rewrite uncolored_plain by done. rewrite uncolored_colour by (by apply csi_colour).
  rewrite uncolored_plain by (destruct left; plain_text).
  rewrite uncolored_colour by (by apply csi_colour). by rewrite IH.
Qed.

Lemma level_settings_plain level :
  colour (get_level_settings level).2 ∧ esc ∉ (get_level_settings level).1.
Proof. destruct level; (split; [by apply csi_colour|plain_text]). Qed.

Section lines.
Context (FormatTime : Z → TimeZone → list byte) (zone_name : TimeZone → list byte).
Context (print_id : Z → list byte) (format_35s : list byte → list byte).
Hypothesis time_plain : ∀ now z, esc ∉ FormatTime now z.
Hypothesis zone_plain : ∀ z, esc ∉ zone_name z.
Hypothesis id_plain : ∀ id, esc ∉ print_id id.
Hypothesis format_left : ∀ m, format_35s m = m ++ replicate (35 - length m) Byte.x20.

Definition zone_of st : TimeZone :=
  default (if log_utc (settings_ st) then LocalTimeZone else UTCTimeZone) (tz st).
Definition name_of (id : Z) st : list byte :=
  let n := default [] (thread_name_ st !! id) in if bool_decide (n = []) then print_id id else n.

Definition plain_head (level : Level) (now id : Z) st : list byte :=
  chars " " ++ (get_level_settings level).1 ++ chars " " ++
  chars "[" ++ FormatTime now (zone_of st) ++ chars " " ++ zone_name (zone_of st) ++ chars "] " ++
  (if log_threads (settings_ st) then chars "[" ++ name_of id st ++ chars "] " else []).
Definition plain_init (init : option (list byte * list (list byte))) : list byte :=
  match init with
  | Some (msg, args) => msg ++ replicate (35 - length msg) Byte.x20 ++ plain_args true args
  | None => []
  end.
Definition plain_line (level : Level) (init : option (list byte * list (list byte)))
    (items : list item) (now id : Z) st : list byte :=
  plain_head level now id st ++ plain_init init ++
  concat (item_text (separator_of (settings_ st)) <$> items).

(** What the buffer's constructors leave alone. *)
Definition same_outputs st st' : Prop :=
  settings_ st' = settings_ st ∧ file_ st' = file_ st ∧ cout st' = cout st ∧ cerr st' = cerr st ∧
  files st' = files st.

Lemma name_plain id st : esc ∉ default [] (thread_name_ st !! id) → esc ∉ name_of id st.
Proof. intros Hn. unfold name_of. by case_bool_decide. Qed.

Lemma new_BufferBase_spec level now id st :
  level_le level (log_verbosity (settings_ st)) = true →
  esc ∉ default [] (thread_name_ st !! id) →
  let '(buf, st') := new_BufferBase FormatTime zone_name print_id level now id st in
  should_print_ buf = true ∧ separator_ buf = separator_of (settings_ st) ∧
  (∀ s, uncolored (ss_ buf ++ s) = plain_head level now id st ++ uncolored s) ∧
  same_outputs st st' ∧ tz st' = Some (zone_of st).
Proof.
  intros Hl Hn. unfold new_BufferBase. rewrite Hl.
  destruct (get_level_settings level) as [prefix color] eqn:Eg.
  destruct (static_tz st) as [z st1] eqn:Ez.
  assert (z = zone_of st ∧ same_outputs st st1 ∧ tz st1 = Some z ∧ thread_name_ st1 = thread_name_ st) as (-> & Hs & Ht & Hm).
  { unfold static_tz, zone_of in *. by destruct (tz st) eqn:E; injection Ez as <- <-. }
  set (th := if log_threads (settings_ st) then chars "[" ++ name_of id st ++ chars "] " else []).
  assert (∃ st2, (if log_threads (settings_ st1) then let '(name, st) := get_thread_name print_id id st1 in (chars "[" ++ name ++ chars "] ", st) else ([], st1)) = (th, st2)
    ∧ same_outputs st st2 ∧ tz st2 = Some (zone_of st)) as (st2 & -> & Hs2 & Ht2).
  { unfold get_thread_name, th, name_of. destruct Hs as (Es & Hs). rewrite Es, Hm.
    destruct (log_threads (settings_ st)); [|by eexists]. cbn zeta.
    case_bool_decide; eexists; split_and!; by try reflexivity. }
  split; [reflexivity|]. split; [reflexivity|]. split; [|done]. intros s. cbn [ss_].
  destruct (level_settings_plain level) as [Hc Hp]. rewrite Eg in Hc, Hp. cbn [fst snd] in Hc, Hp.
  unfold plain_head. rewrite Eg. fold th. rewrite <- !app_assoc.
  repeat first [rewrite uncolored_colour by (first [exact Hc | by apply csi_colour])
               |rewrite uncolored_plain by (first [exact Hp | apply time_plain | apply zone_plain | plain_text])].
  rewrite uncolored_plain; [reflexivity|]. unfold th. destruct (log_threads (settings_ st)); [|plain_text].
  rewrite !not_elem_of_app. split_and!; [plain_text|by apply name_plain|plain_text].
Qed.

Lemma new_LogBuffer_spec level init now id st :
  level_le level (log_verbosity (settings_ st)) = true →
  esc ∉ default [] (thread_name_ st !! id) →
  (∀ msg args, init = Some (msg, args) → (esc ∉ msg) ∧ Forall (λ a, esc ∉ a) args) →
  let '(buf, st') := new_LogBuffer FormatTime zone_name print_id format_35s level init now id st in
  should_print_ buf = true ∧ separator_ buf = separator_of (settings_ st) ∧
  (∀ s, uncolored (ss_ buf ++ s) = plain_head level now id st ++ plain_init init ++ uncolored s) ∧
  same_outputs st st' ∧ tz st' = Some (zone_of st).
Proof.
  intros Hl Hn Hi. pose proof (new_BufferBase_spec level now id st Hl Hn) as H.
  unfold new_LogBuffer, new_BufferBase_msg. destruct (new_BufferBase _ _ _ level now id st) as [buf st'].
  destruct init as [[msg args]|]; [|exact H].
  destruct H as (Hp & Hs & Hu & Ho), (Hi _ _ eq_refl) as [Hm Ha]. rewrite Hp.
  split; [done|]. split; [done|]. split; [|done]. intros s. cbn [put ss_ plain_init].
  rewrite <- !app_assoc, Hu, format_left, <- !app_assoc.
  rewrite uncolored_plain by done. rewrite uncolored_plain.
  - by rewrite uncolored_args.
  - intros Hin. apply elem_of_replicate in Hin as [Hin _]. done.
Qed.

Lemma statement_silent level init items now id st :
  test_verbosity level st = false →
  statement FormatTime zone_name print_id format_35s level init items now id st = st.
Proof.
  intros E. unfold statement, new_LogBuffer, new_BufferBase_msg, new_BufferBase.
  unfold test_verbosity in E. rewrite E.
  destruct init as [[msg args]|]; cbn; by rewrite append_fold_silent.
Qed.

(** C37: when the level is within the verbosity and neither what is logged nor
    the thread's name holds an escape character, a statement prints one
    line: without the colours it is the level, the time, the thread's name if
    threads are logged, the message padded to 35 characters, the pairs of
    arguments, and the items. That plain line is what is appended to the log
    file, whether or not the console has colours, and what goes to the console
    when it has not; the other stream, the other files and the settings stay
    as they were. Otherwise nothing is printed and nothing changes. The guard
    of the macro agrees with that of the constructor. *)
Theorem statement_prints level init items now id st :
  esc ∉ default [] (thread_name_ st !! id) →
  (∀ msg args, init = Some (msg, args) → (esc ∉ msg) ∧ Forall (λ a, esc ∉ a) args) →
  Forall (λ i, esc ∉ item_text (separator_of (settings_ st)) i) items →
  let st' := statement FormatTime zone_name print_id format_35s level init items now id st in
  let text := plain_line level init items now id st in
  (ZEN_LOGBUFFER FormatTime zone_name print_id format_35s level items now id st =
    statement FormatTime zone_name print_id format_35s level None items now id st) ∧
  if test_verbosity level st then
    ∃ line, (if log_nocolor (settings_ st) then line else uncolored line) = text ∧
      (cout st', cerr st') =
        (if log_std_out (settings_ st) then (cout st ++ line ++ endl, cerr st)
         else (cout st, cerr st ++ line ++ endl)) ∧
      files st' = match file_ st with
                  | Some (path, true) => <[path := default [] (files st !! path) ++ text ++ endl]> (files st)
                  | _ => files st
                  end ∧
      settings_ st' = settings_ st
  else st' = st.
Proof.
  intros Hn Hi Hit. cbn zeta. split.
  { unfold ZEN_LOGBUFFER. destruct (test_verbosity level st) eqn:E; [done|]. by rewrite statement_silent. }
  destruct (test_verbosity level st) eqn:E; [|by apply statement_silent]. unfold statement.
  pose proof (new_LogBuffer_spec level init now id st E Hn Hi) as H.
  destruct (new_LogBuffer _ _ _ _ level init now id st) as [buf st1].
  destruct H as (Hp & Hs & Hu & (Es & Ef & Eo & Ee & Ea) & _).
  rewrite append_fold, Hs by done.
  set (b := mk_BufferBase _ _ _). destruct (flush_spec b st1 eq_refl) as (line & Hl & ->).
  assert (Ht : uncolored (ss_ b) = plain_line level init items now id st).
  { cbn [b ss_]. rewrite Hu. unfold plain_line. do 2 f_equal.
    rewrite <- (app_nil_r (concat _)), uncolored_plain, !app_nil_r; [done|].
    clear - Hit. induction Hit; cbn; [by apply not_elem_of_nil|]. rewrite not_elem_of_app. by split. }
  rewrite Ht in *. exists line. rewrite Es in Hl. split; [by rewrite Hl|].
  rewrite <- Es, <- Ef, <- Eo, <- Ee, <- Ea. unfold print, print_file.
  destruct (log_std_out (settings_ st1)); cbn; destruct (file_ st1) as [[path []]|]; done.
Qed.

Lemma tz_get_thread_name id st : tz (get_thread_name print_id id st).2 = tz st.
Proof. unfold get_thread_name. by case_bool_decide. Qed.

Lemma tz_flush buf st : tz (flush buf st) = tz st.
Proof.
  unfold flush, print_file, print. destruct (should_print_ buf); [|done]. cbn zeta.
  destruct (log_std_out (settings_ st)); cbn; by destruct (file_ st) as [[path []]|].
Qed.

Lemma tz_new_LogBuffer level init now id st :
  tz (new_LogBuffer FormatTime zone_name print_id format_35s level init now id st).2 =
  if test_verbosity level st then Some (zone_of st) else tz st.
Proof.
  assert (H : tz (new_BufferBase FormatTime zone_name print_id level now id st).2 =
              if test_verbosity level st then Some (zone_of st) else tz st).
  { unfold new_BufferBase, test_verbosity. destruct (level_le _ _); [|done].
    destruct (get_level_settings level). unfold static_tz, zone_of.
    destruct (tz st) eqn:E; cbn; (destruct (log_threads (settings_ st)); [|done || by rewrite E]).
    - rewrite <- E, <- (tz_get_thread_name id st). by destruct (get_thread_name print_id id st).
    - set (z := if log_utc _ then _ else _). pose proof (tz_get_thread_name id (with_tz z st)) as Ht.
      by destruct (get_thread_name print_id id (with_tz z st)). }
  unfold new_LogBuffer, new_BufferBase_msg. destruct init as [[msg args]|]; [|exact H].
  destruct (new_BufferBase _ _ _ level now id st) as [buf st1]. by destruct (should_print_ buf).
Qed.

(** The time zone is the one chosen by the first line that is printed, whatever
    the settings become; and [log_utc] chooses the local one. *)
Lemma zone_of_first_line level init items now id st :
  let st' := statement FormatTime zone_name print_id format_35s level init items now id st in
  (test_verbosity level st = true → tz st' = Some (zone_of st)) ∧
  (∀ z, tz st = Some z → tz st' = Some z ∧ zone_of st = z ∧ ∀ s opened, tz (Log.init s opened st) = Some z) ∧
  (tz st = None → zone_of st = if log_utc (settings_ st) then LocalTimeZone else UTCTimeZone).
Proof.
  cbn zeta. unfold statement. pose proof (tz_new_LogBuffer level init now id st) as H.
  destruct (new_LogBuffer _ _ _ _ level init now id st) as [buf st1]. rewrite tz_flush. cbn in H. rewrite H.
  split; [by intros ->|]. split.
  - intros z Hz. unfold zone_of, Log.init, tee_file. rewrite Hz. cbn. split; [by destruct (test_verbosity level st)|].
    split; [done|]. intros s opened. case_bool_decide; [done|]. by destruct opened.
  - intros Hz. unfold zone_of. by rewrite Hz.
Qed.
End lines.

Lemma put_integer_nonneg c z :
  (0 <= z)%Z → put_integer (Some c) z = separate_thousands c (dec z) ∧ put_integer None z = dec z.
Proof. intros Hz. unfold put_integer. by rewrite Z.abs_eq, (proj2 (Z.ltb_ge z 0)). Qed.

Lemma filter_digits c ds : is_digit c = false → digits ds → filter (λ b, b ≠ c) ds = ds.
Proof.
  intros Hc Hd. induction Hd as [|b ds Hb _ IH]; [done|].
  rewrite filter_cons_True, IH; [done|]. by intros ->; rewrite Hc in Hb.
Qed.

Lemma separated_digits c z :
  is_digit c = false → (0 <= z)%Z → filter (λ b, b ≠ c) (separate_thousands c (dec z)) = dec z.
Proof.
  intros Hc Hz. induction z as [z IH] using (well_founded_induction (Z.lt_wf 0)).
  rewrite separate_thousands_dec by done. destruct (Z.ltb_spec z 1000).
  - apply filter_digits; [done|]. by apply dec_spec.
  - rewrite filter_app, filter_cons_False by auto.
    rewrite IH, filter_digits; [by rewrite <- dec_thousands|done|apply digits_fixed| |].
    + split; [apply Z.div_pos; lia|apply Z.div_lt; lia].
    + apply Z.div_pos; lia.
Qed.

(** An integer put into a line has its digits in groups of three from the
    right, with the separator of the settings between the groups: above a
    thousand it is its thousands put likewise, the separator and three more
    digits. The digits that remain without the separators, or that are put
    with none, are the decimal notation; a negative integer has a minus in
    front. *)
Theorem integers_separated c z :
  is_digit c = false → (0 <= z)%Z →
  put_integer (Some c) z =
    (if (z <? 1000)%Z then dec z
     else put_integer (Some c) (z / 1000) ++ c :: fixed_digits 3 (z mod 1000)) ∧
  filter (λ b, b ≠ c) (put_integer (Some c) z) = dec z ∧
  put_integer None z = dec z ∧
  (z ≠ 0 → ∀ separator, put_integer separator (- z) = chars "-" ++ put_integer separator z)%Z.
Proof.
  intros Hc Hz. pose proof (put_integer_nonneg c z Hz) as [-> En].
  split; [|split; [by apply separated_digits|split; [done|]]].
  - rewrite separate_thousands_dec by done. destruct (Z.ltb_spec z 1000); [done|].
    by rewrite (proj1 (put_integer_nonneg c (z / 1000) ltac:(apply Z.div_pos; lia))).
  - intros Hz0 s. unfold put_integer. rewrite Z.abs_opp.
    by rewrite (proj2 (Z.ltb_lt (- z) 0)), (proj2 (Z.ltb_ge z 0)) by lia.
Qed.

(** ** Witnesses *)

(** A line of information, with three arguments and a number, to the log file
    and in colour to the standard error. *)
Definition sample_logger : logger :=
  mk_logger default_Settings (Some (chars "zen.log", true)) None ∅ [] [] {[chars "zen.log" := chars "old;"]}.

Lemma statement_prints_witness :
  let st := statement (λ _ _, chars "01-02|10:00:00.000") (λ _, chars "UTC") (λ _, chars "7")
    (λ m, m ++ replicate (35 - length m) Byte.x20) kInfo
    (Some (chars "Sync", [chars "block"; chars "12"; chars "peers"])) [Integer 1234567] 0 7 sample_logger in
  files st !! chars "zen.log" =
    Some (chars "old;  INFO [01-02|10:00:00.000 UTC] Sync                               block=12 peers=1'234'567" ++ endl)
  ∧ cout st = [].
Proof.
  destruct (statement_prints (λ _ _, chars "01-02|10:00:00.000") (λ _, chars "UTC") (λ _, chars "7")
    (λ m, m ++ replicate (35 - length m) Byte.x20) ltac:(intros; plain_text) ltac:(intros; plain_text)
    ltac:(intros; plain_text) ltac:(done) kInfo
    (Some (chars "Sync", [chars "block"; chars "12"; chars "peers"])) [Integer 1234567] 0 7 sample_logger)
    as [_ (line & _ & Hc & Hf & _)].
  - cbn. by apply not_elem_of_nil.
  - intros msg args [= <- <-]. split; [plain_text|]. repeat apply Forall_cons_2; [plain_text..|by apply Forall_nil].
  - repeat apply Forall_cons_2; [plain_text|by apply Forall_nil].
  - cbn zeta. split; [|by apply (f_equal fst) in Hc].
    rewrite Hf. vm_compute. reflexivity.
Defined.

Lemma integers_separated_witness :
  is_digit Byte.x27 = false ∧ filter (λ b, b ≠ Byte.x27) (put_integer (Some Byte.x27) 1234567) = dec 1234567.
Proof.
  split; [reflexivity|].
  destruct (integers_separated Byte.x27 1234567) as (_ & H & _); [reflexivity|lia|exact H].
Defined.
