(* ===== verification/Directories.v ===== *)
(** * Directories

    Models [src/zen/node/common/directories.hpp] and [directories.cpp] on a
    filesystem without symbolic links: a map from places to what is there, a
    place being the names on the way from the root, the innermost first. What
    [std::filesystem] does is modelled as far as these functions use it; that a
    call may fail because of permissions or of the device is not. *)
From S2P Require Import Prelude Misc.
From stdpp Require Import gmap.
Local Open Scope nat_scope.

(** ** The filesystem *)

Abbreviation name := (list byte).
Abbreviation place := (list name).
Inductive kind := Dir | Regular (size : Z) | Special.
#[export] Instance kind_eq_dec : EqDecision kind.
Proof. solve_decision. Defined.
Abbreviation filesystem := (gmap place kind).
Implicit Types fs : filesystem.

Inductive fs_exception := invalid_argument | runtime_error | filesystem_error.

(** A path: a trailing separator is an empty last element. *)
Record path := mk_path { absolute_ : bool; elements : list name }.
#[export] Instance path_eq_dec : EqDecision path.
Proof. solve_decision. Defined.

Definition empty_path (p : path) : bool := negb (absolute_ p) && bool_decide (elements p = []).
Definition has_filename (p : path) : bool :=
  match last (elements p) with
  | Some n => negb (bool_decide (n = []))
  | None => false
  end.
(** Without a trailing separator. *)
Definition stem_elements (p : path) : list name :=
  match last (elements p) with
  | Some [] => removelast (elements p)
  | _ => elements p
  end.
Definition append_path (p q : path) : path :=
  if absolute_ q then q
  else mk_path (absolute_ p) (stem_elements p ++ match elements q with
         | [] => if bool_decide (elements p = []) then [] else [[]]
         | es => es
         end).

(** The elements of a text: the names between the separators. *)
Fixpoint split_path (name : list byte) (s : list byte) : list (list byte) :=
  match s with
  | [] => [name]
  | Byte.x2f :: s => name :: split_path [] s
  | b :: s => split_path (name ++ [b]) s
  end.
Definition path_of (s : list byte) : path :=
  let names := split_path [] s in
  let es := filter (λ n, n ≠ []) names in
  mk_path (bool_decide (head s = Some Byte.x2f))
    (es ++ if bool_decide (es ≠ [] ∧ last names = Some []) then [[]] else []).

Definition is_dir fs (k : place) : bool := bool_decide (fs !! k = Some Dir).

(** Where the elements of a path lead to from a place. *)
Fixpoint resolve fs (at_ : place) (es : list name) : option place :=
  match es with
  | [] => if bool_decide (is_Some (fs !! at_)) then Some at_ else None
  | e :: es =>
      if is_dir fs at_ then
        if bool_decide (e = [] ∨ e = chars ".") then resolve fs at_ es
        else if bool_decide (e = chars "..") then resolve fs (tail at_) es
        else resolve fs (e :: at_) es
      else None
  end.

(** [create_directories]: the way of [resolve], with the directories that are
    missing. *)
Fixpoint make_directories fs (at_ : place) (es : list name) : outcome fs_exception filesystem :=
  match es with
  | [] => if is_dir fs at_ then Return fs else Throw filesystem_error
  | e :: es =>
      if is_dir fs at_ then
        if bool_decide (e = [] ∨ e = chars ".") then make_directories fs at_ es
        else if bool_decide (e = chars "..") then make_directories fs (tail at_) es
        else match fs !! (e :: at_) with
             | Some _ => make_directories fs (e :: at_) es
             | None => make_directories (<[e :: at_ := Dir]> fs) (e :: at_) es
             end
      else Throw filesystem_error
  end.

Definition keys fs : list place := (map_to_list fs).*1.
Definition children fs (k : place) : list place := filter (λ c, c ≠ [] ∧ tail c = k) (keys fs).
Definition strictly_below (k c : place) : Prop := k `suffix_of` c ∧ k ≠ c.
Definition below fs (k : place) : list place := filter (strictly_below k) (keys fs).

(** [remove_all], without its count. *)
Definition remove_all (k : place) fs : filesystem := filter (λ e, ¬ (k `suffix_of` e.1)) fs.

(** What a process knows besides: its working directory and environment. *)
Record process := mk_process { current_path : path; getenv : list byte → option (list byte) }.

Definition absolute (pr : process) (p : path) : outcome fs_exception path :=
  if empty_path p then Throw filesystem_error
  else Return (if absolute_ p then p else append_path (current_path pr) p).

(** The place of an absolute path. *)
Definition locate fs (p : path) : option place := resolve fs [] (elements p).
Definition fs_exists fs (p : path) : bool := bool_decide (is_Some (locate fs p)).
Definition fs_is_directory fs (p : path) : bool :=
  match locate fs p with Some k => is_dir fs k | None => false end.

(** [temp_directory_path]. *)
Definition temp_variables : list (list byte) := chars <$> ["TMPDIR"; "TMP"; "TEMP"; "TEMPDIR"]%string.
Definition temp_directory_path (pr : process) fs : outcome fs_exception path :=
  let p := path_of (default (chars "/tmp") (head (omap (getenv pr) temp_variables))) in
  '(p') ← absolute pr p;
  if fs_is_directory fs p' then Return p else Throw filesystem_error.

(** ** The free functions *)

Definition get_os_temporary_path (pr : process) fs : outcome fs_exception path := temp_directory_path pr fs.

(** [count] is the result of [readlink] and [buffer] what it has written to. *)
Definition get_process_absolute_full_path (count : Z) (buffer : list byte) : path :=
  path_of (take (if (0 <? count)%Z then Z.to_nat count else 0) buffer).

(** The attempts, each with the numbers that the random engine draws for it. *)
Fixpoint unique_attempts (draws : nat → nat → nat) (base : path) fs (i n : nat) : outcome fs_exception path :=
  match n with
  | O => Throw runtime_error
  | S n =>
      let generated := append_path base (mk_path false [get_random_alpha_string (draws i) 10]) in
      if fs_exists fs generated then unique_attempts draws base fs (S i) n else Return generated
  end.
Definition get_unique_temporary_path (pr : process) (draws : nat → nat → nat) (base_path : option path) fs :
    outcome fs_exception path :=
  base ← match base_path with Some p => Return p | None => get_os_temporary_path pr fs end;
  base ← (if absolute_ base then Return base else absolute pr base);
  if negb (fs_exists fs base) || negb (fs_is_directory fs base) then Throw invalid_argument
  else unique_attempts draws base fs 0 1000.

Definition nonempty_env (pr : process) (v : string) : option (list byte) :=
  match getenv pr (chars v) with
  | Some [] | None => None
  | Some s => Some s
  end.
Definition get_os_default_storage_path (pr : process) : path :=
  let base :=
    match nonempty_env pr "XDG_DATA_HOME" with
    | Some s => path_of s
    | None =>
        match nonempty_env pr "HOME" with
        | None => current_path pr
        | Some s => path_of s
        end
    end in
  fold_left (λ p n, append_path p (mk_path false [chars n])) [".local"; "share"; "zen"]%string base.

(** ** Directories *)

Record Directory := mk_Directory { path_ : path }.
Implicit Types this : Directory.

Definition exists_ this fs : bool := fs_exists fs (path_ this) && fs_is_directory fs (path_ this).

Definition create this fs : outcome fs_exception filesystem :=
  if exists_ this fs then Return fs else make_directories fs [] (elements (path_ this)).

Definition new_Directory (pr : process) (p : path) fs : outcome fs_exception (Directory * filesystem) :=
  let path1 := if empty_path p then current_path pr else p in
  path2 ← (if absolute_ p then Return path1 else absolute pr path1);
  if negb (has_filename path2) then Throw invalid_argument
  else if fs_exists fs path2 && negb (fs_is_directory fs path2) then Throw invalid_argument
  else fs' ← create (mk_Directory path2) fs; Return (mk_Directory path2, fs').

Definition is_pristine this fs : outcome fs_exception bool :=
  match locate fs (path_ this) with
  | Some k =>
      match fs !! k with
      | Some Dir => Return (bool_decide (children fs k = []))
      | Some (Regular n) => Return (n =? 0)%Z
      | _ => Throw filesystem_error
      end
  | None => Throw filesystem_error
  end.

Definition clear_entry (recurse : bool) fs (entry : place) : filesystem :=
  if is_dir fs entry && negb recurse then fs else remove_all entry fs.
Definition clear (recurse : bool) this fs : outcome fs_exception filesystem :=
  match locate fs (path_ this) with
  | Some k =>
      if is_dir fs k then Return (fold_left (clear_entry recurse) (children fs k) fs)
      else Throw filesystem_error
  | None => Throw filesystem_error
  end.

(** The loop over the recursive iterator, which has the entries in [pending]
    still to visit: those of a directory come before what was pending, unless
    the recursion is disabled. Out of fuel is [None]. *)
Fixpoint size_loop (fuel : nat) fs (recurse : bool) (pending : list place) (ret : Z) : option Z :=
  match pending, fuel with
  | [], _ => Some ret
  | _, O => None
  | it :: pending, S fuel =>
      match fs !! it with
      | Some Dir => size_loop fuel fs recurse (if recurse then children fs it ++ pending else pending) ret
      | Some (Regular n) => size_loop fuel fs recurse pending (u64 (ret + n))
      | _ => size_loop fuel fs recurse pending ret
      end
  end.
Definition size_ (fuel : nat) (recurse : bool) this fs : outcome fs_exception (option Z) :=
  match locate fs (path_ this) with
  | Some k => if is_dir fs k then Return (size_loop fuel fs recurse (children fs k) 0) else Throw filesystem_error
  | None => Throw filesystem_error
  end.

(** [operator[]]. *)
Definition subdirectory (pr : process) (p : path) this fs : outcome fs_exception (Directory * filesystem) :=
  if empty_path p || absolute_ p || negb (has_filename p) then Throw invalid_argument
  else new_Directory pr (append_path (path_ this) p) fs.

Definition new_TempDirectory (pr : process) (draws : nat → nat → nat) (base : option path) fs :
    outcome fs_exception (Directory * filesystem) :=
  p ← get_unique_temporary_path pr draws base fs; new_Directory pr p fs.
Definition destroy_TempDirectory this fs : filesystem :=
  match locate fs (path_ this) with
  | Some k => remove_all k fs
  | None => fs
  end.

(** [DataDirectory]. *)
Definition DataDirectory_clear (recurse : bool) this fs : outcome fs_exception filesystem := Return fs.
Definition deploy (pr : process) this fs : outcome fs_exception filesystem :=
  let sub fs n := '(_, fs) ← subdirectory pr (mk_path false [chars n]) this fs; Return fs in
  fs ← sub fs "chaindata"%string;
  fs ← sub fs "etl-tmp"%string;
  sub fs "nodes"%string.

(** ** The shape of a filesystem *)

(** What there is has a directory around it. *)
Definition well_formed fs : Prop :=
  fs !! [] = Some Dir ∧ ∀ n k, is_Some (fs !! (n :: k)) → fs !! k = Some Dir.

Lemma elem_of_keys fs k : k ∈ keys fs ↔ is_Some (fs !! k).
Proof.
  unfold keys. rewrite list_elem_of_fmap. split.
  - intros ([k' v] & -> & Hv). apply elem_of_map_to_list in Hv. by eexists.
  - intros [v Hv]. exists (k, v). by rewrite elem_of_map_to_list.
Qed.

Lemma NoDup_keys fs : NoDup (keys fs).
Proof. apply NoDup_fst_map_to_list. Qed.

Lemma elem_of_children fs k c : c ∈ children fs k ↔ ∃ n, c = n :: k ∧ is_Some (fs !! c).
Proof.
  unfold children. rewrite list_elem_of_filter, elem_of_keys. split.
  - intros [[Hn Ht] Hs]. destruct c as [|n c]; [done|]. cbn in Ht. subst c. by eexists.
  - intros (n & -> & Hs). done.
Qed.

Lemma elem_of_below fs k c : c ∈ below fs k ↔ strictly_below k c ∧ is_Some (fs !! c).
Proof. unfold below. by rewrite list_elem_of_filter, elem_of_keys. Qed.

Lemma well_formed_suffix fs k l : well_formed fs → is_Some (fs !! (l ++ k)) → is_Some (fs !! k).
Proof.
  intros Hw. induction l as [|n l IH]; cbn; [done|]. intros Hs. apply IH. rewrite (proj2 Hw _ _ Hs). by eexists.
Qed.

Lemma strictly_below_spec k c : strictly_below k c ↔ ∃ l n, c = l ++ n :: k.
Proof.
  split.
  - intros [[l ->] Hn]. destruct l as [|n l _] using rev_ind; [done|]. exists l, n. by rewrite <- app_assoc.
  - intros (l & n & ->). split; [by exists (l ++ [n]); rewrite <- app_assoc|].
    intros E. apply (f_equal length) in E. rewrite length_app in E. cbn in E. lia.
Qed.

(** Below a place are its entries and what is below them. *)
Lemma below_children fs k :
  well_formed fs → below fs k ≡ₚ children fs k ≫= λ c, c :: below fs c.
Proof.
  intros Hw. apply NoDup_Permutation.
  - apply NoDup_filter, NoDup_keys.
  - apply NoDup_bind.
    + intros c1 c2 e Hc1 Hc2. apply elem_of_children in Hc1 as (n1 & -> & _), Hc2 as (n2 & -> & _).
      rewrite !elem_of_cons, !elem_of_below, !strictly_below_spec.
      assert (A : ∀ l1 l2, l1 ++ n1 :: k = l2 ++ n2 :: k → n1 :: k = n2 :: k).
      { intros l1 l2 E. apply (f_equal reverse) in E. rewrite !reverse_app, !reverse_cons, <- !app_assoc in E.
        apply app_inv_head in E. cbn in E. by injection E as ->. }
      intros [->|[(l1 & m1 & ->) _]] [E|[(l2 & m2 & E) _]].
      * done.
      * apply (A [] (l2 ++ [m2])). by rewrite <- app_assoc.
      * apply (A (l1 ++ [m1]) []). by rewrite <- app_assoc.
      * apply (A (l1 ++ [m1]) (l2 ++ [m2])). by rewrite <- !app_assoc.
    + intros c _. apply NoDup_cons. split; [|apply NoDup_filter, NoDup_keys].
      rewrite elem_of_below. by intros [[_ ?] _].
    + apply NoDup_filter, NoDup_keys.
  - intros e. rewrite elem_of_below, list_elem_of_bind, strictly_below_spec. split.
    + intros [(l & n & ->) Hs]. exists (n :: k). split.
      * rewrite elem_of_cons, elem_of_below, strictly_below_spec.
        destruct l as [|m l _] using rev_ind; [by left|right]. split; [|done]. exists l, m. by rewrite <- app_assoc.
      * apply elem_of_children. exists n. split; [done|]. by eapply well_formed_suffix.
    + intros (c & He & Hc). apply elem_of_children in Hc as (n & -> & Hs).
      apply elem_of_cons in He as [->|He]; [by split; [exists [], n|]|].
      apply elem_of_below in He as [Hb Hs']. apply strictly_below_spec in Hb as (l & m & ->).
      split; [|done]. exists (l ++ [m]), n. by rewrite <- app_assoc.
Qed.

Lemma below_nil fs k : well_formed fs → fs !! k ≠ Some Dir → below fs k = [].
Proof.
  intros Hw Hk. destruct (below fs k) as [|c l] eqn:E; [done|].
  assert (Hc : c ∈ below fs k) by (rewrite E; by left).
  apply elem_of_below in Hc as [Hb Hs]. apply strictly_below_spec in Hb as (m & n & ->).
  by rewrite (proj2 Hw n k (well_formed_suffix fs (n :: k) m Hw Hs)) in Hk.
Qed.

(** ** The size *)

Definition file_size fs (k : place) : Z := match fs !! k with Some (Regular n) => n | _ => 0%Z end.
Definition sum_sizes fs (l : list place) : Z := foldr (λ k s, (file_size fs k + s)%Z) 0%Z l.

Lemma sum_sizes_cons fs k l : sum_sizes fs (k :: l) = (file_size fs k + sum_sizes fs l)%Z.
Proof. done. Qed.
Lemma sum_sizes_app fs l m : sum_sizes fs (l ++ m) = (sum_sizes fs l + sum_sizes fs m)%Z.
Proof. induction l as [|k l IH]; [done|]. cbn [app]. rewrite !sum_sizes_cons, IH. lia. Qed.
Lemma sum_sizes_permutation fs l m : l ≡ₚ m → sum_sizes fs l = sum_sizes fs m.
Proof. induction 1; rewrite ?sum_sizes_cons; lia. Qed.

(** What the loop visits. *)
Definition visited fs (recurse : bool) (pending : list place) : list place :=
  if recurse then pending ≫= λ c, c :: below fs c else pending.

Lemma visited_cons fs recurse c l :
  visited fs recurse (c :: l) = c :: (if recurse then below fs c else []) ++ visited fs recurse l.
Proof. by destruct recurse. Qed.

Lemma visited_children fs c l :
  well_formed fs → visited fs true (children fs c ++ l) ≡ₚ below fs c ++ visited fs true l.
Proof. intros Hw. unfold visited. rewrite bind_app. by rewrite <- below_children. Qed.

Lemma size_loop_spec fuel fs recurse pending ret :
  well_formed fs → u64 ret = ret → length (visited fs recurse pending) ≤ fuel →
  size_loop fuel fs recurse pending ret = Some (u64 (ret + sum_sizes fs (visited fs recurse pending))).
Proof.
  intros Hw. revert pending ret. induction fuel as [|fuel IH]; intros [|it pending] ret Hr Hf.
  1,3: by destruct recurse; cbn [visited]; cbn; rewrite Z.add_0_r, Hr.
  { rewrite visited_cons in Hf. cbn in Hf. lia. }
  rewrite visited_cons in *. rewrite sum_sizes_cons. cbn [size_loop length] in *.
  assert (Hsum : ∀ n, u64 (u64 (ret + n) + sum_sizes fs (visited fs recurse pending)) =
                      u64 (ret + (n + sum_sizes fs (visited fs recurse pending)))).
  { intros n. unfold u64, wrap. rewrite Z.add_mod_idemp_l by done. f_equal. lia. }
  destruct (decide (fs !! it = Some Dir)) as [Hd|Hd].
  - unfold file_size at 1. rewrite Hd. destruct recurse.
    + pose proof (visited_children fs it pending Hw) as Hp. rewrite IH; [|done|].
      * do 2 f_equal. by rewrite (sum_sizes_permutation _ _ _ Hp).
      * rewrite (Permutation_length Hp). exact (le_S_n _ _ Hf).
    + rewrite IH; [done..|]. exact (le_S_n _ _ Hf).
  - rewrite (below_nil fs it Hw Hd) in *. replace (if recurse then [] else []) with (@nil place) in * by (by destruct recurse).
    cbn [app] in *. unfold file_size at 1. destruct (fs !! it) as [[|n|]|]; try done.
    + rewrite IH; [by rewrite Hsum| |exact (le_S_n _ _ Hf)]. unfold u64, wrap. by rewrite Z.mod_mod.
    + rewrite IH; [done..|exact (le_S_n _ _ Hf)].
    + rewrite IH; [done..|exact (le_S_n _ _ Hf)].
Qed.

(** ** Finding one's way *)

Lemma resolve_app fs at_ es fs' es' k :
  resolve fs at_ es = Some k → fs ⊆ fs' → fs !! k = Some Dir → resolve fs' at_ (es ++ es') = resolve fs' k es'.
Proof.
  intros Hr Hsub Hk. revert at_ Hr. induction es as [|e es IH]; intros at_; cbn [resolve app].
  - case_bool_decide; [|done]. by intros [= ->].
  - unfold is_dir. destruct (decide (fs !! at_ = Some Dir)) as [Hd|Hd].
    + rewrite (lookup_weaken _ _ _ _ Hd Hsub), Hd, !(bool_decide_true (Some Dir = Some Dir)) by done.
      destruct (bool_decide (e = [] ∨ _)); [apply IH|]. destruct (bool_decide _); apply IH.
    + by rewrite bool_decide_false.
Qed.

Lemma resolve_weaken fs fs' at_ es k : resolve fs at_ es = Some k → fs ⊆ fs' → resolve fs' at_ es = Some k.
Proof.
  intros Hr Hsub. revert at_ Hr. induction es as [|e es IH]; intros at_; cbn [resolve].
  - case_bool_decide as Hs; [|done]. intros [= ->]. rewrite bool_decide_true; [done|].
    destruct Hs as [v Hs]. exists v. by eapply lookup_weaken.
  - unfold is_dir. destruct (decide (fs !! at_ = Some Dir)) as [Hd|Hd].
    + rewrite (lookup_weaken _ _ _ _ Hd Hsub), Hd, !(bool_decide_true (Some Dir = Some Dir)) by done.
      destruct (bool_decide (e = [] ∨ _)); [apply IH|]. destruct (bool_decide _); apply IH.
    + by rewrite bool_decide_false.
Qed.

Lemma make_directories_app fs at_ es es' k :
  resolve fs at_ es = Some k → fs !! k = Some Dir →
  make_directories fs at_ (es ++ es') = make_directories fs k es'.
Proof.
  intros Hr Hk. revert at_ Hr. induction es as [|e es IH]; intros at_; cbn [resolve make_directories app].
  - case_bool_decide; [|done]. by intros [= ->].
  - destruct (is_dir fs at_); [|done]. destruct (bool_decide (e = [] ∨ _)); [auto|].
    destruct (bool_decide _); [auto|]. intros Hr. destruct (fs !! (e :: at_)) eqn:E; [auto|].
    destruct es as [|e' es]; cbn in Hr.
    + rewrite E in Hr. by case_bool_decide as Hs; [destruct Hs|].
    + unfold is_dir in Hr. by rewrite E in Hr.
Qed.

(** A proper name, which stands for an entry. *)
Definition proper (n : name) : Prop := n ≠ [] ∧ n ≠ chars "." ∧ n ≠ chars "..".
#[export] Instance proper_dec n : Decision (proper n).
Proof. unfold proper. apply _. Defined.

Lemma resolve_proper fs k n :
  proper n → fs !! k = Some Dir → resolve fs k [n] = if bool_decide (is_Some (fs !! (n :: k))) then Some (n :: k) else None.
Proof.
  intros (H1 & H2 & H3) Hk. cbn. unfold is_dir. rewrite Hk, bool_decide_true by done.
  rewrite bool_decide_false by tauto. by rewrite bool_decide_false.
Qed.

Lemma make_directories_proper fs k n :
  proper n → fs !! k = Some Dir →
  make_directories fs k [n] =
    match fs !! (n :: k) with
    | None => Return (<[n :: k := Dir]> fs)
    | Some Dir => Return fs
    | Some _ => Throw filesystem_error
    end.
Proof.
  intros (H1 & H2 & H3) Hk. cbn. unfold is_dir at 1. rewrite Hk, bool_decide_true by done.
  rewrite bool_decide_false by tauto. rewrite bool_decide_false by done.
  destruct (fs !! (n :: k)) as [[| |]|] eqn:E; unfold is_dir; rewrite ?E; try done.
  rewrite lookup_insert_eq. done.
Qed.

Lemma resolve_stem fs p k : locate fs p = Some k → fs !! k = Some Dir → resolve fs [] (stem_elements p) = Some k.
Proof.
  unfold locate, stem_elements. intros Hr Hk. destruct (last (elements p)) as [[|b n]|] eqn:E; try done.
  apply last_Some in E as [l E]. rewrite E in *. rewrite removelast_last.
  clear E p. cut (∀ at_, resolve fs at_ (l ++ [[]]) = Some k → resolve fs at_ l = Some k); [auto|]. clear Hr.
  induction l as [|e l IH]; intros at_; cbn [app resolve].
  - destruct (is_dir fs at_) eqn:Hd; [|done].
    destruct (bool_decide ([] = [] ∨ _)) eqn:E; [done|]. apply bool_decide_eq_false in E. tauto.
  - destruct (is_dir fs at_); [|done]. destruct (bool_decide (e = [] ∨ _)); [apply IH|].
    destruct (bool_decide _); apply IH.
Qed.

Section entry.
Context (fs : filesystem) (p : path) (k : place) (n : name).
Hypothesis Habs : absolute_ p = true.
Hypothesis Hloc : locate fs p = Some k.
Hypothesis Hdir : fs !! k = Some Dir.
Hypothesis Hn : proper n.

Definition entry_path : path := append_path p (mk_path false [n]).

Lemma entry_elements : elements entry_path = stem_elements p ++ [n] ∧ absolute_ entry_path = true.
Proof. by unfold entry_path, append_path. Qed.

(** The path of an entry of a directory, in a filesystem that has as much. *)
Lemma locate_entry fs' :
  fs ⊆ fs' → locate fs' entry_path = if bool_decide (is_Some (fs' !! (n :: k))) then Some (n :: k) else None.
Proof.
  intros Hsub. unfold locate. rewrite (proj1 entry_elements).
  rewrite (resolve_app fs [] _ fs' [n] k (resolve_stem fs p k Hloc Hdir) Hsub Hdir).
  apply resolve_proper; [done|]. by eapply lookup_weaken.
Qed.

Lemma new_Directory_entry pr :
  new_Directory pr entry_path fs =
    match fs !! (n :: k) with
    | None => Return (mk_Directory entry_path, <[n :: k := Dir]> fs)
    | Some Dir => Return (mk_Directory entry_path, fs)
    | Some _ => Throw invalid_argument
    end.
Proof.
  destruct entry_elements as [He Ha]. pose proof (locate_entry fs ltac:(done)) as Hl.
  unfold new_Directory. rewrite Ha.
  assert (empty_path entry_path = false) as -> by (unfold empty_path; rewrite Ha; reflexivity).
  cbn [mbind outcome_bind].
  assert (has_filename entry_path = true) as ->.
  { unfold has_filename. rewrite He, last_snoc. by rewrite bool_decide_false by apply Hn. }
  cbn [negb]. unfold create, exists_, fs_is_directory, fs_exists. cbn [path_]. rewrite Hl.
  rewrite He, (make_directories_app _ _ _ _ k (resolve_stem fs p k Hloc Hdir) Hdir), make_directories_proper by done.
  unfold is_dir. destruct (fs !! (n :: k)) as [[| |]|] eqn:E; cbn; rewrite ?E; done.
Qed.
End entry.

Lemma lookup_remove_all k fs c : remove_all k fs !! c = if decide (k `suffix_of` c) then None else fs !! c.
Proof.
  unfold remove_all. rewrite map_lookup_filter. destruct (fs !! c) as [v|]; cbn; [|by case_decide].
  case_decide; [by rewrite option_guard_False by auto|by rewrite option_guard_True].
Qed.

Lemma remove_all_well_formed k fs : well_formed fs → k ≠ [] → well_formed (remove_all k fs).
Proof.
  intros [H0 Hw] Hk. split.
  - rewrite lookup_remove_all, decide_False; [done|]. by intros ?%suffix_nil_inv.
  - intros n c. rewrite !lookup_remove_all. case_decide as Hs; [by intros []|].
    intros Hc. rewrite decide_False; [by eapply Hw|]. intros [l ->]. apply Hs. by exists (n :: l).
Qed.

Lemma well_formed_insert n k fs : well_formed fs → fs !! k = Some Dir → well_formed (<[n :: k := Dir]> fs).
Proof.
  intros [H0 Hw] Hk. split; [by rewrite lookup_insert_ne|].
  intros m c Hs. destruct (decide (c = n :: k)) as [->|Hc]; [by rewrite lookup_insert_eq|].
  rewrite lookup_insert_ne by done. destruct (decide (m :: c = n :: k)) as [[= -> ->]|]; [done|].
  rewrite lookup_insert_ne in Hs by done. by eapply Hw.
Qed.

(** ** Clearing *)

(** The entries that [clear] removes, with all that is below them. *)
Definition cleared fs (recurse : bool) (l : list place) (c : place) : Prop :=
  Exists (λ e, e `suffix_of` c ∧ (recurse = true ∨ fs !! e ≠ Some Dir)) l.
#[export] Instance cleared_dec fs recurse l c : Decision (cleared fs recurse l c).
Proof. apply Exists_dec. intros e. apply _. Defined.

Lemma lookup_clear_entry fs recurse e c :
  clear_entry recurse fs e !! c =
    if decide (e `suffix_of` c ∧ (recurse = true ∨ fs !! e ≠ Some Dir)) then None else fs !! c.
Proof.
  unfold clear_entry, is_dir. case_bool_decide as Hd; cbn.
  - destruct recurse; cbn.
    + rewrite lookup_remove_all. apply decide_ext. tauto.
    + rewrite decide_False; [done|]. by intros [_ [?|?]].
  - rewrite lookup_remove_all. apply decide_ext. tauto.
Qed.

Lemma clear_entries fs0 k recurse l fs c :
  (∀ e, e ∈ l → ∃ n, e = n :: k) → NoDup l → (∀ e, e ∈ l → fs !! e = fs0 !! e) →
  fold_left (clear_entry recurse) l fs !! c = if decide (cleared fs0 recurse l c) then None else fs !! c.
Proof.
  revert fs. induction l as [|e l IH]; intros fs Hl Hnd Hfs.
  - rewrite decide_False; [done|]. by intros ?%Exists_nil.
  - apply NoDup_cons in Hnd as [He Hnd]. cbn [fold_left]. rewrite IH; [|by intros; apply Hl; right|done|].
    + rewrite lookup_clear_entry, (Hfs e) by (by left). unfold cleared.
      destruct (decide (Exists _ l)) as [H|H]; [by rewrite decide_True by (by apply Exists_cons; right)|].
      apply decide_ext. rewrite Exists_cons. tauto.
    + intros e' He'. rewrite lookup_clear_entry, decide_False; [apply Hfs; by right|].
      intros [[m E] _]. destruct (Hl e ltac:(by left)) as [n ->], (Hl e' ltac:(by right)) as [n' ->].
      apply (f_equal length) in E as E'. rewrite length_app in E'. cbn in E'. destruct m; [|cbn in E'; lia].
      cbn in E. by rewrite E in He'.
Qed.

Lemma cleared_children fs recurse k c :
  well_formed fs → is_Some (fs !! c) →
  cleared fs recurse (children fs k) c ↔
    strictly_below k c ∧ (recurse = true ∨ tail c = k ∧ fs !! c ≠ Some Dir).
Proof.
  intros Hw Hc. unfold cleared. rewrite Exists_exists, strictly_below_spec. split.
  - intros (e & He & [l ->] & Hr). apply elem_of_children in He as (n & -> & _).
    split; [by exists l, n|]. destruct Hr as [Hr|Hr]; [by left|].
    destruct l as [|m l]; [by right|]. exfalso. apply Hr.
    destruct (exists_last (l := m :: l) ltac:(done)) as (l' & x & E). rewrite E, <- app_assoc in Hc.
    by apply (proj2 Hw x), (well_formed_suffix fs _ l').
  - intros [(l & n & ->) Hr]. exists (n :: k). split.
    + apply elem_of_children. exists n. split; [done|]. by eapply well_formed_suffix.
    + split; [by exists l|]. destruct Hr as [Hr|[Ht Hr]]; [by left|right].
      destruct l as [|m l]; [done|]. cbn in Ht. apply (f_equal length) in Ht. rewrite length_app in Ht. cbn in Ht. lia.
Qed.

(** ** The properties *)

(** C39: the size of a directory is the sum of the sizes of the regular files
    that are in it, or, with recursion, anywhere below it, as a 64-bit
    integer: the loop over the recursive iterator ends, having visited each
    entry once. On a path that is no directory it throws. *)
Theorem size_sums fs this recurse fuel :
  well_formed fs → (size fs ≤ fuel)%nat →
  size_ fuel recurse this fs =
    match locate fs (path_ this) with
    | Some k =>
        if is_dir fs k
        then Return (Some (u64 (sum_sizes fs (if recurse then below fs k else children fs k))))
        else Throw filesystem_error
    | None => Throw filesystem_error
    end.
Proof.
  intros Hw Hf. unfold size_. destruct (locate fs (path_ this)) as [k|]; [|done].
  destruct (is_dir fs k); [|done]. f_equal.
  assert (Hp : visited fs recurse (children fs k) ≡ₚ if recurse then below fs k else children fs k).
  { destruct recurse; [|done]. by rewrite below_children. }
  rewrite size_loop_spec; [|done..|].
  - by rewrite (sum_sizes_permutation _ _ _ Hp).
  - rewrite (Permutation_length Hp). transitivity (length (keys fs)).
    + destruct recurse; apply length_filter.
    + unfold keys. by rewrite length_fmap, length_map_to_list.
Qed.

(** Clearing a directory with recursion leaves it pristine, and removes
    what is below it and nothing else; without, it removes the entries of it
    that are no directories and nothing else. The filesystem stays well formed.
    A data directory is never cleared. *)
Theorem clear_removes fs this recurse k :
  well_formed fs → locate fs (path_ this) = Some k → fs !! k = Some Dir →
  DataDirectory_clear recurse this fs = Return fs ∧
  ∃ fs', clear recurse this fs = Return fs' ∧ well_formed fs' ∧
    (recurse = true → children fs' k = []) ∧
    ∀ c, fs' !! c =
      (if decide (strictly_below k c ∧ (recurse = true ∨ tail c = k ∧ fs !! c ≠ Some Dir)) then None else fs !! c).
Proof.
  intros Hw Hl Hd. split; [done|]. unfold clear. rewrite Hl. unfold is_dir. rewrite Hd, bool_decide_true by done.
  eexists. split; [done|].
  set (fs' := fold_left _ _ _).
  assert (Hfs' : ∀ c, fs' !! c =
    (if decide (strictly_below k c ∧ (recurse = true ∨ tail c = k ∧ fs !! c ≠ Some Dir)) then None else fs !! c)).
  { intros c. unfold fs'. rewrite (clear_entries fs k).
    - destruct (decide (is_Some (fs !! c))) as [Hc|Hc].
      + apply decide_ext. by apply cleared_children.
      + apply eq_None_not_Some in Hc. rewrite Hc. by repeat case_decide.
    - intros e He. apply elem_of_children in He as (n & -> & _). by exists n.
    - apply NoDup_filter, NoDup_keys.
    - done. }
  split; [split|split; [|exact Hfs']].
  - rewrite Hfs', decide_False; [apply Hw|]. rewrite strictly_below_spec. by intros [([] & n & E) _].
  - intros n c. rewrite (Hfs' (n :: c)), (Hfs' c).
    destruct (decide (strictly_below k (n :: c) ∧ _)) as [H1|H1]; [by intros []|]. intros Hs.
    pose proof (proj2 Hw _ _ Hs) as Hc. rewrite decide_False; [done|]. rewrite strictly_below_spec.
    intros [(l & m & ->) [->|[_ Hn]]]; [|done]. apply H1. split; [|by left]. apply strictly_below_spec. by exists (n :: l), m.
  - intros ->. destruct (children fs' k) as [|c l] eqn:E; [done|].
    assert (Hc : c ∈ children fs' k) by (rewrite E; by left).
    apply elem_of_children in Hc as (n & -> & Hs). rewrite Hfs', decide_True in Hs; [by destruct Hs|].
    split; [|by left]. apply strictly_below_spec. by exists [], n.
Qed.

(** ** Temporary directories *)

Lemma random_proper draw : proper (get_random_alpha_string draw 10).
Proof. split_and!; intros E; apply (f_equal length) in E; unfold get_random_alpha_string in E; rewrite length_fmap in E; done. Qed.

Lemma unique_attempts_spec draws base fs k i n :
  absolute_ base = true → locate fs base = Some k → fs !! k = Some Dir →
  let name i := get_random_alpha_string (draws i) 10 in
  unique_attempts draws base fs i n =
    match List.find (λ j, bool_decide (fs !! (name j :: k) = None)) (seq i n) with
    | Some j => Return (entry_path base (name j))
    | None => Throw runtime_error
    end.
Proof.
  intros Ha Hl Hd name. revert i. induction n as [|n IH]; intros i; [done|]. cbn [unique_attempts seq List.find].
  fold (entry_path base (get_random_alpha_string (draws i) 10)). unfold fs_exists.
  rewrite (locate_entry fs base k _ Ha Hl Hd (random_proper _) fs ltac:(done)). fold (name i).
  destruct (fs !! (name i :: k)) eqn:E; cbn.
  - apply IH.
  - done.
Qed.

Lemma get_unique_temporary_path_spec pr draws base fs :
  absolute_ base = true →
  get_unique_temporary_path pr draws (Some base) fs =
    if fs_is_directory fs base then unique_attempts draws base fs 0 1000 else Throw invalid_argument.
Proof.
  intros Ha. unfold get_unique_temporary_path, fs_exists, fs_is_directory.
  generalize (unique_attempts draws) as f. intros f. cbn [mbind outcome_bind]. rewrite Ha.
  cbn [mbind outcome_bind]. destruct (locate fs base); cbn; [by destruct (is_dir fs _)|done].
Qed.

Lemma remove_entry fs fs' e :
  well_formed fs → fs !! e = None → (∀ c, ¬ (e `suffix_of` c) → fs' !! c = fs !! c) → remove_all e fs' = fs.
Proof.
  intros Hw Hn Hs. apply map_eq. intros c. rewrite lookup_remove_all. case_decide as Hc; [|by apply Hs].
  destruct Hc as [l ->]. symmetry. apply eq_None_not_Some. intros H.
  apply (well_formed_suffix fs e l Hw) in H. by rewrite Hn in H; destruct H.
Qed.

(** C40: a temporary directory made in a directory is a new entry of it, with
    the first of the thousand random names that is free; if there is none the
    constructor throws a runtime error, and an invalid argument if the base is
    no directory. When the object is destroyed the filesystem is what it was
    before, whatever has been put into the temporary directory. *)
Theorem temp_directory_removed pr draws base fs :
  well_formed fs → absolute_ base = true →
  let name i := get_random_alpha_string (draws i) 10 in
  (fs_is_directory fs base = false → new_TempDirectory pr draws (Some base) fs = Throw invalid_argument) ∧
  ∀ k, locate fs base = Some k → fs !! k = Some Dir →
  match List.find (λ j, bool_decide (fs !! (name j :: k) = None)) (seq 0 1000) with
  | None => new_TempDirectory pr draws (Some base) fs = Throw runtime_error
  | Some i =>
      ∃ this, new_TempDirectory pr draws (Some base) fs = Return (this, <[name i :: k := Dir]> fs) ∧
        fs !! (name i :: k) = None ∧
        ∀ fs', fs' !! (name i :: k) = Some Dir →
          (∀ c, ¬ (name i :: k) `suffix_of` c → fs' !! c = fs !! c) → destroy_TempDirectory this fs' = fs
  end.
Proof.
  intros Hw Ha name. unfold new_TempDirectory. rewrite get_unique_temporary_path_spec by done.
  split; [by intros ->|]. intros k Hl Hd. unfold fs_is_directory. rewrite Hl. unfold is_dir.
  rewrite Hd, bool_decide_true by done. rewrite (unique_attempts_spec draws base fs k 0 1000 Ha Hl Hd). fold name.
  destruct (List.find _ _) as [i|] eqn:Ef; [|done]. apply List.find_some in Ef as [_ Ef].
  apply bool_decide_eq_true in Ef. cbn [mbind outcome_bind].
  rewrite (new_Directory_entry fs base k _ Ha Hl Hd (random_proper _)). fold (name i). rewrite Ef.
  eexists. split; [done|]. split; [done|]. intros fs' Hfs' Hs. unfold destroy_TempDirectory. cbn [path_].
  assert (Hsub : fs ⊆ fs').
  { apply map_subseteq_spec. intros c v Hc. rewrite Hs; [done|]. intros [l ->].
    destruct (well_formed_suffix fs (name i :: k) l Hw ltac:(by eexists)) as [? E]. by rewrite Ef in E. }
  pose proof (locate_entry fs base k _ Ha Hl Hd (random_proper (draws i)) fs' Hsub) as He. fold (name i) in He.
  rewrite He, bool_decide_true by (by eexists).
  by apply remove_entry.
Qed.

(** ** The data directory *)

Definition data_names : list name := chars <$> ["chaindata"; "etl-tmp"; "nodes"]%string.

Lemma data_names_proper : Forall proper data_names.
Proof. repeat apply Forall_cons_2; [by split_and!..|by apply Forall_nil]. Qed.

Lemma subdirectory_spec pr n this fs k :
  absolute_ (path_ this) = true → locate fs (path_ this) = Some k → fs !! k = Some Dir → proper n →
  subdirectory pr (mk_path false [n]) this fs =
    match fs !! (n :: k) with
    | None => Return (mk_Directory (entry_path (path_ this) n), <[n :: k := Dir]> fs)
    | Some Dir => Return (mk_Directory (entry_path (path_ this) n), fs)
    | Some _ => Throw invalid_argument
    end.
Proof.
  intros Ha Hl Hd Hn. unfold subdirectory, has_filename. cbn.
  rewrite !bool_decide_false by (try done; apply Hn). cbn. by apply new_Directory_entry.
Qed.

Definition with_entries (k : place) (names : list name) fs : filesystem :=
  fold_left (λ fs n, <[n :: k := Dir]> fs) names fs.

Lemma lookup_with_entries k names fs c :
  with_entries k names fs !! c =
    if decide (Exists (λ n, c = n :: k) names) then Some Dir else fs !! c.
Proof.
  unfold with_entries. revert fs. induction names as [|n names IH]; intros fs; cbn.
  - rewrite decide_False; [done|]. by intros ?%Exists_nil.
  - rewrite IH. destruct (decide (c = n :: k)) as [->|Hc].
    + rewrite lookup_insert_eq. rewrite (decide_True (P := Exists _ (n :: _))) by (by left). by case_decide.
    + rewrite lookup_insert_ne by done. apply decide_ext. rewrite Exists_cons. tauto.
Qed.

(** The names of a list deployed one after the other. *)
Lemma deploy_names pr this fs k names :
  absolute_ (path_ this) = true → locate fs (path_ this) = Some k → fs !! k = Some Dir → Forall proper names →
  foldr (λ n rest fs, '(_, fs) ← subdirectory pr (mk_path false [n]) this fs; rest fs) (λ fs, Return fs) names fs =
    if decide (Exists (λ n, is_Some (fs !! (n :: k)) ∧ fs !! (n :: k) ≠ Some Dir) names)
    then Throw invalid_argument else Return (with_entries k names fs).
Proof.
  intros Ha Hl Hd Hn. revert fs Hl Hd. induction Hn as [|n names Hn _ IH]; intros fs Hl Hd.
  - cbn. rewrite decide_False; [done|]. by intros ?%Exists_nil.
  - cbn [foldr]. rewrite (subdirectory_spec pr n this fs k) by done.
    unfold with_entries. cbn [fold_left]. fold (with_entries k names (<[n :: k := Dir]> fs)).
    destruct (fs !! (n :: k)) as [v|] eqn:E.
    + destruct (decide (v = Dir)) as [->|Hv].
      * cbn. rewrite IH, insert_id by done. erewrite decide_ext; [reflexivity|].
        rewrite Exists_cons, E. split; [auto|]. by intros [[_ ?]|?].
      * rewrite decide_True; [by destruct v|]. left. rewrite E. split; [by eexists|]. by intros [= ->].
    + cbn. assert (Hne : n :: k ≠ k) by (intros Hk; apply (f_equal length) in Hk; cbn in Hk; lia).
      assert (Hsub : fs ⊆ <[n :: k := Dir]> fs) by (by apply insert_subseteq).
      rewrite IH; [|by eapply resolve_weaken|by rewrite lookup_insert_ne].
      erewrite decide_ext; [reflexivity|]. rewrite Exists_cons, !Exists_exists, E. split.
      * intros (m & Hm & Hs & Hd'). right. exists m. split; [done|].
        destruct (decide (m = n)) as [->|]; [by rewrite lookup_insert_eq in Hd'|].
        by rewrite lookup_insert_ne in Hs, Hd' by congruence.
      * intros [[[] ?]|(m & Hm & Hs & Hd')]; [done|]. exists m. split; [done|].
        destruct (decide (m = n)) as [->|]; [by rewrite E in Hs; destruct Hs|].
        by rewrite lookup_insert_ne by congruence.
Qed.

Lemma with_entries_well_formed k names fs :
  well_formed fs → fs !! k = Some Dir → well_formed (with_entries k names fs) ∧ with_entries k names fs !! k = Some Dir.
Proof.
  unfold with_entries. revert fs. induction names as [|n names IH]; intros fs Hw Hd; [done|]. cbn [fold_left]. apply IH.
  - by apply well_formed_insert.
  - rewrite lookup_insert_ne; [done|]. intros Hk. apply (f_equal length) in Hk. cbn in Hk. lia.
Qed.

(** Deploying a data directory adds the directories that are missing of
    [chaindata], [etl-tmp] and [nodes], and nothing else, so that doing it
    again changes nothing; it throws if something else has one of the names. *)
Theorem deploy_creates pr this fs k :
  absolute_ (path_ this) = true → locate fs (path_ this) = Some k → fs !! k = Some Dir → well_formed fs →
  if decide (Exists (λ n, is_Some (fs !! (n :: k)) ∧ fs !! (n :: k) ≠ Some Dir) data_names)
  then deploy pr this fs = Throw invalid_argument
  else ∃ fs', deploy pr this fs = Return fs' ∧ well_formed fs' ∧ deploy pr this fs' = Return fs' ∧
    ∀ c, fs' !! c = (if decide (Exists (λ n, c = n :: k) data_names) then Some Dir else fs !! c).
Proof.
  intros Ha Hl Hd Hw.
  assert (Hdep : ∀ fs, deploy pr this fs =
    foldr (λ n rest fs, '(_, fs) ← subdirectory pr (mk_path false [n]) this fs; rest fs) (λ fs, Return fs) data_names fs).
  { intros fs0. unfold deploy, data_names. cbn [fmap list_fmap foldr].
    repeat (destruct (subdirectory _ _ _ _) as [[]| | |]; cbn [mbind outcome_bind]; try done). }
  rewrite Hdep, (deploy_names pr this fs k) by (done || apply data_names_proper).
  case_decide as Hc; [done|]. exists (with_entries k data_names fs). split; [done|].
  destruct (with_entries_well_formed k data_names fs Hw Hd) as [Hw' Hd']. split; [done|].
  split; [|intros c; apply lookup_with_entries]. rewrite Hdep, (deploy_names pr this _ k); [|done| |done|apply data_names_proper].
  - rewrite decide_False.
    + f_equal. apply map_eq. intros c. rewrite !lookup_with_entries. by case_decide.
    + intros H. apply Exists_exists in H as (n & Hn & _ & Hnd). apply Hnd.
      rewrite lookup_with_entries, decide_True; [done|]. apply Exists_exists. by exists n.
  - eapply resolve_weaken; [exact Hl|]. apply map_subseteq_spec. intros c v Hv. rewrite lookup_with_entries.
    case_decide as H; [|done]. apply Exists_exists in H as (n & Hn & ->).
    destruct (decide (v = Dir)) as [->|Hne]; [done|]. exfalso. apply Hc. apply Exists_exists. exists n.
    split; [done|]. split; [by eexists|]. rewrite Hv. congruence.
Qed.

(** ** The constructor *)

Lemma make_directories_spec fs at_ es fs' :
  well_formed fs → make_directories fs at_ es = Return fs' →
  well_formed fs' ∧ fs ⊆ fs' ∧ (∀ c, fs !! c = None → fs' !! c = None ∨ fs' !! c = Some Dir) ∧
  ∃ k, resolve fs' at_ es = Some k ∧ fs' !! k = Some Dir.
Proof.
  revert fs at_. induction es as [|e es IH]; intros fs at_ Hw; cbn [make_directories].
  - destruct (is_dir fs at_) eqn:Hd; [|done]. apply bool_decide_eq_true in Hd. intros [= <-].
    split; [done|]. split; [done|]. split; [auto|]. exists at_. cbn. by rewrite bool_decide_true by (by eexists).
  - destruct (is_dir fs at_) eqn:Hd; [|done]. apply bool_decide_eq_true in Hd.
    assert (Hstep : ∀ at', well_formed fs' ∧ fs ⊆ fs' ∧ (∀ c, fs !! c = None → fs' !! c = None ∨ fs' !! c = Some Dir) ∧
      (∃ k, resolve fs' at' es = Some k ∧ fs' !! k = Some Dir) →
      (resolve fs' at_ (e :: es) = resolve fs' at' es) →
      well_formed fs' ∧ fs ⊆ fs' ∧ (∀ c, fs !! c = None → fs' !! c = None ∨ fs' !! c = Some Dir) ∧
      ∃ k, resolve fs' at_ (e :: es) = Some k ∧ fs' !! k = Some Dir) by (by intros at' ? ->).
    assert (Hres : fs ⊆ fs' → resolve fs' at_ (e :: es) =
      if bool_decide (e = [] ∨ e = chars ".") then resolve fs' at_ es
      else if bool_decide (e = chars "..") then resolve fs' (tail at_) es else resolve fs' (e :: at_) es).
    { intros Hsub. cbn [resolve]. unfold is_dir at 1. rewrite (lookup_weaken _ _ _ _ Hd Hsub). by rewrite bool_decide_true. }
    destruct (bool_decide (e = [] ∨ _)) eqn:E1; [|destruct (bool_decide (e = chars "..")) eqn:E2].
    + intros H. pose proof (IH _ _ Hw H) as H'. apply (Hstep at_ H'). by rewrite Hres by apply H'.
    + intros H. pose proof (IH _ _ Hw H) as H'. apply (Hstep (tail at_) H'). by rewrite Hres by apply H'.
    + destruct (fs !! (e :: at_)) as [v|] eqn:E.
      * intros H. pose proof (IH _ _ Hw H) as H'. apply (Hstep (e :: at_) H'). by rewrite Hres by apply H'.
      * intros H. destruct (IH _ _ (well_formed_insert _ _ _ Hw Hd) H) as (Hw' & Hsub & Hnew & Hk).
        assert (Hsub' : fs ⊆ fs') by (etransitivity; [by apply insert_subseteq|exact Hsub]).
        apply (Hstep (e :: at_)); [|by rewrite Hres]. split; [done|]. split; [done|]. split; [|done].
        intros c Hc. destruct (decide (c = e :: at_)) as [->|Hne].
        -- right. eapply lookup_weaken; [|exact Hsub]. by rewrite lookup_insert_eq.
        -- apply Hnew. by rewrite lookup_insert_ne.
Qed.

Lemma make_directories_total fs at_ es :
  Forall proper es → fs !! at_ = Some Dir →
  (∀ l, l `prefix_of` es → fs !! (reverse l ++ at_) = None ∨ fs !! (reverse l ++ at_) = Some Dir) →
  ∃ fs', make_directories fs at_ es = Return fs'.
Proof.
  intros Hp. revert fs at_. induction Hp as [|e es (H1 & H2 & H3) _ IH]; intros fs at_ Hd Hl; cbn [make_directories].
  - unfold is_dir. rewrite Hd. eauto.
  - unfold is_dir. rewrite Hd, (bool_decide_true (Some Dir = Some Dir)) by done.
    rewrite bool_decide_false by tauto. rewrite bool_decide_false by done.
    assert (Hcons : ∀ l, reverse (e :: l) ++ at_ = reverse l ++ e :: at_) by (intros l; by rewrite reverse_cons, <- app_assoc).
    destruct (fs !! (e :: at_)) as [v|] eqn:E.
    + apply IH.
      * destruct (Hl [e]) as [H|H]; [by apply prefix_cons, prefix_nil| |]; cbn in H; by rewrite H in E.
      * intros l Hlp. rewrite <- Hcons. apply Hl. by apply prefix_cons.
    + apply IH; [by rewrite lookup_insert_eq|]. intros l Hlp.
      destruct (decide (reverse l ++ e :: at_ = e :: at_)) as [->|Hne]; [rewrite lookup_insert_eq; by right|].
      rewrite lookup_insert_ne by done. rewrite <- Hcons. apply Hl. by apply prefix_cons.
Qed.

Lemma resolve_propers fs at_ es k :
  Forall proper es → resolve fs at_ es = Some k → k = reverse es ++ at_ ∧ is_Some (fs !! k).
Proof.
  intros Hp. revert at_. induction Hp as [|e es (H1 & H2 & H3) _ IH]; intros at_; cbn [resolve].
  - case_bool_decide; [|done]. by intros [= ->].
  - destruct (is_dir fs at_); [|done]. rewrite bool_decide_false by tauto. rewrite bool_decide_false by done.
    intros Hr. apply IH in Hr as [-> ?]. by rewrite reverse_cons, <- app_assoc.
Qed.

Lemma new_Directory_absolute pr p fs :
  absolute_ p = true →
  new_Directory pr p fs =
    if has_filename p then
      match locate fs p with
      | Some k => if is_dir fs k then Return (mk_Directory p, fs) else Throw invalid_argument
      | None => fs' ← make_directories fs [] (elements p); Return (mk_Directory p, fs')
      end
    else Throw invalid_argument.
Proof.
  intros Ha. unfold new_Directory, empty_path. rewrite Ha. cbn [negb andb mbind outcome_bind].
  destruct (has_filename p); [|done]. cbn [negb]. unfold create, exists_, fs_exists, fs_is_directory. cbn [path_].
  destruct (locate fs p) as [k|]; cbn; [|done]. by destruct (is_dir fs k).
Qed.

Lemma absolute_append pr p : absolute_ p = false → absolute_ (current_path pr) = true →
  absolute_ (if empty_path p then current_path pr else append_path (current_path pr) p) = true.
Proof. intros Hp Hc. destruct (empty_path p); [done|]. unfold append_path. by rewrite Hp. Qed.

(** The path an object gets, which is absolute. *)
Definition full_path (pr : process) (p : path) : path :=
  if absolute_ p then p else if empty_path p then current_path pr else append_path (current_path pr) p.

Lemma new_Directory_full pr p fs :
  absolute_ (current_path pr) = true →
  absolute_ (full_path pr p) = true ∧ new_Directory pr p fs = new_Directory pr (full_path pr p) fs.
Proof.
  intros Hc. unfold full_path. destruct (absolute_ p) eqn:Hp; [done|].
  pose proof (absolute_append pr p Hp Hc) as Ha. split; [done|].
  unfold new_Directory. rewrite Hp.
  assert (E : ∀ q, absolute_ q = true → empty_path q = false) by (unfold empty_path; by intros q ->).
  rewrite (E _ Ha), Ha. cbn [mbind outcome_bind]. unfold absolute.
  destruct (empty_path p) eqn:He; [by rewrite (E _ Hc), Hc|]. by rewrite He, Hp.
Qed.

(** A directory object that is constructed has an absolute path that leads
    to a directory. The filesystem keeps all it had and gains nothing but
    directories, on the way to that path, and nothing at all when the path led
    to a directory already, as it does from then on. The constructor returns
    for any path of proper names of which no one leads to anything else than a
    directory; it throws an invalid argument if the path has no filename or
    leads to something else. *)
Theorem new_Directory_makes pr p fs :
  well_formed fs → absolute_ (current_path pr) = true →
  let full := full_path pr p in
  (∀ this fs', new_Directory pr p fs = Return (this, fs') →
     path_ this = full ∧ absolute_ full = true ∧ exists_ this fs' = true ∧ well_formed fs' ∧ fs ⊆ fs' ∧
     (∀ c, fs !! c = None → fs' !! c = None ∨ fs' !! c = Some Dir) ∧
     (fs_is_directory fs full = true → fs' = fs) ∧ new_Directory pr full fs' = Return (this, fs')) ∧
  (elements full ≠ [] → Forall proper (elements full) →
     (∀ l, l `prefix_of` elements full → fs !! reverse l = None ∨ fs !! reverse l = Some Dir) →
     ∃ fs', new_Directory pr p fs = Return (mk_Directory full, fs')) ∧
  (has_filename full = false ∨ fs_exists fs full = true ∧ fs_is_directory fs full = false →
     new_Directory pr p fs = Throw invalid_argument).
Proof.
  intros Hw Hc full. destruct (new_Directory_full pr p fs Hc) as [Ha ->]. fold full in Ha |- *.
  rewrite !new_Directory_absolute by done. split; [|split].
  - intros this fs'. destruct (has_filename full) eqn:Hf; [|done].
    destruct (locate fs full) as [k|] eqn:Hl.
    + destruct (is_dir fs k) eqn:Hd; [|done]. intros [= <- <-]. rewrite new_Directory_absolute, Hf, Hl, Hd by done.
      split; [done|]. split; [done|]. unfold exists_, fs_exists, fs_is_directory. cbn [path_]. rewrite Hl, Hd.
      split; [done|]. split; [done|]. split; [done|]. split; [auto|done].
    + intros (fs1 & Hm & E)%bind_Return. injection E as <- <-.
      destruct (make_directories_spec _ _ _ _ Hw Hm) as (Hw' & Hsub & Hnew & k & Hk & Hd).
      change (locate fs1 full = Some k) in Hk.
      rewrite new_Directory_absolute, Hf, Hk by done. unfold is_dir, exists_, fs_exists, fs_is_directory. cbn [path_].
      rewrite Hk, Hl. unfold is_dir. rewrite Hd. done.
  - intros Hn Hp Hl.
    assert (has_filename full = true) as ->.
    { unfold has_filename. destruct (exists_last Hn) as (l & n & E). rewrite E in *.
      apply Forall_app in Hp as [_ Hp]. inversion_clear Hp as [|? ? [Hp' _] _]. rewrite last_snoc. by rewrite bool_decide_false. }
    destruct (locate fs full) as [k|] eqn:El.
    + assert (is_dir fs k = true) as ->; [|by eexists].
      destruct (resolve_propers fs [] _ k Hp El) as [-> Hs]. rewrite app_nil_r in *. unfold is_dir.
      destruct (Hl (elements full) ltac:(done)) as [E|E]; rewrite E in *; [by destruct Hs|done].
    + destruct (make_directories_total fs [] (elements full) Hp (proj1 Hw)) as [fs' ->]; [|by eexists].
      intros l Hlp. rewrite app_nil_r. auto.
  - unfold fs_exists, fs_is_directory. intros [->|[He Hd]]; [done|]. destruct (has_filename full); [|done].
    destruct (locate fs full) as [k|]; [by rewrite Hd|done].
Qed.

(** ** Witnesses *)

(** A directory with two files, one of them in a subdirectory. *)
Definition sample_fs : filesystem :=
  list_to_map [([], Dir); ([chars "d"], Dir); ([chars "f"; chars "d"], Regular 5); ([chars "s"; chars "d"], Dir);
    ([chars "g"; chars "s"; chars "d"], Regular 7); ([chars "chaindata"; chars "d"], Special)].
Definition sample_path : path := path_of (chars "/d").
Definition sample_process : process := mk_process (path_of (chars "/d")) (λ _, None).

Definition well_formed_check fs : bool :=
  bool_decide (fs !! [] = Some Dir) &&
  forallb (λ e, match e.1 with [] => true | _ :: k => is_dir fs k end) (map_to_list fs).

Lemma well_formed_checked fs : well_formed_check fs = true → well_formed fs.
Proof.
  unfold well_formed_check. rewrite andb_true_iff, bool_decide_eq_true, forallb_forall.
  intros [H0 H]. split; [done|]. intros n k [v Hv].
  specialize (H (n :: k, v)). cbn in H. apply (bool_decide_eq_true_1 (fs !! k = Some Dir)), H.
  by apply list_elem_of_In, elem_of_map_to_list.
Qed.

Lemma size_sums_witness :
  size_ 6 true (mk_Directory sample_path) sample_fs = Return (Some 12%Z) ∧
  size_ 6 false (mk_Directory sample_path) sample_fs = Return (Some 5%Z).
Proof.
  assert (Hw : well_formed sample_fs) by (apply well_formed_checked; vm_compute; reflexivity).
  assert (Hf : (size sample_fs ≤ 6)%nat) by (vm_compute; lia).
  pose proof (size_sums sample_fs (mk_Directory sample_path) true 6 Hw Hf) as H1.
  pose proof (size_sums sample_fs (mk_Directory sample_path) false 6 Hw Hf) as H2.
  split; [rewrite H1|rewrite H2]; vm_compute; reflexivity.
Defined.

Lemma clear_removes_witness :
  ∃ fs', clear false (mk_Directory sample_path) sample_fs = Return fs' ∧
    fs' !! [chars "f"; chars "d"] = None ∧ fs' !! [chars "g"; chars "s"; chars "d"] = Some (Regular 7).
Proof.
  destruct (clear_removes sample_fs (mk_Directory sample_path) false [chars "d"]) as [_ (fs' & H1 & _ & _ & H2)];
    [by apply well_formed_checked; vm_compute|by vm_compute..|].
  exists fs'. split; [exact H1|]. rewrite !H2. split; vm_compute; reflexivity.
Defined.

Lemma temp_directory_removed_witness :
  ∃ this fs', new_TempDirectory sample_process (λ i j, i + j) (Some sample_path) sample_fs = Return (this, fs') ∧
    destroy_TempDirectory this fs' = sample_fs.
Proof.
  destruct (temp_directory_removed sample_process (λ i j, i + j) sample_path sample_fs) as [_ H];
    [by apply well_formed_checked; vm_compute|done|].
  specialize (H [chars "d"] ltac:(by vm_compute) ltac:(by vm_compute)).
  destruct (List.find _ _) as [i|] eqn:E; [|exfalso; vm_compute in E; done].
  destruct H as (this & H1 & _ & H2). exists this. eexists. split; [exact H1|]. apply H2.
  - by rewrite lookup_insert_eq.
  - intros c Hc. rewrite lookup_insert_ne; [done|]. intros <-. by apply Hc.
Defined.

Lemma deploy_creates_witness :
  deploy sample_process (mk_Directory sample_path) sample_fs = Throw invalid_argument ∧
  ∃ fs', deploy sample_process (mk_Directory sample_path) (delete [chars "chaindata"; chars "d"] sample_fs) = Return fs' ∧
    fs' !! [chars "nodes"; chars "d"] = Some Dir.
Proof.
  split.
  - pose proof (deploy_creates sample_process (mk_Directory sample_path) sample_fs [chars "d"]
      ltac:(done) ltac:(by vm_compute) ltac:(by vm_compute) ltac:(by apply well_formed_checked; vm_compute)) as H.
    rewrite decide_True in H; [exact H|]. apply (bool_decide_unpack _). by vm_compute.
  - pose proof (deploy_creates sample_process (mk_Directory sample_path) (delete [chars "chaindata"; chars "d"] sample_fs)
      [chars "d"] ltac:(done) ltac:(by vm_compute) ltac:(by vm_compute)
      ltac:(by apply well_formed_checked; vm_compute)) as H.
    rewrite decide_False in H by (apply (bool_decide_unpack _); by vm_compute).
    destruct H as (fs' & H1 & _ & _ & H2). exists fs'. split; [exact H1|]. rewrite H2, decide_True; [done|].
    apply (bool_decide_unpack _). by vm_compute.
Defined.

Lemma new_Directory_makes_witness :
  ∃ fs', new_Directory sample_process (path_of (chars "x/y")) sample_fs = Return (mk_Directory (path_of (chars "/d/x/y")), fs').
Proof.
  destruct (new_Directory_makes sample_process (path_of (chars "x/y")) sample_fs) as (_ & H & _);
    [by apply well_formed_checked; vm_compute|by vm_compute|].
  apply H; [done| |].
  - apply (bool_decide_unpack _). by vm_compute.
  - intros l [m E].
    change (elements _) with [chars "d"; chars "x"; chars "y"] in E. destruct l as [|a [|b [|c [|? ?]]]]; cbn in E; simplify_eq; vm_compute; auto.
Defined.
