(* ===== verification/Stages.v ===== *)
(** * The stages of the synchronisation

    Models the class [Stage] with its results and errors and [SyncContext], of
    [src/zen/node/stages/], [NodeSettings] of [common/settings.hpp] and the
    class [Stoppable] of [concurrency/]. What a stage does forward, back and in
    pruning is pure virtual, and no stage is in the repository. *)
From S2P Require Import Prelude Base Digits Txn Database.
From S2P Require Env Directories.
From stdpp Require Import gmap.
Local Open Scope Z_scope.

(** ** The class Stage *)

(** [Stage::Result], with the integer and the name of each. *)
Inductive Result :=
  | kSuccess | kDbError | kAborted | kBadBlockHash | kBadChainSequence | kUnknownConsensusEngine
  | kInvalidRange | kInvalidProgress | kInvalidBlock | kInvalidTransaction | kDecodingError
  | kUnknownError | kStoppedByEnv | kUnspecified.

#[export] Instance Result_eq_dec : EqDecision Result.
Proof. solve_decision. Defined.

Definition Result_integer (r : Result) : Z :=
  match r with
  | kSuccess => 0 | kDbError => 1 | kAborted => 2 | kBadBlockHash => 3 | kBadChainSequence => 4
  | kUnknownConsensusEngine => 5 | kInvalidRange => 6 | kInvalidProgress => 7 | kInvalidBlock => 8
  | kInvalidTransaction => 9 | kDecodingError => 10 | kUnknownError => 11 | kStoppedByEnv => 12
  | kUnspecified => 13
  end.

Definition Result_name (r : Result) : list byte :=
  chars match r with
  | kSuccess => "kSuccess" | kDbError => "kDbError" | kAborted => "kAborted"
  | kBadBlockHash => "kBadBlockHash" | kBadChainSequence => "kBadChainSequence"
  | kUnknownConsensusEngine => "kUnknownConsensusEngine" | kInvalidRange => "kInvalidRange"
  | kInvalidProgress => "kInvalidProgress" | kInvalidBlock => "kInvalidBlock"
  | kInvalidTransaction => "kInvalidTransaction" | kDecodingError => "kDecodingError"
  | kUnknownError => "kUnknownError" | kStoppedByEnv => "kStoppedByEnv"
  | kUnspecified => "kUnspecified"
  end%string.

Record StageError := mk_StageError { err_ : Z; message_ : list byte }.
Definition stage_error (err : Result) : StageError := mk_StageError (Result_integer err) (Result_name err).
Definition stage_error_what (err : Result) (message : list byte) : StageError :=
  mk_StageError (Result_integer err) message.

Definition success_or_throw (code : Result) : outcome StageError unit :=
  if negb (bool_decide (code = kSuccess)) then Throw (stage_error code) else Return tt.

Definition check_block_sequence (actual expected : Z) : outcome StageError unit :=
  if negb (actual =? expected) then
    let what := chars "bad block sequence : expected " ++ dec expected ++ chars " got " ++ dec actual in
    Throw (stage_error_what kBadChainSequence what)
  else Return tt.

(** ** settings.hpp *)

Record NodeSettings := mk_NodeSettings {
  build_info : list byte;
  data_directory : option Directories.Directory;
  chaindata_env_config : Env.EnvConfig;
  batch_size : Z;
  etl_buffer_size : Z;
  fake_pow : bool;
  sync_loop_throttle_seconds : Z;
  sync_loop_log_interval_seconds : Z
}.
Definition default_NodeSettings : NodeSettings :=
  mk_NodeSettings [] None (Env.default_EnvConfig []) (lit_MiB 512) (lit_MiB 256) false 0 30.

(** ** Stoppable *)

Record Stoppable := mk_Stoppable { stop_requested_ : bool }.

(** [compare_exchange_strong] from [false]: whether this call was the one. *)
Definition stop (this : Stoppable) (wait : bool) : bool * Stoppable :=
  if stop_requested_ this then (false, this) else (true, mk_Stoppable true).
Definition is_stopping (this : Stoppable) (signalled : bool) : bool :=
  stop_requested_ this || signalled.

(** ** The class Stage *)

Record SyncContext := mk_SyncContext {
  is_first_cycle : bool;
  unwind_point : option Z;
  previous_unwind_point : option Z
}.
Definition default_SyncContext : SyncContext := mk_SyncContext false None None.

Inductive OperationType := op_None | op_Forward | op_Unwind | op_Prune.

(** The context and the settings are pointers, to the stores of these. *)
Record Stage := mk_Stage {
  stoppable : Stoppable;
  sync_context_ : nat;
  stage_name_ : list byte;
  node_settings_ : nat;
  operation_ : OperationType;
  log_prefix_ : list byte
}.

Definition new_Stage (sync_context : nat) (stage_name : list byte) (node_settings : nat) : Stage :=
  mk_Stage (mk_Stoppable false) sync_context stage_name node_settings op_None [].
Definition set_log_prefix (this : Stage) (prefix : list byte) : Stage :=
  mk_Stage (stoppable this) (sync_context_ this) (stage_name_ this) (node_settings_ this)
    (operation_ this) prefix.
Definition get_log_progress (this : Stage) : list (list byte) := [].
Definition stage_name (this : Stage) : list byte := stage_name_ this.

Definition throw_if_stopping (this : Stage) (signalled : bool) : outcome StageError unit :=
  if is_stopping (stoppable this) signalled then Throw (stage_error kAborted) else Return tt.

Section stage.
Context `{MdbxTxn T, Intx}.
Definition get_progress (this : Stage) : db T Z := read_stage_progress (stage_name_ this).
Definition get_prune_progress (this : Stage) : db T Z := read_stage_prune_progress (stage_name_ this).
Definition update_progress (this : Stage) (n : Z) : db T unit :=
  write_stage_progress (stage_name_ this) n.
End stage.

(** ** Errors tell their cause *)

Lemma Result_integer_inj r r' : Result_integer r = Result_integer r' → r = r'.
Proof. by destruct r, r'. Qed.

(** Both numbers of a bad sequence can be read off the message. *)
Lemma dec_split a b a' b' :
  0 <= a → 0 <= b → 0 <= a' → 0 <= b' →
  dec a ++ chars " got " ++ dec b = dec a' ++ chars " got " ++ dec b' → a = a' ∧ b = b'.
Proof.
  intros Ha Hb Ha' Hb' E.
  assert (Htake : ∀ z r, 0 <= z → take_digits (length (dec a) + length (dec a')) (dec z ++ chars " got " ++ r) =
    (dec z, chars " got " ++ r) ∨ (length (dec a) + length (dec a') < length (dec z))%nat).
  { intros z r Hz. destruct (decide (length (dec z) ≤ length (dec a) + length (dec a'))%nat); [left|right; lia].
    apply take_digits_app; [by apply dec_spec|done|by intros ? ? [= <- _]]. }
  destruct (Htake a (dec b) Ha) as [E1|]; [|lia]. destruct (Htake a' (dec b') Ha') as [E2|]; [|lia].
  rewrite E, E2 in E1. apply (f_equal fst) in E1. cbn [fst] in E1.
  rewrite E1 in E. do 2 apply app_inv_head in E.
  apply (f_equal dec_value) in E, E1. pose proof (dec_spec a Ha). pose proof (dec_spec b Hb).
  pose proof (dec_spec a' Ha'). pose proof (dec_spec b' Hb'). destruct_and!. split; congruence.
Qed.

(** A stage goes on only as it should. [success_or_throw] returns for
    success alone and else throws an error with the code of the result, which
    determines it; [check_block_sequence] returns for the expected block alone
    and else throws one whose message has both numbers; [throw_if_stopping]
    throws, as aborted, exactly when a stop was requested of the stage or a
    signal was caught; and of the requests to stop only the first counts. *)
Theorem stage_guards (this : Stage) (signal wait : bool) (code : Result) (actual expected : Z) :
  (success_or_throw code = Return tt ↔ code = kSuccess) ∧
  (∀ e code', success_or_throw code = Throw e → err_ e = Result_integer code' → code' = code) ∧
  (in_range 32 actual → in_range 32 expected →
    (check_block_sequence actual expected = Return tt ↔ actual = expected) ∧
    ∀ a x, in_range 32 a → in_range 32 x → a ≠ x →
      check_block_sequence actual expected = check_block_sequence a x → a = actual ∧ x = expected) ∧
  (throw_if_stopping this signal = if stop_requested_ (stoppable this) || signal
     then Throw (stage_error kAborted) else Return tt) ∧
  (stop (stoppable this) wait).1 = negb (stop_requested_ (stoppable this)) ∧
  is_stopping (stop (stoppable this) wait).2 signal = true.
Proof.
  split; [by destruct code|]. split.
  { unfold success_or_throw. case_bool_decide; cbn; [done|]. intros e code' [= <-] He. symmetry.
    by apply Result_integer_inj. }
  split; [|split; [done|unfold stop; destruct (stop_requested_ (stoppable this)) eqn:Es; cbn; unfold is_stopping; by rewrite ?Es]].
  unfold in_range, check_block_sequence. intros Ha Hx. split.
  { destruct (Z.eqb_spec actual expected); cbn; [by split|]. split; [done|by intros]. }
  intros a x Ha' Hx' Hne. rewrite (proj2 (Z.eqb_neq a x) Hne). cbn [negb].
  destruct (actual =? expected); cbn [negb]; [done|]. intros E. injection E as E.
  apply (dec_split expected actual x a) in E; lia.
Qed.
