(* ===== verification/Shutdown.v ===== *)
(** * Shutting down on a signal

    Composes [Ossignals], [Worker] and [Stages] as [Stoppable::is_stopping] of
    [src/zen/node/concurrency/stoppable.cpp] does: the handler of signals sets
    a flag that the worker's thread and the stages look at. *)
From S2P Require Import Prelude Base Ossignals Worker Stages.
From stdpp Require Import gmap.
Local Open Scope nat_scope.

Section node.
Context {P : Type} (next : P → command P) (work : P) (thread_id : Z) {H : Type}.

(** The static members of [Ossignals], a worker and the stages; the worker has
    its own view of the flag, [signalled_]. *)
Record node := mk_node { os : Ossignals H; worker : Worker P; stages : list Stage }.
Implicit Types n : node.

(** A signal is delivered; the worker's threads take a step; a stage is told
    to stop. *)
Inductive event := Deliver (sig_code : Z) | Work (l : label) | Stop_stage (i : nat).

Definition deliver (sig_code : Z) n : outcome Empty_set node :=
  o ← Ossignals.handle sig_code (os n);
  Return (mk_node o (set_signalled (Ossignals.signalled o) (worker n)) (stages n)).

(** Nothing happens in a process that has ended. *)
Definition node_step (e : event) n : option (outcome Empty_set node) :=
  if terminated (worker n) then None else
  match e with
  | Deliver c => Some (deliver c n)
  | Work Signal => None
  | Work l => w ← Worker.step next work thread_id l (worker n); Some (Return (mk_node (os n) w (stages n)))
  | Stop_stage i =>
      s ← stages n !! i;
      let s := mk_Stage (Stages.stop (stoppable s) false).2 (sync_context_ s) (stage_name_ s)
                 (node_settings_ s) (operation_ s) (log_prefix_ s) in
      Some (Return (mk_node (os n) (worker n) (<[i := s]> (stages n))))
  end.

Fixpoint node_run (es : list event) n : option (outcome Empty_set node) :=
  match es with
  | [] => Some (Return n)
  | e :: es => match node_step e n with Some (Return n) => node_run es n | r => r end
  end.

(** What a stage and the worker see of the flag. *)
Definition stage_stops n (s : Stage) : outcome StageError unit :=
  throw_if_stopping s (Ossignals.signalled (os n)).

(** The events as the worker sees them, and the signals among them. *)
Definition labels (es : list event) : list label :=
  omap (λ e, match e with Deliver _ => Some Signal | Work l => Some l | Stop_stage _ => None end) es.
Definition delivered (es : list event) : list Z :=
  omap (λ e, match e with Deliver c => Some c | _ => None end) es.

(** ** The components in an execution of the node *)

Lemma handle_flag c (o o' : Ossignals H) : Ossignals.handle c o = Return o' → Ossignals.signalled_ o' = true.
Proof.
  unfold Ossignals.handle. set (t := if Ossignals.signalled_ o then _ else _).
  assert (Ht : Ossignals.signalled_ t = true) by (unfold t; by destruct (Ossignals.signalled_ o) eqn:?).
  destruct (10 <=? _)%Z; [done|]. by intros [= <-].
Qed.

Lemma node_step_work l n n' :
  node_step (Work l) n = Some (Return n') →
  ∃ w, Worker.step next work thread_id l (worker n) = Some w ∧ l ≠ Signal ∧ n' = mk_node (os n) w (stages n).
Proof.
  unfold node_step. destruct (terminated (worker n)); [done|].
  destruct l; [..|done]; cbn [mbind option_bind];
    (destruct (Worker.step _ _ _ _ _) as [w|]; [|done]); intros [= <-]; by exists w.
Qed.

Lemma node_step_parts e n n' :
  node_step e n = Some (Return n') →
  run next work thread_id (labels [e]) (worker n) = Some (worker n') ∧
  handle_all (delivered [e]) (os n) = Return (os n').
Proof.
  destruct e as [c|l|i]; [|intros (w & Hw & _ & ->)%node_step_work; cbn; by rewrite Hw|];
    unfold node_step; destruct (terminated (worker n)) eqn:Ht; try done.
  - intros [= Hd]. unfold deliver in Hd. apply bind_Return in Hd as (o & Ho & [= <-]). cbn [os worker].
    split; [|cbn; by rewrite Ho]. cbn. unfold Worker.step. rewrite Ht. unfold Ossignals.signalled.
    by rewrite (handle_flag _ _ _ Ho).
  - cbn. destruct (stages n !! i) as [s|]; [|done]. by intros [= <-].
Qed.

Lemma node_run_cons e es n r :
  node_run (e :: es) n = Some (Return r) ↔ ∃ m, node_step e n = Some (Return m) ∧ node_run es m = Some (Return r).
Proof.
  cbn. destruct (node_step e n) as [[m|[]| |]|]; split; try done; try (by intros (? & ? & ?)).
  - intros Hr. by exists m.
  - by intros (m' & [= ->] & ?).
Qed.

Lemma node_run_parts es n n' :
  node_run es n = Some (Return n') →
  run next work thread_id (labels es) (worker n) = Some (worker n') ∧
  handle_all (delivered es) (os n) = Return (os n').
Proof.
  revert n. induction es as [|e es IH]; intros n; [by intros [= <-]|].
  intros (m & Hm & Hr)%node_run_cons. apply node_step_parts in Hm as [Hw Ho]. apply IH in Hr as [Hw' Ho'].
  unfold labels, delivered in *. change (e :: es) with ([e] ++ es). rewrite !omap_app. split.
  - rewrite run_app, Hw. done.
  - destruct e as [c|l|i]; cbn in *; [|injection Ho as ->; exact Ho'..].
    destruct (Ossignals.handle c (os n)) as [o| | |]; cbn in *; [|done..]. by injection Ho as ->.
Qed.

Lemma node_run_take k es n n' :
  node_run es n = Some (Return n') → ∃ m, node_run (take k es) n = Some (Return m).
Proof.
  revert k n. induction es as [|e es IH]; intros [|k] n Hr; [by exists n..|].
  apply node_run_cons in Hr as (m & Hm & Hr). destruct (IH k m Hr) as [m' Hm'].
  exists m'. cbn [take]. apply node_run_cons. by exists m.
Qed.

Lemma labels_take j es : j ≤ length (labels es) → ∃ k, labels (take k es) = take j (labels es).
Proof.
  revert j. induction es as [|e es IH]; intros j Hj; [exists 0; cbn in *; by destruct j|].
  destruct j as [|j]; [exists 0; done|].
  destruct e as [c|l|i].
  1,2: destruct (IH j (le_S_n _ _ Hj)) as [k Hk]; exists (S k); exact (f_equal (cons _) Hk).
  destruct (IH (S j) Hj) as [k Hk]. by exists (S k).
Qed.

Lemma take_min_length {A} j (l : list A) : take (min j (length l)) l = take j l.
Proof. by rewrite <-take_take, firstn_all. Qed.

(** The worker sees the flag as it is. *)
Lemma node_step_signalled e n n' :
  node_step e n = Some (Return n') → Worker.signalled_ (worker n) = Ossignals.signalled (os n) →
  Worker.signalled_ (worker n') = Ossignals.signalled (os n').
Proof.
  destruct e as [c|l|i].
  - unfold node_step. destruct (terminated (worker n)); [done|]. intros [= Hd] _. unfold deliver in Hd.
    by apply bind_Return in Hd as (o & _ & [= <-]).
  - intros (w & Hw & Hne & ->)%node_step_work Hv. cbn [os worker].
    by rewrite (step_keeps_signalled _ _ _ _ _ _ Hw Hne).
  - unfold node_step. destruct (terminated (worker n)); [done|]. cbn. destruct (stages n !! i); [|done].
    by intros [= <-].
Qed.

Lemma signal_seen es n n' :
  node_run es n = Some (Return n') → Worker.signalled_ (worker n) = Ossignals.signalled (os n) →
  Worker.signalled_ (worker n') = Ossignals.signalled (os n').
Proof.
  revert n. induction es as [|e es IH]; intros n; [by intros [= <-]|].
  intros (m & Hm & Hr)%node_run_cons Hv. eapply IH; [exact Hr|]. by eapply node_step_signalled.
Qed.

(** ** A signal shuts the node down *)

(** A node before any signal: a new worker, handlers that are installed or
    reset, and any stages. *)
Definition started (o : Ossignals H) (ss : list Stage) : node := mk_node o new_Worker ss.

(** How many of the events are steps of the worker's thread. *)
Definition worker_steps (es : list event) : nat := thread_steps (labels es).

(** C35: From the first signal on, whatever happened before and happens then, a
    process that is not panicked by ten of them is shutting down: each stage
    throws as aborted, and [throw_if_signalled] names the first signal. The
    worker's thread, on the condition that its [work] gives up when
    [wait_for_kick] returned false and computes for a bounded time between two
    waits ([gives_up]; other work need never end), can go on until it (or the
    process, by an exception nobody catches) has ended, and that is within so
    many of its own steps. Before the first signal, only the
    stages that were told to stop throw. *)
Theorem signal_shuts_down (bound : P → nat) (o : Ossignals H) (ss : list Stage) (es : list event) (n : node) :
  gives_up next bound → Ossignals.sig_count_ o = 0%Z → Ossignals.signalled_ o = false →
  node_run es (started o ss) = Some (Return n) →
  match delivered es with
  | [] => throw_if_signalled (os n) = Return tt ∧
      ∀ s, stage_stops n s = if stop_requested_ (stoppable s) then Throw (stage_error kAborted) else Return tt
  | c :: _ =>
      throw_if_signalled (os n) = Throw (mk_os_signal_exception c (chars "Caught OS signal " ++ sig_name c)) ∧
      (∀ s, stage_stops n s = Throw (stage_error kAborted)) ∧
      (over (worker n) = false → is_Some (node_step (Work Thread) n)) ∧
      (∀ es' n', node_run es' n = Some (Return n') → steps_left work bound (wpc (worker n)) < worker_steps es' →
         ∃ k m, node_run (take k es') n = Some (Return m) ∧ over (worker m) = true)
  end.
Proof.
  intros Hb Hc Hs Hrun. pose proof (node_run_parts _ _ _ Hrun) as [Hw Ho]. cbn [started os worker] in Hw, Ho.
  pose proof (handle_all_throws _ _ _ Hc Hs Ho) as Hthrow.
  unfold stage_stops, throw_if_stopping, Stages.is_stopping.
  assert (Hflag : Ossignals.signalled (os n) = match delivered es with [] => false | _ => true end).
  { unfold throw_if_signalled in Hthrow. destruct (delivered es); cbn in Hthrow;
      by destruct (Ossignals.signalled (os n)). }
  rewrite Hflag. destruct (delivered es) as [|c l] eqn:Ed.
  { split; [done|]. intros s. by rewrite orb_false_r. }
  split; [done|]. split; [intros s; by rewrite orb_true_r|].
  assert (Hr : reachable next work thread_id (worker n)) by by exists (labels es).
  assert (Hst : Worker.is_stopping (worker n) = true).
  { unfold Worker.is_stopping. rewrite (signal_seen _ _ _ Hrun), Hflag by done. apply orb_true_r. }
  split.
  - intros Hov. destruct (thread_goes_on next work thread_id _ Hov) as [w Hw'].
    unfold node_step. apply over_false in Hov as [_ ->]. rewrite Hw'. by eexists.
  - intros es' n' Hr' Hlt. pose proof (node_run_parts _ _ _ Hr') as [Hwr _].
    destruct (stopping_steps next work thread_id bound Hb (labels es') _ (reachable_ok _ _ _ _ Hr) Hst)
      as [(j & w & Hj & Hov)|Hle]; [by eexists| |unfold worker_steps in Hlt; lia].
    destruct (labels_take (min j (length (labels es'))) es' ltac:(lia)) as [k Hk].
    destruct (node_run_take k _ _ _ Hr') as [m Hm]. exists k, m. split; [done|].
    apply node_run_parts in Hm as [Hm _]. rewrite Hk, take_min_length, Hj in Hm. by injection Hm as <-.
Qed.
End node.

(** ** An instance *)

(** The worker that counts its kicks waits for one when an interrupt comes. *)
Definition interrupted : list event := (Work <$> until_waiting) ++ [Deliver SIGINT].
Definition a_stage : Stage := new_Stage 0 (chars "Headers") 0.

Lemma signal_shuts_down_witness :
  ∃ n, node_run counter_next c_wait 7 interrupted (started an_Ossignals [a_stage]) = Some (Return n) ∧
    throw_if_signalled (os n) = Throw (mk_os_signal_exception SIGINT (chars "Caught OS signal SIGINT")) ∧
    stage_stops n a_stage = Throw (stage_error kAborted) ∧
    is_Some (node_step counter_next c_wait 7 (Work Thread) n).
Proof.
  destruct (node_run counter_next c_wait 7 interrupted (started an_Ossignals [a_stage])) as [[n|[]| |]|] eqn:E;
    [|vm_compute in E; discriminate..].
  exists n. split; [reflexivity|].
  pose proof (signal_shuts_down counter_next c_wait 7 counter_bound an_Ossignals [a_stage] interrupted n
    counter_gives_up eq_refl eq_refl E) as Hs.
  change (delivered interrupted) with [SIGINT] in Hs. destruct Hs as (Hthrow & Hstages & Hgo & _).
  split; [exact Hthrow|]. split; [exact (Hstages a_stage)|]. apply Hgo.
  assert (Hw : option_map (λ r, match r with Return n => over (worker n) | _ => true end)
    (node_run counter_next c_wait 7 interrupted (started an_Ossignals [a_stage])) = Some false)
    by (vm_compute; reflexivity).
  rewrite E in Hw. by injection Hw.
Defined.
