(* ===== verification/Startup.v ===== *)
(** * Opening the database of a data directory

    Composes [Directories] and [Env]: the filesystem of the first is the one
    [open_env] works on, through texts of paths. Shows what opening the
    database in the [chaindata] directory of a deployed data directory finds. *)
From stdpp Require Import gmap.
From S2P Require Import Prelude Directories.
From S2P Require Env.
Local Open Scope nat_scope.

(** ** The filesystem behind the interface *)

Section file_system.
Context (pr : process).

(** The place a text leads to, from the working directory if it is relative. *)
Definition text_place (fs : filesystem) (s : list byte) : option place :=
  match absolute pr (path_of s) with Return p => locate fs p | _ => None end.

Definition directories_file_system : Env.FileSystem filesystem := {|
  Env.fs_exists fs s := bool_decide (is_Some (text_place fs s));
  Env.is_directory fs s := match text_place fs s with Some k => is_dir fs k | None => false end;
  Env.file_size fs s := match text_place fs s with Some k => file_size fs k | None => 0%Z end;
  Env.create_directories fs s :=
    match absolute pr (path_of s) with
    | Return p =>
        match make_directories fs [] (elements p) with
        | Return fs => Return fs
        | _ => Throw Env.filesystem_error
        end
    | _ => Throw Env.filesystem_error
    end
|}.
End file_system.

(** ** Texts of paths *)

Definition slash : byte := Byte.x2f.

Lemma split_path_cons name b s :
  split_path name (b :: s) = if decide (b = slash) then name :: split_path [] s else split_path (name ++ [b]) s.
Proof. destruct (decide (b = slash)) as [->|Hb]; [done|]. cbn. by destruct b. Qed.

Lemma split_path_app name s t : split_path name (s ++ slash :: t) = split_path name s ++ split_path [] t.
Proof.
  revert name. induction s as [|b s IH]; intros name; [done|]. cbn [app].
  rewrite !split_path_cons. destruct (decide _); [by rewrite IH|apply IH].
Qed.

Lemma split_path_name name n : slash ∉ n → split_path name n = [name ++ n].
Proof.
  revert name. induction n as [|b n IH]; intros name Hn; [by rewrite app_nil_r|].
  apply not_elem_of_cons in Hn as [Hb Hn]. rewrite split_path_cons, decide_False, IH, <-app_assoc by done. done.
Qed.

Lemma split_path_snoc name s b : b ≠ slash → ∃ l x, split_path name (s ++ [b]) = l ++ [x ++ [b]].
Proof.
  intros Hb. revert name. induction s as [|c s IH]; intros name; cbn [app].
  - rewrite split_path_cons, decide_False by done. by exists [], name.
  - rewrite split_path_cons. destruct (decide _); [|apply IH].
    destruct (IH []) as (l & x & ->). by exists (name :: l), x.
Qed.

(** The names of a text that does not end with a separator. *)
Definition names_of (s : list byte) : list name := filter (λ n, n ≠ []) (split_path [] s).

Section text.
Context (s : list byte) (b : byte).
Hypothesis Hb : b ≠ slash.

Lemma names_nonempty : names_of (s ++ [b]) ≠ [] ∧ elements (path_of (s ++ [b])) = names_of (s ++ [b]).
Proof.
  destruct (split_path_snoc [] s b Hb) as (l & x & E).
  unfold names_of, path_of. cbn [elements]. rewrite E, last_snoc, filter_app.
  rewrite (filter_cons_True _ (x ++ [b])) by (by destruct x).
  split; [by destruct (filter _ l)|]. rewrite bool_decide_false; [by rewrite app_nil_r|].
  intros [_ [= Hx]]. by destruct x.
Qed.

(** With a separator behind it, and with a name behind that. *)
Lemma path_of_slash : elements (path_of ((s ++ [b]) ++ [slash])) = elements (path_of (s ++ [b])) ++ [[]].
Proof.
  rewrite (proj2 names_nonempty). unfold path_of. cbn [elements]. rewrite split_path_app. cbn [split_path].
  rewrite filter_app. cbn [filter list_filter]. rewrite decide_False, app_nil_r by auto.
  fold (names_of (s ++ [b])). rewrite bool_decide_true; [done|]. split; [apply names_nonempty|].
  by rewrite last_snoc.
Qed.

Lemma path_of_entry n :
  n ≠ [] → slash ∉ n →
  elements (path_of (((s ++ [b]) ++ [slash]) ++ n)) = elements (path_of (s ++ [b])) ++ [n].
Proof.
  intros Hn Hs. rewrite (proj2 names_nonempty). rewrite <-(app_assoc (s ++ [b])). cbn [app].
  unfold path_of. cbn [elements]. rewrite split_path_app, (split_path_name [] n) by done. cbn [app].
  rewrite filter_app, (filter_cons_True _ n) by done. cbn [filter list_filter].
  fold (names_of (s ++ [b])). rewrite bool_decide_false; [by rewrite app_nil_r|].
  rewrite last_snoc. by intros [_ [= ?]].
Qed.

Lemma path_of_absolute t : absolute_ (path_of ((s ++ [b]) ++ t)) = absolute_ (path_of (s ++ [b])).
Proof. by destruct s. Qed.
End text.

(** A text whose last element is a name does not end with a separator. *)
Lemma text_ends s es n :
  elements (path_of s) = es ++ [n] → n ≠ [] → ∃ s' b, s = s' ++ [b] ∧ b ≠ slash.
Proof.
  destruct s as [|b s _] using rev_ind.
  - intros E. vm_compute in E. by destruct es.
  - intros E Hn. exists s, b. split; [done|]. intros ->. revert E. unfold path_of. cbn [elements].
    rewrite split_path_app. cbn [split_path]. rewrite last_snoc.
    case_bool_decide as Hc; intros E.
    + by apply app_inj_tail in E as [_ <-].
    + rewrite app_nil_r in E. destruct Hc. split; [|done]. rewrite E. by destruct es.
Qed.

(** ** What opening the database of a deployed directory finds *)

Definition chaindata : name := chars "chaindata".
Definition datafile : name := Env.kDbDataFileName.

Lemma deployed_entry pr dd fs fs1 k :
  absolute_ (path_ dd) = true → locate fs (path_ dd) = Some k → fs !! k = Some Dir → well_formed fs →
  deploy pr dd fs = Return fs1 →
  well_formed fs1 ∧ fs ⊆ fs1 ∧ fs1 !! (chaindata :: k) = Some Dir ∧
  ∀ n m, fs1 !! (n :: m :: k) = fs !! (n :: m :: k).
Proof.
  intros Ha Hl Hd Hw Hdep. pose proof (deploy_creates pr dd fs k Ha Hl Hd Hw) as Hc.
  destruct (decide _) as [|Hno]; [by rewrite Hc in Hdep|].
  destruct Hc as (fs' & E & Hw' & _ & Hlook). rewrite Hdep in E. injection E as <-.
  split; [done|]. split; [|split].
  - apply map_subseteq_spec. intros c v Hv. rewrite Hlook. destruct (decide _) as [Hex|]; [|done].
    apply Exists_exists in Hex as (n & Hn & ->). destruct (decide (v = Dir)) as [->|Hne]; [done|].
    destruct Hno. apply Exists_exists. exists n. split; [done|]. rewrite Hv. split; [by eexists|congruence].
  - rewrite Hlook, decide_True; [done|]. by left.
  - intros n m. rewrite Hlook, decide_False; [done|]. intros (x & _ & E)%Exists_exists.
    injection E as _ E. apply (f_equal length) in E. cbn in E. lia.
Qed.

Section chaindata.
Context (pr : process) (dd : Directory) (fs fs1 : filesystem) (k : place) (s : list byte).
Hypothesis Ha : absolute_ (path_ dd) = true.
Hypothesis Hl : locate fs (path_ dd) = Some k.
Hypothesis Hd : fs !! k = Some Dir.
Hypothesis Hw : well_formed fs.
Hypothesis Hdep : deploy pr dd fs = Return fs1.
Hypothesis Hs : path_of s = entry_path (path_ dd) chaindata.

Lemma chaindata_text : ∃ t b, s = t ++ [b] ∧ b ≠ slash ∧ absolute_ (path_of s) = true ∧
  elements (path_of s) = stem_elements (path_ dd) ++ [chaindata].
Proof.
  destruct (entry_elements (path_ dd) chaindata Ha) as [He Habs]. rewrite Hs.
  rewrite <-Hs in He. destruct (text_ends _ _ _ He ltac:(done)) as (t & b & -> & Hb).
  exists t, b. split; [done|]. split; [done|]. split; [done|]. by rewrite <-Hs.
Qed.

Lemma chaindata_place : resolve fs1 [] (stem_elements (path_ dd) ++ [chaindata]) = Some (chaindata :: k).
Proof.
  destruct (deployed_entry pr dd fs fs1 k Ha Hl Hd Hw Hdep) as (_ & Hsub & Hc & _).
  rewrite (resolve_app fs [] _ fs1 [chaindata] k (resolve_stem fs _ k Hl Hd) Hsub Hd).
  rewrite resolve_proper; [|by split_and!|by eapply lookup_weaken]. by rewrite bool_decide_true by by eexists.
Qed.

(** The text with a separator is the directory, and with the name of the data
    file behind that, the file, if it is there. *)
Lemma chaindata_places :
  text_place pr fs1 (s ++ [slash]) = Some (chaindata :: k) ∧
  text_place pr fs1 ((s ++ [slash]) ++ datafile) =
    (if bool_decide (is_Some (fs1 !! (datafile :: chaindata :: k))) then Some (datafile :: chaindata :: k) else None).
Proof.
  destruct chaindata_text as (t & b & E & Hb & Habs & He). rewrite E in *.
  destruct (deployed_entry pr dd fs fs1 k Ha Hl Hd Hw Hdep) as (_ & _ & Hc & _).
  assert (Hplace : ∀ u es, absolute_ (path_of u) = true → elements (path_of u) = (stem_elements (path_ dd) ++ [chaindata]) ++ es →
    text_place pr fs1 u = resolve fs1 (chaindata :: k) es).
  { intros u es Hu Hes. unfold text_place, absolute, empty_path. rewrite Hu. cbn [negb andb]. unfold locate. rewrite Hes.
    by apply (resolve_app fs1 [] _ fs1 es (chaindata :: k) chaindata_place). }
  split.
  - rewrite (Hplace _ [[]]); [|by rewrite path_of_absolute|by rewrite path_of_slash, He].
    cbn [resolve]. unfold is_dir. rewrite Hc, bool_decide_true by done. rewrite bool_decide_true by auto.
    by rewrite bool_decide_true by by eexists.
  - rewrite (Hplace _ [datafile]).
    + apply resolve_proper; [by split_and!|done].
    + by rewrite <-(app_assoc (t ++ [b])), path_of_absolute.
    + rewrite path_of_entry, He; [done..|]. apply (bool_decide_unpack _). by vm_compute.
Qed.
End chaindata.

Section startup.
Context `{Env.MdbxFlags, Env.MdbxEnv filesystem E}.

(** What the library makes when it opens the environment of a directory, the
    data file and the file of its locks, is in that directory. *)
Definition opens_inside (pr : process) : Prop :=
  ∀ fs dir cp op sh e fs' k, Env.env_managed fs dir cp op sh = Return (e, fs') →
    text_place pr fs dir = Some k → ∀ c, ¬ strictly_below k c → fs' !! c = fs !! c.

(** C25: The database of a deployed data directory is opened in place. The
    configuration's path being any text of the [chaindata] directory, that
    directory is found and [open_env] makes no other; what counts as the size
    of the database is the size of the data file in it, zero in a directory
    that deploying has made; opening throws when [create] says otherwise than
    this size does; and when it returns, the file found fits the map and,
    outside of the [chaindata] directory, in which the library makes its files,
    the filesystem is as deploying left it. *)
Theorem startup_opens_in_place (pr : process) (dd : Directory) (fs fs1 : filesystem) (k : place)
    (config : Env.EnvConfig) :
  absolute_ (path_ dd) = true → locate fs (path_ dd) = Some k → fs !! k = Some Dir → well_formed fs →
  deploy pr dd fs = Return fs1 → opens_inside pr →
  path_of (Env.path config) = entry_path (path_ dd) chaindata →
  (∀ v, fs1 !! (datafile :: chaindata :: k) = Some v → ∃ n, v = Regular n) →
  let open := Env.open_env (H := directories_file_system pr) config fs1 in
  let size := file_size fs1 (datafile :: chaindata :: k) in
  Env.env_directory (H := directories_file_system pr) config fs1 = Return (Env.path config ++ [slash], fs1) ∧
  Env.datafile_size (H := directories_file_system pr) fs1 (Env.path config ++ [slash]) = size ∧
  (fs !! (chaindata :: k) = None → size = 0%Z) ∧
  (Env.create config ≠ bool_decide (size = 0%Z) → open = Throw Env.runtime_error) ∧
  (∀ e fs2, open = Return (e, fs2) →
     (∀ c, ¬ strictly_below (chaindata :: k) c → fs2 !! c = fs1 !! c) ∧ Env.create config = bool_decide (size = 0%Z) ∧
     (size <= Env.max_size config)%Z).
Proof.
  intros Ha Hl Hd Hw Hdep Hins Hs Hreg open size.
  destruct (chaindata_text dd (Env.path config) Ha Hs) as (t & b & E1 & Hb & _).
  destruct (chaindata_places pr dd fs fs1 k (Env.path config) Ha Hl Hd Hw Hdep Hs) as [Hdir Hfile].
  destruct (deployed_entry pr dd fs fs1 k Ha Hl Hd Hw Hdep) as (_ & _ & Hc & Hin).
  assert (Hedir : Env.env_directory (H := directories_file_system pr) config fs1 = Return (Env.path config ++ [slash], fs1)).
  { unfold Env.env_directory. rewrite bool_decide_false by (rewrite E1; by destruct t).
    assert (Env.has_filename (Env.path config) = true) as ->.
    { unfold Env.has_filename. rewrite E1, last_snoc. by rewrite bool_decide_false. }
    change [Env.separator] with [slash]. cbn [Env.fs_exists Env.is_directory directories_file_system].
    rewrite Hdir, bool_decide_true by by eexists. cbn [negb]. unfold is_dir. by rewrite Hc, bool_decide_true. }
  assert (Hsize : Env.datafile_size (H := directories_file_system pr) fs1 (Env.path config ++ [slash]) = size).
  { unfold Env.datafile_size, Env.get_datafile_path.
    assert (Env.has_filename (Env.path config ++ [slash]) = false) as ->
      by (unfold Env.has_filename; by rewrite last_snoc).
    cbn [Env.fs_exists Env.file_size directories_file_system]. fold datafile. rewrite Hfile. unfold size, file_size.
    case_bool_decide as Hex; [by rewrite bool_decide_true by by eexists|].
    rewrite bool_decide_false by by intros [? ?]. apply eq_None_not_Some in Hex. by rewrite Hex. }
  assert (Hbool : bool_decide (size = 0%Z) = (size =? 0)%Z) 
    by (destruct (Z.eqb_spec size 0); [by apply bool_decide_eq_true_2|by apply bool_decide_eq_false_2]).
  split; [done|]. split; [done|]. split; [|split].
  - intros Hnone. unfold size, file_size. rewrite Hin.
    destruct (fs !! (datafile :: chaindata :: k)) eqn:Ef; [|done].
    destruct Hw as [_ Hw]. rewrite (Hw datafile (chaindata :: k)) in Hnone by by eexists. done.
  - unfold open, Env.open_env. rewrite Hedir. cbn [mbind outcome_bind]. rewrite Hsize, Hbool. intros Hne.
    by destruct (Env.create config), (size =? 0)%Z.
  - intros e fs2. unfold open, Env.open_env. rewrite Hedir. cbn [mbind outcome_bind]. rewrite Hsize.
    intros (Hlocate & Hr)%throw_if_Return. apply throw_if_Return in Hr as [Hexists Hr].
    apply throw_if_Return in Hr as [Hfit Hr]. do 3 apply throw_if_Return in Hr as [_ Hr].
    apply bind_Return in Hr as ([e0 fs3] & Ho & Hr). apply throw_if_Return in Hr as [_ Hr].
    apply bind_Return in Hr as (e1 & _ & Hr). apply bind_Return in Hr as (e2 & _ & Hr). injection Hr as _ <-.
    split; [by apply (Hins _ _ _ _ _ _ _ _ Ho)|]. split; [|lia]. rewrite Hbool. by destruct (Env.create config), (size =? 0)%Z.
Qed.
End startup.

(** ** An instance *)

(** A data directory [/d] in which there is nothing yet. *)
Definition a_data_directory : Directory := mk_Directory (path_of (chars "/d")).
Definition before : filesystem := {[ [] := Dir; [chars "d"] := Dir ]}.
Definition a_config (create : bool) : Env.EnvConfig :=
  Env.mk_EnvConfig (chars "/d/chaindata") create false false false false false false 4096 (Base.lit_TiB 3)
    (Base.lit_GiB 2) 128 100.

(** The library makes the file of its locks, and the data file if there is
    none. *)
Definition lockfile : name := chars "mdbx.lck".
Definition make_files (fs : filesystem) (dir : list byte) : filesystem :=
  match text_place sample_process fs dir with
  | Some k =>
      <[lockfile :: k := Regular 8192]>
        (if bool_decide (is_Some (fs !! (datafile :: k))) then fs else <[datafile :: k := Regular 65536]> fs)
  | None => fs
  end.

Lemma make_files_inside : opens_inside (H0 := Env.ref_mdbx_env make_files) sample_process.
Proof.
  intros fs dir cp op sh e fs' k [= _ <-] Hk c Hc. unfold make_files. rewrite Hk.
  assert (Hn : ∀ n, n :: k ≠ c).
  { intros n <-. apply Hc. split; [by exists [n]|]. intros E. apply (f_equal length) in E. cbn in E. lia. }
  rewrite lookup_insert_ne by done. case_bool_decide; [done|]. by rewrite lookup_insert_ne.
Qed.

Lemma startup_opens_in_place_witness :
  let open c fs := Env.open_env (H := directories_file_system sample_process) (H0 := Env.ref_flags)
    (H1 := Env.ref_mdbx_env make_files) (a_config c) fs in
  ∃ fs1, deploy sample_process a_data_directory before = Return fs1 ∧
    open false fs1 = Throw Env.runtime_error ∧
    ∃ e fs2, open true fs1 = Return (e, fs2) ∧ fs2 !! [chars "d"] = fs1 !! [chars "d"].
Proof.
  intros open.
  assert (Hok : match deploy sample_process a_data_directory before with
    | Return fs1 => match open true fs1 with Return _ => true | _ => false end
    | _ => false end = true) by (vm_compute; reflexivity).
  destruct (deploy sample_process a_data_directory before) as [fs1| | |] eqn:E; [|discriminate Hok..].
  exists fs1. split; [reflexivity|].
  assert (Hl : locate before (path_ a_data_directory) = Some [chars "d"]) by (vm_compute; reflexivity).
  assert (Hd : before !! [chars "d"] = Some Dir) by (vm_compute; reflexivity).
  assert (Hw : well_formed before) by (apply well_formed_checked; vm_compute; reflexivity).
  assert (Hdata : fs1 !! [datafile; chaindata; chars "d"] = None).
  { destruct (deployed_entry sample_process a_data_directory before fs1 [chars "d"] eq_refl Hl Hd Hw E) as (_ & _ & _ & Hin). rewrite Hin. vm_compute. reflexivity. }
  assert (Hv : ∀ v, fs1 !! [datafile; chaindata; chars "d"] = Some v → ∃ n, v = Regular n)
    by (rewrite Hdata; discriminate).
  pose proof (λ c Hs, startup_opens_in_place (H := Env.ref_flags) (H0 := Env.ref_mdbx_env make_files)
    sample_process a_data_directory before fs1 [chars "d"] (a_config c) eq_refl Hl Hd Hw E
    make_files_inside Hs Hv) as Hopen.
  split.
  - destruct (Hopen false) as (_ & _ & Hsize & Hthrow & _); [vm_compute; reflexivity|].
    apply Hthrow. rewrite Hsize by (vm_compute; reflexivity). discriminate.
  - destruct (Hopen true) as (_ & _ & _ & _ & Hret); [vm_compute; reflexivity|].
    destruct (open true fs1) as [[e fs2]| | |] eqn:Eo; [|discriminate Hok..].
    exists e, fs2. split; [reflexivity|]. destruct (Hret e fs2 Eo) as [Hsame _]. apply Hsame.
    intros [Hsuf _]. apply suffix_length in Hsuf. cbn in Hsuf. lia.
Defined.
