(* ===== verification/Bench.v ===== *)
(** * The benchmarks

    Models the benchmarks of [src/zen/core/crypto/hasher_benchmark.cpp] and
    [src/zen/core/encoding/hex_benchmark.cpp]. How many iterations a run has is
    the choice of the benchmark library; of its state the model has the two
    numbers it is told. The random characters of each iteration are a parameter,
    as in [Misc]. *)
From S2P Require Import Prelude Base Hex Misc Sha256Old Hasher.
Local Open Scope Z_scope.

(** Overflow of [int] is undefined behaviour. *)
Definition int_add (x y : Z) : outcome Empty_set Z :=
  let z := x + y in if (- 2 ^ 31 <=? z) && (z <? 2 ^ 31) then Return z else Undefined.

(** What [SetBytesProcessed] and [SetItemsProcessed] were told last. *)
Record report := mk_report { bytes_told : option Z; items_told : option Z }.

(** The end of the body of each loop: the two counters and what is told. *)
Definition count_iteration (output : list byte) (bytes_processed items_processed : Z) :
    outcome Empty_set (Z * Z * report) :=
  bytes_processed ← int_add bytes_processed (Z.of_nat (length output));
  items_processed ← int_add items_processed 1;
  Return (bytes_processed, items_processed, mk_report (Some bytes_processed) (Some items_processed)).

(** The loop over the iterations of a run, [k] of them done: [hash] is what the
    body does with the hasher and the input, and gives what is counted. *)
Fixpoint bench_loop {A : Type} (hash : nat → A → outcome Empty_set (A * list byte)) (n k : nat) (hasher : A)
    (bytes_processed items_processed : Z) (state : report) : outcome Empty_set (A * report) :=
  match n with
  | O => Return (hasher, state)
  | S n =>
      '(hasher, output) ← hash k hasher;
      '(bytes_processed, items_processed, state) ← count_iteration output bytes_processed items_processed;
      bench_loop hash n (S k) hasher bytes_processed items_processed state
  end.

Section code.
Context {C1 C256 C512 : Type} `{Openssl C1} `{Openssl C256} `{Openssl C512} `{Intx}.
(** The numbers drawn in each iteration, and the state the run begins with. *)
Context (draw : nat → nat → nat) (state : report).

Definition kInputSize : nat := Z.to_nat (lit_KiB 4).
Definition random_input (k : nat) : list byte := get_random_alpha_string (draw k) kInputSize.

Definition bench_sha1 (n : nat) (ctx_pool : list C1) : outcome Empty_set (list C1 * report) :=
  let '(hasher, ctx_pool) := Sha1 ctx_pool in
  '(hasher, state) ← bench_loop (λ k hasher,
      let hasher := init hasher in
      let input := random_input k in
      let hasher := update hasher input in
      let '(hasher, _) := Sha1_finalize hasher in
      Return (hasher, input)) n 0 hasher 0 0 state;
  Return (destruct_hasher hasher ctx_pool, state).

Definition bench_sha256 (n : nat) (ctx_pool : list C256) : outcome Empty_set (list C256 * report) :=
  let '(hasher, ctx_pool) := Sha256 ctx_pool in
  '(hasher, state) ← bench_loop (λ k hasher,
      let hasher := init hasher in
      let input := random_input k in
      let hasher := update hasher input in
      let '(hasher, digest) := Sha256_finalize hasher in
      _ ← digest; Return (hasher, input)) n 0 hasher 0 0 state;
  Return (destruct_hasher hasher ctx_pool, state).

(** The hasher of the old class has its buffer not initialised: [buf]. *)
Definition bench_sha256_old (n : nat) (buf : list byte) : outcome Empty_set report :=
  '(_, state) ← bench_loop (λ k hasher,
      let hasher := Reset hasher in
      let input := random_input k in
      let hasher := Write hasher input in
      let '(hasher, hash) := Finalize hasher in
      _ ← hash; Return (hasher, input)) n 0 (new_Sha256Old buf) 0 0 state;
  Return state.

Definition bench_sha512 (n : nat) (ctx_pool : list C512) : outcome Empty_set (list C512 * report) :=
  let '(hasher, ctx_pool) := Sha512 ctx_pool in
  '(hasher, state) ← bench_loop (λ k hasher,
      let hasher := init hasher in
      let input := random_input k in
      let hasher := update hasher input in
      let '(hasher, digest) := Sha512_finalize hasher in
      _ ← digest; Return (hasher, input)) n 0 hasher 0 0 state;
  Return (destruct_hasher hasher ctx_pool, state).

Definition hex_kInputSize : nat := Z.to_nat (lit_KiB 8).
(** The input is the same in each iteration; what is counted is the text. *)
Definition bench_hex (n : nat) : outcome Empty_set report :=
  let input := get_random_alpha_string (draw 0) hex_kInputSize in
  '(_, state) ← bench_loop (λ k _, let hex_result := Hex.encode input false in Return (tt, hex_result)) n 0 tt 0 0 state;
  Return state.

(** ** When the counters overflow *)

(** A run whose iterations each count [c] bytes. *)
Lemma bench_loop_counts {A} (hash : nat → A → outcome Empty_set (A * list byte)) (c : Z) :
  0 < c → (∀ k a, ∃ a' out, hash k a = Return (a', out) ∧ Z.of_nat (length out) = c) →
  ∀ n k a b i st, 0 <= b → 0 <= i <= b → b < 2 ^ 31 →
    (b + Z.of_nat n * c < 2 ^ 31 → ∃ a', bench_loop hash n k a b i st =
       Return (a', if (n =? 0)%nat then st else mk_report (Some (b + Z.of_nat n * c)) (Some (i + Z.of_nat n)))) ∧
    (2 ^ 31 <= b + Z.of_nat n * c → bench_loop hash n k a b i st = Undefined).
Proof.
  intros Hc Hh. induction n as [|n IH]; intros k a b i st Hb Hi Hlt; [split; [by eexists|lia]|].
  cbn [bench_loop]. destruct (Hh k a) as (a1 & out & -> & Hl). unfold count_iteration, int_add. cbn. rewrite Hl.
  rewrite Nat2Z.inj_succ. destruct (Z.ltb_spec (b + c) (2 ^ 31)) as [Hs|Hs].
  - rewrite (proj2 (Z.leb_le (- 2 ^ 31) (b + c))) by lia. cbn.
    rewrite (proj2 (Z.leb_le (- 2 ^ 31) (i + 1))), (proj2 (Z.ltb_lt (i + 1) (2 ^ 31))) by lia. cbn.
    destruct (IH (S k) a1 (b + c) (i + 1) (mk_report (Some (b + c)) (Some (i + 1))) ltac:(lia) ltac:(lia) Hs)
      as [Hok Hover].
    replace (b + Z.succ (Z.of_nat n) * c) with (b + c + Z.of_nat n * c) by ring.
    replace (i + Z.succ (Z.of_nat n)) with (i + 1 + Z.of_nat n) by lia.
    split; [|by apply Hover]. intros Hn. destruct Hok as [a' ->]; [done|]. exists a'.
    destruct n; [|done]. cbn [Nat.eqb Z.of_nat]. by rewrite Z.mul_0_l, !Z.add_0_r.
  - rewrite andb_false_r. cbn. split; [nia|done].
Qed.

Lemma length_random_input k : Z.of_nat (length (random_input k)) = 4096.
Proof. unfold random_input, get_random_alpha_string. by rewrite length_fmap, length_seq. Qed.

(** What a benchmark gives for [n] iterations of [c] bytes. *)
Definition told (c n : Z) : report := if n =? 0 then state else mk_report (Some (n * c)) (Some n).
Definition counts {A} (c : Z) (run : nat → outcome Empty_set A) (result : A → report) : Prop :=
  ∀ n, (Z.of_nat n * c < 2 ^ 31 → ∃ a, run n = Return a ∧ result a = told c (Z.of_nat n)) ∧
       (2 ^ 31 <= Z.of_nat n * c → run n = Undefined).

Lemma bench_loop_told {A B} (hash : nat → A → outcome Empty_set (A * list byte)) (c : Z) (a : A)
    (result : A * report → outcome Empty_set B) (told_of : B → report) :
  0 < c → (∀ k a, ∃ a' out, hash k a = Return (a', out) ∧ Z.of_nat (length out) = c) →
  (∀ a st, ∃ r, result (a, st) = Return r ∧ told_of r = st) →
  counts c (λ n, bench_loop hash n 0 a 0 0 state ≫= result) told_of.
Proof.
  intros Hc Hh Hr n.
  destruct (bench_loop_counts hash c Hc Hh n 0 a 0 0 state ltac:(lia) ltac:(lia) ltac:(lia)) as [Hok Hover].
  rewrite Z.add_0_l in *. split; [|by intros Hn; rewrite Hover].
  intros Hn. destruct (Hok Hn) as [a' ->]. cbn.
  match goal with |- context [result (a', ?st)] => destruct (Hr a' st) as (r & -> & Ht) end.
  exists r. split; [done|]. rewrite Ht. unfold told. by destruct n.
Qed.

(** The hashers count 4 KiB and the encoder 16 KiB, the text of 8 KiB, in an
    [int]: up to 2^31 / 4096 = 524288 and 131072 iterations the numbers told
    are right, and with that many the counter overflows. Every iteration
    before ends with a digest. *)
Theorem bench_counters (pool1 : list C1) (pool256 : list C256) (pool512 : list C512) (buf : list byte) :
  counts 4096 (λ n, bench_sha1 n pool1) snd ∧ counts 4096 (λ n, bench_sha256 n pool256) snd ∧
  counts 4096 (λ n, bench_sha256_old n buf) id ∧ counts 4096 (λ n, bench_sha512 n pool512) snd ∧
  counts 16384 bench_hex id.
Proof.
  split_and!; unfold bench_sha1, bench_sha256, bench_sha256_old, bench_sha512, bench_hex.
  - destruct (Sha1 pool1) as [hasher pool]. apply bench_loop_told; [done| |by eauto].
    intros k h. cbv zeta. destruct (Sha1_finalize _) as [h' d]. eexists _, _.
    split; [done|apply length_random_input].
  - destruct (Sha256 pool256) as [hasher pool]. apply bench_loop_told; [done| |by eauto].
    intros k h. eexists _, _. split; [done|apply length_random_input].
  - apply bench_loop_told; [done| |by eauto]. intros k h. eexists _, _. split; [done|apply length_random_input].
  - destruct (Sha512 pool512) as [hasher pool]. apply bench_loop_told; [done| |by eauto].
    intros k h. eexists _, _. split; [done|apply length_random_input].
  - apply (bench_loop_told _ _ tt); [done| |by eauto]. intros k [].
    eexists _, _. split; [done|].
    unfold Hex.encode. cbn [app]. rewrite length_encode_digits.
    unfold get_random_alpha_string. by rewrite length_fmap, length_seq.
Qed.
End code.
