(* ===== verification/Monitor.v ===== *)
(** * Objects guarded by a mutex

    Three classes of the program take a mutex in each of their calls: the
    object pool, the page manager and the output of the log. This file has
    what the three share: threads that call such an object, their steps
    interleaved in any way, and the proof that with the mutex every
    interleaving comes to the same as calls made one at a time, in the order
    in which they returned. A component that is called so is an instance of
    [Monitor]; [SharedPool], [SharedPages] and [SharedLog] have them. *)
From S2P Require Import Prelude.
From stdpp Require Import gmap.
Local Open Scope nat_scope.

(** [entry] is the code of a call before the mutex: the call returns there or
    goes on to a place of its critical section. [section] is one step of the
    critical section on the guarded state: to another place, or to the end. *)
Class Monitor (St C L R : Type) := {
  entry : C → L + R;
  section : L → St → outcome Empty_set (St * (L + R))
}.

Section code.
Context `{Monitor St C L R}.

(** A thread in a call waits for the mutex or is inside. The history is no
    state of the program: it records the calls that have returned, with their
    threads and results. *)
Inductive phase := waiting (c : C) (l : L) | inside (c : C) (l : L).
Record conf := mk_conf {
  shared : St;
  held : option nat;
  phases : gmap nat phase;
  history : list (nat * C * R)
}.
Definition initial (s : St) : conf := mk_conf s None ∅ [].

(** A thread that is in no call makes one, or a thread goes on with its own. *)
Inductive label := Invoke (t : nat) (c : C) | Go (t : nat).

(** [guarded] tells whether the calls take the mutex. A label that is not
    enabled gives [None]: a thread waits for a mutex that is held. *)
Definition step (guarded : bool) (a : label) (k : conf) : option (outcome Empty_set conf) :=
  match a with
  | Invoke t c =>
      match phases k !! t, entry c with
      | Some _, _ => None
      | None, inl l =>
          Some (Return (mk_conf (shared k) (held k) (<[t := waiting c l]> (phases k)) (history k)))
      | None, inr r =>
          Some (Return (mk_conf (shared k) (held k) (phases k) (history k ++ [(t, c, r)])))
      end
  | Go t =>
      match phases k !! t with
      | None => None
      | Some (waiting c l) =>
          let held' := if guarded then Some t else held k in
          if guarded && bool_decide (is_Some (held k)) then None
          else Some (Return (mk_conf (shared k) held' (<[t := inside c l]> (phases k)) (history k)))
      | Some (inside c l) =>
          Some ('(s, o) ← section l (shared k);
                Return (match o with
                        | inl l => mk_conf s (held k) (<[t := inside c l]> (phases k)) (history k)
                        | inr r => mk_conf s None (delete t (phases k)) (history k ++ [(t, c, r)])
                        end))
      end
  end.

Fixpoint run (guarded : bool) (ls : list label) (k : conf) : option (outcome Empty_set conf) :=
  match ls with
  | [] => Some (Return k)
  | a :: ls =>
      match step guarded a k with
      | Some (Return k) => run guarded ls k
      | o => o
      end
  end.

(** ** The object in one thread *)

(** The critical section from a place on, without anyone in between. *)
Fixpoint finish (fuel : nat) (l : L) (s : St) : option (outcome Empty_set (St * R)) :=
  match fuel with
  | O => None
  | S fuel =>
      match section l s with
      | Return (s, inl l) => finish fuel l s
      | Return (s, inr r) => Some (Return (s, r))
      | Throw x => Some (Throw x)
      | Abort => Some Abort
      | Undefined => Some Undefined
      end
  end.
Definition call (fuel : nat) (c : C) (s : St) : option (outcome Empty_set (St * R)) :=
  match entry c with inl l => finish fuel l s | inr r => Some (Return (s, r)) end.

(** Calls one after the other, with the results they return. *)
Inductive serial (s : St) : list (nat * C * R) → St → Prop :=
  | serial_nil : serial s [] s
  | serial_snoc h s1 t c r s2 fuel :
      serial s h s1 → call fuel c s1 = Some (Return (s2, r)) → serial s (h ++ [(t, c, r)]) s2.

(** The steps from one place of a critical section to another. *)
Inductive within (l : L) (s : St) : L → St → Prop :=
  | within_refl : within l s l s
  | within_step l1 s1 l2 s2 :
      within l s l1 s1 → section l1 s1 = Return (s2, inl l2) → within l s l2 s2.

Lemma finish_mono fuel fuel' l s o : finish fuel l s = Some o → fuel ≤ fuel' → finish fuel' l s = Some o.
Proof.
  revert fuel' l s. induction fuel as [|fuel IH]; intros [|fuel'] l s; cbn [finish]; [done..|lia|].
  destruct (section l s) as [[s1 [l1|r]]| | |]; try done. intros Hf Hle. apply (IH fuel'); [done|lia].
Qed.

Lemma call_det fuel fuel' c s o o' : call fuel c s = Some o → call fuel' c s = Some o' → o = o'.
Proof.
  unfold call. destruct (entry c) as [l|r]; [|congruence]. intros Hf Hf'.
  apply (finish_mono _ (Nat.max fuel fuel')) in Hf; [|lia].
  apply (finish_mono _ (Nat.max fuel fuel')) in Hf'; [|lia]. congruence.
Qed.

Lemma within_finish l s l1 s1 fuel o :
  within l s l1 s1 → finish fuel l1 s1 = Some o → ∃ fuel', finish fuel' l s = Some o.
Proof.
  intros Hw. revert fuel o. induction Hw as [|l1 s1 l2 s2 _ IH Hs]; intros fuel o Hf; [by eexists|].
  apply (IH (S fuel)). cbn [finish]. by rewrite Hs.
Qed.

Lemma within_finish_rest l s l1 s1 fuel o :
  within l s l1 s1 → finish fuel l s = Some o → finish fuel l1 s1 = Some o.
Proof.
  intros Hw. revert fuel o. induction Hw as [|l1 s1 l2 s2 _ IH Hs]; intros fuel o Hf; [done|].
  apply IH in Hf. destruct fuel as [|fuel]; [done|]. cbn [finish] in Hf. rewrite Hs in Hf.
  eapply finish_mono; [done|lia].
Qed.
(** The thread inside gets to the end of its call by as many of its own steps
    as the call takes alone, and the mutex is free. *)
Lemma holder_finishes k t c l fuel s r :
  held k = Some t → phases k !! t = Some (inside c l) → finish fuel l (shared k) = Some (Return (s, r)) →
  ∃ n k', n ≤ fuel ∧ run true (replicate n (Go t)) k = Some (Return k') ∧ shared k' = s ∧ held k' = None ∧
    phases k' = delete t (phases k) ∧ history k' = history k ++ [(t, c, r)].
Proof.
  revert k l. induction fuel as [|fuel IH]; intros k l Ht Hp; cbn [finish]; [done|].
  destruct (section l (shared k)) as [[s1 [l1|r1]]| | |] eqn:Hsec; try done.
  - intros Hf.
    destruct (IH (mk_conf s1 (held k) (<[t := inside c l1]> (phases k)) (history k)) l1) as
      (n & k' & Hn & Hr & Hs & Hh & Hd & Hist); [done|by cbn; rewrite lookup_insert_eq|done|].
    exists (S n), k'. cbn [replicate run step]. rewrite Hp, Hsec. cbn.
    split; [lia|]. split; [done|]. split; [done|]. split; [done|]. split; [|done].
    rewrite Hd. cbn. apply delete_insert_eq.
  - intros [= -> ->]. eexists 1, _. cbn [replicate run step]. rewrite Hp, Hsec. cbn.
    split; [lia|]. by split_and!.
Qed.

(** The steps of a thread in an interleaving. *)
Fixpoint goes (t : nat) (ls : list label) : nat :=
  match ls with
  | [] => 0
  | Go t' :: ls => if decide (t' = t) then S (goes t ls) else goes t ls
  | Invoke _ _ :: ls => goes t ls
  end.

(** No other thread can do anything to the object while one is inside: a step
    of another is a call that only begins, or returns at once. *)
Lemma other_step k t c l a o :
  held k = Some t → phases k !! t = Some (inside c l) →
  (∀ t' c' l', phases k !! t' = Some (inside c' l') → t' = t) → a ≠ Go t →
  step true a k = Some o →
  ∃ k', o = Return k' ∧ shared k' = shared k ∧ held k' = Some t ∧ phases k' !! t = Some (inside c l) ∧
    (∀ t' c' l', phases k' !! t' = Some (inside c' l') → t' = t) ∧ ∃ h, history k' = history k ++ h.
Proof.
  intros Ht Hp Hal Ha. destruct a as [t' c'|t']; cbn [step].
  - destruct (phases k !! t') as [ph|] eqn:Hp'; [done|].
    assert (Hne : t' ≠ t) by congruence.
    destruct (entry c') as [l'|r']; intros [= <-]; eexists; (split; [done|]); cbn.
    + split; [done|]. split; [done|]. rewrite lookup_insert_ne by done. split; [done|].
      split; [|exists []; by rewrite app_nil_r]. intros t1 c1 l1.
      destruct (decide (t1 = t')) as [->|Hn]; [by rewrite lookup_insert_eq|].
      rewrite lookup_insert_ne by done. apply Hal.
    + split; [done|]. split; [done|]. split; [done|]. split; [done|]. by eexists.
  - assert (Hne : t' ≠ t) by congruence.
    destruct (phases k !! t') as [[c' l'|c' l']|] eqn:Hp'; [| |done].
    + by rewrite Ht.
    + by apply Hal in Hp'.
Qed.

(** The thread inside has left once it has made as many steps as the rest of
    its call takes, whatever the others did in between. *)
Lemma holder_leaves fuel s r ls k t c l k' :
  held k = Some t → phases k !! t = Some (inside c l) →
  (∀ t' c' l', phases k !! t' = Some (inside c' l') → t' = t) →
  finish fuel l (shared k) = Some (Return (s, r)) →
  run true ls k = Some (Return k') → fuel ≤ goes t ls →
  ∃ ls1 ls2 k1, ls = ls1 ++ ls2 ∧ run true ls1 k = Some (Return k1) ∧ shared k1 = s ∧
    held k1 = None ∧ phases k1 !! t = None ∧ ∃ h, history k1 = history k ++ h ++ [(t, c, r)].
Proof.
  revert fuel k l. induction ls as [|a ls IH]; intros fuel k l Ht Hp Hal Hf Hr Hn.
  { destruct fuel as [|fuel]; [done|cbn in Hn; lia]. }
  cbn [run] in Hr. assert (Ha : a = Go t ∨ a ≠ Go t)
    by (destruct a as [|t']; [by right|destruct (decide (t' = t)) as [->|]; [by left|right; congruence]]).
  destruct Ha as [->|Ha].
  - cbn [goes] in Hn. rewrite decide_True in Hn by done.
    destruct fuel as [|fuel]; [done|]. cbn [finish] in Hf. cbn [step] in Hr. rewrite Hp in Hr.
    destruct (section l (shared k)) as [[s1 [l1|r1]]| | |] eqn:Hsec; try done; cbn in Hr.
    + destruct (IH fuel (mk_conf s1 (held k) (<[t := inside c l1]> (phases k)) (history k)) l1) as
        (ls1 & ls2 & k1 & -> & Hr1 & Hs & Hh & Hd & h & Hist); try done; [| |lia|].
      * by cbn; rewrite lookup_insert_eq.
      * cbn. intros t' c' l'. destruct (decide (t' = t)) as [->|]; [done|].
        rewrite lookup_insert_ne by done. apply Hal.
      * exists (Go t :: ls1), ls2, k1. cbn [run step app]. rewrite Hp, Hsec. cbn.
        split_and!; try done. by exists h.
    + injection Hf as -> ->. eexists [Go t], ls, _. cbn [run step app]. rewrite Hp, Hsec. cbn.
      split_and!; try done; [apply lookup_delete_eq|]. by exists [].
  - destruct (step true a k) as [o|] eqn:Hst; [|done].
    destruct (other_step k t c l a o Ht Hp Hal Ha Hst) as (k2 & -> & Hs2 & Ht2 & Hp2 & Hal2 & h2 & Hh2).
    destruct (IH fuel k2 l Ht2 Hp2 Hal2) as (ls1 & ls2 & k1 & -> & Hr1 & Hs & Hh & Hd & h & Hist).
    { by rewrite Hs2. }
    { done. }
    { destruct a as [|t']; cbn [goes] in Hn; [done|]. by rewrite decide_False in Hn by congruence. }
    exists (a :: ls1), ls2, k1. cbn [run app]. rewrite Hst. split_and!; try done.
    exists (h2 ++ h). by rewrite Hist, Hh2, <-!(assoc_L (++)).
Qed.
End code.
Arguments phase : clear implicits.
Arguments conf : clear implicits.
Arguments label : clear implicits.

(** ** With the mutex, every interleaving is a sequence of calls *)

Section theory.
Context `{Monitor St C L R}.
Abbreviation conf := (conf St C L R).
Abbreviation label := (label C).
Implicit Types k : conf.

(** The calls allowed, and what holds of the object between two calls. *)
Context (valid : C → Prop) (Inv : St → Prop).

(** No critical section goes wrong where it is alone with the object, and
    the object is well again at its end. *)
Definition sections_safe : Prop :=
  ∀ c l0 s l s1, valid c → Inv s → entry c = inl l0 → within l0 s l s1 →
    ∃ s2 o, section l s1 = Return (s2, o) ∧ (∀ r, o = inr r → Inv s2).

Definition valid_label (a : label) : Prop := match a with Invoke _ c => valid c | Go _ => True end.

(** Who is inside the critical section, and since which state [s]. *)
Definition inside_since (s : St) k : Prop :=
  match held k with
  | None => shared k = s
  | Some t => ∃ c l0 l, phases k !! t = Some (inside c l) ∧ entry c = inl l0 ∧ within l0 s l (shared k)
  end.

(** A configuration is that of calls one after the other, [history], and of at
    most one critical section on top of them. *)
Record linear (s0 : St) k (s : St) : Prop := {
  linear_serial : serial s0 (history k) s;
  linear_inv : Inv s;
  linear_held : inside_since s k;
  linear_alone t c l : phases k !! t = Some (inside c l) → held k = Some t;
  linear_waiting t c l : phases k !! t = Some (waiting c l) → entry c = inl l;
  linear_valid t c l : phases k !! t = Some (waiting c l) ∨ phases k !! t = Some (inside c l) → valid c;
  linear_calls : Forall (λ e, valid e.1.2) (history k)
}.

Lemma linear_initial s0 : Inv s0 → linear s0 (initial s0) s0.
Proof.
  intros Hi. split; try done; [constructor|..]; cbn; intros *; rewrite lookup_empty; naive_solver.
Qed.

(** The phases of the other threads stay. *)
Lemma phase_after t t' (p p' : phase C L) (m : gmap nat (phase C L)) :
  <[t := p]> m !! t' = Some p' → (t' = t ∧ p' = p) ∨ (t' ≠ t ∧ m !! t' = Some p').
Proof. rewrite lookup_insert_Some. naive_solver. Qed.

Lemma linear_invoke s0 k s t c l :
  linear s0 k s → valid c → phases k !! t = None → entry c = inl l →
  linear s0 (mk_conf (shared k) (held k) (<[t := waiting c l]> (phases k)) (history k)) s.
Proof.
  intros [Hs Hi Hh Ha Hw Hv Hcs] Hc Hn He. split; cbn; [done|done|..].
  - unfold inside_since in *; cbn. destruct (held k) as [t1|]; [|done].
    destruct Hh as (c1 & l0 & l1 & Hp & He1 & Hin). exists c1, l0, l1.
    split; [|done]. rewrite lookup_insert_ne; [done|congruence].
  - intros t1 c1 l1 [[_ ?]|[_ Hp]]%phase_after; [done|by eapply Ha].
  - intros t1 c1 l1 [[_ [= -> ->]]|[_ Hp]]%phase_after; [done|by eapply Hw].
  - intros t1 c1 l1 [Hp|Hp]; apply phase_after in Hp as [[_ [= -> ->]]|[_ Hp]]; try done; eapply Hv; eauto.
  - done.
Qed.

Lemma linear_enter s0 k s t c l :
  linear s0 k s → phases k !! t = Some (waiting c l) → held k = None →
  linear s0 (mk_conf (shared k) (Some t) (<[t := inside c l]> (phases k)) (history k)) s.
Proof.
  intros [Hs Hi Hh Ha Hw Hv Hcs] Hp Hn. unfold inside_since in Hh. rewrite Hn in Hh.
  split; cbn; [done|done|..].
  - exists c, l, l. rewrite lookup_insert_eq, Hh. split; [done|]. split; [by eapply Hw|constructor].
  - intros t1 c1 l1 [[-> _]|[_ Hp1]]%phase_after; [done|]. apply Ha in Hp1. congruence.
  - intros t1 c1 l1 [[_ ?]|[_ Hp1]]%phase_after; [done|by eapply Hw].
  - intros t1 c1 l1 [Hp1|Hp1]; apply phase_after in Hp1 as [[_ [= -> ->]]|[_ Hp1]]; eapply Hv; eauto.
  - done.
Qed.

Lemma linear_move s0 k s t c l s2 l2 :
  linear s0 k s → phases k !! t = Some (inside c l) → section l (shared k) = Return (s2, inl l2) →
  linear s0 (mk_conf s2 (held k) (<[t := inside c l2]> (phases k)) (history k)) s.
Proof.
  intros [Hs Hi Hh Ha Hw Hv Hcs] Hp Hsec. unfold inside_since in Hh. pose proof (Ha _ _ _ Hp) as Ht.
  rewrite Ht in Hh. destruct Hh as (c1 & l0 & l1 & Hp1 & He & Hin). rewrite Hp in Hp1. injection Hp1 as <- <-.
  split; cbn; [done|done|..].
  - unfold inside_since. cbn. rewrite Ht. exists c, l0, l2. rewrite lookup_insert_eq. split; [done|].
    split; [done|]. by econstructor.
  - intros t1 c1 l1 [[-> _]|[_ Hp1]]%phase_after; [done|by eapply Ha].
  - intros t1 c1 l1 [[_ ?]|[_ Hp1]]%phase_after; [done|by eapply Hw].
  - intros t1 c1 l1 [Hp1|Hp1]; apply phase_after in Hp1 as [[_ [= -> ->]]|[_ Hp1]]; eapply Hv; eauto.
  - done.
Qed.

Lemma linear_leave s0 k s t c l s2 r :
  linear s0 k s → phases k !! t = Some (inside c l) → section l (shared k) = Return (s2, inr r) → Inv s2 →
  linear s0 (mk_conf s2 None (delete t (phases k)) (history k ++ [(t, c, r)])) s2.
Proof.
  intros [Hs Hi Hh Ha Hw Hv Hcs] Hp Hsec Hi2. unfold inside_since in Hh. pose proof (Ha _ _ _ Hp) as Ht.
  rewrite Ht in Hh. destruct Hh as (c1 & l0 & l1 & Hp1 & He & Hin). rewrite Hp in Hp1. injection Hp1 as <- <-.
  destruct (within_finish _ _ _ _ 1 (Return (s2, r)) Hin) as [fuel Hf]; [by cbn [finish]; rewrite Hsec|].
  split; cbn; [|done|done|..].
  - eapply (serial_snoc _ _ _ _ _ _ _ fuel); [done|]. unfold call. by rewrite He.
  - intros t1 c1 l1 [Hne Hp1]%lookup_delete_Some. apply Ha in Hp1. congruence.
  - intros t1 c1 l1 [_ Hp1]%lookup_delete_Some. by eapply Hw.
  - intros t1 c1 l1 [[_ Hp1]%lookup_delete_Some|[_ Hp1]%lookup_delete_Some]; eapply Hv; eauto.
  - apply Forall_app_2; [done|]. apply Forall_cons_2; [eapply Hv; eauto|constructor].
Qed.

Lemma linear_returned s0 k s t c r :
  linear s0 k s → valid c → entry c = inr r →
  linear s0 (mk_conf (shared k) (held k) (phases k) (history k ++ [(t, c, r)])) s.
Proof.
  intros [Hs Hi Hh Ha Hw Hv Hcs] Hc He. split; cbn; try done; [|by apply Forall_app_2; [|apply Forall_cons_2]].
  eapply (serial_snoc _ _ _ _ _ _ _ 0); [done|]. unfold call. by rewrite He.
Qed.

Lemma linear_step s0 k s a o :
  sections_safe → linear s0 k s → valid_label a → step true a k = Some o →
  ∃ k' s', o = Return k' ∧ linear s0 k' s'.
Proof.
  intros Hsafe Hl Ha. destruct a as [t c|t]; cbn [step].
  - destruct (phases k !! t) eqn:Hp; [done|]. destruct (entry c) as [l|r] eqn:He; intros [= <-].
    + eexists _, s. split; [done|]. by apply linear_invoke.
    + eexists _, s. split; [done|]. by apply linear_returned.
  - destruct (phases k !! t) as [[c l|c l]|] eqn:Hp; [..|done]; cbn [andb].
    + case_bool_decide as Hh; [done|]. intros [= <-]. eexists _, s. split; [done|].
      apply linear_enter; [done..|]. by apply eq_None_not_Some.
    + intros [= <-]. pose proof (linear_alone _ _ _ Hl _ _ _ Hp) as Ht.
      pose proof (linear_held _ _ _ Hl) as Hh. unfold inside_since in Hh. rewrite Ht in Hh.
      destruct Hh as (c1 & l0 & l1 & Hp1 & He & Hin). rewrite Hp in Hp1. injection Hp1 as <- <-.
      destruct (Hsafe c l0 s l (shared k)) as (s2 & o & Hsec & Ho); [|by eapply linear_inv|done..|].
      { eapply linear_valid; eauto. }
      rewrite Hsec. cbn. destruct o as [l2|r]; eexists _, _; (split; [done|]).
      * by eapply linear_move.
      * eapply linear_leave; eauto.
Qed.

(** Whatever the interleaving, nothing goes wrong, and the object is what the
    calls that returned leave it as one after the other. *)
Lemma run_linear s0 ls k s o :
  sections_safe → linear s0 k s → Forall valid_label ls → run true ls k = Some o →
  ∃ k' s', o = Return k' ∧ linear s0 k' s'.
Proof.
  intros Hsafe Hl Hv. revert k s Hl. induction Hv as [|a ls Ha _ IH]; intros k s Hl; cbn [run].
  - intros [= <-]. eauto.
  - destruct (step true a k) as [o1|] eqn:Hstep; [|done].
    destruct (linear_step _ _ _ _ _ Hsafe Hl Ha Hstep) as (k1 & s1 & -> & Hl1). by eapply IH.
Qed.

(** Some thread can always go on, as long as one is in a call. *)
Lemma linear_goes_on s0 k s :
  linear s0 k s → phases k ≠ ∅ → ∃ t, is_Some (step true (Go t) k).
Proof.
  intros Hl Hne. cbn [step]. destruct (held k) as [t|] eqn:Ht.
  - exists t. pose proof (linear_held _ _ _ Hl) as Hh. unfold inside_since in Hh. rewrite Ht in Hh.
    destruct Hh as (c & l0 & l & Hp & _). rewrite Hp. by eexists.
  - destruct (map_choose _ Hne) as (t & [c l|c l] & Hp); exists t; rewrite Hp; [|by eexists].
    cbn. by eexists.
Qed.
End theory.
