(* ===== verification/SharedPool.v ===== *)
(** * A pool shared by threads

    Models [src/zen/core/common/object_pool.hpp] as threads use it, access by
    access: the mutex is taken if the pool is [thread_safe_], and [acquire]
    looks at the stack three times. [Containers] has the same calls in one
    thread; here they are shown to be atomic with the mutex, and what happens
    without. *)
From S2P Require Import Prelude Containers Monitor.
From stdpp Require Import gmap.
Import ObjectPool(pool, add, acquire, pool_empty, pool_size).
Local Open Scope nat_scope.

Section code.
Context {T : Type}.

(** The stack, top first, of the [unique_ptr]s, null after a release; and the
    objects that were destroyed by a pop. *)
Record shared_pool := mk_shared_pool { pool_ : list (option T); destroyed : list T }.

Inductive pool_call := c_add (t : T) | c_acquire | c_empty | c_size.
Inductive pool_place := p_push (t : T) | p_check | p_release | p_pop (ret : option T) | p_empty | p_size.
Inductive pool_result := r_done | r_pointer (t : option T) | r_bool (b : bool) | r_number (n : nat).

(** No call does anything before the guard. *)
Definition pool_entry (c : pool_call) : pool_place + pool_result :=
  inl (match c with c_add t => p_push t | c_acquire => p_check | c_empty => p_empty | c_size => p_size end).

(** [top] and [pop] have no meaning on an empty stack. *)
Definition pool_section (l : pool_place) (s : shared_pool) :
    outcome Empty_set (shared_pool * (pool_place + pool_result)) :=
  match l with
  | p_push t => Return (mk_shared_pool (Some t :: pool_ s) (destroyed s), inr r_done)
  | p_check =>
      match pool_ s with
      | [] => Return (s, inr (r_pointer None))
      | _ => Return (s, inl p_release)
      end
  | p_release =>
      match pool_ s with
      | [] => Undefined
      | top :: rest => Return (mk_shared_pool (None :: rest) (destroyed s), inl (p_pop top))
      end
  | p_pop ret =>
      match pool_ s with
      | [] => Undefined
      | top :: rest => Return (mk_shared_pool rest (destroyed s ++ option_list top), inr (r_pointer ret))
      end
  | p_empty => Return (s, inr (r_bool (match pool_ s with [] => true | _ => false end)))
  | p_size => Return (s, inr (r_number (length (pool_ s))))
  end.

#[export] Instance pool_monitor : Monitor shared_pool pool_call pool_place pool_result :=
  {| entry := pool_entry; section := pool_section |}.

(** The new pool, with the objects added to it first. *)
Definition shared_new (p : pool T) : shared_pool := mk_shared_pool (Some <$> p) [].

(** ** The calls in one thread *)

(** A call of [Containers], with its result in one type. *)
Definition pool_exec (c : pool_call) (p : pool T) : pool T * pool_result :=
  match c with
  | c_add t => (add t p, r_done)
  | c_acquire => let '(r, p) := acquire p in (p, r_pointer r)
  | c_empty => (p, r_bool (pool_empty p))
  | c_size => (p, r_number (pool_size p))
  end.

(** Calls one after the other return these results and leave this pool. *)
Inductive pool_history (p : pool T) : list (nat * pool_call * pool_result) → pool T → Prop :=
  | pool_history_nil : pool_history p [] p
  | pool_history_snoc h q i c : pool_history p h q →
      pool_history p (h ++ [(i, c, (pool_exec c q).2)]) (pool_exec c q).1.

Definition handed_out (h : list (nat * pool_call * pool_result)) : list T :=
  concat ((λ e, match e.2 with r_pointer (Some t) => [t] | _ => [] end) <$> h).
Definition given (h : list (nat * pool_call * pool_result)) : list T :=
  concat ((λ e, match e.1.2 with c_add t => [t] | _ => [] end) <$> h).

Lemma pool_call_alone c p :
  call 3 c (shared_new p) = Some (Return (shared_new (pool_exec c p).1, (pool_exec c p).2)).
Proof.
  destruct c as [t| | |]; try done; [by destruct p..|]. cbn. by rewrite length_fmap.
Qed.

(** What the object can be within a section, and that its next step returns. *)
Lemma pool_sections_safe : sections_safe (λ _ : pool_call, True) (λ s, ∃ p, s = shared_new p).
Proof.
  intros c l0 s l s1 _ [p ->] He Hw. pose proof (pool_call_alone c p) as Hf. unfold call in Hf.
  rewrite He in Hf. pose proof (within_finish_rest _ _ _ _ _ _ Hw Hf) as Hr. cbn [finish] in Hr.
  destruct (section l s1) as [[s2 o]| | |]; try done. exists s2, o. split; [done|]. intros r ->.
  injection Hr as -> _. by eexists.
Qed.

Lemma serial_pool p h s : serial (shared_new p) h s → ∃ q, s = shared_new q ∧ pool_history p h q.
Proof.
  induction 1 as [|h s1 i c r s2 fuel _ IH Hc]; [eexists; split; [done|constructor]|].
  destruct IH as (q & -> & Hh). pose proof (pool_call_alone c q) as Hf.
  pose proof (call_det _ _ _ _ _ _ Hc Hf) as Heq. injection Heq as -> ->. eexists. split; [done|]. by constructor.
Qed.

(** Within a call the pool is whole, or its top was just released. *)
Lemma pool_within c l0 p l s :
  entry c = inl l0 → within l0 (shared_new p) l s →
  s = shared_new p ∨ ∃ t q, p = t :: q ∧ l = p_pop (Some t) ∧ s = mk_shared_pool (None :: (Some <$> q)) [].
Proof.
  intros He. induction 1 as [|l1 s1 l2 s2 _ IH Hs]; [by left|].
  destruct IH as [->|(t & q & -> & -> & ->)]; [|done].
  destruct l1, p as [|u q]; cbn in Hs; simplify_eq; try (by left); right; by eexists _, _.
Qed.

Lemma pool_history_conserves p h q : pool_history p h q → handed_out h ++ q ≡ₚ given h ++ p.
Proof.
  induction 1 as [|h q i c _ IH]; [done|]. unfold handed_out, given in *.
  rewrite !fmap_app, !concat_app. cbn. rewrite !app_nil_r.
  destruct c as [t| | |]; cbn; rewrite ?app_nil_r; [|destruct q as [|t q]; cbn|..]; rewrite ?app_nil_r; try done.
  - rewrite <-app_assoc. cbn. by rewrite <-!Permutation_middle, IH.
  - by rewrite app_nil_r in IH.
  - by rewrite <-app_assoc.
Qed.

(** Two threads that both look at the stack before either releases its top. *)
Definition racing (gos : list nat) : list (label pool_call) :=
  [Invoke 1 c_acquire; Invoke 2 c_acquire] ++ (Go <$> gos).

Lemma returned_conf {K} (o : option (outcome Empty_set K)) (P : K → Prop) :
  match o with Some (Return k) => P k | _ => False end → ∃ k, o = Some (Return k) ∧ P k.
Proof. destruct o as [[k| | |]|]; try done. by exists k. Qed.

Lemma race_destroys (x y : T) :
  ∃ k, run false (racing [1; 2; 1; 2; 1; 2; 1; 2]) (initial (shared_new [x; y])) = Some (Return k) ∧
    history k = [(1, c_acquire, r_pointer (Some x)); (2, c_acquire, r_pointer None)] ∧
    shared k = mk_shared_pool [] [y].
Proof.
  refine (returned_conf (run false (racing [1; 2; 1; 2; 1; 2; 1; 2]) (initial (shared_new [x; y])))
    (λ k, history k = [(1, c_acquire, r_pointer (Some x)); (2, c_acquire, r_pointer None)] ∧
          shared k = mk_shared_pool [] [y]) _).
  vm_compute. by split.
Qed.

Lemma race_undefined (x : T) :
  run false (racing [1; 2; 1; 2; 1; 1; 2]) (initial (shared_new [x])) = Some Undefined.
Proof. vm_compute. reflexivity. Qed.

(** C15: A pool that is [thread_safe_] is atomic in every interleaving of its
    calls by any number of threads: nothing goes wrong, the calls that have
    returned gave the results they give one after the other, and when no one
    is inside the pool is what they leave. No object is lost, destroyed or
    handed to two threads: what was handed out and what is pooled is what was
    in the pool and was added. As long as a call is going on a thread can go
    on. Without the flag neither holds: two acquisitions can destroy an object
    that both overlook, and can look at the top of an empty stack. *)
Theorem thread_safe_pool_atomic (p : pool T) (ls : list (label pool_call)) o :
  run true ls (initial (shared_new p)) = Some o →
  (∃ k q, o = Return k ∧ pool_history p (history k) q ∧
     (held k = None → shared k = shared_new q) ∧ destroyed (shared k) = [] ∧
     handed_out (history k) ++ q ≡ₚ given (history k) ++ p ∧
     (NoDup (given (history k) ++ p) → NoDup (handed_out (history k))) ∧
     (phases k ≠ ∅ → ∃ i, is_Some (step true (Go i) k))) ∧
  ∀ x y : T,
    (∃ ls k, run false ls (initial (shared_new [x; y])) = Some (Return k) ∧
       history k = [(1, c_acquire, r_pointer (Some x)); (2, c_acquire, r_pointer None)] ∧
       shared k = mk_shared_pool [] [y]) ∧
    ∃ ls, run false ls (initial (shared_new [x])) = Some Undefined.
Proof.
  intros Hr. split.
  - destruct (run_linear (λ _ : pool_call, True) (λ s, ∃ p, s = shared_new p) (shared_new p) ls
      (initial (shared_new p)) (shared_new p) o pool_sections_safe) as (k & s & -> & Hl); [|by apply Forall_true; intros []|done|].
    { apply linear_initial. by eexists. }
    destruct (serial_pool _ _ _ (linear_serial _ _ _ _ _ Hl)) as (q & -> & Hh).
    pose proof (pool_history_conserves _ _ _ Hh) as Hc. pose proof (linear_held _ _ _ _ _ Hl) as Hi.
    exists k, q. split_and!; try done.
    + intros Hn. unfold inside_since in Hi. by rewrite Hn in Hi.
    + unfold inside_since in Hi. destruct (held k); [|by rewrite Hi].
      destruct Hi as (c & l0 & l & _ & He & Hw).
      by destruct (pool_within _ _ _ _ _ He Hw) as [->|(? & ? & _ & _ & ->)].
    + intros Hnd. rewrite <-Hc in Hnd. by apply NoDup_app in Hnd as [? _].
    + by apply (linear_goes_on _ _ _ _ _ Hl).
  - clear. intros x y. split.
    + exact (ex_intro _ _ (race_destroys x y)).
    + exact (ex_intro _ _ (race_undefined x)).
Qed.
End code.
Arguments pool_call : clear implicits.
Arguments pool_result : clear implicits.

(** ** Witnesses *)

(** A thread acquires while another adds and waits for it. *)
Definition two_threads : list (label (pool_call nat)) :=
  [Invoke 1 c_acquire; Go 1; Go 1; Invoke 2 (c_add 8); Go 1; Go 1; Go 2; Go 2].

Lemma thread_safe_pool_atomic_witness :
  match run true two_threads (initial (shared_new [5])) with
  | Some (Return k) => history k = [(1, c_acquire, r_pointer (Some 5)); (2, c_add 8, r_done)] ∧ NoDup (handed_out (history k))
  | _ => False
  end.
Proof.
  assert (H : match run true two_threads (initial (shared_new [5])) with
              | Some (Return k) => history k = [(1, c_acquire, r_pointer (Some 5)); (2, c_add 8, r_done)]
              | _ => False
              end) by (vm_compute; reflexivity).
  destruct (run true two_threads (initial (shared_new [5]))) as [o|] eqn:E; [|destruct H].
  destruct (thread_safe_pool_atomic [5] two_threads o E) as [(k & q & -> & _ & _ & _ & _ & Hnd & _) _].
  split; [exact H|]. apply Hnd. rewrite H. apply (bool_decide_unpack _). reflexivity.
Defined.
