(* ===== verification/SharedPages.v ===== *)
(** * The page manager shared by threads

    Models the calls of [LockedPagesManagerBase] of
    [src/zen/core/common/memory.hpp] as the threads of the process make them:
    the tests before the mutex, then page after page inside. [Memory] has the
    same calls in one thread and [Pages] the operating system below them. *)
From S2P Require Import Prelude Memory Pages Monitor.
From stdpp Require Import gmap sorting.
Local Open Scope Z_scope.

Section code.
Context `{SystemCalls Sy}.
Implicit Types this : Manager Sy.

Inductive manager_call :=
  | m_lock (address size : Z)
  | m_unlock (address size : Z)
  | m_size
  | m_empty
  | m_contains (address : Z)
  | m_clear.

(** Where a call is inside the mutex: about to compute the boundaries, in one
    of the loops, or about to answer. *)
Inductive manager_place :=
  | q_lock (address size : Z)
  | q_lock_at (page end_ : Z)
  | q_unlock (address size : Z)
  | q_unlock_at (page end_ : Z)
  | q_size
  | q_empty
  | q_contains (address : Z)
  | q_clear
  | q_clear_at (pages : list Z).
Inductive manager_result := a_bool (b : bool) | a_number (n : nat) | a_void.

Definition manager_entry (c : manager_call) : manager_place + manager_result :=
  match c with
  | m_lock address size => if (address =? 0) || (size =? 0) then inr (a_bool false) else inl (q_lock address size)
  | m_unlock address size => if (address =? 0) || (size =? 0) then inr (a_bool false) else inl (q_unlock address size)
  | m_size => inl q_size
  | m_empty => inl q_empty
  | m_contains address => inl (q_contains address)
  | m_clear => inl q_clear
  end.

Definition manager_section (l : manager_place) this :
    outcome Empty_set (Manager Sy * (manager_place + manager_result)) :=
  match l with
  | q_lock address size =>
      let '(start, end_) := get_range_boundaries this address size in Return (this, inl (q_lock_at start end_))
  | q_lock_at page end_ =>
      if page <=? end_ then
        let '(this, go) := lock_page this page in
        Return (this, if go then inl (q_lock_at (u64 (page + page_size_ this)) end_) else inr (a_bool false))
      else Return (this, inr (a_bool true))
  | q_unlock address size =>
      let '(start, end_) := get_range_boundaries this address size in Return (this, inl (q_unlock_at start end_))
  | q_unlock_at page end_ =>
      if page <=? end_ then
        '(this, go) ← unlock_page this page;
        Return (this, if go : bool then inl (q_unlock_at (u64 (page + page_size_ this)) end_) else inr (a_bool false))
      else Return (this, inr (a_bool true))
  | q_size => Return (this, inr (a_number (locked_size this)))
  | q_empty => Return (this, inr (a_bool (locked_empty this)))
  | q_contains address => Return (this, inr (a_bool (locked_contains this address)))
  | q_clear => Return (this, inl (q_clear_at (pages_in_order this)))
  | q_clear_at [] => Return (this, inr a_void)
  | q_clear_at (page :: pages) => Return (clear_page this page, inl (q_clear_at pages))
  end.

#[export] Instance manager_monitor : Monitor (Manager Sy) manager_call manager_place manager_result :=
  {| entry := manager_entry; section := manager_section |}.

(** ** The calls in one thread *)

Definition manager_exec (fuel : nat) (c : manager_call) this :
    option (outcome Empty_set (Manager Sy * manager_result)) :=
  match c with
  | m_lock address size => (λ '(t, ok), Return (t, a_bool ok)) <$> lock_range fuel this address size
  | m_unlock address size =>
      (λ o, '(t, ok) ← o; Return (t, a_bool ok)) <$> unlock_range fuel this address size
  | m_size => Some (Return (this, a_number (locked_size this)))
  | m_empty => Some (Return (this, a_bool (locked_empty this)))
  | m_contains address => Some (Return (this, a_bool (locked_contains this address)))
  | m_clear => Some (Return (clear_pages this, a_void))
  end.

Inductive manager_history this : list (nat * manager_call * manager_result) → Manager Sy → Prop :=
  | manager_history_nil : manager_history this [] this
  | manager_history_snoc h m i c r m' fuel :
      manager_history this h m → manager_exec fuel c m = Some (Return (m', r)) →
      manager_history this (h ++ [(i, c, r)]) m'.

Lemma finish_lock fuel page end_ this :
  finish fuel (q_lock_at page end_) this = (λ '(t, ok), Return (t, a_bool ok)) <$> lock_loop fuel page end_ this.
Proof.
  revert page this. induction fuel as [|fuel IH]; intros page this; [done|]. cbn.
  destruct (page <=? end_); [|done]. destruct (lock_page this page) as [t []]; [apply IH|done].
Qed.

Lemma finish_unlock fuel page end_ this :
  finish fuel (q_unlock_at page end_) this =
  (λ o, '(t, ok) ← o; Return (t, a_bool ok)) <$> unlock_loop fuel page end_ this.
Proof.
  revert page this. induction fuel as [|fuel IH]; intros page this; [done|]. cbn.
  destruct (page <=? end_); [|done]. destruct (unlock_page this page) as [[t []]|[]| |]; [apply IH|done..].
Qed.

Lemma finish_clear l this :
  finish (S (length l)) (q_clear_at l) this = Some (Return (fold_left clear_page l this, a_void)).
Proof. revert this. induction l as [|p l IH]; intros this; [done|]. apply IH. Qed.

(** The steps of a call, alone, are the call of [Memory]. *)
Lemma call_exec fuel c this o :
  manager_exec fuel c this = Some o → ∃ fuel', call fuel' c this = Some o.
Proof.
  destruct c as [a n|a n| | |a|]; cbn; intros Ho; try by exists 1%nat.
  - exists (S fuel). unfold call. cbn. revert Ho. unfold lock_range. destruct (_ || _); [done|]. cbn.
    destruct (get_range_boundaries this a n). by rewrite <-finish_lock.
  - exists (S fuel). unfold call. cbn. revert Ho. unfold unlock_range. destruct (_ || _); [done|]. cbn.
    destruct (get_range_boundaries this a n). by rewrite <-finish_unlock.
  - exists (S (S (length (pages_in_order this)))). unfold call. cbn [entry manager_monitor manager_entry].
    rewrite <-Ho. apply finish_clear.
Qed.

Lemma exec_call fuel c this o :
  call fuel c this = Some o → ∃ fuel', manager_exec fuel' c this = Some o.
Proof.
  destruct c as [a n|a n| | |a|]; unfold call; cbn; try (by destruct fuel; [done|]; intros [= <-]; exists 0%nat).
  - destruct (_ || _) eqn:E; [intros [= <-]; exists 0%nat; by unfold lock_range; rewrite E|].
    destruct fuel as [|fuel]; [done|]. intros Hf. exists fuel. unfold lock_range. rewrite E. cbn in Hf.
    unfold get_range_boundaries. by rewrite <-finish_lock.
  - destruct (_ || _) eqn:E; [intros [= <-]; exists 0%nat; by unfold unlock_range; rewrite E|].
    destruct fuel as [|fuel]; [done|]. intros Hf. exists fuel. unfold unlock_range. rewrite E. cbn in Hf.
    unfold get_range_boundaries. by rewrite <-finish_unlock.
  - destruct fuel as [|fuel]; [done|]. cbn [finish section manager_monitor manager_section]. intros Hf.
    exists 0%nat. rewrite <-(finish_mono _ _ _ _ _ Hf (Nat.le_max_l _ (S (length (pages_in_order this))))).
    symmetry. eapply finish_mono; [apply finish_clear|lia].
Qed.

(** ** In every interleaving *)

(** Ranges below the last page of the address space, or those that the tests
    before the mutex refuse. *)
Definition range_valid (ps address size : Z) : Prop :=
  (address =? 0) || (size =? 0) = true ∨ 0 < address ∧ 0 < size ∧ address + size <= 2 ^ 64 - ps.
Definition manager_valid (ps : Z) (c : manager_call) : Prop :=
  match c with m_lock a n | m_unlock a n => range_valid ps a n | _ => True end.

(** What a place needs to go on: aligned pages, and pages to clear that are
    locked. *)
Definition place_ok this (l : manager_place) : Prop :=
  match l with
  | q_lock a _ | q_unlock a _ => in_range 64 a
  | q_lock_at page _ | q_unlock_at page _ => page mod page_size_ this = 0
  | q_clear_at l => NoDup l ∧ ∀ p, p ∈ l → is_Some (locked_pages_ this !! p)
  | _ => True
  end.

Lemma clear_page_lookup this p q :
  q ≠ p → locked_pages_ (clear_page this p) !! q = locked_pages_ this !! q.
Proof.
  intros Hq. unfold clear_page. destruct (lk_unlock _ _ _) as [lk []]; [|done].
  cbn [locked_pages_ with_pages with_locker]. by rewrite lookup_delete_ne.
Qed.

(** The first step of a range. *)
Lemma boundaries_aligned this address size start end_ :
  agrees this → in_range 64 address → get_range_boundaries this address size = (start, end_) →
  start mod page_size_ this = 0.
Proof.
  intros Ha Hr E. pose proof (first_page_aligned this address size (agrees_wf _ Ha) Hr) as Hp. by rewrite E in Hp.
Qed.

(** Each step inside the mutex keeps the counts and the system's pages in
    step, and returns. *)
Lemma section_agrees l this :
  agrees this → place_ok this l →
  ∃ this' o, section l this = Return (this', o) ∧ agrees this' ∧ page_size_ this' = page_size_ this ∧
    ∀ l', o = inl l' → place_ok this' l'.
Proof.
  intros Ha Hl. pose proof (wf_size _ (agrees_wf _ Ha)) as Hps.
  destruct l as [a n|page end_|a n|page end_| | |a| |[|p l]]; cbn [section manager_monitor manager_section].
  - destruct (get_range_boundaries this a n) as [start end_] eqn:E. eexists _, _. split_and!; [done..|].
    intros l' [= <-]. by eapply boundaries_aligned.
  - destruct (page <=? end_); [|by eexists _, _].
    destruct (lock_page_agrees this page Ha Hl) as [Ha' Hs]. destruct (lock_page this page) as [t go].
    eexists _, _. split_and!; [done..|]. intros l' Hl'. destruct go; [|done]. injection Hl' as <-. cbn in *.
    rewrite Hs. by apply next_page_aligned.
  - destruct (get_range_boundaries this a n) as [start end_] eqn:E. eexists _, _. split_and!; [done..|].
    intros l' [= <-]. by eapply boundaries_aligned.
  - destruct (page <=? end_); [|by eexists _, _].
    destruct (unlock_page_true this page (agrees_wf _ Ha) Hl) as (t & go & E & _). rewrite E. cbn.
    destruct (unlock_page_agrees _ _ _ _ Ha Hl E) as [Ha' Hs].
    eexists _, _. split_and!; [done..|]. intros l' Hl'. destruct go; [|done]. injection Hl' as <-. cbn.
    rewrite Hs. by apply next_page_aligned.
  - by eexists _, _.
  - by eexists _, _.
  - by eexists _, _.
  - eexists _, _. split_and!; [done..|]. intros l' [= <-]. unfold pages_in_order. split.
    + rewrite merge_sort_Permutation. apply NoDup_elements.
    + intros p. rewrite merge_sort_Permutation, elem_of_elements. apply elem_of_dom.
  - by eexists _, _.
  - destruct Hl as [Hnd Hl]. apply NoDup_cons in Hnd as [Hp Hnd]. destruct (Hl p ltac:(by left)) as [n Hn].
    destruct (clear_page_wf this p (agrees_wf _ Ha)) as (_ & Hs & _).
    eexists _, _. split_and!; [done|by eapply clear_page_agrees|done|]. intros l' [= <-]. split; [done|].
    intros q Hq. rewrite clear_page_lookup by (intros ->; done). apply Hl. by right.
Qed.

Definition well (ps : Z) this : Prop := agrees this ∧ page_size_ this = ps.

Lemma within_agrees ps c l0 this l this' :
  0 < ps → manager_valid ps c → well ps this → entry c = inl l0 → within l0 this l this' →
  well ps this' ∧ place_ok this' l.
Proof.
  intros Hps Hv Hwell He. induction 1 as [|l1 t1 l2 t2 _ [[Ha Hs] Hl] Hsec].
  - split; [done|]. revert He. destruct c as [a n|a n| | |a|]; cbn in *; try (by intros [= <-]).
    all: destruct Hv as [->|(? & ? & ?)]; [done|]; destruct (_ || _); [done|]; intros [= <-]; cbn;
      unfold in_range; lia.
  - destruct (section_agrees l1 t1 Ha Hl) as (t & o & Hr & Ha' & Hs' & Ho). rewrite Hsec in Hr.
    injection Hr as <- <-. split; [|by apply Ho]. split; [done|congruence].
Qed.

Lemma manager_sections_safe ps : 0 < ps → sections_safe (manager_valid ps) (well ps).
Proof.
  intros Hps c l0 s l s1 Hv Hwell He Hw.
  destruct (within_agrees _ _ _ _ _ _ Hps Hv Hwell He Hw) as [[Ha Hs] Hl].
  destruct (section_agrees l s1 Ha Hl) as (s2 & o & Hr & Ha' & Hs' & _).
  exists s2, o. split; [done|]. intros r _. split; [done|congruence].
Qed.

Lemma serial_manager this h m : serial this h m → manager_history this h m.
Proof.
  induction 1 as [|h m i c r m' fuel _ IH Hc]; [constructor|].
  destruct (exec_call _ _ _ _ Hc) as [f Hf]. by econstructor.
Qed.

(** A call that is alone returns. *)
Lemma manager_exec_returns ps c this :
  well ps this → manager_valid ps c → ∃ fuel this' r, manager_exec fuel c this = Some (Return (this', r)).
Proof.
  intros [Ha <-]. destruct c as [a n|a n| | |a|]; cbn; try (by intros _; eexists 0%nat, _, _).
  - intros [E|Hr]; [exists 0%nat; unfold lock_range; rewrite E; by eexists _, _|].
    destruct (lock_range_counts this a n _ (agrees_wf _ Ha) Hr (le_n _)) as (t & ok & E & _).
    exists (range_fuel this n). rewrite E. by eexists _, _.
  - intros [E|Hr]; [exists 0%nat; unfold unlock_range; rewrite E; by eexists _, _|].
    destruct (unlock_range_counts this a n _ (agrees_wf _ Ha) Hr (le_n _)) as (t & ok & E & _).
    exists (range_fuel this n). rewrite E. by eexists _, _.
Qed.

(** ** The ranges in use *)

(** The ranges locked and not yet unlocked, if no request was refused, nothing
    was cleared and each unlock was of a range in use. *)
Fixpoint remove_range (r : Z * Z) (ranges : list (Z * Z)) : option (list (Z * Z)) :=
  match ranges with
  | [] => None
  | x :: ranges => if decide (x = r) then Some ranges else (x ::.) <$> remove_range r ranges
  end.
Definition ranges_after (ranges : option (list (Z * Z))) (e : nat * manager_call * manager_result) :
    option (list (Z * Z)) :=
  ranges ← ranges;
  match e.1.2, e.2 with
  | m_lock a n, a_bool true => Some ((a, n) :: ranges)
  | m_unlock a n, a_bool true => remove_range (a, n) ranges
  | (m_lock _ _ | m_unlock _ _ | m_clear), _ => None
  | _, _ => Some ranges
  end.
Definition ranges_in_use (h : list (nat * manager_call * manager_result)) : option (list (Z * Z)) :=
  fold_left ranges_after h (Some []).
Definition in_use (ps : Z) (ranges : list (Z * Z)) (p : Z) : bool :=
  existsb (λ r, bool_decide (overlaps ps r.1 r.2 p)) ranges.
Definition uses_of (ps : Z) (ranges : list (Z * Z)) (p : Z) : Z :=
  Z.of_nat (length (filter (λ r, overlaps ps r.1 r.2 p) ranges)).

Lemma in_use_uses ps ranges p : in_use ps ranges p = (0 <? uses_of ps ranges p).
Proof.
  unfold in_use, uses_of. induction ranges as [|r ranges IH]; [done|]. cbn [existsb].
  rewrite filter_cons, IH. case_bool_decide; [rewrite decide_True by done|by rewrite decide_False by done].
  cbn. symmetry. apply Z.ltb_lt. lia.
Qed.

Lemma uses_of_cons ps a n ranges p :
  uses_of ps ((a, n) :: ranges) p = uses_of ps ranges p + if decide (overlaps ps a n p) then 1 else 0.
Proof.
  unfold uses_of. rewrite filter_cons. cbn [fst snd]. destruct (decide _); cbn [length]; lia.
Qed.

Lemma uses_of_Permutation ps ranges ranges' p :
  ranges ≡ₚ ranges' → uses_of ps ranges p = uses_of ps ranges' p.
Proof. intros Hp. unfold uses_of. by rewrite Hp. Qed.

Lemma remove_range_Permutation r ranges ranges' :
  remove_range r ranges = Some ranges' → ranges ≡ₚ r :: ranges'.
Proof.
  revert ranges'. induction ranges as [|x l IH]; intros ranges'; cbn; [done|].
  destruct (decide (x = r)) as [->|]; [by intros [= <-]|].
  destruct (remove_range r l) as [l'|]; cbn; [|done]. intros [= <-].
  rewrite (IH l') by done. constructor.
Qed.

Lemma exec_det fuel fuel' c this o o' :
  manager_exec fuel c this = Some o → manager_exec fuel' c this = Some o' → o = o'.
Proof. intros [f Hf]%call_exec [f' Hf']%call_exec. by eapply call_det. Qed.

(** A call of the manager leaves it well. *)
Lemma exec_well ps fuel c m m' r :
  0 < ps → well ps m → manager_valid ps c → manager_exec fuel c m = Some (Return (m', r)) → well ps m'.
Proof.
  intros Hps Hw Hc [f Hf]%call_exec. unfold call in Hf.
  destruct (entry c) as [l|r1] eqn:He; [|by injection Hf as <- _].
  destruct (within_agrees ps c l m l m Hps Hc Hw He (within_refl l m)) as [_ Hl]. clear He Hc.
  revert l m Hw Hl Hf. induction f as [|f IH]; intros l m [Ha Hs] Hl; cbn [finish]; [done|].
  destruct (section_agrees l m Ha Hl) as (t & o & -> & Ha' & Hs' & Ho).
  destruct o as [l'|r']; [|intros [= <- _]; split; [done|congruence]].
  apply IH; [split; [done|congruence]|by apply Ho].
Qed.

(** What a call that is not refused does to the counts. *)
Lemma exec_lock_counts ps fuel a n m m' :
  well ps m → range_valid ps a n → manager_exec fuel (m_lock a n) m = Some (Return (m', a_bool true)) →
  ∀ p, count m' p = count m p + if decide (overlaps ps a n p) then 1 else 0.
Proof.
  intros [Ha <-] [Hz|Hok] Hx; [cbn in Hx; unfold lock_range in Hx; by rewrite Hz in Hx|].
  destruct (lock_range_counts m a n _ (agrees_wf _ Ha) Hok (le_n _)) as (t & ok & Hl & _ & Hc).
  assert (Hx' : manager_exec (range_fuel m n) (m_lock a n) m = Some (Return (t, a_bool ok))) by (cbn; by rewrite Hl).
  pose proof (exec_det _ _ _ _ _ _ Hx Hx') as [= -> <-]. by apply Hc.
Qed.

Lemma exec_unlock_counts ps fuel a n m m' :
  well ps m → range_valid ps a n → manager_exec fuel (m_unlock a n) m = Some (Return (m', a_bool true)) →
  ∀ p, count m' p = if decide (overlaps ps a n p) then Z.max 0 (count m p - 1) else count m p.
Proof.
  intros [Ha <-] [Hz|Hok] Hx; [cbn in Hx; unfold unlock_range in Hx; by rewrite Hz in Hx|].
  destruct (unlock_range_counts m a n _ (agrees_wf _ Ha) Hok (le_n _)) as (t & ok & Hl & _ & Hc).
  assert (Hx' : manager_exec (range_fuel m n) (m_unlock a n) m = Some (Return (t, a_bool ok))) by (cbn; by rewrite Hl).
  pose proof (exec_det _ _ _ _ _ _ Hx Hx') as [= -> <-]. by apply Hc.
Qed.

(** What the calls one after the other leave. *)
Lemma history_counts ps this h m ranges :
  0 < ps → well ps this → (∀ p, count this p = 0) → manager_history this h m →
  Forall (λ e, manager_valid ps e.1.2) h →
  well ps m ∧ (ranges_in_use h = Some ranges → ∀ p, count m p = uses_of ps ranges p).
Proof.
  intros Hps Hw0 Hc0 Hh. revert ranges.
  induction Hh as [|h m i c r m' fuel _ IH Hx]; intros ranges Hv; [split; [done|]; by intros [= <-]|].
  apply Forall_app in Hv as [Hv Hc]. apply Forall_cons in Hc as [Hc _]. cbn [fst snd] in Hc.
  assert (Hwm : well ps m) by (by apply (IH [])). split; [by eapply exec_well|].
  unfold ranges_in_use. rewrite fold_left_app. fold (ranges_in_use h). cbn [fold_left].
  intros Hr p. destruct (ranges_in_use h) as [rs|] eqn:E; [|done].
  destruct (IH rs Hv) as [_ IHc]. specialize (IHc eq_refl p). cbn in Hr.
  destruct c as [a n|a n| | |a|]; [| |cbn in Hx; injection Hx as <- <-; by injection Hr as <-..|done].
  - destruct r as [[]| |]; try done. injection Hr as <-.
    by rewrite (exec_lock_counts _ _ _ _ _ _ Hwm Hc Hx), IHc, uses_of_cons.
  - destruct r as [[]| |]; try done. apply remove_range_Permutation in Hr.
    rewrite (exec_unlock_counts _ _ _ _ _ _ Hwm Hc Hx), IHc, (uses_of_Permutation _ _ _ _ Hr), uses_of_cons.
    assert (0 <= uses_of ps ranges p) by (unfold uses_of; lia). destruct (decide _); lia.
Qed.
Lemma instance_counts_none s this : instance None s = Return this → ∀ p, count this p = 0.
Proof.
  unfold instance, create_instance, new_Manager. destruct (_ && _); [|done]. destruct (_ =? 0); [|done].
  by intros [= <-] p.
Qed.

(** C18: Threads that share the manager of the process, in any interleaving of
    their accesses, all their ranges empty or below the last page of the
    address space: no assertion fails, and the calls that have returned did
    what they do one after the other. At every moment, in the middle of the
    calls as well, the system keeps exactly the pages with a count. If none of
    the requests was refused and each unlock was of a range in use, then
    between the calls these are the pages with a byte of a range some thread
    has locked and not unlocked: a page that two threads share is kept until
    both are done. The thread that holds the mutex can finish, and gives
    it back after a bounded number of its own steps, whatever the other threads
    do in between; and as long as a call is going on some thread can go on.
    (That a waiting thread gets the mutex is up to the system.) *)
Theorem shared_manager_atomic (s : Sy) this (ls : list (label manager_call)) o :
  let ps := page_size_ this in
  instance None s = Return this → (∀ p, os_locked s p = false) →
  Forall (valid_label (manager_valid ps)) ls → run true ls (initial this) = Some o →
  ∃ k m, o = Return k ∧ manager_history this (history k) m ∧ (held k = None → shared k = m) ∧
    (∀ p, p mod ps = 0 → os_locked (locker_ (shared k)) p = (0 <? count (shared k) p)) ∧
    (∀ ranges, held k = None → ranges_in_use (history k) = Some ranges →
       ∀ p, p mod ps = 0 → os_locked (locker_ (shared k)) p = in_use ps ranges p) ∧
    (∀ t, held k = Some t →
       (∃ n k', run true (replicate n (Go t)) k = Some (Return k') ∧ held k' = None ∧ phases k' !! t = None) ∧
       (∃ n, ∀ ls' k', run true ls' k = Some (Return k') → (n ≤ goes t ls')%nat →
         ∃ ls1 ls2 k1, ls' = ls1 ++ ls2 ∧ run true ls1 k = Some (Return k1) ∧
           held k1 = None ∧ phases k1 !! t = None)) ∧
    (phases k ≠ ∅ → ∃ t, is_Some (step true (Go t) k)).
Proof.
  intros ps Hi Hnone Hv Hr. pose proof (instance_agrees _ _ Hi Hnone) as Ha0.
  pose proof (instance_counts_none _ _ Hi) as Hc0. pose proof (wf_page_size _ (agrees_wf _ Ha0)) as [Hps _].
  assert (Hw0 : well ps this) by done.
  destruct (run_linear (manager_valid ps) (well ps) this ls (initial this) this o
    (manager_sections_safe ps Hps)) as (k & m & -> & Hl); [by apply linear_initial|done|done|].
  pose proof (serial_manager _ _ _ (linear_serial _ _ _ _ _ Hl)) as Hh.
  pose proof (linear_held _ _ _ _ _ Hl) as Hin. unfold inside_since in Hin.
  pose proof (linear_calls _ _ _ _ _ Hl) as Hcs. pose proof (linear_inv _ _ _ _ _ Hl) as Hwm.
  assert (Hws : well ps (shared k)).
  { destruct (held k) as [t|]; [|by rewrite Hin]. destruct Hin as (c & l0 & l & Hp & He & Hw).
    eapply within_agrees; [done|eapply (linear_valid _ _ _ _ _ Hl); by right|done..]. }
  assert (Hk : ∀ p, p mod ps = 0 → os_locked (locker_ (shared k)) p = (0 <? count (shared k) p)).
  { intros p Hp. destruct Hws as [Has Hs]. apply agrees_count; [done|]. by rewrite Hs. }
  exists k, m. split_and!; [done|done| |done| | |].
  - intros Hn. by rewrite Hn in Hin.
  - intros ranges Hn Hu p Hp. rewrite Hk by done. rewrite Hn in Hin. rewrite Hin, in_use_uses.
    destruct (history_counts ps this _ m ranges Hps Hw0 Hc0 Hh Hcs) as [_ Hcount]. by rewrite Hcount.
  - intros t Ht. rewrite Ht in Hin. destruct Hin as (c & l0 & l & Hp & He & Hw).
    destruct (manager_exec_returns ps c m Hwm) as (f & m' & r & Hx);
      [eapply (linear_valid _ _ _ _ _ Hl); by right|].
    destruct (call_exec _ _ _ _ Hx) as [f' Hf]. unfold call in Hf. rewrite He in Hf.
    pose proof (within_finish_rest _ _ _ _ _ _ Hw Hf) as Hrest.
    split.
    + destruct (holder_finishes k t c l f' m' r Ht Hp Hrest) as (n & k' & _ & Hrun & _ & Hh' & Hd & _).
      exists n, k'. split; [done|]. split; [done|]. rewrite Hd. apply lookup_delete_eq.
    + exists f'. intros ls' k2 Hr' Hg.
      destruct (holder_leaves f' m' r ls' k t c l k2) as (ls1 & ls2 & k1 & ? & ? & _ & ? & ? & _); try done.
      * intros t' c' l' Ht'. eapply (linear_alone _ _ _ _ _ Hl) in Ht'. congruence.
      * by exists ls1, ls2, k1.
  - by apply (linear_goes_on _ _ _ _ _ Hl).
Qed.
End code.

(** ** A witness *)

(** Two threads lock objects of the page at 4096, their steps interleaved; one
    unlocks its own again. *)
Definition two_objects : list (label manager_call) :=
  [Invoke 1 (m_lock 4100 8); Invoke 2 (m_lock 4200 8)] ++ replicate 4 (Go 1) ++ replicate 4 (Go 2) ++
  Invoke 1 (m_unlock 4100 8) :: replicate 4 (Go 1).

Lemma shared_manager_atomic_witness :
  match run (H := manager_monitor (H := ref_system)) true two_objects (initial a_fresh_manager) with
  | Some (Return k) =>
      ranges_in_use (history k) = Some [(4200, 8)] ∧ os_locked (SystemCalls := ref_system) (locker_ (shared k)) 4096 = true
  | _ => False
  end.
Proof.
  assert (Hu : match run (H := manager_monitor (H := ref_system)) true two_objects (initial a_fresh_manager) with
    | Some (Return k) => ranges_in_use (history k) = Some [(4200, 8)] ∧ held k = None
    | _ => False
    end) by (vm_compute; by split).
  destruct (run (H := manager_monitor (H := ref_system)) true two_objects (initial a_fresh_manager)) as [o|] eqn:E;
    [|destruct Hu].
  assert (Hi : instance (H := ref_system) None [] = Return a_fresh_manager) by (vm_compute; reflexivity).
  assert (Hv : Forall (valid_label (manager_valid (page_size_ a_fresh_manager))) two_objects).
  { repeat (apply Forall_cons_2; [first [exact I|right; cbn; lia]|]). constructor. }
  destruct (shared_manager_atomic (H := ref_system) [] a_fresh_manager two_objects o Hi (λ _, eq_refl) Hv E)
    as (k & m & -> & _ & _ & _ & Hkept & _).
  destruct Hu as [Hu Hn]. split; [exact Hu|]. exact (Hkept _ Hn Hu 4096 eq_refl).
Defined.
