(* ===== verification/SharedLog.v ===== *)
(** * The output of the log shared by threads

    Models [BufferBase::flush] of [src/zen/node/common/log.cpp] as threads run
    it: the line is made from the thread's own buffer, then [out_mtx] is taken
    and the line goes to the console and to the log file, write by write.
    [Log] has the same function in one thread. The settings are those of
    [init], which is documented to run at the start of the process only. *)
From S2P Require Import Prelude Terminal Log Monitor.
From stdpp Require Import gmap.
Local Open Scope nat_scope.

(** The writes to the stream the settings name, and to an open file. *)
Definition write_out (text : list byte) st : logger :=
  if log_std_out (settings_ st)
  then mk_logger (settings_ st) (file_ st) (tz st) (thread_name_ st) (cout st ++ text) (cerr st) (files st)
  else mk_logger (settings_ st) (file_ st) (tz st) (thread_name_ st) (cout st) (cerr st ++ text) (files st).
Definition write_file (path text : list byte) st : logger :=
  mk_logger (settings_ st) (file_ st) (tz st) (thread_name_ st) (cout st) (cerr st)
    (<[path := default [] (files st !! path) ++ text]> (files st)).
Definition reset_file st : logger :=
  mk_logger (settings_ st) None (tz st) (thread_name_ st) (cout st) (cerr st) (files st).

Section code.
Context (nocolor : bool).

(** The line for the console, and the one without colours for the file. *)
Definition console_line (buf : BufferBase) : list byte := if nocolor then uncolored (ss_ buf) else ss_ buf.
Definition file_line (buf : BufferBase) : list byte :=
  if nocolor then console_line buf else uncolored (console_line buf).

Inductive flush_place :=
  | f_line (line plain : list byte)
  | f_endl (plain : list byte)
  | f_file (plain : list byte)
  | f_file_endl (path : list byte).

Definition flush_entry (buf : BufferBase) : flush_place + unit :=
  if should_print_ buf then inl (f_line (console_line buf) (file_line buf)) else inr tt.

Definition flush_section (l : flush_place) st : outcome Empty_set (logger * (flush_place + unit)) :=
  match l with
  | f_line line plain => Return (write_out line st, inl (f_endl plain))
  | f_endl plain => Return (write_out endl st, inl (f_file plain))
  | f_file plain =>
      match file_ st with
      | Some (path, true) => Return (write_file path plain st, inl (f_file_endl path))
      | Some (_, false) => Return (reset_file st, inr tt)
      | None => Return (st, inr tt)
      end
  | f_file_endl path => Return (write_file path endl st, inr tt)
  end.

#[export] Instance flush_monitor : Monitor logger BufferBase flush_place unit :=
  {| entry := flush_entry; section := flush_section |}.

Definition nocolor_set st : Prop := log_nocolor (settings_ st) = nocolor.

Lemma write_out_app a b st : write_out b (write_out a st) = write_out (a ++ b) st.
Proof. unfold write_out. destruct (log_std_out (settings_ st)) eqn:E; cbn; rewrite E; by rewrite <-app_assoc. Qed.

Lemma write_file_app path a b st : write_file path b (write_file path a st) = write_file path (a ++ b) st.
Proof. unfold write_file. cbn. rewrite lookup_insert_eq, insert_insert_eq. cbn. by rewrite <-app_assoc. Qed.

Lemma write_out_settings text st :
  settings_ (write_out text st) = settings_ st ∧ file_ (write_out text st) = file_ st ∧
  files (write_out text st) = files st.
Proof. unfold write_out. by destruct (log_std_out (settings_ st)). Qed.

Lemma print_file_writes plain st :
  print_file plain st = match file_ st with
                        | Some (path, true) => write_file path (plain ++ endl) st
                        | Some (_, false) => reset_file st
                        | None => st
                        end.
Proof. done. Qed.

Lemma flush_writes buf st :
  nocolor_set st → should_print_ buf = true →
  flush buf st = print_file (file_line buf) (write_out (console_line buf ++ endl) st).
Proof.
  intros Hn Hp. unfold flush, file_line, console_line. rewrite Hp, Hn. by destruct nocolor.
Qed.

(** The writes of a call, alone, are [flush]. *)
Lemma flush_call buf st : nocolor_set st → call 5 buf st = Some (Return (flush buf st, tt)).
Proof.
  intros Hn. unfold call. cbn [entry flush_monitor]. unfold flush_entry.
  destruct (should_print_ buf) eqn:Hp; [|by unfold flush; rewrite Hp].
  rewrite flush_writes, print_file_writes by done.
  cbn [finish section flush_monitor flush_section]. rewrite write_out_app.
  destruct (file_ (write_out _ st)) as [[path []]|]; try done.
  cbn [flush_section]. by rewrite write_file_app.
Qed.

(** ** In every interleaving *)

(** The stream the lines go to and the other one, and what a file holds. *)
Definition shown st : list byte := if log_std_out (settings_ st) then cout st else cerr st.
Definition hidden st : list byte := if log_std_out (settings_ st) then cerr st else cout st.
Definition content (path : list byte) st : list byte := default [] (files st !! path).
Definition tees (path : list byte) st : bool := bool_decide (file_ st = Some (path, true)).

(** The buffers printed, in the order in which the calls returned. *)
Definition printed (h : list (nat * BufferBase * unit)) : list BufferBase :=
  filter (λ buf, should_print_ buf) ((λ e, e.1.2) <$> h).
Definition lines (line : BufferBase → list byte) (bufs : list BufferBase) : list byte :=
  concat ((λ buf, line buf ++ endl) <$> bufs).

(** The output [st'] is [st] with the lines of these buffers. *)
Record output st (bufs : list BufferBase) st' : Prop := {
  output_settings : settings_ st' = settings_ st;
  output_shown : shown st' = shown st ++ lines console_line bufs;
  output_hidden : hidden st' = hidden st;
  output_tees path : tees path st' = tees path st;
  output_content path : content path st' = content path st ++ (if tees path st then lines file_line bufs else [])
}.

Lemma output_nil st : output st [] st.
Proof. split; try done; [by rewrite app_nil_r|]. intros path. by destruct (tees path st); rewrite app_nil_r. Qed.

Lemma lines_app line bufs bufs' : lines line (bufs ++ bufs') = lines line bufs ++ lines line bufs'.
Proof. unfold lines. by rewrite fmap_app, concat_app. Qed.

Lemma output_trans st bufs st1 bufs' st2 :
  output st bufs st1 → output st1 bufs' st2 → output st (bufs ++ bufs') st2.
Proof.
  intros [Hs Ho Hh Ht Hc] [Hs' Ho' Hh' Ht' Hc']. split; try congruence.
  - by rewrite Ho', Ho, lines_app, <-app_assoc.
  - intros path. rewrite Hc', Hc, Ht. destruct (tees path st); [|by rewrite !app_nil_r].
    by rewrite lines_app, <-app_assoc.
Qed.

Lemma write_out_output buf st :
  let st' := write_out (console_line buf ++ endl) st in
  settings_ st' = settings_ st ∧ shown st' = shown st ++ lines console_line [buf] ∧ hidden st' = hidden st ∧
  file_ st' = file_ st ∧ files st' = files st.
Proof.
  cbn zeta. unfold write_out, shown, hidden, lines. cbn. rewrite app_nil_r.
  destruct (log_std_out (settings_ st)) eqn:E; cbn; by rewrite E.
Qed.

Lemma flush_output buf st : nocolor_set st → output st (if should_print_ buf then [buf] else []) (flush buf st).
Proof.
  intros Hn. destruct (should_print_ buf) eqn:Hp; [|unfold flush; rewrite Hp; apply output_nil].
  rewrite flush_writes, print_file_writes by done.
  destruct (write_out_output buf st) as (Hs & Ho & Hh & Hf & Hfs).
  set (st1 := write_out _ st) in *. rewrite Hf.
  assert (Hl : lines file_line [buf] = file_line buf ++ endl) by apply app_nil_r.
  destruct (file_ st) as [[path []]|] eqn:E; (split; [exact Hs|exact Ho|exact Hh|intros path'..]).
  - unfold tees. cbn. by rewrite Hf, E.
  - unfold content, tees, write_file. cbn [files]. rewrite Hfs, E, Hl. case_bool_decide as Hd.
    + injection Hd as ->. by rewrite lookup_insert_eq.
    + rewrite lookup_insert_ne, app_nil_r by congruence. done.
  - unfold tees. rewrite E. cbn. by rewrite !bool_decide_false by done.
  - unfold content, tees. cbn [files reset_file]. by rewrite Hfs, E, bool_decide_false, app_nil_r by done.
  - unfold tees. by rewrite Hf, E.
  - unfold content, tees. by rewrite Hfs, E, bool_decide_false, app_nil_r by done.
Qed.

Lemma serial_output st h m :
  nocolor_set st → serial st h m → nocolor_set m ∧ output st (printed h) m.
Proof.
  intros Hn. induction 1 as [|h m i buf r m' fuel _ [Hm IH] Hc]; [split; [done|apply output_nil]|].
  pose proof (call_det _ _ _ _ _ _ (flush_call buf m Hm) Hc) as [= <- _].
  pose proof (flush_output buf m Hm) as Ho. split.
  - unfold nocolor_set. by rewrite (output_settings _ _ _ Ho).
  - unfold printed. rewrite fmap_app, filter_app. eapply output_trans; [done|].
    cbn [fmap list_fmap fst snd]. rewrite filter_cons. by destruct (should_print_ buf).
Qed.

Lemma within_settings l st l' st' : within l st l' st' → settings_ st' = settings_ st.
Proof.
  induction 1 as [|l1 st1 l2 st2 _ IH Hs]; [done|]. rewrite <-IH.
  destruct l1 as [line plain|plain|plain|path]; cbn in Hs; simplify_eq; try done.
  1,2: by apply write_out_settings.
  destruct (file_ st1) as [[path []]|]; by simplify_eq.
Qed.

Lemma flush_sections_safe : sections_safe (λ _ : BufferBase, True) nocolor_set.
Proof.
  intros buf l0 st l st1 _ Hn He Hw. pose proof (flush_call buf st Hn) as Hf. unfold call in Hf.
  rewrite He in Hf. pose proof (within_finish_rest _ _ _ _ _ _ Hw Hf) as Hr. cbn [finish] in Hr.
  destruct (section l st1) as [[st2 o]| | |] eqn:E; try done. exists st2, o. split; [done|]. intros r ->.
  injection Hr as ->. unfold nocolor_set. by rewrite (output_settings _ _ _ (flush_output buf st Hn)).
Qed.

(** C38: The lines of the log are whole in every interleaving of the threads
    that print them: between the calls the console holds what it held and
    then, for each statement that has returned and was to be printed, its line
    and an end of line, and the open log file holds the same lines, in the same
    order, without the colours; the other stream and the other files stay as
    they were. No thread that prints waits for ever for the others: as long
    as one is printing some thread can go on, and the one that holds the mutex
    is done in five of its steps. *)
Theorem log_lines_whole (st : logger) (ls : list (label BufferBase)) o :
  log_nocolor (settings_ st) = nocolor → run true ls (initial st) = Some o →
  ∃ k, o = Return k ∧ (held k = None → output st (printed (history k)) (shared k)) ∧
    (∀ t, held k = Some t → ∃ n k', n ≤ 5 ∧ run true (replicate n (Go t)) k = Some (Return k') ∧ held k' = None) ∧
    (phases k ≠ ∅ → ∃ t, is_Some (step true (Go t) k)).
Proof.
  intros Hn Hr.
  destruct (run_linear (λ _ : BufferBase, True) nocolor_set st ls (initial st) st o flush_sections_safe)
    as (k & m & -> & Hl); [by apply linear_initial|by apply Forall_true; intros []|done|].
  destruct (serial_output _ _ _ Hn (linear_serial _ _ _ _ _ Hl)) as [Hm Ho].
  pose proof (linear_held _ _ _ _ _ Hl) as Hin. unfold inside_since in Hin.
  exists k. split_and!; [done| | |].
  - intros Hk. rewrite Hk in Hin. by rewrite Hin.
  - intros t Ht. rewrite Ht in Hin. destruct Hin as (buf & l0 & l & Hp & He & Hw).
    pose proof (flush_call buf m Hm) as Hf. unfold call in Hf. rewrite He in Hf.
    pose proof (within_finish_rest _ _ _ _ _ _ Hw Hf) as Hrest.
    destruct (holder_finishes k t buf l _ _ _ Ht Hp Hrest) as (n & k' & Hle & Hrun & _ & Hh & _).
    by exists n, k'.
  - by apply (linear_goes_on _ _ _ _ _ Hl).
Qed.
End code.

(** ** A witness *)

(** Two threads print at once, to the standard error and to a file. *)
Definition two_lines : list (label BufferBase) :=
  [Invoke 1 (mk_BufferBase true None (chars "one")); Invoke 2 (mk_BufferBase true None (chars "two"))] ++
  replicate 5 (Go 2) ++ replicate 5 (Go 1).

Lemma log_lines_whole_witness :
  match run (H := flush_monitor false) true two_lines (initial sample_logger) with
  | Some (Return k) =>
      shown (shared k) = chars "two" ++ endl ++ chars "one" ++ endl ∧
      content (chars "zen.log") (shared k) = chars "old;two" ++ endl ++ chars "one" ++ endl
  | _ => False
  end.
Proof.
  assert (Hu : match run (H := flush_monitor false) true two_lines (initial sample_logger) with
    | Some (Return k) => printed (history k) = [mk_BufferBase true None (chars "two"); mk_BufferBase true None (chars "one")] ∧
        held k = None
    | _ => False
    end) by (vm_compute; by split).
  destruct (run (H := flush_monitor false) true two_lines (initial sample_logger)) as [o|] eqn:E; [|destruct Hu].
  destruct (log_lines_whole false sample_logger two_lines o eq_refl E) as (k & -> & Ho & _).
  destruct Hu as [Hu Hn]. specialize (Ho Hn). rewrite Hu in Ho. destruct Ho as [_ Hs _ _ Hc].
  specialize (Hc (chars "zen.log")). rewrite Hs, Hc. split; vm_compute; reflexivity.
Defined.
